(* ===== verification/_CoqProject ===== *)
-Q . S2P
Prelude.v
Utf8.v
Str.v
Redact.v
RedactNpmrc.v
RedactEnv.v
RedactKey.v
RedactYaml.v
Paths.v
Lexical.v
Access.v
Gate.v
Profiles.v
Targets.v
Inodes.v
Eff.v
Rel.v
Os.v
Attr.v
Overlay.v
Handlers.v
Fds.v
OverlayInv.v
MemOs.v
OverlaySafety.v
OverlayTheorems.v
OverlayIo.v
OverlayEdit.v
OverlayAttr.v
Termination.v
Secrecy.v
Editing.v
MemLow.v
Store.v
StoreRefine.v
StoreSteps.v
StoreWrites.v
StoreSecret.v
NonInterference.v
StoreTheorems.v
GateSession.v
Dns.v
Proxy.v
Chunking.v
Stream.v
Stack.v
Tun.v
TunDevice.v
Listeners.v
Bridge.v
Smoltcp.v
NetLoop.v
NetSafety.v
NetTheorems.v
Delivery.v
Cert.v
Mitm.v
Logging.v
Launch.v
Conformance.v
