(* ===== verification/Prelude.v ===== *)
(** * airgap: a verification library for the secret-redacting sandbox launcher

    airgap ([src/src]) runs a program so that it cannot read the secrets of the
    working directory and of the home directory.  A FUSE overlay ([fs.rs]) over
    each of them serves redacted views of secret files ([redact.rs]) and merges
    edits back into the originals; for package managers a gate asks the user
    before a file outside an allow-list is opened ([profiles/npm.rs]).  With
    [--mitm] the program also gets a network of its own ([mitm/]): every name
    resolves to a user-space TCP stack, whose connections a proxy terminates,
    rewrites and forwards.  [main.rs] puts all this in place before the program
    starts and takes it down afterwards.

    ** The files, and the code they model

    - [Prelude] (this file): notations, tactics, the hint database [airgap], list
      and string operations of the Rust library.  [Utf8]: [from_utf8] and
      [as_bytes] with their round trip.  [Str]: [trim], [lines],
      [to_ascii_lowercase], [replacen].  [Eff]: outcomes, the state monad, its
      weakest preconditions, frames, panic freedom, and event logs ([traces]).
      [Rel]: two runs side by side ([rel], [couple]).
    - [redact.rs]: [Redact] has every function; [RedactNpmrc], [RedactEnv],
      [RedactKey] and [RedactYaml] its theorems: served bytes do not depend on the
      secrets (non-interference), merging back an edit restores them (round
      trips), what is served shows nothing a save put back.
    - [std::path]: [Paths]; [Lexical]: [lexically_normalize] refines a stack
      machine on components.
    - [profiles/]: [Access] is the interface the gate offers to the overlay (the
      class [DirAccess] and its laws [DirAccessSpec]); [Gate] implements it
      ([npm.rs]); [Profiles] resolves programs to profiles ([mod.rs],
      [ai_agents.rs]); [Targets] chooses the directories to overlay ([main.rs]).
    - [fs.rs]: [Inodes] is the inode table: its two maps are inverse but for the
      numbers of paths that a rename replaced.  [Os] is the interface of the kernel
      (class [Os], what is relied on of Linux in [OsSpec], a positioned write on a
      descriptor opened with [O_APPEND] landing at the end of the file); [Attr] are
      the attribute and flag conversions; [Overlay] has the state [St] (the world,
      the inode table, the handles, the gate) and the methods of [OverlayFs];
      [Handlers] has every FUSE request handler, their [dispatch], and sessions as reachability.
      [OverlayInv] proves the handle invariant through the operations; [MemOs] is
      an in-memory kernel satisfying [OsSpec], on which witnesses run;
      [OverlaySafety], [OverlayTheorems], [OverlayIo], [OverlayEdit] and
      [OverlayAttr] hold the theorems: a handle serves only output of redaction,
      unless it was put on the file itself by an open that took the file for no
      secret or by a creation ([put_raw]); protected names never open raw, the
      gate's denial is final, reads and writes are windows of buffers, an edit
      session stores exactly [merge original written], an unedited view leaves
      the file as it was, links and sizes show no more than the view does, and no
      request panics.
      [Fds] keeps the books of the open descriptors; [Termination]: every session
      of requests ends, whatever it does, the fuel does not matter and no
      descriptor leaks ([ends], [halts], over kernels with [OsFiles]).  [Secrecy],
      [Editing], [MemLow] and [NonInterference]: a session gets the same replies
      from two kernels whose files differ in secrets only, one that only reads
      ([OsLow]) and one that edits and saves ([OsEdit]), and why renaming across
      kinds of names, linking, and creating over a file without a mergeable
      handler are left out of the latter ([edit_only]).  [Store] is the abstract
      specification of a session: files, names, the inode table and handles, one
      step for each request ([store_step]); [StoreRefine] has the abstraction
      ([abs]) and the laws of the kernel it needs ([OsStore]), [StoreSteps] and
      [StoreWrites] show that every handler is a step, [StoreSecret] proves on the
      specification alone that a secret whose names stay as they are changes by
      merges only, and by a creation that asks to empty it, and [StoreTheorems]
      brings both back to the overlay.  [GateSession] puts overlay and
      gate together: what a session opens was approved, nothing is asked twice.
    - [mitm/]: [Dns] is the stub resolver's answer; [Proxy] the configuration, the
      head rewriting (the exact list of headers sent) and the connection handler
      (each step upstream only after all before it succeeded), [Chunking] its independence of how
      the request is cut into reads; [Stream] the asynchronous byte stream over
      bounded channels; [Stack] the service of one connection and the [Link] of
      socket, channels and stream as a step relation; [Tun] the packet inbox and
      SYN inspection, [TunDevice] the creation of the device and its tokens;
      [Listeners] accepting; [Bridge] the theorems on one connection.  [Smoltcp] is
      the interface of the network stack library; over it [NetLoop] has the whole
      [Stack], one iteration of [run] ([tick]) with the DNS socket's service and
      [service_conns], and the runs of loop and proxy together ([net_reachable]);
      [NetSafety] proves their invariant and [NetTheorems] the theorems, with a
      small network stack to run them on, a handle without a socket being a panic
      that is shown not to happen; [Delivery] is their progress: a service pass
      leaves nothing behind that could be moved, and in boundedly many rounds
      everything is delivered and the sending half closed.  [Cert] is the CA, the certificate cache
      and the upstream roots.  [Mitm] is the lifecycle ([mitm.rs], [netns.rs], the
      start of the netstack thread).
    - [logging.rs]: [Logging].
    - [main.rs]: [Launch] is [main] and [run] as a log of events; its theorems are
      that the program is executed only under complete protection, and that a
      refusal comes before anything is touched.
    - [Conformance] runs the repository's unit tests on the model.

    ** Conventions

    Bytes, characters and machine integers are [Z]; where a sum, a length or a
    conversion can leave its width this is written out ([as_i64], [as_u32],
    [write_buffer]) and a panic is an outcome.  A handler is a function
    [MR St Reply]: a state transformer ending in a reply or an [errno].  Loops the
    kernel or a peer drives take fuel and end in [OutOfFuel] without it.
    [read_all] needs more fuel than the file has bytes, [write_all_at] more than
    there are bytes to write, [walk_qname] more than the datagram's length and
    [read_head] more than [MAX_HEAD] bytes, as each step makes progress; the
    theorems about them state this bound and conclude that the result is
    produced; [every_session_ends] needs no bound, some fuel being enough for any
    session.  [pump_in] runs on the channel's capacity and [dns_loop] on the
    number of the socket's packet slots, which are proved to be enough.

    ** Parameters

    Code that is not the repository's is a parameter: the kernel ([Os]), dotenvy
    ([Dotenvy]), serde_yaml ([SerdeYaml], [parse_config]), the terminal ([Tty])
    and environment ([ProcEnv]), httparse ([Httparse]), rustls and the upstream
    ([Peers]), smoltcp's sockets, socket set and interface ([TcpSock], [UdpSock],
    [SmolSet], [Iface]), the order of a hash map ([HashOrder]), rcgen ([Rcgen]),
    rustls' root store ([Roots]), and the answers of the system to the launcher,
    the logger and the TUN device ([Host], [MitmHost], [LogHost], [TunHost]).  Laws
    are assumed only in the [..Spec] classes, in [OsFiles], [OsLow], [OsEdit],
    [OsStore] and [TcpSockLive], in [DotenvyReads] (the parser reads lines of plain
    keys, by its own grammar, and plain values back) and in named hypotheses; each
    has an instance among the witnesses.

    ** What is left out

    A FUSE request, an iteration of the event loop and a poll of a stream are
    atomic steps, in any order; requests served concurrently are not modelled.  The
    channels are the only state the two network threads share.  The texts of log
    lines and errors are left out, wakers too, and the [select!] that ends an
    iteration only decides when the next one starts.  Lengths near [isize::MAX]
    that no allocation can reach are panics only where the code computes with them.
    The sum of an offset and a count handed to the kernel does not wrap.  Not
    modelled: clap's parsing, the texts of messages, the end-to-end tests, and what
    the libraries named above do.

    The abstract store leaves open what attributes a reply carries ([OverlayAttr]
    is about them) and which names appear with a [mkdir], [rename], [link] or
    [symlink], as that is the kernel's.

    ** What could come next

    Secrecy of editing sessions in which [.env] secrets differ: it needs more of
    dotenvy than is documented, see [merge_env_writes_dollar_bare]. *)

From Stdlib Require Export ZArith Lia Bool Ascii String.
From stdpp Require Export prelude gmap strings.

#[global] Open Scope Z_scope.

(** ** Data shared by every component

    A byte ([u8]) is a [Z] in [0, 256), a [char] is a [Z] holding a Unicode
    scalar value, and both [&[u8]] / [OsStr] and [&str] are lists of those.
    Machine integers are [Z] with their wrap-around written out. *)

Abbreviation u8 := Z (only parsing).
Abbreviation char := Z (only parsing).
Abbreviation bytes := (list Z) (only parsing).
Abbreviation str := (list Z) (only parsing).

Definition u64_modulus : Z := 2 ^ 64.

(** A source literal: the code points (equivalently, for ASCII, the bytes) of
    a string constant of the program. *)
Definition lit (s : string) : list Z :=
  map (λ a, Z.of_N (N_of_ascii a)) (list_ascii_of_string s).

#[global] Arguments lit : simpl never.

Declare Scope airgap_scope.
Delimit Scope airgap_scope with airgap.
#[global] Open Scope airgap_scope.

(** Named characters of the source ([b'\n'], ['='], ['/'], ...). *)
Abbreviation LF := 10 (only parsing).
Abbreviation CR := 13 (only parsing).
Abbreviation SPACE := 32 (only parsing).
Abbreviation DQUOTE := 34 (only parsing).
Abbreviation SQUOTE := 39 (only parsing).
Abbreviation HASH := 35 (only parsing).
Abbreviation DOT := 46 (only parsing).
Abbreviation SLASH := 47 (only parsing).
Abbreviation COLON := 58 (only parsing).
Abbreviation SEMI := 59 (only parsing).
Abbreviation EQUALS := 61 (only parsing).
Abbreviation BACKSLASH := 92 (only parsing).

(** ** [Result] *)

Inductive result (A E : Type) : Type :=
| Ok (a : A)
| Err (e : E).
Arguments Ok {A E} a.
Arguments Err {A E} e.

Definition rbind {A B E} (r : result A E) (k : A → result B E) : result B E :=
  match r with Ok a => k a | Err e => Err e end.

Definition map_err {A E F} (f : E → F) (r : result A E) : result A F :=
  match r with Ok a => Ok a | Err e => Err (f e) end.

Definition ok_or {A E} (o : option A) (e : E) : result A E :=
  match o with Some a => Ok a | None => Err e end.

Definition rmap {A B E} (f : A → B) (r : result A E) : result B E :=
  match r with Ok a => Ok (f a) | Err e => Err e end.

(** The [?] operator. *)
Notation "'let?' x ':=' r 'in' k" := (rbind r (λ x, k))
  (at level 10, x pattern, r at level 100, k at level 200) : airgap_scope.

Lemma rbind_Ok {A B E} (r : result A E) (k : A → result B E) b :
  rbind r k = Ok b ↔ ∃ a, r = Ok a ∧ k a = Ok b.
Proof. destruct r; simpl; naive_solver. Qed.

(** ** Tactics *)

(** Linear arithmetic with division and remainder by constants. *)
Ltac div_lia := Z.to_euclidean_division_equations; lia.

(** Case analysis on every boolean comparison the goal or a hypothesis tests. *)
Ltac case_Zcmp :=
  repeat match goal with
  | |- context [?a =? ?b] => destruct (Z.eqb_spec a b)
  | |- context [?a <=? ?b] => destruct (Z.leb_spec a b)
  | |- context [?a <? ?b] => destruct (Z.ltb_spec a b)
  | H : context [?a =? ?b] |- _ => destruct (Z.eqb_spec a b)
  | H : context [?a <=? ?b] |- _ => destruct (Z.leb_spec a b)
  | H : context [?a <? ?b] |- _ => destruct (Z.ltb_spec a b)
  end.

Create HintDb airgap.

(** ** Operations on [&[T]] and [&str] used by the program *)

(** [s.split(c)]: always at least one piece. *)
Fixpoint split_on (c : Z) (s : list Z) : list (list Z) :=
  match s with
  | [] => [[]]
  | x :: s' =>
      if x =? c then [] :: split_on c s'
      else match split_on c s' with
           | l :: ls => (x :: l) :: ls
           | [] => [[x]]
           end
  end.

(** The inverse: pieces separated by [c] (the [if i > 0 { push(c) }] idiom). *)
Fixpoint join_with (c : Z) (ls : list (list Z)) : list Z :=
  match ls with
  | [] => []
  | [l] => l
  | l :: ls' => l ++ c :: join_with c ls'
  end.

(** [s.split_once(c)] *)
Fixpoint split_once (c : Z) (s : list Z) : option (list Z * list Z) :=
  match s with
  | [] => None
  | x :: s' =>
      if x =? c then Some ([], s')
      else match split_once c s' with
           | Some (a, b) => Some (x :: a, b)
           | None => None
           end
  end.

(** [s.rsplit_once(c)] *)
Definition rsplit_once (c : Z) (s : list Z) : option (list Z * list Z) :=
  match split_once c (reverse s) with
  | Some (b, a) => Some (reverse a, reverse b)
  | None => None
  end.

(** [s.starts_with(p)] *)
Fixpoint starts_with {A} `{EqDecision A} (s p : list A) {struct p} : bool :=
  match p, s with
  | [], _ => true
  | y :: p', x :: s' => bool_decide (x = y) && starts_with s' p'
  | _ :: _, [] => false
  end.

(** [s.ends_with(p)] *)
Definition ends_with (s p : list Z) : bool := starts_with (reverse s) (reverse p).

(** [xs.contains(&x)] *)
Definition contains {A} `{EqDecision A} (xs : list A) (x : A) : bool :=
  existsb (λ y, bool_decide (y = x)) xs.

#[global] Arguments contains : simpl never.

(** [&s[a..b]] for in-range bounds. *)
Definition slice {A} (a b : nat) (s : list A) : list A := take (b - a) (drop a s).

(** [v.resize(n, 0)] *)
Definition resize_zero (n : nat) (v : list Z) : list Z :=
  take n v ++ replicate (n - length v) 0.

(** [iter.collect::<Option<Vec<_>>>()] *)
Fixpoint collect {A} (l : list (option A)) : option (list A) :=
  match l with
  | [] => Some []
  | Some a :: l' => match collect l' with Some s => Some (a :: s) | None => None end
  | None :: _ => None
  end.

(** ** Lemmas *)

Lemma length_lit s : length (lit s) = String.length s.
Proof. unfold lit. rewrite length_map. induction s as [|c s IH]; [done|]. cbn. by rewrite IH. Qed.

Lemma collect_fmap_Some {A} (s : list A) : collect (Some <$> s) = Some s.
Proof. induction s as [|x s IH]; [done|]. cbn. by rewrite IH. Qed.

Lemma collect_cons {A} (x : option A) xs s :
  collect (x :: xs) = Some s → ∃ c s', x = Some c ∧ collect xs = Some s' ∧ s = c :: s'.
Proof. destruct x; cbn; [|done]. destruct (collect xs); simpl; intros; simplify_eq; eauto 6. Qed.


Lemma split_on_nonnil c s : split_on c s ≠ [].
Proof. destruct s as [|x s]; simpl; [done|]. by destruct (x =? c), (split_on c s). Qed.

(** The shape of [split_on] on a non-separator, without the impossible case. *)
Lemma split_on_cons_ne c x s :
  x ≠ c → ∃ l ls, split_on c s = l :: ls ∧ split_on c (x :: s) = (x :: l) :: ls.
Proof.
  intros Hx. simpl. destruct (Z.eqb_spec x c) as [->|_]; [done|].
  destruct (split_on c s) as [|l ls] eqn:E; [by destruct (split_on_nonnil c s)|].
  eauto.
Qed.

Lemma join_with_cons c l ls :
  ls ≠ [] → join_with c (l :: ls) = l ++ c :: join_with c ls.
Proof. by destruct ls. Qed.

Lemma join_split c s : join_with c (split_on c s) = s.
Proof.
  induction s as [|x s IH]; [done|].
  destruct (decide (x = c)) as [->|Hx].
  - cbn [split_on]. rewrite Z.eqb_refl, join_with_cons by apply split_on_nonnil.
    simpl. by rewrite IH.
  - destruct (split_on_cons_ne c x s Hx) as (l & ls & E & ->).
    rewrite E in IH. destruct ls; simpl in *; by rewrite IH.
Qed.

Lemma split_on_pieces c s : Forall (λ l, c ∉ l) (split_on c s).
Proof.
  induction s as [|x s IH]; [repeat constructor; set_solver|].
  destruct (decide (x = c)) as [->|Hx].
  - cbn [split_on]. rewrite Z.eqb_refl. constructor; [set_solver|done].
  - destruct (split_on_cons_ne c x s Hx) as (l & ls & E & ->).
    rewrite E in IH. inversion_clear IH. constructor; [set_solver|done].
Qed.

Lemma split_on_notin c s : c ∉ s → split_on c s = [s].
Proof.
  induction s as [|x s IH]; [done|]. intros Hc.
  destruct (split_on_cons_ne c x s) as (l & ls & E & ->); [set_solver|].
  rewrite IH in E by set_solver. by simplify_eq.
Qed.

Lemma split_on_app c a b :
  c ∉ a → split_on c (a ++ c :: b) = a :: split_on c b.
Proof.
  induction a as [|x a IH]; intros Hc.
  - simpl. by rewrite Z.eqb_refl.
  - destruct (split_on_cons_ne c x (a ++ c :: b)) as (l & ls & E & E'); [set_solver|].
    change ((x :: a) ++ c :: b) with (x :: (a ++ c :: b)). rewrite E'.
    rewrite IH in E by set_solver. by simplify_eq.
Qed.

Lemma split_join c ls :
  ls ≠ [] → Forall (λ l, c ∉ l) ls → split_on c (join_with c ls) = ls.
Proof.
  induction ls as [|l ls IH]; [done|]. intros _ [Hl Hls]%Forall_cons.
  destruct ls as [|l' ls]; [by apply split_on_notin|].
  rewrite join_with_cons, split_on_app by done. by rewrite IH.
Qed.

Lemma split_on_Forall P c s : Forall P s → Forall (Forall P) (split_on c s).
Proof.
  induction 1 as [|x s Hx _ IH]; [repeat constructor|]. cbn [split_on].
  destruct (x =? c); [by constructor|].
  destruct (split_on c s); [by repeat constructor|]. inversion_clear IH. by repeat constructor.
Qed.

Lemma join_with_Forall (P : Z → Prop) c ls : P c → Forall (Forall P) ls → Forall P (join_with c ls).
Proof.
  intros Hc. induction 1 as [|l ls Hl Hls IH]; [constructor|].
  destruct ls; [done|]. rewrite join_with_cons by done. apply Forall_app. split; [done|by constructor].
Qed.

(** A line-wise transform that never introduces the separator acts on the
    pieces of the joined text. *)
Lemma split_join_map c (f : list Z → list Z) s :
  (∀ l, c ∉ l → c ∉ f l) →
  split_on c (join_with c (map f (split_on c s))) = map f (split_on c s).
Proof.
  intros Hf. apply split_join.
  - destruct (split_on c s) eqn:E; [by destruct (split_on_nonnil c s)|done].
  - apply Forall_fmap. eapply Forall_impl; [apply split_on_pieces|]. eauto.
Qed.

Lemma Forall2_map_r {A B C} (P : A → C → Prop) (f : B → C) (k : list B) (l : list A) :
  Forall2 (λ x y, P x (f y)) l k → Forall2 P l (map f k).
Proof. induction 1; constructor; done. Qed.

Lemma split_once_sound c s a b :
  split_once c s = Some (a, b) → s = a ++ c :: b ∧ c ∉ a.
Proof.
  revert a. induction s as [|x s IH]; intros a H; simplify_eq/=.
  destruct (Z.eqb_spec x c) as [->|Hx]; [simplify_eq; set_solver|].
  destruct (split_once c s) as [[a' b']|]; simplify_eq.
  destruct (IH a') as [-> Ha]; [done|]. set_solver.
Qed.

Lemma split_once_app c a b : c ∉ a → split_once c (a ++ c :: b) = Some (a, b).
Proof.
  induction a as [|x a IH]; intros Ha; simpl; [by rewrite Z.eqb_refl|].
  destruct (Z.eqb_spec x c) as [->|Hx]; [set_solver|]. rewrite IH; set_solver.
Qed.

Lemma split_once_Some c s a b :
  split_once c s = Some (a, b) ↔ s = a ++ c :: b ∧ c ∉ a.
Proof.
  split; [apply split_once_sound|]. intros [-> Ha]. by apply split_once_app.
Qed.

Lemma split_once_None c s : split_once c s = None ↔ c ∉ s.
Proof.
  induction s as [|x s IH]; simpl; [set_solver|].
  destruct (Z.eqb_spec x c) as [->|Hx]; [set_solver|].
  rewrite not_elem_of_cons, <- IH. destruct (split_once c s) as [[a b]|]; naive_solver.
Qed.

Lemma starts_with_spec {A} `{EqDecision A} (s p : list A) :
  starts_with s p = true ↔ ∃ r, s = p ++ r.
Proof.
  revert s. induction p as [|y p IH]; intros s; simpl; [by split; eauto|].
  destruct s as [|x s]; [by split; [done|intros [r ?]]|].
  rewrite andb_true_iff, bool_decide_eq_true, IH. split.
  - intros [-> [r ->]]. eauto.
  - intros [r ?]. simplify_eq. eauto.
Qed.

Lemma starts_with_refl {A} `{EqDecision A} (s : list A) : starts_with s s = true.
Proof. apply starts_with_spec. exists []. by rewrite app_nil_r. Qed.

Lemma starts_with_trans {A} `{EqDecision A} (s p q : list A) :
  starts_with s p = true → starts_with p q = true → starts_with s q = true.
Proof. rewrite !starts_with_spec. intros [r ->] [r' ->]. exists (r' ++ r). by rewrite app_assoc. Qed.

Lemma starts_with_app {A} `{EqDecision A} (p r : list A) : starts_with (p ++ r) p = true.
Proof. apply starts_with_spec. eauto. Qed.

Lemma ends_with_spec s p : ends_with s p = true ↔ ∃ r, s = r ++ p.
Proof.
  unfold ends_with. rewrite starts_with_spec. split; intros [r H].
  - exists (reverse r). rewrite <- (reverse_involutive s), H, reverse_app.
    by rewrite reverse_involutive.
  - exists (reverse r). subst. by rewrite reverse_app.
Qed.

Lemma contains_spec {A} `{EqDecision A} (xs : list A) x : contains xs x = true ↔ x ∈ xs.
Proof.
  unfold contains. rewrite existsb_exists.
  setoid_rewrite bool_decide_eq_true. setoid_rewrite <- list_elem_of_In. naive_solver.
Qed.

Lemma length_slice {A} a b (s : list A) :
  (a ≤ b ≤ length s)%nat → length (slice a b s) = (b - a)%nat.
Proof. intros. unfold slice. rewrite length_take, length_drop. lia. Qed.

Lemma slice_full {A} (s : list A) : slice 0 (length s) s = s.
Proof. unfold slice. rewrite Nat.sub_0_r, drop_0. by apply take_ge. Qed.

Lemma length_resize_zero n v : length (resize_zero n v) = n.
Proof. unfold resize_zero. rewrite length_app, length_take, length_replicate. lia. Qed.

#[export] Hint Resolve split_on_nonnil split_on_pieces starts_with_refl starts_with_app : airgap.
#[export] Hint Rewrite join_split length_resize_zero @slice_full : airgap.
