(* ===== verification/Utf8.v ===== *)
(** * UTF-8 as the Rust standard library implements it

    [utf8_chunks] walks a byte slice the way [core::str::lossy::Utf8Chunks]
    does: one entry per well-formed scalar value, one [None] per maximal
    ill-formed sequence.  [from_utf8] (also [OsStr::to_str]) accepts exactly the
    slices without a [None]; [from_utf8_lossy] (also [to_string_lossy])
    substitutes U+FFFD.  [utf8_encode] is [String::into_bytes]. *)

From S2P Require Import Prelude.

(** ** Definitions *)

(** A Unicode scalar value: the values a Rust [char] can hold. *)
Definition is_scalar (c : Z) : bool :=
  (0 <=? c) && (c <? 0x110000) && negb ((0xD800 <=? c) && (c <=? 0xDFFF)).

(** A continuation byte. *)
Definition is_cont (b : Z) : bool := (0x80 <=? b) && (b <=? 0xBF).

(** The admissible second byte after a three- / four-byte lead. *)
Definition second3 (b0 b1 : Z) : bool :=
  if b0 =? 0xE0 then (0xA0 <=? b1) && (b1 <=? 0xBF)
  else if b0 =? 0xED then (0x80 <=? b1) && (b1 <=? 0x9F)
  else is_cont b1.

Definition second4 (b0 b1 : Z) : bool :=
  if b0 =? 0xF0 then (0x90 <=? b1) && (b1 <=? 0xBF)
  else if b0 =? 0xF4 then (0x80 <=? b1) && (b1 <=? 0x8F)
  else is_cont b1.

Definition lead2 (b : Z) : bool := (0xC2 <=? b) && (b <=? 0xDF).
Definition lead3 (b : Z) : bool := (0xE0 <=? b) && (b <=? 0xEF).
Definition lead4 (b : Z) : bool := (0xF0 <=? b) && (b <=? 0xF4).
Definition is_ascii (b : Z) : bool := (0 <=? b) && (b <=? 0x7F).

Definition char2 (b0 b1 : Z) : Z := (b0 - 0xC0) * 64 + (b1 - 0x80).
Definition char3 (b0 b1 b2 : Z) : Z := ((b0 - 0xE0) * 64 + (b1 - 0x80)) * 64 + (b2 - 0x80).
Definition char4 (b0 b1 b2 b3 : Z) : Z :=
  (((b0 - 0xF0) * 64 + (b1 - 0x80)) * 64 + (b2 - 0x80)) * 64 + (b3 - 0x80).

Fixpoint utf8_chunks (b : bytes) : list (option char) :=
  match b with
  | [] => []
  | b0 :: r =>
      if is_ascii b0 then Some b0 :: utf8_chunks r
      else if lead2 b0 then
        match r with
        | b1 :: r1 => if is_cont b1 then Some (char2 b0 b1) :: utf8_chunks r1
                      else None :: utf8_chunks r
        | [] => [None]
        end
      else if lead3 b0 then
        match r with
        | b1 :: r1 =>
            if second3 b0 b1 then
              match r1 with
              | b2 :: r2 => if is_cont b2 then Some (char3 b0 b1 b2) :: utf8_chunks r2
                            else None :: utf8_chunks r1
              | [] => [None]
              end
            else None :: utf8_chunks r
        | [] => [None]
        end
      else if lead4 b0 then
        match r with
        | b1 :: r1 =>
            if second4 b0 b1 then
              match r1 with
              | b2 :: r2 =>
                  if is_cont b2 then
                    match r2 with
                    | b3 :: r3 =>
                        if is_cont b3 then Some (char4 b0 b1 b2 b3) :: utf8_chunks r3
                        else None :: utf8_chunks r2
                    | [] => [None]
                    end
                  else None :: utf8_chunks r1
              | [] => [None]
              end
            else None :: utf8_chunks r
        | [] => [None]
        end
      else None :: utf8_chunks r
  end.

(** [str::from_utf8] / [OsStr::to_str] *)
Definition from_utf8 (b : bytes) : option str := collect (utf8_chunks b).

(** [String::from_utf8_lossy] *)
Definition from_utf8_lossy (b : bytes) : str := map (default 0xFFFD) (utf8_chunks b).

Definition utf8_encode_char (c : char) : bytes :=
  if c <? 0x80 then [c]
  else if c <? 0x800 then [0xC0 + c / 64; 0x80 + c mod 64]
  else if c <? 0x10000 then [0xE0 + c / 4096; 0x80 + (c / 64) mod 64; 0x80 + c mod 64]
  else [0xF0 + c / 262144; 0x80 + (c / 4096) mod 64; 0x80 + (c / 64) mod 64; 0x80 + c mod 64].

(** [String::into_bytes] *)
Definition utf8_encode (s : str) : bytes := concat (map utf8_encode_char s).

(** ** Lemmas *)

Ltac utf8_unfold :=
  unfold is_scalar, is_ascii, lead2, lead3, lead4, second3, second4, is_cont,
    char2, char3, char4 in *.

(** Decoding what [utf8_encode_char] produced, in front of any tail. *)
Lemma utf8_chunks_encode_char c b :
  is_scalar c = true → utf8_chunks (utf8_encode_char c ++ b) = Some c :: utf8_chunks b.
Proof.
  intros Hc. unfold utf8_encode_char.
  destruct (Z.ltb_spec c 0x80); [|destruct (Z.ltb_spec c 0x800); [|destruct (Z.ltb_spec c 0x10000)]];
    cbn [app utf8_chunks].
  - replace (is_ascii c) with true by (utf8_unfold; lia). done.
  - replace (is_ascii _) with false by (utf8_unfold; div_lia).
    replace (lead2 _) with true by (utf8_unfold; div_lia).
    replace (is_cont _) with true by (utf8_unfold; div_lia).
    do 2 f_equal. utf8_unfold; div_lia.
  - replace (is_ascii _) with false by (utf8_unfold; div_lia).
    replace (lead2 _) with false by (utf8_unfold; div_lia).
    replace (lead3 _) with true by (utf8_unfold; div_lia).
    replace (second3 _ _) with true.
    2: { utf8_unfold. case_Zcmp; simpl in *; try done; div_lia. }
    replace (is_cont _) with true by (utf8_unfold; div_lia).
    do 2 f_equal. utf8_unfold; div_lia.
  - replace (is_ascii _) with false by (utf8_unfold; div_lia).
    replace (lead2 _) with false by (utf8_unfold; div_lia).
    replace (lead3 _) with false by (utf8_unfold; div_lia).
    replace (lead4 _) with true by (utf8_unfold; div_lia).
    replace (second4 _ _) with true.
    2: { utf8_unfold. case_Zcmp; simpl in *; try done; div_lia. }
    replace (is_cont (128 + (c / 64) mod 64)) with true by (utf8_unfold; div_lia).
    replace (is_cont (128 + c mod 64)) with true by (utf8_unfold; div_lia).
    do 2 f_equal. utf8_unfold; div_lia.
Qed.

Lemma utf8_chunks_encode s :
  Forall (λ c, is_scalar c = true) s → utf8_chunks (utf8_encode s) = Some <$> s.
Proof.
  unfold utf8_encode. induction 1 as [|c s Hc _ IH]; [done|]. simpl.
  rewrite utf8_chunks_encode_char by done. by rewrite IH.
Qed.

(** Encoding then decoding is the identity on strings of scalar values. *)
Lemma from_utf8_encode s :
  Forall (λ c, is_scalar c = true) s → from_utf8 (utf8_encode s) = Some s.
Proof.
  intros. unfold from_utf8. rewrite utf8_chunks_encode by done. apply collect_fmap_Some.
Qed.

(** What one well-formed step of [utf8_chunks] consumed is the encoding of the
    scalar value it produced; the statement follows the recursion of
    [utf8_chunks], hence the induction on the length. *)
Lemma encode_char2 b0 b1 :
  lead2 b0 = true → is_cont b1 = true →
  utf8_encode_char (char2 b0 b1) = [b0; b1] ∧ is_scalar (char2 b0 b1) = true.
Proof.
  intros. unfold utf8_encode_char. utf8_unfold. split; [|lia].
  destruct (Z.ltb_spec ((b0 - 192) * 64 + (b1 - 128)) 0x80); [lia|].
  destruct (Z.ltb_spec ((b0 - 192) * 64 + (b1 - 128)) 0x800); [|lia].
  repeat f_equal; div_lia.
Qed.

Lemma encode_char3 b0 b1 b2 :
  lead3 b0 = true → second3 b0 b1 = true → is_cont b2 = true →
  utf8_encode_char (char3 b0 b1 b2) = [b0; b1; b2] ∧ is_scalar (char3 b0 b1 b2) = true.
Proof.
  intros H0 H1 H2. unfold utf8_encode_char. utf8_unfold.
  destruct (Z.eqb_spec b0 0xE0); [|destruct (Z.eqb_spec b0 0xED)];
    (split; [|lia]);
    (destruct (Z.ltb_spec (((b0 - 224) * 64 + (b1 - 128)) * 64 + (b2 - 128)) 0x80); [lia|]);
    (destruct (Z.ltb_spec (((b0 - 224) * 64 + (b1 - 128)) * 64 + (b2 - 128)) 0x800); [lia|]);
    (destruct (Z.ltb_spec (((b0 - 224) * 64 + (b1 - 128)) * 64 + (b2 - 128)) 0x10000); [|lia]);
    repeat f_equal; div_lia.
Qed.

Lemma encode_char4 b0 b1 b2 b3 :
  lead4 b0 = true → second4 b0 b1 = true → is_cont b2 = true → is_cont b3 = true →
  utf8_encode_char (char4 b0 b1 b2 b3) = [b0; b1; b2; b3] ∧
  is_scalar (char4 b0 b1 b2 b3) = true.
Proof.
  intros H0 H1 H2 H3. unfold utf8_encode_char. utf8_unfold.
  destruct (Z.eqb_spec b0 0xF0); [|destruct (Z.eqb_spec b0 0xF4)];
    (split; [|lia]);
    (destruct (Z.ltb_spec ((((b0 - 240) * 64 + (b1 - 128)) * 64 + (b2 - 128)) * 64 + (b3 - 128)) 0x80); [lia|]);
    (destruct (Z.ltb_spec ((((b0 - 240) * 64 + (b1 - 128)) * 64 + (b2 - 128)) * 64 + (b3 - 128)) 0x800); [lia|]);
    (destruct (Z.ltb_spec ((((b0 - 240) * 64 + (b1 - 128)) * 64 + (b2 - 128)) * 64 + (b3 - 128)) 0x10000); [lia|]);
    repeat f_equal; div_lia.
Qed.

(** Decoding then encoding gives the bytes back, and only scalar values come out. *)
Lemma from_utf8_sound b s :
  from_utf8 b = Some s → utf8_encode s = b ∧ Forall (λ c, is_scalar c = true) s.
Proof.
  unfold from_utf8. remember (length b) as n eqn:Hn.
  revert b s Hn. induction n as [n IH] using lt_wf_ind. intros b s -> Hs.
  assert (∀ c s' b0 pre rest, utf8_encode_char c = pre → is_scalar c = true →
            b = pre ++ rest → pre = b0 :: tail pre →
            collect (utf8_chunks rest) = Some s' →
            utf8_encode (c :: s') = b ∧ Forall (λ c, is_scalar c = true) (c :: s')) as step.
  { intros c s' b0 pre rest Hpre Hc -> Hne Hrest.
    assert (length rest < length (pre ++ rest))%nat as Hlt.
    { rewrite length_app, Hne. simpl. lia. }
    destruct (IH _ Hlt rest s' eq_refl Hrest) as [E F].
    split; [|by constructor]. unfold utf8_encode in *. cbn. by rewrite Hpre, E. }
  destruct b as [|b0 r]; cbn [utf8_chunks] in Hs; [by simplify_eq/=|].
  repeat (case_match; try (apply collect_cons in Hs as (c & s' & Hc & Hs & ->); simplify_eq));
    try (cbn in Hs; done).
  - eapply (step c s' c [c] r); try done; [|by utf8_unfold; lia].
    unfold utf8_encode_char. by replace (c <? 128) with true by (utf8_unfold; lia).
  - destruct (encode_char2 b0 z) as [E1 E2]; [done..|]. by eapply step.
  - destruct (encode_char3 b0 z z0) as [E1 E2]; [done..|]. by eapply step.
  - destruct (encode_char4 b0 z z0 z1) as [E1 E2]; [done..|]. by eapply step.
Qed.

Lemma from_utf8_inj b1 b2 s : from_utf8 b1 = Some s → from_utf8 b2 = Some s → b1 = b2.
Proof. intros [<- _]%from_utf8_sound [<- _]%from_utf8_sound. done. Qed.

Lemma utf8_encode_app s1 s2 : utf8_encode (s1 ++ s2) = utf8_encode s1 ++ utf8_encode s2.
Proof. unfold utf8_encode. by rewrite map_app, concat_app. Qed.

(** ASCII text is its own encoding. *)
Lemma utf8_encode_ascii s : Forall (λ c, is_ascii c = true) s → utf8_encode s = s.
Proof.
  unfold utf8_encode. induction 1 as [|c s Hc _ IH]; [done|]. simpl. rewrite IH.
  unfold utf8_encode_char. by replace (c <? 128) with true by (utf8_unfold; lia).
Qed.

(** On valid UTF-8 the lossy conversion agrees with the strict one. *)
Lemma from_utf8_lossy_valid b s : from_utf8 b = Some s → from_utf8_lossy b = s.
Proof.
  unfold from_utf8, from_utf8_lossy. generalize (utf8_chunks b) as l.
  intros l. revert s. induction l as [|x l IH]; intros s Hs; [by simplify_eq/=|].
  apply collect_cons in Hs as (c & s' & -> & Hs & ->). simpl. by rewrite (IH s').
Qed.

Abbreviation scalars := (Forall (λ c, is_scalar c = true)) (only parsing).

#[export] Hint Resolve from_utf8_encode : airgap.
