(* ===== verification/Str.v ===== *)
(** * The [&str] operations of the Rust standard library the program uses

    Strings are lists of scalar values, so [char]-level operations (trimming
    Unicode white space, ASCII case folding, line splitting) are list functions. *)

From S2P Require Import Prelude Utf8.

(** [char::is_whitespace]: the Unicode [White_Space] property. *)
Definition is_whitespace (c : char) : bool :=
  ((9 <=? c) && (c <=? 13)) || (c =? 32) || (c =? 0x85) || (c =? 0xA0) || (c =? 0x1680)
  || ((0x2000 <=? c) && (c <=? 0x200A)) || (c =? 0x2028) || (c =? 0x2029)
  || (c =? 0x202F) || (c =? 0x205F) || (c =? 0x3000).

(** [u8::is_ascii_whitespace]: U+0020, U+0009, U+000A, U+000C, U+000D. *)
Definition is_ascii_whitespace (b : u8) : bool :=
  (b =? 32) || (b =? 9) || (b =? 10) || (b =? 12) || (b =? 13).

(** [trim_start_matches] for a predicate; [trim_start] is the white-space one. *)
Fixpoint trim_start_matches (p : char → bool) (s : str) : str :=
  match s with
  | c :: s' => if p c then trim_start_matches p s' else s
  | [] => []
  end.

Definition trim_end_matches (p : char → bool) (s : str) : str :=
  reverse (trim_start_matches p (reverse s)).

Definition trim_start : str → str := trim_start_matches is_whitespace.
Definition trim_end : str → str := trim_end_matches is_whitespace.
Definition trim (s : str) : str := trim_end (trim_start s).
Definition trim_matches (c : char) (s : str) : str :=
  trim_end_matches (Z.eqb c) (trim_start_matches (Z.eqb c) s).

(** [to_ascii_lowercase] *)
Definition ascii_lower (c : char) : char := if (65 <=? c) && (c <=? 90) then c + 32 else c.
Definition to_ascii_lowercase (s : str) : str := map ascii_lower s.

(** [eq_ignore_ascii_case] *)
Definition eq_ignore_ascii_case (a b : str) : bool :=
  bool_decide (to_ascii_lowercase a = to_ascii_lowercase b).

(** [s.replace(c, to)] for a one-character pattern. *)
Definition replace_char (c : char) (to : str) (s : str) : str :=
  concat (map (λ x, if x =? c then to else [x]) s).

(** [s.replacen(pat, to, 1)] for a non-empty pattern. *)
Fixpoint replacen1 (pat to s : str) : str :=
  if starts_with s pat then to ++ drop (length pat) s
  else match s with
       | c :: s' => c :: replacen1 pat to s'
       | [] => []
       end.

(** [s.lines()]: lines end at ['\n'], an optional ['\r'] before it is dropped,
    and a final empty piece is not a line. *)
Definition strip_cr (l : str) : str :=
  match reverse l with c :: r => if c =? CR then reverse r else l | [] => l end.

Fixpoint lines_of (ls : list str) : list str :=
  match ls with
  | [] => []
  | [l] => match l with [] => [] | _ => [l] end
  | l :: ls' => strip_cr l :: lines_of ls'
  end.

Definition lines (s : str) : list str := lines_of (split_on LF s).

(** ** Lemmas *)

(** Trimming the front of [a ++ c :: b] never looks past a character [c] that
    is not trimmed. *)
Lemma trim_start_matches_app p a c b :
  p c = false →
  trim_start_matches p (a ++ c :: b) = trim_start_matches p (a ++ [c]) ++ b.
Proof.
  intros Hc. induction a as [|x a IH]; simpl; [by rewrite Hc|].
  destruct (p x); [done|]. simpl. by rewrite <- app_assoc.
Qed.

Lemma trim_start_matches_notnil p a c :
  p c = false → trim_start_matches p (a ++ [c]) ≠ [].
Proof.
  intros Hc. induction a as [|x a IH]; simpl; [by rewrite Hc|]. by destruct (p x).
Qed.

Lemma trim_start_matches_suffix p s : ∃ w, s = w ++ trim_start_matches p s ∧ Forall (λ c, p c = true) w.
Proof.
  induction s as [|x s IH]; simpl; [by exists []|].
  destruct (p x) eqn:E; [|by exists []].
  destruct IH as (w & Hw & Hf). exists (x :: w). split; [by rewrite Hw at 1|by constructor].
Qed.

Lemma trim_end_matches_prefix p s : ∃ w, s = trim_end_matches p s ++ w ∧ Forall (λ c, p c = true) w.
Proof.
  destruct (trim_start_matches_suffix p (reverse s)) as (w & Hw & Hf).
  exists (reverse w). split; [|by apply Forall_reverse].
  unfold trim_end_matches. rewrite <- reverse_app, <- Hw. by rewrite reverse_involutive.
Qed.

Lemma to_ascii_lowercase_app a b :
  to_ascii_lowercase (a ++ b) = to_ascii_lowercase a ++ to_ascii_lowercase b.
Proof. apply map_app. Qed.

Lemma ascii_lower_idemp c : ascii_lower (ascii_lower c) = ascii_lower c.
Proof.
  unfold ascii_lower.
  destruct (Z.leb_spec 65 c), (Z.leb_spec c 90); simpl; try lia;
    case_Zcmp; simpl; lia.
Qed.

Lemma to_ascii_lowercase_idemp s : to_ascii_lowercase (to_ascii_lowercase s) = to_ascii_lowercase s.
Proof. unfold to_ascii_lowercase. rewrite map_map. apply map_ext, ascii_lower_idemp. Qed.

Lemma replace_char_notin c to s : c ∉ s → replace_char c to s = s.
Proof.
  unfold replace_char. induction s as [|x s IH]; [done|]. intros H. simpl.
  destruct (Z.eqb_spec x c); [set_solver|]. simpl. rewrite IH; set_solver.
Qed.

Lemma replacen1_elem pat to s x : x ∈ replacen1 pat to s → x ∈ to ∨ x ∈ s.
Proof.
  induction s as [|c s IH]; simpl.
  - destruct (starts_with [] pat); [|set_solver].
    rewrite drop_nil. set_solver.
  - destruct (starts_with (c :: s) pat); [|set_solver].
    rewrite elem_of_app. intros [?|H]; [by left|right].
    apply list_elem_of_lookup in H as [i H]. rewrite lookup_drop in H.
    by eapply list_elem_of_lookup_2.
Qed.

Lemma strip_cr_notin l : CR ∉ l → strip_cr l = l.
Proof.
  intros H. unfold strip_cr. destruct (reverse l) as [|c r] eqn:E; [done|].
  destruct (Z.eqb_spec c CR) as [->|]; [|done]. exfalso. apply H.
  apply elem_of_reverse. rewrite E. set_solver.
Qed.

Lemma lines_cons l t : LF ∉ l → lines (l ++ LF :: t) = strip_cr l :: lines t.
Proof.
  intros Hl. unfold lines. rewrite split_on_app by done.
  destruct (split_on LF t) eqn:E; [by destruct (split_on_nonnil LF t)|done].
Qed.

(** Text written as terminated lines reads back as those lines. *)
Lemma lines_concat ls :
  Forall (λ l, LF ∉ l ∧ CR ∉ l) ls → lines (concat (map (λ l, l ++ [LF]) ls)) = ls.
Proof.
  induction 1 as [|l ls [Hl Hc] _ IH]; [done|]. simpl. rewrite <- app_assoc. cbn [app].
  rewrite lines_cons, strip_cr_notin by done. by rewrite IH.
Qed.

Lemma replace_char_elem c to s x : x ∈ replace_char c to s → x ∈ to ∨ x ∈ s.
Proof.
  unfold replace_char. induction s as [|y s IH]; simpl; [set_solver|].
  rewrite elem_of_app. destruct (y =? c); set_solver.
Qed.

(** Every line of a text is a piece of it, possibly without its ['\r']. *)
Lemma lines_of_no_LF ls : Forall (λ l, LF ∉ l) ls → Forall (λ l, LF ∉ l) (lines_of ls).
Proof.
  induction ls as [|l ls IH]; intros Hls; [done|]. apply Forall_cons in Hls as [Hl Hls].
  destruct ls as [|l' ls].
  - simpl. destruct l; [constructor|by repeat constructor].
  - change (lines_of (l :: l' :: ls)) with (strip_cr l :: lines_of (l' :: ls)).
    constructor; [|by apply IH]. unfold strip_cr.
    destruct (reverse l) as [|c r] eqn:E; [done|]. destruct (c =? CR); [|done].
    intros Hin. apply Hl. apply elem_of_reverse. rewrite E. apply elem_of_reverse in Hin. set_solver.
Qed.

Lemma lines_no_LF t : Forall (λ l, LF ∉ l) (lines t).
Proof. apply lines_of_no_LF, split_on_pieces. Qed.
