(* ===== verification/RedactNpmrc.v ===== *)
(** * Correctness of the [.npmrc] handler

    What the sandboxed program can learn from the redacted view, that saving an
    unedited view gives the original back, and that a merged file, redacted
    again, shows exactly what the program wrote. *)

From S2P Require Import Prelude Utf8 Str Redact.

(** ** Specification: the secret assignments of a file *)

(** The [key], [value] of a line that assigns a credential. *)
Definition secret_line (line : str) : option (str * str) :=
  if is_npmrc_comment line then None
  else match split_once EQUALS line with
       | Some (key, value) => if is_npmrc_secret_key key then Some (key, value) else None
       | None => None
       end.

(** Two lines a low observer must not tell apart: equal, or assignments of the
    same credential key to possibly different secrets. *)
Definition line_low_eq (l1 l2 : str) : Prop :=
  l1 = l2 ∨ ∃ k v1 v2, secret_line l1 = Some (k, v1) ∧ secret_line l2 = Some (k, v2).

(** Two files that differ at most in the secrets. *)
Definition npmrc_low_eq (t1 t2 : str) : Prop :=
  Forall2 line_low_eq (split_on LF t1) (split_on LF t2).

(** The (normalised) credential keys of a file, in order. *)
Definition secret_keys (t : str) : list str :=
  omap (λ l, normalise_key ∘ fst <$> secret_line l) (split_on LF t).

(** ** Line-level lemmas *)

Lemma is_npmrc_comment_app key value :
  is_npmrc_comment (key ++ EQUALS :: value) = is_npmrc_comment (key ++ [EQUALS]).
Proof.
  unfold is_npmrc_comment, trim_start.
  rewrite (trim_start_matches_app _ key EQUALS value) by done.
  pose proof (trim_start_matches_notnil is_whitespace key EQUALS eq_refl) as Hne.
  by destruct (trim_start_matches is_whitespace (key ++ [EQUALS])) as [|x t].
Qed.

Lemma secret_line_Some line key value :
  secret_line line = Some (key, value) ↔
  line = key ++ EQUALS :: value ∧ EQUALS ∉ key ∧
  is_npmrc_comment (key ++ [EQUALS]) = false ∧ is_npmrc_secret_key key = true.
Proof.
  unfold secret_line. split.
  - destruct (is_npmrc_comment line) eqn:Hc; [done|].
    destruct (split_once EQUALS line) as [[k v]|] eqn:Hs; [|done].
    destruct (is_npmrc_secret_key k) eqn:Hk; [|done]. intros; simplify_eq.
    apply split_once_Some in Hs as [-> Hn]. by rewrite is_npmrc_comment_app in Hc.
  - intros (-> & Hn & Hc & Hk).
    rewrite is_npmrc_comment_app, Hc, split_once_app, Hk by done. done.
Qed.

(** Replacing the value of a credential line keeps it a credential line. *)
Lemma secret_line_set line key value value' :
  secret_line line = Some (key, value) →
  secret_line (key ++ EQUALS :: value') = Some (key, value').
Proof. rewrite !secret_line_Some. naive_solver. Qed.

Lemma redact_npmrc_line_spec line :
  redact_npmrc_line line =
  match secret_line line with
  | Some (key, _) => key ++ EQUALS :: PLACEHOLDER
  | None => line
  end.
Proof.
  unfold redact_npmrc_line, secret_line.
  destruct (split_once EQUALS line) as [[k v]|], (is_npmrc_comment line);
    simpl; try done. by destruct (is_npmrc_secret_key k).
Qed.

Lemma merge_npmrc_line_spec secrets line :
  merge_npmrc_line secrets line =
  match secret_line line with
  | Some (key, value) =>
      if bool_decide (value = PLACEHOLDER)
      then key ++ EQUALS :: default PLACEHOLDER (secrets !! normalise_key key)
      else line
  | None => line
  end.
Proof.
  unfold merge_npmrc_line, secret_line.
  destruct (is_npmrc_comment line); [done|].
  destruct (split_once EQUALS line) as [[k v]|] eqn:Hs; [|done].
  destruct (is_npmrc_secret_key k); [|done]. case_bool_decide as Hv; [|done].
  apply split_once_Some in Hs as [-> _]. subst v.
  by destruct (secrets !! normalise_key k).
Qed.

Lemma redact_npmrc_line_set line key value value' :
  secret_line line = Some (key, value) →
  redact_npmrc_line (key ++ EQUALS :: value') = redact_npmrc_line line.
Proof.
  intros Hl. rewrite !redact_npmrc_line_spec, Hl.
  by rewrite (secret_line_set _ _ _ value' Hl).
Qed.

(** After redaction, a line's only possible secret is the placeholder. *)
Lemma redact_npmrc_line_hides line key value :
  secret_line (redact_npmrc_line line) = Some (key, value) → value = PLACEHOLDER.
Proof.
  rewrite redact_npmrc_line_spec. destruct (secret_line line) as [[k v]|] eqn:E.
  - rewrite (secret_line_set _ _ _ PLACEHOLDER E). by intros; simplify_eq.
  - by rewrite E.
Qed.

Lemma redact_npmrc_line_low l1 l2 :
  line_low_eq l1 l2 → redact_npmrc_line l1 = redact_npmrc_line l2.
Proof.
  intros [->|(k & v1 & v2 & H1 & H2)]; [done|]. by rewrite !redact_npmrc_line_spec, H1, H2.
Qed.

Lemma redact_npmrc_line_idemp line :
  redact_npmrc_line (redact_npmrc_line line) = redact_npmrc_line line.
Proof.
  rewrite (redact_npmrc_line_spec line). destruct (secret_line line) as [[k v]|] eqn:E.
  - by rewrite (redact_npmrc_line_set _ _ _ _ E), redact_npmrc_line_spec, E.
  - by rewrite redact_npmrc_line_spec, E.
Qed.

(** Redacting a merged line shows what redacting the written line shows. *)
Lemma redact_merge_npmrc_line secrets line :
  redact_npmrc_line (merge_npmrc_line secrets line) = redact_npmrc_line line.
Proof.
  rewrite merge_npmrc_line_spec. destruct (secret_line line) as [[k v]|] eqn:E; [|done].
  case_bool_decide; [|done]. by apply (redact_npmrc_line_set line k v).
Qed.

(** Neither transform introduces a line break or a non-scalar. *)
Lemma PLACEHOLDER_no_LF : LF ∉ PLACEHOLDER.
Proof. apply (bool_decide_eq_true_1 (LF ∉ PLACEHOLDER)). reflexivity. Qed.

Lemma PLACEHOLDER_scalars : Forall (λ c, is_scalar c = true) PLACEHOLDER.
Proof. repeat constructor. Qed.
#[export] Hint Resolve PLACEHOLDER_no_LF PLACEHOLDER_scalars : airgap.

Lemma redact_npmrc_line_no_LF line : LF ∉ line → LF ∉ redact_npmrc_line line.
Proof.
  rewrite redact_npmrc_line_spec. destruct (secret_line line) as [[k v]|] eqn:E; [|done].
  apply secret_line_Some in E as (-> & _). pose proof PLACEHOLDER_no_LF. set_solver by lia.
Qed.

Lemma redact_npmrc_line_scalars line :
  Forall (λ c, is_scalar c = true) line → Forall (λ c, is_scalar c = true) (redact_npmrc_line line).
Proof.
  rewrite redact_npmrc_line_spec. destruct (secret_line line) as [[k v]|] eqn:E; [|done].
  apply secret_line_Some in E as (-> & _). intros [? _]%Forall_app.
  apply Forall_app; split; [done|]. constructor; [done|]. apply PLACEHOLDER_scalars.
Qed.

(** ** The map of original secrets *)

Lemma insert_secret_spec secrets line :
  insert_secret secrets line =
  match secret_line line with
  | Some (key, value) => <[normalise_key key := value]> secrets
  | None => secrets
  end.
Proof.
  unfold insert_secret, secret_line. destruct (is_npmrc_comment line); [done|].
  destruct (split_once EQUALS line) as [[k v]|]; [|done]. by destruct (is_npmrc_secret_key k).
Qed.

(** Every stored secret is the value of some line of the original. *)
Lemma foldl_insert_secret_elem ls m k v :
  foldl insert_secret m ls !! k = Some v →
  m !! k = Some v ∨ ∃ l key, l ∈ ls ∧ secret_line l = Some (key, v) ∧ normalise_key key = k.
Proof.
  revert m. induction ls as [|l ls IH]; intros m; simpl; [by left|].
  intros [Hm|(l' & key & ? & ? & ?)]%IH; [|right; set_solver].
  rewrite insert_secret_spec in Hm. destruct (secret_line l) as [[key value]|] eqn:E; [|by left].
  destruct (decide (normalise_key key = k)) as [<-|Hne]; simplify_map_eq; [|by left].
  right. set_solver.
Qed.

Lemma npmrc_secrets_elem t k v :
  npmrc_secrets t !! k = Some v →
  ∃ l key, l ∈ split_on LF t ∧ secret_line l = Some (key, v) ∧ normalise_key key = k.
Proof. intros [H|?]%foldl_insert_secret_elem; [by rewrite lookup_empty in H|done]. Qed.

Lemma secret_keys_cons l ls :
  omap (λ l, normalise_key ∘ fst <$> secret_line l) (l :: ls) =
  match secret_line l with
  | Some (key, _) => [normalise_key key]
  | None => []
  end ++ omap (λ l, normalise_key ∘ fst <$> secret_line l) ls.
Proof. simpl. by destruct (secret_line l) as [[k v]|]. Qed.

(** With distinct credential keys the map holds each line's own value. *)
Lemma foldl_insert_secret_lookup ls m l key value :
  NoDup (omap (λ l, normalise_key ∘ fst <$> secret_line l) ls) →
  l ∈ ls → secret_line l = Some (key, value) →
  foldl insert_secret m ls !! normalise_key key = Some value.
Proof.
  revert m. induction ls as [|l' ls IH]; intros m; [set_solver|].
  rewrite secret_keys_cons. intros Hnd Hin Hl. simpl.
  apply NoDup_app in Hnd as (_ & Hdis & Hnd).
  apply elem_of_cons in Hin as [->|Hin]; [|by apply IH].
  rewrite Hl in Hdis. rewrite insert_secret_spec, Hl.
  clear IH Hnd. assert (∀ m, m !! normalise_key key = Some value →
    foldl insert_secret m ls !! normalise_key key = Some value) as go; [|apply go; by simplify_map_eq].
  assert (normalise_key key ∉ omap (λ l, normalise_key ∘ fst <$> secret_line l) ls) as Hk by set_solver.
  clear Hdis. induction ls as [|l2 ls IH]; intros m' Hm; [done|]. simpl.
  rewrite secret_keys_cons in Hk. apply IH; [set_solver|].
  rewrite insert_secret_spec. destruct (secret_line l2) as [[k2 v2]|]; [|done].
  rewrite lookup_insert_ne; [done|]. set_solver.
Qed.

Lemma secret_line_value_Forall (P : Z → Prop) l key value :
  secret_line l = Some (key, value) → Forall P l → Forall P value.
Proof. intros (-> & _)%secret_line_Some. by intros [_ [_ ?]%Forall_cons]%Forall_app. Qed.

(** Stored secrets inherit any character property of the original text's lines. *)
Lemma npmrc_secrets_Forall (P : Z → Prop) t k v :
  Forall (Forall P) (split_on LF t) → npmrc_secrets t !! k = Some v → Forall P v.
Proof.
  intros HP (l & key & Hin & Hl & _)%npmrc_secrets_elem.
  eapply secret_line_value_Forall; [done|]. by eapply Forall_forall in Hin.
Qed.

Lemma merge_npmrc_line_Forall (P : Z → Prop) t l :
  Forall (Forall P) (split_on LF t) → Forall P PLACEHOLDER →
  Forall P l → Forall P (merge_npmrc_line (npmrc_secrets t) l).
Proof.
  intros Ht HP Hl. rewrite merge_npmrc_line_spec.
  destruct (secret_line l) as [[k v]|] eqn:E; [|done]. case_bool_decide; [|done].
  apply secret_line_Some in E as (-> & _). apply Forall_app in Hl as [? [? ?]%Forall_cons].
  apply Forall_app; split; [done|]. constructor; [done|].
  destruct (npmrc_secrets t !! normalise_key k) eqn:Ek; [|done].
  by eapply npmrc_secrets_Forall.
Qed.

Lemma notin_Forall (c : Z) l : c ∉ l ↔ Forall (λ x, x ≠ c) l.
Proof. rewrite Forall_forall. naive_solver. Qed.

Lemma merge_npmrc_line_no_LF t l : LF ∉ l → LF ∉ merge_npmrc_line (npmrc_secrets t) l.
Proof.
  rewrite !notin_Forall. apply merge_npmrc_line_Forall.
  - eapply Forall_impl; [apply split_on_pieces|]. intros x. apply notin_Forall.
  - apply notin_Forall, PLACEHOLDER_no_LF.
Qed.

(** ** File-level lemmas *)

Lemma redact_npmrc_valid b t :
  from_utf8 b = Some t →
  redact_npmrc b = Ok (utf8_encode (join_with LF (map redact_npmrc_line (split_on LF t)))).
Proof. intros Hb. unfold redact_npmrc. by rewrite Hb. Qed.

Lemma redact_npmrc_Ok b out :
  redact_npmrc b = Ok out → ∃ t, from_utf8 b = Some t.
Proof. unfold redact_npmrc. destruct (from_utf8 b); [eauto|done]. Qed.

Lemma merge_npmrc_valid o w to tw :
  from_utf8 o = Some to → from_utf8 w = Some tw →
  merge_npmrc o w =
  Ok (utf8_encode (join_with LF (map (merge_npmrc_line (npmrc_secrets to)) (split_on LF tw)))).
Proof. intros Ho Hw. unfold merge_npmrc. by rewrite Ho, Hw. Qed.

Lemma merge_npmrc_Ok o w m :
  merge_npmrc o w = Ok m → ∃ to tw, from_utf8 o = Some to ∧ from_utf8 w = Some tw.
Proof. unfold merge_npmrc. destruct (from_utf8 o), (from_utf8 w); naive_solver. Qed.

(** Decoding what a line-wise transform of decoded text encodes. *)
Lemma from_utf8_linewise b t (f : str → str) :
  from_utf8 b = Some t →
  (∀ l, Forall (λ c, is_scalar c = true) l → Forall (λ c, is_scalar c = true) (f l)) →
  from_utf8 (utf8_encode (join_with LF (map f (split_on LF t)))) =
  Some (join_with LF (map f (split_on LF t))).
Proof.
  intros [_ Ht]%from_utf8_sound Hf. apply from_utf8_encode.
  apply join_with_Forall; [done|]. apply Forall_fmap.
  eapply Forall_impl; [by apply split_on_Forall|]. eauto.
Qed.

Lemma from_utf8_redacted b t :
  from_utf8 b = Some t →
  from_utf8 (utf8_encode (join_with LF (map redact_npmrc_line (split_on LF t)))) =
  Some (join_with LF (map redact_npmrc_line (split_on LF t))).
Proof. intros. eapply from_utf8_linewise; eauto using redact_npmrc_line_scalars. Qed.

Lemma from_utf8_merged o w to tw :
  from_utf8 o = Some to → from_utf8 w = Some tw →
  from_utf8 (utf8_encode (join_with LF (map (merge_npmrc_line (npmrc_secrets to)) (split_on LF tw)))) =
  Some (join_with LF (map (merge_npmrc_line (npmrc_secrets to)) (split_on LF tw))).
Proof.
  intros [_ Ho]%from_utf8_sound Hw. eapply from_utf8_linewise; [done|]. intros l.
  apply merge_npmrc_line_Forall; [by apply split_on_Forall|apply PLACEHOLDER_scalars].
Qed.

Lemma redact_npmrc_lines t :
  split_on LF (join_with LF (map redact_npmrc_line (split_on LF t))) =
  map redact_npmrc_line (split_on LF t).
Proof. apply split_join_map, redact_npmrc_line_no_LF. Qed.

Lemma merge_npmrc_lines to tw :
  split_on LF (join_with LF (map (merge_npmrc_line (npmrc_secrets to)) (split_on LF tw))) =
  map (merge_npmrc_line (npmrc_secrets to)) (split_on LF tw).
Proof. apply split_join_map, merge_npmrc_line_no_LF. Qed.

Lemma merge_redacted_line t l :
  NoDup (secret_keys t) → l ∈ split_on LF t →
  merge_npmrc_line (npmrc_secrets t) (redact_npmrc_line l) = l.
Proof.
  intros Hnd Hl. rewrite redact_npmrc_line_spec.
  destruct (secret_line l) as [[k v]|] eqn:E; rewrite merge_npmrc_line_spec; [|by rewrite E].
  rewrite (secret_line_set _ _ _ PLACEHOLDER E), bool_decide_eq_true_2 by done.
  unfold npmrc_secrets. rewrite (foldl_insert_secret_lookup _ _ l k v) by done. simpl.
  by apply secret_line_Some in E as [-> _].
Qed.

(** Merging a redacted view back restores the text, credential keys being distinct. *)
Lemma merge_npmrc_of_view (b : bytes) (t : str) :
  from_utf8 b = Some t → NoDup (secret_keys t) →
  merge_npmrc b (utf8_encode (join_with LF (map redact_npmrc_line (split_on LF t)))) = Ok b.
Proof.
  intros Hb Hnd. erewrite merge_npmrc_valid by eauto using from_utf8_redacted.
  rewrite redact_npmrc_lines, map_map, (map_ext_in _ id).
  - rewrite map_id, join_split. f_equal. by apply from_utf8_sound.
  - intros l Hl. apply merge_redacted_line; [done|]. by apply list_elem_of_In.
Qed.

(** Redacting a merged file shows what redacting the written text shows. *)
Lemma redact_merged o w m : merge_npmrc o w = Ok m → redact_npmrc m = redact_npmrc w.
Proof.
  intros Hm. destruct (merge_npmrc_Ok _ _ _ Hm) as (to & tw & Ho & Hw).
  rewrite (merge_npmrc_valid o w to tw) in Hm by done. injection Hm as <-.
  erewrite redact_npmrc_valid by by eapply from_utf8_merged.
  rewrite (redact_npmrc_valid w tw), merge_npmrc_lines, map_map by done.
  do 3 f_equal. apply map_ext. intros l. apply redact_merge_npmrc_line.
Qed.

(** One text merged into two originals: both merges fail, or both results are
    shown alike. *)
Lemma merge_npmrc_alike o1 o2 w :
  (is_Some (from_utf8 o1) ↔ is_Some (from_utf8 o2)) →
  match merge_npmrc o1 w, merge_npmrc o2 w with
  | Ok m1, Ok m2 => ∃ v, redact_npmrc m1 = Ok v ∧ redact_npmrc m2 = Ok v
  | Err e1, Err e2 => True
  | _, _ => False
  end.
Proof.
  intros Ho. destruct (from_utf8 w) as [tw|] eqn:Hw.
  2: { unfold merge_npmrc. rewrite Hw. by destruct (from_utf8 o1), (from_utf8 o2). }
  destruct (merge_npmrc o1 w) as [m1|e1] eqn:E1, (merge_npmrc o2 w) as [m2|e2] eqn:E2; [|..|done].
  - apply redact_merged in E1, E2. exists (utf8_encode (join_with LF (map redact_npmrc_line (split_on LF tw)))).
    by rewrite E1, E2, (redact_npmrc_valid w tw).
  - unfold merge_npmrc in E1, E2. rewrite Hw in E1, E2.
    destruct (from_utf8 o1), (from_utf8 o2); try done. by destruct (proj1 Ho ltac:(by eexists)).
  - unfold merge_npmrc in E1, E2. rewrite Hw in E1, E2.
    destruct (from_utf8 o1), (from_utf8 o2); try done. by destruct (proj2 Ho ltac:(by eexists)).
Qed.

(** ** Theorems *)

(** C11. Noninterference of the [.npmrc] read view: two files that differ only
    in the values assigned to credential keys (same lines otherwise, same
    credential keys) are served as the same bytes, so nothing about a secret,
    not even its length, reaches the sandboxed program. *)
Theorem redact_npmrc_noninterference (b1 b2 : bytes) (t1 t2 : str) :
  from_utf8 b1 = Some t1 → from_utf8 b2 = Some t2 → npmrc_low_eq t1 t2 →
  redact_npmrc b1 = redact_npmrc b2.
Proof.
  intros H1 H2 Hlow. rewrite (redact_npmrc_valid b1 t1), (redact_npmrc_valid b2 t2) by done.
  do 3 f_equal. induction Hlow as [|l1 l2 ls1 ls2 Hl _ IH]; [done|].
  simpl. by rewrite (redact_npmrc_line_low l1 l2), IH.
Qed.

Definition sample_npmrc (secret : string) : bytes :=
  lit "registry=https://registry.npmjs.org/" ++ [LF] ++
  lit "//registry.npmjs.org/:_authToken=" ++ lit secret ++ [LF].

Lemma redact_npmrc_noninterference_witness :
  redact_npmrc (sample_npmrc "npm_aBcD1234") = redact_npmrc (sample_npmrc "x").
Proof.
  apply (redact_npmrc_noninterference _ _
           (sample_npmrc "npm_aBcD1234") (sample_npmrc "x")); [vm_compute; reflexivity..|].
  unfold npmrc_low_eq.
  set (l1 := split_on _ _). set (l2 := split_on _ (sample_npmrc "x")).
  vm_compute in l1, l2. subst l1 l2.
  constructor; [by left|]. constructor; [|constructor; [by left|constructor]].
  right. exists (lit "//registry.npmjs.org/:_authToken"), (lit "npm_aBcD1234"), (lit "x").
  split; vm_compute; reflexivity.
Defined.

(** Completeness of the [.npmrc] redaction: in the served view every line
    that assigns a credential assigns the placeholder, every line that does not
    is the original line verbatim, and no line is added, dropped or moved. *)
Theorem redact_npmrc_complete (b out : bytes) (t : str) :
  from_utf8 b = Some t → redact_npmrc b = Ok out →
  ∃ t', from_utf8 out = Some t' ∧
    Forall2 (λ l l', match secret_line l with
                     | Some (key, _) => secret_line l' = Some (key, PLACEHOLDER)
                     | None => l' = l
                     end) (split_on LF t) (split_on LF t').
Proof.
  intros Hb. rewrite (redact_npmrc_valid b t) by done. intros [= <-].
  eexists. split; [by eapply from_utf8_redacted|]. rewrite redact_npmrc_lines.
  apply Forall2_map_r, Forall_Forall2_diag, Forall_true. intros l. cbv beta.
  rewrite redact_npmrc_line_spec. destruct (secret_line l) as [[k v]|] eqn:E; [|done].
  by apply (secret_line_set l k v).
Qed.

Lemma redact_npmrc_complete_witness :
  ∃ t', from_utf8 (sample_npmrc "<redacted value>") = Some t' ∧
    Forall2 (λ l l', match secret_line l with
                     | Some (key, _) => secret_line l' = Some (key, PLACEHOLDER)
                     | None => l' = l
                     end) (split_on LF (sample_npmrc "hunter2")) (split_on LF t').
Proof.
  apply (redact_npmrc_complete (sample_npmrc "hunter2")); vm_compute; reflexivity.
Defined.

(** C13. The view after a save is the program's own text: redacting the merged
    file gives exactly what redacting the written buffer gives, whatever the
    original held.  So saving and re-reading reveals nothing of the original,
    and the program sees its edits. *)
Theorem redact_merge_npmrc (o w m : bytes) :
  merge_npmrc o w = Ok m → redact_npmrc m = redact_npmrc w.
Proof. apply redact_merged. Qed.

Lemma redact_merge_npmrc_witness :
  redact_npmrc (sample_npmrc "s3cret") = redact_npmrc (sample_npmrc "<redacted value>").
Proof.
  apply (redact_merge_npmrc (sample_npmrc "s3cret") (sample_npmrc "<redacted value>")).
  vm_compute. reflexivity.
Defined.

(** Saving an unedited view is lossless: when the credential keys are
    distinct (up to case and surrounding blanks), redaction succeeds and merging
    the redacted view back yields the original file byte for byte. *)
Theorem merge_redact_npmrc_roundtrip (b : bytes) (t : str) :
  from_utf8 b = Some t → NoDup (secret_keys t) →
  ∃ v, redact_npmrc b = Ok v ∧ merge_npmrc b v = Ok b.
Proof.
  intros Hb Hnd. exists (utf8_encode (join_with LF (map redact_npmrc_line (split_on LF t)))).
  split; [by apply redact_npmrc_valid|by apply merge_npmrc_of_view].
Qed.

Lemma merge_redact_npmrc_roundtrip_witness :
  ∃ v, redact_npmrc (sample_npmrc "tok") = Ok v ∧ merge_npmrc (sample_npmrc "tok") v = Ok (sample_npmrc "tok").
Proof.
  apply (merge_redact_npmrc_roundtrip _ (sample_npmrc "tok")); [vm_compute; reflexivity|].
  apply (bool_decide_eq_true_1 (NoDup _)). vm_compute. reflexivity.
Defined.

(** What a save stores, line by line: a credential line left at the
    placeholder gets the original's secret for that key back (if it had one);
    every other line, edited credentials, additions and deletions included, is
    stored as written. *)
Theorem merge_npmrc_lines_spec (o w m : bytes) (to tw : str) :
  from_utf8 o = Some to → from_utf8 w = Some tw → merge_npmrc o w = Ok m →
  ∃ tm, from_utf8 m = Some tm ∧
    Forall2 (λ l l', match secret_line l with
                     | Some (key, value) =>
                         secret_line l' =
                         Some (key, if decide (value = PLACEHOLDER)
                                    then default value (npmrc_secrets to !! normalise_key key)
                                    else value)
                     | None => l' = l
                     end) (split_on LF tw) (split_on LF tm).
Proof.
  intros Ho Hw. rewrite (merge_npmrc_valid o w to tw) by done. intros [= <-].
  eexists. split; [by eapply from_utf8_merged|]. rewrite merge_npmrc_lines.
  apply Forall2_map_r, Forall_Forall2_diag, Forall_true. intros l. cbv beta.
  rewrite merge_npmrc_line_spec. destruct (secret_line l) as [[k v]|] eqn:E; [|done].
  destruct (decide (v = PLACEHOLDER)) as [->|Hv].
  - rewrite bool_decide_eq_true_2 by done. by apply (secret_line_set l k PLACEHOLDER).
  - by rewrite bool_decide_eq_false_2.
Qed.

Lemma merge_npmrc_lines_spec_witness :
  ∃ tm, from_utf8 (sample_npmrc "s3cret") = Some tm ∧
    Forall2 (λ l l', match secret_line l with
                     | Some (key, value) =>
                         secret_line l' =
                         Some (key, if decide (value = PLACEHOLDER)
                                    then default value (npmrc_secrets (sample_npmrc "s3cret") !! normalise_key key)
                                    else value)
                     | None => l' = l
                     end) (split_on LF (sample_npmrc "<redacted value>")) (split_on LF tm).
Proof.
  apply (merge_npmrc_lines_spec (sample_npmrc "s3cret") (sample_npmrc "<redacted value>"));
    vm_compute; reflexivity.
Defined.

(** Redaction is idempotent. *)
Lemma redact_npmrc_idemp b v : redact_npmrc b = Ok v → redact_npmrc v = Ok v.
Proof.
  intros Hv. destruct (redact_npmrc_Ok _ _ Hv) as [t Ht].
  rewrite (redact_npmrc_valid b t) in Hv by done. injection Hv as <-.
  erewrite redact_npmrc_valid by by eapply from_utf8_redacted.
  rewrite redact_npmrc_lines, map_map. do 3 f_equal. apply map_ext.
  intros l. apply redact_npmrc_line_idemp.
Qed.

(** Without the distinctness hypothesis an unedited save is not lossless: with
    the same credential assigned twice, both lines come back with the last value. *)
Lemma merge_npmrc_duplicate_keys :
  let b := lit "_auth=one" ++ [LF] ++ lit "_auth=two" in
  let v := lit "_auth=<redacted value>" ++ [LF] ++ lit "_auth=<redacted value>" in
  redact_npmrc b = Ok v ∧ merge_npmrc b v = Ok (lit "_auth=two" ++ [LF] ++ lit "_auth=two").
Proof. split; vm_compute; reflexivity. Qed.
