(* ===== verification/RedactEnv.v ===== *)
(** * Correctness of the [.env] handler

    The read view depends only on the keys; through a dotenv parser that reads
    plain [KEY=VALUE] lines back, a save stores exactly the pairs the merge
    rules prescribe, and saving an unedited view keeps every secret. *)

From S2P Require Import Prelude Utf8 Str Redact.

(** ** What the handler relies on in the dotenv parser *)

Definition is_ascii_alpha (c : char) : bool :=
  ((65 <=? c) && (c <=? 90)) || ((97 <=? c) && (c <=? 122)).

Definition is_ascii_alnum (c : char) : bool := is_ascii_alpha c || ((48 <=? c) && (c <=? 57)).

(** Keys of the parser's grammar: an ASCII letter or [_], then ASCII letters,
    digits, [_] and [.]; in particular no key starts with a digit. *)
Definition plain_key (k : str) : bool :=
  match k with
  | [] => false
  | c :: k' => (is_ascii_alpha c || (c =? 95)) && forallb (λ c, is_ascii_alnum c || (c =? 95) || (c =? DOT)) k'
  end.

(** Values without line breaks, without [$] (variable substitution) and without
    a backslash (escapes); white space, [#] and quotes are allowed. *)
Definition plain_char (c : char) : bool :=
  is_scalar c && negb ((c =? LF) || (c =? CR) || (c =? 36) || (c =? BACKSLASH)).
Definition plain_value (v : str) : bool := forallb plain_char v.

Definition plain_pair (kv : str * str) : Prop :=
  plain_key (fst kv) = true ∧ plain_value (snd kv) = true.

(** The documented reading of the lines the handler writes: a file of
    [KEY=VALUE] lines, quoted by [format_value] where needed, yields its pairs in
    order. *)
Class DotenvyReads (D : Dotenvy) : Prop :=
  dotenvy_reads_lines (pairs : list (str * str)) :
    Forall plain_pair pairs →
    dotenvy_from_read_iter (utf8_encode (concat (map env_line pairs))) = map Ok pairs.

Example plain_key_examples :
  map plain_key [lit "API_KEY"; lit "_x.1"; lit "1A"; lit "A-B"; []] = [true; true; false; false; false].
Proof. reflexivity. Qed.

(** ** Lemmas *)

Lemma redacted_env_line_eq kv : redacted_env_line kv = env_line (fst kv, PLACEHOLDER).
Proof. reflexivity. Qed.

Lemma collect_pairs_map_Ok pairs : collect_pairs (map Ok pairs) = Ok pairs.
Proof. induction pairs as [|kv pairs IH]; [done|]. simpl. by rewrite IH. Qed.

(** A malformed line anywhere makes the whole parse fail. *)
Lemma collect_pairs_Err items e :
  Err e ∈ items → ∃ e', collect_pairs items = Err (ParseError e').
Proof.
  induction items as [|[kv|e'] items IH]; [set_solver| |by eauto].
  intros [?|Hin]%elem_of_cons; [done|]. destruct (IH Hin) as [e' E]. simpl. rewrite E. by eexists.
Qed.

Lemma PLACEHOLDER_plain : plain_value PLACEHOLDER = true.
Proof. vm_compute. reflexivity. Qed.

Lemma foldl_env_map_lookup pairs m k v :
  NoDup (map fst pairs) → (k, v) ∈ pairs → foldl insert_pair m pairs !! k = Some v.
Proof.
  revert m. induction pairs as [|[k' v'] pairs IH]; intros m; [set_solver|].
  simpl. intros [Hk Hnd]%NoDup_cons [?|Hin]%elem_of_cons; [|by apply IH].
  simplify_eq. clear IH Hnd.
  assert (∀ m : gmap str str, m !! k' = Some v' →
    foldl insert_pair m pairs !! k' = Some v') as go; [|apply go; unfold insert_pair; by simplify_map_eq].
  induction pairs as [|[k2 v2] pairs IH]; intros m' Hm; [done|]. simpl in *.
  apply IH; [set_solver|]. unfold insert_pair. rewrite lookup_insert_ne; set_solver.
Qed.

Lemma foldl_env_map_elem pairs m k v :
  foldl insert_pair m pairs !! k = Some v →
  m !! k = Some v ∨ (k, v) ∈ pairs.
Proof.
  revert m. induction pairs as [|[k' v'] pairs IH]; intros m; simpl; [by left|].
  intros [Hm|?]%IH; [|set_solver].
  unfold insert_pair in Hm. simpl in Hm.
  destruct (decide (k' = k)) as [->|?]; simplify_map_eq; set_solver.
Qed.

Lemma env_map_elem pairs k v : env_map pairs !! k = Some v → (k, v) ∈ pairs.
Proof. intros [H|?]%foldl_env_map_elem; [by rewrite lookup_empty in H|done]. Qed.

Lemma resolve_env_fst m kv : fst (resolve_env m kv) = fst kv.
Proof. done. Qed.

Lemma resolve_env_plain po kv :
  Forall plain_pair po → plain_pair kv → plain_pair (resolve_env (env_map po) kv).
Proof.
  intros Hpo [Hk Hv]. split; [done|]. simpl. case_bool_decide; [|done].
  destruct (env_map po !! fst kv) as [v|] eqn:E; [|done]. simpl.
  apply env_map_elem in E. rewrite Forall_forall in Hpo. by destruct (Hpo _ E).
Qed.

(** Resolving the untouched view of [po] gives [po] back. *)
Lemma resolve_redacted po :
  NoDup (map fst po) → map (resolve_env (env_map po)) (map (λ kv, (fst kv, PLACEHOLDER)) po) = po.
Proof.
  intros Hnd. rewrite map_map. transitivity (map id po); [|apply map_id]. apply map_ext_in.
  intros [k v] Hin%list_elem_of_In. unfold resolve_env, env_map. cbn [fst snd].
  rewrite bool_decide_eq_true_2 by done. by rewrite (foldl_env_map_lookup po ∅ k v).
Qed.

Section env_props.
Context `{D : Dotenvy}.

Lemma redact_env_Ok b pairs :
  parse_env b = Ok pairs →
  redact_env b = Ok (utf8_encode (concat (map env_line (map (λ kv, (fst kv, PLACEHOLDER)) pairs)))).
Proof. intros Hb. unfold redact_env. rewrite Hb. simpl. by rewrite map_map. Qed.

Lemma merge_env_Ok o w po pw :
  parse_env o = Ok po → parse_env w = Ok pw →
  merge_env o w = Ok (utf8_encode (concat (map env_line (map (resolve_env (env_map po)) pw)))).
Proof. intros Ho Hw. unfold merge_env. rewrite Ho, Hw. simpl. by rewrite map_map. Qed.

Lemma parse_env_lines `{!DotenvyReads D} pairs :
  Forall plain_pair pairs → parse_env (utf8_encode (concat (map env_line pairs))) = Ok pairs.
Proof. intros. unfold parse_env. rewrite dotenvy_reads_lines by done. apply collect_pairs_map_Ok. Qed.

Lemma parse_env_view `{!DotenvyReads D} pairs :
  Forall plain_pair pairs →
  parse_env (utf8_encode (concat (map env_line (map (λ kv, (fst kv, PLACEHOLDER)) pairs)))) =
  Ok (map (λ kv, (fst kv, PLACEHOLDER)) pairs).
Proof.
  intros Hp. apply parse_env_lines. apply Forall_fmap.
  eapply Forall_impl; [done|]. intros kv [? _]. by split; [|apply PLACEHOLDER_plain].
Qed.
End env_props.

(** ** A concrete line-oriented reader, for the witnesses *)

Module LineDotenv.
(** Undo the escapes of a double-quoted value. *)
Fixpoint unescape (s : str) : str :=
  match s with
  | c :: s' =>
      if c =? BACKSLASH then match s' with c' :: s'' => c' :: unescape s'' | [] => [] end
      else c :: unescape s'
  | [] => []
  end.

(** Drop a trailing double quote, the one [format_value] adds. *)
Fixpoint until_last (s : str) : str :=
  match s with
  | [] => []
  | [_] => []
  | c :: s' => c :: until_last s'
  end.

Definition parse_value (v : str) : str :=
  match v with
  | c :: v' => if c =? DQUOTE then unescape (until_last v') else v
  | [] => []
  end.

Definition parse_line (l : str) : result (str * str) str :=
  match split_once EQUALS l with
  | Some (k, v) => Ok (k, parse_value v)
  | None => Err l
  end.

#[local] Instance line_dotenv : Dotenvy := λ b,
  match from_utf8 b with
  | Some t => map parse_line (lines t)
  | None => [Err []]
  end.

Lemma until_last_snoc s c : until_last (s ++ [c]) = s.
Proof.
  induction s as [|x s IH]; [done|]. simpl. rewrite IH. by destruct s.
Qed.

Lemma unescape_escape v :
  unescape (replace_char DQUOTE [BACKSLASH; DQUOTE] (replace_char BACKSLASH [BACKSLASH; BACKSLASH] v)) = v.
Proof.
  induction v as [|c v IH]; [done|]. unfold replace_char in *. simpl.
  rewrite map_app, concat_app.
  destruct (Z.eqb_spec c BACKSLASH) as [->|Hb]; [simpl; by rewrite IH|].
  simpl. destruct (Z.eqb_spec c DQUOTE) as [->|Hq]; simpl; [by rewrite IH|].
  destruct (Z.eqb_spec c BACKSLASH); [done|]. by rewrite IH.
Qed.

Lemma parse_format v : parse_value (format_value v) = v.
Proof.
  unfold format_value. destruct v as [|c v]; [done|]. cbn [orb].
  destruct (existsb needs_quotes (c :: v)) eqn:E.
  - set (e := replace_char _ _ _).
    transitivity (unescape (until_last (e ++ [DQUOTE]))); [reflexivity|].
    rewrite until_last_snoc. apply unescape_escape.
  - unfold parse_value. destruct (Z.eqb_spec c DQUOTE) as [->|]; [|done].
    by simpl in E.
Qed.

(** The text of an [env_line] before its line break holds no line break. *)
Lemma format_value_plain (P : Z → Prop) v :
  P DQUOTE → P BACKSLASH → Forall P v → Forall P (format_value v).
Proof.
  intros Hq Hb Hv. unfold format_value. destruct (_ || _); [|done].
  apply Forall_cons; split; [done|]. apply Forall_app; split; [|by constructor].
  apply Forall_forall. intros x [?|[?|?]%replace_char_elem]%replace_char_elem.
  - rewrite Forall_forall in Hv. set_solver.
  - set_solver.
  - rewrite Forall_forall in Hv. set_solver.
Qed.

Lemma plain_key_chars k :
  plain_key k = true → Forall (λ c, is_scalar c = true ∧ c ≠ LF ∧ c ≠ CR ∧ c ≠ EQUALS) k.
Proof.
  destruct k as [|c k]; [done|]. simpl. rewrite andb_true_iff, forallb_forall. intros [Hc Hk].
  assert (∀ x, is_ascii_alnum x || (x =? 95) || (x =? DOT) = true →
            is_scalar x = true ∧ x ≠ LF ∧ x ≠ CR ∧ x ≠ EQUALS) as ok.
  { intros x. unfold is_ascii_alnum, is_ascii_alpha, is_scalar. lia. }
  constructor; [apply ok; unfold is_ascii_alnum, is_ascii_alpha in *; lia|].
  apply Forall_forall. intros x Hx%list_elem_of_In. by apply ok, Hk.
Qed.

Lemma plain_value_chars v :
  plain_value v = true → Forall (λ c, is_scalar c = true ∧ c ≠ LF ∧ c ≠ CR) v.
Proof.
  unfold plain_value. rewrite forallb_forall. intros Hv. apply Forall_forall.
  intros x Hx%list_elem_of_In. specialize (Hv x Hx). unfold plain_char in Hv.
  apply andb_true_iff in Hv as [? Hv]. split; [done|]. lia.
Qed.

Definition line_body (kv : str * str) : str := fst kv ++ [EQUALS] ++ format_value (snd kv).

Lemma line_body_chars kv :
  plain_pair kv → Forall (λ c, is_scalar c = true ∧ c ≠ LF ∧ c ≠ CR) (line_body kv).
Proof.
  intros [Hk Hv]. apply Forall_app; split.
  - eapply Forall_impl; [by apply plain_key_chars|]. naive_solver.
  - constructor; [done|]. apply format_value_plain; [done..|]. by apply plain_value_chars.
Qed.

Lemma parse_line_body kv : plain_pair kv → parse_line (line_body kv) = Ok kv.
Proof.
  intros [Hk Hv]. unfold parse_line, line_body. cbn [app].
  rewrite split_once_app.
  - rewrite parse_format. by destruct kv.
  - apply plain_key_chars in Hk. rewrite Forall_forall in Hk. intros Hin. by apply Hk in Hin as (_&_&_&?).
Qed.

#[local] Instance line_dotenv_reads : DotenvyReads line_dotenv.
Proof.
  intros pairs Hp. unfold dotenvy_from_read_iter, line_dotenv.
  assert (map env_line pairs = map (λ l, l ++ [LF]) (map line_body pairs)) as E.
  { rewrite map_map. apply map_ext. intros kv. unfold env_line, line_body. by rewrite <- !app_assoc. }
  assert (Forall (Forall (λ c, is_scalar c = true ∧ c ≠ LF ∧ c ≠ CR)) (map line_body pairs)) as Hc.
  { apply Forall_fmap. eapply Forall_impl; [done|]. apply line_body_chars. }
  rewrite E, from_utf8_encode.
  - rewrite lines_concat, map_map.
    + apply map_ext_in. intros kv Hin%list_elem_of_In. apply parse_line_body.
      rewrite Forall_forall in Hp. by apply Hp.
    + eapply Forall_impl; [done|]. intros l Hl. rewrite Forall_forall in Hl.
      split; intros Hin; by apply Hl in Hin as (_&?&?).
  - clear E Hp. induction Hc as [|l ls Hl _ IH]; [done|]. simpl.
    apply Forall_app; split; [|done]. apply Forall_app; split; [|by repeat constructor].
    eapply Forall_impl; [done|]. naive_solver.
Qed.
End LineDotenv.

(** ** Theorems *)

(** C12. Noninterference of the [.env] read view: whatever the dotenv parser,
    two files that parse to the same sequence of keys are served as the same
    bytes; the values have no influence. *)
Theorem redact_env_noninterference `{Dotenvy} (b1 b2 : bytes) (p1 p2 : list (str * str)) :
  parse_env b1 = Ok p1 → parse_env b2 = Ok p2 → map fst p1 = map fst p2 →
  redact_env b1 = redact_env b2.
Proof.
  intros H1 H2 Hk. rewrite (redact_env_Ok b1 p1), (redact_env_Ok b2 p2) by done.
  do 4 f_equal. rewrite <- (map_map fst (λ k, (k, PLACEHOLDER)) p1).
  by rewrite Hk, map_map.
Qed.

Definition sample_env (secret : string) : bytes := lit "API_KEY=" ++ lit secret ++ [LF].

Lemma redact_env_noninterference_witness :
  @redact_env LineDotenv.line_dotenv (sample_env "secret123")
  = @redact_env LineDotenv.line_dotenv (sample_env "other").
Proof.
  apply (@redact_env_noninterference LineDotenv.line_dotenv _ _
    [(lit "API_KEY", lit "secret123")] [(lit "API_KEY", lit "other")]);
    vm_compute; reflexivity.
Defined.

(** C22. What a save of a [.env] stores: when the parser reads plain lines back
    ([DotenvyReads]) and every pair of the original and of the written file is
    plain (a key of the parser's grammar; a value without line breaks, [$] and
    backslashes), the merge succeeds and its result parses
    to the written pairs with every placeholder resolved: a key left at the
    placeholder keeps its original secret, an edited or added key has the written
    value, a key no longer written is gone. *)
Theorem merge_env_stores `{D : Dotenvy} `{!DotenvyReads D} (o w : bytes) (po pw : list (str * str)) :
  parse_env o = Ok po → parse_env w = Ok pw → Forall plain_pair po → Forall plain_pair pw →
  ∃ m, merge_env o w = Ok m ∧ parse_env m = Ok (map (resolve_env (env_map po)) pw).
Proof.
  intros Ho Hw Hpo Hpw. eexists. split; [by apply merge_env_Ok|].
  apply parse_env_lines, Forall_fmap. eapply Forall_impl; [done|].
  intros kv ?. by apply resolve_env_plain.
Qed.

Definition edited_env : bytes :=
  lit "API_KEY=" ++ [DQUOTE] ++ PLACEHOLDER ++ [DQUOTE; LF] ++ lit "NEW=x" ++ [LF].

Lemma plain_pairs_dec pairs :
  forallb (λ kv, plain_key (fst kv) && plain_value (snd kv)) pairs = true → Forall plain_pair pairs.
Proof.
  rewrite forallb_forall, Forall_forall. intros H kv Hin%list_elem_of_In.
  specialize (H kv Hin). by apply andb_true_iff in H.
Qed.

Lemma merge_env_stores_witness :
  ∃ m, @merge_env LineDotenv.line_dotenv (sample_env "secret123") edited_env = Ok m ∧
       @parse_env LineDotenv.line_dotenv m =
       Ok [(lit "API_KEY", lit "secret123"); (lit "NEW", lit "x")].
Proof.
  destruct (@merge_env_stores LineDotenv.line_dotenv LineDotenv.line_dotenv_reads
    (sample_env "secret123") edited_env
    [(lit "API_KEY", lit "secret123")] [(lit "API_KEY", PLACEHOLDER); (lit "NEW", lit "x")])
    as (m & Hm & Hp).
  - vm_compute. reflexivity.
  - vm_compute. reflexivity.
  - apply plain_pairs_dec. vm_compute. reflexivity.
  - apply plain_pairs_dec. vm_compute. reflexivity.
  - exists m. split; [exact Hm|]. rewrite Hp. vm_compute. reflexivity.
Defined.

(** C36. Saving an unedited [.env] view keeps every secret of a file of plain
    pairs with distinct keys: through a parser that reads plain lines back,
    merging the redacted view back onto the original
    yields a file that parses to the original pairs, in order. *)
Theorem merge_redact_env_roundtrip `{D : Dotenvy} `{!DotenvyReads D} (o : bytes) (po : list (str * str)) :
  parse_env o = Ok po → Forall plain_pair po → NoDup (map fst po) →
  ∃ v m, redact_env o = Ok v ∧ merge_env o v = Ok m ∧ parse_env m = Ok po.
Proof.
  intros Ho Hpo Hnd. eexists _, _. split; [by apply redact_env_Ok|].
  split; [apply merge_env_Ok; [done|by apply parse_env_view]|].
  rewrite resolve_redacted by done. by apply parse_env_lines.
Qed.

Lemma merge_redact_env_roundtrip_witness :
  ∃ v m, @redact_env LineDotenv.line_dotenv (sample_env "secret123") = Ok v ∧
    @merge_env LineDotenv.line_dotenv (sample_env "secret123") v = Ok m ∧
    @parse_env LineDotenv.line_dotenv m = Ok [(lit "API_KEY", lit "secret123")].
Proof.
  apply (@merge_redact_env_roundtrip LineDotenv.line_dotenv LineDotenv.line_dotenv_reads).
  - vm_compute. reflexivity.
  - apply plain_pairs_dec. vm_compute. reflexivity.
  - apply (bool_decide_eq_true_1 (NoDup _)). vm_compute. reflexivity.
Defined.

(** Fail closed: one malformed item on either side and both directions err. *)
Lemma redact_env_fails_closed `{D : Dotenvy} b e :
  Err e ∈ dotenvy_from_read_iter b → ∃ e', redact_env b = Err e'.
Proof.
  intros [e' E]%collect_pairs_Err. unfold redact_env, parse_env. rewrite E. by eexists.
Qed.

Lemma merge_env_fails_closed `{D : Dotenvy} o w e :
  Err e ∈ dotenvy_from_read_iter o ∨ Err e ∈ dotenvy_from_read_iter w → ∃ e', merge_env o w = Err e'.
Proof.
  unfold merge_env, parse_env. intros [[e' E]%collect_pairs_Err|[e' E]%collect_pairs_Err]; rewrite E.
  - by eexists.
  - destruct (collect_pairs (dotenvy_from_read_iter o)); by eexists.
Qed.

(** A value holding [$] or a backslash but no blank, [#] or quote is written
    back bare: the [$] that a single-quoted original protected from variable
    substitution is no longer protected. *)
Lemma merge_env_writes_dollar_bare `{D : Dotenvy} o w k :
  parse_env o = Ok [(k, lit "a$b")] → parse_env w = Ok [(k, PLACEHOLDER)] →
  merge_env o w = Ok (utf8_encode (k ++ lit "=a$b" ++ [LF])).
Proof.
  intros Ho Hw. erewrite merge_env_Ok by done. do 2 f_equal.
  cbn [map concat]. rewrite app_nil_r. unfold resolve_env, env_map, insert_pair, env_line.
  cbn [fst snd foldl]. rewrite bool_decide_eq_true_2 by done. by rewrite lookup_insert_eq.
Qed.
