(* ===== verification/RedactYaml.v ===== *)
(** * Correctness of the MitM-config handler ([redact_headers])

    Header values never survive, header names and everything outside a
    [headers] mapping do, and the served text does not depend on the values. *)

From S2P Require Import Prelude Utf8 Str Redact.

(** ** Induction over YAML values *)

Section value_ind.
Context {other : Type} (P : Value other → Prop).
Hypothesis HString : ∀ s, P (VString s).
Hypothesis HSeq : ∀ vs, Forall P vs → P (VSequence vs).
Hypothesis HMap : ∀ kvs, Forall (λ kv, P (snd kv)) kvs → P (VMapping kvs).
Hypothesis HOther : ∀ o, P (VOther o).

Fixpoint Value_ind' (v : Value other) : P v :=
  match v with
  | VString s => HString s
  | VSequence vs =>
      HSeq vs ((fix go (vs : list (Value other)) : Forall P vs :=
                  match vs with
                  | [] => Forall_nil_2 P
                  | v :: vs' => Forall_cons_2 P v vs' (Value_ind' v) (go vs')
                  end) vs)
  | VMapping kvs =>
      HMap kvs ((fix go (kvs : list (Value other * Value other)) : Forall (λ kv, P (snd kv)) kvs :=
                   match kvs with
                   | [] => Forall_nil_2 _
                   | kv :: kvs' => Forall_cons_2 (λ kv, P (snd kv)) kv kvs' (Value_ind' (snd kv)) (go kvs')
                   end) kvs)
  | VOther o => HOther o
  end.
End value_ind.

Section yaml_props.
Context `{Y : SerdeYaml}.
Implicit Types v : Value yaml_other.

(** ** Specification *)

(** Every value of every [headers] mapping is the placeholder. *)
Fixpoint headers_clean (v : Value yaml_other) : Prop :=
  match v with
  | VMapping m =>
      (fix go (m : list (Value yaml_other * Value yaml_other)) : Prop :=
         match m with
         | [] => True
         | kv :: m' =>
             headers_clean (snd kv) ∧
             match snd kv with
             | VMapping hs =>
                 is_headers_key (fst kv) = true → Forall (λ nv, snd nv = VString PLACEHOLDER) hs
             | _ => True
             end ∧ go m'
         end) m
  | VSequence s =>
      (fix go (s : list (Value yaml_other)) : Prop :=
         match s with [] => True | x :: s' => headers_clean x ∧ go s' end) s
  | _ => True
  end.

(** Two documents that differ at most in header values. *)
Inductive yaml_low : Value yaml_other → Value yaml_other → Prop :=
| low_string s : yaml_low (VString s) (VString s)
| low_other o : yaml_low (VOther o) (VOther o)
| low_seq s1 s2 : seq_low s1 s2 → yaml_low (VSequence s1) (VSequence s2)
| low_map m1 m2 : entries_low m1 m2 → yaml_low (VMapping m1) (VMapping m2)
with seq_low : list (Value yaml_other) → list (Value yaml_other) → Prop :=
| seq_low_nil : seq_low [] []
| seq_low_cons v1 v2 s1 s2 : yaml_low v1 v2 → seq_low s1 s2 → seq_low (v1 :: s1) (v2 :: s2)
with entries_low : list (Value yaml_other * Value yaml_other) →
                   list (Value yaml_other * Value yaml_other) → Prop :=
| entries_low_nil : entries_low [] []
| entries_low_cons k v1 v2 m1 m2 :
    yaml_low v1 v2 → entries_low m1 m2 → entries_low ((k, v1) :: m1) ((k, v2) :: m2)
| entries_low_headers k hs1 hs2 m1 m2 :
    is_headers_key k = true → map fst hs1 = map fst hs2 → entries_low m1 m2 →
    entries_low ((k, VMapping hs1) :: m1) ((k, VMapping hs2) :: m2).

Scheme yaml_low_mind := Minimality for yaml_low Sort Prop
  with seq_low_mind := Minimality for seq_low Sort Prop
  with entries_low_mind := Minimality for entries_low Sort Prop.

(** ** Lemmas *)

Lemma placeholder_values_names hs1 hs2 :
  map fst hs1 = map fst hs2 → placeholder_values hs1 = placeholder_values hs2.
Proof.
  intros E. unfold placeholder_values.
  by rewrite <- (map_map fst (λ n, (n, VString PLACEHOLDER)) hs1), E, map_map.
Qed.

(** The recursion into an overwritten [headers] mapping changes nothing. *)
Lemma redact_headers_placeholders hs :
  redact_headers (VMapping (placeholder_values hs)) = VMapping (placeholder_values hs).
Proof. simpl. unfold placeholder_values. rewrite map_map. done. Qed.

(** The body of the source loop, in its two steps. *)
Lemma redact_headers_equation m :
  redact_headers (VMapping m) =
  VMapping (map (λ kv,
    (fst kv,
     redact_headers
       (match snd kv with
        | VMapping hs => if is_headers_key (fst kv) then VMapping (placeholder_values hs) else snd kv
        | v => v
        end))) m).
Proof.
  cbn [redact_headers]. f_equal. apply map_ext. intros [k v]. cbn [fst snd]. f_equal.
  destruct v; try done. destruct (is_headers_key k); [|done].
  by rewrite redact_headers_placeholders.
Qed.

(** One entry of a redacted mapping. *)
Definition redact_entry (kv : Value yaml_other * Value yaml_other) :=
  (fst kv,
   match snd kv with
   | VMapping hs =>
       if is_headers_key (fst kv) then VMapping (placeholder_values hs) else redact_headers (snd kv)
   | _ => redact_headers (snd kv)
   end).

Lemma redact_headers_map m : redact_headers (VMapping m) = VMapping (map redact_entry m).
Proof. done. Qed.

Lemma headers_clean_map m :
  headers_clean (VMapping m) ↔
  Forall (λ kv, headers_clean (snd kv) ∧
                match snd kv with
                | VMapping hs =>
                    is_headers_key (fst kv) = true → Forall (λ nv, snd nv = VString PLACEHOLDER) hs
                | _ => True
                end) m.
Proof.
  induction m as [|kv m IH]; [done|]. rewrite Forall_cons, <- IH. simpl. tauto.
Qed.

Lemma headers_clean_seq s : headers_clean (VSequence s) ↔ Forall headers_clean s.
Proof. induction s as [|x s IH]; [done|]. rewrite Forall_cons, <- IH. simpl. tauto. Qed.

Lemma placeholder_values_clean hs :
  Forall (λ nv, snd nv = VString PLACEHOLDER) (placeholder_values hs).
Proof. apply Forall_fmap, Forall_true. done. Qed.

Lemma headers_clean_placeholders hs : headers_clean (VMapping (placeholder_values hs)).
Proof.
  apply headers_clean_map. eapply Forall_impl; [apply placeholder_values_clean|].
  intros kv ->. by split.
Qed.

Lemma redact_entry_clean kv :
  headers_clean (redact_headers (snd kv)) →
  headers_clean (snd (redact_entry kv)) ∧
  match snd (redact_entry kv) with
  | VMapping hs =>
      is_headers_key (fst (redact_entry kv)) = true → Forall (λ nv, snd nv = VString PLACEHOLDER) hs
  | _ => True
  end.
Proof.
  destruct kv as [k v]. unfold redact_entry. cbn [fst snd]. intros Hv.
  destruct v as [s|vs|hs|o]; try (split; [done|]; by cbn).
  destruct (is_headers_key k) eqn:Hk; [|split; [done|]; rewrite redact_headers_map; congruence].
  split; [apply headers_clean_placeholders|]. intros _. apply placeholder_values_clean.
Qed.

Lemma redact_headers_clean v : headers_clean (redact_headers v).
Proof.
  induction v as [s|vs IH|kvs IH|o] using Value_ind'; try done.
  - apply headers_clean_seq, Forall_fmap. exact IH.
  - rewrite redact_headers_map. apply headers_clean_map, Forall_fmap.
    eapply Forall_impl; [exact IH|]. intros kv. apply redact_entry_clean.
Qed.

Lemma redact_headers_low v1 v2 : yaml_low v1 v2 → redact_headers v1 = redact_headers v2.
Proof.
  apply (yaml_low_mind
    (λ v1 v2, redact_headers v1 = redact_headers v2)
    (λ s1 s2, map redact_headers s1 = map redact_headers s2)
    (λ m1 m2, map redact_entry m1 = map redact_entry m2)); try done.
  - intros s1 s2 _ IH. cbn. by rewrite IH.
  - intros m1 m2 _ IH. by rewrite !redact_headers_map, IH.
  - intros w1 w2 s1 s2 _ E _ IH. cbn. by rewrite E, IH.
  - intros k w1 w2 m1 m2 Hlow E _ IH. cbn [map]. rewrite IH. f_equal.
    unfold redact_entry. cbn [fst snd]. f_equal.
    inversion Hlow; subst; try done. rewrite E. destruct (is_headers_key k); [|done].
    f_equal. apply placeholder_values_names. rewrite !redact_headers_map in E.
    injection E as E. apply (f_equal (map fst)) in E. by rewrite !map_map in E.
  - intros k hs1 hs2 m1 m2 Hk Hn _ IH. cbn [map]. rewrite IH. f_equal.
    unfold redact_entry. cbn [fst snd]. rewrite Hk. do 2 f_equal.
    by apply placeholder_values_names.
Qed.

(** Redaction touches nothing but header values. *)
Lemma redact_headers_preserves v : yaml_low v (redact_headers v).
Proof.
  induction v as [s|vs IH|kvs IH|o] using Value_ind'; try constructor.
  - induction IH as [|x vs Hx _ IH]; by constructor.
  - induction IH as [|[k x] kvs Hx _ IH]; [constructor|]. cbn [map fst snd] in *.
    destruct x as [s|vs|hs|o]; try by constructor.
    destruct (is_headers_key k) eqn:Hk; [|by constructor].
    constructor; [done| |done]. unfold placeholder_values. by rewrite map_map.
Qed.
End yaml_props.

(** ** A concrete document reader, for the witnesses

    It knows a single rule document, whose header value is the rest of the
    input after the letter [h]. *)
Module TinyYaml.
Definition doc (host value : str) : Value unit :=
  VMapping [(VString (lit "rules"),
    VSequence [VMapping [(VString (lit "host"), VString host);
                         (VString (lit "headers"),
                          VMapping [(VString (lit "Authorization"), VString value)])]])].

Fixpoint flatten (v : Value unit) : str :=
  match v with
  | VString s => s ++ [LF]
  | VSequence vs => concat (map flatten vs)
  | VMapping kvs => concat (map (λ kv, flatten (fst kv) ++ flatten (snd kv)) kvs)
  | VOther _ => []
  end.

#[local] Instance tiny_yaml : SerdeYaml := {|
  yaml_other := unit;
  yaml_as_str_other := λ _, None;
  yaml_from_slice := λ b, match split_once 104 b with
                          | Some (host, value) => Ok (doc host value)
                          | None => Err (lit "bad document")
                          end;
  yaml_to_string := λ v, Ok (flatten v);
|}.
End TinyYaml.

(** ** Theorems *)

(** C38. What redaction of a YAML document does and does not touch: the result
    differs from the input at most in the values of [headers] mappings (names,
    hosts, structure stay), and in the result every such value is the
    placeholder. *)
Theorem redact_headers_correct `{Y : SerdeYaml} (v : Value yaml_other) :
  yaml_low v (redact_headers v) ∧ headers_clean (redact_headers v).
Proof. split; [apply redact_headers_preserves|apply redact_headers_clean]. Qed.

(** C39. Noninterference of the MitM-config view: two non-blank files whose
    documents differ only in header values are served as the same bytes (or fail
    the same way), whatever the YAML printer does with the document. *)
Theorem redact_mitm_yaml_noninterference `{Y : SerdeYaml} (b1 b2 : bytes) (v1 v2 : Value yaml_other) :
  forallb is_ascii_whitespace b1 = false → forallb is_ascii_whitespace b2 = false →
  yaml_from_slice b1 = Ok v1 → yaml_from_slice b2 = Ok v2 → yaml_low v1 v2 →
  redact_mitm_yaml b1 = redact_mitm_yaml b2.
Proof.
  intros Hb1 Hb2 H1 H2 Hlow. unfold redact_mitm_yaml. rewrite Hb1, Hb2, H1, H2. simpl.
  by rewrite (redact_headers_low v1 v2).
Qed.

Lemma redact_mitm_yaml_noninterference_witness :
  @redact_mitm_yaml TinyYaml.tiny_yaml (lit "a.comhsk-1")
  = @redact_mitm_yaml TinyYaml.tiny_yaml (lit "a.comhsk-2").
Proof.
  apply (@redact_mitm_yaml_noninterference TinyYaml.tiny_yaml _ _
    (TinyYaml.doc (lit "a.com") (lit "sk-1")) (TinyYaml.doc (lit "a.com") (lit "sk-2")));
    try (vm_compute; reflexivity).
  unfold TinyYaml.doc. do 5 constructor. constructor; [constructor|].
  apply (@entries_low_headers TinyYaml.tiny_yaml); [vm_compute; reflexivity|reflexivity|constructor].
Defined.

(** Fail closed: an unparsable non-blank document is an error, never served. *)
Lemma redact_mitm_yaml_fails_closed `{Y : SerdeYaml} b e :
  forallb is_ascii_whitespace b = false → yaml_from_slice b = Err e →
  redact_mitm_yaml b = Err (MitmYamlInvalid e).
Proof. intros Hb He. unfold redact_mitm_yaml. by rewrite Hb, He. Qed.
