(* ===== verification/Paths.v ===== *)
(** * [std::path] on Unix, as the program uses it

    A path is its bytes; [components] is Rust's parse (repeated separators, a
    trailing separator and inner [.] are dropped, a leading [.] of a relative
    path is kept).  Equality, hashing, prefix tests, [file_name] and [parent] of
    [Path] go through the components. *)

From S2P Require Import Prelude.

Abbreviation path := (list Z) (only parsing).

(** ** Definitions *)

Inductive Component : Type :=
| RootDir
| CurDir
| ParentDir
| Normal (name : bytes).

#[export] Instance Component_eq_dec : EqDecision Component.
Proof. solve_decision. Defined.

#[export] Instance Component_countable : Countable Component.
Proof.
  refine (inj_countable'
    (λ c, match c with
          | RootDir => inl (inl tt) | CurDir => inl (inr tt)
          | ParentDir => inr (inl tt) | Normal n => inr (inr n) end)
    (λ x, match x with
          | inl (inl _) => RootDir | inl (inr _) => CurDir
          | inr (inl _) => ParentDir | inr (inr n) => Normal n end) _).
  by intros [].
Defined.

(** [Path::has_root] ([is_absolute] on Unix). *)
Definition has_root (p : path) : bool :=
  match p with c :: _ => c =? SLASH | [] => false end.

(** A segment between separators, past the first position. *)
Definition segment (s : bytes) : option Component :=
  if bool_decide (s = []) || bool_decide (s = [DOT]) then None
  else if bool_decide (s = [DOT; DOT]) then Some ParentDir
  else Some (Normal s).

(** The components of a path appended to another. *)
Definition tail_components (q : path) : list Component := omap segment (split_on SLASH q).

(** [Path::components] *)
Definition components (p : path) : list Component :=
  if has_root p then RootDir :: tail_components p
  else match split_on SLASH p with
       | s :: ss => (if bool_decide (s = [DOT]) then [CurDir] else option_list (segment s))
                      ++ omap segment ss
       | [] => []
       end.

(** [PathBuf::push] / [Path::join] *)
Definition push (p q : path) : path :=
  if has_root q then q
  else match last p with
       | None => q
       | Some c => if c =? SLASH then p ++ q else p ++ SLASH :: q
       end.
Definition join (p q : path) : path := push p q.

(** [Component::as_os_str] *)
Definition as_os_str (c : Component) : bytes :=
  match c with
  | RootDir => [SLASH]
  | CurDir => [DOT]
  | ParentDir => [DOT; DOT]
  | Normal name => name
  end.

(** The path spelled by a list of components. *)
Definition from_components (cs : list Component) : path := foldl push [] (map as_os_str cs).

(** [Path::file_name] *)
Definition file_name (p : path) : option bytes :=
  match last (components p) with Some (Normal n) => Some n | _ => None end.

(** [Path::parent], in the spelling of [from_components] (an equal [Path]). *)
Definition parent (p : path) : option path :=
  match last (components p) with
  | None | Some RootDir => None
  | _ => Some (from_components (removelast (components p)))
  end.

(** [PathBuf::pop] *)
Definition pop (p : path) : path := default p (parent p).

(** [Path::starts_with] *)
Definition path_starts_with (p q : path) : bool := starts_with (components p) (components q).

(** A directory-entry name: what the kernel passes as [name] and what
    [components] yields as [Normal]. *)
Definition is_name (n : bytes) : bool :=
  negb (bool_decide (n = []) || bool_decide (n = [DOT]) || bool_decide (n = [DOT; DOT]))
  && negb (existsb (Z.eqb SLASH) n).

(** Component lists that a path can have after normalisation: an optional root
    first, then names only. *)
Definition normal_component (c : Component) : bool :=
  match c with Normal n => is_name n | _ => false end.
Definition normal_components (cs : list Component) : bool :=
  match cs with
  | RootDir :: cs' => forallb normal_component cs'
  | _ => forallb normal_component cs
  end.

(** ** Lemmas *)

Lemma is_name_spec n :
  is_name n = true ↔ n ≠ [] ∧ n ≠ [DOT] ∧ n ≠ [DOT; DOT] ∧ SLASH ∉ n.
Proof.
  unfold is_name. rewrite andb_true_iff, !negb_true_iff, !orb_false_iff, !bool_decide_eq_false.
  assert (existsb (Z.eqb SLASH) n = false ↔ SLASH ∉ n) as ->; [|tauto].
  rewrite <- not_true_iff_false, existsb_exists. split.
  - intros H Hin. apply H. exists SLASH. by rewrite <- list_elem_of_In.
  - intros H (x & Hx%list_elem_of_In & E%Z.eqb_eq). by subst.
Qed.

Lemma segment_name n : is_name n = true → segment n = Some (Normal n).
Proof.
  intros (H1 & H2 & H3 & _)%is_name_spec. unfold segment.
  by rewrite !bool_decide_eq_false_2.
Qed.

Lemma segment_Normal s n : segment s = Some (Normal n) → SLASH ∉ s → s = n ∧ is_name n = true.
Proof.
  unfold segment. intros Hs Hn. repeat case_bool_decide; simplify_eq/=.
  split; [done|]. by apply is_name_spec.
Qed.

Lemma is_name_no_root n : is_name n = true → has_root n = false.
Proof.
  intros (H1 & _ & _ & H4)%is_name_spec. destruct n as [|c n]; [done|]. simpl.
  destruct (Z.eqb_spec c SLASH); [set_solver|done].
Qed.

Lemma split_on_app_any c a b : split_on c (a ++ c :: b) = split_on c a ++ split_on c b.
Proof.
  induction a as [|x a IH]; simpl; [by rewrite Z.eqb_refl|].
  destruct (x =? c); [by rewrite IH|]. rewrite IH.
  destruct (split_on c a) eqn:E; [by destruct (split_on_nonnil c a)|done].
Qed.

Lemma has_root_app p q : p ≠ [] → has_root (p ++ q) = has_root p.
Proof. by destruct p. Qed.

(** Appending [/q] to a non-empty path appends the components of [q]. *)
Lemma components_app p q :
  p ≠ [] → components (p ++ SLASH :: q) = components p ++ tail_components q.
Proof.
  intros Hp. unfold components, tail_components. rewrite has_root_app, split_on_app_any by done.
  destruct (has_root p); [by rewrite omap_app|].
  destruct (split_on SLASH p) as [|s ss] eqn:E; [by destruct (split_on_nonnil SLASH p)|].
  cbn [app]. by rewrite omap_app, <- app_assoc.
Qed.

Lemma tail_components_snoc_slash p :
  p ≠ [] → components (p ++ [SLASH]) = components p.
Proof. intros. rewrite components_app by done. unfold tail_components. simpl. by rewrite app_nil_r. Qed.

Lemma push_nil q : push [] q = q.
Proof. unfold push. by destruct (has_root q). Qed.

(** Joining a relative path onto a non-empty one. *)
Lemma components_join p q :
  p ≠ [] → has_root q = false → components (join p q) = components p ++ tail_components q.
Proof.
  intros Hp Hq. unfold join, push. rewrite Hq.
  destruct (last p) as [c|] eqn:Hl; [|by apply last_None in Hl].
  destruct (Z.eqb_spec c SLASH) as [->|_]; [|by apply components_app].
  apply last_Some in Hl as [p' ->]. rewrite <- app_assoc. cbn [app].
  destruct p' as [|x p'].
  - cbn [app]. unfold components. simpl has_root. cbn. unfold tail_components. done.
  - by rewrite components_app, tail_components_snoc_slash.
Qed.

Lemma tail_components_name n : is_name n = true → tail_components n = [Normal n].
Proof.
  intros Hn. unfold tail_components. pose proof Hn as (_ & _ & _ & Hs)%is_name_spec.
  rewrite split_on_notin by done. cbn. by rewrite segment_name.
Qed.

Lemma components_nil : components [] = [].
Proof. reflexivity. Qed.

Lemma components_name n : is_name n = true → components n = [Normal n].
Proof.
  intros Hn. unfold components. rewrite is_name_no_root by done.
  pose proof Hn as (_ & H2 & _ & Hs)%is_name_spec.
  rewrite split_on_notin, bool_decide_eq_false_2 by done. by rewrite segment_name.
Qed.

(** Joining a directory-entry name appends it as one component. *)
Lemma components_join_name p n :
  is_name n = true → components (join p n) = components p ++ [Normal n].
Proof.
  intros Hn. destruct (decide (p = [])) as [->|Hp].
  - unfold join. by rewrite push_nil, components_name.
  - by rewrite components_join, tail_components_name by (done || by apply is_name_no_root).
Qed.

Lemma file_name_join p n : is_name n = true → file_name (join p n) = Some n.
Proof. intros. unfold file_name. by rewrite components_join_name, last_snoc. Qed.

Lemma path_starts_with_refl p : path_starts_with p p = true.
Proof. apply starts_with_refl. Qed.

Lemma path_starts_with_trans p q r :
  path_starts_with p q = true → path_starts_with q r = true → path_starts_with p r = true.
Proof. apply starts_with_trans. Qed.

Lemma path_starts_with_join p q :
  p ≠ [] → has_root q = false → path_starts_with (join p q) p = true.
Proof. intros. unfold path_starts_with. rewrite components_join by done. apply starts_with_app. Qed.

(** Every [Normal] component is a directory-entry name. *)
Lemma omap_segment_names ss c :
  Forall (λ s, SLASH ∉ s) ss → c ∈ omap segment ss → c = ParentDir ∨ normal_component c = true.
Proof.
  intros Hs (s & Hin & E)%list_elem_of_omap.
  rewrite Forall_forall in Hs. specialize (Hs s Hin).
  destruct c as [| | |n]; [..|right; by apply segment_Normal in E as [_ ?]];
    unfold segment in E; repeat case_bool_decide; simplify_eq/=; by left.
Qed.

#[export] Hint Resolve path_starts_with_refl : airgap.

Lemma normal_components_snoc cs c :
  normal_components (cs ++ [c]) = true ↔
  normal_components cs = true ∧ (normal_component c = true ∨ cs = [] ∧ c = RootDir).
Proof.
  destruct cs as [|d cs].
  - destruct c; simpl; rewrite ?andb_true_r; naive_solver.
  - assert (normal_components ((d :: cs) ++ [c]) = normal_components (d :: cs) && normal_component c) as ->.
    { destruct d; simpl; rewrite ?forallb_app; simpl; by rewrite ?andb_true_r, ?andb_assoc. }
    rewrite andb_true_iff. naive_solver.
Qed.

Lemma from_components_snoc cs c :
  from_components (cs ++ [c]) = push (from_components cs) (as_os_str c).
Proof. unfold from_components. by rewrite map_app, foldl_app. Qed.

(** Spelling out normalised components and parsing them again is the identity. *)
Lemma components_from_components cs :
  normal_components cs = true → components (from_components cs) = cs.
Proof.
  induction cs as [|c cs IH] using rev_ind; [done|].
  rewrite normal_components_snoc, from_components_snoc.
  intros [Hcs [Hc|[-> ->]]]; [|reflexivity].
  destruct c as [| | |n]; try done. fold (join (from_components cs) n).
  by rewrite components_join_name, IH.
Qed.

(** Prefixes of normalised component lists are normalised. *)
Lemma normal_components_removelast cs :
  normal_components cs = true → normal_components (removelast cs) = true.
Proof.
  destruct cs as [|c cs _] using rev_ind; [done|].
  rewrite removelast_last, normal_components_snoc. tauto.
Qed.
