(* ===== verification/Lexical.v ===== *)
(** * Lexical path helpers of the overlay ([src/fs.rs]: [at], [lexically_normalize]) *)

From S2P Require Import Prelude Paths.

(** ** Definitions *)

(** The path to hand an [*at] call. *)
Definition at_ (rel : path) : path :=
  match rel with [] => [DOT] | _ => rel end.

(** One iteration of the loop over the components. *)
Definition normalize_step (out : path) (comp : Component) : path :=
  match comp with
  | CurDir => out
  | ParentDir => match file_name out with Some _ => pop out | None => out end
  | other => push out (as_os_str other)
  end.

Definition lexically_normalize (p : path) : path := foldl normalize_step [] (components p).

(** ** Specification: a stack of components *)

Definition stack_step (out : list Component) (comp : Component) : list Component :=
  match comp with
  | CurDir => out
  | ParentDir => match last out with Some (Normal _) => removelast out | _ => out end
  | other => out ++ [other]
  end.

Definition normalize_spec (cs : list Component) : list Component := foldl stack_step [] cs.

(** ** Lemmas *)

(** The component lists [components] can produce. *)
Definition parsed_components (cs : list Component) : Prop :=
  match cs with
  | RootDir :: cs' | CurDir :: cs' => Forall (λ c, c = ParentDir ∨ normal_component c = true) cs'
  | _ => Forall (λ c, c = ParentDir ∨ normal_component c = true) cs
  end.

Lemma components_parsed p : parsed_components (components p).
Proof.
  assert (∀ ss, Forall (λ s, SLASH ∉ s) ss →
            Forall (λ c, c = ParentDir ∨ normal_component c = true) (omap segment ss)) as Ht.
  { intros ss Hs. apply Forall_forall. intros c. by apply omap_segment_names. }
  unfold components. destruct (has_root p); [apply Ht, split_on_pieces|].
  pose proof (split_on_pieces SLASH p) as Hp.
  destruct (split_on SLASH p) as [|s ss]; [constructor|].
  case_bool_decide; [apply Ht; by inversion Hp|].
  assert (omap segment (s :: ss) = option_list (segment s) ++ omap segment ss) as <-.
  { simpl. by destruct (segment s). }
  specialize (Ht _ Hp). destruct (omap segment (s :: ss)) as [|c cs] eqn:E; [constructor|].
  destruct c; try done; inversion Ht as [|? ? [?|?]]; done.
Qed.

Lemma normalize_step_components out c :
  normal_components (components out) = true → (normal_component c = true ∨ c = ParentDir) →
  components (normalize_step out c) = stack_step (components out) c ∧
  normal_components (stack_step (components out) c) = true.
Proof.
  intros Hout [Hc| ->].
  - destruct c as [| | |n]; try done. simpl. fold (join out n).
    rewrite components_join_name by done. split; [done|]. apply normal_components_snoc. by auto.
  - simpl. unfold file_name, pop, parent.
    destruct (last (components out)) as [[]|] eqn:El; try done. simpl.
    rewrite components_from_components by by apply normal_components_removelast.
    split; [done|]. by apply normal_components_removelast.
Qed.

Lemma foldl_normalize_components cs out :
  normal_components (components out) = true →
  Forall (λ c, c = ParentDir ∨ normal_component c = true) cs →
  components (foldl normalize_step out cs) = foldl stack_step (components out) cs ∧
  normal_components (foldl stack_step (components out) cs) = true.
Proof.
  revert out. induction cs as [|c cs IH]; intros out Hout Hcs; [done|].
  apply Forall_cons in Hcs as [Hc Hcs]. simpl.
  destruct (normalize_step_components out c) as [E Hn]; [done|tauto|].
  rewrite <- E in *. by apply IH.
Qed.

Lemma foldl_stack_root cs out :
  Forall (λ c, c = ParentDir ∨ normal_component c = true) cs →
  ∃ cs', foldl stack_step (RootDir :: out) cs = RootDir :: cs'.
Proof.
  revert out. induction cs as [|c cs IH]; intros out Hcs; [by eexists|].
  apply Forall_cons in Hcs as [[->|Hc] Hcs]; simpl.
  - destruct (last (RootDir :: out)) as [[]|] eqn:El; try by apply IH.
    destruct out as [|o out]; [done|].
    change (removelast (RootDir :: o :: out)) with (RootDir :: removelast (o :: out)). by apply IH.
  - destruct c; try done. simpl. by apply IH.
Qed.

Lemma lexically_normalize_stack (p : path) :
  components (lexically_normalize p) = normalize_spec (components p) ∧
  normal_components (components (lexically_normalize p)) = true.
Proof.
  unfold lexically_normalize, normalize_spec.
  pose proof (components_parsed p) as Hp.
  destruct (components p) as [|[| | |n] cs] eqn:E; simpl in Hp; [done|..]; simpl.
  - destruct (foldl_normalize_components cs [SLASH]) as [E1 E2]; [done..|].
    change (components [SLASH]) with [RootDir] in E1, E2.
    change (push [] [SLASH]) with [SLASH]. by rewrite E1.
  - destruct (foldl_normalize_components cs []) as [E1 E2]; [done..|].
    change (components []) with (@nil Component) in E1, E2. by rewrite E1.
  - apply Forall_cons in Hp as [_ Hp].
    destruct (foldl_normalize_components cs []) as [E1 E2]; [done..|].
    change (components []) with (@nil Component) in E1, E2. by rewrite E1.
  - apply Forall_cons in Hp as [[?|Hn] Hp]; [done|]. rewrite push_nil.
    destruct (foldl_normalize_components cs n) as [E1 E2]; [|done|].
    { rewrite components_name by done. simpl. by rewrite andb_true_r. }
    rewrite (components_name n) in E1, E2 by done. by rewrite E1.
Qed.

(** Normalising an absolute path never climbs above the root. *)
Lemma lexically_normalize_absolute p :
  has_root p = true → ∃ cs, components (lexically_normalize p) = RootDir :: cs ∧
    forallb normal_component cs = true.
Proof.
  intros Hr. destruct (lexically_normalize_stack p) as [E Hn].
  pose proof (components_parsed p) as Hp.
  assert (∃ cs, components p = RootDir :: cs) as [cs Ec].
  { unfold components. rewrite Hr. eauto. }
  rewrite Ec in E, Hp. destruct (foldl_stack_root cs [] Hp) as [cs' E'].
  unfold normalize_spec in E. cbn [foldl stack_step app] in E. rewrite E' in E.
  exists cs'. split; [done|]. by rewrite E in Hn.
Qed.

(** ** Theorems *)

(** C33. [lexically_normalize] refines the obvious stack machine on components
    ([..] pops a name, and is dropped where there is none); its result is free of
    [.] and [..], and an absolute path stays below the root. *)
Theorem lexically_normalize_refines (p : path) :
  components (lexically_normalize p) = normalize_spec (components p) ∧
  normal_components (components (lexically_normalize p)) = true ∧
  (has_root p = false ∨ head (components (lexically_normalize p)) = Some RootDir).
Proof.
  split; [apply lexically_normalize_stack|]. split; [apply lexically_normalize_stack|].
  destruct (has_root p) eqn:Hr; [|by left].
  destruct (lexically_normalize_absolute p Hr) as (cs & -> & _). by right.
Qed.

(** Examples of the escapes the overlay has to recognise. *)
Example normalize_inside :
  path_starts_with (lexically_normalize (lit "/home/u/.local/bin/../share/claude")) (lit "/home/u") = true.
Proof. vm_compute. reflexivity. Qed.

Example normalize_escape :
  path_starts_with (lexically_normalize (lit "/home/u/../../etc/./passwd")) (lit "/home/u") = false.
Proof. vm_compute. reflexivity. Qed.
