(* ===== verification/Access.v ===== *)
(** * The access-gate interface between the overlay and the profiles
    ([src/fs.rs]: [Access], [DirAccess]) *)

From S2P Require Import Prelude Paths.

(** What the wrapped program is trying to do to a file. *)
Inductive Access : Type :=
| Read
| Write
| Create.

(** The policy hook: [allow] may update the gate (a cached decision, a prompt). *)
Class DirAccess (G : Type) : Type := allow : G → path → Access → G * bool.

(** What the overlay may rely on: a decision is exactly membership in the
    granted set afterwards, and grants are never withdrawn. *)
Class DirAccessSpec (G : Type) `{DirAccess G} : Type := {
  granted : G → path → Prop;
  allow_granted g p a : snd (allow g p a) = true ↔ granted (fst (allow g p a)) p;
  granted_mono g p a q : granted g q → granted (fst (allow g p a)) q;
}.

(** Any number of consultations. *)
Definition allow_all {G} `{DirAccess G} (g : G) (calls : list (path * Access)) : G :=
  foldl (λ g c, fst (allow g (fst c) (snd c))) g calls.

Section spec.
Context {G} `{DirAccessSpec G}.

Lemma allow_all_granted (g : G) calls q : granted g q → granted (allow_all g calls) q.
Proof.
  revert g. induction calls as [|[p a] calls IH]; intros g Hg; [done|].
  apply IH. by apply granted_mono.
Qed.

(** An approved path stays approved, whatever is asked in between. *)
Lemma allow_sticky (g : G) p a calls a' :
  snd (allow g p a) = true → snd (allow (allow_all (fst (allow g p a)) calls) p a') = true.
Proof.
  intros Hg. apply allow_granted, granted_mono, allow_all_granted. by apply allow_granted.
Qed.
End spec.
