(* ===== verification/Gate.v ===== *)
(** * The npm file-access gate ([src/profiles/npm.rs])

    [DirGate] caches the user's decisions as path prefixes; a decision that is
    not cached is obtained from an asker, which in production prompts the
    controlling terminal.  The terminal is the class [Tty], a parameter. *)

From S2P Require Import Prelude Utf8 Str Paths Access.

(** ** Definitions *)

Definition NPM_PROGRAMS : list bytes := [lit "npm"; lit "npx"; lit "yarn"; lit "pnpm"].

(** [program_basename] ([src/profiles/mod.rs]) *)
Definition program_basename (program : bytes) : bytes := default program (file_name program).

Definition is_npm (program : bytes) : bool :=
  existsb (λ name, bool_decide (program_basename program = name)) NPM_PROGRAMS.

(** The paths pushed for [home] and for [cwd]. *)
Definition home_paths (home : path) : list path :=
  map (join home)
    [ lit ".npm/_logs"; lit ".npm/_cacache"; lit ".npm/_update-notifier-last-checked";
      lit ".gitconfig"; lit ".npmrc" ].

Definition cwd_paths (cwd : path) : list path :=
  map (join cwd)
    [ lit "node_modules"; lit "package.json"; lit "package-lock.json"; lit ".npmrc" ].

Definition preapproved_paths (home cwd : option path) : list str :=
  map from_utf8_lossy
    (match home with Some home => home_paths home | None => [] end ++
     match cwd with Some cwd => cwd_paths cwd | None => [] end).

(** An asker: obtains a fresh decision; [T] is the state it consults. *)
Class Asker (T : Type) : Type := ask : T → path → Access → T * bool.

(** [DirGate]: the cached decisions and the asker's state. *)
Record DirGate (T : Type) : Type := mkGate {
  allowed : list path;
  denied : list path;
  asker : T;
}.
Arguments mkGate {T} _ _ _.
Arguments allowed {T} _.
Arguments denied {T} _.
Arguments asker {T} _.

(** [DirGate::with_asker] *)
Definition with_asker {T} (preapproved : list path) (t : T) : DirGate T :=
  mkGate preapproved [] t.

(** Whether some entry of a decision list covers [p]. *)
Definition covers (entries : list path) (p : path) : bool :=
  existsb (λ e, path_starts_with p e) entries.

(** [<DirGate as DirAccess>::allow] *)
#[export] Instance DirGate_allow {T} `{Asker T} : DirAccess (DirGate T) := λ st p a,
  if covers (allowed st) p then (st, true)
  else if covers (denied st) p then (st, false)
  else
    let '(t, decision) := ask (asker st) p a in
    if decision then (mkGate (allowed st ++ [p]) (denied st) t, true)
    else (mkGate (allowed st) (denied st ++ [p]) t, false).

(** Whether [allow] would consult the asker. *)
Definition must_ask {T} (st : DirGate T) (p : path) : bool :=
  negb (covers (allowed st) p) && negb (covers (denied st) p).

(** ** The terminal prompt *)

(** The controlling terminal: opening it, writing to it, reading a line. *)
Class Tty (T : Type) : Type := {
  tty_open : T → T * result unit Z;
  tty_write : T → bytes → T * result unit Z;
  tty_flush : T → T * result unit Z;
  tty_read_line : T → T * result str Z;
}.

Definition verb (a : Access) : str :=
  match a with
  | Read => lit "read"
  | Write => lit "write"
  | Create => lit "create"
  end.

Definition prompt_text (program : str) (p : path) (a : Access) : str :=
  [LF] ++ lit "airgap: " ++ program ++ lit " wants to " ++ verb a ++ lit " the file " ++
  from_utf8_lossy p ++ [SPACE; 0x2014] ++ lit " allow? [y/N] ".

(** The answer is yes when the first non-blank character is [y] or [Y]. *)
Definition is_yes (line : str) : bool :=
  match trim_start line with
  | c :: _ => (c =? 121) || (c =? 89)
  | [] => false
  end.

Section prompt.
Context {T} `{Tty T}.

Definition prompt_tty_inner (t : T) (program : str) (p : path) (a : Access) : T * result bool Z :=
  let '(t, r) := tty_open t in
  match r with
  | Err e => (t, Err e)
  | Ok _ =>
      let '(t, r) := tty_write t (utf8_encode (prompt_text program p a)) in
      match r with
      | Err e => (t, Err e)
      | Ok _ =>
          let '(t, r) := tty_flush t in
          match r with
          | Err e => (t, Err e)
          | Ok _ =>
              let '(t, r) := tty_read_line t in
              match r with
              | Err e => (t, Err e)
              | Ok line => (t, Ok (is_yes line))
              end
          end
      end
  end.

Definition prompt_tty (t : T) (program : str) (p : path) (a : Access) : T * bool :=
  let '(t, r) := prompt_tty_inner t program p a in
  (t, match r with Ok b => b | Err _ => false end).
End prompt.

(** [DirGate::new]: the production asker names the program in its prompt. *)
Record Prompter (T : Type) : Type := mkPrompter { prompter_program : str; prompter_tty : T }.
Arguments mkPrompter {T} _ _.
Arguments prompter_program {T} _.
Arguments prompter_tty {T} _.

#[export] Instance Prompter_ask {T} `{Tty T} : Asker (Prompter T) := λ pr p a,
  let '(t, b) := prompt_tty (prompter_tty pr) (prompter_program pr) p a in
  (mkPrompter (prompter_program pr) t, b).

Definition DirGate_new {T} (program : str) (preapproved : list path) (t : T) : DirGate (Prompter T) :=
  with_asker preapproved (mkPrompter program t).

(** ** Lemmas *)

Lemma covers_spec entries p :
  covers entries p = true ↔ ∃ e, e ∈ entries ∧ path_starts_with p e = true.
Proof.
  unfold covers. rewrite existsb_exists. by setoid_rewrite <- list_elem_of_In.
Qed.

Lemma covers_app es es' p : covers (es ++ es') p = covers es p || covers es' p.
Proof. apply existsb_app. Qed.

Lemma covers_self es p : covers (es ++ [p]) p = true.
Proof. apply covers_spec. exists p. split; [set_solver|apply path_starts_with_refl]. Qed.

Lemma covers_below es p q :
  covers es p = true → path_starts_with q p = true → covers es q = true.
Proof.
  rewrite !covers_spec. intros (e & He & Hp) Hq. exists e. split; [done|].
  by eapply path_starts_with_trans.
Qed.

#[export] Hint Rewrite covers_app covers_self : airgap.

Section gate.
Context {T} `{Asker T}.
Implicit Types st : DirGate T.

(** The three outcomes of [allow]. *)
Lemma allow_cases st p a :
  (covers (allowed st) p = true ∧ allow st p a = (st, true)) ∨
  (covers (allowed st) p = false ∧ covers (denied st) p = true ∧ allow st p a = (st, false)) ∨
  (must_ask st p = true ∧ covers (allowed st) p = false ∧
   ∃ t b, ask (asker st) p a = (t, b) ∧
     allow st p a =
     (if b then mkGate (allowed st ++ [p]) (denied st) t
      else mkGate (allowed st) (denied st ++ [p]) t, b)).
Proof.
  unfold allow, DirGate_allow, must_ask.
  destruct (covers (allowed st) p) eqn:Ea; [by left|right].
  destruct (covers (denied st) p) eqn:Ed; [by left|right].
  split; [done|]. split; [done|]. destruct (ask (asker st) p a) as [t b].
  exists t, b. by destruct b.
Qed.

(** The gate keeps its promises to the overlay. *)
#[export] Program Instance DirGate_spec : DirAccessSpec (DirGate T) := {|
  granted st p := covers (allowed st) p = true;
|}.
Next Obligation.
  intros st p a. simpl.
  destruct (allow_cases st p a) as [[Hc ->]|[(Hc & _ & ->)|(_ & Hc & t & [] & _ & ->)]]; simpl.
  - by rewrite Hc.
  - by rewrite Hc.
  - by rewrite covers_self.
  - by rewrite Hc.
Qed.
Next Obligation.
  intros st p a q. simpl.
  destruct (allow_cases st p a) as [[Hc ->]|[(Hc & _ & ->)|(_ & Hc & t & [] & _ & ->)]]; simpl; try done.
  rewrite covers_app. by intros ->.
Qed.

(** Decisions only accumulate. *)
Lemma allow_denied_mono st p a q :
  covers (denied st) q = true → covers (denied (fst (allow st p a))) q = true.
Proof.
  destruct (allow_cases st p a) as [[Hc ->]|[(Hc & _ & ->)|(_ & Hc & t & [] & _ & ->)]]; simpl; try done.
  rewrite covers_app. by intros ->.
Qed.

Lemma must_ask_mono st p a q :
  must_ask st q = false → must_ask (fst (allow st p a)) q = false.
Proof.
  unfold must_ask. rewrite !andb_false_iff, !negb_false_iff. intros [Hq|Hq].
  - left. exact (granted_mono st p a q Hq).
  - right. by apply allow_denied_mono.
Qed.

Lemma allow_decides st p a : must_ask (fst (allow st p a)) p = false.
Proof.
  unfold must_ask.
  destruct (allow_cases st p a) as [[Hc ->]|[(Hc & Hd & ->)|(_ & Hc & t & [] & _ & ->)]];
    simpl; rewrite ?Hc, ?Hd, ?covers_self, ?andb_false_r; done.
Qed.

Lemma must_ask_below st p q :
  must_ask st p = false → path_starts_with q p = true → must_ask st q = false.
Proof.
  unfold must_ask. rewrite !andb_false_iff, !negb_false_iff.
  intros [Hp|Hp] Hq; [left|right]; by eapply covers_below.
Qed.

Lemma must_ask_all st calls q :
  must_ask st q = false → must_ask (allow_all st calls) q = false.
Proof.
  revert st. induction calls as [|[p a] calls IH]; intros st Hq; [done|].
  apply IH. by apply must_ask_mono.
Qed.

Lemma allow_no_ask st p a : must_ask st p = false → fst (allow st p a) = st.
Proof.
  destruct (allow_cases st p a) as [[Hc ->]|[(Hc & Hd & ->)|(Hm & _)]]; try done. congruence.
Qed.
End gate.

(** ** Theorems *)

(** The user is asked about a file at most once: after any decision on
    [p], and whatever is consulted in between, an access to [p] or to anything
    below it is decided from the cache, without prompting and without changing
    the gate. *)
Theorem gate_never_asks_twice {T} `{Asker T} (st : DirGate T) (p q : path) (a a' : Access)
    (calls : list (path * Access)) :
  path_starts_with q p = true →
  let st' := allow_all (fst (allow st p a)) calls in
  must_ask st' q = false ∧ fst (allow st' q a') = st'.
Proof.
  intros Hq st'.
  assert (must_ask st' q = false) as Hm.
  { eapply must_ask_below; [|done]. apply must_ask_all, allow_decides. }
  split; [done|]. by apply allow_no_ask.
Qed.

(** A scripted user, for the witnesses: answers from a list, then refuses, and
    counts the questions. *)
Record Script : Type := mkScript { answers : list bool; asked : list path }.
#[export] Instance Script_ask : Asker Script := λ s p _,
  (mkScript (tail (answers s)) (asked s ++ [p]), default false (head (answers s))).

Lemma gate_never_asks_twice_witness :
  let st := with_asker [] (mkScript [true; false] []) in
  let st' := allow_all (fst (allow st (lit "/home/u/proj") Read)) [(lit "/home/u/x", Write)] in
  must_ask st' (lit "/home/u/proj/a.js") = false ∧
  fst (allow st' (lit "/home/u/proj/a.js") Write) = st'.
Proof.
  apply (gate_never_asks_twice (with_asker [] (mkScript [true; false] [])) (lit "/home/u/proj")).
  vm_compute. reflexivity.
Defined.

(** An approval lasts for the run and a refusal is only ever overridden
    by an approval of a path above it: a file once allowed is allowed at every
    later consultation; a file once refused stays refused as long as no covering
    path is approved. *)
Theorem gate_decisions_last {T} `{Asker T} (st : DirGate T) (p : path) (a a' : Access)
    (calls : list (path * Access)) :
  let st' := allow_all (fst (allow st p a)) calls in
  snd (allow st' p a') = snd (allow st p a) ∨
  (snd (allow st p a) = false ∧
   ∃ e, e ∈ allowed st' ∧ e ∉ allowed st ∧ path_starts_with p e = true).
Proof.
  intros st'. destruct (snd (allow st p a)) eqn:E.
  - left. by apply allow_sticky.
  - destruct (snd (allow st' p a')) eqn:E'; [|by left]. right. split; [done|].
    assert (covers (allowed st) p = false) as Hn.
    { destruct (covers (allowed st) p) eqn:Hc; [|done].
      unfold allow, DirGate_allow in E. by rewrite Hc in E. }
    assert (must_ask st' p = false) as Hm by apply must_ask_all, allow_decides.
    assert (covers (allowed st') p = true) as Hc.
    { destruct (allow_cases st' p a') as [[? _]|[(_ & _ & E2)|(Hm' & _)]]; [done| |congruence].
      by rewrite E2 in E'. }
    apply covers_spec in Hc as (e & He & Hp). exists e. split; [done|]. split; [|done].
    intros Hin. assert (covers (allowed st) p = true) by (apply covers_spec; eauto). congruence.
Qed.

(** The prompt fails closed: without a readable terminal the answer is no. *)
Lemma prompt_tty_fails_closed {T} `{Tty T} (t t' : T) e program p a :
  tty_open t = (t', Err e) → prompt_tty t program p a = (t', false).
Proof. intros E. unfold prompt_tty, prompt_tty_inner. by rewrite E. Qed.

(** ** Pre-approved paths *)

Lemma preapproved_roundtrip p t :
  from_utf8 p = Some t → utf8_encode (from_utf8_lossy p) = p.
Proof.
  intros Hp. rewrite (from_utf8_lossy_valid p t) by done. by apply from_utf8_sound.
Qed.

Lemma from_utf8_app a b ta tb :
  from_utf8 a = Some ta → from_utf8 b = Some tb → from_utf8 (a ++ b) = Some (ta ++ tb).
Proof.
  intros [<- Ha]%from_utf8_sound [<- Hb]%from_utf8_sound.
  rewrite <- utf8_encode_app. apply from_utf8_encode. by apply Forall_app.
Qed.

(** Joining an ASCII suffix keeps a path valid UTF-8. *)
Lemma from_utf8_join p t q :
  from_utf8 p = Some t → Forall (λ c, is_ascii c = true) q → ∃ t', from_utf8 (join p q) = Some t'.
Proof.
  intros Hp Hq.
  assert (∀ s, Forall (λ c, is_ascii c = true) s → from_utf8 s = Some s) as Hascii.
  { intros s Hs. rewrite <- (utf8_encode_ascii s) at 1 by done. apply from_utf8_encode.
    eapply Forall_impl; [done|]. intros c. utf8_unfold. lia. }
  unfold join, push. destruct (has_root q); [eauto|].
  destruct (last p) as [c|]; [|eauto]. destruct (c =? SLASH).
  - eexists. eapply from_utf8_app; eauto.
  - eexists. eapply (from_utf8_app _ (SLASH :: q)); [done|]. apply Hascii. by constructor.
Qed.

(** The npm profile's allow-list works as intended on a UTF-8 working
    directory: a fresh gate seeded with it permits every file below
    [$CWD/node_modules] without consulting the user and without changing state. *)
Theorem preapproved_node_modules {T} `{Tty T} (program : str) (home : option path) (cwd q : path)
    (tcwd : str) (a : Access) (t : T) :
  from_utf8 cwd = Some tcwd → cwd ≠ [] → has_root q = false →
  let g := DirGate_new program (map utf8_encode (preapproved_paths home (Some cwd))) t in
  allow g (join (join cwd (lit "node_modules")) q) a = (g, true).
Proof.
  intros Hu Hcwd Hq g.
  assert (covers (allowed g) (join (join cwd (lit "node_modules")) q) = true) as Hc;
    [|unfold allow, DirGate_allow; by rewrite Hc].
  apply covers_spec. exists (join cwd (lit "node_modules")). split.
  - simpl. unfold preapproved_paths. rewrite !map_app. apply elem_of_app. right.
    destruct (from_utf8_join cwd tcwd (lit "node_modules")) as [t' Ht']; [done|by repeat constructor|].
    rewrite <- (preapproved_roundtrip _ t') at 1 by done.
    unfold cwd_paths. cbn [map]. apply elem_of_cons. by left.
  - apply path_starts_with_join; [|done]. unfold join, push. cbn.
    destruct (last cwd) as [c|] eqn:E; [|by apply last_None in E].
    destruct (c =? SLASH); by destruct cwd.
Qed.

(** A terminal that is never there, for the witness. *)
#[export] Instance NoTty : Tty unit := {|
  tty_open := λ t, (t, Err 6);
  tty_write := λ t _, (t, Err 6);
  tty_flush := λ t, (t, Err 6);
  tty_read_line := λ t, (t, Err 6);
|}.

Lemma preapproved_node_modules_witness :
  let g := DirGate_new (lit "npm") (map utf8_encode (preapproved_paths None (Some (lit "/work/proj")))) tt in
  allow g (join (join (lit "/work/proj") (lit "node_modules")) (lit "dep/index.js")) Read = (g, true).
Proof.
  apply (preapproved_node_modules _ _ (lit "/work/proj") _ (lit "/work/proj"));
    vm_compute; done.
Defined.
