(* ===== verification/Profiles.v ===== *)
(** * Per-program profiles ([src/profiles/mod.rs], [src/profiles/ai_agents.rs],
    the [Npm] profile of [src/profiles/npm.rs]) *)

From S2P Require Import Prelude Utf8 Str Paths Access Gate.

(** ** Definitions *)

Inductive DirectoryAccess : Type :=
| AllowAny
| AskAllowList (allowlist : list str).

(** What a profile reads from the process environment. *)
Class ProcEnv : Type := {
  var_HOME : option bytes;                      (* std::env::var_os("HOME") *)
  fs_canonicalize : bytes → option path;        (* std::fs::canonicalize, [None] on error *)
  env_current_dir : option path;                (* std::env::current_dir, [None] on error *)
}.

(** The [Profile] trait: the declared policy. *)
Class Profile (P : Type) : Type := {
  redaction : P → bool;
  directory_access : ProcEnv → P → DirectoryAccess;
}.

(** [struct AiAgent], [struct Npm] *)
Inductive AiAgent : Type := MkAiAgent.
Inductive Npm : Type := MkNpm.

Definition AI_AGENTS : list bytes := [lit "opencode"; lit "claude"].

Definition is_ai_agent (program : bytes) : bool :=
  existsb (λ name, bool_decide (program_basename program = name)) AI_AGENTS.

#[export] Instance AiAgent_Profile : Profile AiAgent := {|
  redaction _ := true;
  directory_access _ _ := AllowAny;
|}.

(** [$HOME], if set and non-empty, resolved through symlinks. *)
Definition canonical_home `{ProcEnv} : option path :=
  match var_HOME with
  | Some (c :: h) => fs_canonicalize (c :: h)
  | _ => None
  end.

#[export] Instance Npm_Profile : Profile Npm := {|
  redaction _ := true;
  directory_access env _ :=
    AskAllowList (preapproved_paths (@canonical_home env) (@env_current_dir env));
|}.

(** [Profile::directory_gate], the provided method. *)
Definition directory_gate {P T} `{Profile P} `{ProcEnv} (prof : P) (program : bytes) (t : T)
  : option (DirGate (Prompter T)) :=
  match directory_access _ prof with
  | AllowAny => None
  | AskAllowList allowlist =>
      let prog := from_utf8_lossy (program_basename program) in
      Some (DirGate_new prog (map utf8_encode allowlist) t)
  end.

(** [Box<dyn Profile>] *)
Inductive DynProfile : Type :=
| DynAiAgent (p : AiAgent)
| DynNpm (p : Npm).

#[export] Instance Dyn_Profile : Profile DynProfile := {|
  redaction d := match d with DynAiAgent p => redaction p | DynNpm p => redaction p end;
  directory_access env d :=
    match d with DynAiAgent p => directory_access env p | DynNpm p => directory_access env p end;
|}.

Definition resolve (program : bytes) : option DynProfile :=
  if is_npm program then Some (DynNpm MkNpm)
  else if is_ai_agent program then Some (DynAiAgent MkAiAgent)
  else None.

Definition by_name (name : str) : option DynProfile :=
  if bool_decide (name = lit "agent") then Some (DynAiAgent MkAiAgent)
  else if bool_decide (name = lit "npm") then Some (DynNpm MkNpm)
  else None.

Definition unrestricted : DynProfile := DynAiAgent MkAiAgent.

Definition names : list str := [lit "agent"; lit "npm"].

Definition permitted_programs : list bytes := AI_AGENTS ++ NPM_PROGRAMS.

(** ** Lemmas *)

Lemma existsb_basename program (l : list bytes) :
  existsb (λ name, bool_decide (program_basename program = name)) l = true ↔
  program_basename program ∈ l.
Proof.
  rewrite existsb_exists. setoid_rewrite bool_decide_eq_true.
  setoid_rewrite <- list_elem_of_In. naive_solver.
Qed.

Lemma is_npm_spec program : is_npm program = true ↔ program_basename program ∈ NPM_PROGRAMS.
Proof. apply existsb_basename. Qed.

Lemma is_ai_agent_spec program : is_ai_agent program = true ↔ program_basename program ∈ AI_AGENTS.
Proof. apply existsb_basename. Qed.

(** The leading directories of a program do not matter. *)
Lemma program_basename_join dir name : is_name name = true → program_basename (join dir name) = name.
Proof. intros. unfold program_basename. by rewrite file_name_join. Qed.

(** ** Theorems *)

(** C30. Profile resolution is the allow-list: a program resolves exactly when
    its basename is one of the permitted programs; what it resolves to always
    redacts, and carries a directory gate exactly for the package managers. *)
Theorem resolve_is_allowlist {T} `{ProcEnv} (program : bytes) (t : T) :
  (is_Some (resolve program) ↔ program_basename program ∈ permitted_programs) ∧
  match resolve program with
  | Some prof =>
      redaction prof = true ∧
      (is_Some (directory_gate prof program t) ↔ program_basename program ∈ NPM_PROGRAMS)
  | None => True
  end.
Proof.
  unfold permitted_programs. rewrite elem_of_app, <- is_npm_spec, <- is_ai_agent_spec.
  unfold resolve, directory_gate. destruct (is_npm program) eqn:En, (is_ai_agent program) eqn:Ea;
    simpl; repeat split; eauto; try done;
    first [ intros E%is_npm_spec; congruence
          | intros _; by apply is_npm_spec
          | by intros [? ?] | by intros [?|?] | intros; by eexists ].
Qed.

(** The accepted [--profile] names are the ones listed in the error message. *)
Lemma by_name_spec name : is_Some (by_name name) ↔ name ∈ names.
Proof.
  unfold by_name, names. repeat case_bool_decide; subst; split; try (by eexists);
    intros H'; try (by destruct H'); set_solver.
Qed.
