(* ===== verification/Targets.v ===== *)
(** * The directories to overlay ([src/main.rs]: [overlay_targets], [dedup_targets]) *)

From S2P Require Import Prelude Paths Access Gate Profiles.

(** ** Definitions *)

(** One iteration of the loop: skip a covered directory, otherwise drop the
    kept directories nested in it and keep it. *)
Definition dedup_step (targets : list path) (dir : path) : list path :=
  if existsb (λ kept, path_starts_with dir kept) targets then targets
  else List.filter (λ kept, negb (path_starts_with kept dir)) targets ++ [dir].

Definition dedup_targets (candidates : list path) : list path := foldl dedup_step [] candidates.

Definition overlay_targets `{ProcEnv} (cwd : path) : list path :=
  dedup_targets ([cwd] ++ match canonical_home with Some home => [home] | None => [] end).

(** ** Specification *)

(** No kept directory is inside another (or equal to it). *)
Definition antichain (ts : list path) : Prop :=
  ∀ i j p q, ts !! i = Some p → ts !! j = Some q → path_starts_with p q = true → i = j.

(** ** Lemmas *)

Lemma existsb_starts dir ts :
  existsb (λ kept, path_starts_with dir kept) ts = true ↔
  ∃ k, k ∈ ts ∧ path_starts_with dir k = true.
Proof. rewrite existsb_exists. by setoid_rewrite <- list_elem_of_In. Qed.

Lemma elem_of_filterb (f : path → bool) x ts : x ∈ List.filter f ts ↔ x ∈ ts ∧ f x = true.
Proof. by rewrite !list_elem_of_In, List.filter_In. Qed.

(** Whatever was covered stays covered, and the new directory is covered. *)
Lemma dedup_step_covers ts dir p :
  (∃ k, k ∈ ts ∧ path_starts_with p k = true) ∨ path_starts_with p dir = true →
  ∃ k, k ∈ dedup_step ts dir ∧ path_starts_with p k = true.
Proof.
  unfold dedup_step. destruct (existsb _ ts) eqn:E.
  - apply existsb_starts in E as (k & Hk & Hd). intros [?|Hp]; [done|].
    exists k. split; [done|]. by eapply path_starts_with_trans.
  - intros [(k & Hk & Hp)|Hp]; [|exists dir; set_solver].
    destruct (path_starts_with k dir) eqn:Ek.
    + exists dir. split; [set_solver|]. by eapply path_starts_with_trans.
    + exists k. split; [|done]. apply elem_of_app. left. apply elem_of_filterb. by rewrite Ek.
Qed.

Lemma dedup_step_subset ts dir k : k ∈ dedup_step ts dir → k ∈ ts ∨ k = dir.
Proof.
  unfold dedup_step. destruct (existsb _ ts); [by left|].
  rewrite elem_of_app, elem_of_filterb, list_elem_of_singleton. tauto.
Qed.

(** The antichain property, as pairwise incomparability. *)
Definition incomparable (p q : path) : Prop :=
  path_starts_with p q = false ∧ path_starts_with q p = false.

Lemma incomparable_antichain ts : ForallOrdPairs incomparable ts → antichain ts.
Proof.
  induction 1 as [|p ts Hp _ IH]; intros i j x y Hi Hj Hs; [done|].
  rewrite List.Forall_forall in Hp. setoid_rewrite <- list_elem_of_In in Hp.
  destruct i as [|i], j as [|j]; simplify_eq/=; [done|..].
  - apply list_elem_of_lookup_2, Hp in Hj as [? _]. congruence.
  - apply list_elem_of_lookup_2, Hp in Hi as [_ ?]. congruence.
  - f_equal. by eapply IH.
Qed.

Lemma ForallOrdPairs_snoc {A} (R : A → A → Prop) l x :
  ForallOrdPairs R l → Forall (λ y, R y x) l → ForallOrdPairs R (l ++ [x]).
Proof.
  induction 1 as [|y l Hy _ IH]; intros Hx; simpl; [by repeat constructor|].
  apply Forall_cons in Hx as [Hyx Hx]. constructor; [|by apply IH].
  apply Forall_app; split; [done|by constructor].
Qed.

Lemma ForallOrdPairs_filter {A} (R : A → A → Prop) f l :
  ForallOrdPairs R l → ForallOrdPairs R (List.filter f l).
Proof.
  induction 1 as [|y l Hy _ IH]; simpl; [constructor|]. destruct (f y); [|done].
  constructor; [|done]. rewrite List.Forall_forall in *. intros z [Hz _]%List.filter_In. by apply Hy.
Qed.

Lemma dedup_step_incomparable ts dir :
  ForallOrdPairs incomparable ts → ForallOrdPairs incomparable (dedup_step ts dir).
Proof.
  intros Hts. unfold dedup_step. destruct (existsb _ ts) eqn:E; [done|].
  apply ForallOrdPairs_snoc; [by apply ForallOrdPairs_filter|].
  apply Forall_forall. intros k [Hk Hn%negb_true_iff]%elem_of_filterb. split; [done|].
  destruct (path_starts_with dir k) eqn:Ed; [|done].
  assert (existsb (λ kept, path_starts_with dir kept) ts = true); [|congruence].
  apply existsb_starts. eauto.
Qed.

Lemma dedup_foldl cs ts :
  ForallOrdPairs incomparable ts →
  ForallOrdPairs incomparable (foldl dedup_step ts cs) ∧
  (∀ k, k ∈ foldl dedup_step ts cs → k ∈ ts ∨ k ∈ cs) ∧
  (∀ p, (∃ k, k ∈ ts ∧ path_starts_with p k = true) ∨ (∃ d, d ∈ cs ∧ path_starts_with p d = true) →
        ∃ k, k ∈ foldl dedup_step ts cs ∧ path_starts_with p k = true).
Proof.
  revert ts. induction cs as [|d cs IH]; intros ts Hts; simpl.
  - repeat split; [done|by left|]. intros p [?|(d & Hd & _)]; [done|set_solver].
  - destruct (IH (dedup_step ts d)) as (H1 & H2 & H3); [by apply dedup_step_incomparable|].
    repeat split; [done|..].
    + intros k [[Hk|Hk]%dedup_step_subset|Hk]%H2; set_solver.
    + intros p Hp. apply H3. destruct Hp as [Hp|(x & [->|Hx]%elem_of_cons & Hp)].
      * left. apply dedup_step_covers. by left.
      * left. apply dedup_step_covers. by right.
      * right. eauto.
Qed.

(** ** Theorems *)

(** C31. [dedup_targets] computes a minimal cover: the kept directories are
    candidates, no two are nested (so one overlay's mount never shadows another's
    captured directory), and every path below a candidate is below a kept one. *)
Theorem dedup_targets_minimal_cover (cs : list path) :
  antichain (dedup_targets cs) ∧
  (∀ k, k ∈ dedup_targets cs → k ∈ cs) ∧
  (∀ p d, d ∈ cs → path_starts_with p d = true →
          ∃ k, k ∈ dedup_targets cs ∧ path_starts_with p k = true).
Proof.
  destruct (dedup_foldl cs []) as (H1 & H2 & H3); [constructor|].
  split; [by apply incomparable_antichain|]. split.
  - intros k [?|?]%H2; [set_solver|done].
  - intros p d Hd Hp. apply H3. eauto.
Qed.

(** Everything below the working directory is protected. *)
Lemma overlay_targets_cover_cwd `{ProcEnv} cwd p :
  path_starts_with p cwd = true →
  ∃ k, k ∈ overlay_targets cwd ∧ path_starts_with p k = true.
Proof.
  intros Hp. destruct (dedup_foldl ([cwd] ++ match canonical_home with Some home => [home] | None => [] end) [])
    as (_ & _ & H3); [constructor|].
  apply H3. right. exists cwd. split; [set_solver|done].
Qed.

Example dedup_nested :
  dedup_targets [lit "/home/sven/proj"; lit "/home/sven"] = [lit "/home/sven"].
Proof. vm_compute. reflexivity. Qed.

Example dedup_sibling :
  dedup_targets [lit "/home/sven"; lit "/home/sven2"] = [lit "/home/sven"; lit "/home/sven2"].
Proof. vm_compute. reflexivity. Qed.
