(* ===== verification/Inodes.v ===== *)
(** * The inode table of the overlay ([src/fs.rs]: [InodeTable])

    [HashMap<PathBuf, u64>] hashes and compares paths by their components, so
    its key here is the component list; [HashMap<u64, PathBuf>] keeps the path
    bytes. *)

From S2P Require Import Prelude Paths.

(** ** Definitions *)

Definition ROOT_INO : Z := 1.

(** [u64] addition (release build). *)
Definition u64_add (a b : Z) : Z := (a + b) mod u64_modulus.

Record InodeTable : Type := mkInodes {
  by_ino : gmap Z path;
  by_path : gmap (list Component) Z;
  next_ino : Z;
}.

Definition InodeTable_new : InodeTable :=
  mkInodes {[ROOT_INO := []]} {[components [] := ROOT_INO]} (ROOT_INO + 1).

Definition intern (t : InodeTable) (p : path) : InodeTable * Z :=
  match by_path t !! components p with
  | Some ino => (t, ino)
  | None =>
      let ino := next_ino t in
      (mkInodes (<[ino := p]> (by_ino t)) (<[components p := ino]> (by_path t))
         (u64_add (next_ino t) 1), ino)
  end.

Definition forget_path (t : InodeTable) (p : path) : InodeTable :=
  match by_path t !! components p with
  | Some ino => mkInodes (delete ino (by_ino t)) (delete (components p) (by_path t)) (next_ino t)
  | None => t
  end.

Definition rename_path (t : InodeTable) (from to : path) : InodeTable :=
  match by_path t !! components from with
  | Some ino =>
      mkInodes (<[ino := to]> (by_ino t))
        (<[components to := ino]> (delete (components to) (delete (components from) (by_path t))))
        (next_ino t)
  | None => t
  end.

(** ** Specification *)

(** The invariant: the path index points at inodes that point back, every inode
    number in use is below the counter, and the root keeps its number. *)
Record inodes_ok (t : InodeTable) : Prop := {
  ok_index cs ino : by_path t !! cs = Some ino → ∃ p, by_ino t !! ino = Some p ∧ components p = cs;
  ok_fresh ino p : by_ino t !! ino = Some p → ROOT_INO <= ino < next_ino t;
  ok_counter : ROOT_INO < next_ino t < u64_modulus;
  ok_root : by_ino t !! ROOT_INO = Some [] ∧ by_path t !! [] = Some ROOT_INO;
}.

(** The operations the overlay performs, on proper entries (never the root). *)
Inductive inode_op : Type :=
| OpIntern (p : path)
| OpForget (p : path)
| OpRename (from to : path).

Definition apply_op (t : InodeTable) (o : inode_op) : InodeTable :=
  match o with
  | OpIntern p => fst (intern t p)
  | OpForget p => forget_path t p
  | OpRename from to => rename_path t from to
  end.

Definition op_ok (o : inode_op) : Prop :=
  match o with
  | OpIntern _ => True
  | OpForget p => components p ≠ []
  | OpRename from to => components from ≠ [] ∧ components to ≠ []
  end.

(** The number an operation leaves behind: a rename over an interned path does not
    remove the entry of the inode it replaces. *)
Definition replaced (t : InodeTable) (o : inode_op) : gset Z :=
  match o with
  | OpRename from to =>
      match by_path t !! components from, by_path t !! components to with
      | Some i, Some j => if bool_decide (i = j) then ∅ else {[j]}
      | _, _ => ∅
      end
  | _ => ∅
  end.

(** The numbers left behind by a sequence of operations. *)
Fixpoint stale (t : InodeTable) (ops : list inode_op) : gset Z :=
  match ops with
  | [] => ∅
  | o :: ops' => replaced t o ∪ stale (apply_op t o) ops'
  end.

(** The two maps are inverse to each other, but for the numbers of [dead]; those
    are not handed out again. *)
Record inverse_but (dead : gset Z) (t : InodeTable) : Prop := {
  inv_back ino p : by_ino t !! ino = Some p →
    (by_path t !! components p = Some ino ↔ ino ∉ dead);
  inv_dead ino : ino ∈ dead → ino < next_ino t;
}.

(** ** Lemmas *)

Lemma u64_add_small a b : 0 <= a + b < u64_modulus → u64_add a b = a + b.
Proof. intros. by apply Z.mod_small. Qed.

Lemma InodeTable_new_ok : inodes_ok InodeTable_new.
Proof.
  split; simpl.
  - intros cs ino [<- <-]%lookup_singleton_Some. exists []. by rewrite lookup_singleton_eq.
  - intros ino p [<- <-]%lookup_singleton_Some. unfold ROOT_INO. lia.
  - unfold ROOT_INO, u64_modulus. lia.
  - by rewrite !lookup_singleton_eq.
Qed.

(** Different paths never share a number. *)
Lemma by_path_inj t cs cs' ino :
  inodes_ok t → by_path t !! cs = Some ino → by_path t !! cs' = Some ino → cs = cs'.
Proof.
  intros Hok (p & Hp & <-)%(ok_index t Hok) (p' & Hp' & <-)%(ok_index t Hok). by simplify_eq.
Qed.

Lemma intern_ok t p :
  inodes_ok t → next_ino t + 1 < u64_modulus → inodes_ok (fst (intern t p)).
Proof.
  intros Hok Hn. unfold intern. destruct (by_path t !! components p) as [ino|] eqn:E; [done|]. simpl.
  pose proof (ok_counter t Hok) as Hc. unfold ROOT_INO in Hc.
  assert (u64_add (next_ino t) 1 = next_ino t + 1) as Ha by (apply u64_add_small; lia).
  split; simpl; rewrite ?Ha.
  - intros cs ino. destruct (decide (components p = cs)) as [<-|Hne].
    + rewrite lookup_insert_eq. intros [= <-]. exists p. by rewrite lookup_insert_eq.
    + rewrite lookup_insert_ne by done. intros (q & Hq & <-)%(ok_index t Hok). exists q.
      split; [|done]. rewrite lookup_insert_ne; [done|]. apply (ok_fresh t Hok) in Hq. lia.
  - intros ino q. destruct (decide (next_ino t = ino)) as [<-|Hne].
    + intros _. unfold ROOT_INO. lia.
    + rewrite lookup_insert_ne by done. intros Hq%(ok_fresh t Hok). lia.
  - unfold ROOT_INO. lia.
  - destruct (ok_root t Hok) as [Hr1 Hr2]. split.
    + rewrite lookup_insert_ne; [done|]. unfold ROOT_INO. lia.
    + rewrite lookup_insert_ne; [done|]. intros Hp. congruence.
Qed.

Lemma forget_path_ok t p : inodes_ok t → components p ≠ [] → inodes_ok (forget_path t p).
Proof.
  intros Hok Hp. unfold forget_path. destruct (by_path t !! components p) as [ino|] eqn:E; [|done].
  split; simpl.
  - intros cs i. rewrite lookup_delete_Some. intros [Hne Hi].
    destruct (ok_index t Hok _ _ Hi) as (q & Hq & Hc). exists q. split; [|done].
    rewrite lookup_delete_ne; [done|]. intros ->. apply Hne. by eapply by_path_inj.
  - intros i q. rewrite lookup_delete_Some. intros [_ Hq]. by eapply ok_fresh.
  - apply (ok_counter t Hok).
  - destruct (ok_root t Hok) as [Hr1 Hr2]. split; [|by rewrite lookup_delete_ne].
    rewrite lookup_delete_ne; [done|]. intros ->. apply Hp. by eapply by_path_inj.
Qed.

Lemma rename_path_ok t from to :
  inodes_ok t → components from ≠ [] → components to ≠ [] → inodes_ok (rename_path t from to).
Proof.
  intros Hok Hf Ht. unfold rename_path.
  destruct (by_path t !! components from) as [ino|] eqn:E; [|done].
  destruct (ok_index t Hok _ _ E) as (pf & Hpf & _). split; simpl.
  - intros cs i. destruct (decide (components to = cs)) as [<-|Hne].
    + rewrite lookup_insert_eq. intros [= <-]. exists to. by rewrite lookup_insert_eq.
    + rewrite lookup_insert_ne, lookup_delete_ne, lookup_delete_Some by done. intros [Hnf Hi].
      destruct (ok_index t Hok _ _ Hi) as (q & Hq & Hc). exists q. split; [|done].
      rewrite lookup_insert_ne; [done|]. intros ->. apply Hnf. by eapply by_path_inj.
  - intros i q. destruct (decide (ino = i)) as [<-|Hne].
    + intros _. by eapply ok_fresh.
    + rewrite lookup_insert_ne by done. by apply ok_fresh.
  - apply (ok_counter t Hok).
  - destruct (ok_root t Hok) as [Hr1 Hr2]. split.
    + rewrite lookup_insert_ne; [done|]. intros ->. apply Hf. by eapply by_path_inj.
    + by rewrite lookup_insert_ne, !lookup_delete_ne.
Qed.

Lemma apply_op_ok t o :
  inodes_ok t → next_ino t + 1 < u64_modulus → op_ok o → inodes_ok (apply_op t o).
Proof.
  intros Hok Hn Ho. destruct o as [p|p|from to]; simpl in *.
  - by apply intern_ok.
  - by apply forget_path_ok.
  - destruct Ho. by apply rename_path_ok.
Qed.

(** The counter grows by at most one per operation. *)
Lemma apply_op_counter t o :
  inodes_ok t → next_ino t + 1 < u64_modulus → next_ino (apply_op t o) <= next_ino t + 1.
Proof.
  intros Hok Hn. pose proof (ok_counter t Hok) as Hc. unfold ROOT_INO in Hc.
  destruct o as [p|p|from to]; simpl.
  - unfold intern. destruct (by_path t !! components p); simpl; [lia|]. rewrite u64_add_small; lia.
  - unfold forget_path. destruct (by_path t !! components p); simpl; lia.
  - unfold rename_path. destruct (by_path t !! components from); simpl; lia.
Qed.

Lemma apply_ops_ok ops t :
  inodes_ok t → Forall op_ok ops → next_ino t + Z.of_nat (length ops) < u64_modulus →
  inodes_ok (foldl apply_op t ops).
Proof.
  revert t. induction ops as [|o ops IH]; intros t Hok Hops Hn; [done|].
  apply Forall_cons in Hops as [Ho Hops]. cbn [foldl length] in *.
  apply IH; [apply apply_op_ok; [done|lia|done]|done|].
  pose proof (apply_op_counter t o Hok). lia.
Qed.

Lemma new_inverse : inverse_but ∅ InodeTable_new.
Proof.
  split; simpl; [|set_solver]. intros ino p [<- <-]%lookup_singleton_Some.
  rewrite lookup_singleton_eq. set_solver.
Qed.

(** An indexed number is not a dead one. *)
Lemma indexed_alive dead t cs ino :
  inodes_ok t → inverse_but dead t → by_path t !! cs = Some ino → ino ∉ dead.
Proof.
  intros Hok Hi E. destruct (ok_index t Hok _ _ E) as (p & Hp & <-).
  by apply (inv_back dead t Hi ino p Hp).
Qed.

Lemma intern_inverse dead t p :
  inodes_ok t → next_ino t + 1 < u64_modulus → inverse_but dead t →
  inverse_but dead (fst (intern t p)).
Proof.
  intros Hok Hn Hi. unfold intern. destruct (by_path t !! components p) as [ino|] eqn:E; [done|]. simpl.
  pose proof (ok_counter t Hok) as Hc. unfold ROOT_INO in Hc.
  split; simpl; rewrite ?u64_add_small by lia.
  - intros ino q. destruct (decide (next_ino t = ino)) as [<-|Hne].
    + rewrite lookup_insert_eq. intros [= <-]. rewrite lookup_insert_eq.
      split; [|done]. intros _ Hd%(inv_dead dead t Hi). lia.
    + rewrite lookup_insert_ne by done. intros Hq. rewrite <- (inv_back dead t Hi ino q Hq).
      destruct (decide (components p = components q)) as [Hpq|Hpq].
      * rewrite Hpq, lookup_insert_eq. rewrite Hpq in E. rewrite E. split; congruence.
      * by rewrite lookup_insert_ne.
  - intros ino Hd%(inv_dead dead t Hi). lia.
Qed.

Lemma forget_inverse dead t p :
  inodes_ok t → inverse_but dead t → inverse_but dead (forget_path t p).
Proof.
  intros Hok Hi. unfold forget_path. destruct (by_path t !! components p) as [ino|] eqn:E; [|done].
  split; simpl; [|by apply (inv_dead dead t)].
  intros i q [Hne Hq]%lookup_delete_Some. rewrite <- (inv_back dead t Hi i q Hq).
  rewrite lookup_delete_Some. split; [by intros [_ ?]|]. intros Hb. split; [|done].
  intros Hpq. rewrite Hpq, Hb in E. by simplify_eq.
Qed.

Lemma rename_inverse dead t from to :
  inodes_ok t → inverse_but dead t →
  inverse_but (dead ∪ replaced t (OpRename from to)) (rename_path t from to).
Proof.
  intros Hok Hi. unfold rename_path. cbn [replaced].
  destruct (by_path t !! components from) as [ino|] eqn:E; [|by rewrite union_empty_r_L].
  pose proof (indexed_alive dead t _ _ Hok Hi E) as Hal.
  split; simpl.
  - intros i q. destruct (decide (ino = i)) as [<-|Hne].
    + rewrite lookup_insert_eq. intros [= <-]. rewrite lookup_insert_eq. split; [intros _|done].
      destruct (by_path t !! components to); [case_bool_decide|]; set_solver.
    + rewrite lookup_insert_ne by done. intros Hq.
      pose proof (inv_back dead t Hi i q Hq) as Hb.
      destruct (decide (components to = components q)) as [Htq|Htq].
      * rewrite Htq, lookup_insert_eq. split; [congruence|].
        destruct (by_path t !! components q) as [j|] eqn:Ej.
        { case_bool_decide; [subst j|]; set_solver. }
        set_solver.
      * rewrite lookup_insert_ne, lookup_delete_ne, lookup_delete_Some by done.
        transitivity (i ∉ dead).
        { rewrite <- Hb. split; [by intros [_ ?]|]. intros Hb'. split; [|done].
          intros Hfq. rewrite Hfq, Hb' in E. by simplify_eq. }
        destruct (by_path t !! components to) as [j|] eqn:Ej; [|set_solver].
        case_bool_decide; [set_solver|]. split; [|set_solver]. intros Hd [?|Hij%elem_of_singleton]%elem_of_union; [done|].
        subst j. apply Htq. destruct (ok_index t Hok _ _ Ej) as (q' & Hq' & <-). by simplify_eq.
  - intros i [Hd|Hd]%elem_of_union; [by apply (inv_dead dead t)|].
    destruct (by_path t !! components to) as [j|] eqn:Ej; [|set_solver].
    case_bool_decide; [set_solver|]. apply elem_of_singleton in Hd as ->.
    destruct (ok_index t Hok _ _ Ej) as (q & Hq & _). by eapply ok_fresh.
Qed.

Lemma apply_op_inverse dead t o :
  inodes_ok t → next_ino t + 1 < u64_modulus → inverse_but dead t →
  inverse_but (dead ∪ replaced t o) (apply_op t o).
Proof.
  intros Hok Hn Hi. destruct o as [p|p|from to]; [..|by apply rename_inverse];
    cbn [apply_op replaced]; rewrite union_empty_r_L; [by apply intern_inverse|by apply forget_inverse].
Qed.

Lemma apply_ops_inverse ops dead t :
  inodes_ok t → Forall op_ok ops → next_ino t + Z.of_nat (length ops) < u64_modulus →
  inverse_but dead t → inverse_but (dead ∪ stale t ops) (foldl apply_op t ops).
Proof.
  revert dead t. induction ops as [|o ops IH]; intros dead t Hok Hops Hn Hi.
  { cbn [stale foldl]. by rewrite union_empty_r_L. }
  apply Forall_cons in Hops as [Ho Hops]. cbn [foldl length stale] in *.
  rewrite union_assoc_L. pose proof (apply_op_counter t o Hok).
  apply IH; [apply apply_op_ok; [done|lia|done]|done|lia|apply apply_op_inverse; [done|lia|done]].
Qed.

(** Interning is stable: the number found maps back to an equal path, and asking
    again changes nothing. *)
Lemma intern_lookup t p :
  inodes_ok t →
  ∃ q, by_ino (fst (intern t p)) !! snd (intern t p) = Some q ∧ components q = components p.
Proof.
  intros Hok. unfold intern. destruct (by_path t !! components p) as [ino|] eqn:E; simpl.
  - by apply (ok_index t Hok).
  - exists p. by rewrite lookup_insert_eq.
Qed.

Lemma intern_by_path t p :
  by_path (fst (intern t p)) !! components p = Some (snd (intern t p)).
Proof.
  unfold intern. destruct (by_path t !! components p) eqn:E; simpl; [done|]. by rewrite lookup_insert_eq.
Qed.

(** ** Theorems *)

(** C35. The inode table stays consistent: starting from the fresh table, after
    any sequence of fewer than [2^64 - 2] internings, forgettings and renames of
    entries other than the root, every indexed path maps to an inode that maps
    back to it (so no two paths share a number), numbers are below the counter
    and the root is still inode 1; and every number that resolves to a path is
    the number indexed for that path, except exactly the numbers whose path was
    replaced by a rename, which still resolve but are indexed by nothing.  In
    particular the two maps are inverse to each other when no rename replaced an
    interned path, and what is forgotten is gone from both. *)
Theorem inode_table_invariant (ops : list inode_op) :
  Forall op_ok ops → 2 + Z.of_nat (length ops) < u64_modulus →
  let t := foldl apply_op InodeTable_new ops in
  inodes_ok t ∧
  ∀ ino p, by_ino t !! ino = Some p →
    (by_path t !! components p = Some ino ↔ ino ∉ stale InodeTable_new ops).
Proof.
  intros Hops Hn t. split; [by apply apply_ops_ok; [apply InodeTable_new_ok|..]|].
  pose proof (apply_ops_inverse ops ∅ InodeTable_new InodeTable_new_ok Hops Hn new_inverse) as Hi.
  rewrite union_empty_l_L in Hi. apply (inv_back _ _ Hi).
Qed.

(** A path is renamed over another and forgotten: the replaced number 3 is the
    only one left behind. *)
Definition demo_ops : list inode_op :=
  [OpIntern (lit ".env"); OpIntern (lit "x"); OpRename (lit ".env") (lit "x"); OpForget (lit "x")].

Lemma demo_stale : stale InodeTable_new demo_ops = {[3]}.
Proof. vm_compute. reflexivity. Qed.

Lemma inode_table_invariant_witness :
  let t := foldl apply_op InodeTable_new demo_ops in
  inodes_ok t ∧
  ∀ ino p, by_ino t !! ino = Some p →
    (by_path t !! components p = Some ino ↔ ino ∉ stale InodeTable_new demo_ops).
Proof.
  apply inode_table_invariant; [|vm_compute; reflexivity].
  repeat constructor; vm_compute; done.
Defined.

(** Interning is an idempotent allocation: the number returned resolves to
    the interned path, a second intern of the same path returns the same number
    and leaves the table alone, and a different path gets a different number. *)
Theorem intern_stable (t : InodeTable) (p q : path) :
  inodes_ok t → next_ino t + 1 < u64_modulus →
  let t1 := fst (intern t p) in
  let i := snd (intern t p) in
  (∃ p', by_ino t1 !! i = Some p' ∧ components p' = components p) ∧
  intern t1 p = (t1, i) ∧
  (components q = components p ∨ snd (intern t1 q) ≠ i).
Proof.
  intros Hok Hn t1 i. split; [by apply intern_lookup|].
  pose proof (intern_by_path t p) as Hb. fold t1 i in Hb.
  pose proof (intern_ok t p Hok Hn) as Hok1. fold t1 in Hok1.
  split; [unfold intern at 1; by rewrite Hb|].
  destruct (decide (components q = components p)) as [?|Hne]; [by left|right].
  unfold intern. destruct (by_path t1 !! components q) as [j|] eqn:E; simpl.
  - intros ->. apply Hne. by eapply by_path_inj.
  - destruct (ok_index t1 Hok1 _ _ Hb) as (p' & Hp' & _).
    apply (ok_fresh t1 Hok1) in Hp'. lia.
Qed.

Lemma intern_stable_witness :
  let t1 := fst (intern InodeTable_new (lit "a")) in
  let i := snd (intern InodeTable_new (lit "a")) in
  (∃ p', by_ino t1 !! i = Some p' ∧ components p' = components (lit "a")) ∧
  intern t1 (lit "a") = (t1, i) ∧
  (components (lit "b") = components (lit "a") ∨ snd (intern t1 (lit "b")) ≠ i).
Proof. apply intern_stable; [apply InodeTable_new_ok|vm_compute; reflexivity]. Defined.

(** A rename moves one entry only.  Renaming over an interned path leaves the
    replaced inode number still resolving to it, and renaming a directory leaves
    the numbers of its children resolving to paths that no longer exist. *)
Lemma rename_leaves_stale_inode :
  let t := foldl apply_op InodeTable_new [OpIntern (lit "a"); OpIntern (lit "b"); OpRename (lit "a") (lit "b")] in
  by_ino t !! 2 = Some (lit "b") ∧ by_ino t !! 3 = Some (lit "b").
Proof. split; vm_compute; reflexivity. Qed.

Lemma rename_directory_leaves_children :
  let t := foldl apply_op InodeTable_new [OpIntern (lit "d"); OpIntern (lit "d/x"); OpRename (lit "d") (lit "e")] in
  by_ino t !! 2 = Some (lit "e") ∧ by_ino t !! 3 = Some (lit "d/x").
Proof. split; vm_compute; reflexivity. Qed.
