(* ===== verification/Eff.v ===== *)
(** * State-passing computations and their weakest preconditions

    The handlers of the overlay mutate shared state, may panic (slice bounds,
    capacity overflow) and run loops that the kernel drives.  [M S A] is a
    function from a state to an outcome; [wp] is its predicate transformer,
    parametric in what is required of a panic and of exhausted fuel, so that
    one set of rules serves partial correctness ([wp True True]), panic freedom
    ([wp False True]) and total correctness ([wp False False]). *)

From S2P Require Import Prelude.

(** ** Outcomes and the monad *)

Inductive outcome (A : Type) : Type :=
| Done (a : A)
| Panicked
| OutOfFuel.
Arguments Done {A} a.
Arguments Panicked {A}.
Arguments OutOfFuel {A}.

Definition M (S A : Type) : Type := S → outcome (A * S).

(** A computation ending in a Rust [Result] with an [errno]. *)
Definition MR (S A : Type) : Type := M S (result A Z).

Section monad.
Context {S : Type}.

Definition ret {A} (a : A) : M S A := λ s, Done (a, s).
Definition panic {A} : M S A := λ _, Panicked.
Definition out_of_fuel {A} : M S A := λ _, OutOfFuel.
Definition get : M S S := λ s, Done (s, s).
Definition modify (f : S → S) : M S unit := λ s, Done (tt, f s).

Definition bind {A B} (m : M S A) (k : A → M S B) : M S B := λ s,
  match m s with
  | Done (a, s') => k a s'
  | Panicked => Panicked
  | OutOfFuel => OutOfFuel
  end.

(** The [?] operator. *)
Definition try_bind {A B} (m : MR S A) (k : A → MR S B) : MR S B :=
  bind m (λ r, match r with Ok a => k a | Err e => ret (Err e) end).

(** ** Weakest preconditions *)

Definition wp (on_panic on_fuel : Prop) {A} (m : M S A) (Q : A → S → Prop) (s : S) : Prop :=
  match m s with
  | Done (a, s') => Q a s'
  | Panicked => on_panic
  | OutOfFuel => on_fuel
  end.

Lemma wp_bind P F {A B} (m : M S A) (k : A → M S B) Q s :
  wp P F m (λ a, wp P F (k a) Q) s → wp P F (bind m k) Q s.
Proof. unfold wp, bind. by destruct (m s) as [[a s']| |]. Qed.

Lemma wp_ret P F {A} (a : A) (Q : A → S → Prop) s : Q a s → wp P F (ret a) Q s.
Proof. done. Qed.

Lemma wp_modify P F f (Q : unit → S → Prop) s : Q tt (f s) → wp P F (modify f) Q s.
Proof. done. Qed.

Lemma wp_mono P F {A} (m : M S A) (Q Q' : A → S → Prop) s :
  wp P F m Q s → (∀ a s', Q a s' → Q' a s') → wp P F m Q' s.
Proof. unfold wp. destruct (m s) as [[a s']| |]; auto. Qed.

Lemma wp_weaken (P F P' F' : Prop) {A} (m : M S A) Q s :
  wp P F m Q s → (P → P') → (F → F') → wp P' F' m Q s.
Proof. unfold wp. destruct (m s) as [[a s']| |]; auto. Qed.

Lemma wp_and P F {A} (m : M S A) (Q Q' : A → S → Prop) s :
  wp P F m Q s → wp P F m Q' s → wp P F m (λ a s', Q a s' ∧ Q' a s') s.
Proof. unfold wp. destruct (m s) as [[a s']| |]; auto. Qed.

(** [?] passes an error on and otherwise continues. *)
Lemma wp_try P F {A B} (m : MR S A) (k : A → MR S B) Q s :
  wp P F m (λ r s', match r with Ok a => wp P F (k a) Q s' | Err e => Q (Err e) s' end) s →
  wp P F (try_bind m k) Q s.
Proof. intros Hm. apply wp_bind. eapply wp_mono; [exact Hm|]. by intros [a|e] s'. Qed.

(** The postcondition may speak of the run itself. *)
Lemma wp_run P F {A} (m : M S A) (Q : A → S → Prop) s :
  wp P F m Q s → wp P F m (λ a s', m s = Done (a, s') ∧ Q a s') s.
Proof. unfold wp. by destruct (m s) as [[a s']| |]. Qed.

(** What a finished run satisfies. *)
Lemma wp_Done P F {A} (m : M S A) Q s a s' : wp P F m Q s → m s = Done (a, s') → Q a s'.
Proof. unfold wp. intros HQ E. by rewrite E in HQ. Qed.

Lemma wp_total {A} (m : M S A) Q s :
  wp False False m Q s → ∃ a s', m s = Done (a, s') ∧ Q a s'.
Proof. unfold wp. destruct (m s) as [[a s']| |]; [eauto|done..]. Qed.

(** ** Frames: computations that leave an observation of the state alone *)

Definition keeps {T A} (obs : S → T) (m : M S A) : Prop :=
  ∀ s a s', m s = Done (a, s') → obs s' = obs s.

Lemma keeps_ret {T A} (obs : S → T) (a : A) : keeps obs (ret a).
Proof. by intros s b s' [= <- <-]. Qed.

Lemma keeps_panic {T A} (obs : S → T) : keeps obs (@panic A).
Proof. done. Qed.

Lemma keeps_fuel {T A} (obs : S → T) : keeps obs (@out_of_fuel A).
Proof. done. Qed.

Lemma keeps_modify {T} (obs : S → T) f : (∀ s, obs (f s) = obs s) → keeps obs (modify f).
Proof. intros Hf s [] s' [= <-]. done. Qed.

Lemma keeps_bind {T A B} (obs : S → T) (m : M S A) (k : A → M S B) :
  keeps obs m → (∀ a, keeps obs (k a)) → keeps obs (bind m k).
Proof.
  unfold bind. intros Hm Hk s b s'. destruct (m s) as [[a s1]| |] eqn:E; [|done..].
  intros E'. rewrite (Hk a s1 b s' E'). by eapply Hm.
Qed.

Lemma keeps_try {T A B} (obs : S → T) (m : MR S A) (k : A → MR S B) :
  keeps obs m → (∀ a, keeps obs (k a)) → keeps obs (try_bind m k).
Proof. intros Hm Hk. apply keeps_bind; [done|]. intros [a|e]; [done|apply keeps_ret]. Qed.

Lemma keeps_wp {T A} (obs : S → T) (m : M S A) s :
  keeps obs m → wp True True m (λ _ s', obs s' = obs s) s.
Proof. unfold wp. intros Hm. destruct (m s) as [[a s']| |] eqn:E; [|done..]. by eapply Hm. Qed.

(** Computations whose every run takes a state to a related one. *)
Definition moves (R : S → S → Prop) {A} (m : M S A) : Prop := ∀ s a s', m s = Done (a, s') → R s s'.

Section moves.
Context (R : S → S → Prop) `{!PreOrder R}.

Lemma moves_ret {A} (a : A) : moves R (ret a).
Proof. intros s b s' [= <- <-]. done. Qed.

Lemma moves_fuel {A} : moves R (@out_of_fuel A).
Proof. done. Qed.

Lemma moves_bind {A B} (m : M S A) (k : A → M S B) :
  moves R m → (∀ a, moves R (k a)) → moves R (bind m k).
Proof.
  unfold bind. intros Hm Hk s b s'. destruct (m s) as [[a s1]| |] eqn:E; [|done..].
  intros E'. etrans; [by eapply Hm|by eapply Hk].
Qed.

Lemma moves_try {A B} (m : MR S A) (k : A → MR S B) :
  moves R m → (∀ a, moves R (k a)) → moves R (try_bind m k).
Proof. intros Hm Hk. apply moves_bind; [done|]. intros [a|e]; [done|apply moves_ret]. Qed.
End moves.

(** ** Panic freedom *)

Definition no_panic {A} (m : M S A) : Prop := ∀ s, m s ≠ Panicked.

Lemma no_panic_ret {A} (a : A) : no_panic (ret a).
Proof. done. Qed.

Lemma no_panic_fuel {A} : no_panic (@out_of_fuel A).
Proof. done. Qed.

Lemma no_panic_modify f : no_panic (modify f).
Proof. done. Qed.

Lemma no_panic_bind {A B} (m : M S A) (k : A → M S B) :
  no_panic m → (∀ a, no_panic (k a)) → no_panic (bind m k).
Proof.
  unfold bind. intros Hm Hk s. specialize (Hm s). destruct (m s) as [[a s1]| |]; [apply Hk|done..].
Qed.

Lemma no_panic_try {A B} (m : MR S A) (k : A → MR S B) :
  no_panic m → (∀ a, no_panic (k a)) → no_panic (try_bind m k).
Proof. intros Hm Hk. apply no_panic_bind; [done|]. intros [a|e]; [done|apply no_panic_ret]. Qed.
End monad.

(** ** Event logs

    A computation whose state is the log of what it did.  [traces ok m full]: it
    terminates having done an initial part of [full], and all of it on success;
    every step but the last one done satisfies [ok], all of them on success. *)
Section traces.
Context {Ev : Type} (ok : Ev → Prop).

Definition emit (e : Ev) : M (list Ev) unit := modify (λ log, log ++ [e]).

(** [?] with an arbitrary error type. *)
Definition try_x {A B X} (m : M (list Ev) (result A X)) (k : A → M (list Ev) (result B X))
    : M (list Ev) (result B X) :=
  bind m (λ r, match r with Ok a => k a | Err e => ret (Err e) end).

(** A logged step whose answer is [r]. *)
Definition act {A X} (e : Ev) (r : result A X) : M (list Ev) (result A X) :=
  bind (emit e) (λ _, ret r).

Definition traces {A X} (m : M (list Ev) (result A X)) (full : list Ev) : Prop :=
  ∀ log, ∃ r ext, m log = Done (r, log ++ ext) ∧ ext `prefix_of` full ∧
                  Forall ok (removelast ext) ∧ ∀ a, r = Ok a → ext = full ∧ Forall ok full.

Lemma removelast_ok l1 l2 : Forall ok l1 → Forall ok (removelast l2) → Forall ok (removelast (l1 ++ l2)).
Proof.
  intros H1 H2. destruct l2 as [|x l2] using rev_ind.
  - rewrite app_nil_r. destruct l1 as [|y l1] using rev_ind; [done|].
    rewrite removelast_last. by apply Forall_app in H1 as [? _].
  - rewrite app_assoc, removelast_last. rewrite removelast_last in H2. by apply Forall_app.
Qed.

Lemma traces_ret {A X} (r : result A X) : traces (ret r) [].
Proof.
  intros log. exists r, []. rewrite app_nil_r. split_and!; [done|done|constructor|].
  intros a _. by split; [|constructor].
Qed.

Lemma traces_act {A X} e (r : result A X) : (∀ a, r = Ok a → ok e) → traces (act e r) [e].
Proof.
  intros Hok log. exists r, [e]. split_and!; [done|done|constructor|].
  intros a Ha. split; [done|]. constructor; [by eapply Hok|constructor].
Qed.

Lemma traces_try_eq {A B X} (m : M (list Ev) (result A X)) (k : A → M (list Ev) (result B X)) f1 f2 :
  traces m f1 → (∀ log a log', m log = Done (Ok a, log') → traces (k a) f2) →
  traces (try_x m k) (f1 ++ f2).
Proof.
  intros Hm Hk log. unfold try_x, bind. destruct (Hm log) as (r & ext & E & Hp & Hl & Hf). rewrite E.
  destruct r as [a|e].
  - destruct (Hf a eq_refl) as [-> Hok1].
    destruct (Hk _ _ _ E (log ++ f1)) as (r' & ext' & -> & Hp' & Hl' & Hf').
    exists r', (f1 ++ ext').
    split_and!; [by rewrite app_assoc|by apply prefix_app|by apply removelast_ok|].
    intros b Hb. destruct (Hf' b Hb) as [-> ?]. split; [done|]. by apply Forall_app.
  - exists (Err e), ext. split_and!; [done| |done|done]. by apply prefix_app_r.
Qed.

Lemma traces_try {A B X} (m : M (list Ev) (result A X)) (k : A → M (list Ev) (result B X)) f1 f2 :
  traces m f1 → (∀ a, traces (k a) f2) → traces (try_x m k) (f1 ++ f2).
Proof. intros Hm Hk. by apply traces_try_eq. Qed.

(** A step that cannot stop the run. *)
Lemma traces_emit {B X} e (k : M (list Ev) (result B X)) f2 :
  ok e → traces k f2 → traces (bind (emit e) (λ _, k)) (e :: f2).
Proof.
  intros He Hk log. unfold bind, emit, modify. destruct (Hk (log ++ [e])) as (r & ext & E & Hp & Hl & Hf).
  rewrite <- app_assoc in E. exists r, ([e] ++ ext).
  split_and!; [done|by apply prefix_cons|apply removelast_ok; [by constructor|done]|].
  intros a Ha. destruct (Hf a Ha) as [-> ?]. split; [done|by constructor].
Qed.

(** A pure step; a successful answer is known to the rest of the run. *)
Lemma traces_pure {A B X} (r : result A X) (k : A → M (list Ev) (result B X)) f :
  (∀ a, r = Ok a → traces (k a) f) → traces (try_x (ret r) k) f.
Proof.
  intros Hk log. destruct r as [a|x]; [by apply Hk|].
  exists (Err x), []. rewrite app_nil_r. split_and!; [done| |constructor|done]. by eexists.
Qed.

(** A logged step and the rest. *)
Lemma traces_step {A B X} e (r : result A X) (k : A → M (list Ev) (result B X)) f2 :
  (∀ a, r = Ok a → ok e) → (∀ a, traces (k a) f2) → traces (try_x (act e r) k) (e :: f2).
Proof. intros He Hk. apply (traces_try _ _ [e] f2); [by apply traces_act|done]. Qed.
End traces.

#[global] Arguments wp : simpl never.

Notation "'let!' x := m 'in' k" := (bind m (λ x, k))
  (at level 200, x binder, m at level 100, k at level 200, right associativity) : airgap_scope.
Notation "'let!?' x := m 'in' k" := (try_bind m (λ x, k))
  (at level 200, x binder, m at level 100, k at level 200, right associativity) : airgap_scope.

#[export] Hint Resolve keeps_ret keeps_panic keeps_fuel keeps_bind keeps_try
  no_panic_ret no_panic_fuel no_panic_modify no_panic_bind no_panic_try
  moves_ret moves_fuel moves_bind moves_try : airgap.
