(* ===== verification/Rel.v ===== *)
(** * Two runs side by side

    [rel R m1 m2 s1 s2]: run from [s1] and [s2], the two computations end alike
    (both finish, or both panic), unless one of them runs out of fuel, and when
    they finish [R] relates their results and final states.  With the rules below,
    a noninterference proof follows the program: one rule per construct, one lemma
    per system call. *)

From S2P Require Import Prelude Eff.

Section rel.
Context {S : Type}.

Definition rel {A B} (R : A → B → S → S → Prop) (m1 : M S A) (m2 : M S B) (s1 s2 : S) : Prop :=
  match m1 s1, m2 s2 with
  | Done (a, s1'), Done (b, s2') => R a b s1' s2'
  | Panicked, Panicked | OutOfFuel, _ | _, OutOfFuel => True
  | _, _ => False
  end.

Lemma rel_ret {A B} (R : A → B → S → S → Prop) a b s1 s2 : R a b s1 s2 → rel R (ret a) (ret b) s1 s2.
Proof. done. Qed.

Lemma rel_bind {A1 A2 B1 B2} (R : A1 → A2 → S → S → Prop) (Q : B1 → B2 → S → S → Prop)
    m1 m2 (k1 : A1 → M S B1) (k2 : A2 → M S B2) s1 s2 :
  rel R m1 m2 s1 s2 →
  (∀ a1 a2 s1' s2', R a1 a2 s1' s2' → rel Q (k1 a1) (k2 a2) s1' s2') →
  rel Q (bind m1 k1) (bind m2 k2) s1 s2.
Proof.
  unfold rel, bind. intros Hm Hk.
  destruct (m1 s1) as [[a1 s1']| |], (m2 s2) as [[a2 s2']| |]; try done; [by apply Hk|..].
  all: by repeat case_match.
Qed.

Lemma rel_mono {A B} (R Q : A → B → S → S → Prop) m1 m2 s1 s2 :
  rel R m1 m2 s1 s2 → (∀ a b s1' s2', R a b s1' s2' → Q a b s1' s2') → rel Q m1 m2 s1 s2.
Proof.
  unfold rel. intros Hm HR. destruct (m1 s1) as [[a s1']| |], (m2 s2) as [[b s2']| |]; auto.
Qed.

(** A computation that neither reads nor changes the state. *)
Definition stateless {A} (m : M S A) : Prop :=
  (∃ a, ∀ s, m s = Done (a, s)) ∨ ∀ s, m s = Panicked.

Lemma rel_stateless {A B} (Q : B → B → S → S → Prop) (m : M S A) (k : A → M S B) s1 s2 :
  stateless m → (∀ a, rel Q (k a) (k a) s1 s2) → rel Q (bind m k) (bind m k) s1 s2.
Proof.
  intros Hm Hk. unfold rel, bind. destruct Hm as [[a Ha]|Hp]; [rewrite !Ha; apply Hk|by rewrite !Hp].
Qed.

(** Two runs that do not panic and are each correct. *)
Lemma rel_wp {A B} (R : A → B → S → S → Prop) Q1 Q2 (m1 : M S A) (m2 : M S B) s1 s2 :
  wp False True m1 Q1 s1 → wp False True m2 Q2 s2 →
  (∀ a b s1' s2', Q1 a s1' → Q2 b s2' → R a b s1' s2') → rel R m1 m2 s1 s2.
Proof.
  unfold rel, wp. intros H1 H2 HR.
  destruct (m1 s1) as [[a s1']| |], (m2 s2) as [[b s2']| |]; try done. by apply HR.
Qed.

Lemma rel_wp_l {A B} (R : A → B → S → S → Prop) P Q (m1 : M S A) (m2 : M S B) s1 s2 :
  rel R m1 m2 s1 s2 → wp True True m1 P s1 →
  (∀ a b s1' s2', R a b s1' s2' → P a s1' → Q a b s1' s2') → rel Q m1 m2 s1 s2.
Proof.
  unfold rel, wp. intros Hr Hp HQ. destruct (m1 s1) as [[a s1']| |], (m2 s2) as [[b s2']| |]; auto.
Qed.

(** ** Lock step: the same computation, from states related by [sim]

    The results are equal and the states stay related. *)
Context (sim : S → S → Prop).

Definition same {A} (a b : A) (s1 s2 : S) : Prop := a = b ∧ sim s1 s2.

Definition couple {A} (m : M S A) : Prop := ∀ s1 s2, sim s1 s2 → rel same m m s1 s2.

Lemma couple_ret {A} (a : A) : couple (ret a).
Proof. by intros s1 s2 Hs. Qed.

Lemma couple_panic {A} : couple (@panic S A).
Proof. by intros s1 s2 Hs. Qed.

Lemma couple_bind {A B} (m : M S A) (k : A → M S B) :
  couple m → (∀ a, couple (k a)) → couple (bind m k).
Proof.
  intros Hm Hk s1 s2 Hs. eapply rel_bind; [by apply Hm|].
  intros a1 a2 s1' s2' [-> Hs']. by apply Hk.
Qed.

Lemma couple_try {A B} (m : MR S A) (k : A → MR S B) :
  couple m → (∀ a, couple (k a)) → couple (try_bind m k).
Proof. intros Hm Hk. apply couple_bind; [done|]. intros [a|e]; [done|apply couple_ret]. Qed.

(** Reading an observation that related states share. *)
Lemma couple_view {T A} (obs : S → T) (k : T → M S A) :
  (∀ s1 s2, sim s1 s2 → obs s1 = obs s2) → (∀ t, couple (k t)) →
  couple (bind get (λ s, k (obs s))).
Proof.
  intros Ho Hk s1 s2 Hs. unfold bind, get. specialize (Hk (obs s2) s1 s2 Hs).
  unfold rel in *. by rewrite (Ho _ _ Hs).
Qed.
End rel.

#[export] Hint Resolve couple_ret couple_panic couple_bind couple_try : airgap.
