(* ===== verification/Os.v ===== *)
(** * The operating system under the overlay

    [src/fs.rs] reaches the real files through [nix]'s wrappers of the [*at]
    system calls.  The kernel is not part of the program: it is a parameter, the
    class [Os], one function per call over an abstract world.  [OsSpec] states
    the behaviour of Linux the overlay relies on, over three observations of a
    world: what a path resolves to, what a descriptor is open on and whether it
    appends, and the contents of a file.  It is POSIX's, but for a positioned
    write on an appending descriptor, which Linux puts at the end of the file. *)

From S2P Require Import Prelude Paths.

(** ** Constants of [libc] *)

Definition ENOENT : Z := 2.
Definition EIO : Z := 5.
Definition EBADF : Z := 9.
Definition EACCES : Z := 13.
Definition EROFS : Z := 30.

Definition O_RDONLY : Z := 0.
Definition O_WRONLY : Z := 1.
Definition O_RDWR : Z := 2.
Definition O_ACCMODE : Z := 3.
Definition O_CREAT : Z := 64.
Definition O_TRUNC : Z := 512.
Definition O_APPEND : Z := 1024.
Definition O_DIRECTORY : Z := 65536.
Definition O_CLOEXEC : Z := 524288.

(** None of two flags is none of each. *)
Lemma land_bit fl a b : Z.land fl (Z.lor a b) = 0 → Z.land fl a = 0 ∧ Z.land fl b = 0.
Proof.
  rewrite Z.land_lor_distr_r. intros Hl. by apply Z.lor_eq_0_iff in Hl.
Qed.

Definition AT_SYMLINK_NOFOLLOW : Z := 256.

Definition S_IFMT : Z := 61440.
Definition S_IFIFO : Z := 4096.
Definition S_IFCHR : Z := 8192.
Definition S_IFDIR : Z := 16384.
Definition S_IFBLK : Z := 24576.
Definition S_IFREG : Z := 32768.
Definition S_IFLNK : Z := 40960.
Definition S_IFSOCK : Z := 49152.

Definition isize_max : Z := 2 ^ 63 - 1.

(** [x as i64] of a [u64]. *)
Definition as_i64 (x : Z) : Z := if x <=? isize_max then x else x - u64_modulus.

(** ** Data of the calls *)

Record FileStat : Type := mkStat {
  st_mode : Z; st_size : Z; st_blocks : Z; st_nlink : Z;
  st_uid : Z; st_gid : Z; st_rdev : Z; st_blksize : Z;
  st_atime : Z; st_atime_nsec : Z;
  st_mtime : Z; st_mtime_nsec : Z;
  st_ctime : Z; st_ctime_nsec : Z;
}.

(** The times of a [stat] result are [i64]s. *)
Record stat_ok (st : FileStat) : Prop := {
  ok_atime : - 2 ^ 63 <= st_atime st <= isize_max;
  ok_mtime : - 2 ^ 63 <= st_mtime st <= isize_max;
  ok_ctime : - 2 ^ 63 <= st_ctime st <= isize_max;
}.

(** [nix::dir::Type] *)
Inductive DirType : Type :=
| TFifo | TCharacterDevice | TDirectory | TBlockDevice | TFile | TSymlink | TSocket.

(** [UnlinkatFlags] *)
Inductive UnlinkatFlags : Type := RemoveDir | NoRemoveDir.

(** ** The calls

    Every call takes the world and returns the next one.  [pread] returns the
    bytes it filled the buffer with ([&buf[..n]]); [read_dir] is
    [Dir::openat] followed by its iteration, an entry being a name and a type. *)
Class Os (W Fd : Type) : Type := {
  openat : Fd → path → Z → Z → W → W * result Fd Z;
  close_fd : Fd → W → W;
  pread : Fd → Z → Z → W → W * result bytes Z;
  pwrite : Fd → bytes → Z → W → W * result Z Z;
  ftruncate : Fd → Z → W → W * result unit Z;
  fstatat : Fd → path → Z → W → W * result FileStat Z;
  readlinkat : Fd → path → W → W * result bytes Z;
  mkdirat : Fd → path → Z → W → W * result unit Z;
  unlinkat : Fd → path → UnlinkatFlags → W → W * result unit Z;
  renameat : Fd → path → Fd → path → W → W * result unit Z;
  symlinkat : path → Fd → path → W → W * result unit Z;
  linkat : Fd → path → Fd → path → Z → W → W * result unit Z;
  read_dir : Fd → path → Z → W → W * result (list (result (bytes * option DirType) Z)) Z;
}.

(** ** What the overlay relies on *)

(** [data] in place at [off] (past the end, the hole is filled with zeros). *)
Definition overwrite (c : bytes) (off : nat) (data : bytes) : bytes :=
  take off (c ++ replicate (off - length c) 0) ++ data ++ drop (off + length data) c.

(** What a write of [data] at [off] leaves: writing nothing extends no file. *)
Definition written (c : bytes) (off : nat) (data : bytes) : bytes :=
  match data with [] => c | _ => overwrite c off data end.

(** The flags ask for a descriptor that appends. *)
Definition appends (flags : Z) : bool := negb (Z.land flags O_APPEND =? 0).

(** Where a positioned write lands: Linux ignores the offset on a descriptor
    opened with [O_APPEND]. *)
Definition write_at (append : bool) (c : bytes) (off : nat) : nat := if append then length c else off.

(** The three observations agree in two worlds. *)
Record same_files {W Fd Fid} (fd_open : W → Fd → option (Fid * bool)) (content : W → Fid → bytes)
    (w w' : W) : Prop := {
  same_fds fd o : fd_open w fd = Some o → fd_open w' fd = Some o;
  same_content f : content w' f = content w f;
}.

(** [fd_open]: the file a descriptor is open on, and whether it appends. *)
Class OsSpec (W Fd : Type) `{Os W Fd} : Type := {
  Fid : Type;
  fd_open : W → Fd → option (Fid * bool);
  content : W → Fid → bytes;
  resolves : W → Fd → path → Fid → Prop;

  (** Opening an existing file without [O_TRUNC] changes no file, keeps the
      open descriptors and yields a fresh one on the file the path resolves to. *)
  openat_plain d p fl m w w' r :
    Z.land fl (Z.lor O_CREAT O_TRUNC) = 0 → openat d p fl m w = (w', r) →
    same_files fd_open content w w' ∧ (∀ q f, resolves w d q f ↔ resolves w' d q f) ∧
    (∀ fd, r = Ok fd → fd ≠ d ∧ fd_open w fd = None ∧
      ∀ f, resolves w d p f → fd_open w' fd = Some (f, appends fl));
  close_frame fd w :
    (∀ fd' o, fd' ≠ fd → fd_open w fd' = Some o → fd_open (close_fd fd w) fd' = Some o) ∧
    (∀ f, content (close_fd fd w) f = content w f) ∧
    (∀ d q f, d ≠ fd → resolves w d q f ↔ resolves (close_fd fd w) d q f);
  (** A read changes nothing and returns a prefix of what is at the offset,
      empty only at the end of the file. *)
  pread_reads fd n off w w' r f append :
    fd_open w fd = Some (f, append) → 0 < n → 0 <= off → pread fd n off w = (w', r) →
    same_files fd_open content w w' ∧ (∀ d q g, resolves w d q g ↔ resolves w' d q g) ∧
    ∀ b, r = Ok b →
      ∃ rest, drop (Z.to_nat off) (content w f) = b ++ rest ∧
              Z.of_nat (length b) <= n ∧ (b = [] → rest = []);
  (** A write stores a prefix of the data at the offset, or at the end of the file
      on a descriptor that appends; a non-empty one when there is data.  A failed
      write stores nothing. *)
  pwrite_writes fd data off w w' r f append :
    fd_open w fd = Some (f, append) → 0 <= off → pwrite fd data off w = (w', r) →
    (∀ fd' o, fd_open w fd' = Some o → fd_open w' fd' = Some o) ∧
    (∀ f', f' ≠ f → content w' f' = content w f') ∧
    (∀ d q g, resolves w d q g ↔ resolves w' d q g) ∧
    match r with
    | Ok n => 0 <= n <= Z.of_nat (length data) ∧ (data ≠ [] → 0 < n) ∧
              content w' f = written (content w f) (write_at append (content w f) (Z.to_nat off))
                               (take (Z.to_nat n) data)
    | Err _ => content w' f = content w f
    end;
  ftruncate_truncates fd n w w' r f append :
    fd_open w fd = Some (f, append) → 0 <= n → ftruncate fd n w = (w', r) →
    (∀ fd' o, fd_open w fd' = Some o → fd_open w' fd' = Some o) ∧
    (∀ f', f' ≠ f → content w' f' = content w f') ∧
    (∀ d q g, resolves w d q g ↔ resolves w' d q g) ∧
    match r with
    | Ok _ => content w' f = resize_zero (Z.to_nat n) (content w f)
    | Err _ => content w' f = content w f
    end;
  (** [fstatat] changes nothing and reports [i64] times. *)
  fstatat_frame d p fl w w' r :
    fstatat d p fl w = (w', r) →
    same_files fd_open content w w' ∧ (∀ e q g, resolves w e q g ↔ resolves w' e q g) ∧
    ∀ st, r = Ok st → stat_ok st;
}.

(** The file of an open descriptor. *)
Definition fd_file {W Fd} `{OsSpec W Fd} (w : W) (fd : Fd) : option Fid := fst <$> fd_open w fd.

Lemma fd_file_open {W Fd} `{OsSpec W Fd} (w : W) (fd : Fd) f :
  fd_file w fd = Some f ↔ ∃ append, fd_open w fd = Some (f, append).
Proof.
  unfold fd_file. rewrite fmap_Some. split; [intros ([g a] & E & ->); eauto|intros [a E]; by eexists].
Qed.

Lemma fd_file_none {W Fd} `{OsSpec W Fd} (w : W) (fd : Fd) : fd_open w fd = None → fd_file w fd = None.
Proof. unfold fd_file. by intros ->. Qed.

(** What keeps a descriptor keeps the file it is open on. *)
Lemma fd_file_kept {W Fd} `{OsSpec W Fd} (w w' : W) (fd : Fd) f :
  (∀ o, fd_open w fd = Some o → fd_open w' fd = Some o) → fd_file w fd = Some f → fd_file w' fd = Some f.
Proof. rewrite !fd_file_open. intros Hk [a E]. eauto. Qed.

Lemma close_keeps_file {W Fd} `{OsSpec W Fd} (w : W) (fd fd' : Fd) f :
  fd' ≠ fd → fd_file w fd' = Some f → fd_file (close_fd fd w) fd' = Some f.
Proof. intros Hne. destruct (close_frame fd w) as (Hc & _). apply fd_file_kept. intros o. by apply Hc. Qed.

(** The law of [openat], about files only. *)
Lemma openat_plain_file {W Fd} `{OsSpec W Fd} (d : Fd) p fl m (w w' : W) r :
  Z.land fl (Z.lor O_CREAT O_TRUNC) = 0 → openat d p fl m w = (w', r) →
  same_files fd_open content w w' ∧ (∀ q f, resolves w d q f ↔ resolves w' d q f) ∧
  (∀ fd, r = Ok fd → fd ≠ d ∧ fd_file w fd = None ∧ ∀ f, resolves w d p f → fd_file w' fd = Some f).
Proof.
  intros Hfl E. destruct (openat_plain _ _ _ _ _ _ _ Hfl E) as (Hs & Hr & Hfd). split_and!; [done..|].
  intros fd ->. destruct (Hfd fd eq_refl) as (Hne & Hn & Ho). split_and!; [done|by apply fd_file_none|].
  intros f Hf. apply fd_file_open. eauto.
Qed.

(** [ftruncate] does not care whether the descriptor appends. *)
Lemma ftruncate_file {W Fd} `{OsSpec W Fd} (fd : Fd) n (w w' : W) r f :
  fd_file w fd = Some f → 0 <= n → ftruncate fd n w = (w', r) →
  (∀ fd' o, fd_open w fd' = Some o → fd_open w' fd' = Some o) ∧
  (∀ f', f' ≠ f → content w' f' = content w f') ∧
  (∀ d q g, resolves w d q g ↔ resolves w' d q g) ∧
  match r with
  | Ok _ => content w' f = resize_zero (Z.to_nat n) (content w f)
  | Err _ => content w' f = content w f
  end.
Proof. intros [a Ha]%fd_file_open. by apply ftruncate_truncates with (append := a). Qed.
