(* ===== verification/Attr.v ===== *)
(** * File attributes and open flags of the overlay ([src/fs.rs]: [system_time],
    [attr_from_stat], [dir_type], [passthrough_oflag]) *)

From S2P Require Import Prelude Os.

(** ** Definitions *)

(** [fuser::FileType] *)
Inductive FileType : Type :=
| NamedPipe | CharDevice | BlockDevice | Directory | RegularFile | Symlink | Socket.

(** [std::time::SystemTime] on Unix: an [i64] of seconds and nanoseconds below
    one second, normalised. *)
Record SystemTime : Type := mkTime { tv_sec : Z; tv_nsec : Z }.

Definition UNIX_EPOCH : SystemTime := mkTime 0 0.
Definition NANOS : Z := 1000000000.

Definition in_i64 (x : Z) : bool := (- 2 ^ 63 <=? x) && (x <=? isize_max).

(** [SystemTime + Duration] and [SystemTime - Duration]; [None] is the panic of
    an unrepresentable time.  A duration is its seconds and nanoseconds. *)
Definition time_add (t : SystemTime) (secs nsecs : Z) : option SystemTime :=
  let n := tv_nsec t + nsecs in
  let s := tv_sec t + secs + (if NANOS <=? n then 1 else 0) in
  if in_i64 s then Some (mkTime s (if NANOS <=? n then n - NANOS else n)) else None.

Definition time_sub (t : SystemTime) (secs nsecs : Z) : option SystemTime :=
  let n := tv_nsec t - nsecs in
  let s := tv_sec t - secs - (if n <? 0 then 1 else 0) in
  if in_i64 s then Some (mkTime s (if n <? 0 then n + NANOS else n)) else None.

(** [secs] is an [i64]; [(-secs) as u64] is [2^64 - secs] modulo [2^64]. *)
Definition system_time (secs nsecs : Z) : option SystemTime :=
  let nsecs := Z.min (Z.max nsecs 0) 999999999 in
  if 0 <=? secs then time_add UNIX_EPOCH secs nsecs
  else t ← time_sub UNIX_EPOCH ((- secs) mod u64_modulus) 0; time_add t 0 nsecs.

(** [fuser::FileAttr] *)
Record FileAttr : Type := mkAttr {
  a_ino : Z; a_size : Z; a_blocks : Z;
  a_atime : SystemTime; a_mtime : SystemTime; a_ctime : SystemTime; a_crtime : SystemTime;
  a_kind : FileType; a_perm : Z; a_nlink : Z; a_uid : Z; a_gid : Z; a_rdev : Z;
  a_blksize : Z; a_flags : Z;
}.

Definition as_u64 (x : Z) : Z := x mod u64_modulus.
Definition as_u32 (x : Z) : Z := x mod 2 ^ 32.
Definition as_u16 (x : Z) : Z := x mod 2 ^ 16.

(** The [match] on [SFlag::from_bits_truncate(st.st_mode) & SFlag::S_IFMT]. *)
Definition file_kind (mode : Z) : FileType :=
  let t := Z.land mode S_IFMT in
  if t =? S_IFDIR then Directory
  else if t =? S_IFLNK then Symlink
  else if t =? S_IFIFO then NamedPipe
  else if t =? S_IFCHR then CharDevice
  else if t =? S_IFBLK then BlockDevice
  else if t =? S_IFSOCK then Socket
  else RegularFile.

Definition attr_from_stat (ino : Z) (st : FileStat) : option FileAttr :=
  atime ← system_time (st_atime st) (st_atime_nsec st);
  mtime ← system_time (st_mtime st) (st_mtime_nsec st);
  ctime ← system_time (st_ctime st) (st_ctime_nsec st);
  Some (mkAttr ino (as_u64 (st_size st)) (as_u64 (st_blocks st)) atime mtime ctime UNIX_EPOCH
          (file_kind (st_mode st)) (as_u16 (Z.land (st_mode st) 4095))
          (as_u32 (st_nlink st)) (st_uid st) (st_gid st) (as_u32 (st_rdev st))
          (as_u32 (st_blksize st)) 0).

(** [u64::div_ceil] by the block size. *)
Definition blocks_of (size : Z) : Z := (size + 511) / 512.

(** The assignments [attr.size = n; attr.blocks = n.div_ceil(512)]. *)
Definition set_size (a : FileAttr) (n : Z) : FileAttr :=
  mkAttr (a_ino a) n (blocks_of n) (a_atime a) (a_mtime a) (a_ctime a) (a_crtime a)
    (a_kind a) (a_perm a) (a_nlink a) (a_uid a) (a_gid a) (a_rdev a) (a_blksize a) (a_flags a).

(** [attr.kind = k]. *)
Definition set_kind (a : FileAttr) (k : FileType) : FileAttr :=
  mkAttr (a_ino a) (a_size a) (a_blocks a) (a_atime a) (a_mtime a) (a_ctime a) (a_crtime a)
    k (a_perm a) (a_nlink a) (a_uid a) (a_gid a) (a_rdev a) (a_blksize a) (a_flags a).

Definition dir_type (t : option DirType) : FileType :=
  match t with
  | Some TDirectory => Directory
  | Some TSymlink => Symlink
  | Some TFifo => NamedPipe
  | Some TCharacterDevice => CharDevice
  | Some TBlockDevice => BlockDevice
  | Some TSocket => Socket
  | _ => RegularFile
  end.

Definition passthrough_oflag (flags : Z) : Z :=
  let oflag := O_CLOEXEC in
  let mode := Z.land flags O_ACCMODE in
  let oflag := if mode =? O_WRONLY then Z.lor oflag O_WRONLY
               else if mode =? O_RDWR then Z.lor oflag O_RDWR
               else Z.lor oflag O_RDONLY in
  let oflag := if negb (Z.land flags O_APPEND =? 0) then Z.lor oflag O_APPEND else oflag in
  if negb (Z.land flags O_TRUNC =? 0) then Z.lor oflag O_TRUNC else oflag.

(** ** Lemmas *)

Lemma system_time_spec secs nsecs :
  - 2 ^ 63 <= secs <= isize_max →
  system_time secs nsecs = Some (mkTime secs (Z.min (Z.max nsecs 0) 999999999)).
Proof.
  intros Hs. unfold system_time, time_add, time_sub, UNIX_EPOCH, NANOS, in_i64, isize_max, u64_modulus in *.
  cbn [tv_sec tv_nsec]. set (n := Z.min (Z.max nsecs 0) 999999999).
  assert (0 <= n <= 999999999) as Hn by lia.
  destruct (Z.leb_spec 0 secs).
  - rewrite (proj2 (Z.leb_gt 1000000000 (0 + n))) by lia.
    rewrite (proj2 (Z.leb_le (- 2 ^ 63) _)), (proj2 (Z.leb_le _ (2 ^ 63 - 1))) by lia.
    cbn. do 2 f_equal. lia.
  - rewrite Z.mod_small by lia. rewrite (proj2 (Z.ltb_ge (0 - 0) 0)) by lia.
    rewrite (proj2 (Z.leb_le (- 2 ^ 63) _)), (proj2 (Z.leb_le _ (2 ^ 63 - 1))) by lia.
    cbn -[Z.pow Z.leb Z.add Z.sub].
    rewrite (proj2 (Z.leb_gt 1000000000 _)) by lia.
    rewrite (proj2 (Z.leb_le (- 2 ^ 63) _)), (proj2 (Z.leb_le _ (2 ^ 63 - 1))) by lia.
    cbn. do 2 f_equal; lia.
Qed.

Lemma attr_from_stat_Some ino st :
  stat_ok st → ∃ a, attr_from_stat ino st = Some a ∧ a_ino a = ino ∧
    a_size a = as_u64 (st_size st) ∧ a_kind a = file_kind (st_mode st).
Proof. intros []. unfold attr_from_stat. rewrite !system_time_spec by done. eexists. done. Qed.
