(* ===== verification/Overlay.v ===== *)
(** * The overlay filesystem: state and internal operations ([src/fs.rs]:
    [View], [Handle], [Handles], [OverlayFs] and its private methods)

    [St] is everything the operations mutate: the world behind the descriptors,
    the access gate, the inode table and the open handles.  [OverlayFs] holds
    what is fixed at construction.  The session serves one request at a time,
    so the [Mutex]es never contend and taking one is reading or replacing the
    field.  [fuel] bounds the two loops the kernel drives ([read_all],
    [write_all_at]); every theorem says how much is enough. *)

From S2P Require Import Prelude Eff Paths Lexical Access Inodes Redact Os Attr.

(** ** Data *)

Inductive View : Type :=
| VPassthrough
| VRedacted (kind : HandlerKind) (b : bytes)
| VKey (b : bytes)
| VFailed.

Inductive Handle (Fd : Type) : Type :=
| HFile (fd : Fd)
| HRedacted (kind : HandlerKind) (fd : Fd) (served : bytes) (pending : option bytes)
| HKey (served : bytes)
| HFailed.
Arguments HFile {Fd} fd.
Arguments HRedacted {Fd} kind fd served pending.
Arguments HKey {Fd} served.
Arguments HFailed {Fd}.

Record Handles (Fd : Type) : Type := mkHandles { next_fh : Z; fh_map : gmap Z (Handle Fd) }.
Arguments mkHandles {Fd} next_fh fh_map.
Arguments next_fh {Fd} h.
Arguments fh_map {Fd} h.

Definition Handles_new {Fd} : Handles Fd := mkHandles 1 ∅.

(** The fixed fields of [OverlayFs]; the gate, the inode table and the handles
    are in the state. *)
Record OverlayFs (Fd : Type) : Type := mkOverlay {
  root : Fd;
  mount_root : path;
  redact_on : bool;
}.
Arguments mkOverlay {Fd} root mount_root redact_on.
Arguments root {Fd} o.
Arguments mount_root {Fd} o.
Arguments redact_on {Fd} o.

Record St (W Fd G : Type) : Type := mkSt {
  st_world : W;
  st_gate : option G;
  st_inodes : InodeTable;
  st_handles : Handles Fd;
}.
Arguments mkSt {W Fd G} st_world st_gate st_inodes st_handles.
Arguments st_world {W Fd G} s.
Arguments st_gate {W Fd G} s.
Arguments st_inodes {W Fd G} s.
Arguments st_handles {W Fd G} s.

(** [OverlayFs::new]: a fresh table and no handles over the given world and gate. *)
Definition OverlayFs_new {W Fd G} (w : W) (g : option G) : St W Fd G :=
  mkSt w g InodeTable_new Handles_new.

Definition with_world {W Fd G} (w : W) (s : St W Fd G) : St W Fd G :=
  mkSt w (st_gate s) (st_inodes s) (st_handles s).
Definition with_gate {W Fd G} (g : option G) (s : St W Fd G) : St W Fd G :=
  mkSt (st_world s) g (st_inodes s) (st_handles s).
Definition with_inodes {W Fd G} (t : InodeTable) (s : St W Fd G) : St W Fd G :=
  mkSt (st_world s) (st_gate s) t (st_handles s).
Definition with_handles {W Fd G} (h : Handles Fd) (s : St W Fd G) : St W Fd G :=
  mkSt (st_world s) (st_gate s) (st_inodes s) h.

(** ** Operations *)

Section overlay.
Context {W Fd G : Type} `{Os W Fd, DirAccess G, Dotenvy, SerdeYaml}.
Context (fs : OverlayFs Fd) (fuel : nat).

Abbreviation S := (St W Fd G).

(** A system call on the world. *)
Definition sys {A} (call : W → W * A) : M S A := λ s,
  let '(w, a) := call (st_world s) in Done (a, with_world w s).

(** [OwnedFd]: dropping the descriptor closes it. *)
Definition drop_fd (fd : Fd) : M S unit := sys (λ w, (close_fd fd w, tt)).

(** A scope that owns [fd]: it is closed on every way out. *)
Definition owning {A} (fd : Fd) (m : M S A) : M S A :=
  let! r := m in
  let! _ := drop_fd fd in
  ret r.

Definition drop_handle (h : Handle Fd) : M S unit :=
  match h with
  | HFile fd | HRedacted _ fd _ _ => drop_fd fd
  | HKey _ | HFailed => ret tt
  end.

(** [Handles::insert]; [HashMap::insert] drops a value it replaces. *)
Definition handles_insert (h : Handle Fd) : M S Z :=
  let! s := get in
  let id := next_fh (st_handles s) in
  let! _ := modify (with_handles
              (mkHandles (u64_add id 1) (<[id := h]> (fh_map (st_handles s))))) in
  let! _ := match fh_map (st_handles s) !! id with
            | Some old => drop_handle old
            | None => ret tt
            end in
  ret id.

(** [handles.map.get(&fh)] *)
Definition handle_of (fh : Z) : M S (option (Handle Fd)) :=
  let! s := get in ret (fh_map (st_handles s) !! fh).

(** Replacing the handle behind a [get_mut] reference. *)
Definition set_handle (fh : Z) (h : Handle Fd) : M S unit :=
  modify (λ s, with_handles
    (mkHandles (next_fh (st_handles s)) (<[fh := h]> (fh_map (st_handles s)))) s).

Definition gate_allows (rel : path) (access : Access) : M S bool :=
  let! s := get in
  match st_gate s with
  | Some gate =>
      let '(gate', ok) := allow gate (join (mount_root fs) rel) access in
      let! _ := modify (with_gate (Some gate')) in
      ret ok
  | None => ret true
  end.

Definition path_of (ino : Z) : M S (option path) :=
  let! s := get in ret (by_ino (st_inodes s) !! ino).

Definition intern_path (p : path) : M S Z :=
  let! s := get in
  let '(t, ino) := intern (st_inodes s) p in
  let! _ := modify (with_inodes t) in
  ret ino.

Definition open_real (rel : path) (oflag mode : Z) : MR S Fd :=
  sys (openat (root fs) (at_ rel) oflag mode).

Definition stat (rel : path) : MR S FileStat :=
  sys (fstatat (root fs) (at_ rel) AT_SYMLINK_NOFOLLOW).

(** Where a link at [rel] with this target points, lexically. *)
Definition link_resolved (rel target : path) : path :=
  if has_root target then target
  else join (default (mount_root fs) (parent (join (mount_root fs) rel))) target.

Definition symlink_target_within_overlay (rel : path) : M S bool :=
  let! r := sys (readlinkat (root fs) (at_ rel)) in
  match r with
  | Err _ => ret false
  | Ok target =>
      ret (path_starts_with (lexically_normalize (link_resolved rel target)) (mount_root fs))
  end.

(** The [loop] of [read_all]. *)
Fixpoint read_loop (fuel : nat) (fd : Fd) (out : bytes) (offset : Z) : MR S bytes :=
  match fuel with
  | O => out_of_fuel
  | Datatypes.S fuel' =>
      let!? b := sys (pread fd 8192 offset) in
      match b with
      | [] => ret (Ok out)
      | _ => read_loop fuel' fd (out ++ b) (offset + Z.of_nat (length b))
      end
  end.

Definition read_all (fd : Fd) : MR S bytes := read_loop fuel fd [] 0.

(** The [while] of [write_all_at]. *)
Fixpoint write_loop (fuel : nat) (fd : Fd) (data : bytes) (written : Z) : MR S unit :=
  if Z.of_nat (length data) <=? written then ret (Ok tt)
  else
    match fuel with
    | O => out_of_fuel
    | Datatypes.S fuel' =>
        let!? n := sys (pwrite fd (drop (Z.to_nat written) data) written) in
        if n =? 0 then ret (Ok tt) else write_loop fuel' fd data (written + n)
    end.

Definition write_all_at (fd : Fd) (data : bytes) : MR S unit := write_loop fuel fd data 0.

(** The [match redact::detect(..)] of [view_for], once the file is open and its
    first bytes are read. *)
Definition view_of_kind (fd : Fd) (kind : option HandlerKind) : MR S View :=
  match kind with
  | None => ret (Ok VPassthrough)
  | Some ((Env | Npmrc) as kind) =>
      let!? original := read_all fd in
      ret (Ok match redact kind original with
              | Ok b => VRedacted kind b
              | Err _ => VFailed
              end)
  | Some PrivateKey =>
      let!? original := read_all fd in
      ret (Ok match redact_private_key original with
              | Some b => VKey b
              | None => VPassthrough
              end)
  | Some MitmYaml =>
      let!? original := read_all fd in
      ret (Ok match redact_mitm_yaml original with
              | Ok b => VKey b
              | Err _ => VFailed
              end)
  end.

Definition view_for (rel : path) (file_name : bytes) : MR S View :=
  if negb (redact_on fs) then ret (Ok VPassthrough)
  else
    let!? fd := open_real rel (Z.lor O_RDONLY O_CLOEXEC) 0 in
    owning fd
      (let! r := sys (pread fd 1024 0) in
       let prefix := match r with Ok b => b | Err _ => [] end in
       view_of_kind fd (detect file_name prefix)).

(** [attr_from_stat] panics on an unrepresentable time. *)
Definition from_stat (ino : Z) (st : FileStat) : M S FileAttr :=
  match attr_from_stat ino st with Some a => ret a | None => panic end.

(** The length a link shows when its view is not the real file. *)
Definition redacted_len (r : result View Z) : option Z :=
  match r with
  | Ok (VRedacted _ b) | Ok (VKey b) => Some (Z.of_nat (length b))
  | Ok VFailed => Some 0
  | Ok VPassthrough | Err _ => None
  end.

(** [rel.file_name().unwrap_or_default()] *)
Definition name_of (rel : path) : bytes := default [] (file_name rel).

Definition attr_link (ino : Z) (rel : path) (st : FileStat) : MR S FileAttr :=
  let! within := symlink_target_within_overlay rel in
  let! len := (if within then ret None
               else let! v := view_for rel (name_of rel) in ret (redacted_len v)) in
  match len with
  | Some len =>
      let!? target := sys (fstatat (root fs) (at_ rel) 0) in
      let! a := from_stat ino target in
      ret (Ok (set_size (set_kind a RegularFile) len))
  | None => let! a := from_stat ino st in ret (Ok a)
  end.

Definition attr_other (ino : Z) (rel : path) (st : FileStat) : MR S FileAttr :=
  let! a := from_stat ino st in
  if Z.land (st_mode st) S_IFMT =? S_IFREG then
    let!? v := view_for rel (name_of rel) in
    ret (Ok match v with
            | VPassthrough => a
            | VRedacted _ b | VKey b => set_size a (Z.of_nat (length b))
            | VFailed => set_size a 0
            end)
  else ret (Ok a).

Definition attr (ino : Z) (rel : path) : MR S FileAttr :=
  let!? st := stat rel in
  if Z.land (st_mode st) S_IFMT =? S_IFLNK then attr_link ino rel st else attr_other ino rel st.

(** The body of [persist] once the pending buffer has been taken. *)
Definition persist_pending (fh : Z) (kind : HandlerKind) (fd : Fd) (written : bytes)
    : MR S unit :=
  let!? original := read_all fd in
  match merge kind original written with
  | Err _ => ret (Err EIO)
  | Ok merged =>
      match redact kind merged with
      | Err _ => ret (Err EIO)
      | Ok view =>
          let!? _ := sys (ftruncate fd 0) in
          let!? _ := write_all_at fd merged in
          let! _ := set_handle fh (HRedacted kind fd view None) in
          ret (Ok tt)
      end
  end.

Definition persist (fh : Z) : MR S unit :=
  let! h := handle_of fh in
  match h with
  | Some (HRedacted kind fd served (Some written)) =>
      let! _ := set_handle fh (HRedacted kind fd served None) in
      persist_pending fh kind fd written
  | _ => ret (Ok tt)
  end.
End overlay.
