(* ===== verification/Handlers.v ===== *)
(** * The FUSE request handlers of the overlay ([src/fs.rs]:
    [impl Filesystem for OverlayFs])

    Each handler is the whole method: it looks its paths up, consults the gate,
    calls the real filesystem, updates the tables and ends in one reply, here
    its result.  [Err e] is [reply.error(e)]. *)

From S2P Require Import Prelude Eff Paths Lexical Access Inodes Redact Os Attr Overlay.

(** ** Requests and replies *)

Record DirEntry : Type := mkEntry { de_ino : Z; de_offset : Z; de_kind : FileType; de_name : bytes }.

(** [ReplyEntry], [ReplyAttr], [ReplyData], [ReplyOpen], [ReplyCreate],
    [ReplyWrite], [ReplyEmpty], [ReplyDirectory] *)
Inductive Reply : Type :=
| REntry (a : FileAttr)
| RAttr (a : FileAttr)
| RData (b : bytes)
| ROpened (fh : Z)
| RCreated (a : FileAttr) (fh : Z)
| RWritten (n : Z)
| ROk
| RDirectory (es : list DirEntry).

Inductive Request : Type :=
| QLookup (parent : Z) (name : bytes)
| QGetattr (ino : Z)
| QSetattr (ino : Z) (size fh : option Z)
| QReadlink (ino : Z)
| QOpen (ino : Z) (flags : Z)
| QCreate (parent : Z) (name : bytes) (mode umask flags : Z)
| QRead (fh offset size : Z)
| QWrite (fh offset : Z) (data : bytes)
| QFlush (fh : Z)
| QFsync (fh : Z)
| QRelease (fh : Z)
| QReaddir (ino offset : Z)
| QMkdir (parent : Z) (name : bytes) (mode umask : Z)
| QUnlink (parent : Z) (name : bytes)
| QRmdir (parent : Z) (name : bytes)
| QRename (parent : Z) (name : bytes) (newparent : Z) (newname : bytes)
| QSymlink (parent : Z) (link_name target : bytes)
| QLink (ino newparent : Z) (newname : bytes).

(** ** Buffers *)

(** [Vec::resize(n, 0)]: a length above [isize::MAX] panics. *)
Definition vec_resize {S} (n : Z) (v : bytes) : M S bytes :=
  if n <=? isize_max then ret (resize_zero (Z.to_nat n) v) else panic.

(** [&bytes[start..end]] with the clamped bounds of [read]. *)
Definition read_slice (b : bytes) (offset size : Z) : bytes :=
  let len := Z.of_nat (length b) in
  let start := Z.min offset len in
  let end_ := Z.min (Z.min (start + size) (u64_modulus - 1)) len in
  slice (Z.to_nat start) (Z.to_nat end_) b.

(** The [Redacted] arm of [write] on the pending buffer.  The addition of
    [usize]s overflows into a panic (checked arithmetic, or an inverted slice
    range), as does a length no [Vec] can have. *)
Definition write_buffer {S} (buf : bytes) (offset : Z) (data : bytes) : M S bytes :=
  let end_ := offset + Z.of_nat (length data) in
  if u64_modulus <=? end_ then panic
  else
    let! buf := (if Z.of_nat (length buf) <? end_ then vec_resize end_ buf else ret buf) in
    ret (take (Z.to_nat offset) buf ++ data ++ drop (Z.to_nat end_) buf).

(** ** Handlers *)

Section handlers.
Context {W Fd G : Type} `{Os W Fd, DirAccess G, Dotenvy, SerdeYaml}.
Context (fs : OverlayFs Fd) (fuel : nat).
(** [ReplyDirectory::add] of [fuser]: whether an entry no longer fits after
    the ones already added. *)
Context (dir_full : list DirEntry → DirEntry → bool).

Abbreviation ST := (St W Fd G).

(** [let Some(p) = self.path_of(ino) else { reply.error(ENOENT); return; }] *)
Definition with_path {A} (ino : Z) (k : path → MR ST A) : MR ST A :=
  let! p := path_of ino in
  match p with Some p => k p | None => ret (Err ENOENT) end.

(** [self.intern(rel); match self.attr(ino, &rel) { .. reply.entry(..) }] *)
Definition entry_reply (rel : path) : MR ST Reply :=
  let! ino := intern_path rel in
  let!? a := attr fs fuel ino rel in
  ret (Ok (REntry a)).

Definition lookup_ (parent : Z) (name : bytes) : MR ST Reply :=
  with_path parent (λ parent_path,
    let rel := join parent_path name in
    let!? _ := stat fs rel in
    entry_reply rel).

Definition getattr (ino : Z) : MR ST Reply :=
  with_path ino (λ rel,
    let!? a := attr fs fuel ino rel in
    ret (Ok (RAttr a))).

(** The truncation of a file by path, outside an open redacted handle. *)
Definition truncate_path (rel : path) (sz : Z) : MR ST unit :=
  let!? v := view_for fs fuel rel (name_of rel) in
  match v with
  | VPassthrough =>
      let!? fd := open_real fs rel (Z.lor O_WRONLY O_CLOEXEC) 0 in
      owning fd (sys (ftruncate fd (as_i64 sz)))
  | VRedacted _ _ => ret (Ok tt)
  | VKey _ => ret (Err EROFS)
  | VFailed => ret (Err EIO)
  end.

Definition setattr (ino : Z) (size fh : option Z) : MR ST Reply :=
  with_path ino (λ rel,
    let! h := match size, fh with
              | Some _, Some fh => handle_of fh
              | _, _ => ret None
              end in
    match size, fh, h with
    | Some sz, Some fh, Some (HRedacted kind fd served pending) =>
        let! buf := vec_resize sz (default served pending) in
        let! _ := set_handle fh (HRedacted kind fd served (Some buf)) in
        let!? st := stat fs rel in
        let! a := from_stat ino st in
        ret (Ok (RAttr (set_size a sz)))
    | _, _, _ =>
        let!? _ := match size with
                   | Some sz => truncate_path rel sz
                   | None => ret (Ok tt)
                   end in
        let!? a := attr fs fuel ino rel in
        ret (Ok (RAttr a))
    end).

Definition readlink (ino : Z) : MR ST Reply :=
  with_path ino (λ rel,
    let!? target := sys (readlinkat (root fs) (at_ rel)) in
    ret (Ok (RData target))).

(** The access an open is gated on. *)
Definition open_access (flags : Z) : Access :=
  if negb (Z.land flags (Z.lor O_WRONLY O_RDWR) =? 0) then Write else Read.

(** The [match view] of [open]. *)
Definition open_handle (rel : path) (flags : Z) (view : View) : MR ST (Handle Fd) :=
  match view with
  | VPassthrough =>
      let!? fd := open_real fs rel (passthrough_oflag flags) 0 in
      ret (Ok (HFile fd))
  | VRedacted kind served =>
      let!? fd := open_real fs rel (Z.lor O_RDWR O_CLOEXEC) 0 in
      let truncate := negb (Z.land flags O_TRUNC =? 0) in
      ret (Ok (HRedacted kind fd served (if truncate then Some [] else None)))
  | VKey served => ret (Ok (HKey served))
  | VFailed => ret (Ok HFailed)
  end.

Definition open (ino : Z) (flags : Z) : MR ST Reply :=
  with_path ino (λ rel,
    let! ok := gate_allows fs rel (open_access flags) in
    if negb ok then ret (Err EACCES)
    else
      let!? view := view_for fs fuel rel (name_of rel) in
      let!? handle := open_handle rel flags view in
      let! fh := handles_insert handle in
      ret (Ok (ROpened fh))).

(** [Mode::from_bits_truncate((mode & !umask) & 0o7777)] *)
Definition create_perm (mode umask : Z) : Z := Z.land (Z.land mode (Z.lnot umask)) 4095.

(** The by-name handler of a freshly created file. *)
Definition create_kind (name : bytes) : option HandlerKind :=
  if redact_on fs then
    if is_env_file name then Some Env
    else if is_npmrc_file name then Some Npmrc
    else None
  else None.

Definition create (parent : Z) (name : bytes) (mode umask flags : Z) : MR ST Reply :=
  with_path parent (λ parent_path,
    let rel := join parent_path name in
    let! ok := gate_allows fs rel Create in
    if negb ok then ret (Err EACCES)
    else
      let oflag := Z.lor (Z.lor O_CREAT O_RDWR) O_CLOEXEC in
      let oflag := if negb (Z.land flags O_TRUNC =? 0) then Z.lor oflag O_TRUNC else oflag in
      let!? fd := open_real fs rel oflag (create_perm mode umask) in
      let! ino := intern_path rel in
      let handle := match create_kind name with
                    | Some kind => HRedacted kind fd [] (Some [])
                    | None => HFile fd
                    end in
      let! fh := handles_insert handle in
      let!? a := attr fs fuel ino rel in
      ret (Ok (RCreated a fh))).

Definition read (fh offset size : Z) : MR ST Reply :=
  let! h := handle_of fh in
  match h with
  | Some (HFile fd) =>
      let!? b := sys (pread fd size (as_i64 offset)) in
      ret (Ok (RData b))
  | Some (HRedacted _ _ served pending) =>
      ret (Ok (RData (read_slice (default served pending) offset size)))
  | Some (HKey served) => ret (Ok (RData (read_slice served offset size)))
  | Some HFailed => ret (Err EIO)
  | None => ret (Err EBADF)
  end.

Definition write (fh offset : Z) (data : bytes) : MR ST Reply :=
  let! h := handle_of fh in
  match h with
  | Some (HFile fd) =>
      let!? n := sys (pwrite fd data (as_i64 offset)) in
      ret (Ok (RWritten (as_u32 n)))
  | Some (HRedacted kind fd served pending) =>
      let! buf := write_buffer (default served pending) offset data in
      let! _ := set_handle fh (HRedacted kind fd served (Some buf)) in
      ret (Ok (RWritten (as_u32 (Z.of_nat (length data)))))
  | Some (HKey _) => ret (Err EROFS)
  | Some HFailed => ret (Err EIO)
  | None => ret (Err EBADF)
  end.

Definition flush (fh : Z) : MR ST Reply :=
  let!? _ := persist fuel fh in ret (Ok ROk).

Definition fsync (fh : Z) : MR ST Reply :=
  let!? _ := persist fuel fh in ret (Ok ROk).

(** [handles.map.remove(&fh)]: the handle is dropped. *)
Definition handles_remove (fh : Z) : M ST unit :=
  let! h := handle_of fh in
  let! _ := modify (λ s, with_handles
              (mkHandles (next_fh (st_handles s)) (delete fh (fh_map (st_handles s)))) s) in
  match h with Some h => drop_handle h | None => ret tt end.

Definition release (fh : Z) : MR ST Reply :=
  let! result := persist fuel fh in
  let! _ := handles_remove fh in
  match result with Ok _ => ret (Ok ROk) | Err e => ret (Err e) end.

(** The loop of [readdir] that interns the children of a directory. *)
Fixpoint collect_entries (dir_rel : path) (items : list (result (bytes * option DirType) Z))
    : M ST (list (Z * FileType * bytes)) :=
  match items with
  | [] => ret []
  | Err _ :: items' => collect_entries dir_rel items'
  | Ok (raw, t) :: items' =>
      if bool_decide (raw = [DOT]) || bool_decide (raw = [DOT; DOT])
      then collect_entries dir_rel items'
      else
        let! child_ino := intern_path (join dir_rel raw) in
        let! es := collect_entries dir_rel items' in
        ret ((child_ino, dir_type t, raw) :: es)
  end.

(** The loop that fills the reply, from entry number [i] on, until it is full. *)
Fixpoint fill_reply (acc : list DirEntry) (i : nat) (es : list (Z * FileType * bytes))
    : list DirEntry :=
  match es with
  | [] => acc
  | (ino, kind, name) :: es' =>
      let e := mkEntry ino (Z.of_nat (i + 1)) kind name in
      if dir_full acc e then acc else fill_reply (acc ++ [e]) (i + 1) es'
  end.

(** [entries.iter().enumerate().skip(offset)] *)
Definition page (es : list (Z * FileType * bytes)) (offset : Z) : list DirEntry :=
  fill_reply [] (Z.to_nat offset) (drop (Z.to_nat offset) es).

Definition readdir (ino offset : Z) : MR ST Reply :=
  with_path ino (λ dir_rel,
    let!? items := sys (read_dir (root fs) (at_ dir_rel)
                          (Z.lor (Z.lor O_RDONLY O_DIRECTORY) O_CLOEXEC)) in
    let! children := collect_entries dir_rel items in
    let entries := (ino, Directory, [DOT]) :: (ino, Directory, [DOT; DOT]) :: children in
    ret (Ok (RDirectory (page entries offset)))).

Definition mkdir (parent : Z) (name : bytes) (mode umask : Z) : MR ST Reply :=
  with_path parent (λ parent_path,
    let rel := join parent_path name in
    let!? _ := sys (mkdirat (root fs) (at_ rel) (create_perm mode umask)) in
    entry_reply rel).

(** [unlink] and [rmdir] differ in the flag. *)
Definition remove_entry (how : UnlinkatFlags) (parent : Z) (name : bytes) : MR ST Reply :=
  with_path parent (λ parent_path,
    let rel := join parent_path name in
    let!? _ := sys (unlinkat (root fs) (at_ rel) how) in
    let! _ := modify (λ s, with_inodes (forget_path (st_inodes s) rel) s) in
    ret (Ok ROk)).

Definition unlink (parent : Z) (name : bytes) : MR ST Reply := remove_entry NoRemoveDir parent name.
Definition rmdir (parent : Z) (name : bytes) : MR ST Reply := remove_entry RemoveDir parent name.

Definition rename (parent : Z) (name : bytes) (newparent : Z) (newname : bytes) : MR ST Reply :=
  with_path parent (λ parent_path,
  with_path newparent (λ newparent_path,
    let from := join parent_path name in
    let to := join newparent_path newname in
    let!? _ := sys (renameat (root fs) (at_ from) (root fs) (at_ to)) in
    let! _ := modify (λ s, with_inodes (rename_path (st_inodes s) from to) s) in
    ret (Ok ROk))).

Definition symlink (parent : Z) (link_name target : bytes) : MR ST Reply :=
  with_path parent (λ parent_path,
    let rel := join parent_path link_name in
    let!? _ := sys (symlinkat target (root fs) (at_ rel)) in
    entry_reply rel).

Definition link (ino newparent : Z) (newname : bytes) : MR ST Reply :=
  with_path ino (λ old_rel,
  with_path newparent (λ newparent_path,
    let new_rel := join newparent_path newname in
    let!? _ := sys (linkat (root fs) (at_ old_rel) (root fs) (at_ new_rel) 0) in
    entry_reply new_rel)).

(** One request of the session. *)
Definition dispatch (q : Request) : MR ST Reply :=
  match q with
  | QLookup parent name => lookup_ parent name
  | QGetattr ino => getattr ino
  | QSetattr ino size fh => setattr ino size fh
  | QReadlink ino => readlink ino
  | QOpen ino flags => open ino flags
  | QCreate parent name mode umask flags => create parent name mode umask flags
  | QRead fh offset size => read fh offset size
  | QWrite fh offset data => write fh offset data
  | QFlush fh => flush fh
  | QFsync fh => fsync fh
  | QRelease fh => release fh
  | QReaddir ino offset => readdir ino offset
  | QMkdir parent name mode umask => mkdir parent name mode umask
  | QUnlink parent name => unlink parent name
  | QRmdir parent name => rmdir parent name
  | QRename parent name newparent newname => rename parent name newparent newname
  | QSymlink parent link_name target => symlink parent link_name target
  | QLink ino newparent newname => link ino newparent newname
  end.

(** ** The session

    Between requests the rest of the system acts: other processes change the
    world, other overlays consult the shared gate. *)
Inductive step : ST → ST → Prop :=
| step_request q s r s' : dispatch q s = Done (r, s') → step s s'
| step_host w s : step s (with_world w s)
| step_gate g s : step s (with_gate g s).

Inductive reachable (w : W) (g : option G) : ST → Prop :=
| reach_init : reachable w g (OverlayFs_new w g)
| reach_step s s' : reachable w g s → step s s' → reachable w g s'.
End handlers.
