(* ===== verification/Fds.v ===== *)
(** * Sessions of requests, and the descriptors their handles own *)

From S2P Require Import Prelude Eff Paths Lexical Access Inodes Redact Os Attr Overlay Handlers.

(** The descriptor a handle owns. *)
Definition owned {Fd} (h : Handle Fd) : option Fd :=
  match h with HFile fd | HRedacted _ fd _ _ => Some fd | HKey _ | HFailed => None end.

Section replies.
Context {W Fd G : Type} `{Os W Fd, DirAccess G, Dotenvy, SerdeYaml}.
Context (fs : OverlayFs Fd) (fuel : nat) (dir_full : list DirEntry → DirEntry → bool).

(** A whole session: the replies, in order. *)
Fixpoint replies (qs : list Request) : M (St W Fd G) (list (result Reply Z)) :=
  match qs with
  | [] => ret []
  | q :: qs' =>
      let! r := dispatch fs fuel dir_full q in
      let! rs := replies qs' in
      ret (r :: rs)
  end.
End replies.

Section fds.
Context {W Fd : Type} `{OsSpec W Fd}.
Context (fs : OverlayFs Fd).

(** Every owned descriptor is open, is not the root's, and has one owner. *)
Record fds_ok (w : W) (m : gmap Z (Handle Fd)) : Prop := {
  fds_open fh h fd : m !! fh = Some h → owned h = Some fd → fd ≠ root fs ∧ is_Some (fd_file w fd);
  fds_distinct fh fh' h h' fd :
    m !! fh = Some h → m !! fh' = Some h' → owned h = Some fd → owned h' = Some fd → fh = fh';
}.

(** No handle of the table owns the descriptor. *)
Definition unowned (m : gmap Z (Handle Fd)) (fd : Fd) : Prop :=
  ∀ fh h, m !! fh = Some h → owned h ≠ Some fd.

(** A handle that may enter the table: its descriptor is open and new to it. *)
Definition may_enter (w : W) (m : gmap Z (Handle Fd)) (h : Handle Fd) : Prop :=
  ∀ fd, owned h = Some fd → fd ≠ root fs ∧ is_Some (fd_file w fd) ∧ unowned m fd.

Lemma fds_ok_empty w : fds_ok w ∅.
Proof. by split. Qed.

Lemma fds_ok_world w w' m :
  (∀ fd f, fd_file w fd = Some f → fd_file w' fd = Some f) → fds_ok w m → fds_ok w' m.
Proof.
  intros Hw [Ho Hd]. split; [|done]. intros fh h fd Hm Hfd. destruct (Ho fh h fd Hm Hfd) as [? [f Hf]].
  split; [done|]. exists f. auto.
Qed.

(** A descriptor that was not open before has no owner. *)
Lemma fresh_unowned w m fd : fds_ok w m → fd_file w fd = None → unowned m fd.
Proof.
  intros Hok Hn fh h Hm Ho. destruct (fds_open _ _ Hok fh h fd Hm Ho) as [_ [f Hf]]. congruence.
Qed.

Lemma fds_ok_insert w m id h : fds_ok w m → may_enter w m h → fds_ok w (<[id := h]> m).
Proof.
  intros [Hop Hdi] Hh. split.
  - intros fh h' fd Hm Ho. apply lookup_insert_Some in Hm as [[-> ->]|[_ Hm]]; [|by eapply Hop].
    by destruct (Hh fd Ho) as (? & ? & _).
  - intros fh fh' h1 h2 fd Hm Hm' Ho Ho'.
    apply lookup_insert_Some in Hm as [[-> ->]|[? Hm]];
      apply lookup_insert_Some in Hm' as [[-> ->]|[? Hm']]; [done| | |by eapply Hdi].
    + destruct (Hh fd Ho) as (_ & _ & Hn). by destruct (Hn _ _ Hm').
    + destruct (Hh fd Ho') as (_ & _ & Hn). by destruct (Hn _ _ Hm).
Qed.

(** Replacing a handle by one on the same descriptor. *)
Lemma fds_ok_update w m fh h h' :
  fds_ok w m → m !! fh = Some h → owned h' = owned h → fds_ok w (<[fh := h']> m).
Proof.
  intros [Hop Hdi] Hh He.
  assert (∀ fh1 h1, <[fh := h']> m !! fh1 = Some h1 → ∃ h2, m !! fh1 = Some h2 ∧ owned h2 = owned h1) as Hm.
  { intros fh1 h1 [[-> ->]|[_ ?]]%lookup_insert_Some; [by exists h|by exists h1]. }
  split.
  - intros fh1 h1 fd [h2 [Hm2 <-]]%Hm. by eapply Hop.
  - intros fh1 fh2 h1 h2 fd [h3 [Hm3 <-]]%Hm [h4 [Hm4 <-]]%Hm. by eapply Hdi.
Qed.

Lemma fds_ok_delete w m fh : fds_ok w m → fds_ok w (delete fh m).
Proof.
  intros [Hop Hdi]. split.
  - intros fh' h fd [_ Hm]%lookup_delete_Some. by eapply Hop.
  - intros fh1 fh2 h1 h2 fd [_ Hm1]%lookup_delete_Some [_ Hm2]%lookup_delete_Some. by eapply Hdi.
Qed.

(** Once out of the table, a handle's descriptor has no owner left. *)
Lemma deleted_unowned w m fh h fd :
  fds_ok w m → m !! fh = Some h → owned h = Some fd → fd ≠ root fs ∧ unowned (delete fh m) fd.
Proof.
  intros [Hop Hdi] Hm Ho. split; [by eapply Hop|]. intros fh' h' [Hne Hm']%lookup_delete_Some Ho'.
  by apply Hne, (Hdi fh fh' h h' fd).
Qed.

Lemma replaced_unowned w m fh h old fd :
  fds_ok w m → may_enter w m h → m !! fh = Some old → owned old = Some fd →
  fd ≠ root fs ∧ unowned (<[fh := h]> m) fd.
Proof.
  intros [Hop Hdi] Hh Hm Ho. split; [by eapply Hop|].
  intros fh' h' [[-> ->]|[Hne Hm']]%lookup_insert_Some Ho'.
  - destruct (Hh fd Ho') as (_ & _ & Hn). by destruct (Hn _ _ Hm).
  - by apply Hne, (Hdi fh fh' old h' fd).
Qed.

(** Closing a descriptor without owner. *)
Lemma fds_ok_close w m fd : fds_ok w m → unowned m fd → fds_ok (close_fd fd w) m.
Proof.
  intros [Hop Hdi] Hn. split; [|done]. intros fh h fd' Hm Ho.
  destruct (Hop fh h fd' Hm Ho) as [? [f Hf]]. split; [done|]. exists f.
  apply close_keeps_file; [|done]. intros ->. by eapply Hn.
Qed.

(** ** The books of a session

    [books base extra w m]: the descriptors open in [w] are those of [base], open
    before the session, one for each handle of [m] that owns one, and [extra],
    which the operation under way holds.  No descriptor leaks. *)
Record books (base : Fd → Prop) (extra : option Fd) (w : W) (m : gmap Z (Handle Fd)) : Prop := {
  books_ok : fds_ok w m;
  books_base fd : base fd → is_Some (fd_file w fd) ∧ unowned m fd ∧ extra ≠ Some fd;
  books_extra fd : extra = Some fd → fd ≠ root fs ∧ is_Some (fd_file w fd) ∧ unowned m fd;
  books_all fd :
    is_Some (fd_file w fd) →
    base fd ∨ extra = Some fd ∨ ∃ fh h, m !! fh = Some h ∧ owned h = Some fd;
}.

Lemma books_empty w : books (λ fd, is_Some (fd_file w fd)) None w ∅.
Proof. split; [apply fds_ok_empty|done|done|by left]. Qed.

Lemma books_world base extra w w' m :
  (∀ fd, fd_open w' fd = fd_open w fd) → books base extra w m → books base extra w' m.
Proof.
  intros Ho. assert (∀ fd, fd_file w' fd = fd_file w fd) as Hw by (intros fd; unfold fd_file; by rewrite Ho).
  intros [Hok Hb He Ha]. split; [|intros fd; rewrite Hw; auto..].
  apply (fds_ok_world w); [|done]. intros fd f. by rewrite Hw.
Qed.

(** A new descriptor is held by the operation that opened it. *)
Lemma books_open base w w' m fd :
  books base None w m → fd ≠ root fs → fd_file w fd = None → is_Some (fd_file w' fd) →
  (∀ fd' o, fd_open w fd' = Some o → fd_open w' fd' = Some o) →
  (∀ fd', is_Some (fd_file w' fd') → fd' = fd ∨ is_Some (fd_file w fd')) →
  books base (Some fd) w' m.
Proof.
  intros [Hok Hb _ Ha] Hr Hn Ho Hopen Hnew.
  assert (∀ fd' f, fd_file w fd' = Some f → fd_file w' fd' = Some f) as Hw
    by (intros fd' f; apply fd_file_kept, Hopen).
  assert (unowned m fd) as Hu by by apply (fresh_unowned w). split.
  - by apply (fds_ok_world w).
  - intros fd' Hf. destruct (Hb fd' Hf) as ([f Hi] & ? & _).
    split_and!; [exists f; by apply Hw|done|]. intros [= ->]. congruence.
  - by intros fd' [= <-].
  - intros fd' [->|Hi]%Hnew; [auto|]. destruct (Ha fd' Hi) as [?|[?|?]]; [auto|done|auto].
Qed.

(** The held descriptor is closed. *)
Lemma books_close base w m fd :
  (∀ fd', is_Some (fd_file (close_fd fd w) fd') → fd' ≠ fd ∧ is_Some (fd_file w fd')) →
  books base (Some fd) w m → books base None (close_fd fd w) m.
Proof.
  intros Hcl [Hok Hb He Ha]. destruct (He fd eq_refl) as (_ & _ & Hu). split; [by apply fds_ok_close| |done|].
  - intros fd' Hf. destruct (Hb fd' Hf) as ([f Hi] & ? & ?). split_and!; [|done|done].
    exists f. apply close_keeps_file; [congruence|done].
  - intros fd' Hi. destruct (Hcl fd' Hi) as [Hne Hi']. destruct (Ha fd' Hi') as [?|[?|?]]; [auto|congruence|auto].
Qed.

(** A handle enters the table with the descriptor held; the one it replaces, if
    any, leaves its own to be closed. *)
Lemma books_insert base w m id h :
  books base (owned h) w m → books base (m !! id ≫= owned) w (<[id := h]> m).
Proof.
  intros [Hok Hb He Ha].
  assert (may_enter w m h) as Hh by (intros fd Ho; by apply He).
  split; [by apply fds_ok_insert| | |].
  - intros fd Hf. destruct (Hb fd Hf) as (? & Hu & ?). split_and!; [done| |].
    + intros fh h' [[-> ->]|[_ Hm]]%lookup_insert_Some; [done|by eapply Hu].
    + destruct (m !! id) as [old|] eqn:E; [by eapply Hu|done].
  - intros fd Hx. destruct (m !! id) as [old|] eqn:E; [|done]. cbn in Hx.
    destruct (replaced_unowned w m id h old fd Hok Hh E Hx) as [? ?]. split_and!; [done| |done].
    by eapply (fds_open _ _ Hok id old).
  - intros fd Hi. destruct (Ha fd Hi) as [?|[?|(fh & h' & Hm & Ho)]]; [auto| |].
    + right; right. exists id, h. by rewrite lookup_insert_eq.
    + destruct (decide (fh = id)) as [->|Hne]; [right; left; by rewrite Hm|].
      right; right. exists fh, h'. by rewrite lookup_insert_ne.
Qed.

Lemma books_delete base w m fh :
  books base None w m → books base (m !! fh ≫= owned) w (delete fh m).
Proof.
  intros [Hok Hb _ Ha]. split; [by apply fds_ok_delete| | |].
  - intros fd Hf. destruct (Hb fd Hf) as (? & Hu & _). split_and!; [done| |].
    + intros fh' h [_ Hm]%lookup_delete_Some. by eapply Hu.
    + destruct (m !! fh) as [old|] eqn:E; [by eapply Hu|done].
  - intros fd Hx. destruct (m !! fh) as [old|] eqn:E; [|done]. cbn in Hx.
    destruct (deleted_unowned w m fh old fd Hok E Hx) as [? ?]. split_and!; [done| |done].
    by eapply (fds_open _ _ Hok fh old).
  - intros fd Hi. destruct (Ha fd Hi) as [?|[?|(fh' & h & Hm & Ho)]]; [auto|done|].
    destruct (decide (fh' = fh)) as [->|Hne]; [right; left; by rewrite Hm|].
    right; right. exists fh', h. by rewrite lookup_delete_ne.
Qed.

(** Replacing a handle by one on the same descriptor. *)
Lemma books_update base w m fh h h' :
  books base None w m → m !! fh = Some h → owned h' = owned h → books base None w (<[fh := h']> m).
Proof.
  intros [Hok Hb _ Ha] Hm He. split; [by eapply fds_ok_update| |done|].
  - intros fd Hf. destruct (Hb fd Hf) as (? & Hu & _). split_and!; [done| |done].
    intros fh1 h1 [[-> ->]|[_ Hm1]]%lookup_insert_Some; [rewrite He|]; by eapply Hu.
  - intros fd Hi. destruct (Ha fd Hi) as [?|[?|(fh1 & h1 & Hm1 & Ho)]]; [auto|done|]. right; right.
    destruct (decide (fh1 = fh)) as [->|Hne].
    + exists fh, h'. rewrite lookup_insert_eq. split; [done|]. rewrite He. congruence.
    + exists fh1, h1. by rewrite lookup_insert_ne.
Qed.
End fds.
