(* ===== verification/OverlayInv.v ===== *)
(** * What the overlay's handles can hold

    The handle invariant: an open handle serves an output of a redaction handler,
    or the file itself, and then only where the predicate [raw] allows it; the
    theorem on sessions takes [raw] to be where the overlay decided that the file
    is not a secret.  The invariant holds over any kernel, any gate, any parser and
    any interference between requests. *)

From S2P Require Import Prelude Eff Paths Lexical Access Inodes Redact Os Attr Overlay Handlers.

Section inv.
Context {W Fd G : Type} `{Os W Fd, DirAccess G, Dotenvy, SerdeYaml}.
Context (fs : OverlayFs Fd) (fuel : nat) (dir_full : list DirEntry → DirEntry → bool).

Abbreviation ST := (St W Fd G).

(** ** Specification *)

(** The bytes a mergeable secret of this kind may be served as. *)
Definition redacted_bytes (kind : HandlerKind) (b : bytes) : Prop :=
  (kind = Env ∨ kind = Npmrc) ∧ (b = [] ∨ ∃ original, redact kind original = Ok b).

(** The bytes a read-only secret may be served as. *)
Definition key_bytes (b : bytes) : Prop :=
  (∃ original, redact_private_key original = Some b) ∨
  (∃ original, redact_mitm_yaml original = Ok b).

(** A handle that serves a redacted view or nothing. *)
Definition redacted_handle (h : Handle Fd) : Prop :=
  match h with
  | HFile _ => False
  | HRedacted kind _ served _ => redacted_bytes kind served
  | HKey served => key_bytes served
  | HFailed => True
  end.

(** Which handle may be open on the file of which descriptor. *)
Context (raw : Z → Fd → Prop).

Definition handle_ok (fh : Z) (h : Handle Fd) : Prop :=
  match h with HFile fd => raw fh fd | _ => redacted_handle h end.

Definition handles_ok (s : ST) : Prop := map_Forall handle_ok (fh_map (st_handles s)).

Definition view_ok (v : View) : Prop :=
  match v with
  | VPassthrough | VFailed => True
  | VRedacted kind b => redacted_bytes kind b
  | VKey b => key_bytes b
  end.

(** The observations a pure system call leaves alone. *)
Definition tables (s : ST) : option G * InodeTable * Handles Fd :=
  (st_gate s, st_inodes s, st_handles s).

(** ** Frames *)

Lemma keeps_sys {A} (call : W → W * A) : keeps tables (sys call).
Proof. intros s a s'. unfold sys. by destruct (call (st_world s)) as [w b]; intros [= <- <-]. Qed.

Lemma keeps_get {T} (obs : ST → T) : keeps obs get.
Proof. by intros s a s' [= <- <-]. Qed.

#[local] Hint Resolve keeps_sys keeps_get : airgap.

Lemma keeps_owning {A} fd (m : M ST A) : keeps tables m → keeps tables (owning fd m).
Proof. intros Hm. unfold owning, drop_fd. eauto 10 with airgap. Qed.

Lemma keeps_read_loop n fd out off : keeps tables (read_loop n fd out off).
Proof.
  revert out off. induction n as [|n IH]; intros out off; simpl; [eauto with airgap|].
  apply keeps_try; [eauto with airgap|]. intros [|x b]; eauto with airgap.
Qed.

Lemma keeps_write_loop n fd data k : keeps tables (write_loop n fd data k).
Proof.
  revert k. induction n as [|n IH]; intros k; simpl; destruct (_ <=? k); eauto with airgap.
  apply keeps_try; [eauto with airgap|]. intros m. destruct (m =? 0); eauto with airgap.
Qed.

Lemma keeps_view_of_kind fd k : keeps tables (view_of_kind fuel fd k).
Proof.
  destruct k as [[]|]; simpl; [..|eauto with airgap];
    (apply keeps_try; [apply keeps_read_loop|eauto with airgap]).
Qed.

Lemma keeps_view_for rel name : keeps tables (view_for fs fuel rel name).
Proof.
  unfold view_for. destruct (negb (redact_on fs)); [eauto with airgap|].
  apply keeps_try; [unfold open_real; eauto with airgap|]. intros fd. apply keeps_owning.
  apply keeps_bind; [eauto with airgap|]. intros r. apply keeps_view_of_kind.
Qed.

Lemma keeps_from_stat ino st : keeps tables (from_stat ino st).
Proof. unfold from_stat. destruct (attr_from_stat ino st); eauto with airgap. Qed.

Lemma keeps_stat rel : keeps tables (stat fs rel).
Proof. apply keeps_sys. Qed.

#[local] Hint Resolve keeps_view_for keeps_from_stat keeps_stat keeps_owning : airgap.

Lemma keeps_within rel : keeps tables (symlink_target_within_overlay fs rel).
Proof. apply keeps_bind; [eauto with airgap|]. intros []; eauto with airgap. Qed.

Lemma keeps_attr ino rel : keeps tables (attr fs fuel ino rel).
Proof.
  apply keeps_try; [eauto with airgap|]. intros st. destruct (_ =? S_IFLNK).
  - apply keeps_bind; [apply keeps_within|]. intros within.
    apply keeps_bind; [destruct within; eauto with airgap|]. intros [len|]; eauto 10 with airgap.
  - apply keeps_bind; [eauto with airgap|]. intros a. destruct (_ =? S_IFREG); eauto with airgap.
Qed.

Lemma keeps_truncate_path rel sz : keeps tables (truncate_path fs fuel rel sz).
Proof.
  apply keeps_try; [eauto with airgap|]. intros []; eauto with airgap.
Qed.

(** ** The invariant through the operations that do change the tables *)

Abbreviation inv := (λ _ s', handles_ok s') (only parsing).

(** A computation that leaves the tables alone keeps the invariant. *)
Lemma keeps_ok {A} (m : M ST A) (Q : A → ST → Prop) s :
  keeps tables m → handles_ok s →
  (∀ a s', handles_ok s' → Q a s') → wp True True m Q s.
Proof.
  intros Hm Hs HQ. eapply wp_mono; [by apply (keeps_wp tables)|]. intros a s' [= _ _ Hh].
  apply HQ. unfold handles_ok. by rewrite Hh.
Qed.

Definition preserves {A} (m : M ST A) : Prop :=
  ∀ s, handles_ok s → wp True True m inv s.

Lemma preserves_keeps {A} (m : M ST A) : keeps tables m → preserves m.
Proof. intros Hm s Hs. by eapply keeps_ok. Qed.

Lemma preserves_bind {A B} (m : M ST A) (k : A → M ST B) :
  preserves m → (∀ a, preserves (k a)) → preserves (bind m k).
Proof.
  intros Hm Hk s Hs. apply wp_bind. eapply wp_mono; [by apply Hm|]. intros a s' Hs'. by apply Hk.
Qed.

Lemma preserves_try {A B} (m : MR ST A) (k : A → MR ST B) :
  preserves m → (∀ a, preserves (k a)) → preserves (try_bind m k).
Proof. intros Hm Hk. apply preserves_bind; [done|]. intros [a|e]; [apply Hk|by intros s Hs]. Qed.

Lemma preserves_ret {A} (a : A) : preserves (ret a).
Proof. by intros s Hs. Qed.

Lemma preserves_modify f :
  (∀ s, handles_ok s → handles_ok (f s)) → preserves (modify f).
Proof. intros Hf s Hs. by apply Hf. Qed.

Lemma preserves_set_handle fh h : handle_ok fh h → preserves (set_handle fh h).
Proof. intros Hh. apply preserves_modify. intros s Hs. by apply map_Forall_insert_2. Qed.

Lemma preserves_drop_handle h : preserves (drop_handle h).
Proof. apply preserves_keeps. destruct h; simpl; unfold drop_fd; eauto with airgap. Qed.

#[local] Hint Resolve preserves_ret preserves_keeps preserves_bind preserves_try
  preserves_set_handle preserves_drop_handle : airgap.

(** Starting from [get], the continuation may assume the invariant of what it
    reads. *)
Lemma preserves_get {B} (k : ST → M ST B) :
  (∀ s, handles_ok s → wp True True (k s) inv s) → preserves (bind get k).
Proof. intros Hk s Hs. apply wp_bind. by apply Hk. Qed.

(** A new handle must be one its number may have. *)
Lemma wp_insert_ok h s :
  handles_ok s → handle_ok (next_fh (st_handles s)) h → wp True True (handles_insert h) inv s.
Proof.
  intros Hs Hh. unfold handles_insert. apply wp_bind, wp_bind. unfold modify, wp at 1.
  assert (preserves (match fh_map (st_handles s) !! next_fh (st_handles s) with
                     | Some old => drop_handle old | None => @ret ST unit tt end)) as Hd
    by (destruct (_ !! _); eauto with airgap).
  eapply (preserves_bind _ _ Hd); [eauto with airgap|]. by apply map_Forall_insert_2.
Qed.

(** Looking a handle up yields one that satisfies the invariant. *)
Lemma preserves_handle_of {B} fh (k : option (Handle Fd) → M ST B) :
  (∀ h, from_option (handle_ok fh) True h → preserves (k h)) → preserves (bind (handle_of fh) k).
Proof.
  intros Hk s Hs. apply wp_bind. apply (Hk (fh_map (st_handles s) !! fh)); [|done].
  destruct (_ !! fh) eqn:E; [|done]. by eapply Hs.
Qed.

Lemma preserves_path_of {B} ino (k : path → MR ST B) :
  (∀ p, preserves (k p)) → preserves (with_path ino k).
Proof.
  intros Hk. apply preserves_bind; [unfold path_of; eauto with airgap|].
  intros [p|]; eauto with airgap.
Qed.

Lemma preserves_intern p : preserves (intern_path p).
Proof.
  apply preserves_get. intros s Hs. destruct (intern (st_inodes s) p) as [t ino]. done.
Qed.

Lemma preserves_gate rel a : preserves (gate_allows fs rel a).
Proof.
  apply preserves_get. intros s Hs. destruct (st_gate s) as [g|]; [|done].
  by destruct (allow g (join (mount_root fs) rel) a) as [g' ok].
Qed.

Lemma preserves_entry rel : preserves (entry_reply fs fuel rel).
Proof.
  apply preserves_bind; [apply preserves_intern|]. intros ino.
  apply preserves_try; [apply preserves_keeps, keeps_attr|]. eauto with airgap.
Qed.

(** What [view_for] decides is always a redaction output or the real file. *)
Lemma wp_view_of_kind fd k (s : ST) :
  wp True True (view_of_kind fuel fd k)
    (λ r _, match r with Ok v => view_ok v | Err _ => True end) s.
Proof.
  assert (∀ (f : bytes → View), (∀ o, view_ok (f o)) →
    wp True True (let!? original := read_all fuel fd in ret (Ok (f original)))
      (λ r _, match r with Ok v => view_ok v | Err _ => True end) s) as Hgen.
  { intros f Hf. apply wp_try. eapply wp_mono; [apply (keeps_wp tables), keeps_read_loop|].
    intros [o|e] s' _; [apply Hf|done]. }
  unfold view_of_kind. destruct k as [[]|]; [apply Hgen; intros o..|done].
  - destruct (redact Env o) eqn:E; simpl; unfold redacted_bytes; eauto 6.
  - destruct (redact Npmrc o) eqn:E; simpl; unfold redacted_bytes; eauto 6.
  - destruct (redact_private_key o) eqn:E; simpl; unfold key_bytes; eauto.
  - destruct (redact_mitm_yaml o) eqn:E; simpl; unfold key_bytes; eauto.
Qed.

Lemma wp_view_for rel name (s : ST) :
  wp True True (view_for fs fuel rel name)
    (λ r s', match r with Ok v => view_ok v | Err _ => True end ∧ tables s' = tables s) s.
Proof.
  apply wp_and; [|apply (keeps_wp tables), keeps_view_for].
  unfold view_for. destruct (negb (redact_on fs)); [done|].
  apply wp_try. eapply wp_mono; [apply (keeps_wp tables), keeps_sys|].
  intros [fd|e] s1 _; [|done]. apply wp_bind, wp_bind.
  eapply wp_mono; [apply (keeps_wp tables), keeps_sys|]. intros r s2 _.
  eapply wp_mono; [apply wp_view_of_kind|]. intros v s3 Hv. apply wp_bind.
  eapply wp_mono; [apply (keeps_wp tables), keeps_sys|]. intros; by apply wp_ret.
Qed.

Lemma preserves_persist fh : preserves (persist fuel fh).
Proof.
  apply preserves_handle_of. intros [[fd|kind fd served [written|]|b|]|] Hh; eauto with airgap.
  apply preserves_bind; [by apply preserves_set_handle|]. intros _.
  apply preserves_try; [apply preserves_keeps, keeps_read_loop|]. intros original.
  destruct (merge kind original written) as [merged|]; [|eauto with airgap].
  destruct (redact kind merged) as [view|] eqn:Ev; [|eauto with airgap].
  apply preserves_try; [eauto with airgap|]. intros _.
  apply preserves_try; [apply preserves_keeps, keeps_write_loop|]. intros _.
  apply preserves_bind; [|eauto with airgap].
  apply preserves_set_handle. destruct Hh as [Hk _]. split; eauto.
Qed.

Lemma preserves_collect dir_rel items : preserves (collect_entries dir_rel items).
Proof.
  induction items as [|[[nm t]|e] items IH]; simpl; [eauto with airgap| |done].
  destruct (_ || _); [done|]. apply preserves_bind; [apply preserves_intern|]. eauto with airgap.
Qed.

Lemma preserves_remove fh : preserves (handles_remove fh).
Proof.
  apply preserves_handle_of. intros h Hh.
  apply preserves_bind; [|intros _; destruct h; eauto with airgap].
  apply preserves_modify. intros s Hs. by apply map_Forall_delete.
Qed.
End inv.
