(* ===== verification/MemOs.v ===== *)
(** * An in-memory kernel

    A concrete instance of [Os] that meets [OsSpec]: regular files, directories
    and symbolic links by path, descriptors, some of which append, transfers that may be cut short at
    [chunk + 1] bytes (so the overlay's loops iterate) and a quota on a file's size.  The
    witnesses run the overlay over it, and its existence shows that the
    hypotheses on the kernel can hold. *)

From S2P Require Import Prelude Paths Os.

(** ** Definitions *)

Inductive Node : Type :=
| NReg (i : Z)
| NLnk (target : path)
| NDir.

(** [m_app]: the descriptors that append. *)
Record MemW : Type := mkMem {
  m_names : gmap (list Component) Node;
  m_files : gmap Z bytes;
  m_fds : gmap Z Z;
  m_app : gset Z;
  m_chunk : option nat;
  m_quota : option Z;
}.

Definition ENOSPC : Z := 28.
Definition EEXIST : Z := 17.

(** Path resolution follows at most [depth] links. *)
Fixpoint mem_resolve (depth : nat) (w : MemW) (p : path) : option Z :=
  match m_names w !! components p with
  | Some (NReg i) => Some i
  | Some (NLnk t) =>
      match depth with
      | O => None
      | S depth' => mem_resolve depth' w (if has_root t then t else join (default [] (parent p)) t)
      end
  | _ => None
  end.

Definition mem_file (w : MemW) (i : Z) : bytes := default [] (m_files w !! i).

Definition max_above (d : Z) (m : gmap Z Z) : Z := foldr Z.max d (map fst (map_to_list m)) + 1.

Definition put_file (w : MemW) (i : Z) (b : bytes) : MemW :=
  mkMem (m_names w) (<[i := b]> (m_files w)) (m_fds w) (m_app w) (m_chunk w) (m_quota w).
Definition put_fds (w : MemW) (fds : gmap Z Z) : MemW :=
  mkMem (m_names w) (m_files w) fds (m_app w) (m_chunk w) (m_quota w).
Definition put_app (w : MemW) (app : gset Z) : MemW :=
  mkMem (m_names w) (m_files w) (m_fds w) app (m_chunk w) (m_quota w).
Definition put_names (w : MemW) (names : gmap (list Component) Node) : MemW :=
  mkMem names (m_files w) (m_fds w) (m_app w) (m_chunk w) (m_quota w).

Definition mem_new_fd (d : Z) (i fl : Z) (w : MemW) : MemW * result Z Z :=
  let fd := max_above d (m_fds w) in
  (put_app (put_fds w (<[fd := i]> (m_fds w)))
     (if appends fl then {[fd]} ∪ m_app w else m_app w ∖ {[fd]}), Ok fd).

(** What a descriptor is open on. *)
Definition mem_open (w : MemW) (fd : Z) : option (Z * bool) :=
  (λ i, (i, bool_decide (fd ∈ m_app w))) <$> m_fds w !! fd.

(** The number a new file gets, above those in use. *)
Definition node_file (n : Node) : option Z := match n with NReg i => Some i | _ => None end.
Definition mem_next (w : MemW) : Z :=
  foldr Z.max 0 (elements (dom (m_files w)) ++ omap (λ kv, node_file (snd kv)) (map_to_list (m_names w))) + 1.

(** Creating an empty file. *)
Definition mem_created (q : path) (w : MemW) : MemW :=
  put_file (put_names w (<[components q := NReg (mem_next w)]> (m_names w))) (mem_next w) [].

(** A directory, or a link to nothing, is not created over. *)
Definition mem_openat (d : Z) (p : path) (fl mode : Z) (w : MemW) : MemW * result Z Z :=
  match mem_resolve 8 w p with
  | Some i => mem_new_fd d i fl (if Z.land fl O_TRUNC =? 0 then w else put_file w i [])
  | None =>
      if Z.land fl O_CREAT =? 0 then (w, Err ENOENT)
      else
        match m_names w !! components p with
        | Some _ => (w, Err EEXIST)
        | None => mem_new_fd d (mem_next w) fl (mem_created p w)
        end
  end.

(** How many bytes one transfer of [n] moves at most. *)
Definition mem_count (w : MemW) (n : Z) : nat :=
  match m_chunk w with Some c => Nat.min (S c) (Z.to_nat n) | None => Z.to_nat n end.
#[global] Arguments mem_count : simpl never.

Definition mem_pread (fd n off : Z) (w : MemW) : MemW * result bytes Z :=
  (w, match m_fds w !! fd with
      | Some i => Ok (take (mem_count w n) (drop (Z.to_nat off) (mem_file w i)))
      | None => Err EBADF
      end).

(** The part of the data one transfer writes. *)
Definition mem_part (w : MemW) (data : bytes) : bytes :=
  match m_chunk w with Some c => take (S c) data | None => data end.
#[global] Arguments mem_part : simpl never.

Definition mem_pwrite (fd : Z) (data : bytes) (off : Z) (w : MemW) : MemW * result Z Z :=
  match m_fds w !! fd with
  | Some i =>
      let part := mem_part w data in
      let at_ := write_at (bool_decide (fd ∈ m_app w)) (mem_file w i) (Z.to_nat off) in
      if match m_quota w with Some q => q <? Z.of_nat at_ + Z.of_nat (length part) | None => false end
      then (w, Err ENOSPC)
      else (put_file w i (written (mem_file w i) at_ part), Ok (Z.of_nat (length part)))
  | None => (w, Err EBADF)
  end.

Definition mem_ftruncate (fd n : Z) (w : MemW) : MemW * result unit Z :=
  match m_fds w !! fd with
  | Some i => (put_file w i (resize_zero (Z.to_nat n) (mem_file w i)), Ok tt)
  | None => (w, Err EBADF)
  end.

Definition mem_stat (mode size : Z) : FileStat := mkStat mode size 0 1 0 0 0 512 0 0 0 0 0 0.

Definition mem_fstatat (d : Z) (p : path) (fl : Z) (w : MemW) : MemW * result FileStat Z :=
  (w, match m_names w !! components p with
      | Some NDir => Ok (mem_stat S_IFDIR 0)
      | Some (NLnk t) =>
          if Z.land fl AT_SYMLINK_NOFOLLOW =? 0 then
            match mem_resolve 8 w p with
            | Some i => Ok (mem_stat (S_IFREG + 420) (Z.of_nat (length (mem_file w i))))
            | None => Err ENOENT
            end
          else Ok (mem_stat (S_IFLNK + 511) (Z.of_nat (length t)))
      | Some (NReg i) => Ok (mem_stat (S_IFREG + 420) (Z.of_nat (length (mem_file w i))))
      | None => Err ENOENT
      end).

Definition mem_readlinkat (d : Z) (p : path) (w : MemW) : MemW * result bytes Z :=
  (w, match m_names w !! components p with Some (NLnk t) => Ok t | _ => Err ENOENT end).

Definition mem_add (p : path) (n : Node) (w : MemW) : MemW * result unit Z :=
  match m_names w !! components p with
  | Some _ => (w, Err EEXIST)
  | None => (put_names w (<[components p := n]> (m_names w)), Ok tt)
  end.

Definition mem_unlinkat (d : Z) (p : path) (how : UnlinkatFlags) (w : MemW) : MemW * result unit Z :=
  match m_names w !! components p with
  | Some _ => (put_names w (delete (components p) (m_names w)), Ok tt)
  | None => (w, Err ENOENT)
  end.

Definition mem_renameat (d : Z) (from : path) (d' : Z) (to : path) (w : MemW) : MemW * result unit Z :=
  match m_names w !! components from with
  | Some n => (put_names w (<[components to := n]> (delete (components from) (m_names w))), Ok tt)
  | None => (w, Err ENOENT)
  end.

Definition mem_linkat (d : Z) (from : path) (d' : Z) (to : path) (fl : Z) (w : MemW)
    : MemW * result unit Z :=
  match m_names w !! components from with
  | Some n => mem_add to n w
  | None => (w, Err ENOENT)
  end.

Definition node_type (n : Node) : DirType :=
  match n with NReg _ => TFile | NLnk _ => TSymlink | NDir => TDirectory end.

(** The names directly below a directory. *)
Definition mem_children (dir : list Component) (w : MemW)
    : list (result (bytes * option DirType) Z) :=
  omap (λ kv : list Component * Node,
    match last (fst kv) with
    | Some (Normal name) =>
        if bool_decide (removelast (fst kv) = dir) then Some (Ok (name, Some (node_type (snd kv))))
        else None
    | _ => None
    end) (map_to_list (m_names w)).

#[export] Instance MemOs : Os MemW Z := {|
  openat := mem_openat;
  close_fd fd w := put_fds w (delete fd (m_fds w));
  pread := mem_pread;
  pwrite := mem_pwrite;
  ftruncate := mem_ftruncate;
  fstatat := mem_fstatat;
  readlinkat := mem_readlinkat;
  mkdirat d p m := mem_add p NDir;
  unlinkat := mem_unlinkat;
  renameat := mem_renameat;
  symlinkat t d p := mem_add p (NLnk t);
  linkat := mem_linkat;
  read_dir d p fl w := (w, Ok (mem_children (filter (λ c, c ≠ CurDir) (components p)) w));
|}.

(** ** The laws *)

Lemma foldr_max_le (d x : Z) l : (x = d ∨ x ∈ l) → x <= foldr Z.max d l.
Proof.
  induction l as [|y l IH]; simpl; [intros [->|[]%not_elem_of_nil]; lia|].
  intros [->|[->|Hx]%elem_of_cons]; [|lia|]; [|specialize (IH (or_intror Hx)); lia].
  specialize (IH (or_introl eq_refl)). lia.
Qed.

Lemma max_above_ne d m : max_above d m ≠ d.
Proof. pose proof (foldr_max_le d d (map fst (map_to_list m)) (or_introl eq_refl)). unfold max_above. lia. Qed.

Lemma max_above_fresh d (m : gmap Z Z) : m !! max_above d m = None.
Proof.
  destruct (m !! max_above d m) as [i|] eqn:E; [|done]. exfalso.
  apply elem_of_map_to_list in E.
  assert (max_above d m ∈ map fst (map_to_list m)) as Hin
    by (apply list_elem_of_fmap; by exists (max_above d m, i)).
  pose proof (foldr_max_le d _ _ (or_intror Hin)). unfold max_above in *. lia.
Qed.

Lemma mem_next_above w x :
  x ∈ elements (dom (m_files w)) ++ omap (λ kv, node_file (snd kv)) (map_to_list (m_names w)) → x < mem_next w.
Proof. intros Hx. pose proof (foldr_max_le 0 x _ (or_intror Hx)). unfold mem_next. lia. Qed.

Lemma mem_next_unused w : mem_file w (mem_next w) = [].
Proof.
  unfold mem_file. destruct (m_files w !! mem_next w) as [b|] eqn:E; [|done]. exfalso.
  assert (mem_next w < mem_next w); [|lia].
  apply mem_next_above, elem_of_app. left. apply elem_of_elements. by apply elem_of_dom_2 in E.
Qed.

Lemma mem_next_unnamed w cs : m_names w !! cs ≠ Some (NReg (mem_next w)).
Proof.
  intros E. assert (mem_next w < mem_next w); [|lia].
  apply mem_next_above, elem_of_app. right. apply list_elem_of_omap. exists (cs, NReg (mem_next w)).
  by rewrite elem_of_map_to_list.
Qed.

(** One step of resolution. *)
Lemma mem_resolve_step n w p :
  mem_resolve (S n) w p =
  match m_names w !! components p with
  | Some (NReg i) => Some i
  | Some (NLnk t) => mem_resolve n w (if has_root t then t else join (default [] (parent p)) t)
  | _ => None
  end.
Proof. done. Qed.

(** Resolution only looks at the names. *)
Lemma mem_resolve_names n w w' p : m_names w' = m_names w → mem_resolve n w' p = mem_resolve n w p.
Proof.
  intros Hn. revert p. induction n as [|n IH]; intros p; simpl; rewrite Hn;
    destruct (m_names w !! components p) as [[]|]; done || apply IH.
Qed.

Definition mem_resolves (w : MemW) (d : Z) (p : path) (i : Z) : Prop := mem_resolve 8 w p = Some i.

Lemma mem_resolves_names w w' d d' p i :
  m_names w' = m_names w → mem_resolves w d p i ↔ mem_resolves w' d' p i.
Proof. intros Hn. unfold mem_resolves. by rewrite (mem_resolve_names 8 w w'). Qed.

Lemma mem_file_put w i b j : mem_file (put_file w i b) j = if decide (j = i) then b else mem_file w j.
Proof.
  unfold mem_file. cbn. destruct (decide (j = i)) as [->|Hne]; [by rewrite lookup_insert_eq|].
  by rewrite lookup_insert_ne.
Qed.

(** A call that stores new contents in the file of [fd] satisfies the frame. *)
Lemma put_file_frame w i b :
  (∀ fd' o, mem_open w fd' = Some o → mem_open (put_file w i b) fd' = Some o) ∧
  (∀ f', f' ≠ i → mem_file (put_file w i b) f' = mem_file w f') ∧
  (∀ d q g, mem_resolves w d q g ↔ mem_resolves (put_file w i b) d q g) ∧
  mem_file (put_file w i b) i = b.
Proof.
  split_and!; [done| | |].
  - intros f' Hf. rewrite mem_file_put. by destruct (decide (f' = i)).
  - intros. by apply mem_resolves_names.
  - rewrite mem_file_put. by destruct (decide (i = i)).
Qed.

(** A descriptor of a known file, taken apart. *)
Lemma mem_open_Some w fd i a :
  mem_open w fd = Some (i, a) → m_fds w !! fd = Some i ∧ a = bool_decide (fd ∈ m_app w).
Proof. unfold mem_open. intros (j & E & [= -> ->])%fmap_Some. done. Qed.

(** A new descriptor is on its file, appends if asked to, and leaves the others
    alone. *)
Lemma mem_new_fd_open d i fl w w' fd :
  mem_new_fd d i fl w = (w', Ok fd) →
  mem_open w fd = None ∧ mem_open w' fd = Some (i, appends fl) ∧
  ∀ fd', fd' ≠ fd → mem_open w' fd' = mem_open w fd'.
Proof.
  unfold mem_new_fd, mem_open. intros [= <- <-]. cbn [m_fds m_app put_app put_fds].
  rewrite max_above_fresh, lookup_insert_eq. split_and!; [done| |].
  - cbn. do 2 f_equal. destruct (appends fl); [apply bool_decide_eq_true|apply bool_decide_eq_false]; set_solver.
  - intros fd' Hne. rewrite lookup_insert_ne by done.
    destruct (m_fds w !! fd'); [|done]. cbn. do 2 f_equal. apply bool_decide_ext.
    destruct (appends fl); set_solver.
Qed.

Lemma mem_new_fd_kept d i fl w w' fd fd' o :
  mem_new_fd d i fl w = (w', Ok fd) → mem_open w fd' = Some o → mem_open w' fd' = Some o.
Proof. intros (Hf & _ & Ho)%mem_new_fd_open E. rewrite Ho; [done|]. intros ->. congruence. Qed.

Lemma same_files_refl w : same_files mem_open mem_file w w.
Proof. done. Qed.

#[export] Program Instance MemOs_spec : OsSpec MemW Z := {|
  Fid := Z;
  fd_open := mem_open;
  content := mem_file;
  resolves := mem_resolves;
|}.
Next Obligation.
  intros d p fl m w w' r [Hc Ht]%land_bit Ho. cbn in Ho. unfold mem_openat in Ho.
  rewrite Hc, Ht in Ho. destruct (mem_resolve 8 w p) as [i|] eqn:E; cbn in Ho.
  - assert (∃ fd, r = Ok fd) as [fd ->] by (injection Ho as _ <-; by eexists).
    pose proof (mem_new_fd_open _ _ _ _ _ _ Ho) as (Hf & Hn & _).
    assert (m_names w' = m_names w ∧ (∀ g, mem_file w' g = mem_file w g) ∧ fd ≠ d) as (Hnm & Hcc & Hne).
    { injection Ho as <- <-. split_and!; [done|done|apply max_above_ne]. }
    split_and!; [split; [intros fd' o; by eapply mem_new_fd_kept|done]| |].
    + intros. by apply mem_resolves_names.
    + intros fd' [= <-]. split_and!; [done|done|]. intros f Hr. unfold mem_resolves in Hr. cbn. by simplify_eq.
  - injection Ho as <- <-. split_and!; [done|done|]. by intros fd [=].
Qed.
Next Obligation.
  intros fd w. split_and!; [|done|].
  - intros fd' o Hne Ho. unfold mem_open in *. cbn. by rewrite lookup_delete_ne.
  - intros. by apply mem_resolves_names.
Qed.
Next Obligation.
  intros fd n off w w' r f a [Hf _]%mem_open_Some Hn Ho Hr. unfold pread, MemOs, mem_pread in Hr.
  rewrite Hf in Hr. simplify_eq. split_and!; [done|done|].
  intros b [= <-]. eexists. split; [symmetry; apply take_drop|].
  assert (0 < Z.of_nat (mem_count w' n) <= n) as Hc by (unfold mem_count; case_match; lia).
  rewrite length_take. split; [lia|].
  set (l := drop _ _). destruct (mem_count w' n) eqn:E; [lia|].
  destruct l; [by rewrite drop_nil|done].
Qed.
Next Obligation.
  intros fd data off w w' r f a [Hf ->]%mem_open_Some Ho Hr. cbn in Hr. unfold mem_pwrite in Hr.
  rewrite Hf in Hr. destruct (match m_quota w with Some _ => _ | None => _ end); simplify_eq; [done|].
  destruct (put_file_frame w f (written (mem_file w f)
    (write_at (bool_decide (fd ∈ m_app w)) (mem_file w f) (Z.to_nat off)) (mem_part w data))) as (?&?&?&Hc).
  assert (mem_part w data = take (length (mem_part w data)) data) as Hp.
  { unfold mem_part. case_match; [|by rewrite take_ge]. rewrite length_take.
    destruct (decide (S n ≤ length data)%nat); [by rewrite Nat.min_l|by rewrite !take_ge by lia]. }
  assert (length (mem_part w data) ≤ length data)%nat as Hl by (rewrite Hp, length_take; lia).
  split_and!; [done|done|done|lia|lia| |by rewrite Hc, Nat2Z.id, <- Hp].
  destruct data; [done|]. unfold mem_part. case_match; cbn [take length]; lia.
Qed.
Next Obligation.
  intros fd n w w' r f a [Hf _]%mem_open_Some Ho Hr. cbn in Hr. unfold mem_ftruncate in Hr.
  rewrite Hf in Hr. simplify_eq. apply put_file_frame.
Qed.
Next Obligation.
  intros d p fl w w' r Hr. cbn in Hr. unfold mem_fstatat in Hr. simplify_eq.
  split_and!; [done|done|]. intros st Hst.
  assert (∀ m n, stat_ok (mem_stat m n)) as Hok by (intros; split; cbn; unfold isize_max; lia).
  destruct (m_names w' !! components p) as [[i|t|]|]; simplify_eq; [done| |done].
  destruct (_ =? 0); [|simplify_eq; done]. destruct (mem_resolve 8 w' p); by simplify_eq.
Qed.

(** A file number, as the file identity of the specification. *)
Definition mem_fid (i : Z) : Fid (W := MemW) (Fd := Z) := i.

Lemma mem_fd_file (w : MemW) (fd : Z) : fd_file w fd = (m_fds w !! fd : option Z).
Proof. unfold fd_file. cbn. unfold mem_open. by destruct (m_fds w !! fd). Qed.
