(* ===== verification/OverlaySafety.v ===== *)
(** * Safety of the overlay, request by request

    The theorems of this file need no assumption on the kernel (panic freedom
    aside): they hold whatever the calls return. *)

From S2P Require Import Prelude Eff Paths Lexical Access Gate Inodes Redact RedactEnv RedactYaml.
From S2P Require Import Os Attr Overlay Handlers OverlayInv MemOs.

(** ** A concrete overlay for the witnesses *)

Module Demo.
Definition npmrc (secret : string) : bytes :=
  lit "registry=https://r/" ++ [LF] ++ lit "//r/:_authToken=" ++ lit secret ++ [LF].

(** Three files and a link that leaves the overlay. *)
Definition world (secret : string) : MemW :=
  mkMem
    (list_to_map
       [([], NDir);
        ([CurDir], NDir);
        (components (lit ".npmrc"), NReg 1);
        (components (lit "notes"), NReg 2);
        (components (lit ".env"), NLnk (lit "/opt/dotenv"));
        (components (lit "/opt/dotenv"), NReg 3)])
    (list_to_map [(1, npmrc secret); (2, lit "hello"); (3, lit "K=" ++ lit secret ++ [LF])])
    ∅ ∅ (Some 6%nat) (Some 1000).

Definition fs : OverlayFs Z := mkOverlay 3 (lit "/home/me") true.
Definition fuel : nat := 100.
Definition no_limit (es : list DirEntry) (e : DirEntry) : bool := false.

Definition init (secret : string) : St MemW Z (DirGate Script) := OverlayFs_new (world secret) None.

#[local] Existing Instance LineDotenv.line_dotenv.
#[local] Existing Instance TinyYaml.tiny_yaml.

Definition run (q : Request) (s : St MemW Z (DirGate Script)) : St MemW Z (DirGate Script) :=
  match dispatch fs fuel no_limit q s with Done (_, s') => s' | _ => s end.

Definition reply (q : Request) (s : St MemW Z (DirGate Script)) : option (result Reply Z) :=
  match dispatch fs fuel no_limit q s with Done (r, _) => Some r | _ => None end.

(** The state after the root's [.npmrc] (inode 2) has been looked up. *)
Definition looked_up (secret : string) := run (QLookup 1 (lit ".npmrc")) (init secret).

Lemma run_reaches w g q s :
  reachable fs fuel no_limit w g s → reachable fs fuel no_limit w g (run q s).
Proof.
  intros Hs. unfold run. destruct (dispatch fs fuel no_limit q s) as [[r s']| |] eqn:E; try done.
  eapply reach_step; [done|]. by eapply step_request.
Qed.
End Demo.

(** ** Lemmas *)

Section safety.
Context {W Fd G : Type} `{Os W Fd, DirAccess G, Dotenvy, SerdeYaml}.
Context (fs : OverlayFs Fd) (fuel : nat) (dir_full : list DirEntry → DirEntry → bool).

Context (raw : Z → Fd → Prop).

Abbreviation ST := (St W Fd G).
Abbreviation keeps_inv := (preserves (W := W) (G := G) raw) (only parsing).

#[local] Hint Resolve preserves_ret preserves_keeps preserves_bind preserves_try
  preserves_set_handle preserves_drop_handle preserves_path_of preserves_entry preserves_intern
  preserves_persist preserves_collect preserves_remove keeps_attr keeps_sys keeps_stat
  keeps_from_stat keeps_truncate_path preserves_gate : airgap.

Lemma preserves_vec_resize n v : keeps_inv (vec_resize n v).
Proof. unfold vec_resize. destruct (n <=? isize_max); eauto with airgap. Qed.

Lemma preserves_write_buffer buf off data :
  keeps_inv (write_buffer buf off data).
Proof.
  unfold write_buffer. destruct (u64_modulus <=? _); [eauto with airgap|].
  apply preserves_bind; [|eauto with airgap].
  destruct (_ <? _); [apply preserves_vec_resize|eauto with airgap].
Qed.

Lemma preserves_setattr ino size fh : keeps_inv (setattr fs fuel ino size fh).
Proof.
  apply preserves_path_of. intros rel.
  assert (keeps_inv
    (let!? _ := match size with Some sz => truncate_path fs fuel rel sz | None => ret (Ok tt) end in
     let!? a := attr fs fuel ino rel in ret (Ok (RAttr a)))) as Hplain
    by (destruct size; eauto 10 with airgap).
  destruct size as [sz|]; [destruct fh as [fh|]|]; [|apply Hplain..].
  apply preserves_handle_of. intros [[| kind fd served pending | |]|] Hh; try apply Hplain.
  apply preserves_bind; [apply preserves_vec_resize|]. intros buf.
  apply preserves_bind; [by apply preserves_set_handle|]. eauto with airgap.
Qed.

Lemma preserves_read fh off size : keeps_inv (read fh off size).
Proof. apply preserves_handle_of. intros [[]|] Hh; eauto with airgap. Qed.

Lemma preserves_write fh off data : keeps_inv (write fh off data).
Proof.
  apply preserves_handle_of. intros [[| kind fd served pending | |]|] Hh; eauto with airgap.
  apply preserves_bind; [apply preserves_write_buffer|]. intros buf.
  apply preserves_bind; [by apply preserves_set_handle|]. eauto with airgap.
Qed.

Lemma preserves_inodes (f : ST → InodeTable) :
  keeps_inv (modify (λ s, with_inodes (f s) s)).
Proof. by apply preserves_modify. Qed.

(** ** What an open of a protected name allocates *)

(** The by-name handlers: these files are never served raw. *)
Definition name_protected (name : bytes) : bool :=
  is_env_file name || is_npmrc_file name || is_mitm_config_file name.

Lemma detect_protected name prefix :
  name_protected name = true →
  ∃ kind, detect name prefix = Some kind ∧ (kind = Env ∨ kind = Npmrc ∨ kind = MitmYaml).
Proof.
  unfold name_protected, detect. intros Hp.
  destruct (is_env_file name); [by eauto|]. destruct (is_npmrc_file name); [by eauto|].
  destruct (is_mitm_config_file name); [by eauto|done].
Qed.

(** The view of a protected name is redacted or refused, never the file. *)
Lemma wp_view_protected rel name (s : ST) :
  redact_on fs = true → name_protected name = true →
  wp True True (view_for fs fuel rel name)
    (λ r _, ∀ v, r = Ok v → view_ok v ∧ v ≠ VPassthrough) s.
Proof.
  intros Hr Hp.
  assert (wp True True (view_for fs fuel rel name) (λ r _, ∀ v, r = Ok v → v ≠ VPassthrough) s)
    as Hne; [|eapply wp_mono; [exact (wp_and _ _ _ _ _ _ (wp_view_for fs fuel rel name s) Hne)|];
              intros r s' [[Hv _] Hn] v ->; split; [exact Hv|by apply Hn]].
  unfold view_for. rewrite Hr. simpl. apply wp_try.
  eapply wp_mono; [apply (keeps_wp tables), keeps_sys|]. intros [fd|e] s1 _; [|done].
  apply wp_bind, wp_bind. eapply wp_mono; [apply (keeps_wp tables), keeps_sys|]. intros r s2 _.
  destruct (detect_protected name (match r with Ok b => b | Err _ => [] end) Hp) as (k & -> & Hk).
  apply (wp_mono _ _ _ (λ r _, ∀ v, r = Ok v → v ≠ VPassthrough)).
  - destruct Hk as [->|[->| ->]]; simpl; apply wp_try;
      (eapply wp_mono; [apply (keeps_wp tables), keeps_read_loop|]);
      intros [o|e] s3 _; try done; apply wp_ret; intros v [= <-]; by case_match.
  - intros v s3 Hv. apply wp_bind. eapply wp_mono; [apply (keeps_wp tables), keeps_sys|].
    intros. by apply wp_ret.
Qed.

(** What a computation answers is what it answers. *)
Lemma wp_self {A} (m : M ST A) (s : ST) : wp True True m (λ a s', m s = Done (a, s')) s.
Proof. unfold wp. by destruct (m s) as [[a s']| |]. Qed.

Lemma wp_handles_insert h (s : ST) :
  wp True True (handles_insert h) (λ fh s', fh_map (st_handles s') !! fh = Some h) s.
Proof.
  unfold handles_insert. apply wp_bind, wp_bind. unfold modify, wp at 1.
  assert (∀ o, keeps (@tables W Fd G)
    (match o with Some old => drop_handle old | None => ret tt end)) as Hk
    by (intros [[]|]; simpl; unfold drop_fd; eauto with airgap).
  apply wp_bind. eapply wp_mono; [by apply (keeps_wp tables)|].
  intros _ s' [= _ _ Hh]. apply wp_ret. rewrite Hh. cbn. by rewrite lookup_insert_eq.
Qed.

Lemma wp_with_path {A} ino (k : path → MR ST A) Q (s : ST) P F :
  match by_ino (st_inodes s) !! ino with
  | Some p => wp P F (k p) Q s
  | None => Q (Err ENOENT) s
  end → wp P F (with_path ino k) Q s.
Proof.
  unfold with_path, path_of, bind, get, ret. unfold wp.
  by destruct (by_ino (st_inodes s) !! ino).
Qed.

Lemma wp_gate rel a (Q : bool → ST → Prop) (s : ST) P F :
  match st_gate s with
  | Some g => Q (snd (allow g (join (mount_root fs) rel) a))
                (with_gate (Some (fst (allow g (join (mount_root fs) rel) a))) s)
  | None => Q true s
  end → wp P F (gate_allows fs rel a) Q s.
Proof.
  unfold gate_allows, bind, get, wp. destruct (st_gate s) as [g|]; [|done].
  by destruct (allow g (join (mount_root fs) rel) a) as [g' ok].
Qed.

Lemma wp_open_protected ino flags rel (s : ST) :
  redact_on fs = true → by_ino (st_inodes s) !! ino = Some rel →
  name_protected (name_of rel) = true →
  wp True True (open fs fuel ino flags)
    (λ r s', ∀ fh, r = Ok (ROpened fh) →
      ∃ h, fh_map (st_handles s') !! fh = Some h ∧ redacted_handle h) s.
Proof.
  intros Hr Hi Hp. apply wp_with_path. rewrite Hi. apply wp_bind.
  eapply (wp_mono _ _ _ (λ _ _, True)).
  { apply wp_gate. by destruct (st_gate s). }
  intros ok s1 _. destruct (negb ok); [done|]. apply wp_try.
  eapply wp_mono; [by apply wp_view_protected|]. intros [v|e] s2 Hv; [|done].
  destruct (Hv v eq_refl) as [Hok Hne]. apply wp_try.
  eapply (wp_mono _ _ _ (λ r _, ∀ h, r = Ok h → redacted_handle h)).
  - destruct v; simpl; [done| |by intros h [= <-]..].
    apply wp_try. eapply wp_mono; [apply (keeps_wp tables), keeps_sys|].
    intros [fd|e] s3 _; [|done]. by intros h [= <-].
  - intros [h|e] s3 Hh; [|done]. apply wp_bind.
    eapply wp_mono; [apply wp_handles_insert|]. intros fh s4 Hl fh' [= <-]. exists h. split; [exact Hl|by apply Hh].
Qed.

(** ** Where a handle on the file itself comes from *)

(** The request is one by which a file may be opened as it is: an open at which
    the file had no protected name and the view decided on was the file; or a
    creation under a name that has no mergeable handler. *)
Definition opened_raw (s : ST) (q : Request) : Prop :=
  match q with
  | QOpen ino _ =>
      ∃ rel (s1 s2 : ST), by_ino (st_inodes s) !! ino = Some rel ∧
        name_protected (name_of rel) = false ∧ st_world s1 = st_world s ∧
        view_for fs fuel rel (name_of rel) s1 = Done (Ok VPassthrough, s2)
  | QCreate _ name _ _ _ => is_env_file name = false ∧ is_npmrc_file name = false
  | _ => False
  end.

(** What [raw] must allow for the request to keep the invariant. *)
Definition raw_granted (s : ST) (q : Request) : Prop :=
  (redact_on fs = true → opened_raw s q) → ∀ fd, raw (next_fh (st_handles s)) fd.

Lemma wp_gate_frame rel a (s : ST) :
  wp True True (gate_allows fs rel a) (λ _ s', st_world s' = st_world s ∧ st_handles s' = st_handles s) s.
Proof. apply wp_gate. by destruct (st_gate s). Qed.

Lemma handles_ok_frame (s s' : ST) :
  st_handles s' = st_handles s → handles_ok raw s → handles_ok raw s'.
Proof. unfold handles_ok. by intros ->. Qed.

(** Opening a view gives a handle that serves it; the file itself only for
    [VPassthrough]. *)
Lemma wp_open_handle_view rel flags v (s : ST) :
  view_ok v →
  wp True True (open_handle fs rel flags v)
    (λ r s', st_handles s' = st_handles s ∧
             ∀ h, r = Ok h → redacted_handle h ∨ v = VPassthrough ∧ ∃ fd, h = HFile fd) s.
Proof.
  intros Hv. destruct v as [|kind b|b|]; cbn [open_handle];
    [| |split; [done|]; intros h [= <-]; by left..];
    (apply wp_try; eapply wp_mono; [apply (keeps_wp tables), keeps_sys|];
     intros [fd|e] s' [= _ _ Hh]; (split; [exact Hh|]); [|done]; intros h [= <-]; eauto).
Qed.

Lemma wp_open_ok ino flags (s : ST) :
  handles_ok raw s → raw_granted s (QOpen ino flags) →
  wp True True (open fs fuel ino flags) (λ _ s', handles_ok raw s') s.
Proof.
  intros Hs Hr. apply wp_with_path. destruct (by_ino (st_inodes s) !! ino) as [rel|] eqn:Hi; [|done].
  apply wp_bind. eapply wp_mono; [apply wp_gate_frame|]. intros ok s1 [Hw1 Hh1].
  assert (handles_ok raw s1) as Hs1 by by eapply handles_ok_frame.
  destruct (negb ok); [done|]. apply wp_try.
  eapply wp_mono; [exact (wp_and _ _ _ _ _ _ (wp_view_for fs fuel rel (name_of rel) s1) (wp_self _ s1))|].
  intros [v|e] s2 [[Hv [= _ _ Hh2]] Ev]; [|by eapply handles_ok_frame].
  apply wp_try. eapply wp_mono; [by apply wp_open_handle_view|].
  intros [h|e] s3 [Hh3 Hh]; [|eapply handles_ok_frame; [|exact Hs1]; congruence].
  apply wp_bind. eapply wp_mono; [|intros fh s4 Hs4; exact Hs4].
  apply wp_insert_ok; [eapply handles_ok_frame; [|exact Hs1]; congruence|].
  destruct (Hh h eq_refl) as [Hred|[-> [fd ->]]]; [by destruct h|]. cbn [handle_ok].
  replace (st_handles s3) with (st_handles s) by congruence.
  apply Hr. intros Hon. exists rel, s1, s2. split_and!; [done| |done|done].
  apply not_true_iff_false. intros Hp.
  by destruct (wp_Done _ _ _ _ _ _ _ (wp_view_protected rel (name_of rel) s1 Hon Hp) Ev VPassthrough eq_refl).
Qed.

Lemma wp_create_ok parent name mode umask flags (s : ST) :
  handles_ok raw s → raw_granted s (QCreate parent name mode umask flags) →
  wp True True (create fs fuel parent name mode umask flags) (λ _ s', handles_ok raw s') s.
Proof.
  intros Hs Hr. apply wp_with_path. destruct (by_ino (st_inodes s) !! parent) as [dir|]; [|done].
  apply wp_bind. eapply wp_mono; [apply wp_gate_frame|]. intros ok s1 [_ Hh1].
  assert (handles_ok raw s1) as Hs1 by by eapply handles_ok_frame.
  destruct (negb ok); [done|]. apply wp_try.
  eapply wp_mono; [apply (keeps_wp tables), keeps_sys|]. intros [fd|e] s2 [= _ _ Hh2];
    [|by eapply handles_ok_frame].
  apply wp_bind. eapply (wp_mono _ _ _ (λ _ s3, st_handles s3 = st_handles s2)).
  { unfold intern_path. apply wp_bind. unfold get, wp at 1. by destruct (intern _ _). }
  intros i s3 Hh3. apply wp_bind. eapply wp_mono.
  { apply wp_insert_ok; [eapply handles_ok_frame; [|exact Hs1]; congruence|].
    replace (st_handles s3) with (st_handles s) by congruence. unfold create_kind. unfold raw_granted in Hr.
    destruct (redact_on fs); [|by apply Hr].
    destruct (is_env_file name) eqn:Ee; [by split; auto|].
    destruct (is_npmrc_file name) eqn:En; [by split; auto|]. by apply Hr. }
  intros fh s4 Hs4. apply (preserves_try raw); [apply preserves_keeps, keeps_attr|by intros; apply preserves_ret|done].
Qed.

(** Every request keeps the handle invariant, if [raw] allows for what it opens. *)
Lemma wp_dispatch_ok q (s : ST) :
  handles_ok raw s → raw_granted s q →
  wp True True (dispatch fs fuel dir_full q) (λ _ s', handles_ok raw s') s.
Proof.
  intros Hs Hr.
  destruct q; [| | | |by apply wp_open_ok|by apply wp_create_ok|..];
    clear Hr; revert s Hs;
    match goal with |- ∀ s, _ → wp _ _ ?m _ s => change (keeps_inv m) end; simpl;
    [| | | |apply preserves_read|apply preserves_write|..].
  - apply preserves_path_of. eauto with airgap.
  - apply preserves_path_of. eauto with airgap.
  - apply preserves_setattr.
  - apply preserves_path_of. eauto with airgap.
  - apply preserves_try; eauto with airgap.
  - apply preserves_try; eauto with airgap.
  - apply (preserves_bind raw); [eauto with airgap|]. intros r.
    apply preserves_bind; [eauto with airgap|]. intros _. destruct r; eauto with airgap.
  - apply preserves_path_of. eauto 10 with airgap.
  - apply preserves_path_of. eauto with airgap.
  - apply preserves_path_of. eauto 10 using preserves_inodes with airgap.
  - apply preserves_path_of. eauto 10 using preserves_inodes with airgap.
  - do 2 (apply preserves_path_of; intros). eauto 10 using preserves_inodes with airgap.
  - apply preserves_path_of. eauto with airgap.
  - do 2 (apply preserves_path_of; intros). eauto 10 with airgap.
Qed.

(** ** Buffers *)

Lemma read_slice_spec (b : bytes) offset size :
  0 <= offset < u64_modulus → 0 <= size → Z.of_nat (length b) < u64_modulus →
  read_slice b offset size = take (Z.to_nat size) (drop (Z.to_nat offset) b).
Proof.
  intros Ho Hs Hb. unfold read_slice, slice.
  destruct (Z.le_gt_cases (Z.of_nat (length b)) offset) as [Hle|Hlt].
  - rewrite (drop_ge b (Z.to_nat offset)) by lia. rewrite (drop_ge b) by lia.
    by rewrite !take_nil.
  - rewrite (Z.min_l offset) by lia.
    destruct (Z.le_gt_cases (Z.of_nat (length b)) (offset + size)) as [Hle|Hlt'].
    + rewrite !take_ge; [done|rewrite length_drop; lia|rewrite length_drop; lia].
    + f_equal. lia.
Qed.

Lemma write_buffer_spec {S'} (buf : bytes) offset data (s : S') :
  0 <= offset → offset + Z.of_nat (length data) <= isize_max →
  write_buffer buf offset data s = Done (overwrite buf (Z.to_nat offset) data, s).
Proof.
  intros Ho He. unfold write_buffer, vec_resize, bind, ret, overwrite, resize_zero.
  assert (isize_max < u64_modulus) by done.
  rewrite (proj2 (Z.leb_gt u64_modulus _)) by lia.
  rewrite (proj2 (Z.leb_le _ isize_max)) by lia.
  destruct (Z.ltb_spec (Z.of_nat (length buf)) (offset + Z.of_nat (length data))) as [Hlt|Hge].
  - do 3 f_equal.
    + rewrite (take_ge buf) by lia.
      destruct (decide (Z.to_nat offset ≤ length buf)%nat).
      * by rewrite !take_app_le by lia.
      * rewrite !take_app_ge by lia. rewrite !take_replicate. do 2 f_equal. lia.
    + f_equal. rewrite !drop_ge; [done|lia|].
      rewrite length_app, length_take, length_replicate. lia.
  - do 3 f_equal; [by rewrite take_app_le by lia|]. do 2 f_equal. lia.
Qed.

(** A write to a redacted handle is [pwrite] on its buffer. *)
Lemma write_redacted (s : ST) fh kind fd served pending offset data :
  fh_map (st_handles s) !! fh = Some (HRedacted kind fd served pending) →
  0 <= offset → offset + Z.of_nat (length data) <= isize_max →
  write fh offset data s = Done (Ok (RWritten (as_u32 (Z.of_nat (length data)))),
    with_handles (mkHandles (next_fh (st_handles s))
      (<[fh := HRedacted kind fd served
                 (Some (overwrite (default served pending) (Z.to_nat offset) data))]>
         (fh_map (st_handles s)))) s).
Proof.
  intros Hh Ho He. unfold write, handle_of, set_handle, modify. unfold bind at 1 2, get, ret.
  rewrite Hh. unfold bind. by rewrite write_buffer_spec.
Qed.

Lemma overwrite_nil (data : bytes) : overwrite [] 0 data = data.
Proof. unfold overwrite. by rewrite drop_nil, !app_nil_r. Qed.

Lemma overwrite_read (buf : bytes) off (data : bytes) :
  take (length data) (drop off (overwrite buf off data)) = data.
Proof.
  unfold overwrite.
  assert (length (take off (buf ++ replicate (off - length buf) 0)) = off) as Hl.
  { rewrite length_take, length_app, length_replicate. lia. }
  rewrite drop_app_length' by done. by rewrite take_app_length.
Qed.
End safety.
