(* ===== verification/OverlayTheorems.v ===== *)
(** * The overlay's request-level theorems

    The handle invariant over whole sessions, opens of protected names, the
    access gate, reads and writes of redacted handles, panic freedom and
    directory paging. *)

From S2P Require Import Prelude Eff Paths Lexical Access Gate Inodes Redact RedactEnv RedactYaml.
From S2P Require Import Os Attr Overlay Handlers OverlayInv MemOs OverlaySafety.

(** ** Panic freedom *)

Section panics.
Context {W Fd G : Type} `{Os W Fd, DirAccess G, Dotenvy, SerdeYaml}.
Context (fs : OverlayFs Fd) (fuel : nat) (dir_full : list DirEntry → DirEntry → bool).

Abbreviation ST := (St W Fd G).

(** The kernel reports times as [i64]s. *)
Definition stats_ok : Prop :=
  ∀ d p fl w st, snd (fstatat d p fl w) = Ok st → stat_ok st.

(** The sizes a request carries are [u64]s that can be the length of a [Vec]. *)
Definition request_fits (q : Request) : bool :=
  match q with
  | QWrite _ offset data => (0 <=? offset) && (offset + Z.of_nat (length data) <=? isize_max)
  | QSetattr _ (Some size) _ => (0 <=? size) && (size <=? isize_max)
  | _ => true
  end.

Lemma no_panic_sys {A} (call : W → W * A) : no_panic (@sys W Fd G A call).
Proof. intros s. unfold sys. by destruct (call (st_world s)). Qed.

Lemma no_panic_get : no_panic (@get ST).
Proof. done. Qed.

Lemma no_panic_owning {A} fd (m : M ST A) : no_panic m → no_panic (owning fd m).
Proof. intros Hm. unfold owning, drop_fd. eauto using no_panic_sys with airgap. Qed.

#[local] Hint Resolve no_panic_sys no_panic_get no_panic_owning : airgap.

Lemma no_panic_path {A} ino (k : path → MR ST A) :
  (∀ p, no_panic (k p)) → no_panic (with_path ino k).
Proof.
  intros Hk. apply no_panic_bind; [unfold path_of; eauto with airgap|]. intros []; eauto with airgap.
Qed.

Lemma no_panic_handle_of fh : no_panic (@handle_of W Fd G fh).
Proof. unfold handle_of. eauto with airgap. Qed.

Lemma no_panic_drop_handle h : no_panic (@drop_handle W Fd G _ h).
Proof. destruct h; simpl; unfold drop_fd; eauto with airgap. Qed.

Lemma no_panic_intern p : no_panic (@intern_path W Fd G p).
Proof.
  unfold intern_path. apply no_panic_bind; [eauto with airgap|]. intros s.
  destruct (intern (st_inodes s) p); eauto with airgap.
Qed.

Lemma no_panic_gate rel a : no_panic (gate_allows (W := W) fs rel a).
Proof.
  unfold gate_allows. apply no_panic_bind; [eauto with airgap|]. intros s.
  destruct (st_gate s); [|eauto with airgap]. destruct (allow _ _ _); eauto with airgap.
Qed.

Lemma no_panic_insert h : no_panic (@handles_insert W Fd G _ h).
Proof.
  unfold handles_insert. apply no_panic_bind; [eauto with airgap|]. intros s.
  apply no_panic_bind; [eauto with airgap|]. intros _.
  apply no_panic_bind; [|eauto with airgap].
  destruct (_ !! _); eauto using no_panic_drop_handle with airgap.
Qed.

Lemma no_panic_read_all fd : no_panic (read_all (W := W) (G := G) fuel fd).
Proof.
  unfold read_all. generalize (@nil Z) 0. induction fuel as [|n IH]; intros out off; simpl; [done|].
  apply no_panic_try; [eauto with airgap|]. intros []; eauto with airgap.
Qed.

Lemma no_panic_write_all fd data : no_panic (write_all_at (W := W) (G := G) fuel fd data).
Proof.
  unfold write_all_at. generalize 0. induction fuel as [|n IH]; intros k; simpl;
    destruct (_ <=? k); eauto with airgap.
  apply no_panic_try; [eauto with airgap|]. intros m. destruct (m =? 0); eauto with airgap.
Qed.

Lemma no_panic_view_for rel name : no_panic (view_for (W := W) (G := G) fs fuel rel name).
Proof.
  unfold view_for, open_real. destruct (negb _); [eauto with airgap|].
  apply no_panic_try; [eauto with airgap|]. intros fd. apply no_panic_owning.
  apply no_panic_bind; [eauto with airgap|]. intros r. unfold view_of_kind.
  destruct (detect _ _) as [[]|]; eauto using no_panic_read_all with airgap.
Qed.

#[local] Hint Resolve no_panic_path no_panic_handle_of no_panic_drop_handle no_panic_intern
  no_panic_gate no_panic_insert no_panic_read_all no_panic_write_all no_panic_view_for : airgap.

Section stats.
Context (Hstats : stats_ok).

(** After a successful [fstatat], the attributes can be built. *)
Lemma no_panic_stat_then {A} d p fl (k : FileStat → MR ST A) :
  (∀ st, stat_ok st → no_panic (k st)) →
  no_panic (try_bind (sys (fstatat d p fl)) k).
Proof.
  intros Hk s. unfold try_bind, bind, sys.
  pose proof (Hstats d p fl (st_world s)) as Ho.
  destruct (fstatat d p fl (st_world s)) as [w [st|e]]; [|done]. by apply Hk, Ho.
Qed.

Lemma no_panic_from_stat ino st : stat_ok st → no_panic (@from_stat W Fd G ino st).
Proof.
  intros Hst. unfold from_stat. destruct (attr_from_stat_Some ino st Hst) as (a & -> & _).
  eauto with airgap.
Qed.

Lemma no_panic_attr ino rel : no_panic (attr (W := W) (G := G) fs fuel ino rel).
Proof.
  apply no_panic_stat_then. intros st Hst. destruct (_ =? S_IFLNK).
  - apply no_panic_bind.
    { apply no_panic_bind; [eauto with airgap|]. intros []; eauto with airgap. }
    intros within. apply no_panic_bind; [destruct within; eauto with airgap|].
    intros [len|]; [apply no_panic_stat_then; intros|];
      eauto using no_panic_from_stat with airgap.
  - apply no_panic_bind; [by apply no_panic_from_stat|]. intros a.
    destruct (_ =? S_IFREG); eauto with airgap.
Qed.

Lemma no_panic_persist fh : no_panic (persist (W := W) (G := G) fuel fh).
Proof.
  apply no_panic_bind; [eauto with airgap|]. intros [[|k fd served [written|]| |]|]; eauto with airgap.
  apply no_panic_bind; [unfold set_handle; eauto with airgap|]. intros _.
  apply no_panic_try; [eauto with airgap|]. intros original.
  destruct (merge k original written) as [merged|]; [|eauto with airgap].
  destruct (redact k merged); unfold set_handle; eauto 8 with airgap.
Qed.

Lemma no_panic_collect dir items : no_panic (collect_entries (W := W) (Fd := Fd) (G := G) dir items).
Proof.
  induction items as [|[[raw t]|e] items IH]; simpl; [eauto with airgap| |done].
  destruct (_ || _); eauto with airgap.
Qed.

#[local] Hint Resolve no_panic_from_stat no_panic_attr no_panic_persist no_panic_collect : airgap.

Lemma no_panic_entry rel : no_panic (entry_reply (W := W) (G := G) fs fuel rel).
Proof. unfold entry_reply. eauto with airgap. Qed.

#[local] Hint Resolve no_panic_entry : airgap.

Lemma no_panic_setattr ino size fh :
  request_fits (QSetattr ino size fh) = true →
  no_panic (setattr (W := W) (G := G) fs fuel ino size fh).
Proof.
  intros Hfit. apply no_panic_path. intros rel.
  assert (no_panic (S := ST)
    (let!? _ := match size with Some sz => truncate_path fs fuel rel sz | None => ret (Ok tt) end in
     let!? a := attr fs fuel ino rel in ret (Ok (RAttr a)))) as Hplain.
  { apply no_panic_try; [|eauto with airgap]. destruct size as [sz|]; [|eauto with airgap].
    unfold truncate_path, open_real. apply no_panic_try; [eauto with airgap|].
    intros []; eauto with airgap. }
  apply no_panic_bind; [destruct size, fh; eauto with airgap|]. intros h.
  destruct size as [sz|]; [|apply Hplain]. destruct fh as [fh|]; [|apply Hplain].
  destruct h as [[|k fd served pending| |]|]; try apply Hplain.
  apply no_panic_bind; [unfold vec_resize; apply andb_prop in Hfit as [_ ->]; eauto with airgap|].
  intros buf. apply no_panic_bind; [unfold set_handle; eauto with airgap|]. intros _.
  apply no_panic_stat_then. eauto with airgap.
Qed.

Lemma no_panic_write fh off data :
  request_fits (QWrite fh off data) = true →
  no_panic (write (W := W) (Fd := Fd) (G := G) fh off data).
Proof.
  intros [Ho Hl]%andb_prop. apply no_panic_bind; [eauto with airgap|].
  intros [[|k fd served pending| |]|]; eauto with airgap.
  apply no_panic_bind; [|unfold set_handle; eauto with airgap].
  intros s. rewrite write_buffer_spec by lia. done.
Qed.

Lemma no_panic_dispatch q :
  request_fits q = true → no_panic (dispatch (W := W) (G := G) fs fuel dir_full q).
Proof.
  intros Hq. destruct q; simpl;
    first [by apply no_panic_setattr|by apply no_panic_write|apply no_panic_path; intros p|idtac].
  - apply no_panic_stat_then. eauto with airgap.
  - eauto with airgap.
  - eauto with airgap.
  - apply no_panic_bind; [eauto with airgap|]. intros ok. destruct (negb ok); [eauto with airgap|].
    apply no_panic_try; [eauto with airgap|]. intros v.
    apply no_panic_try; [|eauto with airgap].
    unfold open_handle, open_real. destruct v; eauto with airgap.
  - apply no_panic_bind; [eauto with airgap|]. intros ok. destruct (negb ok); [eauto with airgap|].
    unfold open_real. eauto 8 with airgap.
  - apply no_panic_bind; [eauto with airgap|]. intros [[]|]; eauto with airgap.
  - unfold flush. eauto with airgap.
  - unfold fsync. eauto with airgap.
  - apply no_panic_bind; [eauto with airgap|]. intros r. apply no_panic_bind.
    + unfold handles_remove. apply no_panic_bind; [eauto with airgap|]. intros h.
      apply no_panic_bind; [eauto with airgap|]. intros _. destruct h; eauto with airgap.
    + intros _. destruct r; eauto with airgap.
  - eauto 8 with airgap.
  - eauto with airgap.
  - eauto with airgap.
  - eauto with airgap.
  - apply no_panic_path. intros. eauto with airgap.
  - eauto with airgap.
  - apply no_panic_path. intros. eauto with airgap.
Qed.
End stats.
End panics.

(** ** Directory pages *)

(** The entries of a directory listing, numbered from [1 + i]. *)
Fixpoint numbered (i : nat) (es : list (Z * FileType * bytes)) : list DirEntry :=
  match es with
  | [] => []
  | (ino, kind, name) :: es' => mkEntry ino (Z.of_nat (i + 1)) kind name :: numbered (i + 1) es'
  end.

Lemma fill_reply_prefix full acc i es :
  ∃ k, (k ≤ length es)%nat ∧ fill_reply full acc i es = acc ++ numbered i (take k es).
Proof.
  revert acc i. induction es as [|[[ino kind] name] es IH]; intros acc i; simpl.
  - exists 0%nat. by rewrite app_nil_r.
  - destruct (full acc _).
    + exists 0%nat. split; [lia|]. by rewrite app_nil_r.
    + destruct (IH (acc ++ [mkEntry ino (Z.of_nat (i + 1)) kind name]) (i + 1)%nat) as (k & Hk & ->).
      exists (S k). split; [lia|]. by rewrite <- app_assoc.
Qed.

Lemma length_numbered i es : length (numbered i es) = length es.
Proof. revert i. induction es as [|[[ino kind] name] es IH]; intros i; simpl; auto. Qed.

Lemma last_numbered i es e :
  last (numbered i es) = Some e → de_offset e = Z.of_nat (i + length es).
Proof.
  revert i. induction es as [|[[ino kind] name] es IH]; intros i; [done|].
  cbn [numbered length]. destruct es as [|x es].
  - cbn. intros [= <-]. cbn. lia.
  - intros Hl. assert (last (numbered (i + 1) (x :: es)) = Some e) as Hl'.
    { destruct x as [[? ?] ?]. done. }
    apply IH in Hl'. rewrite Hl'. f_equal. cbn [length]. lia.
Qed.

Lemma numbered_app i es es' :
  numbered i (es ++ es') = numbered i es ++ numbered (i + length es) es'.
Proof.
  revert i. induction es as [|[[ino kind] name] es IH]; intros i; simpl; [by rewrite Nat.add_0_r|].
  rewrite IH. do 3 f_equal. lia.
Qed.

(** ** Theorems *)

#[local] Existing Instance LineDotenv.line_dotenv.
#[local] Existing Instance TinyYaml.tiny_yaml.




(** C6. Opening a file that is protected by its name ([.env], [.env.*],
    [.npmrc], [mitm.yaml]) never yields a passthrough handle while redaction is
    on: the handle serves a redaction output, or fails every read. *)
Theorem open_protected_never_raw {W Fd G} `{Os W Fd, DirAccess G, Dotenvy, SerdeYaml}
    (fs : OverlayFs Fd) fuel dir_full (s s' : St W Fd G) ino flags rel fh :
  redact_on fs = true → by_ino (st_inodes s) !! ino = Some rel →
  name_protected (name_of rel) = true →
  dispatch fs fuel dir_full (QOpen ino flags) s = Done (Ok (ROpened fh), s') →
  ∃ h, fh_map (st_handles s') !! fh = Some h ∧ redacted_handle h.
Proof.
  intros Hr Hi Hp E.
  exact (wp_Done _ _ _ _ _ _ _ (wp_open_protected fs fuel ino flags rel s Hr Hi Hp) E fh eq_refl).
Qed.

Lemma open_protected_never_raw_witness :
  ∃ h, fh_map (st_handles (Demo.run (QOpen 2 2) (Demo.looked_up "s3cret"))) !! 1 = Some h ∧
       redacted_handle h.
Proof.
  apply (open_protected_never_raw Demo.fs Demo.fuel Demo.no_limit (Demo.looked_up "s3cret") _
           2 2 (lit ".npmrc") 1); vm_compute; reflexivity.
Defined.

(** The access a request asks the gate for. *)
Definition gated_request {W Fd G} (s : St W Fd G) (q : Request) : option (path * Access) :=
  match q with
  | QOpen ino flags => rel ← by_ino (st_inodes s) !! ino; Some (rel, open_access flags)
  | QCreate parent name _ _ _ =>
      pp ← by_ino (st_inodes s) !! parent; Some (join pp name, Create)
  | _ => None
  end.

(** C17. The gate fails closed: when it refuses the access an open or a create
    needs, the request ends in [EACCES] before any system call, with the files,
    the inode table and the handles untouched; only the gate's own record of the
    decision changes. *)
Theorem gate_denial_is_EACCES {W Fd G} `{Os W Fd, DirAccess G, Dotenvy, SerdeYaml}
    (fs : OverlayFs Fd) fuel dir_full (s : St W Fd G) q g g' rel access :
  st_gate s = Some g → gated_request s q = Some (rel, access) →
  allow g (join (mount_root fs) rel) access = (g', false) →
  dispatch fs fuel dir_full q s = Done (Err EACCES, with_gate (Some g') s).
Proof.
  intros Hg Hq Ha. destruct q; try done; simpl in Hq |- *;
    unfold open, create, with_path, path_of, gate_allows, bind, get, ret; simpl;
    destruct (by_ino (st_inodes s) !! _) as [p|]; simplify_eq/=; by rewrite Hg, Ha.
Qed.

Lemma gate_denial_is_EACCES_witness :
  let g := with_asker [] (mkScript [false] []) in
  let s := with_gate (Some g) (Demo.looked_up "s3cret") in
  dispatch Demo.fs Demo.fuel Demo.no_limit (QOpen 2 0) s
  = Done (Err EACCES, with_gate (Some (fst (allow g (lit "/home/me/.npmrc") Read))) s).
Proof.
  intros g s.
  apply (gate_denial_is_EACCES Demo.fs Demo.fuel Demo.no_limit s (QOpen 2 0) g _ (lit ".npmrc") Read);
    vm_compute; reflexivity.
Defined.

(** The bytes a redacted handle serves: the child's own buffer once it has
    written, the redacted view otherwise. *)
Definition handle_bytes {Fd} (h : Handle Fd) : option bytes :=
  match h with
  | HRedacted _ _ served pending => Some (default served pending)
  | HKey served => Some served
  | _ => None
  end.

(** C24. A read of a redacted handle returns exactly the requested window of its
    bytes, short at the end and empty past it, for every 64-bit offset and 32-bit
    size: the slice is always in bounds, no system call is made and nothing
    changes. *)
Theorem read_redacted_window {W Fd G} `{Os W Fd, DirAccess G, Dotenvy, SerdeYaml}
    (fs : OverlayFs Fd) fuel dir_full (s : St W Fd G) fh offset size h b :
  fh_map (st_handles s) !! fh = Some h → handle_bytes h = Some b →
  0 <= offset < u64_modulus → 0 <= size < 2 ^ 32 → Z.of_nat (length b) <= isize_max →
  dispatch fs fuel dir_full (QRead fh offset size) s
  = Done (Ok (RData (take (Z.to_nat size) (drop (Z.to_nat offset) b))), s).
Proof.
  intros Hh Hb Ho Hs Hl. assert (isize_max < u64_modulus) by done.
  cbn [dispatch]. unfold read, handle_of, bind, get, ret. rewrite Hh.
  destruct h; simplify_eq/=; by rewrite read_slice_spec by lia.
Qed.

Lemma read_redacted_window_witness :
  let s := Demo.run (QOpen 2 0) (Demo.looked_up "s3cret") in
  dispatch Demo.fs Demo.fuel Demo.no_limit (QRead 1 21 13) s
  = Done (Ok (RData (lit "/r/:_authToke")), s).
Proof.
  intros s.
  apply (read_redacted_window Demo.fs Demo.fuel Demo.no_limit s 1 21 13
    (HRedacted Npmrc 4 (Demo.npmrc "<redacted value>") None) (Demo.npmrc "<redacted value>"));
    vm_compute; repeat split; discriminate.
Defined.

(** Writes to a redacted handle go to its private buffer with [pwrite]'s
    meaning (zero-filled holes, the rest kept), the whole write is
    acknowledged, the files are untouched until the merge, and reading the same
    window back returns the data just written. *)
Theorem write_redacted_buffer {W Fd G} `{Os W Fd, DirAccess G, Dotenvy, SerdeYaml}
    (fs : OverlayFs Fd) fuel dir_full (s : St W Fd G) fh kind fd served pending offset data :
  fh_map (st_handles s) !! fh = Some (HRedacted kind fd served pending) →
  0 <= offset → offset + Z.of_nat (length data) <= isize_max → Z.of_nat (length data) < 2 ^ 32 →
  Z.of_nat (length (default served pending)) <= isize_max →
  let buf := overwrite (default served pending) (Z.to_nat offset) data in
  let s' := with_handles (mkHandles (next_fh (st_handles s))
              (<[fh := HRedacted kind fd served (Some buf)]> (fh_map (st_handles s)))) s in
  dispatch fs fuel dir_full (QWrite fh offset data) s
    = Done (Ok (RWritten (Z.of_nat (length data))), s') ∧
  dispatch fs fuel dir_full (QRead fh offset (Z.of_nat (length data))) s'
    = Done (Ok (RData data), s').
Proof.
  intros Hh Ho He Hl Hb buf s'. split.
  - cbn [dispatch]. erewrite write_redacted by eassumption.
    unfold as_u32. by rewrite Z.mod_small by lia.
  - assert (isize_max < u64_modulus) by done.
    cbn [dispatch]. unfold read, handle_of, bind, get, ret.
    cbn [st_handles with_handles fh_map s']. rewrite lookup_insert_eq. change (default served (Some buf)) with buf.
    rewrite read_slice_spec.
    + unfold buf. by rewrite Nat2Z.id, overwrite_read.
    + lia.
    + lia.
    + unfold buf, overwrite. rewrite !length_app, length_take, length_app, length_replicate, length_drop. lia.
Qed.

Lemma write_redacted_buffer_witness :
  let s := Demo.run (QOpen 2 2) (Demo.looked_up "s3cret") in
  let buf := overwrite (Demo.npmrc "<redacted value>") 60 (lit "#new") in
  let s' := with_handles (mkHandles (next_fh (st_handles s))
              (<[1 := HRedacted Npmrc 4 (Demo.npmrc "<redacted value>") (Some buf)]>
                 (fh_map (st_handles s)))) s in
  dispatch Demo.fs Demo.fuel Demo.no_limit (QWrite 1 60 (lit "#new")) s = Done (Ok (RWritten 4), s') ∧
  dispatch Demo.fs Demo.fuel Demo.no_limit (QRead 1 60 4) s' = Done (Ok (RData (lit "#new")), s').
Proof.
  intros s buf s'.
  apply (write_redacted_buffer Demo.fs Demo.fuel Demo.no_limit s 1 Npmrc 4
    (Demo.npmrc "<redacted value>") None 60 (lit "#new"));
    vm_compute; (reflexivity || discriminate).
Defined.

(** No request panics the filesystem: for a kernel that reports times as
    64-bit integers, every request whose write end or truncation size is a
    possible buffer length completes (or keeps iterating a kernel-driven loop),
    in every state. *)
Theorem dispatch_never_panics {W Fd G} `{Os W Fd, DirAccess G, Dotenvy, SerdeYaml}
    (fs : OverlayFs Fd) fuel dir_full q (s : St W Fd G) :
  stats_ok (W := W) (Fd := Fd) → request_fits q = true →
  dispatch fs fuel dir_full q s ≠ Panicked.
Proof. intros Hst Hq. by apply no_panic_dispatch. Qed.

Lemma MemOs_stats_ok : stats_ok (W := MemW) (Fd := Z).
Proof.
  intros d p fl w st Hst. destruct (fstatat d p fl w) as [w' r] eqn:E.
  destruct (fstatat_frame d p fl w w' r E) as (_ & _ & Ho). by apply Ho.
Qed.

Lemma dispatch_never_panics_witness :
  dispatch Demo.fs Demo.fuel Demo.no_limit (QWrite 1 0 (lit "x"))
    (Demo.run (QOpen 2 2) (Demo.looked_up "s3cret")) ≠ Panicked.
Proof. apply dispatch_never_panics; [apply MemOs_stats_ok|vm_compute; reflexivity]. Defined.

(** Directory reads resume exactly where they stopped: a page starting at
    [offset] holds consecutive entries of the listing from number [offset] on,
    and continuing from the offset of its last entry yields, with the page before
    it, an unbroken run of the listing: no entry is skipped or repeated,
    whatever fits into each reply. *)
Theorem readdir_pages_resume full full' (es : list (Z * FileType * bytes)) offset e :
  0 <= offset → last (page full es offset) = Some e →
  ∃ k : nat,
    page full es offset ++ page full' es (de_offset e)
    = numbered (Z.to_nat offset) (take k (drop (Z.to_nat offset) es)).
Proof.
  intros Ho He. unfold page in *.
  destruct (fill_reply_prefix full [] (Z.to_nat offset) (drop (Z.to_nat offset) es)) as (k & Hk & E).
  rewrite E in He |- *. rewrite app_nil_l in *.
  apply last_numbered in He. rewrite length_take_le in He by done.
  rewrite He, Nat2Z.id.
  destruct (fill_reply_prefix full' [] (Z.to_nat offset + k) (drop (Z.to_nat offset + k) es))
    as (k' & Hk' & ->).
  exists (k + k')%nat. rewrite app_nil_l. rewrite <- drop_drop.
  rewrite <- (take_drop k (take (k + k') _)), numbered_app.
  rewrite take_take, Nat.min_l by lia. f_equal.
  rewrite length_take_le by done. f_equal. by rewrite <- firstn_skipn_comm.
Qed.

(** A reply with room for two entries. *)
Definition two_entries (es : list DirEntry) (e : DirEntry) : bool := (2 <=? length es)%nat.

Lemma readdir_pages_resume_witness :
  let es := [(1, Directory, lit "."); (1, Directory, lit ".."); (7, RegularFile, lit "a")] in
  ∃ k : nat, page two_entries es 0 ++ page two_entries es 2 = numbered 0 (take k (drop 0 es)).
Proof.
  intros es.
  apply (readdir_pages_resume two_entries two_entries es 0 (mkEntry 1 2 Directory (lit "..")));
    vm_compute; (reflexivity || discriminate).
Defined.
