(* ===== verification/OverlayIo.v ===== *)
(** * The overlay over a POSIX kernel: loops, views and the merge-back

    Under [OsSpec] the two I/O loops compute what they are meant to, [view_for]
    refines a pure function of the file's contents, and a merge stores exactly
    [merge original written] or leaves the original alone. *)

From S2P Require Import Prelude Eff Paths Lexical Access Inodes Redact Os Attr Overlay Handlers.
From S2P Require Import OverlayInv OverlaySafety.

(** ** Specifications *)

(** What a file with this name and contents is served as, given the bytes the
    sniffing read returned. *)
Definition view_spec `{Dotenvy, SerdeYaml} (name prefix c : bytes) : View :=
  match detect name prefix with
  | None => VPassthrough
  | Some PrivateKey =>
      match redact_private_key c with Some b => VKey b | None => VPassthrough end
  | Some MitmYaml =>
      match redact_mitm_yaml c with Ok b => VKey b | Err _ => VFailed end
  | Some kind =>
      match redact kind c with Ok b => VRedacted kind b | Err _ => VFailed end
  end.

Section io.
Context {W Fd G : Type} `{OsSpec W Fd, DirAccess G, Dotenvy, SerdeYaml}.
Context (fs : OverlayFs Fd) (fuel : nat).

Abbreviation ST := (St W Fd G).

(** Nothing the overlay can observe differs between two worlds. *)
Definition quiet (w w' : W) : Prop :=
  same_files fd_open content w w' ∧ ∀ q f, resolves w (root fs) q f ↔ resolves w' (root fs) q f.

(** Only the contents of file [f] may differ. *)
Definition only_file (f : Fid) (w w' : W) : Prop :=
  (∀ fd o, fd_open w fd = Some o → fd_open w' fd = Some o) ∧
  (∀ g, g ≠ f → content w' g = content w g) ∧
  (∀ q g, resolves w (root fs) q g ↔ resolves w' (root fs) q g).

(** ** Lemmas *)

#[global] Instance quiet_preorder : PreOrder quiet.
Proof.
  split.
  - intros w. split; [by split|done].
  - intros w1 w2 w3 [[Hf1 Hc1] Hr1] [[Hf2 Hc2] Hr2]. split; [split|].
    + auto.
    + intros f. by rewrite Hc2.
    + intros q f. by rewrite Hr1.
Qed.

#[global] Instance only_file_preorder f : PreOrder (only_file f).
Proof.
  split.
  - by intros w.
  - intros w1 w2 w3 (Hf1 & Hc1 & Hr1) (Hf2 & Hc2 & Hr2). split_and!; [auto| |].
    + intros g Hg. by rewrite Hc2, Hc1.
    + intros q g. by rewrite Hr1.
Qed.

Lemma quiet_only_file f w w' : quiet w w' → only_file f w w'.
Proof. intros [[Hf Hc] Hr]. by split_and!. Qed.

Lemma quiet_content w w' f : quiet w w' → content w' f = content w f.
Proof. intros [[_ Hc] _]. apply Hc. Qed.

Lemma quiet_fd w w' fd f : quiet w w' → fd_file w fd = Some f → fd_file w' fd = Some f.
Proof. intros [[Hf _] _]. apply fd_file_kept, Hf. Qed.

Lemma quiet_open w w' fd o : quiet w w' → fd_open w fd = Some o → fd_open w' fd = Some o.
Proof. intros [[Hf _] _]. apply Hf. Qed.

Lemma only_file_fd f w w' fd g : only_file f w w' → fd_file w fd = Some g → fd_file w' fd = Some g.
Proof. intros (Hf & _ & _). apply fd_file_kept, Hf. Qed.

Lemma fstatat_quiet q fl w : quiet w (fst (fstatat (root fs) q fl w)).
Proof.
  destruct (fstatat (root fs) q fl w) as [w' r] eqn:E.
  destruct (fstatat_frame _ _ _ _ _ _ E) as (Hs & Hr & _). by split.
Qed.

(** A system call under [wp]: the caller gets its result and its effect. *)
Lemma wp_sys P F {A} (call : W → W * A) (Q : A → ST → Prop) s :
  (∀ w r, call (st_world s) = (w, r) → Q r (with_world w s)) → wp P F (sys call) Q s.
Proof. unfold wp, sys. intros HQ. destruct (call (st_world s)) as [w r]. by apply HQ. Qed.

Lemma wp_handle_of P F fh (Q : option (Handle Fd) → ST → Prop) s :
  Q (fh_map (st_handles s) !! fh) s → wp P F (handle_of fh) Q s.
Proof. done. Qed.

(** A read at [off] of a descriptor on [f]. *)
Lemma wp_pread P F fd n off f (Q : result bytes Z → ST → Prop) s :
  fd_file (st_world s) fd = Some f → 0 < n → 0 <= off →
  (∀ w r, quiet (st_world s) w →
     (∀ b, r = Ok b → ∃ rest, drop (Z.to_nat off) (content (st_world s) f) = b ++ rest ∧
             Z.of_nat (length b) <= n ∧ (b = [] → rest = [])) →
     Q r (with_world w s)) →
  wp P F (sys (pread fd n off)) Q s.
Proof.
  intros [a Hf]%fd_file_open Hn Ho HQ. apply wp_sys. intros w r E.
  destruct (pread_reads fd n off _ _ _ _ _ Hf Hn Ho E) as (Hs & Hr & Hb).
  apply HQ; [by split|done].
Qed.

Lemma wp_close P F fd (Q : unit → ST → Prop) s :
  fd ≠ root fs →
  (∀ w, (∀ fd' o, fd' ≠ fd → fd_open (st_world s) fd' = Some o → fd_open w fd' = Some o) →
        (∀ g, content w g = content (st_world s) g) →
        (∀ q g, resolves (st_world s) (root fs) q g ↔ resolves w (root fs) q g) →
        Q tt (with_world w s)) →
  wp P F (drop_fd fd) Q s.
Proof.
  intros Hne HQ. apply wp_sys. intros w [] [= <-].
  destruct (close_frame fd (st_world s)) as (Hf & Hc & Hr). apply HQ; auto.
Qed.

(** The loop of [read_all]: with the part before [k] already read and more fuel
    than bytes left, it ends with the whole contents. *)
Lemma read_loop_spec n fd f k (s : ST) :
  fd_file (st_world s) fd = Some f →
  (k ≤ length (content (st_world s) f))%nat → (length (content (st_world s) f) - k < n)%nat →
  wp False False (read_loop n fd (take k (content (st_world s) f)) (Z.of_nat k))
    (λ r s', quiet (st_world s) (st_world s') ∧ tables s' = tables s ∧
             ∀ b, r = Ok b → b = content (st_world s) f) s.
Proof.
  revert k s. induction n as [|n IH]; intros k s Hf Hk Hn; [lia|]. cbn [read_loop].
  apply wp_try, (wp_pread _ _ _ _ _ f); [done|lia|lia|]. intros w r Hq Hr.
  destruct r as [b|e]; [|by split_and!].
  destruct (Hr b eq_refl) as (rest & Hd & Hl & He). rewrite Nat2Z.id in Hd.
  destruct b as [|x b].
  - specialize (He eq_refl). subst rest. apply wp_ret. split_and!; [done..|].
    intros b [= <-]. apply take_ge. apply (f_equal length) in Hd. rewrite length_drop in Hd.
    simpl in Hd. lia.
  - assert (length (x :: b) ≤ length (content (st_world s) f) - k)%nat as Hlb.
    { rewrite <- length_drop, Hd, length_app. lia. }
    replace (take k (content (st_world s) f) ++ x :: b)
      with (take (k + length (x :: b)) (content (st_world s) f)).
    2: { rewrite <- (take_drop k (content (st_world s) f)) at 1. rewrite Hd.
         rewrite take_app_ge by (rewrite length_take; lia). rewrite length_take.
         f_equal. rewrite Nat.min_l by lia.
         replace (k + length (x :: b) - k)%nat with (length (x :: b)) by lia.
         apply take_app_length. }
    rewrite <- Nat2Z.inj_add, <- (quiet_content _ w f Hq).
    eapply wp_mono; [apply (IH (k + length (x :: b))%nat (with_world w s))|].
    + by eapply quiet_fd.
    + cbn [st_world with_world]. rewrite (quiet_content _ w f Hq). lia.
    + cbn [st_world with_world]. rewrite (quiet_content _ w f Hq). simpl length in *. lia.
    + cbn [st_world with_world]. rewrite (quiet_content _ w f Hq).
      intros r s' (Hq' & Ht & Hr'). split_and!; [by etrans|by rewrite Ht|done].
Qed.

Lemma read_all_spec fd f (s : ST) :
  fd_file (st_world s) fd = Some f → (length (content (st_world s) f) < fuel)%nat →
  wp False False (read_all fuel fd)
    (λ r s', quiet (st_world s) (st_world s') ∧ tables s' = tables s ∧
             ∀ b, r = Ok b → b = content (st_world s) f) s.
Proof. intros Hf Hn. apply (read_loop_spec fuel fd f 0); [done|lia|lia]. Qed.

Lemma written_next (data : bytes) k n :
  (k ≤ length data)%nat →
  written (take k data) k (take n (drop k data)) = take (k + n) data.
Proof.
  intros Hk. transitivity (overwrite (take k data) k (take n (drop k data))).
  { unfold written. destruct (take n (drop k data)) as [|x b] eqn:E; [|done].
    unfold overwrite. rewrite length_take, Nat.min_l, Nat.sub_diag, app_nil_r by done. cbn [length app].
    rewrite Nat.add_0_r, take_take, Nat.min_id. by rewrite drop_ge, app_nil_r by (rewrite length_take; lia). }
  unfold overwrite. rewrite length_take, Nat.min_l by done.
  rewrite Nat.sub_diag, app_nil_r, take_take, Nat.min_id.
  rewrite (drop_ge (take k data)) by (rewrite length_take; lia). rewrite app_nil_r.
  by rewrite take_take_drop.
Qed.

(** The loop of [write_all_at], on a file that holds the first [k] bytes. *)
Lemma write_loop_spec n fd f data k (s : ST) :
  fd_file (st_world s) fd = Some f → content (st_world s) f = take k data →
  (k ≤ length data)%nat → (length data - k ≤ n)%nat →
  wp False False (write_loop n fd data (Z.of_nat k))
    (λ r s', only_file f (st_world s) (st_world s') ∧ tables s' = tables s ∧
       match r with
       | Ok _ => content (st_world s') f = data
       | Err _ => ∃ j, content (st_world s') f = take j data
       end) s.
Proof.
  intros [a Ha]%fd_file_open. revert k s Ha. induction n as [|n IH]; intros k s Hf Hc Hk Hn.
  - cbn [write_loop]. rewrite (proj2 (Z.leb_le _ _)) by lia. apply wp_ret.
    split_and!; [done..|]. rewrite Hc. apply take_ge. lia.
  - cbn [write_loop]. destruct (Z.leb_spec (Z.of_nat (length data)) (Z.of_nat k)) as [Hle|Hlt].
    { apply wp_ret. split_and!; [done..|]. rewrite Hc. apply take_ge. lia. }
    apply wp_try, wp_sys. intros w r E. rewrite Nat2Z.id in E.
    assert (drop k data ≠ []) as Hne.
    { intros Hd. apply (f_equal length) in Hd. rewrite length_drop in Hd. simpl in Hd. lia. }
    destruct (pwrite_writes fd _ (Z.of_nat k) _ _ _ f a Hf ltac:(lia) E) as (Hfd & Hoth & Hres & Hr).
    assert (only_file f (st_world s) w) as Honly by (by split_and!).
    destruct r as [m|e]; [|split_and!; [done..|]; exists k; cbn; by rewrite Hr].
    destruct Hr as (Hm & Hpos & Hcw). specialize (Hpos Hne).
    rewrite (proj2 (Z.eqb_neq m 0)) by lia.
    replace (Z.of_nat k + m) with (Z.of_nat (k + Z.to_nat m)) by lia.
    rewrite length_drop in Hm.
    eapply wp_mono; [apply (IH (k + Z.to_nat m)%nat (with_world w s))|].
    + by apply Hfd.
    + cbn [st_world with_world]. rewrite Hcw, Hc, Nat2Z.id.
      replace (write_at a (take k data) k) with k; [by apply written_next|].
      destruct a; [|done]. cbn. rewrite length_take. lia.
    + lia.
    + lia.
    + intros r s' (Ho & Ht & Hr'). split_and!; [by etrans|by rewrite Ht|done].
Qed.

(** ** [view_for] *)

(** The sniffed bytes: a prefix of the contents, of at most 1024 bytes. *)
Definition sniffed (prefix c : bytes) : Prop :=
  ∃ rest, c = prefix ++ rest ∧ (length prefix ≤ 1024)%nat.

Lemma view_of_kind_spec fd f name prefix (s : ST) :
  fd_file (st_world s) fd = Some f → (length (content (st_world s) f) < fuel)%nat →
  wp False False (view_of_kind fuel fd (detect name prefix))
    (λ r s', quiet (st_world s) (st_world s') ∧ tables s' = tables s ∧
       ∀ v, r = Ok v → v = view_spec name prefix (content (st_world s) f)) s.
Proof.
  intros Hf Hn. unfold view_spec. destruct (detect name prefix) as [kind|].
  2: { apply wp_ret. split_and!; [done..|]. by intros v [= <-]. }
  destruct kind; simpl; apply wp_try; (eapply wp_mono; [by apply (read_all_spec fd f)|]);
    (intros [b|e] s' (Hq & Ht & Hb); [apply wp_ret; rewrite (Hb b eq_refl)|]); split_and!; try done;
    by intros v [= <-].
Qed.

Lemma view_for_spec rel name f (s : ST) :
  redact_on fs = true → resolves (st_world s) (root fs) (at_ rel) f →
  (length (content (st_world s) f) < fuel)%nat →
  wp False False (view_for fs fuel rel name)
    (λ r s', quiet (st_world s) (st_world s') ∧ tables s' = tables s ∧
       ∀ v, r = Ok v → ∃ prefix, sniffed prefix (content (st_world s) f) ∧
                       v = view_spec name prefix (content (st_world s) f)) s.
Proof.
  intros Hr Hres Hn. unfold view_for. rewrite Hr. cbn [negb].
  apply wp_try, wp_sys. intros w r E.
  destruct (openat_plain _ _ (Z.lor O_RDONLY O_CLOEXEC) _ _ _ _ eq_refl E) as (Hs & Hw & Hfd).
  assert (quiet (st_world s) w) as Hq by (by split).
  destruct r as [fd|e]; [|by split_and!].
  destruct (Hfd fd eq_refl) as (Hroot & Hfresh & Hopen). specialize (Hopen f Hres).
  assert (fd_file w fd = Some f) as Hfile by (apply fd_file_open; by eexists).
  apply wp_bind, wp_bind, (wp_pread _ _ _ _ _ f); [done|lia|lia|].
  cbn [st_world with_world]. intros w1 r1 Hq1 Hr1.
  set (prefix := match r1 with Ok b => b | Err _ => [] end).
  assert (sniffed prefix (content (st_world s) f)) as Hsn.
  { rewrite <- (quiet_content _ w f Hq). unfold sniffed, prefix. destruct r1 as [b|e].
    - destruct (Hr1 b eq_refl) as (rest & Hd & Hl & _). rewrite drop_0 in Hd. exists rest. split; [done|lia].
    - eexists. split; [done|simpl; lia]. }
  assert (content w1 f = content (st_world s) f) as Hc1
    by (by rewrite (quiet_content w w1), (quiet_content (st_world s) w)).
  eapply wp_mono; [apply (view_of_kind_spec fd f)|].
  - by eapply (quiet_fd w w1).
  - cbn. by rewrite Hc1.
  - cbn [st_world with_world]. rewrite Hc1. intros v s' (Hq' & Ht & Hv).
    apply wp_bind. apply (wp_close _ _ _ _ _ Hroot).
    intros w2 Hfd2 Hc2 Hr2. apply wp_ret. cbn [st_world with_world].
    assert (quiet (st_world s) (st_world s')) as Hqs by (etrans; [done|by etrans]).
    split_and!.
    + split; [split|].
      * intros fd' o Hg. apply Hfd2; [congruence|]. by apply (quiet_open _ _ _ _ Hqs).
      * intros g. rewrite Hc2. by apply quiet_content.
      * intros q g. rewrite <- Hr2. apply Hqs.
    + unfold tables in *. simpl in *. by rewrite Ht.
    + intros v' ->. exists prefix. split; [done|]. by apply Hv.
Qed.

(** ** [persist] *)

(** What the merge leaves behind, by its result. *)
Definition persisted (kind : HandlerKind) (original written : bytes) (view : option bytes)
    (c : bytes) (r : result unit Z) : Prop :=
  match merge kind original written with
  | Err _ => r ≠ Ok tt ∧ c = original ∧ view = None
  | Ok merged =>
      match redact kind merged, r with
      | Err _, _ => r ≠ Ok tt ∧ c = original ∧ view = None
      | Ok v, Ok _ => c = merged ∧ view = Some v
      | Ok v, Err _ => (c = original ∨ ∃ j, c = take j merged) ∧ view = None
      end
  end.

Lemma persist_spec fh kind fd served written f (s : ST) :
  fh_map (st_handles s) !! fh = Some (HRedacted kind fd served (Some written)) →
  fd_file (st_world s) fd = Some f →
  (length (content (st_world s) f) < fuel)%nat →
  (∀ merged, merge kind (content (st_world s) f) written = Ok merged → (length merged ≤ fuel)%nat) →
  wp False False (persist fuel fh)
    (λ r s', only_file f (st_world s) (st_world s') ∧
       st_gate s' = st_gate s ∧ st_inodes s' = st_inodes s ∧
       ∃ view, persisted kind (content (st_world s) f) written view (content (st_world s') f) r ∧
         st_handles s' = mkHandles (next_fh (st_handles s))
           (<[fh := HRedacted kind fd (default served view) None]> (fh_map (st_handles s)))) s.
Proof.
  intros Hh Hf Hn Hm. unfold persist. apply wp_bind, wp_handle_of. rewrite Hh.
  apply wp_bind, wp_modify.
  set (s0 := with_handles _ s). unfold persist_pending.
  apply wp_try. eapply wp_mono; [apply (read_all_spec fd f s0); [exact Hf|exact Hn]|].
  unfold persisted.
  intros [o|e] s1 (Hq & Ht & Ho); injection Ht as Hg1 Hi1 Hh1.
  2: { split_and!; [by apply quiet_only_file|done..|]. exists None. rewrite (quiet_content _ _ f Hq).
       split; [|done]. destruct (merge _ _ _) as [m|]; [|done]. destruct (redact kind m); [|done].
       split; [by left|done]. }
  specialize (Ho o eq_refl). subst o. cbn [s0 st_world with_handles] in *.
  specialize (Hm). destruct (merge kind (content (st_world s) f) written) as [merged|e] eqn:Em.
  2: { apply wp_ret. split_and!; [by apply quiet_only_file|done..|]. exists None.
       by rewrite (quiet_content _ _ f Hq). }
  destruct (redact kind merged) as [view|e] eqn:Ev.
  2: { apply wp_ret. split_and!; [by apply quiet_only_file|done..|]. exists None.
       by rewrite (quiet_content _ _ f Hq). }
  apply wp_try, wp_sys. intros w2 r2 E2.
  assert (fd_file (st_world s1) fd = Some f) as Hf1 by (by eapply quiet_fd).
  destruct (ftruncate_file fd 0 _ _ _ f Hf1 ltac:(lia) E2) as (Hfd2 & Hc2 & Hr2 & Hres2).
  assert (only_file f (st_world s) w2) as Ho2
    by (etrans; [by apply quiet_only_file|by split_and!]).
  destruct r2 as [u|e].
  2: { split_and!; [done..|]. exists None. split; [|done]. split; [left|done].
       cbn [st_world with_world]. rewrite Hres2. by apply quiet_content. }
  apply wp_try. eapply wp_mono.
  { apply (write_loop_spec fuel fd f merged 0 (with_world w2 s1)); [by apply (fd_file_kept (st_world s1)); [apply Hfd2|]| |lia|].
    - cbn [st_world with_world]. rewrite Hres2. by destruct (content (st_world s1) f).
    - specialize (Hm merged eq_refl). lia. }
  intros r3 s3 (Ho3 & Ht3 & Hr3). injection Ht3 as Hg3 Hi3 Hh3.
  cbn [st_world st_gate st_inodes with_world] in *.
  assert (only_file f (st_world s) (st_world s3)) as Ho03 by (by etrans).
  destruct r3 as [u3|e].
  - apply wp_bind, wp_modify, wp_ret.
    split_and!; [done|cbn; congruence..|]. exists (Some view). split; [done|].
    cbn. rewrite Hh3. cbn. rewrite Hh1. cbn. by rewrite insert_insert_eq.
  - split_and!; [done|cbn; congruence..|]. exists None. split; [by split; [right|]|].
    rewrite Hh3. cbn. by rewrite Hh1.
Qed.
End io.
