(* ===== verification/OverlayEdit.v ===== *)
(** * Editing a secret through the overlay

    The end-to-end theorems over a POSIX kernel: what a file is served as, what
    a merge stores, the size and kind attributes report, and whole edit sessions
    (open, write, release). *)

From S2P Require Import Prelude Eff Utf8 Paths Lexical Access Gate Inodes Redact RedactNpmrc RedactEnv.
From S2P Require Import RedactYaml Os Attr Overlay Handlers OverlayInv MemOs OverlaySafety OverlayIo.

(** ** Lemmas *)

Section edit.
Context {W Fd G : Type} `{OsSpec W Fd, DirAccess G, Dotenvy, SerdeYaml}.
Context (fs : OverlayFs Fd) (fuel : nat) (dir_full : list DirEntry → DirEntry → bool).

Abbreviation ST := (St W Fd G).

(** A name that selects a mergeable handler decides the view by itself. *)
Lemma view_spec_mergeable name prefix c kind :
  detect name [] = Some kind → kind = Env ∨ kind = Npmrc →
  view_spec name prefix c
  = match redact kind c with Ok b => VRedacted kind b | Err _ => VFailed end.
Proof.
  unfold view_spec, detect. intros Hd Hk.
  destruct (is_env_file name); [by simplify_eq|]. destruct (is_npmrc_file name); [by simplify_eq|].
  destruct (is_mitm_config_file name); [by destruct Hk; simplify_eq|].
  destruct (existsb _ _); destruct Hk; simplify_eq.
Qed.

(** What an open of a mergeable secret sets up. *)
Definition opened_mergeable (kind : HandlerKind) (f : Fid) (flags : Z) (s s' : ST) (fh : Z) : Prop :=
  (∀ g, content (st_world s') g = content (st_world s) g) ∧
  ((∃ fd served, fd ≠ root fs ∧ fd_file (st_world s') fd = Some f ∧
     redact kind (content (st_world s) f) = Ok served ∧
     fh_map (st_handles s') !! fh
     = Some (HRedacted kind fd served (if Z.land flags O_TRUNC =? 0 then None else Some []))) ∨
   fh_map (st_handles s') !! fh = Some HFailed).

Lemma wp_fresh_insert h (s : ST) (Q : Z → ST → Prop) P F :
  fh_map (st_handles s) !! next_fh (st_handles s) = None →
  Q (next_fh (st_handles s))
    (with_handles (mkHandles (u64_add (next_fh (st_handles s)) 1)
      (<[next_fh (st_handles s) := h]> (fh_map (st_handles s)))) s) →
  wp P F (handles_insert h) Q s.
Proof.
  intros Hfresh HQ. unfold handles_insert. apply wp_bind. unfold get, wp at 1.
  apply wp_bind, wp_modify. rewrite Hfresh. by apply wp_bind, wp_ret, wp_ret.
Qed.

Lemma open_mergeable_spec ino flags rel kind f (s : ST) :
  redact_on fs = true → by_ino (st_inodes s) !! ino = Some rel →
  detect (name_of rel) [] = Some kind → kind = Env ∨ kind = Npmrc →
  resolves (st_world s) (root fs) (at_ rel) f →
  (length (content (st_world s) f) < fuel)%nat →
  fh_map (st_handles s) !! next_fh (st_handles s) = None →
  wp False False (open fs fuel ino flags)
    (λ r s', ∀ fh, r = Ok (ROpened fh) → opened_mergeable kind f flags s s' fh) s.
Proof.
  intros Hr Hi Hd Hk Hres Hn Hfresh. apply wp_with_path. rewrite Hi. apply wp_bind, wp_gate.
  assert (∀ g ok, wp False False
    (if negb ok then ret (Err EACCES)
     else let!? view := view_for fs fuel rel (name_of rel) in
          let!? handle := open_handle fs rel flags view in
          let! fh := handles_insert handle in ret (Ok (ROpened fh)))
    (λ r s', ∀ fh, r = Ok (ROpened fh) → opened_mergeable kind f flags s s' fh) (with_gate g s))
    as Hbody; [|destruct (st_gate s) eqn:E; [apply Hbody|]].
  2: { specialize (Hbody (st_gate s) true). by replace (with_gate (st_gate s) s) with s in Hbody
         by (by destruct s). }
  intros g [|]; [|by apply wp_ret]. cbn [negb]. apply wp_try.
  eapply wp_mono; [by apply (view_for_spec fs fuel rel (name_of rel) f (with_gate g s))|].
  cbn [st_world with_gate]. intros [v|e] s1 (Hq & Ht & Hv); [|done]. injection Ht as _ _ Hh1.
  destruct (Hv v eq_refl) as (prefix & _ & ->). cbn [st_handles with_gate] in Hh1.
  rewrite (view_spec_mergeable _ _ _ kind) by done.
  destruct (redact kind (content (st_world s) f)) as [served|] eqn:Ered; apply wp_try.
  2: { apply wp_ret, wp_bind, wp_fresh_insert; [by rewrite Hh1|]. apply wp_ret. intros fh [= <-].
       split; [intros; by apply quiet_content with (fs := fs)|]. right. cbn. by rewrite lookup_insert_eq. }
  apply wp_try, wp_sys. intros w r E.
  destruct (openat_plain_file _ _ (Z.lor O_RDWR O_CLOEXEC) _ _ _ _ eq_refl E) as (Hs & Hw & Hfd).
  destruct r as [fd|e]; [|done]. destruct (Hfd fd eq_refl) as (Hroot & _ & Hopen).
  apply wp_ret, wp_bind, wp_fresh_insert; [cbn; by rewrite Hh1|]. apply wp_ret. intros fh [= <-].
  split.
  - intros g'. cbn. rewrite (same_content _ _ _ _ Hs). by apply quiet_content with (fs := fs).
  - left. exists fd, served. cbn. split_and!; [done| |done|].
    + apply Hopen. by apply Hq.
    + rewrite lookup_insert_eq. by destruct (Z.land flags O_TRUNC =? 0).
Qed.

(** Releasing a handle whose writes merge: the file ends as [merge] says. *)
Lemma release_spec fh kind fd served written f (s : ST) :
  fh_map (st_handles s) !! fh = Some (HRedacted kind fd served (Some written)) →
  fd_file (st_world s) fd = Some f →
  (length (content (st_world s) f) < fuel)%nat →
  (∀ merged, merge kind (content (st_world s) f) written = Ok merged → (length merged ≤ fuel)%nat) →
  wp False False (release fuel fh)
    (λ r s', (∀ g, g ≠ f → content (st_world s') g = content (st_world s) g) ∧
       fh_map (st_handles s') !! fh = None ∧
       ∃ view r', (r = Ok ROk ↔ r' = Ok tt) ∧
         persisted kind (content (st_world s) f) written view (content (st_world s') f) r') s.
Proof.
  intros Hh Hf Hn Hm. apply wp_bind.
  eapply wp_mono; [by apply (persist_spec fs fuel fh kind fd served written f)|].
  intros r s1 ((_ & Hc & _) & _ & _ & view & Hp & Hh1). apply wp_bind, wp_bind, wp_handle_of.
  rewrite Hh1. cbn [fh_map]. rewrite lookup_insert_eq. apply wp_bind, wp_modify, wp_sys.
  intros w [] [= <-]. cbn [st_world with_world with_handles] in *.
  destruct (close_frame fd (st_world s1)) as (_ & Hcl & _).
  assert ((∀ g, g ≠ f → content (close_fd fd (st_world s1)) g = content (st_world s) g) ∧
          content (close_fd fd (st_world s1)) f = content (st_world s1) f) as [Hg Hcf]
    by (split; [intros g Hgf; by rewrite Hcl, Hc|apply Hcl]).
  destruct r as [[]|e]; apply wp_ret; cbn [st_world st_handles with_world with_handles fh_map];
    rewrite Hcf; (split; [done|split; [apply lookup_delete_eq|]]); eexists view, _; (split; [|done]); done.
Qed.

(** ** An edit session *)

(** Open for overwriting, write the new text at the start, release; every reply
    is a success. *)
Inductive edit_session (ino flags : Z) (data : bytes) (s0 s3 : ST) : Prop :=
| edit_session_intro fh n s1 s2 :
    dispatch fs fuel dir_full (QOpen ino flags) s0 = Done (Ok (ROpened fh), s1) →
    dispatch fs fuel dir_full (QWrite fh 0 data) s1 = Done (Ok (RWritten n), s2) →
    dispatch fs fuel dir_full (QRelease fh) s2 = Done (Ok ROk, s3) →
    edit_session ino flags data s0 s3.

(** The session starts from a mergeable secret [f], with a fresh handle number
    and fuel for its loops. *)
Record edit_start (ino : Z) (rel : path) (kind : HandlerKind) (f : Fid) (data : bytes) (s : ST)
    : Prop := {
  es_redact : redact_on fs = true;
  es_ino : by_ino (st_inodes s) !! ino = Some rel;
  es_detect : detect (name_of rel) [] = Some kind;
  es_kind : kind = Env ∨ kind = Npmrc;
  es_file : resolves (st_world s) (root fs) (at_ rel) f;
  es_fresh : fh_map (st_handles s) !! next_fh (st_handles s) = None;
  es_data : Z.of_nat (length data) <= isize_max;
  es_fuel : (length (content (st_world s) f) < fuel)%nat;
  es_fuel_merged merged :
    merge kind (content (st_world s) f) data = Ok merged → (length merged ≤ fuel)%nat;
}.

Lemma edit_session_spec ino flags rel kind f data (s0 s3 : ST) :
  edit_start ino rel kind f data s0 → Z.land flags O_TRUNC ≠ 0 →
  edit_session ino flags data s0 s3 →
  merge kind (content (st_world s0) f) data = Ok (content (st_world s3) f) ∧
  ∀ g, g ≠ f → content (st_world s3) g = content (st_world s0) g.
Proof.
  intros [Hr Hi Hd Hk Hres Hfresh Hl Hn Hm] Htr [fh n s1 s2 E1 E2 E3].
  destruct (wp_Done _ _ _ _ _ _ _
    (open_mergeable_spec ino flags rel kind f s0 Hr Hi Hd Hk Hres Hn Hfresh) E1 fh eq_refl)
    as [Hc [(fd & served & _ & Hfd & _ & Hh)|Hh]].
  2: { cbn [dispatch] in E2. unfold write, handle_of, bind, get, ret in E2. rewrite Hh in E2. done. }
  rewrite (proj2 (Z.eqb_neq _ _) Htr) in Hh. cbn [dispatch] in E2.
  rewrite (write_redacted s1 fh kind fd served (Some []) 0 data Hh) in E2 by lia.
  injection E2 as _ <-. cbn [default from_option] in E3. rewrite overwrite_nil in E3.
  set (s2 := with_handles _ s1) in E3.
  destruct (wp_Done _ _ _ _ _ _ _
    (release_spec fh kind fd served data f s2 ltac:(cbn; by rewrite lookup_insert_eq) Hfd
       ltac:(cbn; by rewrite Hc) ltac:(cbn; by rewrite Hc)) E3)
    as (Hg & _ & view & r' & Hr' & Hp).
  cbn [s2 st_world with_handles] in Hg, Hp. rewrite Hc in Hp. rewrite (proj1 Hr' eq_refl) in Hp.
  split; [|intros g Hgf; by rewrite Hg, Hc].
  unfold persisted in Hp. destruct (merge kind _ data) as [merged|]; [|by destruct Hp].
  destruct (redact kind merged); [|by destruct Hp]. by destruct Hp as [-> _].
Qed.
End edit.

(** ** Theorems *)

#[local] Existing Instance LineDotenv.line_dotenv.
#[local] Existing Instance TinyYaml.tiny_yaml.

(** The overlay serves a file as a pure function of its contents: with more
    fuel than the file has bytes, [view_for] terminates without panic, leaves
    every file, descriptor and table as it was, and, unless a system call failed,
    decides the view that the name, the first (at most 1024) bytes and the whole
    contents determine. *)
Theorem view_for_refines {W Fd G} `{OsSpec W Fd, DirAccess G, Dotenvy, SerdeYaml}
    (fs : OverlayFs Fd) fuel rel name f (s : St W Fd G) :
  redact_on fs = true → resolves (st_world s) (root fs) (at_ rel) f →
  (length (content (st_world s) f) < fuel)%nat →
  ∃ r s', view_for fs fuel rel name s = Done (r, s') ∧
    quiet fs (st_world s) (st_world s') ∧ tables s' = tables s ∧
    ∀ v, r = Ok v → ∃ prefix, sniffed prefix (content (st_world s) f) ∧
                    v = view_spec name prefix (content (st_world s) f).
Proof. intros Hr Hf Hn. by apply wp_total, view_for_spec. Qed.

Lemma view_for_refines_witness :
  ∃ r s', view_for Demo.fs Demo.fuel (lit ".env") (lit ".env") (Demo.init "v") = Done (r, s') ∧
    quiet Demo.fs (st_world (Demo.init "v")) (st_world s') ∧ tables s' = tables (Demo.init "v") ∧
    ∀ v, r = Ok v → ∃ prefix, sniffed prefix (content (Demo.world "v") (mem_fid 3)) ∧
                    v = view_spec (lit ".env") prefix (content (Demo.world "v") (mem_fid 3)).
Proof.
  apply (view_for_refines Demo.fs Demo.fuel (lit ".env") (lit ".env") (mem_fid 3) (Demo.init "v"));
    [reflexivity|vm_compute; reflexivity|].
  apply Nat.ltb_lt. vm_compute. reflexivity.
Defined.

(** A merge stores exactly what it should or fails closed: persisting the
    pending writes of a handle terminates; if merging or re-redacting fails, the
    reply is an error, the file keeps its original bytes and the writes are
    dropped; on success the file holds [merge original written] and the handle
    serves its redaction; no other file changes in any case. *)
Theorem persist_stores_merge {W Fd G} `{OsSpec W Fd, DirAccess G, Dotenvy, SerdeYaml}
    (fs : OverlayFs Fd) fuel fh kind fd served written f (s : St W Fd G) :
  fh_map (st_handles s) !! fh = Some (HRedacted kind fd served (Some written)) →
  fd_file (st_world s) fd = Some f → (length (content (st_world s) f) < fuel)%nat →
  (∀ merged, merge kind (content (st_world s) f) written = Ok merged → (length merged ≤ fuel)%nat) →
  ∃ r s' view, persist fuel fh s = Done (r, s') ∧ only_file fs f (st_world s) (st_world s') ∧
    persisted kind (content (st_world s) f) written view (content (st_world s') f) r ∧
    st_handles s' = mkHandles (next_fh (st_handles s))
      (<[fh := HRedacted kind fd (default served view) None]> (fh_map (st_handles s))).
Proof.
  intros Hh Hf Hn Hm.
  destruct (wp_total _ _ _ (persist_spec fs fuel fh kind fd served written f s Hh Hf Hn Hm))
    as (r & s' & E & Ho & _ & _ & view & Hp & Hs').
  by exists r, s', view.
Qed.

(** An overwriting open of [.npmrc], followed by a write. *)
Definition demo_opened (secret : string) : St MemW Z (DirGate Script) :=
  Demo.run (QOpen 2 514) (Demo.looked_up secret).

Definition demo_written (secret text : string) : St MemW Z (DirGate Script) :=
  Demo.run (QWrite 1 0 (lit text)) (demo_opened secret).

Lemma persist_stores_merge_witness :
  ∃ r s' view, persist Demo.fuel 1 (demo_written "tok" "color=true") = Done (r, s') ∧
    only_file Demo.fs (mem_fid 1) (st_world (demo_written "tok" "color=true")) (st_world s') ∧
    persisted Npmrc (content (st_world (demo_written "tok" "color=true")) (mem_fid 1)) (lit "color=true") view
      (content (st_world s') (mem_fid 1)) r ∧
    st_handles s' = mkHandles (next_fh (st_handles (demo_written "tok" "color=true")))
      (<[1 := HRedacted Npmrc 4 (default (Demo.npmrc "<redacted value>") view) None]>
         (fh_map (st_handles (demo_written "tok" "color=true")))).
Proof.
  apply (persist_stores_merge Demo.fs Demo.fuel 1 Npmrc 4 (Demo.npmrc "<redacted value>")
    (lit "color=true") (mem_fid 1) (demo_written "tok" "color=true"));
    [vm_compute; reflexivity|vm_compute; reflexivity|apply Nat.ltb_lt; vm_compute; reflexivity|].
  intros merged Hm. assert (merge Npmrc (Demo.npmrc "tok") (lit "color=true") = Ok merged) as Hm'
    by (rewrite <- Hm; vm_compute; reflexivity).
  vm_compute in Hm'. injection Hm' as <-. apply Nat.leb_le. vm_compute. reflexivity.
Defined.

(** C7. Saving through the overlay stores the merge: whenever opening a
    mergeable secret for overwriting, writing [data] at its start and releasing
    the handle all succeed, the real file afterwards holds exactly
    [merge original data], and no other file has changed. *)
Theorem edit_session_stores_merge {W Fd G} `{OsSpec W Fd, DirAccess G, Dotenvy, SerdeYaml}
    (fs : OverlayFs Fd) fuel dir_full ino flags rel kind f data (s0 s3 : St W Fd G) :
  edit_start fs fuel ino rel kind f data s0 → Z.land flags O_TRUNC ≠ 0 →
  edit_session fs fuel dir_full ino flags data s0 s3 →
  merge kind (content (st_world s0) f) data = Ok (content (st_world s3) f) ∧
  ∀ g, g ≠ f → content (st_world s3) g = content (st_world s0) g.
Proof. intros Hs Ht. by apply edit_session_spec with (fs := fs) (rel := rel) (flags := flags). Qed.

(** The state after the whole session. *)
Definition demo_saved (secret text : string) : St MemW Z (DirGate Script) :=
  Demo.run (QRelease 1) (demo_written secret text).

Lemma demo_edit_start secret (data : bytes) :
  by_ino (st_inodes (Demo.looked_up secret)) !! 2 = Some (lit ".npmrc") →
  mem_resolve 8 (st_world (Demo.looked_up secret)) (lit ".npmrc") = Some 1 →
  fh_map (st_handles (Demo.looked_up secret)) !! next_fh (st_handles (Demo.looked_up secret)) = None →
  (Z.of_nat (length data) <=? isize_max) = true →
  (length (mem_file (st_world (Demo.looked_up secret)) 1) <? Demo.fuel)%nat = true →
  match merge Npmrc (mem_file (st_world (Demo.looked_up secret)) 1) data with
  | Ok merged => (length merged <=? Demo.fuel)%nat
  | Err _ => true
  end = true →
  edit_start Demo.fs Demo.fuel 2 (lit ".npmrc") Npmrc (mem_fid 1) data (Demo.looked_up secret).
Proof.
  intros Hi Hr Hf Hl Hn Hm. split.
  - reflexivity.
  - exact Hi.
  - vm_compute. reflexivity.
  - by right.
  - exact Hr.
  - exact Hf.
  - by apply Z.leb_le.
  - by apply Nat.ltb_lt.
  - intros m Hm'. change (content _ _) with (mem_file (st_world (Demo.looked_up secret)) 1) in Hm'.
    rewrite Hm' in Hm. by apply Nat.leb_le.
Qed.

Lemma edit_session_stores_merge_witness :
  merge Npmrc (content (st_world (Demo.looked_up "tok")) (mem_fid 1))
    (lit "//r/:_authToken=<redacted value>")
  = Ok (content (st_world (demo_saved "tok" "//r/:_authToken=<redacted value>")) (mem_fid 1)) ∧
  ∀ g, g ≠ mem_fid 1 →
    content (st_world (demo_saved "tok" "//r/:_authToken=<redacted value>")) g
    = content (st_world (Demo.looked_up "tok")) g.
Proof.
  apply (edit_session_stores_merge Demo.fs Demo.fuel Demo.no_limit 2 514 (lit ".npmrc") Npmrc
    (mem_fid 1)); [|discriminate|].
  - apply demo_edit_start; vm_compute; reflexivity.
  - apply (edit_session_intro _ _ _ _ _ _ _ _ 1 32 (demo_opened "tok")
      (demo_written "tok" "//r/:_authToken=<redacted value>")); vm_compute; reflexivity.
Defined.

(** C21. An unedited save through the overlay is lossless: reading an [.npmrc]
    with distinct credential keys through the overlay and writing the redacted
    text back unchanged leaves the real file byte for byte as it was. *)
Theorem unedited_npmrc_survives {W Fd G} `{OsSpec W Fd, DirAccess G, Dotenvy, SerdeYaml}
    (fs : OverlayFs Fd) fuel dir_full ino flags rel f t view (s0 s3 : St W Fd G) :
  edit_start fs fuel ino rel Npmrc f view s0 → Z.land flags O_TRUNC ≠ 0 →
  from_utf8 (content (st_world s0) f) = Some t → NoDup (secret_keys t) →
  redact_npmrc (content (st_world s0) f) = Ok view →
  edit_session fs fuel dir_full ino flags view s0 s3 →
  content (st_world s3) f = content (st_world s0) f.
Proof.
  intros Hs Ht Hu Hnd Hv He.
  destruct (edit_session_spec fs fuel dir_full ino flags rel Npmrc f view s0 s3 Hs Ht He) as [Hm _].
  simpl in Hm. rewrite (redact_npmrc_valid _ t Hu) in Hv. injection Hv as <-.
  rewrite (merge_npmrc_of_view _ t Hu Hnd) in Hm. by injection Hm.
Qed.

Lemma unedited_npmrc_survives_witness :
  content (st_world (Demo.run (QRelease 1) (Demo.run (QWrite 1 0 (Demo.npmrc "<redacted value>"))
    (demo_opened "tok")))) (mem_fid 1)
  = content (st_world (Demo.looked_up "tok")) (mem_fid 1).
Proof.
  apply (unedited_npmrc_survives Demo.fs Demo.fuel Demo.no_limit 2 514 (lit ".npmrc") (mem_fid 1)
    (Demo.npmrc "tok") (Demo.npmrc "<redacted value>")).
  - apply demo_edit_start; vm_compute; reflexivity.
  - discriminate.
  - vm_compute. reflexivity.
  - apply (bool_decide_eq_true_1 (NoDup _)). vm_compute. reflexivity.
  - vm_compute. reflexivity.
  - apply (edit_session_intro _ _ _ _ _ _ _ _ 1 53 (demo_opened "tok")
      (Demo.run (QWrite 1 0 (Demo.npmrc "<redacted value>")) (demo_opened "tok")));
      vm_compute; reflexivity.
Defined.

(** ** What the code does not guarantee *)

(** A failing write after the truncation loses the original: with room for only
    ten bytes, the flush reports the error and the file keeps seven of them. *)
Definition full_disk (s : St MemW Z (DirGate Script)) : St MemW Z (DirGate Script) :=
  with_world (mkMem (m_names (st_world s)) (m_files (st_world s)) (m_fds (st_world s)) (m_app (st_world s))
                (m_chunk (st_world s)) (Some 10)) s.

Lemma persist_write_failure_loses_original :
  let s := full_disk (Demo.run (QWrite 1 0 (Demo.npmrc "<redacted value>")) (demo_opened "tok")) in
  Demo.reply (QFlush 1) s = Some (Err ENOSPC) ∧
  mem_file (st_world s) 1 = Demo.npmrc "tok" ∧
  mem_file (st_world (Demo.run (QFlush 1) s)) 1 = lit "registr".
Proof. split_and!; vm_compute; reflexivity. Qed.

(** Truncating by path is not gated: a gate that refuses everything is not
    asked, and the file is emptied. *)
Lemma path_truncation_not_gated :
  let gate := with_asker [] (mkScript [] []) in
  let s := with_gate (Some gate) (Demo.run (QLookup 1 (lit "notes")) (Demo.init "tok")) in
  let s' := Demo.run (QSetattr 2 (Some 0) None) s in
  mem_file (st_world s) 2 = lit "hello" ∧ mem_file (st_world s') 2 = [] ∧
  option_map (λ g, asked (asker g)) (st_gate s') = Some [].
Proof. split_and!; vm_compute; reflexivity. Qed.
