(* ===== verification/OverlayAttr.v ===== *)
(** * What attributes the overlay reports ([src/fs.rs]: [attr],
    [symlink_target_within_overlay])

    Sizes agree with the served bytes; links that stay inside the overlay are
    not followed by the backend; links that leave it to a secret are presented
    as redacted regular files. *)

From S2P Require Import Prelude Eff Paths Lexical Access Gate Inodes Redact RedactEnv RedactYaml.
From S2P Require Import Os Attr Overlay Handlers OverlayInv MemOs OverlaySafety OverlayIo.

(** ** Lemmas *)

(** The size a view shows, the real one for a passthrough. *)
Definition shown_size (v : View) (real : Z) : Z :=
  match v with
  | VPassthrough => real
  | VRedacted _ b | VKey b => Z.of_nat (length b)
  | VFailed => 0
  end.

Section attr.
Context {W Fd G : Type} `{OsSpec W Fd, DirAccess G, Dotenvy, SerdeYaml}.
Context (fs : OverlayFs Fd) (fuel : nat).

Abbreviation ST := (St W Fd G).

Lemma attr_regular_spec ino rel f st w1 (s : ST) :
  redact_on fs = true → resolves (st_world s) (root fs) (at_ rel) f →
  (length (content (st_world s) f) < fuel)%nat →
  fstatat (root fs) (at_ rel) AT_SYMLINK_NOFOLLOW (st_world s) = (w1, Ok st) →
  Z.land (st_mode st) S_IFMT = S_IFREG →
  wp False False (attr fs fuel ino rel)
    (λ r s', quiet fs (st_world s) (st_world s') ∧ tables s' = tables s ∧
       ∀ a, r = Ok a → a_ino a = ino ∧ a_kind a = RegularFile ∧
         ∃ prefix, sniffed prefix (content (st_world s) f) ∧
           a_size a = shown_size (view_spec (name_of rel) prefix (content (st_world s) f))
                        (as_u64 (st_size st))) s.
Proof.
  intros Hr Hf Hn Hst Hm. destruct (fstatat_frame _ _ _ _ _ _ Hst) as (Hs & Hres & Hok).
  destruct (attr_from_stat_Some ino st (Hok st eq_refl)) as (a & Ha & Hino & Hsize & Hkind).
  assert (file_kind (st_mode st) = RegularFile) as Hk by (unfold file_kind; by rewrite Hm).
  assert (quiet fs (st_world s) w1) as Hq by (by split).
  apply wp_try, wp_sys. rewrite Hst. intros w r [= <- <-]. rewrite Hm. cbn -[attr_other S_IFREG].
  unfold attr_other, from_stat. rewrite Ha, Hm. apply wp_bind, wp_ret. rewrite Z.eqb_refl.
  apply wp_try. eapply wp_mono; [apply (view_for_spec fs fuel rel (name_of rel) f)|].
  - done.
  - by apply Hq.
  - cbn. by rewrite (quiet_content fs _ w1 f Hq).
  - cbn [st_world with_world]. rewrite (quiet_content fs _ w1 f Hq).
    intros [v|e] s2 (Hq2 & Ht2 & Hv); [apply wp_ret|].
    + split_and!; [by etrans|by rewrite Ht2|]. intros a' [= <-].
      destruct (Hv v eq_refl) as (prefix & Hp & ->).
      split; [by destruct (view_spec _ _ _)|]. split; [destruct (view_spec _ _ _); cbn; congruence|].
      exists prefix. split; [done|]. by destruct (view_spec _ _ _).
    + split_and!; [by etrans|by rewrite Ht2|done].
Qed.
End attr.

(** ** Theorems *)

#[local] Existing Instance LineDotenv.line_dotenv.
#[local] Existing Instance TinyYaml.tiny_yaml.

(** The reported size is the served size: [getattr] on a regular file
    terminates, changes nothing, and reports as size the number of bytes of the
    file's redacted view (zero when redaction fails), or the real size when the
    file is passed through. *)
Theorem getattr_reports_served_size {W Fd G} `{OsSpec W Fd, DirAccess G, Dotenvy, SerdeYaml}
    (fs : OverlayFs Fd) fuel dir_full ino rel f st w1 (s : St W Fd G) :
  redact_on fs = true → by_ino (st_inodes s) !! ino = Some rel →
  resolves (st_world s) (root fs) (at_ rel) f →
  (length (content (st_world s) f) < fuel)%nat →
  fstatat (root fs) (at_ rel) AT_SYMLINK_NOFOLLOW (st_world s) = (w1, Ok st) →
  Z.land (st_mode st) S_IFMT = S_IFREG →
  ∃ r s', dispatch fs fuel dir_full (QGetattr ino) s = Done (r, s') ∧
    quiet fs (st_world s) (st_world s') ∧ tables s' = tables s ∧
    ∀ a, r = Ok (RAttr a) → a_ino a = ino ∧ a_kind a = RegularFile ∧
      ∃ prefix, sniffed prefix (content (st_world s) f) ∧
        a_size a = shown_size (view_spec (name_of rel) prefix (content (st_world s) f))
                     (as_u64 (st_size st)).
Proof.
  intros Hr Hi Hf Hn Hst Hm. apply wp_total, wp_with_path. rewrite Hi. apply wp_try.
  eapply wp_mono; [by apply (attr_regular_spec fs fuel ino rel f st w1 s)|].
  intros [a|e] s' (Hq & Ht & Ha); [apply wp_ret|]; split_and!; try done.
  intros a' [= <-]. by apply Ha.
Qed.

Lemma getattr_reports_served_size_witness :
  ∃ r s', dispatch Demo.fs Demo.fuel Demo.no_limit (QGetattr 2) (Demo.looked_up "tok") = Done (r, s') ∧
    quiet Demo.fs (st_world (Demo.looked_up "tok")) (st_world s') ∧
    tables s' = tables (Demo.looked_up "tok") ∧
    ∀ a, r = Ok (RAttr a) → a_ino a = 2 ∧ a_kind a = RegularFile ∧
      ∃ prefix, sniffed prefix (content (st_world (Demo.looked_up "tok")) (mem_fid 1)) ∧
        a_size a = shown_size
          (view_spec (name_of (lit ".npmrc")) prefix
             (content (st_world (Demo.looked_up "tok")) (mem_fid 1)))
          (as_u64 (st_size (mem_stat (S_IFREG + 420) 40))).
Proof.
  apply (getattr_reports_served_size Demo.fs Demo.fuel Demo.no_limit 2 (lit ".npmrc") (mem_fid 1)
    _ (st_world (Demo.looked_up "tok"))).
  - reflexivity.
  - vm_compute. reflexivity.
  - vm_compute. reflexivity.
  - apply Nat.ltb_lt. vm_compute. reflexivity.
  - vm_compute. reflexivity.
  - reflexivity.
Defined.

(** A link whose target lies lexically inside the overlay is never followed
    by the backend (which would wait on itself): its attributes take exactly two
    calls, [fstatat] without following and [readlinkat], and it is presented as
    the symbolic link it is. *)
Theorem inner_link_not_followed {W Fd G} `{Os W Fd, DirAccess G, Dotenvy, SerdeYaml}
    (fs : OverlayFs Fd) fuel ino rel st target w1 w2 (s : St W Fd G) :
  fstatat (root fs) (at_ rel) AT_SYMLINK_NOFOLLOW (st_world s) = (w1, Ok st) →
  stat_ok st → Z.land (st_mode st) S_IFMT = S_IFLNK →
  readlinkat (root fs) (at_ rel) w1 = (w2, Ok target) →
  path_starts_with (lexically_normalize (link_resolved fs rel target)) (mount_root fs) = true →
  ∃ a, attr fs fuel ino rel s = Done (Ok a, with_world w2 s) ∧ a_kind a = Symlink ∧
       a_size a = as_u64 (st_size st).
Proof.
  intros Hst Hok Hm Hl Hin.
  destruct (attr_from_stat_Some ino st Hok) as (a & Ha & _ & Hsize & Hkind).
  exists a. split_and!; [|by rewrite Hkind; unfold file_kind; rewrite Hm|done].
  unfold attr, stat, try_bind, sys, bind. rewrite Hst, Hm. cbn -[attr_link].
  unfold attr_link, symlink_target_within_overlay, from_stat, sys, bind. cbn [st_world with_world].
  rewrite Hl. cbn. by rewrite Hin, Ha.
Qed.

(** A world where the home directory holds [cur -> bin/x]. *)
Definition inner_world : MemW :=
  mkMem (list_to_map [(components (lit "cur"), NLnk (lit "bin/x"))]) ∅ ∅ ∅ None None.

Lemma inner_link_not_followed_witness :
  ∃ a, attr Demo.fs Demo.fuel 9 (lit "cur") (OverlayFs_new (G := DirGate Script) inner_world None)
       = Done (Ok a, with_world inner_world (OverlayFs_new inner_world None)) ∧
       a_kind a = Symlink ∧ a_size a = 5.
Proof.
  apply (inner_link_not_followed Demo.fs Demo.fuel 9 (lit "cur") (mem_stat (S_IFLNK + 511) 5)
    (lit "bin/x") inner_world inner_world).
  - vm_compute. reflexivity.
  - split; vm_compute; split; discriminate.
  - reflexivity.
  - vm_compute. reflexivity.
  - vm_compute. reflexivity.
Defined.

(** C34. A link with a protected name that leaves the overlay is never presented
    as a link while its target can be read: the node reported is a regular file
    of the redacted view's size, so the kernel reads it through the overlay
    instead of resolving the link to the raw secret. *)
Theorem escaping_secret_link_redacted {W Fd G} `{Os W Fd, DirAccess G, Dotenvy, SerdeYaml}
    (fs : OverlayFs Fd) fuel ino rel st target w1 w2 v a (s s3 s' : St W Fd G) :
  redact_on fs = true → name_protected (name_of rel) = true →
  fstatat (root fs) (at_ rel) AT_SYMLINK_NOFOLLOW (st_world s) = (w1, Ok st) →
  Z.land (st_mode st) S_IFMT = S_IFLNK →
  readlinkat (root fs) (at_ rel) w1 = (w2, Ok target) →
  path_starts_with (lexically_normalize (link_resolved fs rel target)) (mount_root fs) = false →
  view_for fs fuel rel (name_of rel) (with_world w2 s) = Done (Ok v, s3) →
  attr fs fuel ino rel s = Done (Ok a, s') →
  view_ok v ∧ v ≠ VPassthrough ∧ a_kind a = RegularFile ∧ a_size a = shown_size v 0.
Proof.
  intros Hr Hp Hst Hm Hl Hout Hv Ha.
  destruct (wp_Done _ _ _ _ _ _ _
    (wp_view_protected fs fuel rel (name_of rel) (with_world w2 s) Hr Hp) Hv v eq_refl) as [Hok Hne].
  unfold attr, stat, try_bind, sys, bind in Ha. rewrite Hst, Hm in Ha. cbn -[attr_link] in Ha.
  unfold attr_link, symlink_target_within_overlay, sys, bind in Ha.
  cbn [st_world with_world] in Ha. rewrite Hl in Ha. cbn -[view_for] in Ha. rewrite Hout in Ha.
  change (with_world w2 (with_world w1 s)) with (with_world w2 s) in Ha. rewrite Hv in Ha.
  cbn -[fstatat] in Ha. split_and!; [done|done|..].
  all: destruct v; [done|..]; cbn -[fstatat] in Ha; unfold try_bind, bind in Ha;
    (destruct (fstatat (root fs) (at_ rel) 0 (st_world s3)) as [w4 [t|e]]; cbn in Ha; [|done]);
    unfold from_stat in Ha; destruct (attr_from_stat ino t); cbn in Ha; unfold ret in Ha; by simplify_eq.
Qed.

(** The redacted view of the file behind the link, and its attributes. *)
Definition demo_env_view : bytes := lit "K=" ++ [DQUOTE] ++ PLACEHOLDER ++ [DQUOTE; LF].
Definition demo_env_attr : FileAttr :=
  mkAttr 5 21 1 UNIX_EPOCH UNIX_EPOCH UNIX_EPOCH UNIX_EPOCH RegularFile 420 1 0 0 0 512 0.

Lemma escaping_secret_link_redacted_witness :
  view_ok (VRedacted Env demo_env_view) ∧ VRedacted Env demo_env_view ≠ VPassthrough ∧
  a_kind demo_env_attr = RegularFile ∧
  a_size demo_env_attr = shown_size (VRedacted Env demo_env_view) 0.
Proof.
  apply (escaping_secret_link_redacted Demo.fs Demo.fuel 5 (lit ".env")
    (mem_stat (S_IFLNK + 511) 11) (lit "/opt/dotenv") (Demo.world "v") (Demo.world "v")
    (VRedacted Env demo_env_view) demo_env_attr (Demo.init "v") (Demo.init "v") (Demo.init "v"));
    vm_compute; reflexivity.
Defined.
