(* ===== verification/Termination.v ===== *)
(** * Every session terminates, and the fuel does not matter

    Two loops of the overlay are driven by the kernel ([read_all] and
    [write_all_at]); the model bounds them by fuel.  Here: over any kernel whose
    descriptors are open on files, every session ends, with one and the same
    result for every large enough fuel. *)

From S2P Require Import Prelude Eff Paths Lexical Access Gate Inodes Redact RedactEnv RedactYaml.
From S2P Require Import Os Attr Overlay Handlers Fds OverlayInv MemOs OverlaySafety OverlayTheorems OverlayIo.

(** ** Specification *)

Section files.
Context {W Fd : Type} `{OsSpec W Fd}.
Context (fs : OverlayFs Fd).

(** A call opens and closes no descriptor, and changes none. *)
Definition same_open (w w' : W) : Prop := ∀ fd, fd_open w' fd = fd_open w fd.

Lemma same_open_file w w' fd : same_open w w' → fd_file w' fd = fd_file w fd.
Proof. intros Hs. unfold fd_file. by rewrite Hs. Qed.

(** No call but [openat] and [close] touches the set of open descriptors; what
    [openat] returns is a new descriptor, open on some file; [close] closes its
    own. *)
Class OsFiles : Prop := {
  openat_new q fl m w w' r :
    openat (root fs) q fl m w = (w', r) →
    match r with
    | Err _ => same_open w w'
    | Ok fd =>
        fd ≠ root fs ∧ fd_file w fd = None ∧ is_Some (fd_file w' fd) ∧
        (∀ fd' o, fd_open w fd' = Some o → fd_open w' fd' = Some o) ∧
        (∀ fd', is_Some (fd_file w' fd') → fd' = fd ∨ is_Some (fd_file w fd'))
    end;
  close_closes fd w fd' :
    is_Some (fd_file (close_fd fd w) fd') → fd' ≠ fd ∧ is_Some (fd_file w fd');
  pread_keeps fd n off w : same_open w (fst (pread fd n off w));
  pwrite_keeps fd b off w : same_open w (fst (pwrite fd b off w));
  ftruncate_keeps fd n w : same_open w (fst (ftruncate fd n w));
  fstatat_keeps q fl w : same_open w (fst (fstatat (root fs) q fl w));
  readlinkat_keeps q w : same_open w (fst (readlinkat (root fs) q w));
  read_dir_keeps q fl w : same_open w (fst (read_dir (root fs) q fl w));
  mkdirat_keeps q m w : same_open w (fst (mkdirat (root fs) q m w));
  unlinkat_keeps q how w : same_open w (fst (unlinkat (root fs) q how w));
  renameat_keeps p q w : same_open w (fst (renameat (root fs) p (root fs) q w));
  symlinkat_keeps t q w : same_open w (fst (symlinkat t (root fs) q w));
  linkat_keeps p q fl w : same_open w (fst (linkat (root fs) p (root fs) q fl w));
}.
End files.

(** ** Computations with fuel that end

    [ends m Q s]: from some fuel on, [m] gives one and the same outcome, which is
    not exhaustion, and [Q] holds of it. *)
Section ends.
Context {S : Type}.

Definition ends {A} (m : nat → M S A) (Q : A → S → Prop) (s : S) : Prop :=
  ∃ n o, (∀ k, (n ≤ k)%nat → m k s = o) ∧
         match o with Done (a, s') => Q a s' | Panicked => True | OutOfFuel => False end.

(** A computation that does not look at the fuel. *)
Lemma ends_wp {A} (m : M S A) (Q : A → S → Prop) s : wp True False m Q s → ends (λ _, m) Q s.
Proof. unfold wp. intros Hm. by exists 0%nat, (m s). Qed.

Lemma ends_mono {A} (m : nat → M S A) (Q Q' : A → S → Prop) s :
  ends m Q s → (∀ a s', Q a s' → Q' a s') → ends m Q' s.
Proof.
  intros (n & o & Ho & HQ) HQQ. exists n, o. split; [done|]. destruct o as [[a s']| |]; auto.
Qed.

Lemma ends_bind {A B} (m : nat → M S A) (k : nat → A → M S B) Q s :
  ends m (λ a, ends (λ n, k n a) Q) s → ends (λ n, bind (m n) (k n)) Q s.
Proof.
  intros (n & o & Ho & HQ). destruct o as [[a s']| |]; [|by exists n, Panicked; split; [|done]; intros j Hj; unfold bind; rewrite Ho|done].
  destruct HQ as (n' & o' & Ho' & HQ'). exists (Nat.max n n'), o'. split; [|done].
  intros j Hj. unfold bind. rewrite Ho by lia. apply Ho'. lia.
Qed.

Lemma ends_try {A B} (m : nat → MR S A) (k : nat → A → MR S B) Q s :
  ends m (λ r s', match r with Ok a => ends (λ n, k n a) Q s' | Err e => Q (Err e) s' end) s →
  ends (λ n, try_bind (m n) (k n)) Q s.
Proof.
  intros Hm. apply ends_bind. eapply ends_mono; [exact Hm|]. intros [a|e] s' HQ; [done|]. by apply ends_wp.
Qed.

(** A loop that needs fuel: enough of it, once, is enough. *)
Lemma ends_loop {A} (m : nat → M S A) (Q : A → S → Prop) n s :
  (∀ k r, m k s = Done r → m (Datatypes.S k) s = Done r) → wp False False (m n) Q s → ends m Q s.
Proof.
  intros Hmono Hm. apply wp_total in Hm as (a & s' & E & HQ). exists n, (Done (a, s')). split; [|done].
  intros k Hk. induction Hk as [|k Hk IH]; [done|]. by apply Hmono.
Qed.

(** Keeping an invariant while ending. *)
Context (inv : S → Prop).

Definition halts {A} (m : nat → M S A) : Prop := ∀ s, inv s → ends m (λ _, inv) s.

Lemma halts_ret {A} (a : A) : halts (λ _, ret a).
Proof. intros s Hs. by apply ends_wp. Qed.

Lemma halts_panic {A} : halts (λ _, @panic S A).
Proof. intros s Hs. by apply ends_wp. Qed.

Lemma halts_wp {A} (m : M S A) : (∀ s, inv s → wp True False m (λ _, inv) s) → halts (λ _, m).
Proof. intros Hm s Hs. by apply ends_wp, Hm. Qed.

Lemma halts_bind {A B} (m : nat → M S A) (k : nat → A → M S B) :
  halts m → (∀ a, halts (λ n, k n a)) → halts (λ n, bind (m n) (k n)).
Proof. intros Hm Hk s Hs. apply ends_bind. eapply ends_mono; [by apply Hm|]. intros a s' Hs'. by apply Hk. Qed.

Lemma halts_try {A B} (m : nat → MR S A) (k : nat → A → MR S B) :
  halts m → (∀ a, halts (λ n, k n a)) → halts (λ n, try_bind (m n) (k n)).
Proof.
  intros Hm Hk. apply halts_bind; [done|]. intros [a|e]; [apply Hk|apply halts_ret].
Qed.

Lemma halts_get {A} (k : nat → S → M S A) : (∀ s, inv s → ends (λ n, k n s) (λ _, inv) s) → halts (λ n, bind get (k n)).
Proof. intros Hk s Hs. apply ends_bind, ends_wp. by apply Hk. Qed.
End ends.

Section termination.
Context {W Fd G : Type} `{OsSpec W Fd, DirAccess G, Dotenvy, SerdeYaml}.
Context (fs : OverlayFs Fd) (dir_full : list DirEntry → DirEntry → bool) `{!OsFiles fs}.
(** The descriptors open before the session. *)
Context (base : Fd → Prop).

Abbreviation ST := (St W Fd G).

(** Between two operations every descriptor is accounted for; during one it may
    hold one more. *)
Definition fds_inv (s : ST) : Prop := books fs base None (st_world s) (fh_map (st_handles s)).
Definition holding (fd : Fd) (s : ST) : Prop := books fs base (Some fd) (st_world s) (fh_map (st_handles s)).

#[local] Hint Resolve halts_ret halts_panic halts_bind halts_try : airgap.

(** ** System calls *)

Lemma inv_world w s : fds_inv s → same_open (st_world s) w → fds_inv (with_world w s).
Proof. intros Hs Hk. by apply (books_world fs base None (st_world s)). Qed.

Lemma halts_sys {A} (call : W → W * A) :
  (∀ w, same_open w (fst (call w))) → halts fds_inv (λ _, sys call).
Proof.
  intros Hk s Hs. apply ends_wp, wp_sys. intros w r E. apply inv_world; [done|].
  specialize (Hk (st_world s)). by rewrite E in Hk.
Qed.

(** Tables and worlds: what the loops leave alone. *)
Definition same_tables (s s' : ST) : Prop := tables s' = tables s ∧ same_open (st_world s) (st_world s').

Lemma same_tables_inv s s' : same_tables s s' → fds_inv s → fds_inv s'.
Proof. intros [[= _ _ Hh] Hk] Hs. unfold fds_inv. rewrite Hh. by eapply books_world. Qed.

Lemma same_tables_holding fd s s' : same_tables s s' → holding fd s → holding fd s'.
Proof. intros [[= _ _ Hh] Hk] Hs. unfold holding. rewrite Hh. by eapply books_world. Qed.

#[local] Instance same_tables_preorder : PreOrder same_tables.
Proof.
  split; [intros s; by split|]. intros s1 s2 s3 [Ht1 Hk1] [Ht2 Hk2]. split; [congruence|]. intros fd. by rewrite Hk2.
Qed.

Lemma moves_sys {A} (call : W → W * A) :
  (∀ w, same_open w (fst (call w))) → moves same_tables (sys call).
Proof.
  intros Hk s a s'. unfold sys. specialize (Hk (st_world s)). destruct (call (st_world s)) as [w r].
  by intros [= <- <-].
Qed.

Lemma read_loop_S k fd out off :
  read_loop (G := G) (Datatypes.S k) fd out off =
  try_bind (sys (pread fd 8192 off)) (λ b,
    match b with
    | [] => ret (Ok out)
    | _ => read_loop k fd (out ++ b) (off + Z.of_nat (length b))
    end).
Proof. done. Qed.

Lemma read_loop_mono k fd out off (s : ST) r :
  read_loop k fd out off s = Done r → read_loop (Datatypes.S k) fd out off s = Done r.
Proof.
  revert out off s r. induction k as [|k IH]; intros out off s r; [done|].
  rewrite (read_loop_S k), (read_loop_S (Datatypes.S k)). unfold try_bind, bind.
  destruct (sys (pread fd 8192 off) s) as [[[[|x b]|e] s']| |]; try done. apply IH.
Qed.

Lemma moves_read_loop k fd out off : moves same_tables (read_loop (G := G) k fd out off).
Proof.
  revert out off. induction k as [|k IH]; intros out off; [apply moves_fuel|].
  apply moves_try; [apply _|apply moves_sys; intros w; by apply (pread_keeps fs)|].
  intros [|x b]; [by apply moves_ret, _|apply IH].
Qed.

Lemma ends_read_all fd f (s : ST) :
  fd_file (st_world s) fd = Some f → ends (λ k, read_all k fd) (λ _ s', same_tables s s') s.
Proof.
  intros Hf. apply (ends_loop _ _ (Datatypes.S (length (content (st_world s) f)))).
  - intros k r. apply read_loop_mono.
  - eapply wp_mono; [apply wp_run, (read_all_spec fs _ fd f); [done|lia]|].
    intros r s' [E _]. by eapply moves_read_loop.
Qed.

Lemma write_loop_S k fd data n :
  write_loop (G := G) (Datatypes.S k) fd data n =
  if Z.of_nat (length data) <=? n then ret (Ok tt)
  else try_bind (sys (pwrite fd (drop (Z.to_nat n) data) n)) (λ m,
         if m =? 0 then ret (Ok tt) else write_loop k fd data (n + m)).
Proof. done. Qed.

Lemma write_loop_mono k fd data n (s : ST) r :
  write_loop k fd data n s = Done r → write_loop (Datatypes.S k) fd data n s = Done r.
Proof.
  revert n s r. induction k as [|k IH]; intros n s r.
  - rewrite (write_loop_S 0). cbn [write_loop]. by destruct (_ <=? n).
  - rewrite (write_loop_S k), (write_loop_S (Datatypes.S k)). destruct (_ <=? n); [done|].
    unfold try_bind, bind. destruct (sys _ s) as [[[m|e] s']| |]; try done.
    destruct (m =? 0); [done|]. apply IH.
Qed.

Lemma moves_write_loop k fd data n : moves same_tables (write_loop (G := G) k fd data n).
Proof.
  revert n. induction k as [|k IH]; intros n; cbn [write_loop]; (case_match; [apply moves_ret, _|]);
    [apply moves_fuel|].
  apply moves_try; [apply _|apply moves_sys; intros w; by apply (pwrite_keeps fs)|].
  intros m. case_match; [apply moves_ret, _|apply IH].
Qed.

Lemma ends_write_all fd f data (s : ST) :
  fd_file (st_world s) fd = Some f → content (st_world s) f = [] →
  ends (λ k, write_all_at k fd data) (λ _ s', same_tables s s') s.
Proof.
  intros Hf Hc. apply (ends_loop _ _ (length data)).
  - intros k r. apply write_loop_mono.
  - eapply wp_mono; [apply wp_run, (write_loop_spec fs _ fd f data 0); [done|done|lia|lia]|].
    intros r s' [E _]. by eapply moves_write_loop.
Qed.

(** ** Scopes and handles *)

Lemma wp_open rel fl mode (s : ST) :
  fds_inv s →
  wp True False (open_real fs rel fl mode)
    (λ r s', match r with Ok fd => holding fd s' | Err _ => fds_inv s' end) s.
Proof.
  intros Hs. apply wp_sys. intros w r E. pose proof (openat_new fs _ _ _ _ _ _ E) as Hn.
  destruct r as [fd|e]; [|by apply inv_world]. destruct Hn as (? & ? & ? & ? & ?).
  by eapply (books_open fs base (st_world s)).
Qed.

(** Closing the descriptor held. *)
Lemma wp_drop fd (s : ST) : holding fd s → wp True False (drop_fd fd) (λ _, fds_inv) s.
Proof.
  intros Hs. apply wp_sys. intros w [] [= <-]. apply books_close; [|done].
  intros fd'. by apply (close_closes fs).
Qed.

(** A scope that owns a descriptor, around a body that leaves the tables alone. *)
Lemma ends_owning {A} fd (m : nat → M ST A) (s : ST) :
  holding fd s → ends m (λ _ s', same_tables s s') s → ends (λ n, owning fd (m n)) (λ _, fds_inv) s.
Proof.
  intros Hs Hm. apply ends_bind. eapply ends_mono; [exact Hm|]. intros a s' Hst.
  apply ends_wp, wp_bind. eapply (wp_mono _ _ _ (λ _, fds_inv)); [|by intros [] s2 Hs2].
  apply wp_drop. by apply (same_tables_holding fd s s').
Qed.

Lemma wp_drop_handle h (s : ST) :
  books fs base (owned h) (st_world s) (fh_map (st_handles s)) → wp True False (drop_handle h) (λ _, fds_inv) s.
Proof. intros Hs. destruct h; cbn [drop_handle]; [by apply wp_drop..|done|done]. Qed.

(** [Handles::insert], with the drop of a handle it replaces. *)
Lemma wp_insert h (s : ST) :
  books fs base (owned h) (st_world s) (fh_map (st_handles s)) →
  wp True False (handles_insert h) (λ _, fds_inv) s.
Proof.
  intros Hs. unfold handles_insert. apply wp_bind.
  unfold wp at 1, get. apply wp_bind, wp_modify, wp_bind.
  apply (books_insert fs base _ _ (next_fh (st_handles s))) in Hs. set (s' := with_handles _ s).
  eapply (wp_mono _ _ _ (λ _, fds_inv)); [|by intros [] s2 Hs2].
  destruct (fh_map (st_handles s) !! next_fh (st_handles s)); [by apply wp_drop_handle|done].
Qed.

(** [handles.map.remove(&fh)]: the removed handle's descriptor is closed. *)
Lemma halts_remove fh : halts fds_inv (λ _, handles_remove fh).
Proof.
  apply halts_wp. intros s Hs. apply wp_bind, wp_handle_of, wp_bind, wp_modify.
  apply (books_delete fs base _ _ fh) in Hs.
  destruct (fh_map (st_handles s) !! fh); [by apply wp_drop_handle|done].
Qed.

Lemma halts_modify f :
  (∀ s, st_world (f s) = st_world s ∧ st_handles (f s) = st_handles s) → halts fds_inv (λ _, modify f).
Proof.
  intros Hf. apply halts_wp. intros s Hs. apply wp_modify. destruct (Hf s) as [Hw Hh].
  unfold fds_inv. by rewrite Hw, Hh.
Qed.

Lemma halts_path {A} ino (k : nat → path → MR ST A) :
  (∀ p, halts fds_inv (λ n, k n p)) → halts fds_inv (λ n, with_path ino (k n)).
Proof.
  intros Hk s Hs. unfold with_path. apply ends_bind, ends_wp.
  unfold wp, path_of, bind, get, ret. destruct (by_ino _ !! ino); [by apply Hk|by apply ends_wp].
Qed.

Lemma halts_intern p : halts fds_inv (λ _, intern_path p).
Proof.
  apply halts_wp. intros s Hs. unfold intern_path, wp, bind, get, modify, ret.
  by destruct (intern (st_inodes s) p) as [t ino].
Qed.

Lemma halts_gate rel a : halts fds_inv (λ _, gate_allows fs rel a).
Proof.
  apply halts_wp. intros s Hs. unfold gate_allows, wp, bind, get, modify, ret.
  destruct (st_gate s) as [g|]; [|done]. by destruct (allow g _ a).
Qed.

(** ** Internal operations *)

#[local] Hint Extern 0 (same_tables _ _) => reflexivity : core.

Lemma same_sys {A} (call : W → W * A) (s : ST) :
  (∀ w, same_open w (fst (call w))) → wp True False (sys call) (λ _ s', same_tables s s') s.
Proof. intros Hk. apply wp_sys. intros w r E. split; [done|]. specialize (Hk (st_world s)). by rewrite E in Hk. Qed.

Lemma ends_view_of_kind fd kind (s : ST) :
  is_Some (fd_file (st_world s) fd) →
  ends (λ n, view_of_kind n fd kind) (λ _ s', same_tables s s') s.
Proof.
  intros [f Hf]. destruct kind as [[]|]; cbn [view_of_kind]; [..|by apply ends_wp, wp_ret];
    apply ends_try; (eapply ends_mono; [by apply (ends_read_all fd f)|]); intros [b|e] s' Hs'; try done;
    by apply ends_wp.
Qed.

Lemma halts_view_for rel name : halts fds_inv (λ n, view_for fs n rel name).
Proof.
  intros s Hs. unfold view_for. destruct (negb (redact_on fs)); [by apply ends_wp|].
  apply ends_try, ends_wp. eapply wp_mono; [by apply wp_open|]. intros [fd|e] s1 Hs1; [|done].
  apply ends_owning; [done|].
  apply ends_bind, ends_wp. eapply wp_mono; [apply same_sys; intros w; apply (pread_keeps fs)|]. intros r s2 H12.
  eapply ends_mono; [apply ends_view_of_kind|].
  - by eapply (books_extra fs), eq_refl; apply (same_tables_holding fd s1 s2).
  - intros v s3 H23. etrans; [exact H12|exact H23].
Qed.

Lemma halts_from_stat ino st : halts fds_inv (λ _, from_stat ino st).
Proof. unfold from_stat. destruct (attr_from_stat ino st); auto with airgap. Qed.

Lemma halts_stat rel : halts fds_inv (λ _, stat fs rel).
Proof. apply halts_sys. intros w. by apply (fstatat_keeps fs). Qed.

#[local] Hint Resolve halts_view_for halts_from_stat halts_stat halts_intern halts_gate halts_path halts_remove : airgap.

(** The steps of a handler: constant parts first, then the sequencing rules. *)
Ltac halt :=
  repeat first
    [ eauto with airgap; fail
    | apply halts_path; intros
    | apply halts_try; [|intros]
    | apply halts_bind; [|intros]
    | case_match ].

Lemma halts_within rel : halts fds_inv (λ _, symlink_target_within_overlay fs rel).
Proof.
  unfold symlink_target_within_overlay. apply halts_bind; [apply halts_sys; intros w; by apply (readlinkat_keeps fs)|].
  intros [t|e]; apply halts_ret.
Qed.

Lemma halts_attr ino rel : halts fds_inv (λ n, attr fs n ino rel).
Proof.
  unfold attr. apply halts_try; [apply halts_stat|]. intros st. case_match.
  - unfold attr_link. apply halts_bind; [apply halts_within|]. intros within. apply halts_bind.
    + destruct within; halt.
    + intros [len|]; [|halt]. apply halts_try; [apply halts_sys; intros w; by apply (fstatat_keeps fs)|]. intros; halt.
  - unfold attr_other. halt.
Qed.

#[local] Hint Resolve halts_attr : airgap.

Lemma halts_entry rel : halts fds_inv (λ n, entry_reply fs n rel).
Proof. unfold entry_reply. halt. Qed.

Lemma halts_truncate_path rel sz : halts fds_inv (λ n, truncate_path fs n rel sz).
Proof.
  unfold truncate_path. apply halts_try; [apply halts_view_for|]. intros [| | |]; [|apply halts_ret..].
  intros s Hs. apply ends_try, ends_wp. eapply wp_mono; [by apply wp_open|]. intros [fd|e] s1 Hs1; [|done].
  apply ends_owning; [done|]. apply ends_wp, same_sys. intros w. by apply (ftruncate_keeps fs).
Qed.

#[local] Hint Resolve halts_entry halts_truncate_path : airgap.

(** [get_mut]: a handle is replaced by one on the same descriptor. *)
Lemma wp_set_handle fh h h' (s : ST) :
  fds_inv s → fh_map (st_handles s) !! fh = Some h → owned h' = owned h →
  wp True False (set_handle fh h') (λ _ s', fds_inv s' ∧ st_world s' = st_world s ∧
                                      fh_map (st_handles s') !! fh = Some h') s.
Proof.
  intros Hs Hh He. apply wp_modify. split_and!; [by eapply books_update|done|]. cbn. by rewrite lookup_insert_eq.
Qed.

(** ** The handlers *)

Lemma halts_set_handle_tail {A} fh h h' (m : nat → M ST A) (s : ST) :
  fds_inv s → fh_map (st_handles s) !! fh = Some h → owned h' = owned h → halts fds_inv m →
  ends (λ n, let! _ := set_handle fh h' in m n) (λ _, fds_inv) s.
Proof.
  intros Hs Hh He Hm. apply ends_bind, ends_wp. eapply wp_mono; [by eapply wp_set_handle|].
  intros [] s' (Hs' & _). by apply Hm.
Qed.

Lemma ends_persist_pending fh kind fd served written (s : ST) :
  fds_inv s → fh_map (st_handles s) !! fh = Some (HRedacted kind fd served None) →
  ends (λ n, persist_pending n fh kind fd written) (λ _, fds_inv) s.
Proof.
  intros Hs Hh. destruct (fds_open _ _ _ (books_ok _ _ _ _ _ Hs) fh _ fd Hh eq_refl) as [_ [f Hf]].
  apply ends_try. eapply ends_mono; [by apply (ends_read_all fd f)|]. intros [o|e] s1 Hq1.
  2: by apply (same_tables_inv s s1).
  assert (fds_inv s1) as Hs1 by by apply (same_tables_inv s s1).
  destruct (merge kind o written) as [merged|e]; [|by apply ends_wp].
  destruct (redact kind merged) as [view|e]; [|by apply ends_wp].
  apply ends_try, ends_wp, wp_sys. intros w2 r2 E2.
  assert (same_tables s1 (with_world w2 s1)) as Hq2.
  { split; [done|]. pose proof (ftruncate_keeps fs fd 0 (st_world s1)) as Hk. by rewrite E2 in Hk. }
  assert (fd_file (st_world s1) fd = Some f) as Hf1 by (rewrite <- Hf; apply same_open_file, Hq1).
  destruct (ftruncate_file fd 0 _ _ _ f Hf1 ltac:(lia) E2) as (Hfd2 & _ & _ & Hc).
  destruct r2 as [[]|e]; [|by apply (same_tables_inv s1)].
  apply ends_try. eapply ends_mono; [apply (ends_write_all fd f); [by apply (fd_file_kept (st_world s1)); [apply Hfd2|]|cbn; by rewrite Hc]|].
  intros r s3 Hq3. assert (same_tables s s3) as H13 by (etrans; [exact Hq1|etrans; [exact Hq2|exact Hq3]]).
  assert (fds_inv s3) as Hs3 by by apply (same_tables_inv s s3).
  destruct r as [[]|e]; [|done].
  eapply (halts_set_handle_tail fh (HRedacted kind fd served None)); [done| |done|auto with airgap].
  destruct H13 as [[= _ _ ->] _]. exact Hh.
Qed.

Lemma halts_persist fh : halts fds_inv (λ n, persist n fh).
Proof.
  intros s Hs. unfold persist. apply ends_bind, ends_wp, wp_handle_of.
  destruct (fh_map (st_handles s) !! fh) as [[fd|kind fd served [written|]|b|]|] eqn:Hh; try by apply ends_wp.
  apply ends_bind, ends_wp. eapply wp_mono; [by eapply wp_set_handle|]. intros [] s1 (Hs1 & _ & Hh1).
  by eapply ends_persist_pending.
Qed.

#[local] Hint Resolve halts_persist : airgap.

Lemma wp_open_handle rel flags v (s : ST) :
  fds_inv s →
  wp True False (open_handle fs rel flags v)
    (λ r s', match r with
             | Ok h => books fs base (owned h) (st_world s') (fh_map (st_handles s'))
             | Err _ => fds_inv s'
             end) s.
Proof.
  intros Hs. destruct v as [|kind b|b|]; cbn [open_handle]; [| |by apply wp_ret..];
    apply wp_try; (eapply wp_mono; [by apply wp_open|]); intros [fd|e] s1 Hs1; try done;
    by apply wp_ret.
Qed.

Lemma ends_insert_tail {A} h (k : nat → Z → M ST A) (s : ST) :
  books fs base (owned h) (st_world s) (fh_map (st_handles s)) → (∀ fh, halts fds_inv (λ n, k n fh)) →
  ends (λ n, let! fh := handles_insert h in k n fh) (λ _, fds_inv) s.
Proof.
  intros Hs Hk. apply ends_bind, ends_wp. eapply wp_mono; [by apply wp_insert|].
  intros fh s' Hs'. by apply Hk.
Qed.

Lemma halts_open ino flags : halts fds_inv (λ n, open fs n ino flags).
Proof.
  unfold open. apply halts_path; intros rel. apply halts_bind; [apply halts_gate|]. intros ok.
  case_match; [apply halts_ret|]. apply halts_try; [apply halts_view_for|]. intros v s Hs.
  apply ends_try, ends_wp. eapply wp_mono; [by apply wp_open_handle|]. intros [h|e] s1 Hs1; [|done].
  apply ends_insert_tail; [done|]. intros fh. apply halts_ret.
Qed.

Lemma halts_create parent name mode umask flags :
  halts fds_inv (λ n, create fs n parent name mode umask flags).
Proof.
  unfold create. apply halts_path; intros dir. apply halts_bind; [apply halts_gate|]. intros ok.
  case_match; [apply halts_ret|]. intros s Hs. apply ends_try, ends_wp.
  eapply wp_mono; [by apply wp_open|]. intros [fd|e] s1 Hs1; [|done].
  apply ends_bind, ends_wp. unfold wp, intern_path, bind, get, modify, ret.
  destruct (intern (st_inodes s1) (join dir name)) as [t ino].
  apply ends_insert_tail; [|intros fh; halt]. by destruct (create_kind fs name).
Qed.

Lemma halts_get_handle {A} fh (k : nat → option (Handle Fd) → M ST A) :
  (∀ s, fds_inv s → ends (λ n, k n (fh_map (st_handles s) !! fh)) (λ _, fds_inv) s) →
  halts fds_inv (λ n, let! h := handle_of fh in k n h).
Proof. intros Hk s Hs. apply ends_bind, ends_wp, wp_handle_of. by apply Hk. Qed.

Lemma halts_setattr_path ino rel size :
  halts fds_inv (λ n,
    let!? _ := match size with Some sz => truncate_path fs n rel sz | None => ret (Ok tt) end in
    let!? a := attr fs n ino rel in
    ret (Ok (RAttr a))).
Proof. destruct size; halt. Qed.

Lemma halts_setattr ino size fh : halts fds_inv (λ n, setattr fs n ino size fh).
Proof.
  unfold setattr. apply halts_path; intros rel.
  destruct size as [sz|], fh as [fh|];
    [|apply halts_bind; [apply halts_ret|intros h]..];
    [|apply (halts_setattr_path ino rel (Some sz))|apply (halts_setattr_path ino rel None)..].
  apply halts_get_handle. intros s Hs.
  destruct (fh_map (st_handles s) !! fh) as [[fd|kind fd served pending|b|]|] eqn:Hh;
    try exact (halts_setattr_path ino rel (Some sz) s Hs).
  apply ends_bind, ends_wp. unfold vec_resize. case_match; [|done].
  eapply halts_set_handle_tail; [done|done|done|]. halt.
Qed.

Lemma halts_read fh off size : halts fds_inv (λ _, read fh off size).
Proof.
  apply halts_bind; [by apply halts_wp|]. intros [[fd| | |]|]; [|apply halts_ret..].
  apply halts_try; [|intros; apply halts_ret]. apply halts_sys. intros w. by apply (pread_keeps fs).
Qed.

Lemma wp_write_buffer buf off data (Q : bytes → ST → Prop) (s : ST) :
  (∀ b, Q b s) → wp True False (write_buffer buf off data) Q s.
Proof.
  intros HQ. unfold write_buffer, vec_resize. case_match; [done|]. apply wp_bind.
  repeat case_match; first [apply wp_ret; apply HQ|done].
Qed.

Lemma halts_write fh off data : halts fds_inv (λ _, write fh off data).
Proof.
  apply halts_get_handle. intros s Hs.
  destruct (fh_map (st_handles s) !! fh) as [[fd|kind fd served pending|b|]|] eqn:Hh; try by apply ends_wp.
  - apply (halts_try fds_inv (λ _, sys (pwrite fd data (as_i64 off)))); [|intros; apply halts_ret|done].
    apply halts_sys. intros w. by apply (pwrite_keeps fs).
  - apply ends_bind, ends_wp, wp_write_buffer. intros buf.
    eapply halts_set_handle_tail; [done|done|done|]. apply halts_ret.
Qed.

Lemma halts_release fh : halts fds_inv (λ n, release n fh).
Proof. unfold release. halt. Qed.

Lemma halts_collect dir items : halts fds_inv (λ _, collect_entries dir items).
Proof.
  induction items as [|[[raw t]|e] items IH]; cbn [collect_entries]; [apply halts_ret| |done].
  case_match; [done|]. apply halts_bind; [apply halts_intern|]. intros ino.
  apply halts_bind; [done|]. intros; apply halts_ret.
Qed.

Lemma halts_sys_then {A B} (call : W → W * result A Z) (k : nat → A → MR ST B) :
  (∀ w, same_open w (fst (call w))) → (∀ a, halts fds_inv (λ n, k n a)) →
  halts fds_inv (λ n, let!? a := sys call in k n a).
Proof. intros Hc Hk. apply halts_try; [by apply halts_sys|done]. Qed.

Lemma halts_inodes f : halts fds_inv (λ _, modify (λ s : ST, with_inodes (f s) s)).
Proof. by apply halts_modify. Qed.

Lemma halts_remove_entry how parent name : halts fds_inv (λ _, remove_entry fs how parent name).
Proof.
  apply halts_path; intros dir. apply halts_sys_then; [intros w; by apply (unlinkat_keeps fs)|].
  intros a. apply halts_bind; [apply halts_inodes|intros; apply halts_ret].
Qed.

(** Every request ends and leaves the handles' descriptors in order. *)
Lemma halts_dispatch q : halts fds_inv (λ n, dispatch fs n dir_full q).
Proof.
  destruct q; cbn [dispatch].
  - unfold lookup_. halt.
  - unfold getattr. halt.
  - apply halts_setattr.
  - apply halts_path; intros rel. apply halts_sys_then; [intros w; by apply (readlinkat_keeps fs)|].
    intros; apply halts_ret.
  - apply halts_open.
  - apply halts_create.
  - apply halts_read.
  - apply halts_write.
  - unfold flush. halt.
  - unfold fsync. halt.
  - apply halts_release.
  - apply halts_path; intros rel. apply halts_sys_then; [intros w; by apply (read_dir_keeps fs)|].
    intros items. apply halts_bind; [apply halts_collect|intros; apply halts_ret].
  - apply halts_path; intros rel. apply halts_sys_then; [intros w; by apply (mkdirat_keeps fs)|].
    intros; apply halts_entry.
  - apply halts_remove_entry.
  - apply halts_remove_entry.
  - apply halts_path; intros rel. apply halts_path; intros rel'.
    apply halts_sys_then; [intros w; by apply (renameat_keeps fs)|].
    intros a. apply halts_bind; [apply halts_inodes|intros; apply halts_ret].
  - apply halts_path; intros rel. apply halts_sys_then; [intros w; by apply (symlinkat_keeps fs)|].
    intros; apply halts_entry.
  - apply halts_path; intros rel. apply halts_path; intros rel'.
    apply halts_sys_then; [intros w; by apply (linkat_keeps fs)|]. intros; apply halts_entry.
Qed.

Lemma halts_replies qs : halts fds_inv (λ n, replies fs n dir_full qs).
Proof.
  induction qs as [|q qs IH]; cbn [replies]; [apply halts_ret|].
  apply halts_bind; [apply halts_dispatch|]. intros r. apply halts_bind; [done|]. intros; apply halts_ret.
Qed.
End termination.

(** ** The in-memory kernel *)

#[export] Instance mem_os_files (fs : OverlayFs Z) : OsFiles (W := MemW) fs.
Proof.
  assert (∀ w w' : MemW, m_fds w' = m_fds w ∧ m_app w' = m_app w → same_open (Fd := Z) w w') as Hsame
    by (intros w w' [E E'] fd; cbn; unfold mem_open; by rewrite E, E').
  assert (∀ p nd w, same_open (Fd := Z) w (fst (mem_add p nd w))) as Hadd
    by (intros; apply Hsame; unfold mem_add; by case_match).
  assert (∀ w0 w d i fl w' fd, m_fds w = m_fds w0 → m_app w = m_app w0 → mem_new_fd d i fl w = (w', Ok fd) →
    fd ≠ d ∧ fd_file w0 fd = None ∧ is_Some (fd_file w' fd) ∧
    (∀ fd' o, fd_open w0 fd' = Some o → fd_open w' fd' = Some o) ∧
    (∀ fd', is_Some (fd_file w' fd') → fd' = fd ∨ is_Some (fd_file w0 fd'))) as Hnew.
  { intros w0 w d i fl w' fd Efd Eapp E.
    assert (∀ fd', mem_open w0 fd' = mem_open w fd') as Hw0 by (intros fd'; unfold mem_open; by rewrite Efd, Eapp).
    pose proof (mem_new_fd_open _ _ _ _ _ _ E) as (Hf & Hn & Ho). unfold fd_file. cbn.
    split_and!; [|by rewrite Hw0, Hf|by rewrite Hn| |].
    - injection E as _ <-. apply max_above_ne.
    - intros fd' o. rewrite Hw0. by eapply mem_new_fd_kept.
    - intros fd' Hi. destruct (decide (fd' = fd)) as [->|Hne]; [by left|right].
      by rewrite Hw0, <- Ho. }
  split; [intros q fl m w w' r Ho| |intros; try (apply Hsame; cbn; done)..].
  - cbn in Ho. unfold mem_openat in Ho. destruct (mem_resolve 8 w q) as [i|].
    + destruct r as [fd|e]; [|discriminate Ho]. eapply Hnew; [..|exact Ho]; by destruct (_ =? 0).
    + destruct (_ =? 0); [by injection Ho as <- <-; apply Hsame|].
      destruct (m_names w !! components q); [by injection Ho as <- <-; apply Hsame|].
      destruct r as [fd|e]; [|discriminate Ho]. by eapply Hnew; [..|exact Ho].
  - intros fd w fd'. unfold fd_file. cbn. unfold mem_open. cbn.
    destruct (decide (fd' = fd)) as [->|Hne]; [rewrite lookup_delete_eq; by intros [? [=]]|].
    by rewrite lookup_delete_ne.
  - apply Hsame. cbn. unfold mem_pwrite. by repeat case_match.
  - apply Hsame. cbn. unfold mem_ftruncate. by repeat case_match.
  - apply Hadd.
  - apply Hsame. cbn. unfold mem_unlinkat. by repeat case_match.
  - apply Hsame. cbn. unfold mem_renameat. by repeat case_match.
  - apply Hadd.
  - cbn. unfold mem_linkat. case_match; [apply Hadd|by apply Hsame].
Qed.

(** ** Theorems *)

Lemma spec_stats_ok {W Fd} `{OsSpec W Fd} : stats_ok (W := W) (Fd := Fd).
Proof.
  intros d p fl w st Hst. destruct (fstatat d p fl w) as [w' r] eqn:E.
  destruct (fstatat_frame d p fl w w' r E) as (_ & _ & Ho). by apply Ho.
Qed.

Section session.
Context {W Fd G : Type} `{OsSpec W Fd, DirAccess G, Dotenvy, SerdeYaml}.
Context (fs : OverlayFs Fd) (dir_full : list DirEntry → DirEntry → bool).

Lemma no_panic_replies fuel qs :
  forallb request_fits qs = true → no_panic (replies (W := W) (G := G) fs fuel dir_full qs).
Proof.
  induction qs as [|q qs IH]; cbn [replies forallb]; [auto with airgap|]. intros [Hq Hqs]%andb_prop.
  apply no_panic_bind; [apply no_panic_dispatch; [apply spec_stats_ok|done]|].
  intros r. apply no_panic_bind; auto with airgap.
Qed.

Lemma replies_length fuel qs (s s' : St W Fd G) rs :
  replies fs fuel dir_full qs s = Done (rs, s') → length rs = length qs.
Proof.
  revert s s' rs. induction qs as [|q qs IH]; intros s s' rs; cbn [replies]; [by intros [= <- <-]|].
  unfold bind. destruct (dispatch _ _ _ q s) as [[r s1]| |]; [|done..].
  destruct (replies fs fuel dir_full qs s1) as [[rs' s2]| |] eqn:E; [|done..].
  intros [= <- <-]. cbn. by rewrite (IH s1 s2 rs').
Qed.

(** Every session of requests that fit ends, with its books in order. *)
Lemma session_ends `{!OsFiles fs} (w : W) (g : option G) qs :
  forallb request_fits qs = true →
  ∃ n rs s', length rs = length qs ∧
    books fs (λ fd, is_Some (fd_file w fd)) None (st_world s') (fh_map (st_handles s')) ∧
    ∀ k, (n ≤ k)%nat → replies fs k dir_full qs (OverlayFs_new w g) = Done (rs, s').
Proof.
  intros Hq. destruct (halts_replies fs dir_full (λ fd, is_Some (fd_file w fd)) qs (OverlayFs_new w g))
    as (n & o & Ho & Hinv).
  { apply books_empty. }
  pose proof (no_panic_replies n qs Hq (OverlayFs_new w g)) as Hp.
  rewrite Ho in Hp by done. destruct o as [[rs s']| |]; [|done..].
  exists n, rs, s'. split_and!; [|done|done]. by eapply (replies_length n), Ho.
Qed.
End session.

(** C8. Termination, and no leak: over a POSIX kernel, every session of requests
    whose offsets and sizes fit a buffer ends, without a panic, with one reply for
    each request, and from some fuel on the result does not depend on the fuel.
    At the end the open descriptors are exactly those open before the session and
    one of its own for each handle still open. *)
Theorem every_session_ends {W Fd G} `{OsSpec W Fd, DirAccess G, Dotenvy, SerdeYaml}
    (fs : OverlayFs Fd) dir_full (Hfiles : OsFiles fs) (w : W) (g : option G) qs :
  forallb request_fits qs = true →
  ∃ n rs s', length rs = length qs ∧
    books fs (λ fd, is_Some (fd_file w fd)) None (st_world s') (fh_map (st_handles s')) ∧
    ∀ fuel, (n ≤ fuel)%nat → replies fs fuel dir_full qs (OverlayFs_new w g) = Done (rs, s').
Proof. by apply session_ends. Qed.

#[local] Existing Instance LineDotenv.line_dotenv.
#[local] Existing Instance TinyYaml.tiny_yaml.

(** Opening a registry file for writing, editing it and closing it. *)
Definition edit_requests : list Request :=
  [QLookup 1 (lit ".npmrc"); QOpen 2 O_RDWR; QWrite 1 0 (lit "a=b"); QFlush 1; QRelease 1].

Lemma every_session_ends_witness :
  ∃ n rs s', length rs = 5%nat ∧
    books Demo.fs (λ fd, is_Some (fd_file (Demo.world "tok") fd)) None (st_world s') (fh_map (st_handles s')) ∧
    ∀ fuel, (n ≤ fuel)%nat →
      replies Demo.fs fuel Demo.no_limit edit_requests (Demo.init "tok") = Done (rs, s').
Proof.
  apply (every_session_ends Demo.fs Demo.no_limit (mem_os_files Demo.fs) (Demo.world "tok") None edit_requests).
  reflexivity.
Defined.
