(* ===== verification/Secrecy.v ===== *)
(** * Two sessions over kernels that differ in secrets only

    Two kernels that differ only in the contents of files whose redacted views
    agree ([OsLow], and [OsEdit] for the calls that modify) are run side by side.
    Here: the relation between the two states and what keeps it, down to
    attributes and the table of handles; [Editing] has the requests. *)

From S2P Require Import Prelude Utf8 Eff Rel Paths Lexical Access Gate Inodes Redact RedactEnv RedactNpmrc RedactYaml.
From S2P Require Import Os Attr Overlay Handlers Fds OverlayInv OverlaySafety OverlayIo MemOs.

(** ** Specification *)

(** The two contents show the same view under this name, and it is not the file
    itself unless they are equal. *)
Definition indistinct `{Dotenvy, SerdeYaml} (name c1 c2 : bytes) : Prop :=
  c1 = c2 ∨
  view_spec name (take 1024 c1) c1 = view_spec name (take 1024 c2) c2 ∧
  view_spec name (take 1024 c1) c1 ≠ VPassthrough.

(** A [stat] result without what depends on the contents. *)
Definition hide_size (st : FileStat) : FileStat :=
  mkStat (st_mode st) 0 0 (st_nlink st) (st_uid st) (st_gid st) (st_rdev st) (st_blksize st)
    (st_atime st) (st_atime_nsec st) (st_mtime st) (st_mtime_nsec st) (st_ctime st) (st_ctime_nsec st).

(** The handler a name alone selects. *)
Definition named (name : bytes) : option HandlerKind := detect name [].

Section views.
Context `{Dotenvy, SerdeYaml}.

Lemma view_spec_npmrc name prefix c :
  named name = Some Npmrc →
  view_spec name prefix c = match redact_npmrc c with Ok b => VRedacted Npmrc b | Err _ => VFailed end.
Proof.
  unfold view_spec, named, detect. destruct (is_env_file name); [done|].
  destruct (is_npmrc_file name); [done|]. by destruct (is_mitm_config_file name).
Qed.

Lemma view_spec_redacted name prefix c kind b :
  view_spec name prefix c = VRedacted kind b →
  named name = Some kind ∧ (kind = Env ∨ kind = Npmrc).
Proof.
  unfold view_spec, named, detect. destruct (is_env_file name).
  { destruct (redact Env c); [|done]. intros [= <- <-]. auto. }
  destruct (is_npmrc_file name). { destruct (redact Npmrc c); [|done]. intros [= <- <-]. auto. }
  destruct (is_mitm_config_file name); [by destruct (redact_mitm_yaml c)|].
  destruct (existsb _ _); [by destruct (redact_private_key c)|done].
Qed.

(** Registry files that look alike are both text or both not. *)
Lemma indistinct_npmrc name c1 c2 :
  named name = Some Npmrc → indistinct name c1 c2 → (is_Some (from_utf8 c1) ↔ is_Some (from_utf8 c2)).
Proof.
  intros Hn [->|[Hv _]]; [done|]. rewrite !view_spec_npmrc in Hv by done. unfold redact_npmrc in Hv.
  destruct (from_utf8 c1), (from_utf8 c2); try done; split; by intros [? ?].
Qed.

(** Only the handler a name selects matters. *)
Lemma view_spec_named n1 n2 prefix c :
  named n1 = named n2 → view_spec n1 prefix c = view_spec n2 prefix c.
Proof.
  unfold view_spec, named, detect. cbn.
  destruct (is_env_file n1), (is_env_file n2), (is_npmrc_file n1), (is_npmrc_file n2),
    (is_mitm_config_file n1), (is_mitm_config_file n2); done.
Qed.

Lemma indistinct_named n1 n2 c1 c2 : named n1 = named n2 → indistinct n1 c1 c2 → indistinct n2 c1 c2.
Proof.
  intros Hn [->|Hv]; [by left|right]. by rewrite <- !(view_spec_named n1 n2).
Qed.
End views.

Definition plain (fl : Z) : Prop := Z.land fl (Z.lor O_CREAT O_TRUNC) = 0.

Section low.
Context {W Fd : Type} `{OsSpec W Fd, Dotenvy, SerdeYaml}.
Context (fs : OverlayFs Fd).

(** What [fstatat] may answer on a path in two worlds: the same, or results that
    differ in size and blocks, for a regular file whose contents differ. *)
Definition stat_low (w1 w2 : W) (q : path) (r1 r2 : result FileStat Z) : Prop :=
  r1 = r2 ∨
  ∃ st1 st2 f, r1 = Ok st1 ∧ r2 = Ok st2 ∧ resolves w1 (root fs) q f ∧ content w1 f ≠ content w2 f ∧
    Z.land (st_mode st1) S_IFMT = S_IFREG ∧ hide_size st1 = hide_size st2.

(** A relation between worlds that differ only in contents that look alike, and
    on which the kernel behaves alike; reads there fail on no open file and are
    short only at its end, and the calls that read change nothing. *)
Class OsLow (low : W → W → Prop) : Prop := {
  low_sym w1 w2 : low w1 w2 → low w2 w1;
  low_fd w1 w2 fd : low w1 w2 → fd_file w1 fd = fd_file w2 fd;
  low_resolves w1 w2 q f : low w1 w2 → resolves w1 (root fs) q f → resolves w2 (root fs) q f;
  resolves_fun w q f g : resolves w (root fs) q f → resolves w (root fs) q g → f = g;
  low_files w1 w2 rel f :
    low w1 w2 → resolves w1 (root fs) (at_ rel) f →
    indistinct (name_of rel) (content w1 f) (content w2 f);
  low_openat q fl m w1 w2 :
    low w1 w2 → plain fl →
    low (fst (openat (root fs) q fl m w1)) (fst (openat (root fs) q fl m w2)) ∧
    snd (openat (root fs) q fl m w1) = snd (openat (root fs) q fl m w2);
  openat_file q fl m w w' fd :
    plain fl → openat (root fs) q fl m w = (w', Ok fd) → ∃ f, resolves w (root fs) q f;
  low_close fd w1 w2 : low w1 w2 → low (close_fd fd w1) (close_fd fd w2);
  low_readlinkat q w1 w2 :
    low w1 w2 →
    low (fst (readlinkat (root fs) q w1)) (fst (readlinkat (root fs) q w2)) ∧
    snd (readlinkat (root fs) q w1) = snd (readlinkat (root fs) q w2);
  low_read_dir q fl w1 w2 :
    low w1 w2 →
    low (fst (read_dir (root fs) q fl w1)) (fst (read_dir (root fs) q fl w2)) ∧
    snd (read_dir (root fs) q fl w1) = snd (read_dir (root fs) q fl w2);
  low_fstatat q fl w1 w2 :
    low w1 w2 →
    low (fst (fstatat (root fs) q fl w1)) (fst (fstatat (root fs) q fl w2)) ∧
    stat_low w1 w2 q (snd (fstatat (root fs) q fl w1)) (snd (fstatat (root fs) q fl w2));
  low_pread fd n off w1 w2 : low w1 w2 → low (fst (pread fd n off w1)) w2;
  pread_same fd n off w1 w2 f :
    low w1 w2 → fd_file w1 fd = Some f → content w1 f = content w2 f →
    snd (pread fd n off w1) = snd (pread fd n off w2);
  pread_full fd n off w w2 f :
    low w w2 → fd_file w fd = Some f → 0 < n <= 8192 → 0 <= off →
    snd (pread fd n off w) = Ok (take (Z.to_nat n) (drop (Z.to_nat off) (content w f)));
  pread_quiet fd n off w : quiet fs w (fst (pread fd n off w));
  readlinkat_quiet q w : quiet fs w (fst (readlinkat (root fs) q w));
  read_dir_quiet q fl w : quiet fs w (fst (read_dir (root fs) q fl w));
}.

(** ** Calls that modify *)

(** No descriptor is closed or redirected. *)
Definition kept (w w' : W) : Prop := ∀ fd f, fd_file w fd = Some f → fd_file w' fd = Some f.

(** A file whose contents differ after the step is as it was, under names that
    select the same handler as those it had. *)
Definition tame (w1 w2 w1' w2' : W) : Prop := ∀ f,
  content w1' f ≠ content w2' f →
  content w1' f = content w1 f ∧ content w2' f = content w2 f ∧
  ∀ rel, resolves w1' (root fs) (at_ rel) f →
    ∃ rel', resolves w1 (root fs) (at_ rel') f ∧ named (name_of rel') = named (name_of rel).

(** A call the two worlds answer alike, that keeps them related. *)
Definition alike {A} (low : W → W → Prop) (call : W → W * A) (w1 w2 : W) : Prop :=
  low (fst (call w1)) (fst (call w2)) ∧ snd (call w1) = snd (call w2) ∧
  kept w1 (fst (call w1)) ∧ kept w2 (fst (call w2)) ∧
  tame w1 w2 (fst (call w1)) (fst (call w2)).

Lemma tame_trans w1 w2 t1 t2 u1 u2 : tame w1 w2 t1 t2 → tame t1 t2 u1 u2 → tame w1 w2 u1 u2.
Proof.
  intros Ht Hu f Hne. destruct (Hu f Hne) as (E1 & E2 & Hr).
  destruct (Ht f ltac:(by rewrite <- E1, <- E2)) as (E3 & E4 & Hr').
  split_and!; [by rewrite E1|by rewrite E2|]. intros rel (rel' & Hrel' & Hk)%Hr.
  destruct (Hr' rel' Hrel') as (rel'' & ? & ?). exists rel''. split; [done|]. by etrans.
Qed.

(** The world after the buffer is written at the start of an empty file
    ([write_all_at] makes no call for an empty buffer). *)
Definition filled (fd : Fd) (m : bytes) (w : W) : W :=
  match m with [] => w | _ => fst (pwrite fd m 0 w) end.

(** The kernel treats related worlds alike when it modifies them, and a file that
    is replaced under all its names by contents that look alike stays
    indistinguishable.  Once the registry file that is replaced is truncated, its
    new contents are taken by a single write, whole, in both worlds
    ([edit_replace]): a disk that is full tells the length of what it refuses.  The
    worlds may differ in registry credentials, in private keys and in the headers
    of MitM configurations; their [.env] files are equal, and a file they do not
    agree on goes by names of one kind. *)
Class OsEdit (low : W → W → Prop) : Prop := {
  edit_env w1 w2 rel f :
    low w1 w2 → resolves w1 (root fs) (at_ rel) f → named (name_of rel) = Some Env →
    content w1 f = content w2 f;
  edit_named w1 w2 rel rel' f :
    low w1 w2 → resolves w1 (root fs) (at_ rel) f → resolves w1 (root fs) (at_ rel') f →
    content w1 f ≠ content w2 f → named (name_of rel') = named (name_of rel);
  edit_openat q fl m w1 w2 : low w1 w2 → alike low (openat (root fs) q fl m) w1 w2;
  edit_opened q fl m w1 w2 w1' w2' r2 fd :
    low w1 w2 → openat (root fs) q fl m w1 = (w1', Ok fd) → openat (root fs) q fl m w2 = (w2', r2) →
    fd ≠ root fs ∧ fd_file w1 fd = None ∧
    ∃ f, fd_file w1' fd = Some f ∧ resolves w1' (root fs) q f ∧
         (Z.land fl O_TRUNC ≠ 0 → content w1' f = [] ∧ content w2' f = []);
  edit_pwrite fd b off w1 w2 f :
    low w1 w2 → fd_file w1 fd = Some f → content w1 f = content w2 f → alike low (pwrite fd b off) w1 w2;
  edit_ftruncate fd n w1 w2 f :
    low w1 w2 → fd_file w1 fd = Some f → content w1 f = content w2 f → alike low (ftruncate fd n) w1 w2;
  edit_replace fd f m1 m2 w1 w2 t1 t2 r1 r2 :
    low w1 w2 → fd_file w1 fd = Some f →
    (∀ rel, resolves w1 (root fs) (at_ rel) f →
       named (name_of rel) = Some Npmrc ∧ indistinct (name_of rel) m1 m2) →
    ftruncate fd 0 w1 = (t1, r1) → ftruncate fd 0 w2 = (t2, r2) →
    r1 = r2 ∧
    match r1 with
    | Err _ => low t1 t2
    | Ok _ => snd (pwrite fd m1 0 t1) = Ok (Z.of_nat (length m1)) ∧
              snd (pwrite fd m2 0 t2) = Ok (Z.of_nat (length m2)) ∧
              low (filled fd m1 t1) (filled fd m2 t2)
    end;
  edit_mkdirat q m w1 w2 : low w1 w2 → alike low (mkdirat (root fs) q m) w1 w2;
  edit_unlinkat q how w1 w2 : low w1 w2 → alike low (unlinkat (root fs) q how) w1 w2;
  edit_renameat p q w1 w2 :
    low w1 w2 → named (name_of p) = named (name_of q) →
    alike low (renameat (root fs) (at_ p) (root fs) (at_ q)) w1 w2;
}.
End low.

Section secrecy.
Context {W Fd G : Type} `{OsSpec W Fd, DirAccess G, Dotenvy, SerdeYaml}.
Context (fs : OverlayFs Fd) (fuel : nat) (dir_full : list DirEntry → DirEntry → bool).
Context (low : W → W → Prop) `{!OsLow fs low}.
(** Whether the session may edit. *)
Context (edits : Prop) (Hedit : edits → OsEdit fs low).

Abbreviation ST := (St W Fd G).

(** What two worlds have in common of a file an edit is merged into. *)
Definition mergeable (kind : HandlerKind) (w1 w2 : W) (f : Fid) : Prop :=
  content w1 f = content w2 f ∨
  kind = Npmrc ∧ (is_Some (from_utf8 (content w1 f)) ↔ is_Some (from_utf8 (content w2 f))) ∧
  ∀ rel, resolves w1 (root fs) (at_ rel) f → named (name_of rel) = Some Npmrc.

(** What they have in common of the file behind a handle. *)
Definition handle_low (w1 w2 : W) (h : Handle Fd) : Prop :=
  match h with
  | HFile fd => ∃ f, fd_file w1 fd = Some f ∧ content w1 f = content w2 f
  | HRedacted kind fd _ p =>
      (p = None ∨ edits) ∧ (edits → ∃ f, fd_file w1 fd = Some f ∧ mergeable kind w1 w2 f)
  | HKey _ | HFailed => True
  end.

(** States of two sessions no reply tells apart. *)
Record sim (s1 s2 : ST) : Prop := {
  sim_tables : tables s1 = tables s2;
  sim_low : low (st_world s1) (st_world s2);
  sim_fds : fds_ok fs (st_world s1) (fh_map (st_handles s1));
  sim_handles fh h :
    fh_map (st_handles s1) !! fh = Some h → handle_low (st_world s1) (st_world s2) h;
}.

(** ** System calls *)

Lemma tame_content w1 w2 w1' w2' f :
  tame fs w1 w2 w1' w2' → content w1 f = content w2 f → content w1' f = content w2' f.
Proof.
  intros Ht Hc. destruct (decide (content w1' f = content w2' f)) as [?|Hne]; [done|].
  destruct (Ht f Hne) as (E1 & E2 & _). congruence.
Qed.

Lemma mergeable_tame kind w1 w2 w1' w2' f :
  tame fs w1 w2 w1' w2' → mergeable kind w1 w2 f → mergeable kind w1' w2' f.
Proof.
  intros Ht [Hc|(Hk & Hu & Hn)]; [left; by eapply tame_content|].
  destruct (decide (content w1' f = content w2' f)) as [?|Hne]; [by left|right].
  destruct (Ht f Hne) as (-> & -> & Hr). split_and!; [done|done|]. intros rel Hrel.
  destruct (Hr rel Hrel) as (rel' & Hrel' & <-). by apply Hn.
Qed.

Lemma handle_low_tame w1 w2 w1' w2' h :
  tame fs w1 w2 w1' w2' → (∀ fd f, owned h = Some fd → fd_file w1 fd = Some f → fd_file w1' fd = Some f) →
  handle_low w1 w2 h → handle_low w1' w2' h.
Proof.
  intros Ht Hk. destruct h as [fd|kind fd served p|b|]; cbn [handle_low owned] in *; [| |done..].
  - intros (f & Hf & Hc). exists f. split; [by apply Hk|by eapply tame_content].
  - intros [Hp He]. split; [done|]. intros Hed. destruct (He Hed) as (f & Hf & Hm).
    exists f. split; [by apply Hk|by eapply mergeable_tame].
Qed.

Lemma quiet_tame w1 w2 w1' w2' : quiet fs w1 w1' → quiet fs w2 w2' → tame fs w1 w2 w1' w2'.
Proof.
  intros Hq1 Hq2 f _. rewrite (quiet_content _ _ _ f Hq1), (quiet_content _ _ _ f Hq2).
  split_and!; [done|done|]. intros rel Hr. exists rel. split; [by apply (proj2 Hq1)|done].
Qed.

(** Tame calls on both sides keep the states related. *)
Lemma sim_tame s1 s2 s1' s2' :
  sim s1 s2 → low (st_world s1') (st_world s2') → tables s1' = tables s1 → tables s2' = tables s2 →
  kept (st_world s1) (st_world s1') → tame fs (st_world s1) (st_world s2) (st_world s1') (st_world s2') →
  sim s1' s2'.
Proof.
  intros [Ht Hl Hok Hh] Hl' Ht1 Ht2 Hk Hta.
  assert (st_handles s1' = st_handles s1) as E by (by injection Ht1).
  split; [congruence|done|rewrite E; by apply (fds_ok_world fs (st_world s1))|rewrite E].
  intros fh h Hm. eapply handle_low_tame; [done|intros fd f _; apply Hk|by eapply Hh].
Qed.

(** Quiet calls on both sides keep the states related. *)
Lemma sim_quiet s1 s2 s1' s2' :
  sim s1 s2 → low (st_world s1') (st_world s2') → tables s1' = tables s1 → tables s2' = tables s2 →
  quiet fs (st_world s1) (st_world s1') → quiet fs (st_world s2) (st_world s2') → sim s1' s2'.
Proof.
  intros Hs Hl Ht1 Ht2 Hq1 Hq2. eapply sim_tame; [done..| |by apply quiet_tame].
  intros fd f. by apply (quiet_fd fs).
Qed.

(** A call the two worlds answer alike. *)
Lemma rel_alike {A} (call : W → W * A) s1 s2 :
  sim s1 s2 → alike fs low call (st_world s1) (st_world s2) →
  rel (λ a b s1' s2', a = b ∧ sim s1' s2' ∧ tables s1' = tables s1 ∧
         kept (st_world s1) (st_world s1') ∧
         tame fs (st_world s1) (st_world s2) (st_world s1') (st_world s2') ∧
         call (st_world s1) = (st_world s1', a) ∧ call (st_world s2) = (st_world s2', b))
    (sys call) (sys call) s1 s2.
Proof.
  intros Hs (Hl & He & Hk1 & Hk2 & Ht). unfold rel, sys.
  destruct (call (st_world s1)) as [w1 a], (call (st_world s2)) as [w2 b]. cbn in *.
  split_and!; [done| |done..]. by eapply (sim_tame s1 s2).
Qed.

Lemma couple_alike {A} (call : W → W * A) :
  (∀ w1 w2, low w1 w2 → alike fs low call w1 w2) → couple sim (sys call).
Proof.
  intros Ha s1 s2 Hs. eapply rel_mono; [apply rel_alike; [done|by apply Ha, sim_low]|].
  by intros a b s1' s2' (-> & ? & _).
Qed.

(** A call that is quiet and treats related worlds alike, up to [R]. *)
Lemma rel_sys {A} (call : W → W * A) (R : A → A → Prop) s1 s2 :
  sim s1 s2 → (∀ w, quiet fs w (fst (call w))) →
  low (fst (call (st_world s1))) (fst (call (st_world s2))) →
  R (snd (call (st_world s1))) (snd (call (st_world s2))) →
  rel (λ a b s1' s2', R a b ∧ sim s1' s2' ∧ quiet fs (st_world s1) (st_world s1') ∧
                      quiet fs (st_world s2) (st_world s2')) (sys call) (sys call) s1 s2.
Proof.
  intros Hs Hq Hl HR. unfold rel, sys. pose proof (Hq (st_world s1)) as Hq1.
  pose proof (Hq (st_world s2)) as Hq2.
  destruct (call (st_world s1)) as [w1 a], (call (st_world s2)) as [w2 b]. cbn in *.
  split_and!; [done| |done|done]. by eapply sim_quiet.
Qed.

Lemma openat_quiet q fl m w : plain fl → quiet fs w (fst (openat (root fs) q fl m w)).
Proof.
  intros Hp. destruct (openat (root fs) q fl m w) as [w' r] eqn:E.
  destruct (openat_plain _ _ _ _ _ _ _ Hp E) as (Hs & Hr & _). by split.
Qed.

Lemma couple_sys {A} (call : W → W * A) :
  (∀ w, quiet fs w (fst (call w))) →
  (∀ w1 w2, low w1 w2 → low (fst (call w1)) (fst (call w2)) ∧ snd (call w1) = snd (call w2)) →
  couple sim (sys call).
Proof.
  intros Hq Hl s1 s2 Hs. destruct (Hl _ _ (sim_low _ _ Hs)) as [Hl' He].
  eapply rel_mono; [by apply (rel_sys call eq)|]. by intros a b s1' s2' (-> & ? & _).
Qed.

(** Opening: the same descriptor, fresh, on the file the path resolves to. *)
Lemma rel_open rel_ fl mode s1 s2 :
  sim s1 s2 → plain fl →
  rel (λ r1 r2 s1' s2', r1 = r2 ∧ sim s1' s2' ∧
         tables s1' = tables s1 ∧
         quiet fs (st_world s1) (st_world s1') ∧ quiet fs (st_world s2) (st_world s2') ∧
         ∀ fd, r1 = Ok fd → fd ≠ root fs ∧ fd_file (st_world s1) fd = None ∧
           ∃ f, resolves (st_world s1) (root fs) (at_ rel_) f ∧
                fd_file (st_world s1') fd = Some f ∧ fd_file (st_world s2') fd = Some f)
      (open_real fs rel_ fl mode) (open_real fs rel_ fl mode) s1 s2.
Proof.
  intros Hs Hp. unfold open_real.
  destruct (low_openat fs (at_ rel_) fl mode _ _ (sim_low _ _ Hs) Hp) as [Hl He].
  pose proof (rel_sys (openat (root fs) (at_ rel_) fl mode) eq s1 s2 Hs
    (λ w, openat_quiet _ _ _ _ Hp) Hl He) as Hr.
  eapply (rel_wp_l _ (λ r s', openat (root fs) (at_ rel_) fl mode (st_world s1) = (st_world s', r) ∧ tables s' = tables s1));
    [exact Hr|by apply wp_sys|]. cbn beta.
  intros r1 r2 s1' s2' (-> & Hs' & Hq1 & Hq2) [E Ht]. split_and!; [done..|]. intros fd ->.
  destruct (openat_file fs _ _ _ _ _ _ Hp E) as [f Hf].
  destruct (openat_plain_file _ _ _ _ _ _ _ Hp E) as (_ & _ & Ho). destruct (Ho fd eq_refl) as (? & ? & Hfd).
  split_and!; [done|done|]. exists f. specialize (Hfd f Hf). split_and!; [done|done|].
  by rewrite <- (low_fd fs _ _ fd (sim_low _ _ Hs')).
Qed.

(** ** The view *)

(** A change of one side alone that the relation does not see. *)
Definition lower (w w' : W) : Prop := ∀ w2, low w w2 → low w' w2.

Lemma read_loop_low n fd f k (s : ST) w2 :
  low (st_world s) w2 → fd_file (st_world s) fd = Some f →
  (k ≤ length (content (st_world s) f))%nat →
  wp False True (read_loop n fd (take k (content (st_world s) f)) (Z.of_nat k))
    (λ r s', r = Ok (content (st_world s) f) ∧ lower (st_world s) (st_world s') ∧
             quiet fs (st_world s) (st_world s') ∧ tables s' = tables s) s.
Proof.
  revert k s. induction n as [|n IH]; intros k s Hl Hf Hk; [done|]. cbn [read_loop].
  apply wp_try, wp_sys. intros w r E.
  pose proof (pread_full fs fd 8192 (Z.of_nat k) _ _ f Hl Hf ltac:(lia) ltac:(lia)) as Hr.
  assert (lower (st_world s) w) as Hl'
    by (intros w3 Hw3; pose proof (low_pread fs fd 8192 (Z.of_nat k) _ _ Hw3) as Hl'; by rewrite E in Hl').
  pose proof (pread_quiet fs fd 8192 (Z.of_nat k) (st_world s)) as Hq.
  rewrite E in Hr, Hq. cbn [fst snd] in *. subst r. rewrite Nat2Z.id.
  set (c := content (st_world s) f) in *. set (b := take _ (drop k c)).
  assert (length b = Nat.min (Z.to_nat 8192) (length c - k)) as Hb
    by (unfold b; by rewrite length_take, length_drop).
  destruct b as [|x b'] eqn:Eb.
  - apply wp_ret. split_and!; [|done..]. f_equal. apply take_ge. cbn [length] in Hb. lia.
  - rewrite <- Eb at 1. unfold b at 1. rewrite take_take_drop.
    replace (take (k + Z.to_nat 8192) c) with (take (k + length (x :: b')) c)
      by (rewrite Hb; destruct (Nat.min_spec (Z.to_nat 8192) (length c - k)) as [[_ ->]|[? ->]];
          [done|by rewrite !take_ge by lia]).
    rewrite <- Nat2Z.inj_add. pose proof (quiet_content fs _ w f Hq) as Hc. fold c in Hc.
    assert (1 ≤ length (x :: b'))%nat as H1b by (simpl; lia). rewrite <- Hc.
    eapply wp_mono; [apply (IH _ (with_world w s))|].
    + by apply Hl'.
    + by eapply quiet_fd.
    + cbn [st_world with_world]. rewrite Hc, Hb. lia.
    + cbn [st_world with_world]. intros r s' (-> & ? & ? & ?). split_and!; [by rewrite Hc|by intros w3 ?%Hl'; auto|by etrans|done].
Qed.

(** What [view_for] does once the file is open, on one side. *)
Lemma view_kind_low name fd f (s : ST) w2 :
  low (st_world s) w2 → fd_file (st_world s) fd = Some f →
  wp False True
    (let! r := sys (pread fd 1024 0) in
     let prefix := match r with Ok b => b | Err _ => [] end in
     view_of_kind fuel fd (detect name prefix))
    (λ r s', r = Ok (view_spec name (take 1024 (content (st_world s) f)) (content (st_world s) f)) ∧
             lower (st_world s) (st_world s') ∧ quiet fs (st_world s) (st_world s') ∧ tables s' = tables s) s.
Proof.
  intros Hl Hf. apply wp_bind, wp_sys. intros w r E.
  pose proof (pread_full fs fd 1024 0 _ _ f Hl Hf ltac:(lia) ltac:(lia)) as Hr.
  assert (lower (st_world s) w) as Hl'
    by (intros w3 Hw3; pose proof (low_pread fs fd 1024 0 _ _ Hw3) as Hl'; by rewrite E in Hl').
  pose proof (pread_quiet fs fd 1024 0 (st_world s)) as Hq.
  rewrite E in Hr, Hq. cbn [fst snd] in *. subst r. change (Z.to_nat 0) with 0%nat. change (Z.to_nat 1024) with 1024%nat. rewrite drop_0.
  pose proof (quiet_content fs _ w f Hq) as Hc. pose proof (quiet_fd fs _ w fd f Hq Hf) as Hf'.
  unfold view_spec. set (c := content (st_world s) f) in *.
  assert (wp False True (read_all fuel fd)
    (λ r s', r = Ok c ∧ lower (st_world s) (st_world s') ∧ quiet fs (st_world s) (st_world s') ∧ tables s' = tables s)
    (with_world w s)) as Hread.
  { eapply wp_mono; [apply (read_loop_low fuel fd f 0 (with_world w s) w2); cbn [st_world with_world]; rewrite ?Hc; auto; lia|].
    cbn [st_world with_world]. intros r s' (-> & ? & ? & ?). rewrite Hc. split_and!; [done|by intros w3 ?%Hl'; auto|by etrans|done]. }
  destruct (detect name (take 1024 c)) as [[]|]; cbn [view_of_kind];
    [apply wp_try; eapply wp_mono; [exact Hread|]; intros r s' (-> & ? & ? & ?); by apply wp_ret..|].
  by apply wp_ret.
Qed.

(** Closing an owned descriptor that no handle owns. *)
Lemma sim_close fd s1 s2 :
  sim s1 s2 → fd ≠ root fs →
  unowned (fh_map (st_handles s1)) fd →
  rel (λ a b s1' s2', a = b ∧ sim s1' s2' ∧
         (∀ q f, resolves (st_world s1) (root fs) q f ↔ resolves (st_world s1') (root fs) q f) ∧
         (∀ f, content (st_world s1') f = content (st_world s1) f ∧
               content (st_world s2') f = content (st_world s2) f))
    (drop_fd fd) (drop_fd fd) s1 s2.
Proof.
  intros [Ht Hl Hok Hh] Hne Hfree. unfold rel, drop_fd, sys.
  destruct (close_frame fd (st_world s1)) as (_ & Hc1 & Hr1).
  destruct (close_frame fd (st_world s2)) as (_ & Hc2 & Hr2).
  split_and!; [done| |auto|by intros f; rewrite Hc1, Hc2]. split.
  - exact Ht.
  - by apply (low_close fs).
  - by apply fds_ok_close.
  - intros fh h Hm. eapply handle_low_tame; [| |by eapply Hh].
    + intros f _. rewrite Hc1, Hc2. split_and!; [done|done|]. intros rel Hr. exists rel.
      split; [|done]. apply Hr1; [by intros <-|done].
    + intros fd' f Ho. apply close_keeps_file. intros ->. by eapply Hfree.
Qed.

(** A view that can be edited is of a mergeable file. *)
Lemma view_mergeable w1 w2 rel f kind b :
  edits → low w1 w2 → resolves w1 (root fs) (at_ rel) f →
  indistinct (name_of rel) (content w1 f) (content w2 f) →
  view_spec (name_of rel) (take 1024 (content w1 f)) (content w1 f) = VRedacted kind b →
  mergeable kind w1 w2 f.
Proof.
  intros Hed Hl Hr Hi Hv. destruct (decide (content w1 f = content w2 f)) as [?|Hne]; [by left|right].
  destruct (view_spec_redacted _ _ _ _ _ Hv) as [Hn [->| ->]].
  { destruct Hne. by eapply (edit_env fs (OsEdit := Hedit Hed)). }
  split_and!; [done|by eapply indistinct_npmrc|].
  intros rel' Hr'. rewrite <- Hn. by eapply (edit_named fs (OsEdit := Hedit Hed)).
Qed.

(** The view of a path: the same on both sides, and a raw view only of files
    that are equal. *)
Lemma rel_view_for rel_ s1 s2 :
  redact_on fs = true → sim s1 s2 →
  rel (λ r1 r2 s1' s2', r1 = r2 ∧ sim s1' s2' ∧
         (∀ q f, resolves (st_world s1) (root fs) q f ↔ resolves (st_world s1') (root fs) q f) ∧
         (∀ f, content (st_world s1') f = content (st_world s1) f ∧
               content (st_world s2') f = content (st_world s2) f) ∧
         (r1 = Ok VPassthrough → ∀ f, resolves (st_world s1) (root fs) (at_ rel_) f →
            content (st_world s1) f = content (st_world s2) f) ∧
         (∀ kind b, r1 = Ok (VRedacted kind b) → edits → ∀ f, resolves (st_world s1) (root fs) (at_ rel_) f →
            mergeable kind (st_world s1) (st_world s2) f))
    (view_for fs fuel rel_ (name_of rel_)) (view_for fs fuel rel_ (name_of rel_)) s1 s2.
Proof.
  intros Hr Hs. unfold view_for. rewrite Hr. cbn [negb].
  eapply rel_bind; [by apply rel_open|]. cbn beta. intros r1 r2 t1 t2 (-> & Ht & Htt & Hq1 & Hq2 & Hfd).
  destruct r2 as [fd|e]; [|apply rel_ret; split_and!; [done..|apply Hq1| |done|done]].
  2: { intros f. by rewrite (quiet_content _ _ _ f Hq1), (quiet_content _ _ _ f Hq2). }
  destruct (Hfd fd eq_refl) as (Hroot & Hfree & f & Hres & Hf1 & Hf2). unfold owning.
  eapply rel_bind.
  { apply (rel_wp _ _ _ _ _ _ _
      (view_kind_low (name_of rel_) fd f t1 _ (sim_low _ _ Ht) Hf1)
      (view_kind_low (name_of rel_) fd f t2 _ (low_sym fs _ _ (sim_low _ _ Ht)) Hf2)).
    intros v1 v2 u1 u2 H1' H2'. exact (conj H1' H2'). }
  cbn beta. intros v1 v2 u1 u2 [(-> & Hl1 & Hqu1 & Htu1) (-> & Hl2 & Hqu2 & Htu2)].
  assert (sim u1 u2) as Hu.
  { eapply (sim_quiet t1 t2); try done.
    apply (low_sym fs), Hl2, (low_sym fs), Hl1, (sim_low _ _ Ht). }
  assert (content (st_world t1) f = content (st_world s1) f ∧ content (st_world t2) f = content (st_world s2) f)
    as [Hc1 Hc2] by (split; by apply (quiet_content fs)).
  assert (view_spec (name_of rel_) (take 1024 (content (st_world t1) f)) (content (st_world t1) f)
          = view_spec (name_of rel_) (take 1024 (content (st_world t2) f)) (content (st_world t2) f) ∧
          (view_spec (name_of rel_) (take 1024 (content (st_world t2) f)) (content (st_world t2) f) = VPassthrough →
           content (st_world s1) f = content (st_world s2) f) ∧
          (∀ kind b, view_spec (name_of rel_) (take 1024 (content (st_world t2) f)) (content (st_world t2) f) = VRedacted kind b →
           edits → mergeable kind (st_world s1) (st_world s2) f)) as (Hview & Hraw & Hmer).
  { rewrite Hc1, Hc2. pose proof (low_files fs _ _ rel_ f (sim_low _ _ Hs) Hres) as Hi.
    assert (view_spec (name_of rel_) (take 1024 (content (st_world s1) f)) (content (st_world s1) f)
            = view_spec (name_of rel_) (take 1024 (content (st_world s2) f)) (content (st_world s2) f)) as Hview
      by (destruct Hi as [->|[? _]]; done).
    split_and!; [done| |].
    - destruct Hi as [->|[_ Hraw]]; [done|]. rewrite Hview in Hraw. done.
    - rewrite <- Hview. intros kind b Hv Hed. by eapply view_mergeable; [|apply Hs|..]. }
  rewrite Hview. clear Hview.
  eapply rel_bind; [apply (sim_close fd u1 u2 Hu Hroot)|].
  { rewrite Htt in Htu1. injection Htu1 as _ _ ->. by eapply (fresh_unowned fs), Hfree; apply Hs. }
  cbn beta. intros _ _ x1 x2 (_ & Hx & Hrx & Hcx). apply rel_ret. split_and!; [done|done| | | |].
  - intros q g. rewrite <- Hrx, <- (proj2 Hqu1 q g). apply Hq1.
  - intros g. destruct (Hcx g) as [-> ->].
    by rewrite (quiet_content _ _ _ g Hqu1), (quiet_content _ _ _ g Hqu2),
      (quiet_content _ _ _ g Hq1), (quiet_content _ _ _ g Hq2).
  - intros [= Hp] g Hg. rewrite (resolves_fun fs _ _ _ _ Hg Hres). by apply Hraw.
  - intros kind b [= Hv] Hed g Hg. rewrite (resolves_fun fs _ _ _ _ Hg Hres). by eapply Hmer.
Qed.

Lemma couple_view_for rel_ : redact_on fs = true → couple sim (view_for fs fuel rel_ (name_of rel_)).
Proof.
  intros Hr s1 s2 Hs. eapply rel_mono; [by apply rel_view_for|]. by intros a b s1' s2' (-> & ? & _).
Qed.

(** ** Attributes *)

Lemma rel_fstatat rel_ fl s1 s2 :
  sim s1 s2 →
  rel (λ r1 r2 s1' s2', stat_low fs (st_world s1) (st_world s2) (at_ rel_) r1 r2 ∧ sim s1' s2' ∧
         quiet fs (st_world s1) (st_world s1') ∧ quiet fs (st_world s2) (st_world s2'))
    (sys (fstatat (root fs) (at_ rel_) fl)) (sys (fstatat (root fs) (at_ rel_) fl)) s1 s2.
Proof.
  intros Hs. destruct (low_fstatat fs (at_ rel_) fl _ _ (sim_low _ _ Hs)) as [Hl Hst].
  apply (rel_sys _ (stat_low fs (st_world s1) (st_world s2) (at_ rel_))); [done| |done|done].
  intros w. apply fstatat_quiet.
Qed.

Lemma couple_from_stat ino st : couple sim (from_stat (Fd := Fd) (G := G) ino st).
Proof. unfold from_stat. destruct (attr_from_stat ino st); auto with airgap. Qed.

(** Attributes that differ in size and blocks only: the overlay's own size hides it. *)
Definition attr_low (a1 a2 : FileAttr) : Prop :=
  ∀ n k, set_size a1 n = set_size a2 n ∧ set_size (set_kind a1 k) n = set_size (set_kind a2 k) n.

Lemma rel_from_stat_low ino st1 st2 s1 s2 :
  sim s1 s2 → hide_size st1 = hide_size st2 →
  rel (λ a1 a2 s1' s2', attr_low a1 a2 ∧ s1' = s1 ∧ s2' = s2) (from_stat ino st1) (from_stat ino st2) s1 s2.
Proof.
  intros Hs Hst. destruct st1, st2. injection Hst as -> -> -> -> -> -> -> -> -> -> -> ->.
  unfold from_stat, attr_from_stat. cbn.
  do 3 (match goal with |- context [system_time ?a ?b] => destruct (system_time a b); [|done]; cbn end).
  split_and!; [by intros n k|done..].
Qed.

Lemma couple_within rel_ : couple sim (symlink_target_within_overlay fs rel_).
Proof.
  apply couple_bind; [|intros []; auto with airgap].
  apply couple_sys; [intros w; apply (readlinkat_quiet fs (low := low))|by intros; apply (low_readlinkat fs)].
Qed.

Lemma couple_attr_link ino rel_ st : redact_on fs = true → couple sim (attr_link fs fuel ino rel_ st).
Proof.
  intros Hr. apply couple_bind; [apply couple_within|]. intros within.
  apply couple_bind.
  { destruct within; [auto with airgap|]. apply couple_bind; [by apply couple_view_for|auto with airgap]. }
  intros [len|]; [|apply couple_bind; [apply couple_from_stat|auto with airgap]].
  intros s1 s2 Hs. eapply rel_bind; [by apply rel_fstatat|]. cbn beta.
  intros r1 r2 t1 t2 ([->|(st1 & st2 & f & -> & -> & _ & _ & _ & Hst)] & Ht & _).
  - destruct r2 as [st'|e]; [|by apply rel_ret].
    eapply rel_bind; [by apply couple_from_stat|]. intros a1 a2 u1 u2 [-> Hu]. by apply rel_ret.
  - eapply rel_bind; [by apply rel_from_stat_low|]. cbn beta. intros a1 a2 u1 u2 (Ha & -> & ->).
    apply rel_ret. split; [|done]. f_equal. apply Ha.
Qed.

Lemma couple_attr_other ino rel_ st : redact_on fs = true → couple sim (attr_other fs fuel ino rel_ st).
Proof.
  intros Hr. apply couple_bind; [apply couple_from_stat|]. intros a.
  destruct (_ =? S_IFREG); [|auto with airgap].
  apply couple_try; [by apply couple_view_for|auto with airgap].
Qed.

Lemma couple_attr ino rel_ : redact_on fs = true → couple sim (attr fs fuel ino rel_).
Proof.
  intros Hr s1 s2 Hs. unfold attr, stat. eapply rel_bind; [by apply rel_fstatat|]. cbn beta.
  intros r1 r2 t1 t2 ([->|(st1 & st2 & f & -> & -> & Hres & Hne & Hreg & Hst)] & Ht & Hq1 & Hq2).
  { destruct r2 as [st|e]; [|by apply rel_ret].
    destruct (_ =? S_IFLNK); [by apply couple_attr_link|by apply couple_attr_other]. }
  assert (st_mode st2 = st_mode st1) as Hm by (by injection Hst).
  rewrite Hm, Hreg. unfold attr_other. rewrite Hm, Hreg. cbn -[S_IFREG S_IFLNK].
  rewrite (Z.eqb_refl S_IFREG). change (S_IFREG =? S_IFLNK) with false. cbn iota.
  eapply rel_bind; [by apply rel_from_stat_low|]. cbn beta. intros a1 a2 u1 u2 (Ha & -> & ->).
  eapply rel_bind; [by apply rel_view_for|]. cbn beta. intros v1 v2 u1 u2 (-> & Hu & _ & _ & Hraw & _).
  destruct v2 as [v|e]; [|by apply rel_ret]. apply rel_ret. split; [|done]. f_equal.
  destruct v as [|kind b|b|]; [|apply (Ha _ RegularFile)..]. exfalso. apply Hne.
  rewrite <- (quiet_content _ _ _ f Hq1), <- (quiet_content _ _ _ f Hq2). apply Hraw; [done|].
  by apply (proj2 Hq1).
Qed.

(** ** Tables *)

Lemma couple_path {A} ino (k : path → MR ST A) : (∀ p, couple sim (k p)) → couple sim (with_path ino k).
Proof.
  intros Hk. unfold with_path. apply couple_bind; [|intros []; auto with airgap].
  apply (couple_view sim (λ s : ST, by_ino (st_inodes s) !! ino)); [|auto with airgap].
  intros s1 s2 Hs. by injection (sim_tables _ _ Hs) as _ -> _.
Qed.

Lemma couple_intern p : couple sim (intern_path p).
Proof.
  apply (couple_view sim (λ s : ST, st_inodes s) (λ t0, let '(t, ino) := intern t0 p in
    let! _ := modify (with_inodes t) in ret ino)).
  { intros s1 s2 Hs. by injection (sim_tables _ _ Hs). }
  intros t0. destruct (intern t0 p) as [t ino]. intros s1 s2 [Ht Hl Hf Hha]. split; [done|].
  split; try done. injection Ht as Hg _ Hh. unfold tables. cbn. by rewrite Hg, Hh.
Qed.

Lemma couple_gate rel_ a : couple sim (gate_allows fs rel_ a).
Proof.
  apply (couple_view sim (λ s : ST, st_gate s) (λ g, match g with
    | Some gate => let '(gate', ok) := allow gate (join (mount_root fs) rel_) a in
                   let! _ := modify (with_gate (Some gate')) in ret ok
    | None => ret true end)).
  { intros s1 s2 Hs. by injection (sim_tables _ _ Hs). }
  intros [g|]; [|auto with airgap]. destruct (allow g _ a) as [g' ok].
  intros s1 s2 [Ht Hl Hf Hha]. split; [done|].
  split; try done. injection Ht as _ Hi Hh. unfold tables. cbn. by rewrite Hi, Hh.
Qed.

Lemma couple_entry rel_ : redact_on fs = true → couple sim (entry_reply fs fuel rel_).
Proof.
  intros Hr. apply couple_bind; [apply couple_intern|]. intros ino.
  apply couple_try; [by apply couple_attr|auto with airgap].
Qed.

Lemma couple_collect dir items : couple sim (collect_entries (W := W) (Fd := Fd) (G := G) dir items).
Proof.
  induction items as [|[[raw t]|e] items IH]; cbn [collect_entries]; [auto with airgap| |done].
  destruct (_ || _); [done|]. apply couple_bind; [apply couple_intern|]. auto with airgap.
Qed.

(** ** Handles *)

(** The handle, and what [sim] says of it. *)
Lemma rel_handle_of {A} fh (k : option (Handle Fd) → M ST A) s1 s2 :
  sim s1 s2 →
  rel (same sim) (k (fh_map (st_handles s1) !! fh)) (k (fh_map (st_handles s1) !! fh)) s1 s2 →
  rel (same sim) (bind (handle_of fh) k) (bind (handle_of fh) k) s1 s2.
Proof.
  intros Hs Hk. injection (sim_tables _ _ Hs) as _ _ Hh.
  assert (∀ s, bind (handle_of fh) k s = k (fh_map (st_handles s) !! fh) s) as E by done.
  unfold rel in *. by rewrite !E, <- Hh.
Qed.

(** Replacing the table of handles in both states. *)
Lemma sim_with_handles m s1 s2 :
  sim s1 s2 → fds_ok fs (st_world s1) (fh_map m) →
  (∀ fh h, fh_map m !! fh = Some h → handle_low (st_world s1) (st_world s2) h) →
  sim (with_handles m s1) (with_handles m s2).
Proof.
  intros [Ht Hl Hf Hha] Hf' Hh'. split; try done.
  injection Ht as Hg Hi _. unfold tables. cbn. by rewrite Hg, Hi.
Qed.

(** [get_mut]: a handle is replaced by one on the same descriptor. *)
Lemma rel_set_handle fh h h' s1 s2 :
  sim s1 s2 → fh_map (st_handles s1) !! fh = Some h → owned h' = owned h →
  handle_low (st_world s1) (st_world s2) h' →
  rel (λ _ _ s1' s2', sim s1' s2' ∧
                      fh_map (st_handles s1') !! fh = Some h')
    (set_handle fh h') (set_handle fh h') s1 s2.
Proof.
  intros Hs Hh Ho Hlow. unfold rel, set_handle, modify. injection (sim_tables _ _ Hs) as _ _ E.
  rewrite <- E. split; [|cbn; by rewrite lookup_insert_eq].
  apply sim_with_handles; [done|by eapply fds_ok_update; [apply Hs|..]|].
  cbn. intros fh1 h1 [[_ <-]|[_ Hm]]%lookup_insert_Some; [done|by eapply sim_handles].
Qed.

Lemma rel_drop_handle h s1 s2 :
  sim s1 s2 →
  (∀ fd, owned h = Some fd → fd ≠ root fs ∧ unowned (fh_map (st_handles s1)) fd) →
  rel (same sim) (drop_handle h) (drop_handle h) s1 s2.
Proof.
  intros Hs Hfree. destruct h as [fd|kind fd served p|served|]; [| |by apply rel_ret..];
    (destruct (Hfree fd eq_refl) as [Hr Hf];
     eapply rel_mono; [by apply (sim_close fd)|]; by intros a b s1' s2' (-> & ? & _)).
Qed.

Lemma rel_insert h s1 s2 :
  sim s1 s2 →
  may_enter fs (st_world s1) (fh_map (st_handles s1)) h →
  handle_low (st_world s1) (st_world s2) h →
  rel (same sim) (handles_insert h) (handles_insert h) s1 s2.
Proof.
  intros Hs Hfd Hlow. injection (sim_tables _ _ Hs) as _ _ Hh.
  unfold handles_insert.
  set (id := next_fh (st_handles s1)).
  set (m := mkHandles (u64_add id 1) (<[id := h]> (fh_map (st_handles s1)))).
  assert (sim (with_handles m s1) (with_handles m s2)) as Hs'.
  { apply sim_with_handles; [done|apply fds_ok_insert; [apply Hs|done]|].
    cbn. intros fh h' [[_ <-]|[_ Hm]]%lookup_insert_Some; [done|by eapply sim_handles]. }
  assert (rel (same sim) (let! _ := match fh_map (st_handles s1) !! id with
      | Some old => drop_handle old | None => ret tt end in ret id)
     (let! _ := match fh_map (st_handles s1) !! id with
      | Some old => drop_handle old | None => ret tt end in ret id) (with_handles m s1) (with_handles m s2)) as Hd.
  { eapply (rel_bind (same sim)); [|intros ? ? ? ? [_ ?]; by apply rel_ret].
    destruct (fh_map (st_handles s1) !! id) as [old|] eqn:Eo; [|by apply rel_ret].
    apply rel_drop_handle; [done|]. intros fd Ho. by apply (replaced_unowned fs (st_world s1) _ _ _ old), Ho; [apply Hs|..]. }
  change (rel (same sim)
    (λ s : ST, (let! _ := match fh_map (st_handles s) !! next_fh (st_handles s) with
      | Some old => drop_handle old | None => ret tt end in ret (next_fh (st_handles s)))
      (with_handles (mkHandles (u64_add (next_fh (st_handles s)) 1)
         (<[next_fh (st_handles s) := h]> (fh_map (st_handles s)))) s))
    (λ s : ST, (let! _ := match fh_map (st_handles s) !! next_fh (st_handles s) with
      | Some old => drop_handle old | None => ret tt end in ret (next_fh (st_handles s)))
      (with_handles (mkHandles (u64_add (next_fh (st_handles s)) 1)
         (<[next_fh (st_handles s) := h]> (fh_map (st_handles s)))) s)) s1 s2).
  unfold rel in *. by rewrite <- Hh.
Qed.

Lemma couple_remove fh : couple sim (handles_remove fh).
Proof.
  intros s1 s2 Hs. apply rel_handle_of; [done|].
  injection (sim_tables _ _ Hs) as _ _ Hh.
  set (m := mkHandles (next_fh (st_handles s1)) (delete fh (fh_map (st_handles s1)))).
  assert (sim (with_handles m s1) (with_handles m s2)) as Hs'.
  { apply sim_with_handles; [done|apply fds_ok_delete, Hs|].
    cbn. intros fh' h [_ Hm]%lookup_delete_Some. by eapply sim_handles. }
  assert (rel (same sim) (match fh_map (st_handles s1) !! fh with Some h => drop_handle h | None => ret tt end)
    (match fh_map (st_handles s1) !! fh with Some h => drop_handle h | None => ret tt end)
    (with_handles m s1) (with_handles m s2)) as Hd.
  { destruct (fh_map (st_handles s1) !! fh) as [h|] eqn:Eh; [|by apply rel_ret].
    apply rel_drop_handle; [done|]. intros fd Ho. by apply (deleted_unowned fs (st_world s1) _ fh h), Ho; [apply Hs|]. }
  unfold m in Hd. set (k := match fh_map (st_handles s1) !! fh with
    Some h => drop_handle h | None => ret tt end) in *.
  change (rel (same sim)
    (λ s : ST, k (with_handles (mkHandles (next_fh (st_handles s)) (delete fh (fh_map (st_handles s)))) s))
    (λ s : ST, k (with_handles (mkHandles (next_fh (st_handles s)) (delete fh (fh_map (st_handles s)))) s)) s1 s2).
  unfold rel in *. by rewrite <- Hh.
Qed.
End secrecy.
