(* ===== verification/Editing.v ===== *)
(** * Requests answered alike

    The requests of two sessions related by [Secrecy.sim]: those that only read,
    and, over kernels with [Secrecy.OsEdit], those that edit.  What an edit session
    stores differs in the two worlds exactly as their secrets do, and is shown
    alike. *)

From S2P Require Import Prelude Utf8 Eff Rel Paths Lexical Access Gate Inodes Redact RedactNpmrc.
From S2P Require Import Os Attr Overlay Handlers Fds OverlayInv OverlaySafety OverlayIo MemOs Secrecy.

(** The requests that modify no file. *)
Definition read_only (q : Request) : bool :=
  match q with
  | QLookup _ _ | QGetattr _ | QReadlink _ | QRead _ _ _ | QFlush _ | QFsync _ | QRelease _
  | QReaddir _ _ | QSetattr _ None _ => true
  | QOpen _ flags => Z.land flags O_TRUNC =? 0
  | _ => false
  end.

(** The requests that edit without taking a file from one kind of name to
    another: no link is made, a file is renamed to a name of its own kind, and a
    creation under a name without a mergeable handler asks for an empty file.
    Without [O_TRUNC] such a creation opens a file that is already there, a
    private key for one, as it is: it is not one of these requests. *)
Definition edit_only (q : Request) : bool :=
  match q with
  | QSymlink _ _ _ | QLink _ _ _ => false
  | QRename _ name _ newname =>
      is_name name && is_name newname && bool_decide (named name = named newname)
  | QCreate _ name _ _ flags =>
      is_name name && (is_env_file name || is_npmrc_file name || negb (Z.land flags O_TRUNC =? 0))
  | _ => true
  end.

Section editing.
Context {W Fd G : Type} `{OsSpec W Fd, DirAccess G, Dotenvy, SerdeYaml}.
Context (fs : OverlayFs Fd) (fuel : nat) (dir_full : list DirEntry → DirEntry → bool).
Context (low : W → W → Prop) `{!OsLow fs low}.
Context (edits : Prop) (Hedit : edits → OsEdit fs low).

Abbreviation ST := (St W Fd G).
Abbreviation sim := (sim (G := G) fs low edits).
Abbreviation couple := (couple sim).

(** ** Reading and replacing a file *)

Lemma rel_read_all fd f (s1 s2 : ST) :
  sim s1 s2 → fd_file (st_world s1) fd = Some f →
  rel (λ r1 r2 s1' s2',
         r1 = Ok (content (st_world s1) f) ∧ r2 = Ok (content (st_world s2) f) ∧ sim s1' s2' ∧
         tables s1' = tables s1 ∧ quiet fs (st_world s1) (st_world s1') ∧ quiet fs (st_world s2) (st_world s2'))
    (read_all fuel fd) (read_all fuel fd) s1 s2.
Proof.
  intros Hs Hf. pose proof (sim_low _ _ _ _ _ Hs) as Hl.
  assert (fd_file (st_world s2) fd = Some f) as Hf2 by (by rewrite <- (low_fd fs _ _ fd Hl)).
  apply (rel_wp _ _ _ _ _ _ _ (read_loop_low fs low fuel fd f 0 s1 _ Hl Hf ltac:(lia))
    (read_loop_low fs low fuel fd f 0 s2 _ (low_sym fs _ _ Hl) Hf2 ltac:(lia))).
  intros r1 r2 u1 u2 (-> & Hl1 & Hq1 & Ht1) (-> & Hl2 & Hq2 & Ht2).
  split_and!; try done. eapply (sim_quiet fs low edits s1 s2); try done.
  apply (low_sym fs), Hl2, (low_sym fs), Hl1, Hl.
Qed.

(** Writing the same bytes to a file both worlds agree on. *)
Lemma rel_write_loop n fd f data k (s1 s2 : ST) :
  edits → sim s1 s2 → fd_file (st_world s1) fd = Some f →
  content (st_world s1) f = content (st_world s2) f →
  rel (λ r1 r2 s1' s2', r1 = r2 ∧ sim s1' s2' ∧ tables s1' = tables s1)
    (write_loop n fd data k) (write_loop n fd data k) s1 s2.
Proof.
  intros Hed. revert k s1 s2. induction n as [|n IH]; intros k s1 s2 Hs Hf Hc; cbn [write_loop];
    (case_match; [by apply rel_ret|]); [done|].
  eapply rel_bind; [apply rel_alike; [done|]|].
  { apply (edit_pwrite fs (OsEdit := Hedit Hed) _ _ _ _ _ f); [apply Hs|done..]. }
  cbn beta. intros r1 r2 u1 u2 (-> & Hu & Ht & Hk & Hta & _). destruct r2 as [m|e]; [|by apply rel_ret].
  case_match; [by apply rel_ret|].
  eapply rel_mono; [apply IH; [done|by apply Hk|by eapply tame_content]|].
  cbn beta. intros a b x1 x2 (? & ? & ?). split_and!; [done|done|congruence].
Qed.

(** A write that the disk takes whole. *)
Lemma write_loop_full n fd m (s : ST) :
  snd (pwrite fd m 0 (st_world s)) = Ok (Z.of_nat (length m)) →
  write_loop n fd m 0 s = OutOfFuel ∨
  write_loop n fd m 0 s = Done (Ok tt, with_world (filled fd m (st_world s)) s).
Proof.
  intros Hw. destruct m as [|x m]; [right; destruct n, s; reflexivity|].
  destruct n as [|n]; [by left|right]. cbn [write_loop].
  destruct (Z.leb_spec (Z.of_nat (length (x :: m))) 0) as [Hx|_]; [by rewrite length_cons in Hx; lia|].
  change (drop (Z.to_nat 0) (x :: m)) with (x :: m).
  unfold try_bind, bind, sys, filled. destruct (pwrite fd (x :: m) 0 (st_world s)) as [w r]. cbn in Hw. subst r.
  cbn [fst]. destruct (Z.eqb_spec (Z.of_nat (length (x :: m))) 0) as [Hx|_]; [by rewrite length_cons in Hx; lia|].
  destruct n; cbn [write_loop]; by rewrite Z.leb_refl.
Qed.

Lemma filled_spec fd f m (w : W) :
  fd_file w fd = Some f → content w f = [] → snd (pwrite fd m 0 w) = Ok (Z.of_nat (length m)) →
  only_file fs f w (filled fd m w) ∧ content (filled fd m w) f = m.
Proof.
  intros [a Hf]%fd_file_open Hc Hw. unfold filled. destruct m as [|x m]; [done|].
  destruct (pwrite fd (x :: m) 0 w) as [w' r] eqn:E. cbn in Hw |- *. subst r.
  destruct (pwrite_writes fd (x :: m) 0 _ _ _ f a Hf (Z.le_refl 0) E) as (Hk & Ho & Hr & _ & _ & ->).
  split; [split_and!; [done|done|intros q g; apply Hr]|].
  rewrite Hc, Nat2Z.id, (take_ge (x :: m)) by done.
  assert (write_at a [] (Z.to_nat 0) = 0%nat) as -> by by destruct a.
  unfold written, overwrite. cbn. by rewrite app_nil_r.
Qed.

Lemma truncated_spec fd f (w w' : W) r :
  fd_file w fd = Some f → ftruncate fd 0 w = (w', r) →
  only_file fs f w w' ∧ content w' f = match r with Ok _ => [] | Err _ => content w f end.
Proof.
  intros Hf E. destruct (ftruncate_file fd 0 _ _ _ f Hf (Z.le_refl 0) E) as (Hk & Ho & Hr & Hc).
  split; [split_and!; [done|done|intros q g; apply Hr]|]. destruct r; [|done]. by rewrite Hc.
Qed.

(** The worlds of both states moved, in one file they do not agree on: its new
    contents are registry text again. *)
Lemma sim_replaced f w1 w2 (s1 s2 : ST) :
  sim s1 s2 → low w1 w2 → only_file fs f (st_world s1) w1 → only_file fs f (st_world s2) w2 →
  content (st_world s1) f ≠ content (st_world s2) f →
  (is_Some (from_utf8 (content w1 f)) ↔ is_Some (from_utf8 (content w2 f))) →
  sim (with_world w1 s1) (with_world w2 s2).
Proof.
  intros [Ht Hl Hok Hh] Hl' (Hk1 & Ho1 & Hr1) (Hk2 & Ho2 & Hr2) Hne Hu.
  assert (kept (st_world s1) w1) as Hkeep by (intros fd g; apply fd_file_kept, Hk1).
  split; [done|done| |].
  { by apply (fds_ok_world fs (st_world s1)). }
  intros fh h Hm. specialize (Hh fh h Hm). destruct h as [fd|kind fd served p|b|]; cbn [handle_low] in *; [| |done..].
  - destruct Hh as (g & Hg & Hc). exists g. split; [by apply Hkeep|].
    assert (g ≠ f) by (intros ->; done). cbn. by rewrite Ho1, Ho2.
  - destruct Hh as [Hp He]. split; [done|]. intros Hed. destruct (He Hed) as (g & Hg & Hmer). exists g.
    split; [by apply Hkeep|]. destruct Hmer as [Hc|(Hkd & Hv & Hn)].
    + left. assert (g ≠ f) by (intros ->; done). cbn. by rewrite Ho1, Ho2.
    + right. split_and!; [done| |intros rel Hrel; by apply Hn, Hr1]. cbn.
      destruct (decide (is_Some (from_utf8 (content w1 g)) ↔ is_Some (from_utf8 (content w2 g)))) as [?|Hng]; [done|].
      assert (g ≠ f) as Hgf by (intros ->; done). by rewrite Ho1, Ho2.
Qed.

(** ** Saving *)

(** Truncating and writing a file both worlds agree on. *)
Lemma rel_store_same fd f data fh h h' (s1 s2 : ST) :
  edits → sim s1 s2 → fh_map (st_handles s1) !! fh = Some h → owned h = Some fd → owned h' = Some fd →
  (∀ u1 u2, sim u1 u2 → handle_low fs edits (st_world u1) (st_world u2) h →
            handle_low fs edits (st_world u1) (st_world u2) h') →
  fd_file (st_world s1) fd = Some f → content (st_world s1) f = content (st_world s2) f →
  let m := let!? _ := sys (ftruncate fd 0) in
           let!? _ := write_all_at fuel fd data in
           let! _ := set_handle fh h' in ret (Ok tt) in
  rel (same sim) m m s1 s2.
Proof.
  intros Hed Hs Hh Ho Ho' Hlow Hf Hc m. unfold m.
  eapply rel_bind; [apply rel_alike; [done|]|].
  { apply (edit_ftruncate fs (OsEdit := Hedit Hed) _ _ _ _ f); [apply Hs|done..]. }
  cbn beta. intros r1 r2 u1 u2 (-> & Hu & Ht & Hk & Hta & _). destruct r2 as [[]|e]; [|by apply rel_ret].
  eapply rel_bind; [apply (rel_write_loop fuel fd f data 0); [done|done|by apply Hk|by eapply tame_content]|].
  cbn beta. intros r1 r2 x1 x2 (-> & Hx & Ht'). destruct r2 as [[]|e]; [|by apply rel_ret].
  assert (fh_map (st_handles x1) !! fh = Some h) as Hhx by (injection Ht as _ _ E; injection Ht' as _ _ E'; congruence).
  eapply rel_bind; [eapply (rel_set_handle fs low edits _ h h'); [done|done|congruence|]|].
  - apply Hlow; [done|]. by eapply (sim_handles _ _ _ _ _ Hx).
  - intros [] [] y1 y2 [Hy _]. by apply rel_ret.
Qed.

(** Replacing a registry file the worlds do not agree on by two texts that are
    shown alike. *)
Lemma rel_store_npmrc fd f fh served v m1 m2 (s1 s2 : ST) :
  edits → sim s1 s2 → fh_map (st_handles s1) !! fh = Some (HRedacted Npmrc fd served None) →
  fd_file (st_world s1) fd = Some f → content (st_world s1) f ≠ content (st_world s2) f →
  (∀ rel, resolves (st_world s1) (root fs) (at_ rel) f → named (name_of rel) = Some Npmrc) →
  redact_npmrc m1 = Ok v → redact_npmrc m2 = Ok v →
  let m data := let!? _ := sys (ftruncate fd 0) in
                let!? _ := write_all_at fuel fd data in
                let! _ := set_handle fh (HRedacted Npmrc fd v None) in ret (Ok tt) in
  rel (same sim) (m m1) (m m2) s1 s2.
Proof.
  intros Hed Hs Hh Hf Hne Hn Hm1 Hm2 m.
  assert (fd_file (st_world s2) fd = Some f) as Hf2 by (by rewrite <- (low_fd fs _ _ fd (sim_low _ _ _ _ _ Hs))).
  destruct (ftruncate fd 0 (st_world s1)) as [t1 r1] eqn:E1, (ftruncate fd 0 (st_world s2)) as [t2 r2] eqn:E2.
  destruct (truncated_spec fd f _ t1 r1 Hf E1) as [Ho1 Hc1], (truncated_spec fd f _ t2 r2 Hf2 E2) as [Ho2 Hc2].
  destruct (edit_replace fs (OsEdit := Hedit Hed) fd f m1 m2 _ _ t1 t2 r1 r2 (sim_low _ _ _ _ _ Hs) Hf) as [<- Hw]; [|done..|].
  { intros rel Hr. split; [by apply Hn|right]. rewrite !view_spec_npmrc, Hm1, Hm2 by by apply Hn. done. }
  destruct (redact_npmrc_Ok _ _ Hm1) as [x1 Hx1], (redact_npmrc_Ok _ _ Hm2) as [x2 Hx2].
  unfold m, rel, try_bind, bind, sys. rewrite E1, E2. destruct r1 as [[]|e].
  2: { split; [done|]. apply (sim_replaced f); [done..|]. rewrite Hc1, Hc2.
       destruct (sim_handles _ _ _ _ _ Hs _ _ Hh) as [_ He]. destruct (He Hed) as (g & Hg & Hmer).
       rewrite Hf in Hg. injection Hg as <-. by destruct Hmer as [?|(_ & ? & _)]. }
  destruct Hw as (Hw1 & Hw2 & Hl).
  destruct (filled_spec fd f m1 t1) as [Hof1 Hcf1]; [by eapply (only_file_fd fs)|done|done|].
  destruct (filled_spec fd f m2 t2) as [Hof2 Hcf2]; [by eapply (only_file_fd fs)|done|done|].
  assert (sim (with_world (filled fd m1 t1) s1) (with_world (filled fd m2 t2) s2)) as Hs'.
  { apply (sim_replaced f); [done|done|by etrans|by etrans|done|]. rewrite Hcf1, Hcf2, Hx1, Hx2. split; by eexists. }
  unfold write_all_at.
  destruct (write_loop_full fuel fd m1 (with_world t1 s1) Hw1) as [->| ->]; [done|].
  destruct (write_loop_full fuel fd m2 (with_world t2 s2) Hw2) as [->| ->]; [done|].
  pose proof (rel_set_handle fs low edits fh (HRedacted Npmrc fd served None) (HRedacted Npmrc fd v None) _ _ Hs' Hh eq_refl) as Hset.
  unfold rel, set_handle, modify, ret in Hset |- *. split; [done|]. apply Hset.
  destruct (sim_handles _ _ _ _ _ Hs' fh _ Hh) as [_ He]. split; [by left|done].
Qed.

Lemma rel_persist_pending fh kind fd served written (s1 s2 : ST) :
  edits → sim s1 s2 → fh_map (st_handles s1) !! fh = Some (HRedacted kind fd served None) →
  rel (same sim) (persist_pending fuel fh kind fd written) (persist_pending fuel fh kind fd written) s1 s2.
Proof.
  intros Hed Hs Hh. destruct (sim_handles _ _ _ _ _ Hs _ _ Hh) as [_ He]. destruct (He Hed) as (f & Hf & Hmer).
  eapply rel_bind; [by eapply rel_read_all|]. cbn beta. intros r1 r2 u1 u2 (-> & -> & Hu & Ht & Hq1 & Hq2).
  assert (fh_map (st_handles u1) !! fh = Some (HRedacted kind fd served None)) as Hhu by (injection Ht as _ _ E; congruence).
  assert (fd_file (st_world u1) fd = Some f) as Hfu by by eapply (quiet_fd fs).
  pose proof (quiet_content _ _ _ f Hq1) as Hc1. pose proof (quiet_content _ _ _ f Hq2) as Hc2.
  destruct (decide (content (st_world s1) f = content (st_world s2) f)) as [Hc|Hne].
  - rewrite <- Hc. destruct (merge kind _ written) as [merged|e]; [|by apply rel_ret].
    destruct (redact kind merged) as [view|e]; [|by apply rel_ret].
    eapply (rel_store_same fd f); try done. by rewrite Hc1, Hc2.
  - destruct Hmer as [?|(-> & Hu8 & Hn)]; [done|]. cbn [merge redact].
    pose proof (merge_npmrc_alike _ _ written Hu8) as Hm.
    destruct (merge_npmrc (content (st_world s1) f) written) as [m1|e1],
      (merge_npmrc (content (st_world s2) f) written) as [m2|e2]; [|done|done|by apply rel_ret].
    destruct Hm as (v & Hm1 & Hm2). rewrite Hm1, Hm2.
    apply (rel_store_npmrc fd f fh served v m1 m2); try done; [by rewrite Hc1, Hc2|].
    intros rel Hr. apply Hn. by apply (proj2 Hq1).
Qed.

Lemma couple_persist fh : couple (persist fuel fh).
Proof.
  intros s1 s2 Hs. apply rel_handle_of; [done|].
  destruct (fh_map (st_handles s1) !! fh) as [[| kind fd served [written|] | |]|] eqn:Eh; try by apply rel_ret.
  destruct (sim_handles _ _ _ _ _ Hs _ _ Eh) as [[?|Hed] He]; [done|].
  eapply rel_bind; [by eapply (rel_set_handle fs low edits); [..|split; [left|]]|].
  intros [] [] u1 u2 [Hu Hh]. by eapply rel_persist_pending.
Qed.

(** ** Opening *)

Lemma plain_passthrough flags : Z.land flags O_TRUNC = 0 → plain (passthrough_oflag flags).
Proof.
  intros Ht. unfold plain, passthrough_oflag. rewrite Ht.
  destruct (_ =? O_WRONLY); [|destruct (_ =? O_RDWR)]; destruct (Z.land flags O_APPEND =? 0); reflexivity.
Qed.

Lemma truncating_passthrough flags :
  Z.land flags O_TRUNC ≠ 0 → Z.land (passthrough_oflag flags) O_TRUNC ≠ 0.
Proof.
  intros Ht. unfold passthrough_oflag. destruct (Z.eqb_spec (Z.land flags O_TRUNC) 0) as [?|_]; [done|].
  destruct (_ =? O_WRONLY); [|destruct (_ =? O_RDWR)]; destruct (Z.land flags O_APPEND =? 0); done.
Qed.

(** A descriptor just opened, in a handle both worlds agree on. *)
Lemma rel_insert_opened fd h (s1 s2 : ST) :
  sim s1 s2 → owned h = Some fd → fd ≠ root fs → is_Some (fd_file (st_world s1) fd) →
  unowned (fh_map (st_handles s1)) fd → handle_low fs edits (st_world s1) (st_world s2) h →
  rel (same sim) (handles_insert h) (handles_insert h) s1 s2.
Proof.
  intros Hs Ho Hr Hf Hu Hl. apply (rel_insert fs low edits); [done| |done].
  intros fd' Ho'. rewrite Ho in Ho'. by injection Ho' as <-.
Qed.

(** Opening a descriptor for a new handle, which can then be inserted. *)
Definition insertable (r1 r2 : result (Handle Fd) Z) (s1 s2 : ST) : Prop :=
  r1 = r2 ∧ sim s1 s2 ∧ ∀ h, r1 = Ok h → rel (same sim) (handles_insert h) (handles_insert h) s1 s2.

Lemma rel_open_plain rel_ fl (mk : Fd → Handle Fd) (s1 s2 : ST) :
  sim s1 s2 → plain fl → (∀ fd, owned (mk fd) = Some fd) →
  (∀ fd f w1 w2, resolves (st_world s1) (root fs) (at_ rel_) f → fd_file w1 fd = Some f →
     quiet fs (st_world s1) w1 → quiet fs (st_world s2) w2 → handle_low fs edits w1 w2 (mk fd)) →
  rel insertable
    (let!? fd := open_real fs rel_ fl 0 in ret (Ok (mk fd)))
    (let!? fd := open_real fs rel_ fl 0 in ret (Ok (mk fd))) s1 s2.
Proof.
  intros Hs Hpl Hown Hlow. eapply rel_bind; [by apply rel_open|]. cbn beta.
  intros r1 r2 u1 u2 (-> & Hu & Htt & Hq1 & Hq2 & Hfd). destruct r2 as [fd|e]; [|by apply rel_ret].
  destruct (Hfd fd eq_refl) as (Hroot & Hfree & f & Hf & Hf1 & Hf2).
  apply rel_ret. split_and!; [done|done|]. intros h [= <-]. injection Htt as _ _ Hhu.
  apply (rel_insert_opened fd); [done|done|done|by exists f| |by eapply Hlow].
  rewrite Hhu. by eapply (fresh_unowned fs), Hfree; apply Hs.
Qed.

(** Opening with any flags. *)
Lemma rel_open_edit rel_ fl mode (s1 s2 : ST) :
  edits → sim s1 s2 →
  rel (λ r1 r2 u1 u2, r1 = r2 ∧ sim u1 u2 ∧
         ∀ fd, r1 = Ok fd → fd ≠ root fs ∧ unowned (fh_map (st_handles u1)) fd ∧
           ∃ f, fd_file (st_world u1) fd = Some f ∧ resolves (st_world u1) (root fs) (at_ rel_) f ∧
                (Z.land fl O_TRUNC ≠ 0 → content (st_world u1) f = content (st_world u2) f))
    (open_real fs rel_ fl mode) (open_real fs rel_ fl mode) s1 s2.
Proof.
  intros Hed Hs. unfold open_real. pose proof (sim_low _ _ _ _ _ Hs) as Hl.
  eapply rel_mono; [apply rel_alike; [done|by apply (edit_openat fs (OsEdit := Hedit Hed))]|]. cbn beta.
  intros r1 r2 u1 u2 (-> & Hu & Ht & _ & _ & E1 & E2). split_and!; [done|done|]. intros fd ->.
  destruct (edit_opened fs (OsEdit := Hedit Hed) _ _ _ _ _ _ _ _ _ Hl E1 E2) as (Hr & Hn & f & Hf & Hres & Htr).
  split_and!; [done| |exists f; split_and!; [done|done|]].
  - injection Ht as _ _ ->. by eapply (fresh_unowned fs), Hn; apply Hs.
  - intros Hfl. by destruct (Htr Hfl) as [-> ->].
Qed.

Lemma rel_open_handle rel_ flags v (s1 s2 : ST) :
  (Z.land flags O_TRUNC = 0 ∨ edits) → sim s1 s2 →
  (v = VPassthrough → ∀ f, resolves (st_world s1) (root fs) (at_ rel_) f →
     content (st_world s1) f = content (st_world s2) f) →
  (∀ kind b, v = VRedacted kind b → edits → ∀ f, resolves (st_world s1) (root fs) (at_ rel_) f →
     mergeable fs kind (st_world s1) (st_world s2) f) →
  rel insertable (open_handle fs rel_ flags v) (open_handle fs rel_ flags v) s1 s2.
Proof.
  intros Hfl Hs Hraw Hmer. destruct v as [|kind served|served|]; cbn [open_handle].
  - destruct (decide (Z.land flags O_TRUNC = 0)) as [Ht|Ht].
    + apply rel_open_plain; [done|by apply plain_passthrough|done|].
      intros fd f w1 w2 Hr Hf Hq1 Hq2. exists f. split; [done|].
      rewrite (quiet_content _ _ _ f Hq1), (quiet_content _ _ _ f Hq2). by apply Hraw.
    + destruct Hfl as [?|Hed]; [done|]. eapply rel_bind; [by apply rel_open_edit|]. cbn beta.
      intros r1 r2 u1 u2 (-> & Hu & Hfd). destruct r2 as [fd|e]; [|by apply rel_ret].
      destruct (Hfd fd eq_refl) as (Hroot & Hun & f & Hf & _ & Hc).
      apply rel_ret. split_and!; [done|done|]. intros h [= <-].
      apply (rel_insert_opened fd); [done|done|done|by exists f|done|].
      exists f. split; [done|]. by apply Hc, truncating_passthrough.
  - apply (rel_open_plain rel_ _ (λ fd, HRedacted kind fd served
      (if negb (Z.land flags O_TRUNC =? 0) then Some [] else None))); [done|done|done|].
    intros fd f w1 w2 Hr Hf Hq1 Hq2. split.
    + destruct (Z.eqb_spec (Z.land flags O_TRUNC) 0) as [?|Ht]; [by left|right]. by destruct Hfl.
    + intros Hed. exists f. split; [done|]. eapply mergeable_tame; [by apply quiet_tame|]. by eapply Hmer.
  - apply rel_ret. split_and!; [done..|]. intros h [= <-]. by apply (rel_insert fs low edits).
  - apply rel_ret. split_and!; [done..|]. intros h [= <-]. by apply (rel_insert fs low edits).
Qed.

Lemma couple_open ino flags :
  redact_on fs = true → (Z.land flags O_TRUNC = 0 ∨ edits) → couple (open fs fuel ino flags).
Proof.
  intros Hr Ht. apply couple_path. intros rel_. apply couple_bind; [apply couple_gate|].
  intros ok. destruct (negb ok); [auto with airgap|]. intros s1 s2 Hs.
  eapply rel_bind; [by apply rel_view_for|]. cbn beta. intros v1 v2 t1 t2 (-> & Ht' & Hres & Hc & Hraw & Hmer).
  destruct v2 as [v|e]; [|by apply rel_ret].
  eapply rel_bind; [apply rel_open_handle; [done|done|..]|].
  - intros -> f Hf. rewrite (proj1 (Hc f)), (proj2 (Hc f)). apply Hraw; [done|]. by apply Hres.
  - intros kind b -> Hed f Hf. eapply mergeable_tame; [|by eapply Hmer, Hres].
    intros g _. rewrite (proj1 (Hc g)), (proj2 (Hc g)). split_and!; [done|done|].
    intros rel Hrel. exists rel. split; [by apply Hres|done].
  - intros r1 r2 u1 u2 (-> & Hu & Hi). destruct r2 as [h|e]; [|by apply rel_ret].
    eapply rel_bind; [by apply Hi|]. intros a b x1 x2 [-> ?]. by apply rel_ret.
Qed.

(** ** The other requests *)

Lemma couple_read fh off size : couple (read (Fd := Fd) (G := G) fh off size).
Proof.
  intros s1 s2 Hs. apply rel_handle_of; [done|].
  destruct (fh_map (st_handles s1) !! fh) as [[fd| | |]|] eqn:Eh; try by apply rel_ret.
  destruct (sim_handles _ _ _ _ _ Hs _ _ Eh) as (f & Hfd & Hc). pose proof (sim_low _ _ _ _ _ Hs) as Hl.
  eapply rel_bind.
  - apply (rel_sys fs low edits (pread fd size (as_i64 off)) eq); [done| | |by apply (pread_same fs fd size (as_i64 off) _ _ f Hl)].
    + intros w. apply (pread_quiet fs (low := low)).
    + by apply (low_pread fs), (low_sym fs), (low_pread fs), (low_sym fs).
  - cbn beta. intros [b|e] b' s1' s2' (<- & ? & _); by apply rel_ret.
Qed.

Lemma stateless_vec_resize n v : stateless (vec_resize (S := ST) n v).
Proof. unfold stateless, vec_resize. case_match; [left; by eexists|by right]. Qed.

Lemma stateless_write_buffer buf off data : stateless (write_buffer (S := ST) buf off data).
Proof.
  unfold stateless, write_buffer, vec_resize. case_match; [by right|].
  unfold bind. case_match; [case_match; [|by right]|]; left; by eexists.
Qed.

(** The child's buffer of a handle becomes the result of [m]. *)
Lemma rel_pend {A} fh kind fd served pending (m : M ST bytes) (k : bytes → M ST A) (s1 s2 : ST) :
  edits → sim s1 s2 → fh_map (st_handles s1) !! fh = Some (HRedacted kind fd served pending) →
  stateless m → (∀ b, couple (k b)) →
  let mk := let! buf := m in let! _ := set_handle fh (HRedacted kind fd served (Some buf)) in k buf in
  rel (same sim) mk mk s1 s2.
Proof.
  intros Hed Hs Hh Hm Hk. apply rel_stateless; [done|]. intros buf.
  destruct (sim_handles _ _ _ _ _ Hs _ _ Hh) as [_ He].
  eapply rel_bind; [eapply (rel_set_handle fs low edits); [done|done|done|split; [by right|done]]|].
  intros [] [] u1 u2 [Hu _]. by apply Hk.
Qed.

Lemma couple_write fh off data : edits → couple (write (Fd := Fd) (G := G) fh off data).
Proof.
  intros Hed s1 s2 Hs. apply rel_handle_of; [done|].
  destruct (fh_map (st_handles s1) !! fh) as [[fd|kind fd served p| |]|] eqn:Eh; try by apply rel_ret.
  - destruct (sim_handles _ _ _ _ _ Hs _ _ Eh) as (f & Hf & Hc).
    eapply rel_bind; [apply rel_alike; [done|]|].
    { apply (edit_pwrite fs (OsEdit := Hedit Hed) _ _ _ _ _ f); [apply Hs|done..]. }
    cbn beta. intros [n|e] r2 u1 u2 (<- & Hu & _); by apply rel_ret.
  - apply (rel_pend fh kind fd served p (write_buffer (default served p) off data)
      (λ _, ret (Ok (RWritten (as_u32 (Z.of_nat (length data)))))) s1 s2 Hed Hs Eh); [|auto with airgap].
    apply stateless_write_buffer.
Qed.

(** The attributes shown for a file whose size the overlay sets itself. *)
Lemma couple_stat_sized ino rel_ n :
  couple (let!? st := stat fs rel_ in let! a := from_stat ino st in ret (Ok (RAttr (set_size a n)))).
Proof.
  intros s1 s2 Hs. unfold stat. eapply rel_bind; [by apply rel_fstatat|]. cbn beta.
  intros r1 r2 t1 t2 ([->|(st1 & st2 & f & -> & -> & _ & _ & _ & Hst)] & Ht & _).
  - destruct r2 as [st|e]; [|by apply rel_ret].
    eapply rel_bind; [by apply couple_from_stat|]. intros a1 a2 u1 u2 [-> Hu]. by apply rel_ret.
  - eapply rel_bind; [by eapply rel_from_stat_low|]. cbn beta. intros a1 a2 u1 u2 (Ha & -> & ->).
    apply rel_ret. split; [|done]. do 2 f_equal. apply (Ha _ RegularFile).
Qed.

Lemma couple_truncate_path rel_ sz : redact_on fs = true → edits → couple (truncate_path fs fuel rel_ sz).
Proof.
  intros Hr Hed s1 s2 Hs. eapply rel_bind; [by apply rel_view_for|]. cbn beta.
  intros v1 v2 t1 t2 (-> & Ht & Hres & Hc & Hraw & _). destruct v2 as [[|kind b|b|]|e]; try by apply rel_ret.
  eapply rel_bind; [by apply rel_open|]. cbn beta. intros r1 r2 u1 u2 (-> & Hu & Htt & Hq1 & Hq2 & Hfd).
  destruct r2 as [fd|e]; [|by apply rel_ret].
  destruct (Hfd fd eq_refl) as (Hroot & Hfree & f & Hf & Hf1 & Hf2).
  assert (content (st_world u1) f = content (st_world u2) f) as Hcu.
  { rewrite (quiet_content _ _ _ f Hq1), (quiet_content _ _ _ f Hq2), (proj1 (Hc f)), (proj2 (Hc f)).
    apply Hraw; [done|]. by apply Hres. }
  eapply rel_bind; [apply rel_alike; [done|]|].
  { apply (edit_ftruncate fs (OsEdit := Hedit Hed) _ _ _ _ f); [apply Hu|done..]. }
  cbn beta. intros r1 r2 x1 x2 (-> & Hx & Htx & _).
  eapply rel_bind; [apply (sim_close fs low edits fd x1 x2 Hx Hroot)|].
  { injection Htx as _ _ ->. injection Htt as _ _ ->. by eapply (fresh_unowned fs), Hfree; apply Ht. }
  intros _ _ y1 y2 (_ & Hy & _). by apply rel_ret.
Qed.

Lemma couple_setattr ino size fh :
  redact_on fs = true → (size = None ∨ edits) → couple (setattr fs fuel ino size fh).
Proof.
  intros Hr Hsz. apply couple_path. intros rel_.
  assert (couple (let!? _ := match size with Some sz => truncate_path fs fuel rel_ sz | None => ret (Ok tt) end in
                  let!? a := attr fs fuel ino rel_ in ret (Ok (RAttr a)))) as Hplain.
  { apply couple_try; [destruct size; [|auto with airgap]|].
    - destruct Hsz; [done|]. by apply couple_truncate_path.
    - intros _. apply couple_try; [by apply couple_attr|auto with airgap]. }
  destruct size as [sz|], fh as [fh|]; try (apply couple_bind; [auto with airgap|intros _; exact Hplain]).
  intros s1 s2 Hs. apply rel_handle_of; [done|].
  destruct (fh_map (st_handles s1) !! fh) as [[fd|kind fd served p|b|]|] eqn:Eh; try by apply Hplain.
  destruct Hsz as [?|Hed]; [done|].
  apply (rel_pend fh kind fd served p (vec_resize sz (default served p)) (λ _,
    let!? st := stat fs rel_ in let! a := from_stat ino st in ret (Ok (RAttr (set_size a sz)))) s1 s2 Hed Hs Eh).
  - apply stateless_vec_resize.
  - intros _. apply couple_stat_sized.
Qed.

Lemma name_of_join p name : is_name name = true → name_of (join p name) = name.
Proof. intros Hn. unfold name_of. by rewrite file_name_join. Qed.

(** What the worlds have in common of a file created under a name with a handler. *)
Lemma named_mergeable w1 w2 rel_ f kind :
  edits → low w1 w2 → resolves w1 (root fs) (at_ rel_) f →
  named (name_of rel_) = Some kind → (kind = Env ∨ kind = Npmrc) → mergeable fs kind w1 w2 f.
Proof.
  intros Hed Hl Hr Hn Hk. destruct (decide (content w1 f = content w2 f)) as [?|Hne]; [by left|right].
  destruct Hk as [->| ->]; [destruct Hne; by eapply (edit_env fs (OsEdit := Hedit Hed))|].
  split_and!; [done| |].
  - eapply indistinct_npmrc; [done|]. by apply (low_files fs _ _ rel_ f Hl).
  - intros rel' Hr'. rewrite <- Hn. by eapply (edit_named fs (OsEdit := Hedit Hed)).
Qed.

(** Interning touches neither the world nor the handles. *)
Lemma rel_intern p (s1 s2 : ST) :
  sim s1 s2 →
  rel (λ a b x1 x2, a = b ∧ sim x1 x2 ∧ st_world x1 = st_world s1 ∧ st_world x2 = st_world s2 ∧
                    st_handles x1 = st_handles s1) (intern_path p) (intern_path p) s1 s2.
Proof.
  intros Hs. pose proof (couple_intern fs low edits p s1 s2 Hs) as Hi.
  unfold rel, intern_path, bind, get, modify, ret in *.
  destruct (intern (st_inodes s1) p), (intern (st_inodes s2) p). destruct Hi as [-> ?]. by split_and!.
Qed.

Lemma couple_create parent name mode umask flags :
  redact_on fs = true → edits → edit_only (QCreate parent name mode umask flags) = true →
  couple (create fs fuel parent name mode umask flags).
Proof.
  intros Hr Hed [Hname Hq]%andb_prop. apply couple_path. intros dir. apply couple_bind; [apply couple_gate|].
  intros ok. destruct (negb ok); [auto with airgap|]. intros s1 s2 Hs.
  set (rel_ := join dir name). assert (name_of rel_ = name) as Hno by by apply name_of_join.
  eapply rel_bind; [by apply rel_open_edit|]. cbn beta. intros r1 r2 u1 u2 (-> & Hu & Hfd).
  destruct r2 as [fd|e]; [|by apply rel_ret].
  destruct (Hfd fd eq_refl) as (Hroot & Hun & f & Hf & Hres & Htr).
  set (h := match create_kind fs name with
            | Some kind => HRedacted kind fd [] (Some [])
            | None => HFile fd
            end).
  assert (handle_low fs edits (st_world u1) (st_world u2) h) as Hlow.
  { unfold h, create_kind. rewrite Hr. pose proof (sim_low _ _ _ _ _ Hu) as Hl.
    assert (named (name_of rel_) = detect name []) as Hn by (by rewrite Hno). unfold detect in Hn.
    destruct (is_env_file name); [|destruct (is_npmrc_file name)];
      [split; [by right|]; intros _; exists f; split; [done|]; eapply named_mergeable; eauto..|].
    exists f. split; [done|]. apply Htr. cbn [orb] in Hq. rewrite Hq. done. }
  eapply rel_bind; [by apply rel_intern|]. cbn beta. intros ino ino' x1 x2 (<- & Hx & Hw1 & Hw2 & Hh1).
  assert (owned h = Some fd) as Ho by (unfold h; by destruct (create_kind fs name)).
  eapply rel_bind; [apply (rel_insert_opened fd); [done|done|done|..]|].
  - rewrite Hw1. by exists f.
  - by rewrite Hh1.
  - by rewrite Hw1, Hw2.
  - intros fh fh' y1 y2 [<- Hy].
    apply (couple_try sim (attr fs fuel ino rel_)); [by apply couple_attr|auto with airgap|done].
Qed.

Lemma couple_inodes f : couple (modify (λ s : ST, with_inodes (f (st_inodes s)) s)).
Proof.
  intros s1 s2 [Ht Hl Hfd Hh]. split; [done|]. split; [|done..].
  injection Ht as Hg Hi Hha. unfold tables. cbn. by rewrite Hg, Hi, Hha.
Qed.

Lemma couple_remove_entry how parent name : edits → couple (remove_entry fs how parent name).
Proof.
  intros Hed. apply couple_path. intros dir. apply couple_try.
  - apply couple_alike. intros w1 w2. by apply (edit_unlinkat fs (OsEdit := Hedit Hed)).
  - intros _. apply couple_bind; [apply (couple_inodes (λ t, forget_path t _))|auto with airgap].
Qed.

Lemma couple_rename parent name newparent newname :
  edits → edit_only (QRename parent name newparent newname) = true →
  couple (rename fs parent name newparent newname).
Proof.
  intros Hed [[Hn1 Hn2]%andb_prop Hn]%andb_prop. apply bool_decide_eq_true in Hn.
  apply couple_path. intros dir. apply couple_path. intros dir'. apply couple_try.
  - apply couple_alike. intros w1 w2 Hl. apply (edit_renameat fs (OsEdit := Hedit Hed)); [done|].
    by rewrite !name_of_join.
  - intros _. apply couple_bind; [apply (couple_inodes (λ t, rename_path t _ _))|auto with airgap].
Qed.

Lemma couple_lookup parent name : redact_on fs = true → couple (lookup_ fs fuel parent name).
Proof.
  intros Hr. apply couple_path. intros p s1 s2 Hs. unfold stat. eapply rel_bind; [by apply rel_fstatat|].
  cbn beta. intros r1 r2 t1 t2 ([->|(st1 & st2 & f & -> & -> & _)] & Ht & _); [|by apply couple_entry].
  destruct r2; [by apply couple_entry|by apply rel_ret].
Qed.

Lemma couple_readdir ino off : couple (readdir fs dir_full ino off).
Proof.
  apply couple_path. intros p. apply couple_try.
  - apply couple_sys; [intros w; apply (read_dir_quiet fs (low := low))|by intros; apply (low_read_dir fs)].
  - intros items. apply couple_bind; [apply couple_collect|auto with airgap].
Qed.

(** A request that modifies nothing, or that edits in a session that may, is
    answered alike. *)
Lemma couple_dispatch q :
  redact_on fs = true → (read_only q = true ∨ edits ∧ edit_only q = true) →
  couple (dispatch fs fuel dir_full q).
Proof.
  intros Hr Hq.
  assert (read_only q = false → edits ∧ edit_only q = true) as Hed by (destruct (read_only q); naive_solver).
  destruct q as [parent name|ino|ino size fh|ino|ino flags| |fh off size| |fh|fh|fh|ino off| | | | | |]; cbn [dispatch].
  - by apply couple_lookup.
  - apply couple_path. intros p. apply couple_try; [by apply couple_attr|auto with airgap].
  - apply couple_setattr; [done|]. destruct size; [right; by apply Hed|by left].
  - apply couple_path. intros p. apply couple_try; [|auto with airgap].
    apply couple_sys; [intros w; apply (readlinkat_quiet fs (low := low))|by intros; apply (low_readlinkat fs)].
  - apply couple_open; [done|]. cbn in Hed. destruct (Z.eqb_spec (Z.land flags O_TRUNC) 0); [by left|right; by apply Hed].
  - destruct (Hed eq_refl). by apply couple_create.
  - apply couple_read.
  - apply couple_write. by apply Hed.
  - apply couple_try; [apply couple_persist|auto with airgap].
  - apply couple_try; [apply couple_persist|auto with airgap].
  - apply couple_bind; [apply couple_persist|]. intros r. apply couple_bind; [by apply couple_remove|].
    intros _. destruct r; auto with airgap.
  - apply couple_readdir.
  - destruct (Hed eq_refl) as [He _]. apply couple_path. intros p. apply couple_try; [|intros _; by apply couple_entry].
    apply couple_alike. intros w1 w2. by apply (edit_mkdirat fs (OsEdit := Hedit He)).
  - apply couple_remove_entry. by apply Hed.
  - apply couple_remove_entry. by apply Hed.
  - destruct (Hed eq_refl). by apply couple_rename.
  - by destruct (Hed eq_refl).
  - by destruct (Hed eq_refl).
Qed.

Lemma couple_replies qs :
  redact_on fs = true → (forallb read_only qs = true ∨ edits ∧ forallb edit_only qs = true) →
  couple (replies fs fuel dir_full qs).
Proof.
  intros Hr. induction qs as [|q qs IH]; cbn [replies forallb]; [auto with airgap|].
  rewrite !andb_true_iff. intros Hq. apply couple_bind; [apply couple_dispatch; [done|tauto]|].
  intros r. apply couple_bind; [apply IH; tauto|auto with airgap].
Qed.

(** Fresh sessions over related worlds are related. *)
Lemma sim_new w1 w2 g : low w1 w2 → sim (OverlayFs_new w1 g) (OverlayFs_new w2 g).
Proof. intros Hl. by split. Qed.
End editing.
