(* ===== verification/MemLow.v ===== *)
(** * Pairs of in-memory kernels that differ in secrets only

    The laws of [Secrecy.OsLow] and [Secrecy.OsEdit] can hold: they do for two
    worlds of [MemOs] with the same names and descriptors. *)

From S2P Require Import Prelude Utf8 Paths Lexical Inodes Redact Os Attr Overlay Handlers.
From S2P Require Import OverlaySafety OverlayIo MemOs Fds Secrecy.

#[local] Opaque mem_resolve named view_spec.

Section mem.
Context `{Dotenvy, SerdeYaml} (fs : OverlayFs Z).

(** What an editing session needs besides: no links, a disk without quota, the
    same file numbers in use, and files that differ only where [OsEdit] lets them. *)
Record mem_editable (w1 w2 : MemW) : Prop := {
  me_dom : dom (m_files w1) = dom (m_files w2);
  me_quota : m_quota w1 = None ∧ m_quota w2 = None;
  me_links cs t : m_names w1 !! cs ≠ Some (NLnk t);
  me_env rel i :
    mem_resolve 8 w1 (at_ rel) = Some i → named (name_of rel) = Some Env → mem_file w1 i = mem_file w2 i;
  me_named rel rel' i :
    mem_resolve 8 w1 (at_ rel) = Some i → mem_resolve 8 w1 (at_ rel') = Some i →
    mem_file w1 i ≠ mem_file w2 i → named (name_of rel') = named (name_of rel);
}.

(** Worlds with the same names and descriptors whose files look alike under every
    name they have; transfers are not cut short. *)
Record mem_low (edits : Prop) (w1 w2 : MemW) : Prop := {
  ml_names : m_names w1 = m_names w2;
  ml_fds : m_fds w1 = m_fds w2;
  ml_app : m_app w1 = m_app w2;
  ml_full : m_chunk w1 = None ∧ m_chunk w2 = None;
  ml_files rel i :
    mem_resolve 8 w1 (at_ rel) = Some i → indistinct (name_of rel) (mem_file w1 i) (mem_file w2 i);
  ml_edit : edits → mem_editable w1 w2;
}.

Context (edits : Prop).
Abbreviation low := (mem_low edits).

Lemma indistinct_sym name c1 c2 : indistinct name c1 c2 → indistinct name c2 c1.
Proof. intros [->|[Hv Hp]]; [by left|right]. by rewrite <- Hv. Qed.

(** What a path resolves to only depends on the names. *)
Lemma mem_low_resolve w1 w2 p : low w1 w2 → mem_resolve 8 w2 p = mem_resolve 8 w1 p.
Proof. intros Hl. apply mem_resolve_names. by rewrite (ml_names _ _ _ Hl). Qed.

Lemma mem_low_sym w1 w2 : low w1 w2 → low w2 w1.
Proof.
  intros Hl. pose proof Hl as [Hn Hf Hap Hc Hfi He].
  assert (∀ p, mem_resolve 8 w2 p = mem_resolve 8 w1 p) as Hr
    by exact (λ p, mem_low_resolve w1 w2 p Hl).
  split; [done|done|done|tauto| |].
  - intros rel i. rewrite Hr. intros ?%Hfi. by apply indistinct_sym.
  - intros [Hd Hq Hlk Hen Hna]%He. split; [done|tauto|by rewrite <- Hn| |].
    + intros rel i. rewrite Hr. intros Hi He'. symmetry. exact (Hen rel i Hi He').
    + intros rel rel' i. rewrite !Hr. intros Hi Hi' Hne. exact (Hna rel rel' i Hi Hi' (not_eq_sym Hne)).
Qed.

Lemma mem_low_put w1 w2 fds app :
  low w1 w2 → low (put_app (put_fds w1 fds) app) (put_app (put_fds w2 fds) app).
Proof.
  intros [Hn Hf Hap Hc Hfi He].
  assert (∀ p, mem_resolve 8 (put_app (put_fds w1 fds) app) p = mem_resolve 8 w1 p) as Hr
    by exact (λ p, mem_resolve_names 8 w1 (put_app (put_fds w1 fds) app) p eq_refl).
  split; [done..| |].
  - intros rel i. rewrite Hr. apply Hfi.
  - intros [Hd Hq Hlk Hen Hna]%He. split; [done..| |].
    + intros rel i. rewrite Hr. apply Hen.
    + intros rel rel' i. rewrite !Hr. apply Hna.
Qed.

Lemma quiet_refl (w : MemW) : quiet fs w w.
Proof. done. Qed.

(** The sizes of a file whose contents differ may differ, and nothing else. *)
Lemma mem_stat_low w1 w2 q i :
  low w1 w2 → mem_resolve 8 w1 q = Some i →
  stat_low fs w1 w2 q (Ok (mem_stat (S_IFREG + 420) (Z.of_nat (length (mem_file w1 i)))))
    (Ok (mem_stat (S_IFREG + 420) (Z.of_nat (length (mem_file w2 i))))).
Proof.
  intros Hl Hr. destruct (decide (mem_file w1 i = mem_file w2 i)) as [->|Hne]; [by left|right].
  by exists (mem_stat (S_IFREG + 420) (Z.of_nat (length (mem_file w1 i)))),
    (mem_stat (S_IFREG + 420) (Z.of_nat (length (mem_file w2 i)))), i.
Qed.

#[export] Instance mem_low_laws : OsLow fs low.
Proof.
  split.
  - apply mem_low_sym.
  - intros w1 w2 fd Hl. by rewrite !mem_fd_file, (ml_fds _ _ _ Hl).
  - intros w1 w2 q f Hl. cbn. unfold mem_resolves. by rewrite (mem_low_resolve w1 w2).
  - intros w q f g. cbn. unfold mem_resolves. congruence.
  - intros w1 w2 rel f Hl. apply (ml_files _ _ _ Hl).
  - intros q fl m w1 w2 Hl [Hc Ht]%land_bit. cbn -[mem_resolve]. unfold mem_openat. rewrite Hc, Ht, (mem_low_resolve w1 w2) by done.
    destruct (mem_resolve 8 w1 q) as [i|]; [|done]. unfold mem_new_fd. cbn.
    rewrite <- (ml_fds _ _ _ Hl), <- (ml_app _ _ _ Hl). split; [by apply mem_low_put|done].
  - intros q fl m w w' fd [Hc Ht]%land_bit E. cbn in E. unfold mem_openat in E. rewrite Hc, Ht in E.
    cbn. unfold mem_resolves. destruct (mem_resolve 8 w q) as [i|]; [by exists i|done].
  - intros fd w1 w2 Hl. cbn. rewrite <- (ml_fds _ _ _ Hl).
    change (low (put_app (put_fds w1 (delete fd (m_fds w1))) (m_app w1))
                (put_app (put_fds w2 (delete fd (m_fds w1))) (m_app w2))).
    rewrite <- (ml_app _ _ _ Hl). by apply mem_low_put.
  - intros q w1 w2 Hl. cbn. by rewrite (ml_names _ _ _ Hl).
  - intros q fl w1 w2 Hl. cbn. unfold mem_children. by rewrite (ml_names _ _ _ Hl).
  - intros q fl w1 w2 Hl. cbn -[mem_resolve]. split; [done|]. rewrite <- (ml_names _ _ _ Hl).
    destruct (m_names w1 !! components q) as [[i|t|]|] eqn:E; [|destruct (_ =? 0)|by left|by left].
    + apply mem_stat_low; [done|]. by rewrite mem_resolve_step, E.
    + rewrite (mem_low_resolve w1 w2) by done.
      destruct (mem_resolve 8 w1 q) as [i|] eqn:Er; [by apply mem_stat_low|by left].
    + by left.
  - done.
  - intros fd n off w1 w2 f Hl Hf Hc. rewrite mem_fd_file in Hf. cbn in *. unfold mem_count.
    destruct (ml_full _ _ _ Hl) as [-> ->]. by rewrite <- (ml_fds _ _ _ Hl), Hf, Hc.
  - intros fd n off w w2 f Hl Hf Hn Ho. rewrite mem_fd_file in Hf. cbn in *. rewrite Hf. unfold mem_count.
    by destruct (ml_full _ _ _ Hl) as [-> _].
  - intros. apply quiet_refl.
  - intros. apply quiet_refl.
  - intros. apply quiet_refl.
Qed.

(** ** Calls that modify *)

Lemma mem_file_put_same w i b : mem_file (put_file w i b) i = b.
Proof. rewrite mem_file_put. by destruct (decide (i = i)). Qed.

(** Storing [b1] and [b2] in the file [i]. *)
Lemma mem_low_put_file w1 w2 i b1 b2 :
  edits → low w1 w2 →
  (b1 = b2 ∨ ∀ rel, mem_resolve 8 w1 (at_ rel) = Some i →
               named (name_of rel) = Some Npmrc ∧ indistinct (name_of rel) b1 b2) →
  low (put_file w1 i b1) (put_file w2 i b2).
Proof.
  intros Hed [Hn Hf Hap Hc Hfi He] Hb. destruct (He Hed) as [Hd Hq Hlk Hen Hna].
  assert (∀ p, mem_resolve 8 (put_file w1 i b1) p = mem_resolve 8 w1 p) as Hr
    by exact (λ p, mem_resolve_names 8 w1 (put_file w1 i b1) p eq_refl).
  split; [done..| |intros _; split; [|done|done| |]].
  - intros rel j. rewrite Hr, !mem_file_put. intros Hj. destruct (decide (j = i)) as [->|_]; [|by apply Hfi].
    destruct Hb as [->|Hb]; [by left|by apply Hb].
  - cbn. by rewrite !dom_insert_L, Hd.
  - intros rel j. rewrite Hr, !mem_file_put. intros Hj Hen'. destruct (decide (j = i)) as [->|_]; [|exact (Hen rel j Hj Hen')].
    destruct Hb as [->|Hb]; [done|]. destruct (Hb rel Hj) as [Hnp _]. congruence.
  - intros rel rel' j. rewrite !Hr, !mem_file_put. intros Hj Hj'.
    destruct (decide (j = i)) as [->|_]; [|exact (Hna rel rel' j Hj Hj')]. destruct Hb as [->|Hb]; [done|]. intros _.
    exact (eq_trans (proj1 (Hb rel' Hj')) (eq_sym (proj1 (Hb rel Hj)))).
Qed.

Lemma tame_put_file w1 w2 i b : tame fs w1 w2 (put_file w1 i b) (put_file w2 i b).
Proof.
  intros f. cbn. rewrite !mem_file_put. case_decide; [by intros []|].
  intros _. split_and!; [done|done|]. intros rel Hr. exists rel. split; [|done].
  exact (proj2 (mem_resolves_names w1 (put_file w1 i b) (root fs) (root fs) _ _ eq_refl) Hr).
Qed.

(** Names change: every name leads to a file it led to under a name of the same
    kind, or to one the worlds agree on. *)
Lemma mem_low_put_names w1 w2 names :
  edits → low w1 w2 →
  (∀ cs t, names !! cs ≠ Some (NLnk t)) →
  (∀ rel i, names !! components (at_ rel) = Some (NReg i) →
     mem_file w1 i = mem_file w2 i ∨
     ∃ rel', m_names w1 !! components (at_ rel') = Some (NReg i) ∧ named (name_of rel') = named (name_of rel)) →
  alike fs low (λ w, (put_names w names, tt)) w1 w2.
Proof.
  intros Hed Hl Hlk' Hnames. pose proof Hl as [Hn Hf Hap Hc Hfi He]. destruct (He Hed) as [Hd Hq Hlk Hen Hna].
  assert (∀ w p i, (∀ cs t, m_names w !! cs ≠ Some (NLnk t)) →
            mem_resolve 8 w p = Some i ↔ m_names w !! components p = Some (NReg i)) as Hr.
  { intros w p i Hw. rewrite mem_resolve_step.
    destruct (m_names w !! components p) as [[j|t|]|] eqn:E; [|by destruct (Hw _ _ E)|done|done].
    split; by intros [= ->]. }
  assert (∀ rel i, mem_resolve 8 (put_names w1 names) (at_ rel) = Some i →
            mem_file w1 i = mem_file w2 i ∨
            ∃ rel', mem_resolve 8 w1 (at_ rel') = Some i ∧ named (name_of rel') = named (name_of rel)) as Hnew.
  { intros rel i Hi%Hr; [|done]. destruct (Hnames rel i Hi) as [?|(rel' & Hi' & ?)]; [by left|right].
    exists rel'. by rewrite Hr. }
  unfold alike. cbn. split_and!; [|done|by intros fd f|by intros fd f|].
  - split; [done..| |intros _; split; [done|done|exact Hlk'| |]].
    + intros rel i Hi. destruct (Hnew rel i Hi) as [Heq|(rel' & Hi' & Hk)]; [by left|].
      eapply indistinct_named; [exact Hk|]. by apply Hfi.
    + intros rel i Hi Hev. destruct (Hnew rel i Hi) as [Heq|(rel' & Hi' & Hk)]; [done|].
      eapply (Hen rel'); [done|congruence].
    + intros rel rel' i Hi Hi' Hne.
      destruct (Hnew rel i Hi) as [?|(r1 & Hi1 & <-)]; [done|]. destruct (Hnew rel' i Hi') as [?|(r2 & Hi2 & <-)]; [done|].
      exact (Hna r1 r2 i Hi1 Hi2 Hne).
  - intros f Hne. split_and!; [done|done|]. intros rel Hrel.
    destruct (Hnew rel f Hrel) as [?|(rel' & ? & ?)]; [done|]. by exists rel'.
Qed.

Lemma alike_refl {A} (a : A) w1 w2 : low w1 w2 → alike fs low (λ w, (w, a)) w1 w2.
Proof.
  intros Hl. split_and!; [done|done|by intros fd f|by intros fd f|]. by apply quiet_tame.
Qed.

(** Storing the same bytes in both worlds. *)
Lemma alike_put_file {A} (call : MemW → MemW * A) w1 w2 i b a :
  edits → low w1 w2 → call w1 = (put_file w1 i b, a) → call w2 = (put_file w2 i b, a) → alike fs low call w1 w2.
Proof.
  intros Hed Hl E1 E2. unfold alike. rewrite E1, E2. cbn [fst snd].
  split_and!; [by apply mem_low_put_file; [..|left]|done|by intros fd f|by intros fd f|apply tame_put_file].
Qed.

(** A new descriptor in both worlds, after steps that keep the descriptors. *)
Lemma alike_new_fd d i fl w1 w2 t1 t2 :
  low w1 w2 → low t1 t2 → m_fds t1 = m_fds w1 → m_fds t2 = m_fds w2 → tame fs w1 w2 t1 t2 →
  low (fst (mem_new_fd d i fl t1)) (fst (mem_new_fd d i fl t2)) ∧
  snd (mem_new_fd d i fl t1) = snd (mem_new_fd d i fl t2) ∧
  kept w1 (fst (mem_new_fd d i fl t1)) ∧ kept w2 (fst (mem_new_fd d i fl t2)) ∧
  tame fs w1 w2 (fst (mem_new_fd d i fl t1)) (fst (mem_new_fd d i fl t2)).
Proof.
  intros Hl Ht F1 F2 Hta. unfold mem_new_fd. rewrite <- (ml_fds _ _ _ Ht), <- (ml_app _ _ _ Ht). cbn [fst snd].
  assert (∀ w app, m_fds w = m_fds w1 →
    kept w (put_app (put_fds t1 (<[max_above d (m_fds t1) := i]> (m_fds t1))) app)) as Hk.
  { intros w app E fd f. rewrite !mem_fd_file. cbn. rewrite E, F1. intros Hf. rewrite lookup_insert_ne; [done|].
    intros <-. by rewrite max_above_fresh in Hf. }
  split_and!; [by apply mem_low_put|done|by apply Hk| |exact Hta].
  intros fd f Hf. pose proof (Hk w2 ∅ (eq_sym (ml_fds _ _ _ Hl)) fd f Hf) as Hk2.
  rewrite mem_fd_file in Hk2 |- *. exact Hk2.
Qed.

Lemma mem_low_next w1 w2 : edits → low w1 w2 → mem_next w2 = mem_next w1.
Proof. intros Hed Hl. unfold mem_next. by rewrite (me_dom _ _ (ml_edit _ _ _ Hl Hed)), (ml_names _ _ _ Hl). Qed.

Lemma mem_low_created q w1 w2 :
  edits → low w1 w2 →
  low (mem_created q w1) (mem_created q w2) ∧ tame fs w1 w2 (mem_created q w1) (mem_created q w2).
Proof.
  intros Hed Hl. unfold mem_created. rewrite (mem_low_next w1 w2) by done. rewrite <- (ml_names _ _ _ Hl).
  set (i := mem_next w1).
  destruct (mem_low_put_names w1 w2 (<[components q := NReg i]> (m_names w1)) Hed Hl) as (Hl' & _ & _ & _ & Ht).
  - intros cs t [[_ [=]]|[_ Hc]]%lookup_insert_Some. exact (me_links _ _ (ml_edit _ _ _ Hl Hed) cs t Hc).
  - intros rel j [[_ [= <-]]|[_ Hj]]%lookup_insert_Some; [left|right; by exists rel].
    unfold i. rewrite mem_next_unused, <- (mem_low_next w1 w2) by done. by rewrite mem_next_unused.
  - cbn [fst] in *. split; [by apply mem_low_put_file; [..|left]|].
    eapply tame_trans; [exact Ht|apply tame_put_file].
Qed.

Lemma mem_alike_openat d q fl m w1 w2 :
  edits → low w1 w2 → alike fs low (mem_openat d q fl m) w1 w2.
Proof.
  intros Hed Hl. unfold alike. unfold mem_openat. rewrite (mem_low_resolve w1 w2), (mem_low_next w1 w2) by done.
  destruct (mem_resolve 8 w1 q) as [i|].
  - destruct (_ =? 0); apply alike_new_fd; try done; [by apply quiet_tame|by apply mem_low_put_file; [..|left]|apply tame_put_file].
  - destruct (_ =? 0); [by apply (alike_refl (Err ENOENT))|]. rewrite <- (ml_names _ _ _ Hl).
    destruct (m_names w1 !! components q); [by apply (alike_refl (Err EEXIST))|].
    destruct (mem_low_created q w1 w2 Hed Hl). by apply alike_new_fd.
Qed.

Lemma mem_opened q fl m w1 w2 w1' w2' r2 fd :
  edits → low w1 w2 → mem_openat (root fs) q fl m w1 = (w1', Ok fd) → mem_openat (root fs) q fl m w2 = (w2', r2) →
  fd ≠ root fs ∧ m_fds w1 !! fd = None ∧
  ∃ f, m_fds w1' !! fd = Some f ∧ mem_resolve 8 w1' q = Some f ∧
       (Z.land fl O_TRUNC ≠ 0 → mem_file w1' f = [] ∧ mem_file w2' f = []).
Proof.
  intros Hed Hl. unfold mem_openat. rewrite (mem_low_resolve w1 w2), (mem_low_next w1 w2) by done.
  assert (∀ d i w fds app b, mem_file (put_app (put_fds (put_file w i b) fds) app) d = mem_file (put_file w i b) d) as Hput by done.
  destruct (mem_resolve 8 w1 q) as [i|] eqn:Er.
  - unfold mem_new_fd. intros [= <- <-] [= <- _].
    assert (m_fds (if Z.land fl O_TRUNC =? 0 then w1 else put_file w1 i []) = m_fds w1 ∧
            m_names (if Z.land fl O_TRUNC =? 0 then w1 else put_file w1 i []) = m_names w1) as [-> E] by (by case_match).
    split_and!; [apply max_above_ne|apply max_above_fresh|]. exists i.
    split_and!; [cbn; by rewrite lookup_insert_eq|rewrite <- Er; by apply mem_resolve_names|].
    intros Ht. destruct (Z.eqb_spec (Z.land fl O_TRUNC) 0) as [?|_]; [done|].
    by rewrite !Hput, !mem_file_put_same.
  - destruct (_ =? 0); [done|]. rewrite <- (ml_names _ _ _ Hl).
    destruct (m_names w1 !! components q); [done|]. unfold mem_new_fd. intros [= <- <-] [= <- _].
    split_and!; [apply max_above_ne|apply max_above_fresh|]. exists (mem_next w1).
    split_and!; [cbn; by rewrite lookup_insert_eq| |].
    + rewrite mem_resolve_step. cbn. by rewrite lookup_insert_eq.
    + intros _. unfold mem_created. by rewrite !Hput, (mem_low_next w1 w2), !mem_file_put_same by done.
Qed.

Lemma mem_alike_pwrite fd b off w1 w2 i :
  edits → low w1 w2 → m_fds w1 !! fd = Some i → mem_file w1 i = mem_file w2 i →
  alike fs low (mem_pwrite fd b off) w1 w2.
Proof.
  intros Hed Hl Hf Hc. destruct (ml_full _ _ _ Hl) as [Hc1 Hc2], (me_quota _ _ (ml_edit _ _ _ Hl Hed)) as [Hq1 Hq2].
  apply (alike_put_file _ _ _ i
    (written (mem_file w1 i) (write_at (bool_decide (fd ∈ m_app w1)) (mem_file w1 i) (Z.to_nat off)) b)
    (Ok (Z.of_nat (length b)))); [done..| |];
    unfold mem_pwrite, mem_part; [by rewrite Hf, Hq1, Hc1|].
  by rewrite <- (ml_fds _ _ _ Hl), <- (ml_app _ _ _ Hl), Hf, Hq2, Hc2, Hc.
Qed.

Lemma mem_alike_ftruncate fd n w1 w2 i :
  edits → low w1 w2 → m_fds w1 !! fd = Some i → mem_file w1 i = mem_file w2 i →
  alike fs low (mem_ftruncate fd n) w1 w2.
Proof.
  intros Hed Hl Hf Hc.
  apply (alike_put_file _ _ _ i (resize_zero (Z.to_nat n) (mem_file w1 i)) (Ok tt)); [done..| |];
    unfold mem_ftruncate; [by rewrite Hf|]. by rewrite <- (ml_fds _ _ _ Hl), Hf, Hc.
Qed.

(** Replacing a registry file. *)
Lemma mem_replace fd i m1 m2 w1 w2 t1 t2 r1 r2 :
  edits → low w1 w2 → m_fds w1 !! fd = Some i →
  (∀ rel, mem_resolve 8 w1 (at_ rel) = Some i → named (name_of rel) = Some Npmrc ∧ indistinct (name_of rel) m1 m2) →
  mem_ftruncate fd 0 w1 = (t1, r1) → mem_ftruncate fd 0 w2 = (t2, r2) →
  r1 = r2 ∧
  match r1 with
  | Err _ => low t1 t2
  | Ok _ => snd (mem_pwrite fd m1 0 t1) = Ok (Z.of_nat (length m1)) ∧
            snd (mem_pwrite fd m2 0 t2) = Ok (Z.of_nat (length m2)) ∧
            low (filled fd m1 t1) (filled fd m2 t2)
  end.
Proof.
  intros Hed Hl Hf Hn. unfold mem_ftruncate. rewrite <- (ml_fds _ _ _ Hl), Hf.
  intros [= <- <-] [= <- <-]. split; [done|].
  destruct (ml_full _ _ _ Hl) as [Hc1 Hc2], (me_quota _ _ (ml_edit _ _ _ Hl Hed)) as [Hq1 Hq2].
  assert (m_fds w2 !! fd = Some i) as Hf2 by (by rewrite <- (ml_fds _ _ _ Hl)).
  assert (∀ w m b, m_fds w !! fd = Some i → m_quota w = None → m_chunk w = None →
    b = [] → mem_pwrite fd m 0 (put_file w i b) = (put_file (put_file w i b) i (written b 0 m), Ok (Z.of_nat (length m)))) as Hw.
  { intros w m b E1 E2 E3 ->. unfold mem_pwrite, mem_part. cbn. rewrite E1, E2, E3, mem_file_put_same.
    by destruct (bool_decide _). }
  assert (low (put_file w1 i []) (put_file w2 i [])) as Hl0 by (by apply mem_low_put_file; [..|left]).
  assert (∀ w m, m_fds w !! fd = Some i → m_quota w = None → m_chunk w = None →
    filled fd m (put_file w i []) = put_file (put_file w i []) i m) as Hfill.
  { intros w [|x m] E1 E2 E3; unfold filled; [unfold put_file; cbn; by rewrite insert_insert_eq|]. cbn [pwrite MemOs].
    rewrite Hw by done. cbn [fst]. unfold written. by rewrite overwrite_nil. }
  replace (resize_zero (Z.to_nat 0) (mem_file w1 i)) with (@nil Z) by by destruct (mem_file w1 i).
  replace (resize_zero (Z.to_nat 0) (mem_file w2 i)) with (@nil Z) by by destruct (mem_file w2 i).
  rewrite !Hw, !Hfill by done. split_and!; [done|done|]. apply mem_low_put_file; [done|done|right].
  intros rel Hr. apply Hn. rewrite <- Hr. symmetry. by apply mem_resolve_names.
Qed.

Lemma alike_same {A} (call : MemW → MemW * A) w1 w2 r :
  low w1 w2 → call w1 = (w1, r) → call w2 = (w2, r) → alike fs low call w1 w2.
Proof.
  intros Hl E1 E2. unfold alike. rewrite E1, E2. by apply (alike_refl r).
Qed.

Lemma alike_put_names {A} (call : MemW → MemW * A) w1 w2 names r :
  edits → low w1 w2 → call w1 = (put_names w1 names, r) → call w2 = (put_names w2 names, r) →
  (∀ cs t, names !! cs ≠ Some (NLnk t)) →
  (∀ rel i, names !! components (at_ rel) = Some (NReg i) →
     ∃ rel', m_names w1 !! components (at_ rel') = Some (NReg i) ∧ named (name_of rel') = named (name_of rel)) →
  alike fs low call w1 w2.
Proof.
  intros Hed Hl E1 E2 Hlk Hn.
  destruct (mem_low_put_names w1 w2 names Hed Hl Hlk) as (? & _ & ? & ? & ?).
  { intros rel i Hi. right. exact (Hn rel i Hi). }
  unfold alike. rewrite E1, E2. by split_and!.
Qed.

Lemma mem_alike_mkdirat q w1 w2 : edits → low w1 w2 → alike fs low (mem_add q NDir) w1 w2.
Proof.
  intros Hed Hl. pose proof (ml_names _ _ _ Hl) as Hn. destruct (m_names w1 !! components q) as [n|] eqn:E.
  - apply (alike_same _ _ _ (Err EEXIST)); [done|unfold mem_add; by rewrite E|unfold mem_add; by rewrite <- Hn, E].
  - apply (alike_put_names _ _ _ (<[components q := NDir]> (m_names w1)) (Ok tt)); [done|done|unfold mem_add; by rewrite E|
      unfold mem_add; by rewrite <- Hn, E|..].
    + intros cs t [[_ [=]]|[_ Hc]]%lookup_insert_Some. exact (me_links _ _ (ml_edit _ _ _ Hl Hed) cs t Hc).
    + intros rel i [[_ [=]]|[_ Hc]]%lookup_insert_Some. by exists rel.
Qed.

Lemma mem_alike_unlinkat d q how w1 w2 : edits → low w1 w2 → alike fs low (mem_unlinkat d q how) w1 w2.
Proof.
  intros Hed Hl. pose proof (ml_names _ _ _ Hl) as Hn. destruct (m_names w1 !! components q) as [n|] eqn:E.
  - apply (alike_put_names _ _ _ (delete (components q) (m_names w1)) (Ok tt)); [done|done|unfold mem_unlinkat; by rewrite E|
      unfold mem_unlinkat; by rewrite <- Hn, E|..].
    + intros cs t [_ Hc]%lookup_delete_Some. exact (me_links _ _ (ml_edit _ _ _ Hl Hed) cs t Hc).
    + intros rel i [_ Hc]%lookup_delete_Some. by exists rel.
  - apply (alike_same _ _ _ (Err ENOENT)); [done|unfold mem_unlinkat; by rewrite E|unfold mem_unlinkat; by rewrite <- Hn, E].
Qed.

(** The name of a path is that of its components. *)
Lemma name_of_components p q : components (at_ p) = components (at_ q) → name_of p = name_of q.
Proof.
  assert (∀ p, name_of p = match last (components (at_ p)) with Some (Normal n) => n | _ => [] end) as Hn
    by (intros [|x r]; [done|]; unfold name_of, file_name; cbn [at_]; by destruct (last _) as [[]|]).
  intros E. by rewrite !Hn, E.
Qed.

Lemma mem_alike_renameat d p q w1 w2 :
  edits → low w1 w2 → named (name_of p) = named (name_of q) →
  alike fs low (mem_renameat d (at_ p) d (at_ q)) w1 w2.
Proof.
  intros Hed Hl Hk. pose proof (ml_names _ _ _ Hl) as Hn. destruct (m_names w1 !! components (at_ p)) as [n|] eqn:E.
  - apply (alike_put_names _ _ _ (<[components (at_ q) := n]> (delete (components (at_ p)) (m_names w1))) (Ok tt));
      [done|done|unfold mem_renameat; by rewrite E|unfold mem_renameat; by rewrite <- Hn, E|..].
    + intros cs t [[_ ->]|[_ [_ Hc]%lookup_delete_Some]]%lookup_insert_Some;
        [exact (me_links _ _ (ml_edit _ _ _ Hl Hed) _ t E)|exact (me_links _ _ (ml_edit _ _ _ Hl Hed) cs t Hc)].
    + intros rel i [[Hc ->]|[_ [_ Hc]%lookup_delete_Some]]%lookup_insert_Some; [|by exists rel].
      exists p. split; [exact E|]. rewrite Hk. f_equal. by apply name_of_components.
  - apply (alike_same _ _ _ (Err ENOENT)); [done|unfold mem_renameat; by rewrite E|unfold mem_renameat; by rewrite <- Hn, E].
Qed.

Lemma mem_edit_laws : edits → OsEdit fs low.
Proof.
  intros Hed. split.
  - intros w1 w2 rel f Hl. apply (me_env _ _ (ml_edit _ _ _ Hl Hed)).
  - intros w1 w2 rel rel' f Hl. apply (me_named _ _ (ml_edit _ _ _ Hl Hed)).
  - intros q fl m w1 w2. by apply mem_alike_openat.
  - intros q fl m w1 w2 w1' w2' r2 fd. rewrite !mem_fd_file. intros Hl E1 E2.
    destruct (mem_opened q fl m w1 w2 w1' w2' r2 fd Hed Hl E1 E2) as (? & ? & f & Hf & ?).
    split_and!; [done|done|]. by exists f.
  - intros fd b off w1 w2 f. rewrite mem_fd_file. by apply mem_alike_pwrite.
  - intros fd n w1 w2 f. rewrite mem_fd_file. by apply mem_alike_ftruncate.
  - intros fd f m1 m2 w1 w2 t1 t2 r1 r2. rewrite mem_fd_file. by apply mem_replace.
  - intros q m w1 w2. by apply mem_alike_mkdirat.
  - intros q how w1 w2. by apply mem_alike_unlinkat.
  - intros p q w1 w2. by apply mem_alike_renameat.
Qed.
End mem.
