(* ===== verification/Store.v ===== *)
(** * What the overlay promises: an abstract file store

    The specification of a whole session, without descriptors, system calls or
    loops.  A store has files, the names they go by, the table of inodes and the
    open handles; a request takes it to another in one step and gets a reply
    ([store_step]).  A handle is open on the file itself (writing where it is told, or
    always at the end), on a redacted text that
    is merged back when it is saved, on a redacted copy, or on nothing.  The
    kernel may refuse a request that needs it; replies that carry attributes are
    left open here ([OverlayAttr] is about them). *)

From S2P Require Import Prelude Eff Paths Lexical Access Inodes Redact Os Attr Overlay Handlers.
From S2P Require Import OverlaySafety OverlayIo.

(** ** States *)

Inductive AHandle (F : Type) : Type :=
| ARaw (f : F) (append : bool)
| AText (kind : HandlerKind) (f : F) (served : bytes) (pending : option bytes)
| ACopy (served : bytes)
| ADead.
Arguments ARaw {F} f append.
Arguments AText {F} kind f served pending.
Arguments ACopy {F} served.
Arguments ADead {F}.

(** [s_name]: the paths below the mount root a file can be reached by. *)
Record Store (F : Type) : Type := mkStore {
  s_file : F → bytes;
  s_name : path → F → Prop;
  s_inodes : InodeTable;
  s_handles : gmap Z (AHandle F);
}.
Arguments mkStore {F} _ _ _ _.
Arguments s_file {F} _ _.
Arguments s_name {F} _ _ _.
Arguments s_inodes {F} _.
Arguments s_handles {F} _.

(** ** Updates *)

Section update.
Context {F : Type}.
Implicit Types σ : Store F.

(** At most the contents of one file change. *)
Definition upd_file (fc : option (F * bytes)) σ σ' : Prop :=
  match fc with
  | Some (f, c) => s_file σ' f = c ∧ ∀ g, g ≠ f → s_file σ' g = s_file σ g
  | None => ∀ g, s_file σ' g = s_file σ g
  end.

(** The next store, names being as they were. *)
Record upd (fc : option (F * bytes)) (t : InodeTable) (m : gmap Z (AHandle F)) σ σ' : Prop := {
  upd_files : upd_file fc σ σ';
  upd_names p f : s_name σ' p f ↔ s_name σ p f;
  upd_inodes : s_inodes σ' = t;
  upd_handles : s_handles σ' = m;
}.

Definition same_store σ σ' : Prop := upd None (s_inodes σ) (s_handles σ) σ σ'.

(** A change of names ([mkdir], [rename] and the like): files and handles are as
    they were. *)
Record relinked (t : InodeTable) σ σ' : Prop := {
  rel_files f : s_file σ' f = s_file σ f;
  rel_inodes : s_inodes σ' = t;
  rel_handles : s_handles σ' = s_handles σ;
}.

(** The table once a path has its number. *)
Definition interned (t : InodeTable) (p : path) : InodeTable := fst (intern t p).

(** *** Lemmas *)

Lemma same_store_refl σ : same_store σ σ.
Proof. by constructor. Qed.

(** What changes nothing may come before or after. *)
Lemma upd_same fc t m σ σ1 σ2 : upd fc t m σ σ1 → same_store σ1 σ2 → upd fc t m σ σ2.
Proof.
  intros [Hf Hn Hi Hh] [Hf' Hn' Hi' Hh']. constructor; [|intros p f; by rewrite Hn'|congruence..].
  destruct fc as [[f c]|]; cbn in *; [destruct Hf as [Hf Ho]; split; [by rewrite Hf'|]|];
    intros g; [intros Hg|]; rewrite Hf'; auto.
Qed.

Lemma same_upd fc t m σ σ1 σ2 : same_store σ σ1 → upd fc t m σ1 σ2 → upd fc t m σ σ2.
Proof.
  intros [Hf Hn _ _] [Hf' Hn' Hi' Hh']. constructor; [|intros p f; by rewrite Hn'|congruence..].
  destruct fc as [[f c]|]; cbn in *; [destruct Hf' as [Hf' Ho]; split; [done|]|];
    intros g; [intros Hg; rewrite Ho by done|rewrite Hf']; auto.
Qed.

Lemma same_store_trans σ1 σ2 σ3 : same_store σ1 σ2 → same_store σ2 σ3 → same_store σ1 σ3.
Proof.
  intros H12 H23. pose proof (same_upd _ _ _ _ _ _ H12 H23) as Hu. destruct H12 as [_ _ Hi Hh].
  unfold same_store. by rewrite <- Hi, <- Hh.
Qed.

(** Two steps, of which the second only fills the tables. *)
Lemma upd_tables fc t t' m m' σ σ1 σ2 : upd fc t m σ σ1 → upd None t' m' σ1 σ2 → upd fc t' m' σ σ2.
Proof.
  intros [Hf Hn Hi Hh] [Hf' Hn' Hi' Hh']. constructor; [|intros p f; by rewrite Hn'|done..].
  destruct fc as [[f c]|]; cbn in *; [destruct Hf as [Hf Ho]; split; [by rewrite Hf'|]|];
    intros g; [intros Hg|]; rewrite Hf'; auto.
Qed.

(** Storing what is there already changes nothing. *)
Lemma upd_idle f t m σ σ' : upd (Some (f, s_file σ f)) t m σ σ' → upd None t m σ σ'.
Proof.
  intros [[Hf Ho] Hn Hi Hh]. constructor; [|done..]. intros g.
  destruct (decide (s_file σ' g = s_file σ g)) as [?|Hg]; [done|].
  apply Ho. by intros ->.
Qed.

Lemma relinked_upd t t' σ σ1 σ2 :
  relinked t σ σ1 → upd None t' (s_handles σ1) σ1 σ2 → relinked t' σ σ2.
Proof. intros [Hf Hi Hh] [Hf' Hn' Hi' Hh']. constructor; [intros f; by rewrite Hf'|done|congruence]. Qed.
End update.

(** ** Steps *)

Section steps.
Context {F : Type} `{Dotenvy, SerdeYaml}.
(** Whether files are redacted. *)
Context (redacting : bool).
Implicit Types σ : Store F.

(** How the file [f] is shown under the name of [rel]. *)
Definition shown σ (rel : path) (f : F) (v : View) : Prop :=
  if redacting then ∃ prefix, sniffed prefix (s_file σ f) ∧ v = view_spec (name_of rel) prefix (s_file σ f)
  else v = VPassthrough.

Definition truncates (flags : Z) : bool := negb (Z.land flags O_TRUNC =? 0).

(** The handle an open makes of a view, and what it empties. *)
Definition handle_on (f : F) (flags : Z) (v : View) : AHandle F :=
  match v with
  | VPassthrough => ARaw f (appends flags)
  | VRedacted kind b => AText kind f b (if truncates flags then Some [] else None)
  | VKey b => ACopy b
  | VFailed => ADead
  end.

Definition emptied (f : F) (flags : Z) (v : View) : option (F * bytes) :=
  match v with
  | VPassthrough => if truncates flags then Some (f, []) else None
  | _ => None
  end.

(** The handler a created file gets, by its name alone. *)
Definition created_kind (name : bytes) : option HandlerKind :=
  if redacting then
    if is_env_file name then Some Env else if is_npmrc_file name then Some Npmrc else None
  else None.

Definition created_handle (name : bytes) (f : F) : AHandle F :=
  match created_kind name with Some kind => AText kind f [] (Some []) | None => ARaw f false end.

(** Opening [rel] for [create]: the file that goes by this name, or a new one. *)
Inductive makes σ (rel : path) (flags : Z) (f : F) σ' : Prop :=
| makes_old :
    s_name σ (at_ rel) f → (∀ p g, s_name σ' p g ↔ s_name σ p g) →
    upd_file (if truncates flags then Some (f, []) else None) σ σ' → makes σ rel flags f σ'
| makes_new :
    (∀ p, ¬ s_name σ p f) → (∀ p g, g ≠ f → s_name σ' p g ↔ s_name σ p g) →
    upd_file (Some (f, [])) σ σ' → makes σ rel flags f σ'.

Lemma makes_upd σ rel flags f t m σ1 σ2 :
  makes σ rel flags f σ1 → upd None t m σ1 σ2 → makes σ rel flags f σ2.
Proof.
  intros Hm [Hf Hn _ _].
  assert (∀ fc, upd_file fc σ σ1 → upd_file fc σ σ2) as Hfile.
  { intros [[g c]|]; cbn in *; [intros [Hc Ho]; split; [by rewrite Hf|]|intros Hc]; intros x; [intros Hx|];
      rewrite Hf; auto. }
  destruct Hm as [Hr Hnm Hu|Hr Hnm Hu]; [apply makes_old|apply makes_new]; auto.
  - intros p g. by rewrite Hn, Hnm.
  - intros p g Hg. by rewrite Hn, Hnm.
Qed.

Lemma same_makes σ rel flags f σ1 σ2 :
  same_store σ σ1 → makes σ1 rel flags f σ2 → makes σ rel flags f σ2.
Proof.
  intros [Hf Hn _ _] Hm.
  assert (∀ fc, upd_file fc σ1 σ2 → upd_file fc σ σ2) as Hfile.
  { intros [[g c]|]; cbn in *; [intros [Hc Ho]; split; [done|]|intros Hc]; intros x; [intros Hx; rewrite Ho by done|rewrite Hc];
      auto. }
  destruct Hm as [Hr Hnm Hu|Hr Hnm Hu]; [apply makes_old|apply makes_new]; auto.
  - by apply Hn.
  - intros p g. by rewrite Hnm, Hn.
  - intros p Hp. by apply (Hr p), Hn.
  - intros p g Hg. by rewrite Hnm, Hn.
Qed.

Lemma shown_same σ σ1 rel f v : same_store σ σ1 → shown σ1 rel f v → shown σ rel f v.
Proof. intros [Hf _ _ _]. unfold shown. by rewrite (Hf f). Qed.

(** Saving a handle: its pending text is merged into the file, the handle then
    shows the result; a merge that fails leaves the file alone, a disk that fails
    may cut it short. *)
Definition saved σ (fh : Z) (r : result unit Z) σ' : Prop :=
  match s_handles σ !! fh with
  | Some (AText kind f served (Some text)) =>
      ∃ view c, persisted kind (s_file σ f) text view c r ∧
        upd (Some (f, c)) (s_inodes σ) (<[fh := AText kind f (default served view) None]> (s_handles σ)) σ σ'
  | _ => r = Ok tt ∧ same_store σ σ'
  end.

(** The requests the kernel may refuse, which then change nothing. *)
Definition may_fail σ (q : Request) : Prop :=
  match q with
  | QRead fh _ _ | QWrite fh _ _ => ∃ f append, s_handles σ !! fh = Some (ARaw f append)
  | QFlush _ | QFsync _ | QRelease _ => False
  | _ => True
  end.

(** Where a request that makes a name puts it in the table. *)
Definition entry_at σ (parent : Z) (name : bytes) (rel : path) : Prop :=
  ∃ dir, by_ino (s_inodes σ) !! parent = Some dir ∧ rel = join dir name.

(** A reply with an entry, or the refusal to report its attributes. *)
Definition entry_or_error (r : result Reply Z) : Prop := match r with Ok (REntry _) | Err _ => True | _ => False end.

Inductive store_step σ : Request → result Reply Z → Store F → Prop :=
| st_fail q e σ' : may_fail σ q → same_store σ σ' → store_step σ q (Err e) σ'
(** Names and attributes *)
| st_lookup parent name rel r σ' :
    entry_at σ parent name rel → entry_or_error r →
    upd None (interned (s_inodes σ) rel) (s_handles σ) σ σ' → store_step σ (QLookup parent name) r σ'
| st_getattr ino a σ' : same_store σ σ' → store_step σ (QGetattr ino) (Ok (RAttr a)) σ'
| st_setattr ino fh a σ' : same_store σ σ' → store_step σ (QSetattr ino None fh) (Ok (RAttr a)) σ'
| st_readlink ino b σ' : same_store σ σ' → store_step σ (QReadlink ino) (Ok (RData b)) σ'
| st_readdir ino off dir names es σ' :
    by_ino (s_inodes σ) !! ino = Some dir →
    upd None (foldl interned (s_inodes σ) (map (join dir) names)) (s_handles σ) σ σ' →
    store_step σ (QReaddir ino off) (Ok (RDirectory es)) σ'
| st_mkdir parent name mode umask rel r σ' :
    entry_at σ parent name rel → entry_or_error r → relinked (interned (s_inodes σ) rel) σ σ' →
    store_step σ (QMkdir parent name mode umask) r σ'
| st_symlink parent name target rel r σ' :
    entry_at σ parent name rel → entry_or_error r → relinked (interned (s_inodes σ) rel) σ σ' →
    store_step σ (QSymlink parent name target) r σ'
| st_link ino parent name rel r σ' :
    entry_at σ parent name rel → entry_or_error r → relinked (interned (s_inodes σ) rel) σ σ' →
    store_step σ (QLink ino parent name) r σ'
| st_unlink parent name rel σ' :
    entry_at σ parent name rel → relinked (forget_path (s_inodes σ) rel) σ σ' →
    (∀ p f, s_name σ' p f → s_name σ p f) → store_step σ (QUnlink parent name) (Ok ROk) σ'
| st_rmdir parent name rel σ' :
    entry_at σ parent name rel → relinked (forget_path (s_inodes σ) rel) σ σ' →
    (∀ p f, s_name σ' p f → s_name σ p f) → store_step σ (QRmdir parent name) (Ok ROk) σ'
| st_rename parent name newparent newname from to σ' :
    entry_at σ parent name from → entry_at σ newparent newname to →
    relinked (rename_path (s_inodes σ) from to) σ σ' →
    store_step σ (QRename parent name newparent newname) (Ok ROk) σ'
(** Opening *)
| st_open ino flags rel f v fh σ' :
    by_ino (s_inodes σ) !! ino = Some rel → s_name σ (at_ rel) f → shown σ rel f v →
    upd (emptied f flags v) (s_inodes σ) (<[fh := handle_on f flags v]> (s_handles σ)) σ σ' →
    store_step σ (QOpen ino flags) (Ok (ROpened fh)) σ'
| st_create parent name mode umask flags rel f fh r σ' :
    entry_at σ parent name rel → match r with Ok (RCreated _ fh') => fh' = fh | Err _ => True | _ => False end →
    makes σ rel flags f σ' → s_inodes σ' = interned (s_inodes σ) rel →
    s_handles σ' = <[fh := created_handle name f]> (s_handles σ) →
    store_step σ (QCreate parent name mode umask flags) r σ'
(** Reading *)
| st_read_raw fh off size f append b rest σ' :
    s_handles σ !! fh = Some (ARaw f append) → drop (Z.to_nat (as_i64 off)) (s_file σ f) = b ++ rest →
    (length b ≤ Z.to_nat size)%nat → same_store σ σ' → store_step σ (QRead fh off size) (Ok (RData b)) σ'
| st_read_text fh off size kind f served pending σ' :
    s_handles σ !! fh = Some (AText kind f served pending) → same_store σ σ' →
    store_step σ (QRead fh off size) (Ok (RData (read_slice (default served pending) off size))) σ'
| st_read_copy fh off size served σ' :
    s_handles σ !! fh = Some (ACopy served) → same_store σ σ' →
    store_step σ (QRead fh off size) (Ok (RData (read_slice served off size))) σ'
| st_read_dead fh off size σ' :
    s_handles σ !! fh = Some ADead → same_store σ σ' → store_step σ (QRead fh off size) (Err EIO) σ'
| st_read_none fh off size σ' :
    s_handles σ !! fh = None → same_store σ σ' → store_step σ (QRead fh off size) (Err EBADF) σ'
(** Writing *)
| st_write_raw fh off data f append n σ' :
    s_handles σ !! fh = Some (ARaw f append) → 0 <= n <= Z.of_nat (length data) → (data ≠ [] → 0 < n) →
    upd (Some (f, written (s_file σ f) (write_at append (s_file σ f) (Z.to_nat off)) (take (Z.to_nat n) data)))
      (s_inodes σ) (s_handles σ) σ σ' →
    store_step σ (QWrite fh off data) (Ok (RWritten (as_u32 n))) σ'
| st_write_text fh off data kind f served pending σ' :
    s_handles σ !! fh = Some (AText kind f served pending) →
    upd None (s_inodes σ)
      (<[fh := AText kind f served (Some (overwrite (default served pending) (Z.to_nat off) data))]> (s_handles σ)) σ σ' →
    store_step σ (QWrite fh off data) (Ok (RWritten (as_u32 (Z.of_nat (length data))))) σ'
| st_write_copy fh off data served σ' :
    s_handles σ !! fh = Some (ACopy served) → same_store σ σ' → store_step σ (QWrite fh off data) (Err EROFS) σ'
| st_write_dead fh off data σ' :
    s_handles σ !! fh = Some ADead → same_store σ σ' → store_step σ (QWrite fh off data) (Err EIO) σ'
| st_write_none fh off data σ' :
    s_handles σ !! fh = None → same_store σ σ' → store_step σ (QWrite fh off data) (Err EBADF) σ'
| st_resize ino sz fh kind f served pending r σ' :
    s_handles σ !! fh = Some (AText kind f served pending) →
    match r with Ok (RAttr a) => a_size a = sz | Err _ => True | _ => False end →
    upd None (s_inodes σ)
      (<[fh := AText kind f served (Some (resize_zero (Z.to_nat sz) (default served pending)))]> (s_handles σ)) σ σ' →
    store_step σ (QSetattr ino (Some sz) (Some fh)) r σ'
(** Truncation by path: only of files shown as they are *)
| st_truncate ino sz fh rel f v r σ' :
    by_ino (s_inodes σ) !! ino = Some rel → s_name σ (at_ rel) f → shown σ rel f v →
    match r with Ok (RAttr _) | Err _ => True | _ => False end →
    match v with
    | VPassthrough => upd (Some (f, resize_zero (Z.to_nat sz) (s_file σ f))) (s_inodes σ) (s_handles σ) σ σ'
    | VRedacted _ _ => same_store σ σ'
    | VKey _ | VFailed => False
    end →
    store_step σ (QSetattr ino (Some sz) fh) r σ'
(** Saving *)
| st_flush fh r σ' : saved σ fh r σ' → store_step σ (QFlush fh) (rbind r (λ _, Ok ROk)) σ'
| st_fsync fh r σ' : saved σ fh r σ' → store_step σ (QFsync fh) (rbind r (λ _, Ok ROk)) σ'
| st_release fh r σ1 σ' :
    saved σ fh r σ1 → upd None (s_inodes σ1) (delete fh (s_handles σ1)) σ1 σ' →
    store_step σ (QRelease fh) (rbind r (λ _, Ok ROk)) σ'.

(** A session: the requests and their replies, in order. *)
Inductive store_session σ : list Request → list (result Reply Z) → Store F → Prop :=
| ss_nil σ' : same_store σ σ' → store_session σ [] [] σ'
| ss_cons q r σ1 qs rs σ2 :
    store_step σ q r σ1 → store_session σ1 qs rs σ2 → store_session σ (q :: qs) (r :: rs) σ2.
End steps.
