(* ===== verification/StoreRefine.v ===== *)
(** * The overlay refines the abstract store

    The laws of the kernel this needs beyond [OsSpec] and [OsFiles], the
    abstraction of a state of the overlay, and that every request is a step of the
    store. *)

From S2P Require Import Prelude Eff Paths Lexical Access Inodes Redact Os Attr Overlay Handlers Fds.
From S2P Require Import OverlayInv OverlaySafety OverlayTheorems OverlayIo Termination Secrecy Store.

(** ** Laws *)

Section laws.
Context {W Fd : Type} `{OsSpec W Fd}.
Context (fs : OverlayFs Fd).

Abbreviation names := (λ w p f, resolves w (root fs) p f).

(** A call on names changes no file, and nothing when it fails. *)
Definition only_names {A} (call : W → W * result A Z) : Prop :=
  ∀ w, (∀ f, content (fst (call w)) f = content w f) ∧
       match snd (call w) with Ok _ => True | Err _ => ∀ p f, names (fst (call w)) p f ↔ names w p f end.

(** What a path opens is the one file it resolves to, to append if asked to; [O_CREAT] makes a new, empty
    file when there is none, and [O_TRUNC] empties an old one.  A failing open
    changes nothing.  The other calls on names change no contents. *)
Class OsStore : Prop := {
  resolves_one w q f g : names w q f → names w q g → f = g;
  store_openat q fl m w w' r :
    openat (root fs) q fl m w = (w', r) →
    match r with
    | Err _ => (∀ f, content w' f = content w f) ∧ ∀ p f, names w' p f ↔ names w p f
    | Ok fd =>
        ∃ f, fd_open w' fd = Some (f, appends fl) ∧
          (names w q f ∧ (∀ p g, names w' p g ↔ names w p g) ∧
           (if Z.land fl O_TRUNC =? 0 then ∀ g, content w' g = content w g
            else content w' f = [] ∧ ∀ g, g ≠ f → content w' g = content w g)
           ∨
           Z.land fl O_CREAT ≠ 0 ∧ (∀ p, ¬ names w p f) ∧ (∀ p g, g ≠ f → names w' p g ↔ names w p g) ∧
           content w' f = [] ∧ ∀ g, g ≠ f → content w' g = content w g)
    end;
  store_pread fd n off w w' r f :
    fd_file w fd = Some f → pread fd n off w = (w', r) →
    (∀ g, content w' g = content w g) ∧ (∀ p g, names w' p g ↔ names w p g) ∧
    ∀ b, r = Ok b → (length b ≤ Z.to_nat n)%nat ∧ ∃ rest, drop (Z.to_nat off) (content w f) = b ++ rest;
  store_readlinkat q w : quiet fs w (fst (readlinkat (root fs) q w));
  store_read_dir q fl w : quiet fs w (fst (read_dir (root fs) q fl w));
  store_mkdirat q m : only_names (mkdirat (root fs) q m);
  store_symlinkat t q : only_names (symlinkat t (root fs) q);
  store_linkat p q fl : only_names (linkat (root fs) p (root fs) q fl);
  store_renameat p q : only_names (renameat (root fs) p (root fs) q);
  store_unlinkat q how :
    only_names (unlinkat (root fs) q how) ∧
    ∀ w p f, names (fst (unlinkat (root fs) q how w)) p f → names w p f;
}.
End laws.

(** ** Abstraction *)

Section abstraction.
Context {W Fd G : Type} `{OsSpec W Fd}.
Context (fs : OverlayFs Fd).

Abbreviation ST := (St W Fd G).

Definition abs_handle (w : W) (h : Handle Fd) : option (AHandle Fid) :=
  match h with
  | HFile fd => (λ o, ARaw (fst o) (snd o)) <$> fd_open w fd
  | HRedacted kind fd served pending => (λ f, AText kind f served pending) <$> fd_file w fd
  | HKey served => Some (ACopy served)
  | HFailed => Some ADead
  end.

Definition abs_handles (w : W) (m : gmap Z (Handle Fd)) : gmap Z (AHandle Fid) := omap (abs_handle w) m.

Definition abs (s : ST) : Store Fid :=
  mkStore (content (st_world s)) (λ p f, resolves (st_world s) (root fs) p f) (st_inodes s)
    (abs_handles (st_world s) (fh_map (st_handles s))).

(** A handle whose descriptor is open. *)
Lemma abs_handle_open w m fh h :
  fds_ok fs w m → m !! fh = Some h → ∃ a, abs_handle w h = Some a ∧ abs_handles w m !! fh = Some a.
Proof.
  intros Hok Hm. unfold abs_handles. rewrite lookup_omap, Hm. cbn.
  destruct h as [fd|kind fd served p|b|]; cbn [abs_handle]; try by eexists.
  all: destruct (fds_open _ _ _ Hok fh _ fd Hm eq_refl) as [_ [f Hf]].
  - apply fd_file_open in Hf as [a ->]. by eexists.
  - rewrite Hf. by eexists.
Qed.

Lemma abs_handles_None w m fh : m !! fh = None → abs_handles w m !! fh = None.
Proof. intros Hm. unfold abs_handles. by rewrite lookup_omap, Hm. Qed.

Lemma abs_handle_world w w' h :
  (∀ fd o, owned h = Some fd → fd_open w fd = Some o → fd_open w' fd = Some o) →
  (∀ fd, owned h = Some fd → is_Some (fd_file w fd)) → abs_handle w' h = abs_handle w h.
Proof.
  intros Hw Ho. destruct h as [fd|kind fd served p|b|]; cbn [abs_handle owned] in *; [..|done|done];
    destruct (Ho fd eq_refl) as [f [a Ha]%fd_file_open]; unfold fd_file; by rewrite Ha, (Hw fd _ eq_refl Ha).
Qed.

(** The owned descriptors stay as they are. *)
Lemma abs_handles_world w w' m :
  fds_ok fs w m →
  (∀ fh h fd o, m !! fh = Some h → owned h = Some fd → fd_open w fd = Some o → fd_open w' fd = Some o) →
  abs_handles w' m = abs_handles w m.
Proof.
  intros Hok Hw. apply map_eq. intros fh. unfold abs_handles. rewrite !lookup_omap.
  destruct (m !! fh) as [h|] eqn:Hm; [|done]. cbn. apply abs_handle_world.
  - intros fd f. by apply (Hw fh h).
  - intros fd Ho. by eapply (fds_open _ _ _ Hok fh h).
Qed.

Lemma abs_handles_insert w m fh h a :
  abs_handle w h = Some a → abs_handles w (<[fh := h]> m) = <[fh := a]> (abs_handles w m).
Proof. intros Ha. unfold abs_handles. by apply omap_insert_Some. Qed.

Lemma abs_handles_delete w m fh : abs_handles w (delete fh m) = delete fh (abs_handles w m).
Proof. unfold abs_handles. apply omap_delete. Qed.

(** ** States the store does not tell apart *)

Record calm (s s' : ST) : Prop := {
  calm_quiet : quiet fs (st_world s) (st_world s');
  calm_inodes : st_inodes s' = st_inodes s;
  calm_handles : st_handles s' = st_handles s;
}.

#[export] Instance calm_preorder : PreOrder calm.
Proof.
  split; [intros s; by constructor|]. intros s1 s2 s3 [Hq1 Hi1 Hh1] [Hq2 Hi2 Hh2].
  constructor; [by etrans|congruence..].
Qed.

Lemma calm_tables s s' : quiet fs (st_world s) (st_world s') → tables s' = tables s → calm s s'.
Proof. intros Hq Ht. injection Ht as _ Hi Hh. by constructor. Qed.

Lemma calm_store s s' :
  fds_ok fs (st_world s) (fh_map (st_handles s)) → calm s s' → same_store (abs s) (abs s').
Proof.
  intros Hok [[[Hf Hc] Hn] Hi Hh]. constructor; cbn; [done|intros p f; symmetry; apply Hn|done|].
  rewrite Hh. apply abs_handles_world; [done|]. auto.
Qed.

End abstraction.

(** ** Operations that only look *)

Section outcomes.
Context {S : Type}.

(** One outcome, so its properties add up. *)
Lemma ends_and {A} (m : nat → M S A) (Q1 Q2 : A → S → Prop) s :
  ends m Q1 s → ends m Q2 s → ends m (λ a s', Q1 a s' ∧ Q2 a s') s.
Proof.
  intros (n1 & o1 & Ho1 & HQ1) (n2 & o2 & Ho2 & HQ2). exists (Nat.max n1 n2), o1.
  assert (o1 = o2) as -> by (rewrite <- (Ho1 (Nat.max n1 n2)) by lia; apply Ho2; lia).
  split; [intros k Hk; apply Ho1; lia|]. by destruct o2 as [[a s']| |].
Qed.

(** A property that holds from some fuel on holds of the outcome. *)
Lemma ends_from {A} (m : nat → M S A) (Q0 Q : A → S → Prop) n s :
  ends m Q0 s → (∀ k, (n ≤ k)%nat → wp True True (m k) Q s) → ends m Q s.
Proof.
  intros (n0 & o & Ho & HQ0) Hw. exists n0, o. split; [done|].
  specialize (Hw (Nat.max n0 n) ltac:(lia)). unfold wp in Hw. rewrite Ho in Hw by lia.
  by destruct o as [[a s']| |].
Qed.
End outcomes.

Section refine.
Context {W Fd G : Type} `{OsSpec W Fd, DirAccess G, Dotenvy, SerdeYaml}.
Context (fs : OverlayFs Fd) (dir_full : list DirEntry → DirEntry → bool) `{!OsFiles fs, !OsStore fs}.
Context (base : Fd → Prop).

Abbreviation ST := (St W Fd G).
Abbreviation fds_inv := (fds_inv (G := G) fs base).
Abbreviation calm := (calm (G := G) fs).
Abbreviation abs := (abs (G := G) fs).
Abbreviation names w := (λ p f, resolves w (root fs) p f).

Lemma inv_fds_ok (s : ST) : fds_inv s → fds_ok fs (st_world s) (fh_map (st_handles s)).
Proof. intros Hs. apply Hs. Qed.

(** Since [s0] nothing has changed for the store. *)
Definition tidy (s0 s : ST) : Prop := fds_inv s ∧ calm s0 s.

Lemma halts_tidy {A} s0 (m : nat → M ST A) :
  halts fds_inv m → (∀ s, fds_inv s → ends m (λ _ s', calm s s') s) → halts (tidy s0) m.
Proof.
  intros Hh Hc s [Hs Hc0]. eapply ends_mono; [apply ends_and; [by apply Hh|by apply Hc]|].
  cbn beta. intros a s' [? ?]. split; [done|by transitivity s].
Qed.

Lemma tidy_ends {A} (m : nat → M ST A) s : halts (tidy s) m → fds_inv s → ends m (λ _, tidy s) s.
Proof. intros Hm Hs. by apply Hm. Qed.

Lemma tidy_sys {A} s0 (call : W → W * A) :
  (∀ w, quiet fs w (fst (call w))) → (∀ w, same_open w (fst (call w))) → halts (tidy s0) (λ _, sys call).
Proof.
  intros Hq Ho. apply halts_tidy; [by apply halts_sys|]. intros s Hs. apply ends_wp, wp_sys. intros w r E.
  specialize (Hq (st_world s)). rewrite E in Hq. by constructor.
Qed.

Lemma tidy_gate s0 rel a : halts (tidy s0) (λ _, gate_allows fs rel a).
Proof.
  apply halts_tidy; [by apply halts_gate|]. intros s Hs. apply ends_wp.
  unfold gate_allows, wp, bind, get, modify, ret. destruct (st_gate s) as [g|]; [|done].
  by destruct (allow g _ a).
Qed.

Lemma tidy_stat s0 rel : halts (tidy s0) (λ _, stat fs rel).
Proof. apply tidy_sys; [apply fstatat_quiet|intros w; apply (fstatat_keeps fs)]. Qed.

Lemma tidy_from_stat s0 ino st : halts (tidy s0) (λ _, from_stat ino st).
Proof. unfold from_stat. destruct (attr_from_stat ino st); [apply halts_ret|apply halts_panic]. Qed.

(** What [view_for] finds. *)
Definition viewed (s : ST) (rel : path) (v : View) : Prop :=
  if redact_on fs then ∃ f, names (st_world s) (at_ rel) f ∧ shown true (abs s) rel f v else v = VPassthrough.

Lemma viewed_shown s rel v f :
  viewed s rel v → names (st_world s) (at_ rel) f → shown (redact_on fs) (abs s) rel f v.
Proof.
  unfold viewed, shown. destruct (redact_on fs); [|done]. intros (g & Hg & Hv) Hf.
  by rewrite (resolves_one fs _ _ _ _ Hf Hg).
Qed.

Lemma viewed_calm s s' rel v : calm s s' → viewed s rel v → viewed s' rel v.
Proof.
  intros [[[_ Hc] Hn] _ _]. unfold viewed, shown. destruct (redact_on fs); [|done].
  intros (f & Hf & Hv). exists f. split; [by apply Hn|]. cbn in *. by rewrite Hc.
Qed.

Lemma ends_view_for rel s :
  fds_inv s →
  ends (λ n, view_for fs n rel (name_of rel))
    (λ r s', tidy s s' ∧ ∀ v, r = Ok v → viewed s rel v) s.
Proof.
  intros Hs. pose proof (halts_view_for fs base rel (name_of rel) s Hs) as Hh.
  destruct (redact_on fs) eqn:Hr.
  2: { unfold viewed. rewrite Hr. eapply (ends_from _ _ _ 0); [exact Hh|]. intros k _. unfold view_for. rewrite Hr.
       apply wp_ret. split; [by split|]. by intros v [= <-]. }
  destruct (openat (root fs) (at_ rel) (Z.lor O_RDONLY O_CLOEXEC) 0 (st_world s)) as [w r] eqn:E.
  pose proof (openat_plain _ _ (Z.lor O_RDONLY O_CLOEXEC) _ _ _ _ eq_refl E) as (Hsf & Hn & _).
  pose proof (store_openat fs _ _ _ _ _ _ E) as Ho. destruct r as [fd|e].
  - destruct Ho as (f & _ & [(Hf & _)|[? _]]); [|done].
    eapply ends_mono; [apply ends_and; [exact Hh|]|].
    { eapply (ends_from _ _ _ (S (length (content (st_world s) f)))); [exact Hh|]. intros k Hk.
      eapply wp_weaken; [apply (view_for_spec fs k rel (name_of rel) f); [done|done|lia]|done|done]. }
    cbn beta. intros r s' (Hi & Hq & Ht & Hv). split; [split; [done|by apply calm_tables]|].
    intros v Ev. unfold viewed. rewrite Hr. exists f. split; [done|]. by apply Hv.
  - eapply ends_mono; [apply ends_and; [exact Hh|]|].
    { eapply (ends_from _ _ (λ r s', calm s s' ∧ ∃ e, r = Err e) 0); [exact Hh|]. intros k _.
      unfold view_for. rewrite Hr. cbn [negb]. apply wp_try, wp_sys. unfold open_real. intros w' r' E'.
      rewrite E in E'. injection E' as <- <-. split; [|by eexists]. constructor; [by split|done|done]. }
    cbn beta. intros r s' (Hi & Hc & e' & ->). split; [by split|done].
Qed.

Lemma tidy_view_for s0 rel : halts (tidy s0) (λ n, view_for fs n rel (name_of rel)).
Proof.
  apply halts_tidy; [by apply halts_view_for|]. intros s Hs. eapply ends_mono; [by apply ends_view_for|].
  cbn beta. by intros r s' [[_ ?] _].
Qed.

#[local] Hint Resolve halts_ret halts_panic halts_bind halts_try tidy_gate tidy_stat tidy_from_stat tidy_view_for : airgap.

(** The steps of an operation: constant parts first, then the sequencing rules. *)
Ltac tidied :=
  repeat first
    [ eauto with airgap; fail
    | apply halts_try; [|intros]
    | apply halts_bind; [|intros]
    | case_match ].

Lemma tidy_within s0 rel : halts (tidy s0) (λ _, symlink_target_within_overlay fs rel).
Proof.
  unfold symlink_target_within_overlay. apply halts_bind; [|intros [t|e]; apply halts_ret].
  apply tidy_sys; [by apply store_readlinkat|intros w; apply (readlinkat_keeps fs)].
Qed.

Lemma tidy_attr s0 ino rel : halts (tidy s0) (λ n, attr fs n ino rel).
Proof.
  unfold attr. apply halts_try; [apply tidy_stat|]. intros st. case_match.
  - unfold attr_link. apply halts_bind; [apply tidy_within|]. intros within. apply halts_bind; [tidied|].
    intros [len|]; [|tidied]. apply halts_try; [|intros; tidied].
    apply tidy_sys; [apply fstatat_quiet|intros w; apply (fstatat_keeps fs)].
  - unfold attr_other. tidied.
Qed.
End refine.
