(* ===== verification/StoreSteps.v ===== *)
(** * Every request is a step of the abstract store *)

From S2P Require Import Prelude Eff Paths Lexical Access Inodes Redact Os Attr Overlay Handlers Fds.
From S2P Require Import OverlayInv OverlaySafety OverlayTheorems OverlayIo Termination Secrecy Editing.
From S2P Require Import Store StoreRefine.

(** ** The flags of a passthrough open *)

Lemma passthrough_truncates flags :
  (Z.land (passthrough_oflag flags) O_TRUNC =? 0) = (Z.land flags O_TRUNC =? 0).
Proof.
  destruct (Z.eqb_spec (Z.land flags O_TRUNC) 0) as [Ht|Ht].
  - apply Z.eqb_eq. by apply plain_passthrough, land_bit in Ht as [_ ?].
  - by apply Z.eqb_neq, truncating_passthrough.
Qed.

Lemma passthrough_appends flags : appends (passthrough_oflag flags) = appends flags.
Proof.
  unfold appends, passthrough_oflag.
  destruct (_ =? O_WRONLY); [|destruct (_ =? O_RDWR)];
    destruct (Z.land flags O_APPEND =? 0), (Z.land flags O_TRUNC =? 0); reflexivity.
Qed.

Lemma passthrough_creates_not flags : Z.land (passthrough_oflag flags) O_CREAT = 0.
Proof.
  unfold passthrough_oflag.
  destruct (_ =? O_WRONLY); [|destruct (_ =? O_RDWR)];
    destruct (Z.land flags O_APPEND =? 0), (Z.land flags O_TRUNC =? 0); reflexivity.
Qed.

Section steps.
Context {W Fd G : Type} `{OsSpec W Fd, DirAccess G, Dotenvy, SerdeYaml}.
Context (fs : OverlayFs Fd) (dir_full : list DirEntry → DirEntry → bool) `{!OsFiles fs, !OsStore fs}.
Context (base : Fd → Prop).

Abbreviation ST := (St W Fd G).
Abbreviation fds_inv := (fds_inv (G := G) fs base).
Abbreviation holding := (holding (G := G) fs base).
Abbreviation abs := (abs (G := G) fs).
Abbreviation tidy := (tidy (G := G) fs base).
Abbreviation names w := (λ p f, resolves w (root fs) p f).
Abbreviation step := (store_step (F := Fid) (redact_on fs)).

(** ** Ways to a step *)

Lemma tidy_store s s' : fds_inv s → tidy s s' → same_store (abs s) (abs s').
Proof. intros Hs [_ Hc]. apply calm_store; [apply Hs|done]. Qed.

Lemma tidy_trans s1 s2 s3 : tidy s1 s2 → tidy s2 s3 → tidy s1 s3.
Proof. intros [_ H12] [? H23]. split; [done|by transitivity s2]. Qed.

Lemma tidy_fail s s' q e : fds_inv s → tidy s s' → may_fail (abs s) q → step (abs s) q (Err e) (abs s').
Proof. intros Hs Ht Hq. apply st_fail; [done|by apply tidy_store]. Qed.

Lemma ends_path {A} ino (k : nat → path → MR ST A) Q (s : ST) :
  Q (Err ENOENT) s → (∀ rel, by_ino (st_inodes s) !! ino = Some rel → ends (λ n, k n rel) Q s) →
  ends (λ n, with_path ino (k n)) Q s.
Proof.
  intros Hn Hk. unfold with_path. apply ends_bind, ends_wp. unfold wp, path_of, bind, get, ret.
  destruct (by_ino (st_inodes s) !! ino); [by apply Hk|by apply ends_wp].
Qed.

(** An operation that only looks, then the rest. *)
Lemma ends_looking {A B} (m : nat → MR ST A) (k : nat → A → MR ST B) Q (s : ST) :
  fds_inv s → halts (tidy s) m →
  (∀ e s', tidy s s' → Q (Err e) s') → (∀ a s', tidy s s' → ends (λ n, k n a) Q s') →
  ends (λ n, try_bind (m n) (k n)) Q s.
Proof.
  intros Hs Hm He Hk. apply ends_try. eapply ends_mono; [by apply tidy_ends|].
  cbn beta. intros [a|e] s' Hs'; auto.
Qed.

(** Closing a descriptor no handle owns. *)
Lemma close_store fd (s : ST) :
  fds_ok fs (st_world s) (fh_map (st_handles s)) → fd ≠ root fs → unowned (fh_map (st_handles s)) fd →
  same_store (abs s) (abs (with_world (close_fd fd (st_world s)) s)).
Proof.
  intros Hok Hr Hu. destruct (close_frame fd (st_world s)) as (Hf & Hc & Hn). constructor; cbn.
  - done.
  - intros p f. symmetry. by apply Hn.
  - done.
  - apply (abs_handles_world fs); [done|]. intros fh h fd' f Hm Ho. apply Hf. intros ->. by apply (Hu fh h).
Qed.

Lemma wp_drop_store h (s : ST) :
  books fs base (owned h) (st_world s) (fh_map (st_handles s)) →
  wp True False (drop_handle h) (λ _ s', same_store (abs s) (abs s')) s.
Proof.
  intros Hs. destruct h as [fd|kind fd served p|b|]; cbn [drop_handle]; [..|apply same_store_refl|apply same_store_refl].
  all: apply wp_sys; intros w [] [= <-]; destruct (books_extra _ _ _ _ _ Hs fd eq_refl) as (? & _ & ?);
    apply close_store; [apply Hs|done|done].
Qed.

(** A handle enters the table. *)
Lemma wp_insert_store h a (s : ST) :
  books fs base (owned h) (st_world s) (fh_map (st_handles s)) → abs_handle (st_world s) h = Some a →
  wp True False (handles_insert h)
    (λ fh s', upd None (s_inodes (abs s)) (<[fh := a]> (s_handles (abs s))) (abs s) (abs s')) s.
Proof.
  intros Hs Ha. unfold handles_insert. apply wp_bind. unfold wp at 1, get. apply wp_bind, wp_modify, wp_bind.
  set (id := next_fh (st_handles s)). set (s1 := with_handles _ s).
  assert (upd None (s_inodes (abs s)) (<[id := a]> (s_handles (abs s))) (abs s) (abs s1)) as Hu.
  { constructor; [done|done|done|]. cbn. by apply abs_handles_insert. }
  apply (books_insert fs base _ _ id) in Hs.
  assert (∀ s', same_store (abs s1) (abs s') →
    upd None (s_inodes (abs s)) (<[id := a]> (s_handles (abs s))) (abs s) (abs s')) as Hdone
    by (intros s'; by apply upd_same).
  destruct (fh_map (st_handles s) !! id) as [old|].
  - eapply wp_mono; [by apply wp_drop_store|]. intros [] s' Hs'. by apply wp_ret, Hdone.
  - by apply wp_ret, wp_ret, Hdone, same_store_refl.
Qed.

(** Opening the file behind a path. *)
Lemma wp_open_store rel fl m (s : ST) :
  fds_inv s → Z.land fl O_CREAT = 0 →
  wp True False (open_real fs rel fl m)
    (λ r s', match r with
             | Err _ => same_store (abs s) (abs s')
             | Ok fd => ∃ f, fd_open (st_world s') fd = Some (f, appends fl) ∧ names (st_world s) (at_ rel) f ∧
                 upd (if Z.land fl O_TRUNC =? 0 then None else Some (f, [])) (s_inodes (abs s))
                   (s_handles (abs s)) (abs s) (abs s')
             end) s.
Proof.
  intros Hs Hfl. apply wp_sys. intros w r E. pose proof (openat_new fs _ _ _ _ _ _ E) as Hn.
  pose proof (store_openat fs _ _ _ _ _ _ E) as Ho.
  destruct r as [fd|e].
  - destruct Ho as (f & Hf & [(Hr & Hnames & Hc)|[? _]]); [|done]. exists f. split_and!; [done|done|].
    destruct Hn as (_ & _ & _ & Hkeep & _).
    constructor; cbn; [|done|done|apply (abs_handles_world fs); [apply Hs|]; intros; by apply Hkeep].
    by destruct (Z.land fl O_TRUNC =? 0).
  - destruct Ho as [Hc Hnames]. constructor; cbn; [done|done|done|].
    apply (abs_handles_world fs); [apply Hs|]. intros fh h fd f _ _. by rewrite Hn.
Qed.

(** The attributes end a request that has changed the store before. *)
Lemma ends_attr_last ino rel (mk : FileAttr → Reply) Q (s : ST) :
  fds_inv s → (∀ a s', same_store (abs s) (abs s') → Q (Ok (mk a)) s') →
  (∀ e s', same_store (abs s) (abs s') → Q (Err e) s') →
  ends (λ n, let!? a := attr fs n ino rel in ret (Ok (mk a))) Q s.
Proof.
  intros Hs Hok He. apply (ends_looking (λ n, attr fs n ino rel)); [done|by apply tidy_attr|..].
  - intros e s' Ht. apply He. by apply tidy_store.
  - intros a s' Ht. apply ends_wp, wp_ret, Hok. by apply tidy_store.
Qed.


(** [self.intern(rel); self.attr(ino, &rel)] *)
Lemma ends_entry_store rel (s : ST) :
  fds_inv s →
  ends (λ n, entry_reply fs n rel)
    (λ r s', entry_or_error r ∧
       upd None (interned (st_inodes s) rel) (s_handles (abs s)) (abs s) (abs s')) s.
Proof.
  intros Hs. unfold entry_reply. apply ends_bind, ends_wp. unfold wp, intern_path, interned, bind, get, modify, ret.
  destruct (intern (st_inodes s) rel) as [t ino] eqn:Ei. cbn [fst].
  assert (upd None t (s_handles (abs s)) (abs s) (abs (with_inodes t s))) as Hu by (by constructor).
  assert (fds_inv (with_inodes t s)) as Hs1 by done.
  apply (ends_attr_last ino rel REntry); [done|..]; intros x s' Hsame; (split; [done|]); by eapply upd_same.
Qed.

(** ** Names and attributes *)

Lemma step_lookup_ parent name (s : ST) :
  fds_inv s → ends (λ n, lookup_ fs n parent name) (λ r s', step (abs s) (QLookup parent name) r (abs s')) s.
Proof.
  intros Hs. apply ends_path; [by apply (tidy_fail s s)|]. intros dir Hd.
  apply ends_looking; [done|by apply tidy_stat|intros e s1 Ht; by apply tidy_fail|].
  intros st s1 Ht. pose proof (tidy_store _ _ Hs Ht) as Hsame. destruct Ht as [Hs1 Hc].
  eapply ends_mono; [by apply ends_entry_store|]. cbn beta. intros r s' [Hr Hu].
  eapply st_lookup; [by exists dir|done|]. eapply same_upd; [done|].
  rewrite (upd_handles _ _ _ _ _ Hsame), (calm_inodes _ _ _ Hc) in Hu. exact Hu.
Qed.

Lemma step_getattr ino (s : ST) :
  fds_inv s → ends (λ n, getattr fs n ino) (λ r s', step (abs s) (QGetattr ino) r (abs s')) s.
Proof.
  intros Hs. apply ends_path; [by apply (tidy_fail s s)|]. intros rel Hrel.
  apply (ends_attr_last ino rel RAttr); [done|..]; intros x s' Hsame; [by apply st_getattr|by apply st_fail].
Qed.

Lemma step_readlink ino (s : ST) :
  fds_inv s → ends (λ _, readlink fs ino) (λ r s', step (abs s) (QReadlink ino) r (abs s')) s.
Proof.
  intros Hs. apply (ends_path ino (λ _ rel, let!? target := sys (readlinkat (root fs) (at_ rel)) in ret (Ok (RData target))));
    [by apply (tidy_fail s s)|]. intros rel Hrel.
  apply (ends_looking (λ _, sys (readlinkat (root fs) (at_ rel)))); [done| |intros e s1 Ht; by apply tidy_fail|].
  - apply tidy_sys; [by apply store_readlinkat|intros w; apply (readlinkat_keeps fs)].
  - intros b s1 Ht. apply ends_wp, wp_ret, st_readlink. by apply tidy_store.
Qed.

(** The children of a directory are given numbers. *)
Lemma wp_collect_store dir items (s : ST) :
  wp True False (collect_entries dir items)
    (λ es s', ∃ ns, st_inodes s' = foldl interned (st_inodes s) (map (join dir) ns) ∧
              st_world s' = st_world s ∧ st_handles s' = st_handles s) s.
Proof.
  revert s. induction items as [|[[raw t]|e] items IH]; intros s; cbn [collect_entries].
  - by exists [].
  - case_match; [apply IH|]. apply wp_bind. unfold wp at 1, intern_path, bind, get, modify, ret.
    destruct (intern (st_inodes s) (join dir raw)) as [t' ino] eqn:Ei. apply wp_bind.
    eapply wp_mono; [apply IH|]. cbn beta. intros es s' (ns & Hi & Hw & Hh). apply wp_ret.
    exists (raw :: ns). cbn [map foldl]. unfold interned at 2. rewrite Ei. by split_and!.
  - apply IH.
Qed.

Lemma step_readdir ino off (s : ST) :
  fds_inv s → ends (λ _, readdir fs dir_full ino off) (λ r s', step (abs s) (QReaddir ino off) r (abs s')) s.
Proof.
  intros Hs. unfold readdir.
  apply (ends_path ino (λ _ dir_rel, let!? items := sys _ in let! children := _ in ret _));
    [by apply (tidy_fail s s)|]. intros dir Hd.
  apply (ends_looking (λ _, sys _)); [done| |intros e s1 Ht; by apply tidy_fail|].
  - apply tidy_sys; [by apply store_read_dir|intros w; apply (read_dir_keeps fs)].
  - intros items s1 Ht. pose proof (tidy_store _ _ Hs Ht) as Hsame. destruct Ht as [Hs1 Hc].
    apply ends_wp, wp_bind. eapply wp_mono; [apply wp_collect_store|]. cbn beta.
    intros es s2 (ns & Hi & Hw & Hh). apply wp_ret.
    apply (st_readdir _ _ _ _ dir ns); [done|]. eapply same_upd; [done|].
    constructor; cbn; [by rewrite Hw|by rewrite Hw| |].
    + by rewrite Hi, (calm_inodes _ _ _ Hc).
    + rewrite Hw, Hh. apply (upd_handles _ _ _ _ _ Hsame).
Qed.

(** A call on names that changes no file. *)
Lemma wp_names_store {A} (call : W → W * result A Z) (s : ST) :
  fds_inv s → only_names fs call → (∀ w, same_open w (fst (call w))) →
  wp True False (sys call)
    (λ r s', fds_inv s' ∧ st_inodes s' = st_inodes s ∧
       match r with Ok _ => relinked (st_inodes s) (abs s) (abs s') | Err _ => same_store (abs s) (abs s') end ∧
       call (st_world s) = (st_world s', r)) s.
Proof.
  intros Hs Hc Ho. apply wp_sys. intros w r E. destruct (Hc (st_world s)) as [Hf Hn]. specialize (Ho (st_world s)).
  rewrite E in Hf, Hn, Ho. cbn in Hf, Hn, Ho.
  assert (abs_handles w (fh_map (st_handles s)) = abs_handles (st_world s) (fh_map (st_handles s))) as Hh.
  { apply (abs_handles_world fs); [apply Hs|]. intros fh h fd f _ _. by rewrite Ho. }
  split_and!; [by apply inv_world|done| |done]. destruct r; by constructor.
Qed.

(** [mkdir], [symlink] and [link]: the call, then the entry. *)
Lemma ends_new_name {A} (call : W → W * result A Z) rel Q (s : ST) :
  fds_inv s → only_names fs call → (∀ w, same_open w (fst (call w))) →
  (∀ e s', same_store (abs s) (abs s') → Q (Err e) s') →
  (∀ r s', entry_or_error r → relinked (interned (st_inodes s) rel) (abs s) (abs s') → Q r s') →
  ends (λ n, let!? _ := sys call in entry_reply fs n rel) Q s.
Proof.
  intros Hs Hc Ho He Hr. apply ends_try, ends_wp. eapply wp_mono; [by apply wp_names_store|]. cbn beta.
  intros [a|e] s1 (Hs1 & Hi & Hl & _); [|by apply He]. eapply ends_mono; [by apply ends_entry_store|].
  cbn beta. intros r s' [Hok Hu]. apply Hr; [done|]. rewrite Hi in Hu. by eapply relinked_upd.
Qed.

Lemma step_mkdir parent name mode umask (s : ST) :
  fds_inv s →
  ends (λ n, mkdir fs n parent name mode umask) (λ r s', step (abs s) (QMkdir parent name mode umask) r (abs s')) s.
Proof.
  intros Hs. apply ends_path; [by apply (tidy_fail s s)|]. intros dir Hd.
  apply ends_new_name; [done|by apply store_mkdirat|intros w; apply (mkdirat_keeps fs)|..].
  - intros e s' Hsame. by apply st_fail.
  - intros r s' Hr Hl. eapply st_mkdir; [by exists dir|done|done].
Qed.

Lemma step_symlink parent name target (s : ST) :
  fds_inv s →
  ends (λ n, symlink fs n parent name target) (λ r s', step (abs s) (QSymlink parent name target) r (abs s')) s.
Proof.
  intros Hs. apply ends_path; [by apply (tidy_fail s s)|]. intros dir Hd.
  apply ends_new_name; [done|by apply store_symlinkat|intros w; apply (symlinkat_keeps fs)|..].
  - intros e s' Hsame. by apply st_fail.
  - intros r s' Hr Hl. eapply st_symlink; [by exists dir|done|done].
Qed.

Lemma step_link ino parent name (s : ST) :
  fds_inv s →
  ends (λ n, link fs n ino parent name) (λ r s', step (abs s) (QLink ino parent name) r (abs s')) s.
Proof.
  intros Hs. apply ends_path; [by apply (tidy_fail s s)|]. intros old Hold.
  apply ends_path; [by apply (tidy_fail s s)|]. intros dir Hd.
  apply ends_new_name; [done|by apply store_linkat|intros w; apply (linkat_keeps fs)|..].
  - intros e s' Hsame. by apply st_fail.
  - intros r s' Hr Hl. eapply st_link; [by exists dir|done|done].
Qed.

Lemma step_remove how parent name (s : ST) :
  fds_inv s →
  ends (λ _, remove_entry fs how parent name)
    (λ r s', match r with
       | Ok ROk => ∃ rel, entry_at (abs s) parent name rel ∧
                     relinked (forget_path (st_inodes s) rel) (abs s) (abs s') ∧
                     ∀ p f, s_name (abs s') p f → s_name (abs s) p f
       | Ok _ => False
       | Err _ => same_store (abs s) (abs s')
       end) s.
Proof.
  intros Hs. unfold remove_entry. apply (ends_path parent (λ _ dir, try_bind (sys _) _)); [apply same_store_refl|].
  intros dir Hd. apply ends_try, ends_wp.
  destruct (store_unlinkat fs (at_ (join dir name)) how) as [Hn Hshrink].
  eapply wp_mono; [apply wp_names_store; [done|exact Hn|intros w; apply (unlinkat_keeps fs)]|]. cbn beta.
  intros [a|e] s1 (Hs1 & Hi & Hl & E); [|done]. apply ends_wp, wp_bind, wp_modify, wp_ret.
  exists (join dir name). split_and!; [by exists dir| |].
  - destruct Hl as [Hf _ Hh]. constructor; cbn; [done|by rewrite Hi|done].
  - intros p f Hp. specialize (Hshrink (st_world s) p f). rewrite E in Hshrink. by apply Hshrink.
Qed.

Lemma step_unlink parent name (s : ST) :
  fds_inv s → ends (λ _, unlink fs parent name) (λ r s', step (abs s) (QUnlink parent name) r (abs s')) s.
Proof.
  intros Hs. eapply ends_mono; [by apply step_remove|]. cbn beta.
  intros [[]|e] s' Hr; try done; [|by apply st_fail]. destruct Hr as (rel & ? & ? & ?). by eapply st_unlink.
Qed.

Lemma step_rmdir parent name (s : ST) :
  fds_inv s → ends (λ _, rmdir fs parent name) (λ r s', step (abs s) (QRmdir parent name) r (abs s')) s.
Proof.
  intros Hs. eapply ends_mono; [by apply step_remove|]. cbn beta.
  intros [[]|e] s' Hr; try done; [|by apply st_fail]. destruct Hr as (rel & ? & ? & ?). by eapply st_rmdir.
Qed.

Lemma step_rename parent name newparent newname (s : ST) :
  fds_inv s →
  ends (λ _, rename fs parent name newparent newname)
    (λ r s', step (abs s) (QRename parent name newparent newname) r (abs s')) s.
Proof.
  intros Hs. unfold rename. apply (ends_path parent (λ _ dir, with_path newparent _)); [by apply (tidy_fail s s)|].
  intros dir Hd. apply (ends_path newparent (λ _ newdir, try_bind (sys _) _)); [by apply (tidy_fail s s)|].
  intros newdir Hnd. apply ends_try, ends_wp.
  eapply wp_mono; [apply wp_names_store; [done|by apply store_renameat|intros w; apply (renameat_keeps fs)]|].
  cbn beta. intros [a|e] s1 (Hs1 & Hi & Hl & _); [|by apply st_fail]. apply ends_wp, wp_bind, wp_modify, wp_ret.
  eapply st_rename; [by exists dir|by exists newdir|].
  destruct Hl as [Hf _ Hh]. constructor; cbn; [done|by rewrite Hi|done].
Qed.

(** ** Opening *)

Lemma wp_open_handle_store rel flags v (s : ST) :
  fds_inv s → viewed fs s rel v →
  wp True False (open_handle fs rel flags v)
    (λ r s', match r with
       | Err _ => same_store (abs s) (abs s')
       | Ok h => ∃ f, names (st_world s) (at_ rel) f ∧ abs_handle (st_world s') h = Some (handle_on f flags v) ∧
                   upd (emptied f flags v) (s_inodes (abs s)) (s_handles (abs s)) (abs s) (abs s')
       end) s.
Proof.
  intros Hs Hv. destruct v as [|kind b|b|]; cbn [open_handle].
  - apply wp_try. eapply wp_mono; [apply wp_open_store; [done|apply passthrough_creates_not]|]. cbn beta.
    intros [fd|e] s1; [|done]. intros (f & Hf & Hr & Hu). apply wp_ret. exists f. cbn. rewrite Hf.
    cbn. rewrite passthrough_appends. split_and!; [done|done|]. unfold truncates. rewrite passthrough_truncates in Hu.
    by destruct (Z.land flags O_TRUNC =? 0).
  - apply wp_try. eapply wp_mono; [by apply wp_open_store|]. cbn beta. intros [fd|e] s1; [|done].
    intros (f & Hf & Hr & Hu). apply wp_ret. exists f. cbn. unfold fd_file. by rewrite Hf.
  - unfold viewed in Hv. destruct (redact_on fs); [|done]. destruct Hv as (f & Hf & _).
    apply wp_ret. exists f. split_and!; [done|done|apply (same_store_refl (abs s))].
  - unfold viewed in Hv. destruct (redact_on fs); [|done]. destruct Hv as (f & Hf & _).
    apply wp_ret. exists f. split_and!; [done|done|apply (same_store_refl (abs s))].
Qed.

Lemma step_open ino flags (s : ST) :
  fds_inv s → ends (λ n, open fs n ino flags) (λ r s', step (abs s) (QOpen ino flags) r (abs s')) s.
Proof.
  intros Hs. apply ends_path; [by apply (tidy_fail s s)|]. intros rel Hrel.
  apply ends_bind. eapply ends_mono; [by apply tidy_ends, Hs; apply (tidy_gate fs)|]. cbn beta. intros ok s1 Ht1.
  destruct ok; cbn [negb]; [|by apply ends_wp, wp_ret, tidy_fail].
  apply ends_try. eapply ends_mono; [apply (ends_view_for fs base rel s1), Ht1|]. cbn beta.
  intros [v|e] s2 [Ht2 Hv]; [|apply tidy_fail; [done|by apply (tidy_trans s s1)|done]].
  specialize (Hv v eq_refl). apply (viewed_calm fs s1 s2) in Hv; [|apply Ht2].
  pose proof (tidy_store _ _ Hs (tidy_trans _ _ _ Ht1 Ht2)) as Hsame. destruct Ht2 as [Hs2 _].
  apply ends_try, ends_wp. eapply wp_mono; [apply wp_and; [by apply wp_open_handle|by apply wp_open_handle_store]|].
  cbn beta. intros [h|e] s3 [Hb Hu]; [|apply st_fail; [done|by eapply same_store_trans]].
  destruct Hu as (f & Hf & Ha & Hu). apply ends_wp, wp_bind. eapply wp_mono; [by apply wp_insert_store|]. cbn beta.
  intros fh s4 Hu4. apply wp_ret.
  assert (names (st_world s) (at_ rel) f) as Hf0 by (by apply (upd_names _ _ _ _ _ Hsame) in Hf).
  eapply (st_open _ _ ino flags rel f v fh); [done|exact Hf0| |].
  - eapply shown_same; [exact Hsame|]. by eapply viewed_shown.
  - rewrite (upd_handles _ _ _ _ _ Hu), (upd_inodes _ _ _ _ _ Hu) in Hu4.
    rewrite (upd_handles _ _ _ _ _ Hsame), (upd_inodes _ _ _ _ _ Hsame) in Hu4.
    eapply same_upd; [exact Hsame|]. eapply upd_tables; [exact Hu|exact Hu4].
Qed.
End steps.
