(* ===== verification/StoreWrites.v ===== *)
(** * Steps of the abstract store that write

    Creating, reading, writing, truncating and saving, then any request, then a
    whole session. *)

From S2P Require Import Prelude Eff Paths Lexical Access Inodes Redact Os Attr Overlay Handlers Fds.
From S2P Require Import OverlayInv OverlaySafety OverlayTheorems OverlayIo Termination Secrecy Editing.
From S2P Require Import Store StoreRefine StoreSteps.

Section writes.
Context {W Fd G : Type} `{OsSpec W Fd, DirAccess G, Dotenvy, SerdeYaml}.
Context (fs : OverlayFs Fd) (dir_full : list DirEntry → DirEntry → bool) `{!OsFiles fs, !OsStore fs}.
Context (base : Fd → Prop).

Abbreviation ST := (St W Fd G).
Abbreviation fds_inv := (fds_inv (G := G) fs base).
Abbreviation holding := (holding (G := G) fs base).
Abbreviation abs := (abs (G := G) fs).
Abbreviation tidy := (tidy (G := G) fs base).
Abbreviation names w := (λ p f, resolves w (root fs) p f).
Abbreviation step := (store_step (F := Fid) (redact_on fs)).

(** ** Creating *)

(** The flags [create] opens with. *)
Abbreviation create_oflag flags :=
  (if negb (Z.land flags O_TRUNC =? 0) then Z.lor (Z.lor (Z.lor O_CREAT O_RDWR) O_CLOEXEC) O_TRUNC
   else Z.lor (Z.lor O_CREAT O_RDWR) O_CLOEXEC).

Lemma create_appends_not flags : appends (create_oflag flags) = false.
Proof. by destruct (Z.land flags O_TRUNC =? 0). Qed.

Lemma wp_create_store rel flags m (s : ST) :
  fds_inv s →
  wp True False (open_real fs rel (create_oflag flags) m)
    (λ r s', match r with
             | Err _ => same_store (abs s) (abs s')
             | Ok fd => ∃ f, fd_open (st_world s') fd = Some (f, false) ∧ makes (abs s) rel flags f (abs s') ∧
                 s_inodes (abs s') = s_inodes (abs s) ∧ s_handles (abs s') = s_handles (abs s)
             end) s.
Proof.
  intros Hs. apply wp_sys. intros w r E. pose proof (openat_new fs _ _ _ _ _ _ E) as Hn.
  pose proof (store_openat fs _ _ _ _ _ _ E) as Ho. destruct r as [fd|e].
  - destruct Hn as (_ & _ & _ & Hkeep & _). destruct Ho as (f & Hf & Hc). exists f.
    rewrite create_appends_not in Hf. split_and!; [done| |done|].
    2: { apply (abs_handles_world fs); [apply Hs|]. intros; by apply Hkeep. }
    destruct Hc as [(Hr & Hnames & Hc)|(_ & Hr & Hnames & Hc)]; [|by apply makes_new].
    apply makes_old; [done|done|]. unfold truncates. by destruct (Z.land flags O_TRUNC =? 0).
  - destruct Ho as [Hc Hnames]. constructor; cbn; [done|done|done|].
    apply (abs_handles_world fs); [apply Hs|]. intros fh h fd f _ _. by rewrite Hn.
Qed.

Lemma step_create parent name mode umask flags (s : ST) :
  fds_inv s →
  ends (λ n, create fs n parent name mode umask flags)
    (λ r s', step (abs s) (QCreate parent name mode umask flags) r (abs s')) s.
Proof.
  intros Hs. apply ends_path; [by apply (tidy_fail fs base s s)|]. intros dir Hd. set (rel := join dir name).
  apply ends_bind. eapply ends_mono; [by apply (tidy_ends fs base), Hs; apply (tidy_gate fs)|]. cbn beta.
  intros ok s1 Ht1. destruct ok; cbn [negb]; [|by apply ends_wp, wp_ret, (tidy_fail fs base)].
  pose proof (tidy_store fs base _ _ Hs Ht1) as Hsame. destruct Ht1 as [Hs1 Hc1].
  apply ends_try, ends_wp.
  eapply wp_mono; [apply wp_and; [by apply (wp_open fs base)|by apply wp_create_store]|]. cbn beta.
  intros [fd|e] s2 [Hs2 Ho]; [|apply st_fail; [done|by eapply same_store_trans]].
  destruct Ho as (f & Hf & Hm & Hi2 & Hh2).
  apply ends_bind, ends_wp. unfold wp, intern_path, bind at 1, get, modify, ret.
  destruct (intern (st_inodes s2) rel) as [t ino] eqn:Ei.
  set (h := match create_kind fs name with Some kind => HRedacted kind fd [] (Some []) | None => HFile fd end).
  assert (owned h = Some fd) as Ho by (unfold h; by destruct (create_kind fs name)).
  assert (abs_handle (st_world s2) h = Some (created_handle (redact_on fs) name f)) as Ha.
  { unfold h, created_handle. change (created_kind (redact_on fs) name) with (create_kind fs name).
    destruct (create_kind fs name); cbn; unfold fd_file; by rewrite Hf. }
  apply ends_bind, ends_wp.
  eapply wp_mono; [apply wp_and; [apply (wp_insert fs base h (with_inodes t s2)); by rewrite Ho|
    apply (wp_insert_store fs base h (created_handle (redact_on fs) name f) (with_inodes t s2)); [by rewrite Ho|exact Ha]]|]. cbn beta.
  intros fh s3 [Hs3 Hu].
  assert (∀ r s4, same_store (abs s3) (abs s4) →
    match r with Ok (RCreated _ fh') => fh' = fh | Err _ => True | _ => False end →
    step (abs s) (QCreate parent name mode umask flags) r (abs s4)) as Hdone.
  { intros r s4 H34 Hr. pose proof (upd_same _ _ _ _ _ _ Hu H34) as Hu4.
    eapply (st_create _ _ _ _ _ _ _ rel f fh); [by exists dir|done| | |].
    - eapply makes_upd; [eapply same_makes; [exact Hsame|exact Hm]|].
      destruct Hu4 as [Huf Hun Hui Huh]. by constructor.
    - rewrite (upd_inodes _ _ _ _ _ Hu4). cbn in Hi2 |- *. unfold interned.
      by rewrite <- (calm_inodes _ _ _ Hc1), <- Hi2, Ei.
    - rewrite (upd_handles _ _ _ _ _ Hu4). f_equal. rewrite <- (upd_handles _ _ _ _ _ Hsame). exact Hh2. }
  apply (ends_attr_last fs base ino rel (λ a, RCreated a fh)); [done|..]; intros x s4 H34; by apply Hdone.
Qed.

(** ** Contents *)

Lemma only_file_store f w (s : ST) :
  fds_inv s → only_file fs f (st_world s) w →
  upd (Some (f, content w f)) (s_inodes (abs s)) (s_handles (abs s)) (abs s) (abs (with_world w s)).
Proof.
  intros Hs (Hf & Hc & Hn). constructor; cbn; [done|intros p g; symmetry; apply Hn|done|].
  apply (abs_handles_world fs); [apply Hs|]. auto.
Qed.

(** A handle and what it is in the store. *)
Lemma abs_lookup fh (s : ST) :
  s_handles (abs s) !! fh = fh_map (st_handles s) !! fh ≫= abs_handle (st_world s).
Proof. apply lookup_omap. Qed.

Lemma handle_file fh h fd (s : ST) :
  fds_inv s → fh_map (st_handles s) !! fh = Some h → owned h = Some fd → ∃ f, fd_file (st_world s) fd = Some f.
Proof. intros Hs Hm Ho. by destruct (fds_open _ _ _ (books_ok _ _ _ _ _ Hs) fh _ fd Hm Ho) as [_ ?]. Qed.

(** A handle on a file is replaced by another on it. *)
Lemma wp_set_store fh h h' a (s : ST) :
  fds_inv s → fh_map (st_handles s) !! fh = Some h → owned h' = owned h → abs_handle (st_world s) h' = Some a →
  wp True False (set_handle fh h')
    (λ _ s', fds_inv s' ∧ upd None (s_inodes (abs s)) (<[fh := a]> (s_handles (abs s))) (abs s) (abs s')) s.
Proof.
  intros Hs Hm Ho Ha. apply wp_modify. split; [by eapply books_update|].
  constructor; [done|done|done|]. cbn. by apply abs_handles_insert.
Qed.

(** ** Truncating *)

Lemma as_i64_fits x : x <= isize_max → as_i64 x = x.
Proof. intros Hx. unfold as_i64. by rewrite (proj2 (Z.leb_le _ _)). Qed.

(** A scope that owns [fd], around a call that changes its file only. *)
Lemma wp_owning_store {A} fd f (call : W → W * result A Z) (c : bytes) (s : ST) :
  holding fd s → (∀ w, same_open w (fst (call w))) →
  (∀ w r, call (st_world s) = (w, r) →
     only_file fs f (st_world s) w ∧
     content w f = match r with Ok _ => c | Err _ => content (st_world s) f end) →
  wp True False (owning fd (sys call))
    (λ r s', match r with
             | Ok _ => upd (Some (f, c)) (s_inodes (abs s)) (s_handles (abs s)) (abs s) (abs s')
             | Err _ => same_store (abs s) (abs s')
             end) s.
Proof.
  intros Hs Hk Hcall. apply wp_bind, wp_sys. intros w r E. destruct (Hcall w r E) as [Ho Hc].
  specialize (Hk (st_world s)). rewrite E in Hk. cbn in Hk.
  assert (holding fd (with_world w s)) as Hs1 by (by apply (books_world fs base (Some fd) (st_world s))).
  assert (upd (Some (f, content w f)) (s_inodes (abs s)) (s_handles (abs s)) (abs s) (abs (with_world w s))) as Hu.
  { destruct Ho as (Hf & Ho & Hn). constructor; cbn; [done|intros p g; symmetry; apply Hn|done|].
    apply (abs_handles_world fs); [apply Hs|]. auto. }
  apply wp_bind, wp_sys. intros w2 [] [= <-]. apply wp_ret.
  destruct (books_extra _ _ _ _ _ Hs1 fd eq_refl) as (? & _ & ?).
  assert (same_store (abs (with_world w s)) (abs (with_world (close_fd fd w) (with_world w s)))) as Hcl
    by (apply (close_store fs fd (with_world w s)); [apply Hs1|done|done]).
  rewrite Hc in Hu. destruct r as [a|e]; [by eapply upd_same|].
  apply (upd_same _ _ _ _ (abs (with_world w s))); [|exact Hcl]. by apply (upd_idle f).
Qed.

(** What [truncate_path] does to the file. *)
Definition truncated (σ σ' : Store Fid) (f : Fid) (sz : Z) (v : View) : Prop :=
  match v with
  | VPassthrough => upd (Some (f, resize_zero (Z.to_nat sz) (s_file σ f))) (s_inodes σ) (s_handles σ) σ σ'
  | VRedacted _ _ => same_store σ σ'
  | VKey _ | VFailed => False
  end.

Lemma same_truncated σ σ1 σ2 f sz v : same_store σ σ1 → truncated σ1 σ2 f sz v → truncated σ σ2 f sz v.
Proof.
  intros Hs1. destruct v; cbn; [|by apply same_store_trans|done..]. intros Hs2.
  pose proof (same_upd _ _ _ _ _ _ Hs1 Hs2) as Hu. destruct Hs1 as [Hf _ Hi Hh].
  by rewrite (Hf f), Hi, Hh in Hu.
Qed.

Lemma truncated_same σ σ1 σ2 f sz v : truncated σ σ1 f sz v → same_store σ1 σ2 → truncated σ σ2 f sz v.
Proof. destruct v; cbn; [by apply upd_same|by apply same_store_trans|done..]. Qed.

Lemma ends_truncate rel sz (s : ST) :
  fds_inv s → 0 <= sz <= isize_max →
  ends (λ n, truncate_path fs n rel sz)
    (λ r s', fds_inv s' ∧
       match r with
       | Ok _ => ∃ f v, names (st_world s) (at_ rel) f ∧ shown (redact_on fs) (abs s) rel f v ∧
                        truncated (abs s) (abs s') f sz v
       | Err _ => same_store (abs s) (abs s')
       end) s.
Proof.
  intros Hs Hsz. apply ends_and; [by apply halts_truncate_path|].
  apply ends_try. eapply ends_mono; [by apply (ends_view_for fs base rel s)|]. cbn beta.
  intros [v|e] s1 [Ht Hv]; [|by apply (tidy_store fs base)]. specialize (Hv v eq_refl).
  pose proof (tidy_store fs base _ _ Hs Ht) as Hsame. destruct Ht as [Hs1 _].
  destruct v as [|kind b|b|]; [|apply ends_wp, wp_ret..|]; [|..|by apply ends_wp, wp_ret].
  2: { unfold viewed in Hv. destruct (redact_on fs) eqn:Hr; [|done]. destruct Hv as (f & Hf & Hv). by exists f, (VRedacted kind b). }
  2: done.
  apply ends_try, ends_wp.
  eapply wp_mono; [apply wp_and; [by apply (wp_open fs base)|by apply (wp_open_store fs base)]|]. cbn beta.
  intros [fd|e] s2 [Hs2 Ho]; [|by eapply same_store_trans]. destruct Ho as (f & Hf & Hr & Hu2).
  assert (names (st_world s) (at_ rel) f) as Hr0 by (by apply (upd_names _ _ _ _ _ Hsame) in Hr).
  apply ends_wp. eapply wp_mono.
  { apply (wp_owning_store fd f _ (resize_zero (Z.to_nat sz) (content (st_world s2) f))); [done| |].
    - intros w. apply (ftruncate_keeps fs).
    - intros w r E. rewrite as_i64_fits in E by lia.
      destruct (ftruncate_truncates fd sz _ _ _ f _ Hf ltac:(lia) E) as (? & ? & Hn & Hc).
      split; [split_and!; [done|done|intros q g; apply Hn]|by destruct r]. }
  cbn beta. change (same_store (abs s1) (abs s2)) in Hu2.
  pose proof (same_store_trans _ _ _ Hsame Hu2) as H02.
  intros [u|e] s3 Hu3; [|by eapply same_store_trans].
  exists f, VPassthrough. split_and!; [done|by eapply viewed_shown|].
  eapply same_truncated; [exact H02|exact Hu3].
Qed.

(** [setattr] by path. *)
Lemma step_setattr_path ino rel size fh (s : ST) :
  fds_inv s → by_ino (st_inodes s) !! ino = Some rel → request_fits (QSetattr ino size fh) = true →
  ends (λ n,
    let!? _ := match size with Some sz => truncate_path fs n rel sz | None => ret (Ok tt) end in
    let!? a := attr fs n ino rel in
    ret (Ok (RAttr a)))
    (λ r s', step (abs s) (QSetattr ino size fh) r (abs s')) s.
Proof.
  intros Hs Hrel Hfit. destruct size as [sz|].
  2: { apply (ends_try (λ _, ret (Ok tt))), ends_wp, wp_ret.
       apply (ends_attr_last fs base ino rel RAttr); [done|..]; intros x s' Hsame; [by apply st_setattr|by apply st_fail]. }
  cbn in Hfit. apply andb_prop in Hfit as [H0' Hi']. apply ends_try.
  eapply ends_mono; [apply (ends_truncate rel sz s); [done|lia]|]. cbn beta.
  intros [u|e] s1 [Hs1 Ht]; [|by apply st_fail]. destruct Ht as (f & v & Hf & Hv & Ht).
  apply (ends_attr_last fs base ino rel RAttr); [done|..]; intros x s' Hsame;
    (eapply st_truncate; [done|exact Hf|exact Hv|done|exact (truncated_same _ _ _ _ _ _ Ht Hsame)]).
Qed.

Lemma step_setattr ino size fh (s : ST) :
  fds_inv s → request_fits (QSetattr ino size fh) = true →
  ends (λ n, setattr fs n ino size fh) (λ r s', step (abs s) (QSetattr ino size fh) r (abs s')) s.
Proof.
  intros Hs Hfit. apply ends_path; [by apply (tidy_fail fs base s s)|]. intros rel Hrel.
  pose proof (step_setattr_path ino rel size fh s Hs Hrel Hfit) as Hplain.
  destruct size as [sz|], fh as [fh|];
    [|apply (ends_bind (λ _, ret None)), ends_wp, wp_ret; exact Hplain..].
  apply ends_bind, ends_wp, wp_handle_of.
  destruct (fh_map (st_handles s) !! fh) as [[fd|kind fd served pending|b|]|] eqn:Hh; try exact Hplain.
  destruct (handle_file fh _ fd s Hs Hh eq_refl) as [f Hf].
  cbn in Hfit. apply andb_prop in Hfit as [_ Hi']. apply ends_bind, ends_wp. unfold vec_resize. rewrite Hi'.
  apply wp_ret, ends_bind, ends_wp. eapply wp_mono.
  { eapply (wp_set_store fh _ _ (AText kind f served (Some (resize_zero (Z.to_nat sz) (default served pending)))));
      [done|exact Hh|done|]. cbn. by rewrite Hf. }
  cbn beta. intros [] s1 [Hs1 Hu].
  assert (s_handles (abs s) !! fh = Some (AText kind f served pending)) as Ha
    by (rewrite abs_lookup, Hh; cbn; by rewrite Hf).
  apply ends_try. eapply ends_mono; [apply (tidy_ends fs base _ s1), Hs1; apply (tidy_stat fs)|]. cbn beta.
  intros [st|e] s2 Ht2; pose proof (tidy_store fs base _ _ Hs1 Ht2) as H12; destruct Ht2 as [Hs2 _].
  2: { eapply st_resize; [exact Ha|done|]. by eapply upd_same. }
  apply ends_bind. eapply ends_mono; [apply (tidy_ends fs base _ s2), Hs2; apply (tidy_from_stat fs)|]. cbn beta.
  intros a s3 Ht3. pose proof (tidy_store fs base _ _ Hs2 Ht3) as H23. apply ends_wp, wp_ret.
  eapply st_resize; [exact Ha|done|]. eapply upd_same; [exact Hu|]. by eapply same_store_trans.
Qed.

(** ** Reading and writing *)

Lemma step_read fh off size (s : ST) :
  fds_inv s → ends (λ _, read fh off size) (λ r s', step (abs s) (QRead fh off size) r (abs s')) s.
Proof.
  intros Hs. pose proof (abs_lookup fh s) as Ha. apply ends_wp, wp_bind, wp_handle_of.
  destruct (fh_map (st_handles s) !! fh) as [[fd|kind fd served pending|b|]|] eqn:Hh; cbn in Ha.
  - destruct (handle_file fh _ fd s Hs Hh eq_refl) as [f Hf].
    pose proof Hf as [a Hfa]%fd_file_open. rewrite Hfa in Ha. cbn in Ha.
    apply wp_try, wp_sys. intros w r E. destruct (store_pread fs fd size _ _ _ _ f Hf E) as (Hc & Hn & Hb).
    pose proof (pread_keeps fs fd size (as_i64 off) (st_world s)) as Hk. rewrite E in Hk. cbn in Hk.
    assert (same_store (abs s) (abs (with_world w s))) as Hsame.
    { constructor; cbn; [done|done|done|]. apply (abs_handles_world fs); [apply Hs|]. intros. by rewrite Hk. }
    destruct r as [b|e]; [|apply st_fail; [by exists f, a|done]]. apply wp_ret.
    destruct (Hb b eq_refl) as (Hl & rest & Hd). by eapply st_read_raw.
  - destruct (handle_file fh _ fd s Hs Hh eq_refl) as [f Hf]. rewrite Hf in Ha. cbn in Ha.
    apply wp_ret. eapply st_read_text; [exact Ha|apply same_store_refl].
  - apply wp_ret. eapply st_read_copy; [exact Ha|apply same_store_refl].
  - apply wp_ret. apply st_read_dead; [exact Ha|apply same_store_refl].
  - apply wp_ret. apply st_read_none; [exact Ha|apply same_store_refl].
Qed.

Lemma step_write fh off data (s : ST) :
  fds_inv s → request_fits (QWrite fh off data) = true →
  ends (λ _, write fh off data) (λ r s', step (abs s) (QWrite fh off data) r (abs s')) s.
Proof.
  intros Hs [Ho%Z.leb_le Hl%Z.leb_le]%andb_prop. pose proof (abs_lookup fh s) as Ha.
  apply ends_wp, wp_bind, wp_handle_of.
  destruct (fh_map (st_handles s) !! fh) as [[fd|kind fd served pending|b|]|] eqn:Hh; cbn in Ha.
  - destruct (handle_file fh _ fd s Hs Hh eq_refl) as [f [a Hf]%fd_file_open]. rewrite Hf in Ha. cbn in Ha.
    apply wp_try, wp_sys. intros w r E. rewrite as_i64_fits in E by lia.
    destruct (pwrite_writes fd data off _ _ _ f a Hf Ho E) as (Hk & Hc & Hn & Hr).
    pose proof (only_file_store f w s Hs) as Hu.
    destruct r as [n|e].
    + destruct Hr as (Hn1 & Hn2 & Hcw). rewrite Hcw in Hu. apply wp_ret. eapply st_write_raw; [exact Ha|done|done|].
      apply Hu. split_and!; [done|done|intros q g; apply Hn].
    + rewrite Hr in Hu. apply st_fail; [by exists f, a|]. apply (upd_idle f). apply Hu. split_and!; [done|done|intros q g; apply Hn].
  - destruct (handle_file fh _ fd s Hs Hh eq_refl) as [f Hf]. rewrite Hf in Ha. cbn in Ha.
    apply wp_bind. unfold wp at 1. rewrite write_buffer_spec by lia. apply wp_bind.
    eapply wp_mono; [eapply (wp_set_store fh _ _ (AText kind f served (Some _))); [done|exact Hh|done|cbn; by rewrite Hf]|].
    cbn beta. intros [] s1 [_ Hu]. apply wp_ret. by eapply st_write_text.
  - apply wp_ret. eapply st_write_copy; [exact Ha|apply same_store_refl].
  - apply wp_ret. apply st_write_dead; [exact Ha|apply same_store_refl].
  - apply wp_ret. apply st_write_none; [exact Ha|apply same_store_refl].
Qed.

(** ** Saving *)

Lemma ends_save fh (s : ST) :
  fds_inv s → ends (λ n, persist n fh) (λ r s', fds_inv s' ∧ saved (abs s) fh r (abs s')) s.
Proof.
  intros Hs. apply ends_and; [by apply (halts_persist fs)|]. unfold saved. rewrite abs_lookup.
  destruct (fh_map (st_handles s) !! fh) as [[fd|kind fd served [text|]|b|]|] eqn:Hh;
    cbn [abs_handle mbind option_bind].
  2: { destruct (handle_file fh _ fd s Hs Hh eq_refl) as [f Hf]. rewrite Hf. cbn [fmap option_fmap option_map].
       set (size := match merge kind (content (st_world s) f) text with Ok m => length m | Err _ => 0%nat end).
       eapply (ends_from _ _ _ (Nat.max (S (length (content (st_world s) f))) size));
         [by apply (halts_persist fs base fh s)|].
       intros k Hk. eapply wp_mono.
       { eapply wp_weaken; [apply (persist_spec fs k fh kind fd served text f)|done|done]; [done|done|lia|].
         intros merged E. unfold size in Hk. rewrite E in Hk. lia. }
       cbn beta. intros r s' (Hof & _ & Hi & view & Hp & Hha). exists view, (content (st_world s') f). split; [exact Hp|].
       destruct Hof as (Hkf & Hc & Hn). constructor; cbn; [done|intros p g; symmetry; apply Hn|done|].
       rewrite Hha. etrans; [apply abs_handles_insert; cbn; by rewrite (fd_file_kept _ _ fd f (Hkf fd) Hf)|].
       f_equal. apply (abs_handles_world fs); [apply Hs|]. auto. }
  2: destruct (handle_file fh _ fd s Hs Hh eq_refl) as [f Hf]; rewrite Hf; cbn [fmap option_fmap option_map].
  1: destruct (handle_file fh _ fd s Hs Hh eq_refl) as [f [a Hf]%fd_file_open]; rewrite Hf; cbn [fmap option_fmap option_map].
  all: unfold persist; apply ends_bind, ends_wp, wp_handle_of; rewrite Hh; apply ends_wp, wp_ret;
    split; [done|apply same_store_refl].
Qed.

Lemma step_flush fh (s : ST) :
  fds_inv s → ends (λ n, flush n fh) (λ r s', step (abs s) (QFlush fh) r (abs s')) s.
Proof.
  intros Hs. apply ends_try. eapply ends_mono; [by apply ends_save|]. cbn beta.
  intros r s' [_ Hsv]. pose proof (st_flush (redact_on fs) _ fh _ _ Hsv) as Hst.
  by destruct r as [[]|e]; [apply ends_wp, wp_ret|].
Qed.

Lemma step_fsync fh (s : ST) :
  fds_inv s → ends (λ n, fsync n fh) (λ r s', step (abs s) (QFsync fh) r (abs s')) s.
Proof.
  intros Hs. apply ends_try. eapply ends_mono; [by apply ends_save|]. cbn beta.
  intros r s' [_ Hsv]. pose proof (st_fsync (redact_on fs) _ fh _ _ Hsv) as Hst.
  by destruct r as [[]|e]; [apply ends_wp, wp_ret|].
Qed.

(** [handles.map.remove(&fh)] *)
Lemma wp_remove_store fh (s : ST) :
  fds_inv s →
  wp True False (handles_remove fh)
    (λ _ s', upd None (s_inodes (abs s)) (delete fh (s_handles (abs s))) (abs s) (abs s')) s.
Proof.
  intros Hs. unfold handles_remove. apply wp_bind, wp_handle_of, wp_bind, wp_modify.
  set (s1 := with_handles _ s).
  assert (upd None (s_inodes (abs s)) (delete fh (s_handles (abs s))) (abs s) (abs s1)) as Hu.
  { constructor; [done|done|done|]. apply abs_handles_delete. }
  apply (books_delete fs base _ _ fh) in Hs.
  destruct (fh_map (st_handles s) !! fh) as [h|]; [|by apply wp_ret].
  eapply wp_mono; [by apply (wp_drop_store fs base)|]. intros [] s' Hs'. by eapply upd_same.
Qed.

Lemma step_release fh (s : ST) :
  fds_inv s → ends (λ n, release n fh) (λ r s', step (abs s) (QRelease fh) r (abs s')) s.
Proof.
  intros Hs. apply ends_bind. eapply ends_mono; [by apply ends_save|]. cbn beta.
  intros r s1 [Hs1 Hsv]. apply ends_bind, ends_wp. eapply wp_mono; [by apply wp_remove_store|]. cbn beta.
  intros [] s2 Hu. apply ends_wp.
  pose proof (st_release (redact_on fs) _ fh _ _ _ Hsv Hu) as Hst. by destruct r as [[]|e]; apply wp_ret.
Qed.

(** ** Sessions *)

Lemma step_dispatch q (s : ST) :
  fds_inv s → request_fits q = true →
  ends (λ n, dispatch fs n dir_full q) (λ r s', step (abs s) q r (abs s')) s.
Proof.
  intros Hs Hq. destruct q; cbn [dispatch].
  - by apply (step_lookup_ fs base).
  - by apply (step_getattr fs base).
  - by apply step_setattr.
  - by apply (step_readlink fs base).
  - by apply (step_open fs base).
  - by apply step_create.
  - by apply step_read.
  - by apply step_write.
  - by apply step_flush.
  - by apply step_fsync.
  - by apply step_release.
  - by apply (step_readdir fs dir_full base).
  - by apply (step_mkdir fs base).
  - by apply (step_unlink fs base).
  - by apply (step_rmdir fs base).
  - by apply (step_rename fs base).
  - by apply (step_symlink fs base).
  - by apply (step_link fs base).
Qed.

Lemma session_steps qs (s : ST) :
  fds_inv s → forallb request_fits qs = true →
  ends (λ n, replies fs n dir_full qs)
    (λ rs s', store_session (redact_on fs) (abs s) qs rs (abs s')) s.
Proof.
  revert s. induction qs as [|q qs IH]; intros s Hs; cbn [replies forallb].
  - intros _. apply ends_wp, wp_ret. apply ss_nil, same_store_refl.
  - intros [Hq Hqs]%andb_prop. apply ends_bind.
    eapply ends_mono; [apply ends_and; [by apply (halts_dispatch fs dir_full base q s)|by apply step_dispatch]|].
    cbn beta. intros r s1 [Hs1 Hst]. apply ends_bind. eapply ends_mono; [by apply IH|]. cbn beta.
    intros rs s2 Hss. apply ends_wp, wp_ret. by eapply ss_cons.
Qed.
End writes.
