(* ===== verification/StoreSecret.v ===== *)
(** * What becomes of a secret in the abstract store

    A property of [store_session] alone: as long as the session makes and removes
    no names but by creating files, the contents of a mergeable secret change by
    merges, and by being emptied where a creation asks for that, only. *)

From stdpp Require Import relations.
From S2P Require Import Prelude Eff Paths Lexical Access Inodes Redact Os Attr Overlay Handlers.
From S2P Require Import OverlayIo OverlayEdit Secrecy Editing Store.

(** The requests that leave the names of existing files alone: all but [mkdir],
    [symlink], [link], [rename], [unlink] and [rmdir]; what is created has a file
    name, as the kernel sends it. *)
Definition keeps_names (q : Request) : bool :=
  match q with
  | QMkdir _ _ _ _ | QSymlink _ _ _ | QLink _ _ _ | QRename _ _ _ _ | QUnlink _ _ | QRmdir _ _ => false
  | QCreate _ name _ _ _ => is_name name
  | _ => true
  end.

(** A creation that empties the file when one of this kind is already there. *)
Definition empties (kind : HandlerKind) (q : Request) : bool :=
  match q with
  | QCreate _ name _ _ flags => truncates flags && bool_decide (named name = Some kind)
  | _ => false
  end.

(** [c'] is a child's text merged into [c], or as much of that as the disk took. *)
Definition merge_step `{Dotenvy} `{SerdeYaml} (kind : HandlerKind) (c c' : bytes) : Prop :=
  ∃ text m view, merge kind c text = Ok m ∧ redact kind m = Ok view ∧ (c' = m ∨ ∃ j, c' = take j m).

(** A merge, or an emptying where the session has one. *)
Definition secret_step `{Dotenvy} `{SerdeYaml} (kind : HandlerKind) (emptying : bool) (c c' : bytes) : Prop :=
  merge_step kind c c' ∨ (emptying = true ∧ c' = []).

(** Saving is merging, or nothing. *)
Lemma persisted_step `{Dotenvy, SerdeYaml} kind c text view c' r :
  persisted kind c text view c' r → rtc (secret_step kind false) c c'.
Proof.
  unfold persisted. destruct (merge kind c text) as [m|e] eqn:Em; [|by intros (_ & -> & _)].
  destruct (redact kind m) as [v|e] eqn:Ev; [|by intros (_ & -> & _)].
  destruct r as [u|e]; [intros [-> _]|intros [[->|[j ->]] _]; [done|]]; apply rtc_once; left; exists text, m, v;
    split_and!; eauto.
Qed.

Lemma secret_step_mono `{Dotenvy, SerdeYaml} kind (e : bool) c c' :
  rtc (secret_step kind false) c c' → rtc (secret_step kind e) c c'.
Proof. apply rtc_subrel. intros x y [?|[? _]]; [by left|done]. Qed.

Section secret.
Context {F : Type} `{EqDecision F, Dotenvy, SerdeYaml}.
Context (kind : HandlerKind) (Hkind : kind = Env ∨ kind = Npmrc) (f : F).
(** Whether the session empties files of the kind. *)
Context (emptying : bool).

Abbreviation changes := (rtc (secret_step kind emptying)).

(** A handle that cannot write to the secret but by a merge. *)
Definition guarded (a : AHandle F) : Prop :=
  match a with
  | ARaw g _ => g ≠ f
  | AText k g _ _ => g = f → k = kind
  | ACopy _ | ADead => True
  end.

(** The file has a name, all its names are of the kind, all handles are guarded. *)
Record kept (σ : Store F) : Prop := {
  kept_name : ∃ p, s_name σ p f;
  kept_kind rel : s_name σ (at_ rel) f → named (name_of rel) = Some kind;
  kept_handles : map_Forall (λ _, guarded) (s_handles σ);
}.

Lemma kept_upd fc t m σ σ' : kept σ → upd fc t m σ σ' → map_Forall (λ _, guarded) m → kept σ'.
Proof.
  intros [[p Hp] Hk _] [_ Hn _ <-] Hm. split; [exists p; by apply Hn| |done].
  intros rel Hrel. by apply Hk, Hn.
Qed.

(** The view of the secret is never the file itself. *)
Lemma secret_view σ rel v :
  kept σ → s_name σ (at_ rel) f → shown true σ rel f v →
  (∃ b, v = VRedacted kind b) ∨ v = VFailed.
Proof.
  intros Hs Hr (prefix & _ & ->). rewrite (view_spec_mergeable _ _ _ kind); [|by apply (kept_kind σ Hs)|done].
  destruct (redact kind (s_file σ f)); eauto.
Qed.

Lemma created_guarded name g : (g = f → named name = Some kind) → guarded (created_handle true name g).
Proof.
  intros Hg. unfold created_handle, created_kind. unfold named, detect in Hg.
  destruct (is_env_file name); [cbn; intros E; by injection (Hg E)|].
  destruct (is_npmrc_file name); [cbn; intros E; by injection (Hg E)|].
  cbn. intros E. specialize (Hg E). destruct (is_mitm_config_file name); [by destruct Hkind; simplify_eq|].
  destruct (existsb _ _); destruct Hkind; simplify_eq.
Qed.

(** What one step does to the secret. *)
Definition fine (σ σ' : Store F) : Prop := kept σ' ∧ changes (s_file σ f) (s_file σ' f).

(** A step that changes another file, or none. *)
Lemma fine_upd fc t m σ σ' :
  kept σ → upd fc t m σ σ' → map_Forall (λ _, guarded) m →
  match fc with Some (g, _) => g ≠ f | None => True end → fine σ σ'.
Proof.
  intros Hs Hu Hm Hfc. split; [by eapply kept_upd|]. destruct Hu as [Hf _ _ _].
  destruct fc as [[g c]|]; cbn in Hf; [destruct Hf as [_ Ho]; by rewrite Ho|by rewrite Hf].
Qed.

Lemma fine_same σ σ' : kept σ → same_store σ σ' → fine σ σ'.
Proof. intros Hs Hu. by apply (fine_upd _ _ _ _ _ Hs Hu); [apply Hs|]. Qed.

Lemma fine_saved σ fh r σ' : kept σ → saved σ fh r σ' → fine σ σ'.
Proof.
  intros Hs. unfold saved. destruct (s_handles σ !! fh) as [[g a|k g served [text|]|b|]|] eqn:Hh;
    try (intros [_ ?]; by apply fine_same).
  intros (view & c & Hp & Hu). pose proof (kept_handles σ Hs fh _ Hh) as Hg. cbn in Hg.
  assert (map_Forall (λ _, guarded) (<[fh:=AText k g (default served view) None]> (s_handles σ))) as Hm
    by (apply map_Forall_insert_2; [done|apply Hs]).
  destruct (decide (g = f)) as [->|Hne]; [|by eapply fine_upd].
  rewrite (Hg eq_refl) in Hp. split; [by eapply kept_upd|]. destruct Hu as [[-> _] _ _ _]. eapply secret_step_mono, persisted_step; done.
Qed.

Lemma fine_create σ parent name mode umask flags rel g fh σ' :
  kept σ → is_name name = true →
  (empties kind (QCreate parent name mode umask flags) = true → emptying = true) → entry_at σ parent name rel →
  makes σ rel flags g σ' → s_handles σ' = <[fh := created_handle true name g]> (s_handles σ) → fine σ σ'.
Proof.
  intros Hs Hn Ht (dir & _ & ->) Hm Hh. pose proof (name_of_join dir name Hn) as Hno.
  destruct Hs as [[p Hp] Hk Hha].
  assert (map_Forall (λ _, guarded) (s_handles σ')) as Hha'.
  { rewrite Hh. apply map_Forall_insert_2; [|done]. apply created_guarded. intros ->.
    destruct Hm as [Hr _ _|Hfree _ _]; [rewrite <- Hno; by apply Hk|by destruct (Hfree p)]. }
  destruct Hm as [Hr Hnm Hu|Hfree Hnm Hu].
  - split; [split; [exists p; by apply Hnm|intros rel; rewrite Hnm; apply Hk|done]|].
    destruct (truncates flags) eqn:E; cbn in Hu; [|by rewrite Hu].
    destruct Hu as [Hc Ho]. destruct (decide (f = g)) as [<-|Hne]; [|by rewrite Ho].
    rewrite Hc. apply rtc_once. right. split; [|done]. apply Ht. cbn [empties]. rewrite E.
    apply bool_decide_eq_true. rewrite <- Hno. by apply Hk.
  - assert (f ≠ g) as Hne by (intros <-; by destruct (Hfree p)).
    split; [split; [exists p; by apply Hnm|intros rel; rewrite Hnm by done; apply Hk|done]|].
    destruct Hu as [_ Ho]. by rewrite Ho.
Qed.

Lemma fine_step σ q r σ' :
  kept σ → keeps_names q = true → (empties kind q = true → emptying = true) → store_step true σ q r σ' → fine σ σ'.
Proof.
  intros Hs Hq He Hst. pose proof (kept_handles σ Hs) as Hha.
  destruct Hst; try discriminate Hq; try (by apply fine_same); try (by eapply fine_upd);
    try (by eapply fine_saved); try (by eapply fine_create).
  - (* open *) eapply fine_upd; [done|done| |].
    + apply map_Forall_insert_2; [|done]. destruct v as [|k b|b|]; cbn; [|intros ->..|done|done].
      * intros ->. by destruct (secret_view σ rel VPassthrough) as [[? ?]|?].
      * destruct (secret_view σ rel (VRedacted k b)) as [[? ?]|?]; [done..|by simplify_eq|done].
    + destruct v; try done. cbn. destruct (truncates flags); [|done]. intros ->.
      by destruct (secret_view σ rel VPassthrough) as [[? ?]|?].
  - (* write to the file itself *) eapply fine_upd; [done|done|done|]. by apply (Hha fh (ARaw f0 append)).
  - (* write to the text *) eapply fine_upd; [done|done| |done].
    apply map_Forall_insert_2; [|done]. by apply (Hha fh (AText kind0 f0 served pending)).
  - (* the same, of its length *) eapply fine_upd; [done|done| |done].
    apply map_Forall_insert_2; [|done]. by apply (Hha fh (AText kind0 f0 served pending)).
  - (* truncation by path *) destruct v as [|k b|b|]; try done; [|by apply fine_same].
    eapply fine_upd; [done|done|done|]. cbn. intros ->. by destruct (secret_view σ rel VPassthrough) as [[? ?]|?].
  - (* release *) match goal with Hsv : saved _ _ _ _ |- _ => destruct (fine_saved _ _ _ _ Hs Hsv) as [Hs1 Hc1] end.
    match goal with Hu : upd None _ (delete _ _) _ _ |- _ => destruct (fine_upd _ _ _ _ _ Hs1 Hu) as [Hs2 Hc2] end.
    { apply map_Forall_delete, Hs1. }
    { done. }
    split; [done|by etrans].
Qed.

(** The whole session. *)
Lemma session_merges σ qs rs σ' :
  kept σ → forallb keeps_names qs = true → (existsb (empties kind) qs = true → emptying = true) → store_session true σ qs rs σ' →
  changes (s_file σ f) (s_file σ' f).
Proof.
  intros Hs Hq He Hss. induction Hss as [σ σ' Hsame|σ q r σ1 qs rs σ2 Hst Hss IH]; [by apply fine_same|].
  cbn [forallb existsb] in Hq, He. apply andb_prop in Hq as [Hq Hqs]. rewrite orb_true_iff in He.
  destruct (fine_step σ q r σ1 Hs Hq) as [Hs1 Hc]; [tauto|done|]. etrans; [exact Hc|]. apply IH; tauto.
Qed.
End secret.
