(* ===== verification/StoreTheorems.v ===== *)
(** * The overlay is the abstract store, and what that gives

    The laws hold of the in-memory kernel; every session of the overlay is one of
    the store; a secret changes by merges only. *)

From stdpp Require Import relations.
From S2P Require Import Prelude Eff Paths Lexical Access Gate Inodes Redact RedactEnv RedactYaml.
From S2P Require Import Os Attr Overlay Handlers Fds MemOs OverlaySafety OverlayTheorems OverlayIo Termination.
From S2P Require Import Secrecy Editing MemLow NonInterference Store StoreRefine StoreSteps StoreWrites StoreSecret.

(** ** The in-memory kernel *)

(** A new file is reached by its name only, and disturbs no other. *)
Lemma mem_created_old n w q p i :
  m_names w !! components q = None → mem_resolve n w p = Some i → mem_resolve n (mem_created q w) p = Some i.
Proof.
  intros Hq. revert p. induction n as [|n IH]; intros p; cbn [mem_resolve mem_created put_file put_names m_names];
    (destruct (decide (components q = components p)) as [<-|Hne]; [by rewrite Hq|rewrite lookup_insert_ne by done]);
    [done|]. destruct (m_names w !! components p) as [[]|]; [done|apply IH|done..].
Qed.

Lemma mem_created_new n w q p i :
  i ≠ mem_next w → mem_resolve n (mem_created q w) p = Some i → mem_resolve n w p = Some i.
Proof.
  intros Hi. revert p. induction n as [|n IH]; intros p; cbn [mem_resolve mem_created put_file put_names m_names];
    (destruct (decide (components q = components p)) as [<-|Hne];
      [rewrite lookup_insert_eq; congruence|rewrite lookup_insert_ne by done]);
    [done|]. destruct (m_names w !! components p) as [[]|]; [done|apply IH|done..].
Qed.

Lemma mem_next_unresolved n w p : mem_resolve n w p ≠ Some (mem_next w).
Proof.
  revert p. induction n as [|n IH]; intros p; cbn [mem_resolve];
    destruct (m_names w !! components p) as [[j|t|]|] eqn:E; try done;
    intros [= ->]; by eapply mem_next_unnamed.
Qed.

(** Fewer entries, fewer paths. *)
Lemma mem_resolve_subseteq n w w' p i :
  m_names w' ⊆ m_names w → mem_resolve n w' p = Some i → mem_resolve n w p = Some i.
Proof.
  intros Hsub. revert p. induction n as [|n IH]; intros p; cbn [mem_resolve];
    destruct (m_names w' !! components p) as [[j|t|]|] eqn:E; try done;
    rewrite (lookup_weaken _ _ _ _ E Hsub); [done..|apply IH].
Qed.

Section mem.
Context (fs : OverlayFs Z).

#[local] Opaque mem_resolve.

Lemma only_names_mem {A} (call : MemW → MemW * result A Z) :
  (∀ w, ∃ nm r, call w = (put_names w nm, r) ∧ (nm = m_names w ∨ ∃ a, r = Ok a)) → only_names fs call.
Proof.
  intros Hc w. destruct (Hc w) as (nm & r & -> & Hr). split; [done|]. cbn. destruct r as [a|e]; [done|].
  destruct Hr as [->|[a [=]]]. intros p f. by apply mem_resolves_names.
Qed.

Lemma put_names_id w : put_names w (m_names w) = w.
Proof. by destruct w. Qed.

Lemma mem_add_names q n w :
  ∃ nm r, mem_add q n w = (put_names w nm, r) ∧ (nm = m_names w ∨ ∃ a, r = Ok a).
Proof.
  unfold mem_add. destruct (m_names w !! components q).
  - exists (m_names w), (Err EEXIST). rewrite put_names_id. auto.
  - eexists _, (Ok tt). split; [done|]. right. by eexists.
Qed.

#[export] Instance mem_os_store : OsStore (W := MemW) fs.
Proof.
  assert (∀ w (e : Z) (A : Type), ∃ nm (r : result A Z),
    (w, Err e) = (put_names w nm, r) ∧ (nm = m_names w ∨ ∃ a, r = Ok a)) as Hfail.
  { intros w e A. exists (m_names w), (Err e). rewrite put_names_id. auto. }
  split.
  - intros w q f g. cbn. unfold mem_resolves. congruence.
  - intros q fl m w w' r. cbn. unfold mem_openat. destruct (mem_resolve 8 w q) as [i|] eqn:Er.
    + destruct r as [fd|e]; [|discriminate]. intros E.
      pose proof (mem_new_fd_open _ _ _ _ _ _ E) as (_ & Ho & _). injection E as <- _.
      exists i. split; [exact Ho|].
      left. split; [exact Er|]. destruct (Z.land fl O_TRUNC =? 0).
      * split; [intros p g; by apply mem_resolves_names|done].
      * destruct (put_file_frame w i []) as (_ & Hoth & _ & Hc).
        split_and!; [intros p g; by apply mem_resolves_names|exact Hc|exact Hoth].
    + destruct (Z.eqb_spec (Z.land fl O_CREAT) 0) as [E|E]; [by intros [= <- <-]|].
      destruct (m_names w !! components q) eqn:Eq; [by intros [= <- <-]|].
      destruct r as [fd|e]; [|discriminate]. intros En.
      pose proof (mem_new_fd_open _ _ _ _ _ _ En) as (_ & Ho & _). injection En as <- _.
      exists (mem_next w). split; [exact Ho|].
      right. split_and!; [done|intros p; apply mem_next_unresolved| | |].
      * intros p g Hg. split.
        -- intros Hp. apply (mem_created_new 8 w q p g Hg). rewrite <- Hp. by apply mem_resolve_names.
        -- intros Hp. unfold mem_resolves. rewrite <- (mem_created_old 8 w q p g Eq Hp). by apply mem_resolve_names.
      * apply mem_file_put_same.
      * intros g Hg. change (mem_file (put_file w (mem_next w) []) g = mem_file w g). rewrite mem_file_put.
        by destruct (decide (g = mem_next w)).
  - intros fd n off w w' r f Hf. rewrite mem_fd_file in Hf. cbn [pread MemOs]. unfold mem_pread. rewrite Hf. intros [= <- <-].
    split_and!; [done|done|]. intros b [= <-]. rewrite length_take. split; [unfold mem_count; case_match; lia|].
    eexists. symmetry. apply take_drop.
  - done.
  - done.
  - intros q m. apply only_names_mem, mem_add_names.
  - intros t q. apply only_names_mem, mem_add_names.
  - intros p q fl. apply only_names_mem. intros w. cbn. unfold mem_linkat.
    destruct (m_names w !! components p); [apply mem_add_names|by apply Hfail].
  - intros p q. apply only_names_mem. intros w. cbn. unfold mem_renameat.
    destruct (m_names w !! components p); [|by apply Hfail]. eexists _, (Ok tt). split; [done|]. right. by eexists.
  - intros q how. split.
    + apply only_names_mem. intros w. cbn. unfold mem_unlinkat.
      destruct (m_names w !! components q); [|by apply Hfail]. eexists _, (Ok tt). split; [done|]. right. by eexists.
    + intros w p f. cbn. unfold mem_resolves, mem_unlinkat. destruct (m_names w !! components q); [|done].
      apply mem_resolve_subseteq. apply delete_subseteq.
Qed.
End mem.

(** ** Theorems *)

(** C2. Refinement: over a POSIX kernel, every session of requests whose offsets and
    sizes fit a buffer ends, and its replies and final state are those of a session
    of the abstract store, which has no descriptors, system calls, loops or fuel:
    each request is one step of it. *)
Theorem session_refines_store {W Fd G} `{OsSpec W Fd, DirAccess G, Dotenvy, SerdeYaml}
    (fs : OverlayFs Fd) dir_full (Hfiles : OsFiles fs) (Hstore : OsStore fs) (w : W) (g : option G) qs :
  forallb request_fits qs = true →
  ∃ n rs s',
    (∀ fuel, (n ≤ fuel)%nat → replies fs fuel dir_full qs (OverlayFs_new w g) = Done (rs, s')) ∧
    store_session (redact_on fs) (abs fs (OverlayFs_new w g)) qs rs (abs fs s').
Proof.
  intros Hq. destruct (session_steps fs dir_full (λ fd, is_Some (fd_file w fd)) qs (OverlayFs_new w g))
    as (n & o & Ho & Hss); [apply books_empty|done|].
  pose proof (no_panic_replies fs dir_full n qs Hq (OverlayFs_new w g)) as Hp.
  rewrite Ho in Hp by done. destruct o as [[rs s']| |]; [|done..]. by exists n, rs, s'.
Qed.

#[local] Existing Instance LineDotenv.line_dotenv.
#[local] Existing Instance TinyYaml.tiny_yaml.

Lemma session_refines_store_witness :
  ∃ n rs s',
    (∀ fuel, (n ≤ fuel)%nat → replies Demo.fs fuel Demo.no_limit edit_requests (Demo.init "tok") = Done (rs, s')) ∧
    store_session true (abs Demo.fs (Demo.init "tok")) edit_requests rs (abs Demo.fs s').
Proof.
  apply (session_refines_store Demo.fs Demo.no_limit (mem_os_files Demo.fs) (mem_os_store Demo.fs)
    (Demo.world "tok") None edit_requests).
  reflexivity.
Defined.

(** C3. Integrity: with redaction on, in a session that makes, moves and removes no
    names but by creating files (no [mkdir], [symlink], [link], [rename], [unlink]
    or [rmdir]), a secret all of whose names are of one mergeable kind changes by
    merges of a text into it only (or by the start of one, where the disk fails
    during the save), and by being emptied if a creation with [O_TRUNC] under a
    name of that kind is in the session: nothing else that is opened, written,
    truncated by handle or by path, created or saved, under this file's names or
    others, in any interleaving, writes to it or truncates it. *)
Theorem secret_changes_by_merges {W Fd G} `{OsSpec W Fd, DirAccess G, Dotenvy, SerdeYaml}
    `{!EqDecision (Fid (W := W) (Fd := Fd))}
    (fs : OverlayFs Fd) dir_full (Hfiles : OsFiles fs) (Hstore : OsStore fs) (w : W) (g : option G) qs kind f :
  redact_on fs = true → kind = Env ∨ kind = Npmrc →
  (∃ p, resolves w (root fs) p f) →
  (∀ rel, resolves w (root fs) (at_ rel) f → named (name_of rel) = Some kind) →
  forallb request_fits qs = true → forallb keeps_names qs = true →
  ∃ n rs s',
    (∀ fuel, (n ≤ fuel)%nat → replies fs fuel dir_full qs (OverlayFs_new w g) = Done (rs, s')) ∧
    rtc (secret_step kind (existsb (empties kind) qs)) (content w f) (content (st_world s') f).
Proof.
  intros Hr Hkind Hname Hnames Hq Hk.
  destruct (session_steps fs dir_full (λ fd, is_Some (fd_file w fd)) qs (OverlayFs_new w g))
    as (n & o & Ho & Hss); [apply books_empty|done|].
  pose proof (no_panic_replies fs dir_full n qs Hq (OverlayFs_new w g)) as Hp.
  rewrite Ho in Hp by done. destruct o as [[rs s']| |]; [|done..]. exists n, rs, s'. split; [done|].
  rewrite Hr in Hss.
  apply (session_merges kind Hkind f _ (abs fs (OverlayFs_new w g)) qs rs (abs fs s')); [|exact Hk|done|exact Hss].
  split; [exact Hname|exact Hnames|]. intros fh a. cbn. unfold abs_handles. by rewrite lookup_omap, lookup_empty.
Qed.

(** Edits of the registry file by two handles at once, a truncation by path, and a
    write to another file. *)
Definition interleaved_requests : list Request :=
  [QLookup 1 (lit ".npmrc"); QOpen 2 (Z.lor O_RDWR O_TRUNC); QOpen 2 O_RDWR; QLookup 1 (lit "notes");
   QOpen 3 O_RDWR; QWrite 1 0 (lit "a=b"); QWrite 3 0 (lit "raw"); QWrite 2 4 (lit "c=d"); QSetattr 2 (Some 1) None;
   QFlush 2; QCreate 1 (lit ".npmrc") 420 0 0; QRelease 1; QFsync 4; QRelease 2; QRelease 3].

Lemma secret_changes_by_merges_witness :
  ∃ n rs s',
    (∀ fuel, (n ≤ fuel)%nat →
       replies Demo.fs fuel Demo.no_limit interleaved_requests
         (OverlayFs_new (G := DirGate Script) (TwoWorlds.world "tok") None) = Done (rs, s')) ∧
    rtc (secret_step Npmrc false) (Demo.npmrc "tok") (content (st_world s') (mem_fid 1)).
Proof.
  apply (secret_changes_by_merges Demo.fs Demo.no_limit (mem_os_files Demo.fs) (mem_os_store Demo.fs)
    (TwoWorlds.world "tok") None interleaved_requests Npmrc (mem_fid 1)).
  - reflexivity.
  - by right.
  - exists (lit ".npmrc"). reflexivity.
  - intros rel Hr. by destruct (two_worlds_resolve _ _ _ _ Hr) as [[-> _]|[[_ ?]|[[_ ?]|[_ ?]]]].
  - reflexivity.
  - reflexivity.
Defined.

(** The emptying is real: a secret created anew with [O_TRUNC] loses its contents
    without a merge when the file is there already. *)
Lemma create_truncates_secret :
  let s := OverlayFs_new (G := DirGate Script) (TwoWorlds.world "tok") None in
  mem_file (st_world s) 1 = Demo.npmrc "tok" ∧
  mem_file (st_world (Demo.run (QCreate 1 (lit ".npmrc") 420 0 O_TRUNC) s)) 1 = [].
Proof. split; vm_compute; reflexivity. Qed.

(** What an appending handle does with the offset it is given: the write lands at
    the end of the file. *)
Lemma append_ignores_offset :
  let s := Demo.run (QOpen 2 (Z.lor O_WRONLY O_APPEND)) (Demo.run (QLookup 1 (lit "notes")) (Demo.init "tok")) in
  fh_map (st_handles s) !! 1 = Some (HFile 4) ∧
  mem_file (st_world (Demo.run (QWrite 1 0 (lit "!")) s)) 2 = lit "hello!".
Proof. split; vm_compute; reflexivity. Qed.
