(* ===== verification/GateSession.v ===== *)
(** * The gate over a whole session

    The overlay ([src/fs.rs]) and the gate of the package-manager profile
    ([src/profiles/npm.rs]) together: what a session of requests can open is what
    was approved, and the conversation with the user asks nothing twice. *)

From S2P Require Import Prelude Eff Paths Lexical Access Gate Inodes Redact RedactEnv RedactYaml.
From S2P Require Import Os Attr Overlay Handlers Fds OverlayInv MemOs OverlaySafety OverlayTheorems.

(** ** The gate is consulted by [open] and [create] only *)

Section consult.
Context {W Fd G : Type} `{Os W Fd, DirAccess G, Dotenvy, SerdeYaml}.
Context (fs : OverlayFs Fd) (fuel : nat) (dir_full : list DirEntry → DirEntry → bool).

Abbreviation ST := (St W Fd G).
Abbreviation keeps_gate := (keeps (@st_gate W Fd G)).

Lemma keeps_gate_tables {A} (m : M ST A) : keeps tables m → keeps_gate m.
Proof. intros Hm s a s' E. by injection (Hm s a s' E). Qed.

Lemma keeps_gate_get {A} (k : ST → M ST A) : (∀ s, keeps_gate (k s)) → keeps_gate (bind get k).
Proof. intros Hk s a s' E. by eapply (Hk s s). Qed.

Lemma keeps_gate_sys {A} (call : W → W * A) : keeps_gate (sys call).
Proof. apply keeps_gate_tables, keeps_sys. Qed.

Lemma keeps_gate_drop h : keeps_gate (drop_handle h).
Proof. destruct h; [apply keeps_gate_sys..|apply keeps_ret|apply keeps_ret]. Qed.

Lemma keeps_gate_modify f : (∀ s : ST, st_gate (f s) = st_gate s) → keeps_gate (modify f).
Proof. apply keeps_modify. Qed.

Lemma keeps_gate_handle_of fh : keeps_gate (handle_of fh).
Proof. by intros s a s' [= <- <-]. Qed.

#[local] Hint Resolve keeps_gate_sys keeps_gate_drop keeps_gate_handle_of : airgap.

Lemma keeps_gate_path {A} ino (k : path → MR ST A) : (∀ p, keeps_gate (k p)) → keeps_gate (with_path ino k).
Proof.
  intros Hk. apply keeps_bind; [by intros s a s' [= <- <-]|]. intros [p|]; [apply Hk|apply keeps_ret].
Qed.

Lemma keeps_gate_insert h : keeps_gate (handles_insert h).
Proof.
  apply keeps_gate_get. intros s. apply keeps_bind; [by apply keeps_gate_modify|]. intros _.
  apply keeps_bind; [destruct (_ !! _)|]; auto with airgap.
Qed.

Lemma keeps_gate_set_handle fh h : keeps_gate (set_handle fh h).
Proof. by apply keeps_gate_modify. Qed.

Lemma keeps_gate_intern p : keeps_gate (intern_path p).
Proof. intros s a s'. unfold intern_path, bind, get, modify, ret. destruct (intern _ p). by intros [= _ <-]. Qed.

Lemma keeps_gate_remove fh : keeps_gate (handles_remove fh).
Proof.
  apply keeps_bind; [auto with airgap|]. intros h. apply keeps_bind; [by apply keeps_gate_modify|]. intros _.
  destruct h; auto with airgap.
Qed.

#[local] Hint Resolve keeps_gate_path keeps_gate_insert keeps_gate_set_handle keeps_gate_intern
  keeps_gate_remove : airgap.

Lemma keeps_gate_attr ino rel : keeps_gate (attr fs fuel ino rel).
Proof. apply keeps_gate_tables, keeps_attr. Qed.

Lemma keeps_gate_from_stat ino st : keeps_gate (from_stat ino st).
Proof. apply keeps_gate_tables, keeps_from_stat. Qed.

Lemma keeps_gate_view_for rel name : keeps_gate (view_for fs fuel rel name).
Proof. apply keeps_gate_tables, keeps_view_for. Qed.

#[local] Hint Resolve keeps_gate_attr keeps_gate_from_stat keeps_gate_view_for : airgap.

Lemma keeps_gate_entry rel : keeps_gate (entry_reply fs fuel rel).
Proof. unfold entry_reply. auto with airgap. Qed.

Lemma keeps_gate_collect dir items : keeps_gate (collect_entries dir items).
Proof.
  induction items as [|[[raw t]|e] items IH]; cbn [collect_entries]; [auto with airgap| |done].
  case_match; auto with airgap.
Qed.

Lemma keeps_gate_persist fh : keeps_gate (persist fuel fh).
Proof.
  apply keeps_bind; [auto with airgap|]. intros [[fd|kind fd served [written|]|b|]|]; auto with airgap.
  apply keeps_bind; [auto with airgap|]. intros _. unfold persist_pending.
  apply keeps_try; [apply keeps_gate_tables, keeps_read_loop|]. intros original.
  destruct (merge kind original written) as [merged|e]; [|auto with airgap].
  destruct (redact kind merged); [|auto with airgap].
  apply keeps_try; [auto with airgap|]. intros _.
  apply keeps_try; [apply keeps_gate_tables, keeps_write_loop|auto with airgap].
Qed.

Lemma keeps_gate_open_handle rel flags v : keeps_gate (open_handle fs rel flags v).
Proof. destruct v; cbn [open_handle]; unfold open_real; auto with airgap. Qed.

#[local] Hint Resolve keeps_gate_entry keeps_gate_collect keeps_gate_persist keeps_gate_open_handle : airgap.

(** After the gate's answer nothing consults it again: the request ends with the
    gate that [allow] left, and succeeds only when it agreed. *)
Definition consulted (rel : path) (access : Access) (s : ST) (r : result Reply Z) (s' : ST) : Prop :=
  match st_gate s with
  | Some g =>
      let '(g', ok) := allow g (join (mount_root fs) rel) access in
      st_gate s' = Some g' ∧ (ok = false → r = Err EACCES)
  | None => st_gate s' = None
  end.

Lemma consults rel access (k : MR ST Reply) s r s' :
  keeps_gate k →
  (let! ok := gate_allows fs rel access in if negb ok then ret (Err EACCES) else k) s = Done (r, s') →
  consulted rel access s r s'.
Proof.
  intros Hk. unfold consulted, gate_allows, bind, get, modify, ret.
  destruct (st_gate s) as [g|] eqn:Eg; [|intros E; by rewrite (Hk _ _ _ E)].
  destruct (allow g _ access) as [g' []]; cbn [negb].
  - intros E. split; [by rewrite (Hk _ _ _ E)|done].
  - by intros [= <- <-].
Qed.

Lemma keeps_gate_setattr ino size fh : keeps_gate (setattr fs fuel ino size fh).
Proof.
  apply keeps_gate_path. intros rel. apply keeps_bind; [destruct size, fh; auto with airgap|]. intros h.
  assert (keeps_gate (let!? _ := match size with Some sz => truncate_path fs fuel rel sz | None => ret (Ok tt) end in
                      let!? a := attr fs fuel ino rel in ret (Ok (RAttr a)))) as Hplain.
  { apply keeps_try; [destruct size; [apply keeps_gate_tables, keeps_truncate_path|]|]; auto with airgap. }
  destruct size as [sz|]; [|apply Hplain]. destruct fh as [fh|]; [|apply Hplain].
  destruct h as [[fd|kind fd served p|b|]|]; try apply Hplain.
  apply keeps_bind; [unfold vec_resize; case_match; [apply keeps_ret|apply keeps_panic]|]. intros buf.
  apply keeps_bind; [auto with airgap|]. intros _. apply keeps_try; [apply keeps_gate_sys|auto with airgap].
Qed.

Lemma keeps_gate_write fh off data : keeps_gate (write fh off data).
Proof.
  apply keeps_bind; [auto with airgap|]. intros [[fd|kind fd served p|b|]|]; auto with airgap.
  apply keeps_bind; [|auto with airgap]. unfold write_buffer, vec_resize.
  repeat (case_match || apply keeps_bind; intros); auto with airgap.
Qed.

#[local] Hint Resolve keeps_gate_setattr keeps_gate_write : airgap.

(** What a request does to the gate. *)
Lemma dispatch_consults q s r s' :
  dispatch fs fuel dir_full q s = Done (r, s') →
  match gated_request s q with
  | Some (rel, access) => consulted rel access s r s'
  | None => st_gate s' = st_gate s
  end.
Proof.
  assert (∀ m : MR ST Reply, keeps_gate m → m s = Done (r, s') → st_gate s' = st_gate s) as Hkeep
    by (intros m Hm E; by eapply Hm).
  destruct q as [| | | |ino flags|parent name mode umask flags| | | | | | | | | | | |]; cbn [dispatch gated_request];
    try (apply Hkeep; repeat first [eauto with airgap; fail|apply keeps_gate_path; intros|apply keeps_bind; intros
      |apply keeps_try; intros|by apply keeps_gate_modify|case_match]).
  - unfold open, with_path, path_of, bind at 1 2, get, ret at 1.
    destruct (by_ino (st_inodes s) !! ino) as [rel|]; cbn; [|by intros [= _ <-]]. apply consults.
    repeat first [eauto with airgap; fail|apply keeps_try; intros|apply keeps_bind; intros].
  - unfold create, with_path, path_of, bind at 1 2, get, ret at 1.
    destruct (by_ino (st_inodes s) !! parent) as [dir|]; cbn; [|by intros [= _ <-]]. apply consults.
    repeat first [eauto with airgap; fail|apply keeps_try; intros|apply keeps_bind; intros].
Qed.

(** The files the session opened or created, by their absolute paths, in order. *)
Fixpoint session_opens (qs : list Request) (s : ST) : list path :=
  match qs with
  | [] => []
  | q :: qs' =>
      match dispatch fs fuel dir_full q s with
      | Done (r, s') =>
          match gated_request s q, r with
          | Some (rel, _), Ok _ => [join (mount_root fs) rel]
          | _, _ => []
          end ++ session_opens qs' s'
      | _ => []
      end
  end.

(** An invariant of the gate that its consultation keeps, and that is enough for
    the paths it then grants. *)
Lemma session_gate (inv : G → Prop) (good : G → path → Prop) qs s rs s' g :
  (∀ g p a, inv g → inv (fst (allow g p a)) ∧
            (snd (allow g p a) = true → good (fst (allow g p a)) p) ∧
            ∀ q, good g q → good (fst (allow g p a)) q) →
  inv g → st_gate s = Some g → replies fs fuel dir_full qs s = Done (rs, s') →
  ∃ g', st_gate s' = Some g' ∧ inv g' ∧ (∀ p, good g p → good g' p) ∧ Forall (good g') (session_opens qs s).
Proof.
  intros Hallow. revert s rs g. induction qs as [|q qs IH]; intros s rs g Hi Hg; cbn [replies session_opens].
  { intros [= _ <-]. exists g. by split_and!. }
  unfold bind at 1. destruct (dispatch fs fuel dir_full q s) as [[r s1]| |] eqn:Ed; [|done..].
  unfold bind. destruct (replies fs fuel dir_full qs s1) as [[rs1 s2]| |] eqn:Er; [|done..]. intros [= _ <-].
  apply dispatch_consults in Ed. destruct (gated_request s q) as [[rel access]|].
  - unfold consulted in Ed. rewrite Hg in Ed. destruct (Hallow g (join (mount_root fs) rel) access Hi) as (Hi1 & Hok & Hmono).
    destruct (allow g _ access) as [g1 ok]. destruct Ed as [Hg1 Hno]. cbn [fst snd] in *.
    destruct (IH s1 rs1 g1 Hi1 Hg1 Er) as (g' & Hg' & Hi' & Hm & Hf). exists g'. split_and!; [done|done|auto|].
    destruct r as [a|e]; [|done]. cbn [app]. constructor; [|done]. apply Hm, Hok. destruct ok; [done|]. by specialize (Hno eq_refl).
  - destruct (IH s1 rs1 g Hi) as (g' & Hg' & Hi' & Hm & Hf); [congruence|done|]. by exists g'.
Qed.
End consult.

(** ** The conversation with the user *)

(** An asker that remembers what it was asked and what it answered, the latest
    question first. *)
Abbreviation Conversation := (list (path * Access * bool)).

#[export] Instance Recorded_ask {T} `{Asker T} : Asker (T * Conversation) := λ tl p a,
  let '(t, b) := ask (fst tl) p a in ((t, (p, a, b) :: snd tl), b).

Definition conversation {T} (g : DirGate (T * Conversation)) : Conversation := snd (asker g).

Definition asked_path (x : path * Access * bool) : path := fst (fst x).

(** The later question is not about a path at or below that of the earlier one. *)
Definition new_question (later earlier : path * Access * bool) : Prop :=
  path_starts_with (asked_path later) (asked_path earlier) = false.

(** The decisions of the gate are the pre-approved paths and the answers; no
    question is about a path at or below one that was decided before it. *)
Record settled {T} (pre : list path) (g : DirGate (T * Conversation)) : Prop := {
  settled_allowed (e : path) : e ∈ allowed g → e ∈ pre ∨ ∃ a : Access, (e, a, true) ∈ conversation g;
  settled_pre e : e ∈ pre → e ∈ allowed g;
  settled_all (e : path) (a : Access) (b : bool) : (e, a, b) ∈ conversation g → e ∈ (if b then allowed g else denied g);
  settled_fresh (x : path * Access * bool) : x ∈ conversation g → covers pre (asked_path x) = false;
  settled_once : ForallOrdPairs new_question (conversation g);
}.

Lemma settled_new {T} pre (t : T) : settled pre (with_asker pre (t, [])).
Proof. split; [by left|done|by intros ? ? ? ?%not_elem_of_nil|by intros ? ?%not_elem_of_nil|constructor]. Qed.

Lemma settled_allow {T} `{Asker T} pre (g : DirGate (T * Conversation)) p a :
  settled pre g → settled pre (fst (allow g p a)).
Proof.
  intros Hs. destruct (allow_cases g p a) as [[_ ->]|[(_ & _ & ->)|(Hm & Hca & t & b & Hask & ->)]]; [done..|].
  destruct Hs as [Hal Hpre Hall Hfr Hon].
  assert (t.2 = (p, a, b) :: conversation g) as Hc.
  { unfold ask, Recorded_ask in Hask. destruct (ask (fst (asker g)) p a). by injection Hask as <- <-. }
  apply andb_true_iff in Hm as [_ Hcd%negb_true_iff].
  assert (∀ e es, e ∈ es → covers es p = false → path_starts_with p e = false) as Hcov.
  { intros e es He Hc'. apply not_true_iff_false. intros Hp. apply not_true_iff_false in Hc'. apply Hc', covers_spec. eauto. }
  assert (ForallOrdPairs new_question (t.2)) as Hon'.
  { rewrite Hc. constructor; [|done]. apply Forall_forall. intros [[e a'] b'] He. unfold new_question. cbn.
    destruct b'; [by apply (Hcov e (allowed g)), Hca; apply (Hall _ _ _ He)|by apply (Hcov e (denied g)), Hcd; apply (Hall _ _ _ He)]. }
  assert (∀ x : path * Access * bool, x ∈ t.2 → covers pre (asked_path x) = false) as Hfr'.
  { rewrite Hc. intros x [->|Hx]%elem_of_cons; [|by apply Hfr]. cbn. apply not_true_iff_false.
    intros (e & He & Hp)%covers_spec. by rewrite (Hcov e (allowed g) (Hpre e He) Hca) in Hp. }
  unfold conversation in *. cbn [fst]. split; [| | |by destruct b|by destruct b].
  - intros e. destruct b; unfold conversation; cbn [allowed asker]; rewrite Hc.
    + intros [He| ->%list_elem_of_singleton]%elem_of_app; [|right; exists a; by apply elem_of_cons; left].
      destruct (Hal e He) as [?|[a' Ha']]; [by left|right]. exists a'. by apply elem_of_cons; right.
    + intros He. destruct (Hal e He) as [?|[a' Ha']]; [by left|right]. exists a'. by apply elem_of_cons; right.
  - intros e He%Hpre. destruct b; cbn [allowed]; [by apply elem_of_app; left|done].
  - intros e a' b'. destruct b; unfold conversation; cbn [allowed denied asker]; rewrite Hc; intros [[= -> -> ->]|Hx%Hall]%elem_of_cons;
      try (by apply elem_of_app; right; apply list_elem_of_singleton); destruct b'; done || by apply elem_of_app; left.
Qed.

(** ** Theorems *)

(** C16. A session behind the gate: whatever the program requests, every file it
    opened or created is one pre-approved, or below a path for which the user was
    asked and agreed; and over the whole session no question was about a path
    below a pre-approved one or below one already decided. *)
Theorem gated_session {W Fd T} `{Os W Fd, Asker T, Dotenvy, SerdeYaml}
    (fs : OverlayFs Fd) fuel dir_full (w : W) (pre : list path) (t : T) qs rs s' :
  let s := OverlayFs_new w (Some (with_asker pre (t, []))) in
  replies fs fuel dir_full qs s = Done (rs, s') →
  ∃ g, st_gate s' = Some g ∧
    Forall (λ p, ∃ e, path_starts_with p e = true ∧ (e ∈ pre ∨ ∃ a : Access, (e, a, true) ∈ conversation g))
      (session_opens fs fuel dir_full qs s) ∧
    (∀ x : path * Access * bool, x ∈ conversation g → covers pre (asked_path x) = false) ∧
    ForallOrdPairs new_question (conversation g).
Proof.
  intros s Hr.
  destruct (session_gate fs fuel dir_full (settled pre) granted qs s rs s' (with_asker pre (t, [])))
    as (g & Hg & Hs & _ & Hf); [|apply settled_new|done|done|].
  { intros g p a Hi. split_and!; [by apply settled_allow|by apply allow_granted|by intros q; apply granted_mono]. }
  exists g. split_and!; [done| |by apply Hs..]. eapply Forall_impl; [exact Hf|].
  intros p (e & He & Hp)%covers_spec. exists e. split; [done|]. by apply Hs.
Qed.

(** Two opens below an approved directory, one refused elsewhere. *)
Definition gated_requests : list Request :=
  [QLookup 1 (lit "notes"); QOpen 2 0; QOpen 2 O_RDWR; QLookup 1 (lit ".npmrc"); QOpen 3 0; QOpen 3 0].

#[local] Existing Instance LineDotenv.line_dotenv.
#[local] Existing Instance TinyYaml.tiny_yaml.

Lemma gated_session_witness :
  let s := OverlayFs_new (Demo.world "tok") (Some (with_asker [] (mkScript [true; false] [], []))) in
  ∃ rs s', replies Demo.fs Demo.fuel Demo.no_limit gated_requests s = Done (rs, s') ∧
    rs !! 5%nat = Some (Err EACCES) ∧
    session_opens Demo.fs Demo.fuel Demo.no_limit gated_requests s = [lit "/home/me/notes"; lit "/home/me/notes"] ∧
    ∃ g, st_gate s' = Some g ∧
      Forall (λ p, ∃ e, path_starts_with p e = true ∧ (e ∈ [] ∨ ∃ a : Access, (e, a, true) ∈ conversation g))
        (session_opens Demo.fs Demo.fuel Demo.no_limit gated_requests s) ∧
      (∀ x : path * Access * bool, x ∈ conversation g → covers [] (asked_path x) = false) ∧
      ForallOrdPairs new_question (conversation g).
Proof.
  intros s. eexists _, _. split; [vm_compute; reflexivity|]. split; [reflexivity|]. split; [vm_compute; reflexivity|].
  eapply (gated_session Demo.fs Demo.fuel Demo.no_limit (Demo.world "tok") [] (mkScript [true; false] []) gated_requests).
  vm_compute. reflexivity.
Defined.
