(* ===== verification/Dns.v ===== *)
(** * The stub DNS resolver ([src/mitm/dns.rs]: [build_response])

    Indexing and slicing that Rust checks are checked here: an access out of
    bounds is [Panicked].  The QNAME walk is a loop over the query, with the
    query's length as fuel. *)

From S2P Require Import Prelude Eff.

(** ** Definitions *)

(** The stack's addresses ([src/mitm.rs]). *)
Definition STACK_IP : bytes := [10; 0; 0; 1].
Definition STACK_IP6 : bytes := [253; 0; 0; 0; 0; 0; 0; 0; 0; 0; 0; 0; 0; 0; 0; 1].
Definition PREFIX_LEN : Z := 24.
Definition PREFIX_LEN6 : Z := 64.

Definition TYPE_A : Z := 1.
Definition TYPE_AAAA : Z := 28.
Definition CLASS_IN : Z := 1.

(** [u16::from_be_bytes], [u16::to_be_bytes], [u32::to_be_bytes] *)
Definition from_be16 (hi lo : Z) : Z := hi * 256 + lo.
Definition to_be16 (x : Z) : bytes := [x / 256 mod 256; x mod 256].
Definition to_be32 (x : Z) : bytes :=
  [x / 2 ^ 24 mod 256; x / 2 ^ 16 mod 256; x / 256 mod 256; x mod 256].

(** The [loop] over the labels from index [i]: the index past the root label,
    or [None] where the source returns [None]. *)
Fixpoint walk_qname (fuel : nat) (query : bytes) (i : nat) : outcome (option nat) :=
  match query !! i with
  | None => Done None
  | Some len =>
      if len =? 0 then Done (Some (i + 1)%nat)
      else if negb (Z.land len 192 =? 0) then Done None
      else match fuel with
           | O => OutOfFuel
           | S fuel' => walk_qname fuel' query (i + (1 + Z.to_nat len))%nat
           end
  end.

Definition rdata_for (qclass qtype : Z) : option bytes :=
  if (qclass =? CLASS_IN) && (qtype =? TYPE_A) then Some STACK_IP
  else if (qclass =? CLASS_IN) && (qtype =? TYPE_AAAA) then Some STACK_IP6
  else None.

(** The answer record appended for an address. *)
Definition answer_record (qtype : Z) (rdata : bytes) : bytes :=
  [192; 12] ++ to_be16 qtype ++ to_be16 CLASS_IN ++ to_be32 60
  ++ to_be16 (Z.of_nat (length rdata)) ++ rdata.

(** The response bytes, from the ID and flag bytes of the query and its question. *)
Definition response (id : bytes) (flags : Z) (question : bytes) (qclass qtype : Z) : bytes :=
  let rdata := rdata_for qclass qtype in
  id ++ [Z.lor 128 (Z.land flags 1); 128] ++ to_be16 1
  ++ to_be16 (match rdata with Some _ => 1 | None => 0 end) ++ to_be16 0 ++ to_be16 0
  ++ question
  ++ match rdata with Some rdata => answer_record qtype rdata | None => [] end.

Definition build_response (query : bytes) : outcome (option bytes) :=
  if (length query <? 12)%nat then Done None
  else
    match query !! 4%nat, query !! 5%nat with
    | Some q4, Some q5 =>
        let qdcount := from_be16 q4 q5 in
        if qdcount =? 0 then Done None
        else
          match walk_qname (length query) query 12 with
          | Done (Some i) =>
              match query !! i, query !! (i + 1)%nat, query !! (i + 2)%nat, query !! (i + 3)%nat with
              | Some t1, Some t2, Some c1, Some c2 =>
                  if (12 <=? i + 4)%nat && (i + 4 <=? length query)%nat then
                    match query !! 2%nat with
                    | Some flags =>
                        Done (Some (response (slice 0 2 query) flags (slice 12 (i + 4) query)
                                      (from_be16 c1 c2) (from_be16 t1 t2)))
                    | None => Panicked
                    end
                  else Panicked
              | _, _, _, _ => Done None
              end
          | Done None => Done None
          | Panicked => Panicked
          | OutOfFuel => OutOfFuel
          end
    | _, _ => Panicked
    end.

(** ** Specification *)

Definition byte_ok (b : Z) : Prop := 0 <= b < 256.

Definition label_ok (l : bytes) : Prop := (1 ≤ length l ≤ 63)%nat.

Definition encode_label (l : bytes) : bytes := Z.of_nat (length l) :: l.
Definition encode_qname (labels : list bytes) : bytes := concat (map encode_label labels) ++ [0].

(** A query message: its header bytes, one question, and whatever follows. *)
Record dns_query : Type := mkQuery {
  dq_id : Z * Z;
  dq_flags : Z * Z;
  dq_count : Z * Z;
  dq_other : bytes;
  dq_labels : list bytes;
  dq_type : Z * Z;
  dq_class : Z * Z;
  dq_rest : bytes;
}.

Definition pair_bytes (p : Z * Z) : bytes := [fst p; snd p].

Definition encode_question (q : dns_query) : bytes :=
  encode_qname (dq_labels q) ++ pair_bytes (dq_type q) ++ pair_bytes (dq_class q).

Definition encode_header (q : dns_query) : bytes :=
  pair_bytes (dq_id q) ++ pair_bytes (dq_flags q) ++ pair_bytes (dq_count q) ++ dq_other q.

Definition encode_query (q : dns_query) : bytes :=
  encode_header q ++ encode_question q ++ dq_rest q.

Definition query_ok (q : dns_query) : Prop :=
  length (dq_other q) = 6%nat ∧ Forall label_ok (dq_labels q) ∧
  from_be16 (fst (dq_count q)) (snd (dq_count q)) ≠ 0.

(** What the stub answers to a well-formed query. *)
Definition stub_answer (q : dns_query) : bytes :=
  response (pair_bytes (dq_id q)) (fst (dq_flags q)) (encode_question q)
    (from_be16 (fst (dq_class q)) (snd (dq_class q)))
    (from_be16 (fst (dq_type q)) (snd (dq_type q))).

(** ** Lemmas *)

(** The compression bits are exactly the lengths above 63. *)
Lemma land_192 x : byte_ok x → (Z.land x 192 =? 0) = (x <? 64).
Proof.
  intros Hx. assert (forallb (λ x, Bool.eqb (Z.land x 192 =? 0) (x <? 64)) (seqZ 0 256) = true)
    as Hall by (vm_compute; reflexivity).
  rewrite forallb_forall in Hall. apply eqb_prop, Hall, list_elem_of_In, elem_of_seqZ.
  unfold byte_ok in Hx. lia.
Qed.

Lemma lookup_drop_cons {A} (q : list A) i x :
  q !! i = Some x → drop i q = x :: drop (S i) q.
Proof. intros. by apply drop_S. Qed.

Lemma encode_qname_cons l labels : encode_qname (l :: labels) = encode_label l ++ encode_qname labels.
Proof. unfold encode_qname. cbn [map concat]. by rewrite app_assoc. Qed.

Lemma length_encode_qname labels :
  (length labels < length (encode_qname labels))%nat.
Proof.
  unfold encode_qname. rewrite length_app. induction labels as [|l labels IH]; simpl in *; [lia|].
  rewrite length_app. lia.
Qed.

(** On an encoded name the walk stops just past it. *)
Lemma walk_encoded fuel q i labels rest :
  Forall label_ok labels → drop i q = encode_qname labels ++ rest → (length labels ≤ fuel)%nat →
  walk_qname fuel q i = Done (Some (i + length (encode_qname labels))%nat).
Proof.
  revert i fuel. induction labels as [|l labels IH]; intros i fuel Hl Hd Hf.
  - assert (q !! i = Some 0) as Hi by (rewrite <- (Nat.add_0_r i), <- lookup_drop, Hd; done).
    destruct fuel; simpl; by rewrite Hi.
  - apply Forall_cons in Hl as [Hlen Hl]. destruct fuel as [|fuel]; [simpl in Hf; lia|].
    unfold label_ok in Hlen. cbn [encode_qname map concat encode_label app] in Hd.
    assert (q !! i = Some (Z.of_nat (length l))) as Hi
      by (rewrite <- (Nat.add_0_r i), <- lookup_drop, Hd; done).
    cbn [walk_qname]. rewrite Hi, (proj2 (Z.eqb_neq _ 0)), land_192 by (unfold byte_ok; lia).
    rewrite (proj2 (Z.ltb_lt _ 64)) by lia. cbn [negb].
    rewrite (IH (i + (1 + Z.to_nat (Z.of_nat (length l))))%nat fuel Hl).
    + do 2 f_equal. rewrite Nat2Z.id. unfold encode_qname. cbn [map concat encode_label app length].
      rewrite !length_app. cbn [length]. rewrite ?length_app. lia.
    + rewrite Nat2Z.id, <- drop_drop, Hd. cbn [Nat.add drop]. unfold encode_qname.
      rewrite <- !app_assoc. by rewrite drop_app_length.
    + simpl in Hf. lia.
Qed.

Lemma walk_in_range fuel q i j : walk_qname fuel q i = Done (Some j) → (i < length q)%nat.
Proof.
  destruct fuel; simpl; destruct (q !! i) eqn:E; try done; intros _; exact (lookup_lt_Some _ _ _ E).
Qed.

(** Whatever the walk accepts is an encoded name. *)
Lemma walk_sound fuel q i j :
  Forall byte_ok q → walk_qname fuel q i = Done (Some j) →
  ∃ labels, Forall label_ok labels ∧ drop i q = encode_qname labels ++ drop j q ∧ (i < j)%nat.
Proof.
  intros Hq. revert i. induction fuel as [|fuel IH]; intros i; simpl;
    destruct (q !! i) as [len|] eqn:Hi; try done;
    destruct (Z.eqb_spec len 0) as [->|Hne]; try (intros [= <-]; exists []; split_and!;
      [by constructor|rewrite (lookup_drop_cons _ _ _ Hi); simpl; by rewrite Nat.add_1_r|lia]).
  - by destruct (negb _).
  - pose proof (proj1 (Forall_lookup _ _) Hq _ _ Hi) as Hb. rewrite (land_192 len Hb).
    destruct (Z.ltb_spec len 64) as [Hlt|]; [|done]. cbn [negb]. intros Hw.
    destruct (IH _ Hw) as (labels & Hl & Hd & Hij). unfold byte_ok in Hb.
    set (k := (i + (1 + Z.to_nat len))%nat) in *.
    pose proof (walk_in_range _ _ _ _ Hw) as Hk.
    exists (slice (S i) k q :: labels).
    assert (length (slice (S i) k q) = Z.to_nat len) as Hls by (rewrite length_slice; lia).
    split_and!; [constructor; [unfold label_ok; lia|done]| |lia].
    rewrite (lookup_drop_cons _ _ _ Hi), encode_qname_cons. unfold encode_label.
    rewrite Hls, Z2Nat.id by lia. cbn [app]. f_equal. rewrite <- app_assoc, <- Hd.
    unfold slice. rewrite <- (take_drop (k - S i) (drop (S i) q)) at 1.
    rewrite drop_drop. do 2 f_equal. lia.
Qed.

(** The walk always ends within the query's length. *)
Lemma walk_total fuel q i :
  Forall byte_ok q → (length q - i ≤ fuel)%nat →
  walk_qname fuel q i ≠ OutOfFuel ∧ walk_qname fuel q i ≠ Panicked.
Proof.
  intros Hq. revert i. induction fuel as [|fuel IH]; intros i Hn; simpl;
    destruct (q !! i) as [len|] eqn:Hi; try done;
    pose proof (lookup_lt_Some _ _ _ Hi); [lia|].
  destruct (len =? 0); [done|]. destruct (negb _); [done|]. apply IH. lia.
Qed.

Lemma list_of_two {A} (l : list A) i x y :
  l !! i = Some x → l !! (i + 1)%nat = Some y → slice i (i + 2) l = [x; y].
Proof.
  intros Hx Hy. unfold slice. rewrite (lookup_drop_cons _ _ _ Hx), (lookup_drop_cons _ (S i) y).
  - replace (i + 2 - i)%nat with 2%nat by lia. done.
  - by rewrite <- Nat.add_1_r.
Qed.

Lemma slice_app_mid {A} (a b c : list A) i j :
  length a = i → (i + length b)%nat = j → slice i j (a ++ b ++ c) = b.
Proof.
  intros <- <-. unfold slice. rewrite drop_app_length.
  replace (length a + length b - length a)%nat with (length b) by lia. apply take_app_length.
Qed.

(** The answer to an encoded query. *)
Lemma build_encoded q :
  query_ok q → build_response (encode_query q) = Done (Some (stub_answer q)).
Proof.
  intros (Hoth & Hlabels & Hcount).
  destruct q as [[i1 i2] [f1 f2] [n1 n2] other labels [t1 t2] [c1 c2] rest]. cbn in Hoth, Hlabels, Hcount.
  do 6 (destruct other as [|? other]; [done|]). destruct other; [|done]. clear Hoth.
  set (query := encode_query _).
  assert (drop 12 query = encode_qname labels ++ [t1; t2; c1; c2] ++ rest) as Hd.
  { unfold query, encode_query, encode_question. cbn. by rewrite <- app_assoc. }
  assert (length query = 12 + (length (encode_qname labels) + (4 + length rest)))%nat as Hlen.
  { rewrite <- (take_drop 12 query), Hd, !length_app. reflexivity. }
  pose proof (length_encode_qname labels) as Hln.
  unfold build_response. rewrite (proj2 (Nat.ltb_ge _ _)) by lia.
  change (query !! 4%nat) with (Some n1). change (query !! 5%nat) with (Some n2).
  cbv beta iota zeta.
  rewrite (proj2 (Z.eqb_neq _ 0)) by done.
  rewrite (walk_encoded _ query 12 labels ([t1; t2; c1; c2] ++ rest)); [|done..|lia]. cbv beta iota.
  set (i := (12 + length (encode_qname labels))%nat).
  assert (∀ k, query !! (i + k)%nat = ([t1; t2; c1; c2] ++ rest) !! k) as Hat.
  { intros k. unfold i. rewrite <- Nat.add_assoc, <- lookup_drop, Hd.
    rewrite lookup_app_r by lia. f_equal. lia. }
  rewrite <- (Nat.add_0_r i) at 1. rewrite !Hat. cbn [app lookup list_lookup].
  rewrite (proj2 (Nat.leb_le 12 _)), (proj2 (Nat.leb_le _ (length query))) by lia. cbn [andb].
  change (query !! 2%nat) with (Some f1). cbv beta iota. do 2 f_equal. unfold stub_answer.
  cbn [dq_id dq_flags dq_type dq_class fst snd].
  change (slice 0 2 query) with [i1; i2]. change (pair_bytes (i1, i2)) with [i1; i2]. f_equal.
  change query with ([i1; i2; f1; f2; n1; n2; z; z0; z1; z2; z3; z4]
    ++ (encode_qname labels ++ [t1; t2] ++ [c1; c2]) ++ rest).
  apply slice_app_mid; [done|]. unfold i, encode_question, pair_bytes.
  cbn [dq_labels dq_type dq_class fst snd]. rewrite !length_app. cbn [length]. lia.
Qed.

(** Every answered query is an encoded one. *)
Lemma build_sound query r :
  Forall byte_ok query → build_response query = Done (Some r) →
  ∃ q, query_ok q ∧ query = encode_query q.
Proof.
  intros Hb. unfold build_response. destruct (Nat.ltb_spec (length query) 12) as [|Hlen]; [done|].
  destruct query as [|i1 [|i2 [|f1 [|f2 [|n1 [|n2 [|o1 [|o2 [|o3 [|o4 [|o5 [|o6 qs]]]]]]]]]]]];
    try (simpl in Hlen; lia).
  set (query := i1 :: _). cbn [lookup list_lookup query].
  destruct (Z.eqb_spec (from_be16 n1 n2) 0) as [|Hn]; [done|]. fold query.
  destruct (walk_qname _ query 12) as [[i|]| |] eqn:Ew; try done.
  destruct (walk_sound _ _ _ _ Hb Ew) as (labels & Hl & Hd & Hi).
  destruct (query !! i) as [t1|] eqn:E1; [|done].
  destruct (query !! (i + 1)%nat) as [t2|] eqn:E2; [|done].
  destruct (query !! (i + 2)%nat) as [c1|] eqn:E3; [|done].
  destruct (query !! (i + 3)%nat) as [c2|] eqn:E4; [|done]. intros _.
  exists (mkQuery (i1, i2) (f1, f2) (n1, n2) [o1; o2; o3; o4; o5; o6] labels (t1, t2) (c1, c2)
            (drop (i + 4) query)).
  split; [by split_and!|]. unfold encode_query, encode_question. cbn -[drop]. unfold query at 1.
  do 12 f_equal. transitivity (encode_qname labels ++ drop i query); [exact Hd|].
  rewrite <- app_assoc. f_equal. cbn [app].
  rewrite (lookup_drop_cons _ _ _ E1), <- (Nat.add_1_r i), (lookup_drop_cons _ _ _ E2).
  replace (S (i + 1)) with (i + 2)%nat by lia. rewrite (lookup_drop_cons _ _ _ E3).
  replace (S (i + 2)) with (i + 3)%nat by lia. rewrite (lookup_drop_cons _ _ _ E4).
  replace (S (i + 3)) with (i + 4)%nat by lia. reflexivity.
Qed.

(** No query makes the stub index out of bounds or loop. *)
Lemma build_total query : Forall byte_ok query → ∃ r, build_response query = Done r.
Proof.
  intros Hb. unfold build_response. destruct (Nat.ltb_spec (length query) 12) as [|Hlen]; [eauto|].
  destruct (lookup_lt_is_Some_2 query 4) as [n1 ->]; [lia|].
  destruct (lookup_lt_is_Some_2 query 5) as [n2 ->]; [lia|].
  destruct (lookup_lt_is_Some_2 query 2) as [f ->]; [lia|].
  destruct (_ =? 0); [eauto|].
  destruct (walk_total (length query) query 12 Hb ltac:(lia)) as [Hf Hp].
  destruct (walk_qname (length query) query 12) as [[i|]| |] eqn:Ew; [|eauto|done..].
  destruct (walk_sound _ _ _ _ Hb Ew) as (_ & _ & _ & Hi).
  destruct (query !! i) as [t1|] eqn:E1; [|eauto].
  destruct (query !! (i + 1)%nat) as [t2|] eqn:E2; [|eauto].
  destruct (query !! (i + 2)%nat) as [c1|] eqn:E3; [|eauto].
  destruct (query !! (i + 3)%nat) as [c2|] eqn:E4; [|eauto].
  apply lookup_lt_Some in E4. rewrite (proj2 (Nat.leb_le 12 _)), (proj2 (Nat.leb_le _ (length query))) by lia.
  cbn. eauto.
Qed.

(** ** Theorems *)

(** C25. The stub resolver is total and exact: for every byte string it returns
    without an out-of-bounds access or an endless loop; it answers exactly the
    byte strings that are a header with a question count, a plain (uncompressed)
    question and anything after it; and the answer echoes the ID, the RD bit and
    the question, carrying one A (AAAA) record with the stack's address for an
    Internet A (AAAA) question and none otherwise. *)
Theorem dns_stub_correct (query : bytes) :
  Forall byte_ok query →
  (∃ r, build_response query = Done r) ∧
  ∀ resp, build_response query = Done (Some resp) ↔
          ∃ q, query_ok q ∧ query = encode_query q ∧ resp = stub_answer q.
Proof.
  intros Hb. split; [by apply build_total|]. intros resp. split.
  - intros Hr. destruct (build_sound query resp Hb Hr) as (q & Hq & ->).
    exists q. split_and!; [done..|]. rewrite (build_encoded q Hq) in Hr. congruence.
  - intros (q & Hq & -> & ->). by apply build_encoded.
Qed.

(** An A query for [a.com]. *)
Definition sample_query : bytes :=
  [18; 52; 1; 0; 0; 1; 0; 0; 0; 0; 0; 0; 1; 97; 3; 99; 111; 109; 0; 0; 1; 0; 1].

Lemma sample_query_bytes : Forall byte_ok sample_query.
Proof. repeat constructor; unfold byte_ok; lia. Qed.

Lemma dns_stub_correct_witness :
  (∃ r, build_response sample_query = Done r) ∧
  ∀ resp, build_response sample_query = Done (Some resp) ↔
          ∃ q, query_ok q ∧ sample_query = encode_query q ∧ resp = stub_answer q.
Proof. apply dns_stub_correct, sample_query_bytes. Defined.

Lemma sample_answer :
  build_response sample_query
  = Done (Some ([18; 52; 129; 128; 0; 1; 0; 1; 0; 0; 0; 0; 1; 97; 3; 99; 111; 109; 0; 0; 1; 0; 1]
                ++ [192; 12; 0; 1; 0; 1; 0; 0; 0; 60; 0; 4] ++ STACK_IP)).
Proof. vm_compute. reflexivity. Qed.

(** *** The response as bytes *)

Lemma to_be16_bytes x : Forall byte_ok (to_be16 x).
Proof. repeat constructor; unfold byte_ok; apply Z.mod_pos_bound; lia. Qed.

Lemma to_be32_bytes x : Forall byte_ok (to_be32 x).
Proof. repeat constructor; unfold byte_ok; apply Z.mod_pos_bound; lia. Qed.

Lemma rdata_for_bytes qclass qtype rdata :
  rdata_for qclass qtype = Some rdata → Forall byte_ok rdata ∧ (length rdata ≤ 16)%nat.
Proof.
  unfold rdata_for. repeat case_match; intros [= <-]; (split; [|cbn; lia]); repeat constructor; unfold byte_ok; lia.
Qed.

Lemma flag_byte flags : byte_ok (Z.lor 128 (Z.land flags 1)).
Proof.
  assert (Z.land flags 1 = 0 ∨ Z.land flags 1 = 1) as [->| ->]; [|by split; vm_compute..].
  change (Z.land flags 1) with (Z.land flags (Z.ones 1)). rewrite Z.land_ones by lia.
  pose proof (Z.mod_pos_bound flags (2 ^ 1) eq_refl). change (2 ^ 1) with 2 in *. lia.
Qed.

Lemma flags_bytes flags : Forall byte_ok [Z.lor 128 (Z.land flags 1); 128].
Proof. constructor; [apply flag_byte|]. constructor; [unfold byte_ok; lia|constructor]. Qed.

(** The twelve header bytes of a response, and its record. *)
Definition response_header (id : bytes) (flags answers : Z) : bytes :=
  id ++ [Z.lor 128 (Z.land flags 1); 128] ++ to_be16 1 ++ to_be16 answers ++ to_be16 0 ++ to_be16 0.

Definition answer_count (qclass qtype : Z) : Z := match rdata_for qclass qtype with Some _ => 1 | None => 0 end.

Definition answer_section (qclass qtype : Z) : bytes :=
  match rdata_for qclass qtype with Some rdata => answer_record qtype rdata | None => [] end.

Lemma response_split id flags question qclass qtype :
  response id flags question qclass qtype
  = response_header id flags (answer_count qclass qtype) ++ question ++ answer_section qclass qtype.
Proof. unfold response, response_header, answer_count, answer_section. by rewrite <- !app_assoc. Qed.

Lemma response_header_bytes id flags answers : Forall byte_ok id → Forall byte_ok (response_header id flags answers).
Proof.
  intros Hid. unfold response_header. rewrite !Forall_app.
  split_and!; [done|apply flags_bytes|apply to_be16_bytes..].
Qed.

Lemma answer_section_bytes qclass qtype :
  Forall byte_ok (answer_section qclass qtype) ∧ (length (answer_section qclass qtype) ≤ 28)%nat.
Proof.
  unfold answer_section. destruct (rdata_for qclass qtype) as [ip|] eqn:Er; [|by split; [|cbn; lia]].
  destruct (rdata_for_bytes _ _ _ Er) as [Hip Hl]. unfold answer_record. split.
  - rewrite !Forall_app. split_and!; try apply to_be16_bytes; try apply to_be32_bytes; try done.
    repeat constructor; unfold byte_ok; lia.
  - rewrite !length_app. cbn. lia.
Qed.

(** C27. A response is a datagram: every element is a byte, the [u16] answer
    count and data length written in it are the real ones, it echoes the query's
    ID and question, and it is at least a header long and never longer than the
    query and the 28 bytes reserved for the answer. *)
Theorem dns_response_typed (query resp : bytes) :
  Forall byte_ok query → build_response query = Done (Some resp) →
  Forall byte_ok resp ∧ (12 ≤ length resp ≤ length query + 28)%nat ∧
  slice 0 2 resp = slice 0 2 query ∧
  ∃ question answer, resp = take 12 resp ++ question ++ answer ∧
    slice 12 (12 + length question) query = question ∧
    (slice 6 8 resp = to_be16 0 ∧ answer = [] ∨
     slice 6 8 resp = to_be16 1 ∧ ∃ ip, (ip = STACK_IP ∨ ip = STACK_IP6) ∧
       drop 10 answer = to_be16 (Z.of_nat (length ip)) ++ ip).
Proof.
  intros Hb Hr. destruct (build_sound query resp Hb Hr) as (q & Hq & ->).
  rewrite (build_encoded q Hq) in Hr. injection Hr as <-. unfold stub_answer. rewrite response_split.
  set (cl := from_be16 _ _). set (ty := from_be16 _ _). set (hd := response_header _ _ _).
  destruct (answer_section_bytes cl ty) as [Hab Hal].
  assert (length (encode_header q) = 12%nat) as Hl
    by (unfold encode_header; rewrite !length_app; destruct Hq as (-> & _); done).
  unfold encode_query in *. rewrite !Forall_app in Hb. destruct Hb as (Hh & Hquestion & _).
  assert (Forall byte_ok (pair_bytes (dq_id q))) as Hid by (unfold encode_header in Hh; by apply Forall_app in Hh as [? _]).
  split_and!.
  - rewrite !Forall_app. split_and!; [by apply response_header_bytes|done|done].
  - rewrite length_app. change (length hd) with 12%nat. lia.
  - rewrite !length_app, Hl. change (length hd) with 12%nat. lia.
  - done.
  - exists (encode_question q), (answer_section cl ty). split_and!.
    + by f_equal.
    + by apply slice_app_mid.
    + unfold hd, answer_count, answer_section. destruct (rdata_for cl ty) as [ip|] eqn:Er; [right|by left].
      split; [done|]. exists ip. split; [|done].
      revert Er. unfold rdata_for. repeat case_match; intros [= <-]; auto.
Qed.

Lemma dns_response_typed_witness :
  Forall byte_ok (default [] (match build_response sample_query with Done r => r | _ => None end)).
Proof.
  apply (dns_response_typed sample_query
    ([18; 52; 129; 128; 0; 1; 0; 1; 0; 0; 0; 0; 1; 97; 3; 99; 111; 109; 0; 0; 1; 0; 1]
     ++ [192; 12; 0; 1; 0; 1; 0; 0; 0; 60; 0; 4] ++ STACK_IP)).
  - apply sample_query_bytes.
  - vm_compute. reflexivity.
Defined.
