(* ===== verification/Proxy.v ===== *)
(** * The MitM header rewriting and the proxy connection ([src/mitm/config.rs],
    [src/mitm/proxy.rs])

    The HTTP parser is the class [Httparse]; the TLS library and the two sockets
    of a connection are the record [Peers], answering each call of
    [handle_conn].  What the handler does to the upstream is an event log. *)

From S2P Require Import Prelude Utf8 Str Eff.

(** ** Configuration *)

(** A rule; the [BTreeMap] of headers is the list of its entries in key order. *)
Record Rule : Type := mkRule { rule_host : str; rule_headers : list (str * str) }.
Record Config : Type := mkConfig { rules : list Rule }.

Definition host_matches (pattern host : str) : bool :=
  let pattern := to_ascii_lowercase (trim_matches DOT (trim pattern)) in
  negb (bool_decide (pattern = [])) && bool_decide (host = pattern).

(** [Config::matching] *)
Definition matching (c : Config) (host : str) : option Rule :=
  List.find (λ r, host_matches (rule_host r) host) (rules c).

(** ** Header rewriting *)

Definition CRLF : bytes := [CR; LF].
Definition CRLF2 : bytes := [CR; LF; CR; LF].

(** Index just past the first [\r\n\r\n]. *)
Fixpoint find_headers_end (buf : bytes) : option nat :=
  if starts_with buf CRLF2 then Some 4%nat
  else match buf with
       | _ :: buf' => option_map S (find_headers_end buf')
       | [] => None
       end.

(** [httparse::Request] after [parse]. *)
Record HttpRequest : Type := mkRequest {
  req_method : option str;
  req_path : option str;
  req_headers : list (str * bytes);
}.

(** [Request::parse]: [None] is a parse error. *)
Class Httparse : Type := httparse_parse : bytes → option HttpRequest.

Inductive ProxyError : Type :=
| MissingMethod
| MissingPath
| NoSni
| ClientClosed
| HeadersTooLarge
| IoError (e : str).

(** The lowercased [Host], without port. *)
Definition host_value (headers : list (str * bytes)) : str :=
  match List.find (λ h, eq_ignore_ascii_case (fst h) (lit "host")) headers with
  | Some h => match from_utf8 (snd h) with Some v => trim v | None => [] end
  | None => []
  end.

Definition strip_port (host : str) : str :=
  match rsplit_once COLON host with Some (h, _) => h | None => host end.

Definition request_host (headers : list (str * bytes)) : str :=
  to_ascii_lowercase (strip_port (host_value headers)).

Definition DROP : list str := [lit "connection"; lit "keep-alive"].

(** The [BTreeSet] of lowercased names to set. *)
Definition override_names (overrides : list (str * str)) : list str :=
  map (λ nv, to_ascii_lowercase (fst nv)) overrides.

(** The condition under which a received header is left out. *)
Definition skip_header (overrides : list (str * str)) (h : str * bytes) : bool :=
  let lower := to_ascii_lowercase (fst h) in
  bool_decide (fst h = []) || contains (override_names overrides) lower || contains DROP lower.

Definition header_line (h : bytes * bytes) : bytes := fst h ++ [COLON; SPACE] ++ snd h ++ CRLF.

Definition request_line (method path : str) : bytes :=
  utf8_encode method ++ [SPACE] ++ utf8_encode path ++ lit " HTTP/1.1" ++ CRLF.

(** The three groups of lines of the rewritten head. *)
Definition kept_headers (overrides : list (str * str)) (headers : list (str * bytes))
    : list (str * bytes) :=
  filter (λ h, skip_header overrides h = false) headers.

Definition preserved_lines (overrides : list (str * str)) (headers : list (str * bytes)) : bytes :=
  concat (map (λ h, header_line (utf8_encode (fst h), snd h)) (kept_headers overrides headers)).

Definition override_lines (overrides : list (str * str)) : bytes :=
  concat (map (λ nv, header_line (utf8_encode (fst nv), utf8_encode (snd nv))) overrides).

Definition connection_line (overrides : list (str * str)) : bytes :=
  if contains (override_names overrides) (lit "connection") then []
  else lit "Connection: close" ++ CRLF.

Section rewrite.
Context `{Httparse}.

Definition rewrite_head (head : bytes) (config : Config) : result bytes ProxyError :=
  match httparse_parse head with
  | None => Ok head
  | Some req =>
      match matching config (request_host (req_headers req)) with
      | None => Ok head
      | Some rule =>
          let overrides := rule_headers rule in
          let? method := ok_or (req_method req) MissingMethod in
          let? path := ok_or (req_path req) MissingPath in
          Ok (request_line method path ++ preserved_lines overrides (req_headers req)
              ++ override_lines overrides ++ connection_line overrides ++ CRLF)
      end
  end.
End rewrite.

(** ** A connection *)

(** What the child and the upstream answer, call by call. *)
Record Peers : Type := mkPeers {
  tls_accept : option (option str);  (** [None]: the handshake failed; the SNI *)
  client_read : nat → Z → result bytes str;  (** the [i]-th read, into a buffer of that size *)
  tcp_connect : str → Z → result unit str;
  server_name : str → result unit str;
  tls_connect : str → result unit str;
  upstream_write : bytes → result unit str;
  upstream_flush : result unit str;
}.

(** What the handler does to the upstream. *)
Inductive Event : Type :=
| EConnect (host : str) (port : Z)
| ETls (host : str)
| EWrite (data : bytes)
| EFlush
| ESplice.

Definition MAX_HEAD : Z := 64 * 1024.

(** The size of the buffer [tmp] of one read. *)
Definition READ_SIZE : Z := 4096.

Section conn.
Context `{Httparse} (peers : Peers) (config : Config).

(** A call on the upstream: logged, then answered. *)
Definition upstream (e : Event) (r : result unit str) : M (list Event) (result unit ProxyError) :=
  act e (map_err IoError r).

(** The loop reading the request head: the buffer and the end of its headers. *)
Fixpoint read_head (fuel : nat) (i : nat) (buf : bytes)
    : M (list Event) (result (bytes * nat) ProxyError) :=
  match fuel with
  | O => out_of_fuel
  | S fuel' =>
      match client_read peers i READ_SIZE with
      | Err e => ret (Err (IoError e))
      | Ok chunk =>
          if bool_decide (chunk = []) then ret (Err ClientClosed)
          else
            let buf := buf ++ chunk in
            match find_headers_end buf with
            | Some pos => ret (Ok (buf, pos))
            | None =>
                if MAX_HEAD <? Z.of_nat (length buf) then ret (Err HeadersTooLarge)
                else read_head fuel' (S i) buf
            end
      end
  end.

Definition handle_conn (fuel : nat) (port : Z) : M (list Event) (result unit ProxyError) :=
  match tls_accept peers with
  | None => ret (Ok tt)
  | Some None => ret (Err NoSni)
  | Some (Some sni) =>
      try_x (read_head fuel 0 []) (λ '(buf, head_end),
      try_x (ret (rewrite_head (take head_end buf) config)) (λ new_head,
      let leftover := drop head_end buf in
      try_x (upstream (EConnect sni port) (tcp_connect peers sni port)) (λ _,
      try_x (ret (map_err IoError (server_name peers sni))) (λ _,
      try_x (upstream (ETls sni) (tls_connect peers sni)) (λ _,
      try_x (upstream (EWrite new_head) (upstream_write peers new_head)) (λ _,
      try_x (match leftover with
             | [] => ret (Ok tt)
             | _ => upstream (EWrite leftover) (upstream_write peers leftover)
             end) (λ _,
      try_x (upstream EFlush (upstream_flush peers)) (λ _,
      act ESplice (Ok tt)))))))))
  end.
End conn.

(** ** Specification *)

(** The lowercased name of a header line. *)
Definition lower_name (h : str * bytes) : str := to_ascii_lowercase (fst h).





(** The bytes of the first [n] reads. *)
Fixpoint received (peers : Peers) (i n : nat) : option bytes :=
  match n with
  | O => Some []
  | S n' =>
      match client_read peers i READ_SIZE, received peers (S i) n' with
      | Ok c, Some rest => Some (c ++ rest)
      | _, _ => None
      end
  end.

(** Everything a completed connection does to the upstream, in order. *)
Definition full_log (sni : str) (port : Z) (new_head leftover : bytes) : list Event :=
  [EConnect sni port; ETls sni; EWrite new_head]
  ++ match leftover with [] => [] | _ => [EWrite leftover] end ++ [EFlush; ESplice].

(** What [AsyncRead] promises: a read fills at most the buffer it is given. *)
Definition reads_fit (peers : Peers) : Prop :=
  ∀ i n c, 0 <= n → client_read peers i n = Ok c → Z.of_nat (length c) <= n.

(** The step was done and answered with success; the name a TLS session is
    opened for is a valid one. *)
Definition answered (peers : Peers) (e : Event) : Prop :=
  match e with
  | EConnect host port => tcp_connect peers host port = Ok tt
  | ETls host => server_name peers host = Ok tt ∧ tls_connect peers host = Ok tt
  | EWrite data => upstream_write peers data = Ok tt
  | EFlush => upstream_flush peers = Ok tt
  | ESplice => True
  end.

(** ** Lemmas *)


Lemma kept_headers_spec overrides headers h :
  h ∈ kept_headers overrides headers ↔
  h ∈ headers ∧ fst h ≠ [] ∧ lower_name h ∉ override_names overrides ∧ lower_name h ∉ DROP.
Proof.
  unfold kept_headers, skip_header, lower_name. rewrite list_elem_of_filter.
  rewrite !orb_false_iff, bool_decide_eq_false, <- !not_true_iff_false, !contains_spec. tauto.
Qed.



Lemma find_headers_end_bound buf e : find_headers_end buf = Some e → (4 ≤ e ≤ length buf)%nat.
Proof.
  revert e. induction buf as [|b buf IH]; intros e; [by cbn|].
  cbn [find_headers_end]. destruct (starts_with (b :: buf) CRLF2) eqn:E.
  - intros [= <-]. apply starts_with_spec in E as [r ->]. simpl. lia.
  - destruct (find_headers_end buf) as [e'|]; [|done]. intros [= <-]. specialize (IH e' eq_refl). simpl. lia.
Qed.

Section conn_lemmas.
Context `{Httparse} (peers : Peers) (config : Config).

(** The reading loop ends: every iteration but the last adds a byte to a buffer
    of at most [MAX_HEAD] bytes. It logs nothing, and what it returns is what it
    received, at most one read past the limit. *)
Lemma read_head_spec fuel i buf log :
  MAX_HEAD + 1 - Z.of_nat (length buf) < Z.of_nat fuel → Z.of_nat (length buf) <= MAX_HEAD →
  ∃ r, read_head peers fuel i buf log = Done (r, log) ∧
    ∀ b e, r = Ok (b, e) →
      find_headers_end b = Some e ∧
      (reads_fit peers → Z.of_nat (length b) <= MAX_HEAD + READ_SIZE) ∧
      ∃ n rest, received peers i n = Some rest ∧ b = buf ++ rest.
Proof.
  revert i buf. induction fuel as [|fuel IH]; intros i buf Hf Hb; [lia|]. cbn [read_head].
  destruct (client_read peers i READ_SIZE) as [c|e] eqn:Ec; [|by eexists].
  destruct (bool_decide_reflect (c = [])) as [|Hne]; [by eexists|].
  destruct (find_headers_end (buf ++ c)) as [pos|] eqn:Ep.
  - eexists. split; [done|]. intros b e [= <- <-]. split; [done|].
    split; [intros Hfit; specialize (Hfit i READ_SIZE c ltac:(done) Ec); rewrite length_app; lia|].
    exists 1%nat, c. cbn [received]. by rewrite Ec, app_nil_r.
  - destruct (Z.ltb_spec MAX_HEAD (Z.of_nat (length (buf ++ c)))) as [Hbig|Hle]; [by eexists|].
    assert (length (buf ++ c) > length buf)%nat as Hgrow
      by (rewrite length_app; destruct c; [done|simpl; lia]).
    destruct (IH (S i) (buf ++ c)) as (r & Hr & Hspec); [lia|done|].
    exists r. split; [done|]. intros b e Hbe.
    destruct (Hspec b e Hbe) as (He & Hlen & n & rest & Hn & ->). split; [done|]. split; [done|].
    exists (S n), (c ++ rest). cbn [received]. by rewrite Ec, Hn, app_assoc.
Qed.

(** What the handler does from a good head on. *)
Definition to_upstream (sni : str) (port : Z) (new_head leftover : bytes)
    : M (list Event) (result unit ProxyError) :=
  try_x (upstream (EConnect sni port) (tcp_connect peers sni port)) (λ _,
  try_x (ret (map_err IoError (server_name peers sni))) (λ _,
  try_x (upstream (ETls sni) (tls_connect peers sni)) (λ _,
  try_x (upstream (EWrite new_head) (upstream_write peers new_head)) (λ _,
  try_x (match leftover with
         | [] => ret (Ok tt)
         | _ => upstream (EWrite leftover) (upstream_write peers leftover)
         end) (λ _,
  try_x (upstream EFlush (upstream_flush peers)) (λ _,
  act ESplice (Ok tt))))))).

(** It goes through the whole log, stopping at the first step that is not
    answered with success, and there only. *)
Lemma to_upstream_traces sni port new_head leftover :
  traces (answered peers) (to_upstream sni port new_head leftover)
    (full_log sni port new_head leftover).
Proof.
  assert (∀ r : result unit str, (∀ a, map_err IoError r = Ok a → r = Ok tt)) as Hr
    by (intros [[]|]; done).
  unfold to_upstream, full_log, upstream. cbn [app].
  apply traces_step; [intros a Ha; by eapply Hr|intros _]. apply traces_pure. intros a Hn%Hr.
  apply traces_step; [intros b Hb; split; [done|by eapply Hr]|intros _].
  apply traces_step; [intros b Hb; by eapply Hr|intros _].
  destruct leftover as [|x l];
    [apply traces_pure; intros _ _|apply traces_step; [intros b Hb; by eapply Hr|intros _]];
    (apply traces_step; [intros b Hb; by eapply Hr|intros _]); by apply traces_act.
Qed.

Lemma to_upstream_complete sni port new_head leftover :
  Forall (answered peers) (full_log sni port new_head leftover) →
  ∃ log, to_upstream sni port new_head leftover [] = Done (Ok tt, log).
Proof.
  unfold full_log. cbn [app]. intros [Hc [[Hn Ht] [Hw Hl]%Forall_cons]%Forall_cons]%Forall_cons.
  apply Forall_app in Hl as [Hl [Hf _]%Forall_cons]. cbn [answered] in *.
  unfold to_upstream, upstream. rewrite Hc, Hn, Ht, Hw, Hf. cbn [map_err].
  destruct leftover as [|x l]; [by eexists|].
  apply Forall_cons in Hl as [Hl _]. cbn [answered] in Hl. rewrite Hl. by eexists.
Qed.
End conn_lemmas.

(** ** Theorems *)


(** C19. The proxy fails closed and forwards faithfully: every connection
    terminates; without a TLS handshake or an SNI, or without a complete head,
    nothing at all is done upstream; otherwise whatever is done upstream is an
    initial part of: connect to the SNI host on the dialed port, TLS to the SNI
    host, the rewritten head, the bytes already received after it, flush, splice,
    and a step is only taken when every step before it succeeded: in particular
    no byte of the request is written before the upstream TLS handshake under the
    SNI name succeeded.  Head and leftover are together exactly what was received,
    the head ends at the first blank line, and no more than one read past
    [MAX_HEAD] is buffered.  The connection succeeds exactly when every
    step of that list is answered with success, and then all of it was done. *)
Theorem handle_conn_fail_closed `{Httparse} (peers : Peers) (config : Config) fuel port :
  MAX_HEAD + 1 < Z.of_nat fuel →
  ∃ r log, handle_conn peers config fuel port [] = Done (r, log) ∧
    match tls_accept peers with
    | None => r = Ok tt ∧ log = []
    | Some None => r = Err NoSni ∧ log = []
    | Some (Some sni) =>
        log = [] ∧ r ≠ Ok tt ∨
        ∃ n head leftover new_head,
          received peers 0 n = Some (head ++ leftover) ∧
          (reads_fit peers → Z.of_nat (length (head ++ leftover)) <= MAX_HEAD + READ_SIZE) ∧
          find_headers_end (head ++ leftover) = Some (length head) ∧
          rewrite_head head config = Ok new_head ∧
          log `prefix_of` full_log sni port new_head leftover ∧
          Forall (answered peers) (removelast log) ∧
          (r = Ok tt → log = full_log sni port new_head leftover) ∧
          (r = Ok tt ↔ Forall (answered peers) (full_log sni port new_head leftover))
    end.
Proof.
  intros Hf. unfold handle_conn. destruct (tls_accept peers) as [[sni|]|]; [|by eexists _, _..].
  destruct (read_head_spec peers fuel 0 [] []) as (r1 & E1 & Hspec); [simpl; lia|done|].
  unfold try_x at 1, bind at 1. rewrite E1. destruct r1 as [[buf e]|err].
  2: { eexists _, _. split; [reflexivity|]. by left. }
  destruct (Hspec buf e eq_refl) as (He & Hlen & n & rest & Hn & ->). cbn [app] in *.
  unfold try_x at 1, bind at 1. unfold ret at 1.
  destruct (rewrite_head (take e rest) config) as [new_head|err] eqn:Er.
  2: { eexists _, _. split; [reflexivity|]. by left. }
  apply find_headers_end_bound in He as Hb.
  destruct (to_upstream_traces peers sni port new_head (drop e rest) [])
    as (r & ext & E & Hpre & Hans & Hfull).
  exists r, ext. split; [exact E|]. right.
  exists n, (take e rest), (drop e rest), new_head. rewrite take_drop.
  split_and!; [done|done|by rewrite length_take_le by lia|done|done|done|..].
  - intros Hr. by destruct (Hfull tt Hr).
  - split; [intros Hr; by destruct (Hfull tt Hr)|].
    intros [log Hc]%to_upstream_complete. rewrite Hc in E. by injection E as <- _.
Qed.

(** A scripted connection: the head arrives in two reads, with the start of the
    body, and every call succeeds. *)
Definition demo_head : bytes :=
  lit "GET / HTTP/1.1" ++ CRLF ++ lit "Host: a.com" ++ CRLF2.

Definition demo_peers : Peers := mkPeers (Some (Some (lit "a.com")))
  (λ i n, Ok (take (Z.to_nat n) (if (i =? 0)%nat then take 20 demo_head else drop 20 demo_head ++ lit "body")))
  (λ _ _, Ok tt) (λ _, Ok tt) (λ _, Ok tt) (λ _, Ok tt) (Ok tt).

(** A parser that knows the demo request only. *)
#[local] Instance demo_httparse : Httparse := λ head,
  if bool_decide (head = demo_head)
  then Some (mkRequest (Some (lit "GET")) (Some (lit "/")) [(lit "Host", lit "a.com")])
  else None.

Definition demo_config : Config := mkConfig [mkRule (lit "a.com") [(lit "X-A", lit "1")]].

Lemma demo_rewrite :
  rewrite_head demo_head demo_config
  = Ok (lit "GET / HTTP/1.1" ++ CRLF ++ lit "Host: a.com" ++ CRLF ++ lit "X-A: 1" ++ CRLF
        ++ lit "Connection: close" ++ CRLF2).
Proof. vm_compute. reflexivity. Qed.

(** No read of the demo connection is longer than its buffer. *)
Lemma demo_reads_fit : reads_fit demo_peers.
Proof. intros i n c Hn [= <-]. rewrite length_take. lia. Qed.

Lemma handle_conn_fail_closed_witness :
  reads_fit demo_peers ∧
  ∃ r log, handle_conn demo_peers demo_config (Z.to_nat 65540) 443 [] = Done (r, log) ∧
    (log = [] ∧ r ≠ Ok tt ∨
     ∃ n head leftover new_head,
       received demo_peers 0 n = Some (head ++ leftover) ∧
       (reads_fit demo_peers → Z.of_nat (length (head ++ leftover)) <= MAX_HEAD + READ_SIZE) ∧
       find_headers_end (head ++ leftover) = Some (length head) ∧
       rewrite_head head demo_config = Ok new_head ∧
       log `prefix_of` full_log (lit "a.com") 443 new_head leftover ∧
       Forall (answered demo_peers) (removelast log) ∧
       (r = Ok tt → log = full_log (lit "a.com") 443 new_head leftover) ∧
       (r = Ok tt ↔ Forall (answered demo_peers) (full_log (lit "a.com") 443 new_head leftover))).
Proof.
  split; [exact demo_reads_fit|].
  apply (handle_conn_fail_closed demo_peers demo_config (Z.to_nat 65540) 443).
  unfold MAX_HEAD. lia.
Defined.
