(* ===== verification/Chunking.v ===== *)
(** * The proxy does not depend on how the request is cut into reads

    [handle_conn] collects the head over as many reads as it takes; the result is
    the one a single read of the same bytes would have given. *)

From S2P Require Import Prelude Eff Str Proxy.

(** ** Specification *)

(** The first reads deliver these pieces. *)
Definition delivers (peers : Peers) (chunks : list bytes) : Prop :=
  ∀ i c, chunks !! i = Some c → client_read peers i READ_SIZE = Ok c.

(** The same peers, with everything in one read. *)
Definition one_read (data : bytes) (peers : Peers) : Peers :=
  mkPeers (tls_accept peers) (λ i n, if (i =? 0)%nat then Ok data else client_read peers i n)
    (tcp_connect peers) (server_name peers) (tls_connect peers) (upstream_write peers)
    (upstream_flush peers).

(** ** Lemmas *)

(** A head found in a stream is found in every prefix that holds it, and in no
    shorter one. *)
Lemma find_headers_end_app a b e :
  find_headers_end (a ++ b) = Some e →
  find_headers_end a = if (e <=? length a)%nat then Some e else None.
Proof.
  revert e. induction a as [|x a IH]; intros e Hab.
  { apply find_headers_end_bound in Hab. by destruct e; [lia|]. }
  assert (∀ l, (length l < 4)%nat → find_headers_end l = None) as Hshort.
  { intros l Hl. destruct (find_headers_end l) eqn:E; [|done]. apply find_headers_end_bound in E. lia. }
  change ((x :: a) ++ b) with (x :: a ++ b) in Hab. cbn [find_headers_end] in Hab.
  destruct (starts_with (x :: a ++ b) CRLF2) eqn:Es.
  - injection Hab as <-. destruct (Nat.leb_spec 4 (length (x :: a))) as [Hle|Hlt]; [|by apply Hshort].
    cbn [find_headers_end].
    assert (starts_with (x :: a) CRLF2 = true) as ->; [|done].
    apply starts_with_spec in Es as [r Er]. apply starts_with_spec.
    destruct a as [|x1 [|x2 [|x3 a]]]; cbn in Hle; [lia..|]. cbn in Er. injection Er as -> -> -> -> _. by exists a.
  - destruct (find_headers_end (a ++ b)) as [e'|] eqn:Ee; [|done]. injection Hab as <-.
    specialize (IH e' eq_refl). cbn [find_headers_end length]. rewrite IH.
    assert (starts_with (x :: a) CRLF2 = false) as ->.
    { apply not_true_iff_false. intros [r Er]%starts_with_spec. apply not_true_iff_false in Es. apply Es, starts_with_spec.
      exists (r ++ b). change (x :: a ++ b) with ((x :: a) ++ b). by rewrite Er, <- app_assoc. }
    destruct (Nat.leb_spec e' (length a)), (Nat.leb_spec (S e') (S (length a))); done || lia.
Qed.

Lemma try_x_same {Ev A B X} (m m' : M (list Ev) (result A X)) (k : A → M (list Ev) (result B X)) log r :
  m log = Done r → m' log = Done r → try_x m k log = try_x m' k log.
Proof. intros E E'. unfold try_x, bind. by rewrite E, E'. Qed.

Section chunking.
Context `{Httparse} (peers : Peers) (config : Config).

(** The reading loop over pieces: it stops at the first one that completes the
    head. *)
Lemma read_head_pieces chunks i buf e fuel log :
  (∀ j c, chunks !! j = Some c → client_read peers (i + j)%nat READ_SIZE = Ok c) → Forall (λ c, c ≠ []) chunks →
  find_headers_end (buf ++ concat chunks) = Some e → Z.of_nat e <= MAX_HEAD →
  (length buf < e)%nat → (length chunks < fuel)%nat →
  ∃ n, read_head peers fuel i buf log = Done (Ok (buf ++ concat (take n chunks), e), log) ∧
       (e ≤ length (buf ++ concat (take n chunks)))%nat.
Proof.
  revert i buf fuel. induction chunks as [|c chunks IH]; intros i buf fuel Hd Hne He Hmax Hb Hf.
  { cbn in He. rewrite app_nil_r in He. apply find_headers_end_bound in He. lia. }
  apply Forall_cons in Hne as [Hc Hne]. destruct fuel as [|fuel]; [lia|]. cbn [read_head].
  pose proof (Hd 0%nat c eq_refl) as Hc0. rewrite Nat.add_0_r in Hc0. rewrite Hc0.
  rewrite bool_decide_false by done. cbn [concat] in He. rewrite app_assoc in He.
  rewrite (find_headers_end_app _ _ _ He). destruct (Nat.leb_spec e (length (buf ++ c))) as [Hle|Hlt].
  - exists 1%nat. cbn. rewrite take_0, app_nil_r. done.
  - rewrite (proj2 (Z.ltb_ge MAX_HEAD _)) by lia.
    destruct (IH (S i) (buf ++ c) fuel) as (n & Hr & Hn); [|done|done|done|done|cbn in Hf; lia|].
    + intros j c' Hj. replace (S i + j)%nat with (i + S j)%nat by lia. by apply Hd.
    + exists (S n). cbn [take concat]. by rewrite app_assoc.
Qed.

(** C20. How the child's bytes are cut into reads makes no difference: when the
    request head ends within the limit, then for every way of delivering the
    stream in pieces the proxy does and answers exactly what it would have, had
    the bytes it read arrived in one piece; and the head it rewrites is the head
    of the stream. *)
Theorem chunking_irrelevant chunks e fuel port :
  delivers peers chunks → Forall (λ c, c ≠ []) chunks →
  find_headers_end (concat chunks) = Some e → Z.of_nat e <= MAX_HEAD → (length chunks < fuel)%nat →
  ∃ n, let data := concat (take n chunks) in
    handle_conn peers config fuel port [] = handle_conn (one_read data peers) config fuel port [] ∧
    (e ≤ length data)%nat ∧ take e data = take e (concat chunks).
Proof.
  intros Hd Hne He Hmax Hf. pose proof (find_headers_end_bound _ _ He) as Hb.
  destruct (read_head_pieces chunks 0 [] e fuel [] Hd Hne He Hmax) as (n & Hr & Hn); [cbn; lia|done|].
  cbn [app] in *. exists n. cbn zeta.
  assert (∃ rest, concat chunks = concat (take n chunks) ++ rest) as [rest Hrest].
  { exists (concat (drop n chunks)). by rewrite <- concat_app, take_drop. }
  assert (find_headers_end (concat (take n chunks)) = Some e) as Hdata.
  { rewrite Hrest in He. rewrite (find_headers_end_app _ _ _ He). by rewrite (proj2 (Nat.leb_le _ _)). }
  split_and!; [|done|by rewrite Hrest, take_app_le].
  unfold handle_conn. cbn [tls_accept one_read]. destruct (tls_accept peers) as [[sni|]|]; [|done..].
  assert (read_head (one_read (concat (take n chunks)) peers) fuel 0 [] [] = Done (Ok (concat (take n chunks), e), [])) as Hr'.
  { destruct fuel as [|fuel]; [lia|]. cbn [read_head one_read client_read Nat.eqb app].
    rewrite bool_decide_false by (intros E; rewrite E in Hn; cbn in Hn; lia). by rewrite Hdata. }
  exact (try_x_same _ _ _ _ _ Hr Hr').
Qed.
End chunking.

#[local] Existing Instance demo_httparse.

(** The demo connection: two reads of a head and the start of a body. *)
Lemma chunking_irrelevant_witness :
  ∃ n, let data := concat (take n [take 20 demo_head; drop 20 demo_head ++ lit "body"]) in
    handle_conn demo_peers demo_config 10 443 [] = handle_conn (one_read data demo_peers) demo_config 10 443 [] ∧
    (length demo_head ≤ length data)%nat ∧
    take (length demo_head) data
    = take (length demo_head) (concat [take 20 demo_head; drop 20 demo_head ++ lit "body"]).
Proof.
  apply (chunking_irrelevant demo_peers demo_config [take 20 demo_head; drop 20 demo_head ++ lit "body"]
    (length demo_head) 10 443).
  - intros [|[|i]] c Hc; [injection Hc as <-; reflexivity|injection Hc as <-; reflexivity|discriminate Hc].
  - repeat constructor; discriminate.
  - vm_compute. reflexivity.
  - apply Z.leb_le. reflexivity.
  - cbn. lia.
Defined.
