(* ===== verification/Stream.v ===== *)
(** * The byte-stream bridge between the netstack and the proxy
    ([src/mitm/stream.rs])

    A [Pipe] is one bounded [tokio::sync::mpsc] channel of chunks, shared by its
    sender and its receiver; a [Stream] is the proxy's [SmoltcpStream] over two
    of them.  A poll is one atomic step on the shared pipe. *)

From S2P Require Import Prelude.

(** ** Definitions *)

Definition CHAN_CAP : nat := 16.

(** A bounded channel: the chunks in flight and which ends are alive. *)
Record Pipe : Type := mkPipe {
  p_queue : list bytes;
  p_tx_open : bool;
  p_rx_open : bool;
}.

Definition Pipe_new : Pipe := mkPipe [] true true.
Definition with_queue (q : list bytes) (p : Pipe) : Pipe := mkPipe q (p_tx_open p) (p_rx_open p).
Definition close_tx (p : Pipe) : Pipe := mkPipe (p_queue p) false (p_rx_open p).
Definition close_rx (p : Pipe) : Pipe := mkPipe (p_queue p) (p_tx_open p) false.

Inductive Poll (A : Type) : Type :=
| Ready (a : A)
| Pending.
Arguments Ready {A} a.
Arguments Pending {A}.

(** [Receiver::try_recv]: a chunk, nothing yet, or no sender left. *)
Inductive TryRecv : Type :=
| Received (v : bytes)
| Empty
| Disconnected.

Definition try_recv (p : Pipe) : Pipe * TryRecv :=
  match p_queue p with
  | v :: q => (with_queue q p, Received v)
  | [] => (p, if p_tx_open p then Empty else Disconnected)
  end.

(** [Sender::try_reserve] (and [PollSender::poll_reserve]): a slot, a full
    channel, or no receiver left. *)
Inductive TryReserve : Type :=
| Permit
| Full
| Closed.

Definition try_reserve (p : Pipe) : TryReserve :=
  if negb (p_rx_open p) then Closed
  else if (length (p_queue p) <? CHAN_CAP)%nat then Permit
  else Full.

Definition send (v : bytes) (p : Pipe) : Pipe := with_queue (p_queue p ++ [v]) p.

(** [SmoltcpStream]: the leftover of a chunk with its offset, and whether
    [to_net] is still [Some]. *)
Record Stream : Type := mkStream { read_rem : option (bytes * nat); to_net : bool }.

Definition Stream_new : Stream := mkStream None true.

(** The copying branch of [poll_read]. *)
Definition copy_rem (cap : nat) (data : bytes) (off : nat) (s : Stream) : Stream * bytes :=
  let n := Nat.min cap (length data - off) in
  let off' := (off + n)%nat in
  (mkStream (if (length data <=? off')%nat then None else Some (data, off')) (to_net s),
   slice off off' data).

(** The chunks [poll_read] skips because they are empty, and the next one. *)
Fixpoint next_chunk (q : list bytes) : list bytes * option bytes :=
  match q with
  | [] => ([], None)
  | [] :: q' => next_chunk q'
  | v :: q' => (q', Some v)
  end.

(** [AsyncRead::poll_read] into a buffer with [cap] bytes of room; [p] is the
    stack-to-proxy pipe. [Ready []] is the end of the stream (or no room). *)
Definition poll_read (cap : nat) (s : Stream) (p : Pipe) : Stream * Pipe * Poll bytes :=
  match read_rem s with
  | Some (data, off) => let '(s, b) := copy_rem cap data off s in (s, p, Ready b)
  | None =>
      match next_chunk (p_queue p) with
      | (q, Some v) => let '(s, b) := copy_rem cap v 0 s in (s, with_queue q p, Ready b)
      | (q, None) => (s, with_queue q p, if p_tx_open p then Pending else Ready [])
      end
  end.

(** [AsyncWrite::poll_write] ([Err] is [BrokenPipe]); [p] is the proxy-to-stack
    pipe. *)
Definition poll_write (data : bytes) (s : Stream) (p : Pipe) : Pipe * Poll (result nat unit) :=
  if negb (to_net s) then (p, Ready (Err tt))
  else match try_reserve p with
       | Permit => (send data p, Ready (Ok (length data)))
       | Closed => (p, Ready (Err tt))
       | Full => (p, Pending)
       end.

(** [AsyncWrite::poll_flush]: nothing is buffered on this side. *)
Definition poll_flush (s : Stream) : Poll (result unit unit) := Ready (Ok tt).

(** [AsyncWrite::poll_shutdown]: the sender is dropped. *)
Definition poll_shutdown (s : Stream) (p : Pipe) : Stream * Pipe :=
  (mkStream (read_rem s) false, close_tx p).

(** ** Specification *)

(** The bytes the proxy has yet to read: the leftover, then the queued chunks. *)
Definition rem_bytes (s : Stream) : bytes :=
  match read_rem s with Some (data, off) => drop off data | None => [] end.

Definition unread (s : Stream) (p : Pipe) : bytes := rem_bytes s ++ concat (p_queue p).

(** A leftover is never empty. *)
Definition stream_ok (s : Stream) : Prop :=
  match read_rem s with Some (data, off) => (off < length data)%nat | None => True end.

(** ** Lemmas *)

Lemma copy_rem_spec cap data off s s' b :
  (off < length data)%nat → copy_rem cap data off s = (s', b) →
  b ++ rem_bytes s' = drop off data ∧ stream_ok s' ∧ to_net s' = to_net s ∧
  (length b ≤ cap)%nat ∧ ((0 < cap)%nat → b ≠ []).
Proof.
  intros Ho [= <- <-]. set (n := Nat.min cap (length data - off)).
  assert (length (slice off (off + n) data) = n) as Hl by (rewrite length_slice; lia).
  assert (slice off (off + n) data ++ drop (off + n) data = drop off data) as Hcat.
  { unfold slice. rewrite <- (take_drop (off + n - off) (drop off data)) at 2.
    rewrite drop_drop. do 2 f_equal. lia. }
  unfold rem_bytes, stream_ok. cbn [read_rem to_net].
  destruct (Nat.leb_spec (length data) (off + n)) as [Hge|Hlt].
  - rewrite app_nil_r. rewrite (drop_ge data (off + n)), app_nil_r in Hcat by lia.
    split_and!; [done|done|done|lia|]. intros Hc Hb. rewrite Hb in Hl. simpl in Hl. lia.
  - split_and!; [done|done|done|lia|]. intros Hc Hb. rewrite Hb in Hl. simpl in Hl. lia.
Qed.

Lemma next_chunk_spec q q' o :
  next_chunk q = (q', o) →
  concat q = default [] o ++ concat q' ∧ (length q' ≤ length q)%nat ∧
  (o = None → q' = []) ∧ (∀ v, o = Some v → (0 < length v)%nat).
Proof.
  revert q' o. induction q as [|[|x v] q IH]; intros q' o; cbn [next_chunk].
  - intros [= <- <-]. by split_and!.
  - intros E. destruct (IH _ _ E) as (Hc & Hl & Hn & Hv). split_and!; simpl; try done. lia.
  - intros [= <- <-]. split_and!; simpl; try done; [lia|]. intros ? [= <-]. simpl. lia.
Qed.

(** A read returns the next bytes of the stream, at most [cap] of them, and
    leaves exactly the rest; with room it returns nothing only at the end. *)
Lemma poll_read_spec cap s p s' p' r :
  stream_ok s → poll_read cap s p = (s', p', r) →
  stream_ok s' ∧ to_net s' = to_net s ∧
  p_tx_open p' = p_tx_open p ∧ p_rx_open p' = p_rx_open p ∧
  match r with
  | Ready b => b ++ unread s' p' = unread s p ∧ (length b ≤ cap)%nat ∧
               ((0 < cap)%nat → b = [] → unread s p = [] ∧ p_tx_open p = false)
  | Pending => unread s p = [] ∧ unread s' p' = [] ∧ p_tx_open p = true
  end.
Proof.
  unfold poll_read, unread. intros Hok. unfold stream_ok in Hok.
  assert (rem_bytes s = match read_rem s with Some (data, off) => drop off data | None => [] end)
    as -> by done.
  destruct (read_rem s) as [[data off]|] eqn:Er.
  - destruct (copy_rem cap data off s) as [s1 b] eqn:Ec. intros [= <- <- <-].
    destruct (copy_rem_spec _ _ _ _ _ _ Hok Ec) as (Hb & Hs & Ht & Hl & Hne).
    split_and!; [exact Hs|done..| |done|]; [by rewrite app_assoc, Hb|].
    intros Hc Hb'. by destruct (Hne Hc).
  - destruct (next_chunk (p_queue p)) as [q [v|]] eqn:En;
      destruct (next_chunk_spec _ _ _ En) as (Hc & _ & Hnil & Hv).
    + destruct (copy_rem cap v 0 s) as [s1 b] eqn:Ec. intros [= <- <- <-].
      destruct (copy_rem_spec _ _ _ _ _ _ (Hv v eq_refl) Ec) as (Hb & Hs & Ht & Hl & Hne).
      split_and!; [exact Hs|done..| |done|].
      * cbn [with_queue p_queue]. rewrite app_assoc, Hb, Hc. done.
      * intros Hcap Hb'. by destruct (Hne Hcap).
    + rewrite (Hnil eq_refl) in *. intros [= <- <- <-]. rewrite Hc.
      unfold rem_bytes. rewrite Er. cbn. split_and!; [by unfold stream_ok; rewrite Er|done..|].
      destruct (p_tx_open p); split_and!; done || (simpl; lia).
Qed.

Lemma poll_write_spec data s p p' r :
  poll_write data s p = (p', r) →
  p_tx_open p' = p_tx_open p ∧ p_rx_open p' = p_rx_open p ∧
  match r with
  | Ready (Ok n) => n = length data ∧ concat (p_queue p') = concat (p_queue p) ++ data ∧ to_net s = true
  | _ => p' = p
  end.
Proof.
  unfold poll_write. destruct (to_net s); cbn [negb]; [|by intros [= <- <-]].
  destruct (try_reserve p); intros [= <- <-]; [|done..].
  split_and!; [done..| |done]. cbn. by rewrite concat_app, concat_cons, app_nil_r.
Qed.
