(* ===== verification/Stack.v ===== *)
(** * The netstack loop ([src/mitm/stack.rs])

    [smoltcp]'s sockets are the class [TcpSock] (one connection's socket) and
    the class [SocketSet] (adding, inspecting and removing listeners); the laws
    [TcpSockSpec] say what a socket does with the bytes it accepts and yields.
    [service_conn] is the body of [service_conns] for one connection; the steps
    of a [Link] interleave it with the proxy's polls and the network. *)

From S2P Require Import Prelude Stream.

(** ** Parameters *)

Inductive TcpState : Type := Listen | ClosedState | Active.

#[export] Instance TcpState_eq_dec : EqDecision TcpState.
Proof. solve_decision. Defined.

Class TcpSock (K : Type) : Type := {
  may_send : K → bool;
  may_recv : K → bool;
  can_send : K → bool;
  can_recv : K → bool;
  send_slice : bytes → K → K * option nat;
  (** [recv] with the closure that takes at most [n] contiguous bytes. *)
  recv_upto : nat → K → K * option bytes;
  sock_close : K → K;
  sock_abort : K → K;
  sock_state : K → TcpState;
}.

(** What the overlay of streams over TCP needs: a send accepts a prefix, a
    receive consumes what it returns. [sent] and [recvd] are the bytes accepted
    from and handed to the program so far. *)
Class TcpSockSpec (K : Type) `{TcpSock K} : Type := {
  sent : K → bytes;
  recvd : K → bytes;
  send_slice_log b k k' r :
    send_slice b k = (k', r) →
    recvd k' = recvd k ∧
    match r with
    | Some n => (n ≤ length b)%nat ∧ sent k' = sent k ++ take n b
    | None => sent k' = sent k
    end;
  recv_upto_log n k k' r :
    recv_upto n k = (k', r) →
    sent k' = sent k ∧ recvd k' = recvd k ++ default [] r;
  close_log k : sent (sock_close k) = sent k ∧ recvd (sock_close k) = recvd k;
  abort_log k : sent (sock_abort k) = sent k ∧ recvd (sock_abort k) = recvd k;
}.

(** ** One connection *)

Definition CHUNK : nat := 2048.

Record NetConn : Type := mkConn {
  to_app : bool;
  pending_out : option bytes;
  app_write_closed : bool;
  sent_fin : bool;
  established : bool;
}.

Definition NetConn_new : NetConn := mkConn true None false false false.

Definition set_pending (o : option bytes) (c : NetConn) : NetConn :=
  mkConn (to_app c) o (app_write_closed c) (sent_fin c) (established c).
Definition set_write_closed (c : NetConn) : NetConn :=
  mkConn (to_app c) (pending_out c) true (sent_fin c) (established c).
Definition set_sent_fin (c : NetConn) : NetConn :=
  mkConn (to_app c) (pending_out c) (app_write_closed c) true (established c).
Definition set_established (b : bool) (c : NetConn) : NetConn :=
  mkConn (to_app c) (pending_out c) (app_write_closed c) (sent_fin c) b.
Definition drop_to_app (c : NetConn) : NetConn :=
  mkConn false (pending_out c) (app_write_closed c) (sent_fin c) (established c).

Section service.
Context {K : Type} `{TcpSock K}.

Definition push_out (k : K) (c : NetConn) (buf : bytes) : K * NetConn :=
  if negb (can_send k) then (k, set_pending (Some buf) c)
  else
    let '(k, r) := send_slice buf k in
    match r with
    | Some n => if (n <? length buf)%nat then (k, set_pending (Some (drop n buf)) c) else (k, c)
    | None => (k, set_pending (Some buf) c)
    end.

(** [if let Some(buf) = conn.pending_out.take() { push_out(..) }] *)
Definition flush_pending (k : K) (c : NetConn) : K * NetConn :=
  match pending_out c with
  | Some buf => push_out k (set_pending None c) buf
  | None => (k, c)
  end.

(** The [while conn.pending_out.is_none()] loop over the proxy-to-stack pipe. *)
Fixpoint drain_app (q : list bytes) (tx_open : bool) (k : K) (c : NetConn)
    : K * NetConn * list bytes :=
  match pending_out c with
  | Some _ => (k, c, q)
  | None =>
      match q with
      | buf :: q' => let '(k, c) := push_out k c buf in drain_app q' tx_open k c
      | [] => (k, if tx_open then c else set_write_closed c, [])
      end
  end.

(** [if conn.app_write_closed && conn.pending_out.is_none() && !conn.sent_fin] *)
Definition maybe_fin (k : K) (c : NetConn) : K * NetConn :=
  if app_write_closed c && bool_decide (pending_out c = None) && negb (sent_fin c)
  then (sock_close k, set_sent_fin c) else (k, c).

(** The [while sock.can_recv()] loop; the flag is [proxy_gone]. [None] would be
    an iteration too many for the fuel. *)
Fixpoint pump_in (fuel : nat) (k : K) (has_app : bool) (down : Pipe) : option (K * Pipe * bool) :=
  if negb (can_recv k) then Some (k, down, false)
  else if negb has_app then Some (k, down, false)
  else
    match try_reserve down with
    | Permit =>
        match fuel with
        | O => None
        | S fuel' =>
            let '(k, r) := recv_upto CHUNK k in
            match r with
            | Some (x :: chunk) => pump_in fuel' k has_app (send (x :: chunk) down)
            | _ => Some (k, down, false)
            end
        end
    | Full => Some (k, down, false)
    | Closed => Some (k, down, true)
    end.

(** [conn.to_app = None]: the sender, if still there, is dropped. *)
Definition end_to_app (c : NetConn) (down : Pipe) : NetConn * Pipe :=
  (drop_to_app c, if to_app c then close_tx down else down).

(** The body of the loop of [service_conns]. A reaped connection drops both its
    channel ends. *)
Definition service_conn (k : K) (c : NetConn) (down up : Pipe)
    : option (K * option NetConn * Pipe * Pipe) :=
  let c := set_established (established c || may_send k) c in
  let '(k, c) := flush_pending k c in
  let '(k, c, q) := drain_app (p_queue up) (p_tx_open up) k c in
  let up := with_queue q up in
  let '(k, c) := maybe_fin k c in
  match pump_in CHAN_CAP k (to_app c) down with
  | None => None
  | Some (k, down, proxy_gone) =>
      let '(k, c, down) := if proxy_gone
                           then let '(c, down) := end_to_app c down in (sock_abort k, c, down)
                           else (k, c, down) in
      let '(c, down) := if established c && negb (may_recv k) then end_to_app c down
                        else (c, down) in
      match sock_state k with
      | ClosedState =>
          let '(_, down) := end_to_app c down in
          Some (k, None, down, close_rx up)
      | _ => Some (k, Some c, down, up)
      end
  end.
End service.

(** ** The link between a socket and the proxy *)

Record Link (K : Type) : Type := mkLink {
  lk_sock : K;
  lk_conn : option NetConn;
  lk_down : Pipe;
  lk_up : Pipe;
  lk_stream : Stream;
  lk_delivered : bytes;  (** what [poll_read] has returned so far *)
  lk_written : bytes;    (** what [poll_write] has accepted so far *)
}.
Arguments mkLink {K} _ _ _ _ _ _ _.
Arguments lk_sock {K} _.
Arguments lk_conn {K} _.
Arguments lk_down {K} _.
Arguments lk_up {K} _.
Arguments lk_stream {K} _.
Arguments lk_delivered {K} _.
Arguments lk_written {K} _.

(** [stream::channel] and [NetConn::new] for a promoted socket. *)
Definition Link_new {K} (k : K) : Link K :=
  mkLink k (Some NetConn_new) Pipe_new Pipe_new Stream_new [] [].

Section link.
Context {K : Type} `{TcpSockSpec K}.

Inductive link_step : Link K → Link K → Prop :=
| step_service k c d u s dl w k' oc d' u' :
    service_conn k c d u = Some (k', oc, d', u') →
    link_step (mkLink k (Some c) d u s dl w) (mkLink k' oc d' u' s dl w)
| step_read cap k oc d u s dl w s' d' b :
    poll_read cap s d = (s', d', Ready b) →
    link_step (mkLink k oc d u s dl w) (mkLink k oc d' u s' (dl ++ b) w)
| step_read_pending cap k oc d u s dl w s' d' :
    poll_read cap s d = (s', d', Pending) →
    link_step (mkLink k oc d u s dl w) (mkLink k oc d' u s' dl w)
| step_write data k oc d u s dl w u' n :
    poll_write data s u = (u', Ready (Ok n)) →
    link_step (mkLink k oc d u s dl w) (mkLink k oc d u' s dl (w ++ take n data))
| step_shutdown k oc d u s dl w s' u' :
    poll_shutdown s u = (s', u') →
    link_step (mkLink k oc d u s dl w) (mkLink k oc d u' s' dl w)
| step_drop k oc d u s dl w :
    (** the proxy drops the stream: both its channel ends *)
    link_step (mkLink k oc d u s dl w)
      (mkLink k oc (close_rx d) (close_tx u) (mkStream (read_rem s) false) dl w)
| step_network k k' oc d u s dl w :
    (** [iface.poll]: the socket exchanges segments with the child *)
    sent k' = sent k → recvd k' = recvd k →
    link_step (mkLink k oc d u s dl w) (mkLink k' oc d u s dl w).

Inductive link_reachable (k : K) : Link K → Prop :=
| link_init : link_reachable k (Link_new k)
| link_next l l' : link_reachable k l → link_step l l' → link_reachable k l'.

(** ** Specification *)

(** The bytes accepted from the proxy and not yet by the socket. *)
Definition in_flight (c : NetConn) (u : Pipe) : bytes :=
  default [] (pending_out c) ++ concat (p_queue u).

Record conn_ok (c : NetConn) (d u : Pipe) : Prop := {
  ok_down : p_tx_open d = to_app c;
  ok_closed : app_write_closed c = true → p_tx_open u = false ∧ p_queue u = [];
  ok_fin : sent_fin c = true → app_write_closed c = true ∧ pending_out c = None;
}.

(** [k0]: the socket as promoted, with what it had exchanged before. *)
Record link_ok (k0 : K) (l : Link K) : Prop := {
  lk_in : recvd (lk_sock l) = recvd k0 ++ lk_delivered l ++ unread (lk_stream l) (lk_down l);
  lk_out : match lk_conn l with
           | Some c => sent k0 ++ lk_written l
                       = sent (lk_sock l) ++ in_flight c (lk_up l)
           | None => ∃ lost, sent k0 ++ lk_written l = sent (lk_sock l) ++ lost
           end;
  lk_stream_ok : stream_ok (lk_stream l);
  lk_tx : p_tx_open (lk_up l) = to_net (lk_stream l);
  lk_conn_ok : ∀ c, lk_conn l = Some c → conn_ok c (lk_down l) (lk_up l);
}.

(** ** Lemmas *)

(** Everything but the stash is the same. *)
Definition same_flags (c c' : NetConn) : Prop :=
  to_app c' = to_app c ∧ sent_fin c' = sent_fin c ∧ established c' = established c.

Lemma push_out_spec k c buf k' c' :
  pending_out c = None → push_out k c buf = (k', c') →
  recvd k' = recvd k ∧ same_flags c c' ∧ app_write_closed c' = app_write_closed c ∧
  sent k ++ buf = sent k' ++ default [] (pending_out c').
Proof.
  unfold push_out, same_flags. intros Hp. destruct (can_send k); cbn [negb].
  2: { intros [= <- <-]. by split_and!. }
  destruct (send_slice buf k) as [k1 [n|]] eqn:E; destruct (send_slice_log _ _ _ _ E) as [Hr Hs].
  - destruct Hs as [Hn Hs]. destruct (Nat.ltb_spec n (length buf)) as [Hlt|Hge]; intros [= <- <-].
    + split_and!; try done. cbn. by rewrite Hs, <- app_assoc, take_drop.
    + split_and!; try done. by rewrite Hs, Hp, app_nil_r, take_ge.
  - intros [= <- <-]. split_and!; try done. cbn. by rewrite Hs.
Qed.

Lemma flush_pending_spec k c k' c' :
  flush_pending k c = (k', c') →
  recvd k' = recvd k ∧ same_flags c c' ∧ app_write_closed c' = app_write_closed c ∧
  sent k ++ default [] (pending_out c) = sent k' ++ default [] (pending_out c') ∧
  (pending_out c = None → c' = c).
Proof.
  unfold flush_pending. destruct (pending_out c) as [buf|] eqn:Ep.
  - intros E. destruct (push_out_spec _ (set_pending None c) _ _ _ eq_refl E) as (Hr & Hf & Hw & Hs). by split_and!.
  - intros [= <- <-]. rewrite Ep. by split_and!.
Qed.

Lemma drain_app_spec q tx k c k' c' q' :
  drain_app q tx k c = (k', c', q') →
  recvd k' = recvd k ∧ same_flags c c' ∧
  sent k ++ default [] (pending_out c) ++ concat q = sent k' ++ default [] (pending_out c') ++ concat q' ∧
  (app_write_closed c' = true → app_write_closed c = true ∨ tx = false ∧ q' = []) ∧
  (q = [] → q' = [] ∧ pending_out c' = pending_out c).
Proof.
  revert k c. induction q as [|buf q IH]; intros k c; cbn [drain_app];
    destruct (pending_out c) as [b|] eqn:Ep.
  - intros [= <- <- <-]. rewrite Ep. split_and!; try done. by left.
  - destruct tx; intros [= <- <- <-]; cbn; rewrite ?Ep; split_and!; try done; auto.
  - intros [= <- <- <-]. rewrite Ep. split_and!; try done. by left.
  - destruct (push_out k c buf) as [k1 c1] eqn:E1. intros E.
    destruct (push_out_spec _ _ _ _ _ Ep E1) as (Hr1 & (Ha & Hb & Hc) & Hw1 & Hs1).
    destruct (IH _ _ E) as (Hr & (Ha' & Hb' & Hc') & Hs & Hw & _).
    unfold same_flags. split_and!; try congruence.
    + cbn [default from_option app concat]. rewrite app_assoc. fold (default [] (pending_out c')).
      rewrite <- Hs, app_assoc. by rewrite Hs1.
    + by rewrite <- Hw1.
Qed.

Lemma maybe_fin_spec k c k' c' :
  maybe_fin k c = (k', c') →
  sent k' = sent k ∧ recvd k' = recvd k ∧ to_app c' = to_app c ∧ pending_out c' = pending_out c ∧
  app_write_closed c' = app_write_closed c ∧ established c' = established c ∧
  (sent_fin c' = true → sent_fin c = true ∨ app_write_closed c = true ∧ pending_out c = None).
Proof.
  unfold maybe_fin. destruct (app_write_closed c && _ && _) eqn:E; intros [= <- <-].
  - destruct (close_log k). rewrite !andb_true_iff, bool_decide_eq_true in E.
    destruct E as [[? ?] ?]. split_and!; try done. auto.
  - split_and!; try done. auto.
Qed.

(** The receiving loop moves bytes from the socket into the pipe, in order, and
    never needs more iterations than the pipe has slots. *)
Lemma pump_in_spec fuel k has_app d :
  (CHAN_CAP ≤ length (p_queue d) + fuel)%nat →
  ∃ k' d' gone, pump_in fuel k has_app d = Some (k', d', gone) ∧
    sent k' = sent k ∧ p_tx_open d' = p_tx_open d ∧ p_rx_open d' = p_rx_open d ∧
    ∃ ext, recvd k' = recvd k ++ ext ∧ concat (p_queue d') = concat (p_queue d) ++ ext.
Proof.
  assert (∀ (k : K) (d : Pipe) (gone : bool), ∃ k' d' gone', Some (k, d, gone) = Some (k', d', gone') ∧
    sent k' = sent k ∧ p_tx_open d' = p_tx_open d ∧ p_rx_open d' = p_rx_open d ∧
    ∃ ext, recvd k' = recvd k ++ ext ∧ concat (p_queue d') = concat (p_queue d) ++ ext) as Hstop.
  { intros k1 d1 gone. exists k1, d1, gone. split_and!; try done. exists []. by rewrite !app_nil_r. }
  revert k d. induction fuel as [|fuel IH]; intros k d Hf; cbn [pump_in];
    (destruct (can_recv k); cbn [negb]; [|apply Hstop]);
    (destruct has_app; cbn [negb]; [|apply Hstop]);
    (destruct (try_reserve d) eqn:Et; [|apply Hstop..]).
  - unfold try_reserve in Et. destruct (negb (p_rx_open d)); [done|].
    by rewrite (proj2 (Nat.ltb_ge _ _)) in Et by lia.
  -
    destruct (recv_upto CHUNK k) as [k1 r] eqn:E. destruct (recv_upto_log _ _ _ _ E) as [Hs Hr].
    destruct r as [[|x chunk]|].
    + destruct (Hstop k1 d false) as (k' & d' & g & Eq & H1 & H2 & H3 & ext & H4 & H5).
      exists k', d', g. cbn in Hr. rewrite app_nil_r in Hr. rewrite <- Hs, <- Hr. by split_and!; eauto.
    + destruct (IH k1 (send (x :: chunk) d)) as (k' & d' & g & Eq & H1 & H2 & H3 & ext & H4 & H5).
      { cbn. rewrite length_app. cbn. lia. }
      exists k', d', g. split_and!; [done|congruence|done|done|].
      exists ((x :: chunk) ++ ext). rewrite H4, H5, Hr. cbn.
      rewrite concat_app, concat_cons, app_nil_r, <- !app_assoc. done.
    + destruct (Hstop k1 d false) as (k' & d' & g & Eq & H1 & H2 & H3 & ext & H4 & H5).
      exists k', d', g. cbn in Hr. rewrite app_nil_r in Hr. rewrite <- Hs, <- Hr. by split_and!; eauto.
Qed.

(** [service_conn], composed: what it moves and how the connection's state
    relates before and after. *)
Lemma service_conn_spec k c d u :
  conn_ok c d u →
  ∃ k' oc d' u', service_conn k c d u = Some (k', oc, d', u') ∧
    p_tx_open u' = p_tx_open u ∧
    (∃ ext, recvd k' = recvd k ++ ext ∧ concat (p_queue d') = concat (p_queue d) ++ ext) ∧
    match oc with
    | Some c' => conn_ok c' d' u' ∧ sent k ++ in_flight c u = sent k' ++ in_flight c' u'
    | None => ∃ lost, sent k ++ in_flight c u = sent k' ++ lost
    end.
Proof.
  intros [Hd Hcl Hfin]. unfold service_conn, in_flight. set (c0 := set_established _ c).
  destruct (flush_pending k c0) as [k1 c1] eqn:E1.
  destruct (flush_pending_spec _ _ _ _ E1) as (Hr1 & (Ha1 & Hb1 & _) & Hw1 & Hs1 & Hn1).
  destruct (drain_app (p_queue u) (p_tx_open u) k1 c1) as [[k2 c2] q] eqn:E2.
  destruct (drain_app_spec _ _ _ _ _ _ _ E2) as (Hr2 & (Ha2 & Hb2 & _) & Hs2 & Hw2 & Hq2).
  destruct (maybe_fin k2 c2) as [k3 c3] eqn:E3.
  destruct (maybe_fin_spec _ _ _ _ E3) as (Hs3 & Hr3 & Ha3 & Hp3 & Hw3 & _ & Hf3).
  destruct (pump_in_spec CHAN_CAP k3 (to_app c3) d) as (k4 & d4 & gone & -> & Hs4 & Ht4 & Hx4 & ext & Hr4 & Hq4);
    [lia|].
  assert (to_app c3 = to_app c) as Ha by (rewrite Ha3, Ha2, Ha1; done).
  assert (app_write_closed c3 = true → p_tx_open u = false ∧ q = []) as Hcl3.
  { rewrite Hw3. intros [Hw| [-> ->]]%Hw2; [|done]. rewrite Hw1 in Hw.
    destruct (Hcl Hw) as [Ht Hq]. split; [done|]. by apply Hq2. }
  assert (sent_fin c3 = true → app_write_closed c3 = true ∧ pending_out c3 = None) as Hfin3.
  { rewrite Hw3, Hp3. intros [Hf| [? ?]]%Hf3; [|done]. rewrite Hb2, Hb1 in Hf.
    destruct (Hfin Hf) as [Hw Hp]. destruct (Hcl Hw) as [_ Hq].
    specialize (Hn1 Hp). subst c1. destruct (Hq2 Hq) as [-> Hp2]. split; [|rewrite Hp2; exact Hp].
    rewrite Hq in E2. cbn [drain_app] in E2. change (pending_out c0) with (pending_out c) in E2.
    rewrite Hp in E2. injection E2 as _ <-. destruct (p_tx_open u); done. }
  assert (sent k ++ default [] (pending_out c) ++ concat (p_queue u)
          = sent k4 ++ default [] (pending_out c3) ++ concat q) as Hout.
  { rewrite Hs4, Hs3, Hp3, <- Hs2, !app_assoc. by rewrite <- Hs1. }
  assert (recvd k4 = recvd k ++ ext) as Hin by (rewrite Hr4, Hr3, Hr2, Hr1; done).
  clear - Ha Hcl3 Hfin3 Hout Hin Ht4 Hq4 Hd.
  (* from here on only [to_app] and the sender's end change *)
  assert (∃ k5 c5 d5,
    (if gone then let '(c, down) := end_to_app c3 d4 in (sock_abort k4, c, down) else (k4, c3, d4))
    = (k5, c5, d5) ∧ sent k5 = sent k4 ∧ recvd k5 = recvd k4 ∧ p_queue d5 = p_queue d4 ∧
    p_tx_open d5 = to_app c5 ∧ pending_out c5 = pending_out c3 ∧
    app_write_closed c5 = app_write_closed c3 ∧ sent_fin c5 = sent_fin c3)
    as (k5 & c5 & d5 & -> & Hs5 & Hr5 & Hq5 & Ht5 & Hp5 & Hw5 & Hf5).
  { destruct gone; unfold end_to_app.
    - destruct (abort_log k4) as [? ?]. eexists _, _, _. split_and!; [reflexivity|done|done|..];
        destruct (to_app c3) eqn:Eta; cbn; congruence.
    - eexists _, _, _. split_and!; [reflexivity|done..| | | |]; congruence. }
  assert (∃ c6 d6,
    (if established c5 && negb (may_recv k5) then end_to_app c5 d5 else (c5, d5)) = (c6, d6) ∧
    p_queue d6 = p_queue d5 ∧ p_tx_open d6 = to_app c6 ∧ pending_out c6 = pending_out c5 ∧
    app_write_closed c6 = app_write_closed c5 ∧ sent_fin c6 = sent_fin c5)
    as (c6 & d6 & -> & Hq6 & Ht6 & Hp6 & Hw6 & Hf6).
  { destruct (established c5 && negb (may_recv k5)); unfold end_to_app.
    - eexists _, _. split_and!; [reflexivity|..]; destruct (to_app c5) eqn:Eta; cbn; congruence.
    - eexists _, _. by split_and!. }
  assert (recvd k5 = recvd k ++ ext ∧ concat (p_queue d6) = concat (p_queue d) ++ ext) as [Hin5 Hq]
    by (split; congruence).
  destruct (sock_state k5); (eexists _, _, _, _; split; [reflexivity|]; cbn -[app];
    split; [done|]; split).
  1,5: exists ext; done.
  all: try (split; [constructor; cbn; [done|by rewrite Hw6, Hw5|by rewrite Hf6, Hf5, Hw6, Hw5, Hp6, Hp5]
                   |by rewrite Hs5, Hp6, Hp5]).
  - exists ext. split; [done|]. by destruct (to_app c6).
  - eexists. rewrite Hs5. exact Hout.
Qed.

Lemma link_step_ok k0 l l' : link_ok k0 l → link_step l l' → link_ok k0 l'.
Proof.
  intros [Hin Hout Hso Htx Hco] Hstep.
  destruct Hstep as [k c d u s dl w k' oc d' u' E|cap k oc d u s dl w s' d' b E|
    cap k oc d u s dl w s' d' E|data k oc d u s dl w u' n E|k oc d u s dl w s' u' E|
    k oc d u s dl w|k k' oc d u s dl w Hs Hr]; cbn in *.
  - destruct (service_conn_spec k c d u (Hco c eq_refl)) as (k1 & oc1 & d1 & u1 & E1 & Ht & (ext & Hr & Hq) & Hc).
    rewrite E in E1. injection E1 as <- <- <- <-. unfold unread in *. constructor; cbn.
    + unfold unread. by rewrite Hr, Hin, Hq, <- !app_assoc.
    + destruct oc as [c'|]; [destruct Hc as [_ Hc]; by rewrite Hout|].
      destruct Hc as [lost Hc]. exists lost. by rewrite Hout.
    + done.
    + congruence.
    + intros c' ->. by destruct Hc.
  - destruct (poll_read_spec _ _ _ _ _ _ Hso E) as (Hs & Ht & Hx1 & Hx2 & Hb & _ & _).
    constructor; cbn; [by rewrite Hin, <- app_assoc, Hb|done|done|congruence|].
    intros c Hc. destruct (Hco c Hc) as [? ? ?]. constructor; [congruence|done|done].
  - destruct (poll_read_spec _ _ _ _ _ _ Hso E) as (Hs & Ht & Hx1 & Hx2 & Hb & Hb' & _).
    constructor; cbn; [by rewrite Hin, Hb, Hb'|done|done|congruence|].
    intros c Hc. destruct (Hco c Hc) as [? ? ?]. constructor; [congruence|done|done].
  - destruct (poll_write_spec _ _ _ _ _ E) as (Ht & Hx & -> & Hq & Hopen).
    rewrite take_ge by done. constructor; cbn; [done| |done|congruence|].
    + destruct oc as [c|]; [|destruct Hout as [lost Hl]; exists (lost ++ data); by rewrite !app_assoc, Hl].
      unfold in_flight in *. by rewrite Hq, !app_assoc, Hout, !app_assoc.
    + intros c Hc. destruct (Hco c Hc) as [? Hcl ?]. constructor; [done| |done].
      intros Hw. destruct (Hcl Hw) as [Hcl' _]. congruence.
  - injection E as <- <-. constructor; cbn; [done|done|done|done|].
    intros c Hc. destruct (Hco c Hc) as [? Hcl ?]. constructor; [done| |done].
    intros Hw. split; [done|]. by apply Hcl.
  - constructor; cbn; [done|done|done|done|].
    intros c Hc. destruct (Hco c Hc) as [? Hcl ?]. constructor; [done| |done].
    intros Hw. split; [done|]. by apply Hcl.
  - constructor; cbn; [by rewrite Hr|by rewrite Hs|done|done|done].
Qed.

Lemma link_reachable_ok k0 l : link_reachable k0 l → link_ok k0 l.
Proof.
  induction 1 as [|l l' _ IH Hstep]; [|by eapply link_step_ok].
  constructor; cbn; [by rewrite app_nil_r|by rewrite app_nil_r|done|done|].
  intros c [= <-]. by constructor.
Qed.
End link.
