(* ===== verification/Tun.v ===== *)
(** * The TUN device ([src/mitm/tun.rs]): draining packets, spotting SYNs

    The raw [read] is a parameter of [drain]: the results the kernel gives, one
    per call.  Checked indexing panics out of bounds. *)

From S2P Require Import Prelude Eff Dns.

(** ** Definitions *)

Definition MTU : nat := 1500.
Definition IPPROTO_TCP : Z := 6.

(** [pkt[n]] *)
Definition index {B} (pkt : bytes) (n : nat) (k : Z → outcome B) : outcome B :=
  match pkt !! n with Some b => k b | None => Panicked end.

(** [pkt.get(n..)] *)
Definition get_from (n : nat) (pkt : bytes) : option bytes :=
  if (n <=? length pkt)%nat then Some (drop n pkt) else None.

(** The part of [syn_dest_port] past the IP header. *)
Definition syn_port (tcp : option bytes) : outcome (option Z) :=
  match tcp with
  | None => Done None
  | Some tcp =>
      if (length tcp <? 20)%nat then Done None
      else
        index tcp 13 (λ flags,
          if negb (Z.land flags 2 =? 0) && (Z.land flags 16 =? 0) then
            index tcp 2 (λ hi, index tcp 3 (λ lo, Done (Some (from_be16 hi lo))))
          else Done None)
  end.

Definition syn_dest_port (pkt : bytes) : outcome (option Z) :=
  match head pkt with
  | None => Done None
  | Some b0 =>
      if Z.shiftr b0 4 =? 4 then
        if (length pkt <? 20)%nat then Done None
        else index pkt 9 (λ proto,
               if negb (proto =? IPPROTO_TCP) then Done None
               else index pkt 0 (λ b0, syn_port (get_from (Z.to_nat (Z.land b0 15 * 4)) pkt)))
      else if Z.shiftr b0 4 =? 6 then
        if (length pkt <? 40)%nat then Done None
        else index pkt 6 (λ proto,
               if negb (proto =? IPPROTO_TCP) then Done None
               else syn_port (get_from 40 pkt))
      else Done None
  end.

(** A result of [read] on the non-blocking TUN. *)
Inductive TunRead : Type :=
| RPacket (pkt : bytes)
| REnd
| RAgain
| RInterrupted
| RError.

(** [Tun::drain]: the inbox and the wanted ports afterwards; [reads] are the
    results of the calls to come (none left: [EAGAIN]). *)
Fixpoint drain (reads : list TunRead) (inbox : list bytes) (wanted : gset Z)
    : outcome (list bytes * gset Z) :=
  match reads with
  | RPacket pkt :: reads' =>
      match syn_dest_port pkt with
      | Done (Some port) => drain reads' (inbox ++ [pkt]) ({[port]} ∪ wanted)
      | Done None => drain reads' (inbox ++ [pkt]) wanted
      | Panicked => Panicked
      | OutOfFuel => OutOfFuel
      end
  | RInterrupted :: reads' => drain reads' inbox wanted
  | REnd :: _ | RAgain :: _ | RError :: _ | [] => Done (inbox, wanted)
  end.

(** [Device::receive]: the packet handed to the stack. *)
Definition receive (inbox : list bytes) : option (bytes * list bytes) :=
  match inbox with [] => None | pkt :: inbox' => Some (pkt, inbox') end.

(** ** Specification *)

(** [tcp] is the TCP segment of an IPv4 or IPv6 packet without extension headers. *)
Inductive tcp_segment (pkt : bytes) : bytes → Prop :=
| tcp_v4 ihl rest :
    (20 ≤ length pkt)%nat → head pkt = Some (4 * 16 + ihl) → 0 <= ihl < 16 →
    pkt !! 9%nat = Some IPPROTO_TCP → (Z.to_nat (4 * ihl) ≤ length pkt)%nat →
    rest = drop (Z.to_nat (4 * ihl)) pkt → tcp_segment pkt rest
| tcp_v6 lo rest :
    (40 ≤ length pkt)%nat → head pkt = Some (6 * 16 + lo) → 0 <= lo < 16 →
    pkt !! 6%nat = Some IPPROTO_TCP → rest = drop 40 pkt → tcp_segment pkt rest.

(** The packet opens a connection to [port]: SYN set, ACK clear. *)
Definition opens_port (pkt : bytes) (port : Z) : Prop :=
  ∃ tcp flags hi lo, tcp_segment pkt tcp ∧ (20 ≤ length tcp)%nat ∧
    tcp !! 13%nat = Some flags ∧ Z.testbit flags 1 = true ∧ Z.testbit flags 4 = false ∧
    tcp !! 2%nat = Some hi ∧ tcp !! 3%nat = Some lo ∧ port = 256 * hi + lo.

(** The packets read before the first result that stops the loop. *)
Fixpoint packets (reads : list TunRead) : list bytes :=
  match reads with
  | RPacket pkt :: reads' => pkt :: packets reads'
  | RInterrupted :: reads' => packets reads'
  | _ => []
  end.

(** ** Lemmas *)

(** Testing a mask of one bit. *)
Lemma land_pow2 flags n : 0 <= n → (Z.land flags (2 ^ n) =? 0) = negb (Z.testbit flags n).
Proof.
  intros Hn. destruct (Z.testbit flags n) eqn:E; cbn [negb].
  - apply Z.eqb_neq. intros H0. apply (f_equal (λ z, Z.testbit z n)) in H0.
    by rewrite Z.land_spec, E, Z.pow2_bits_true, Z.bits_0 in H0 by done.
  - apply Z.eqb_eq, Z.bits_inj'. intros m Hm.
    rewrite Z.land_spec, Z.bits_0, Z.pow2_bits_eqb by done.
    destruct (Z.eqb_spec n m) as [<-|]; [by rewrite E|by rewrite andb_false_r].
Qed.

(** The two nibbles of a byte. *)
Lemma nibbles b : 0 <= b → b = Z.shiftr b 4 * 16 + Z.land b 15 ∧ 0 <= Z.land b 15 < 16.
Proof.
  intros Hb. change 15 with (Z.ones 4). rewrite Z.land_ones, Z.shiftr_div_pow2 by lia.
  change (2 ^ 4) with 16. split; [|by apply Z.mod_pos_bound]. pose proof (Z.div_mod b 16). lia.
Qed.

Lemma byte_lookup pkt n b : Forall byte_ok pkt → pkt !! n = Some b → 0 <= b < 256.
Proof. intros Hp Hl. by eapply (proj1 (Forall_lookup _ _) Hp). Qed.

Lemma index_in_range {B} pkt n (k : Z → outcome B) :
  (n < length pkt)%nat → ∃ b, pkt !! n = Some b ∧ index pkt n k = k b.
Proof. intros Hn. unfold index. destruct (lookup_lt_is_Some_2 _ _ Hn) as [b Hb]. rewrite Hb. eauto. Qed.

(** The port of a SYN segment. *)
Definition syn_segment (tcp : bytes) (port : Z) : Prop :=
  ∃ flags hi lo, (20 ≤ length tcp)%nat ∧
    tcp !! 13%nat = Some flags ∧ Z.testbit flags 1 = true ∧ Z.testbit flags 4 = false ∧
    tcp !! 2%nat = Some hi ∧ tcp !! 3%nat = Some lo ∧ port = 256 * hi + lo.

Lemma syn_port_spec tcp :
  ∃ r, syn_port (Some tcp) = Done r ∧ ∀ p, r = Some p ↔ syn_segment tcp p.
Proof.
  unfold syn_port, syn_segment. destruct (Nat.ltb_spec (length tcp) 20) as [Hlt|Hge].
  { exists None. split; [done|]. intros p. split; [done|]. intros (?&?&?&?&_). lia. }
  destruct (index_in_range (B := option Z) tcp 13
    (λ flags, if negb (Z.land flags 2 =? 0) && (Z.land flags 16 =? 0) then
       index tcp 2 (λ hi, index tcp 3 (λ lo, Done (Some (from_be16 hi lo)))) else Done None))
    as (flags & Hfl & ->); [lia|].
  change 2 with (2 ^ 1). change 16 with (2 ^ 4). rewrite !land_pow2, negb_involutive by lia.
  destruct (Z.testbit flags 1) eqn:E1, (Z.testbit flags 4) eqn:E4; cbn [andb negb].
  2: { destruct (lookup_lt_is_Some_2 tcp 2) as [hi Hhi]; [lia|].
       destruct (lookup_lt_is_Some_2 tcp 3) as [lo Hlo]; [lia|].
       unfold index. rewrite Hhi, Hlo. eexists. split; [done|]. intros p. unfold from_be16. split.
       - intros [= <-]. exists flags, hi, lo. split_and!; (done || lia).
       - intros (f & h & l & _ & _ & _ & _ & Hh & Hl & ->). simplify_eq. f_equal. lia. }
  all: exists None; split; [done|]; intros p; split; [done|];
    intros (f & h & l & _ & Hf & H1 & H4 & _); simplify_eq; congruence.
Qed.

(** [syn_dest_port] never indexes out of bounds and recognises exactly the
    packets that open a connection. *)
Lemma syn_dest_port_spec pkt :
  Forall byte_ok pkt → ∃ r, syn_dest_port pkt = Done r ∧ ∀ p, r = Some p ↔ opens_port pkt p.
Proof.
  intros Hb. unfold syn_dest_port.
  assert (∀ p, opens_port pkt p ↔ ∃ tcp, tcp_segment pkt tcp ∧ syn_segment tcp p) as Hop
    by (intros p; unfold opens_port, syn_segment; naive_solver).
  assert ((∀ tcp, ¬ tcp_segment pkt tcp) →
    ∃ r, Done (@None Z) = Done r ∧ ∀ p, r = Some p ↔ opens_port pkt p) as Hnone.
  { intros Hno. exists None. split; [done|]. intros p. rewrite Hop. split; [done|].
    intros (tcp & Ht & _). by destruct (Hno tcp). }
  assert (∀ tcp, tcp_segment pkt tcp → (∀ t', tcp_segment pkt t' → t' = tcp) →
    ∃ r, syn_port (Some tcp) = Done r ∧ ∀ p, r = Some p ↔ opens_port pkt p) as Hsome.
  { intros tcp Ht Huniq. destruct (syn_port_spec tcp) as (r & Hr & Hp). exists r. split; [done|].
    intros p. rewrite Hp, Hop. split; [eauto|]. by intros (t' & ->%Huniq & Hs). }
  destruct (head pkt) as [b0|] eqn:Eh; [|apply Hnone; intros ? []; congruence].
  assert (pkt !! 0%nat = Some b0) as H0 by (by destruct pkt).
  pose proof (byte_lookup _ _ _ Hb H0) as Hb0. destruct (nibbles b0) as [Hnib Hlow]; [lia|].
  destruct (Z.eqb_spec (Z.shiftr b0 4) 4) as [E4|N4].
  - destruct (Nat.ltb_spec (length pkt) 20) as [|Hlen];
      [apply Hnone; intros ? []; simplify_eq; lia|].
    destruct (index_in_range pkt 9 (λ proto, if negb (proto =? IPPROTO_TCP) then Done (@None Z)
      else index pkt 0 (λ b0, syn_port (get_from (Z.to_nat (Z.land b0 15 * 4)) pkt))))
      as (proto & Hpr & ->); [lia|].
    destruct (Z.eqb_spec proto IPPROTO_TCP) as [->|Hne]; cbn [negb];
      [|apply Hnone; intros ? []; simplify_eq; lia].
    unfold index. rewrite H0. unfold get_from.
    destruct (Nat.leb_spec (Z.to_nat (Z.land b0 15 * 4)) (length pkt)) as [Hle|];
      [|apply Hnone; intros ? []; simplify_eq; lia].
    apply Hsome.
    + eapply (tcp_v4 pkt (Z.land b0 15)); [done| |done|done|lia|f_equal; lia].
      rewrite Eh. f_equal. lia.
    + intros t' []; simplify_eq; [f_equal|]; lia.
  - destruct (Z.eqb_spec (Z.shiftr b0 4) 6) as [E6|N6];
      [|apply Hnone; intros ? [ihl|lo]; simplify_eq; lia].
    destruct (Nat.ltb_spec (length pkt) 40) as [|Hlen];
      [apply Hnone; intros ? []; simplify_eq; lia|].
    destruct (index_in_range pkt 6 (λ proto, if negb (proto =? IPPROTO_TCP) then Done (@None Z)
      else syn_port (get_from 40 pkt))) as (proto & Hpr & ->); [lia|].
    destruct (Z.eqb_spec proto IPPROTO_TCP) as [->|Hne]; cbn [negb];
      [|apply Hnone; intros ? []; simplify_eq; lia].
    unfold get_from. rewrite (proj2 (Nat.leb_le 40 _)) by done. apply Hsome.
    + eapply (tcp_v6 pkt (Z.land b0 15)); [done| |done|done|done]. rewrite Eh. f_equal. lia.
    + intros t' []; simplify_eq; [lia|done].
Qed.

(** Draining keeps every packet in order and learns the port of every SYN. *)
Lemma drain_spec reads inbox wanted :
  Forall (Forall byte_ok) (packets reads) →
  ∃ wanted', drain reads inbox wanted = Done (inbox ++ packets reads, wanted') ∧
    ∀ port, port ∈ wanted' ↔ port ∈ wanted ∨ ∃ pkt, pkt ∈ packets reads ∧ opens_port pkt port.
Proof.
  revert inbox wanted. induction reads as [|[pkt| | | |] reads IH]; intros inbox wanted Hb;
    cbn [drain packets] in *;
    try (exists wanted; rewrite app_nil_r; split; [done|]; intros port; split; [by left|];
         intros [?|(? & []%not_elem_of_nil & _)]; done).
  2: by apply IH.
  apply Forall_cons in Hb as [Hp Hb]. destruct (syn_dest_port_spec pkt Hp) as (r & -> & Hr).
  destruct r as [port|].
  - destruct (IH (inbox ++ [pkt]) ({[port]} ∪ wanted) Hb) as (w & -> & Hw).
    exists w. rewrite <- app_assoc. split; [done|]. intros q. rewrite Hw, elem_of_union, elem_of_singleton.
    pose proof (proj1 (Hr port) eq_refl) as Hop. split.
    + intros [[->|?]|(pk & ? & ?)]; [right; exists pkt; split; [by left|done]|by left|
        right; exists pk; split; [by right|done]].
    + intros [?|(pk & [->|?]%elem_of_cons & Ho)]; [by left; right| |right; eauto].
      left. left. apply Hr in Ho. congruence.
  - destruct (IH (inbox ++ [pkt]) wanted Hb) as (w & -> & Hw).
    exists w. rewrite <- app_assoc. split; [done|]. intros q. rewrite Hw. split.
    + intros [?|(pk & ? & ?)]; [by left|right; exists pk; split; [by right|done]].
    + intros [?|(pk & [->|?]%elem_of_cons & Ho)]; [by left| |right; eauto].
      by apply Hr in Ho.
Qed.
