(* ===== verification/TunDevice.v ===== *)
(** * The TUN device: creation and packet tokens ([src/mitm/tun.rs]:
    [Tun::create], the [Device] and the two token impls)

    The [libc] calls are events; [TunHost] holds their answers. *)

From S2P Require Import Prelude Eff Os Dns Tun.

(** ** Definitions *)

Definition TUNSETIFF : Z := 1074025674.
Definition IFF_TUN : Z := 1.
Definition IFF_NO_PI : Z := 4096.
Definition O_NONBLOCK : Z := 2048.
Definition IFNAMSIZ : nat := 16.

Definition TUN_PATH : str := lit "/dev/net/tun".

(** The answers of the calls; [None] and [false] are negative results. *)
Record TunHost : Type := mkTunHost {
  open_tun : option Z;
  ioctl_ok : bool;
  getfl : option Z;
  setfl_ok : bool;
}.

(** [struct IfReq] *)
Record IfReq : Type := mkIfReq { ifr_name : list Z; ifr_flags : Z; ifr_pad : bytes }.

Inductive TunEv : Type :=
| TunOpen (p : str) (flags : Z)
| TunIoctl (fd : Z) (request : Z) (req : IfReq)
| TunGetFl (fd : Z)
| TunSetFl (fd : Z) (flags : Z)
| TunClose (fd : Z)
| TunWrite (fd : Z) (buf : bytes).

Inductive TunError : Type := TunOpenError | TunNameTooLong | TunIoctlError | TunNonblockError.

Record Tun : Type := mkTun { tun_fd : Z; tun_inbox : list bytes }.

(** [*b as libc::c_char]: an [i8]. *)
Definition as_c_char (b : Z) : Z := if b <? 128 then b else b - 256.

(** The loop that copies the name into a zeroed array. *)
Fixpoint copy_name (i : nat) (nb : bytes) (name : list Z) : outcome (list Z) :=
  match nb with
  | [] => Done name
  | b :: nb' => if (i <? length name)%nat then copy_name (S i) nb' (<[i := as_c_char b]> name) else Panicked
  end.

Section create.
Context (host : TunHost).

(** The failures after the open: the descriptor is closed. *)
Definition close_and_fail (fd : Z) (e : TunError) : M (list TunEv) (result Tun TunError) :=
  let! _ := emit (TunClose fd) in ret (Err e).

Definition Tun_create (name : bytes) : M (list TunEv) (result Tun TunError) :=
  let! _ := emit (TunOpen TUN_PATH (Z.lor O_RDWR O_CLOEXEC)) in
  match open_tun host with
  | None => ret (Err TunOpenError)
  | Some fd =>
      if (IFNAMSIZ <=? length name)%nat then ret (Err TunNameTooLong)
      else
        let! ifname := (λ log, match copy_name 0 name (replicate IFNAMSIZ 0) with
                               | Done a => Done (a, log)
                               | Panicked => Panicked
                               | OutOfFuel => OutOfFuel
                               end) in
        let req := mkIfReq ifname (Z.lor IFF_TUN IFF_NO_PI) (replicate 22 0) in
        let! _ := emit (TunIoctl fd TUNSETIFF req) in
        if negb (ioctl_ok host) then close_and_fail fd TunIoctlError
        else
          let! _ := emit (TunGetFl fd) in
          match getfl host with
          | None => close_and_fail fd TunNonblockError
          | Some flags =>
              let! _ := emit (TunSetFl fd (Z.lor flags O_NONBLOCK)) in
              if negb (setfl_ok host) then close_and_fail fd TunNonblockError
              else ret (Ok (mkTun fd []))
          end
  end.
End create.

(** [Device::receive] and [Device::transmit]: a received packet with the
    descriptor for the answer; a descriptor, always. *)
Definition device_receive (t : Tun) : option (bytes * Z * Tun) :=
  match receive (tun_inbox t) with
  | Some (pkt, inbox) => Some (pkt, tun_fd t, mkTun (tun_fd t) inbox)
  | None => None
  end.

Definition device_transmit (t : Tun) : option Z := Some (tun_fd t).

(** [RxToken::consume] *)
Definition rx_consume {R} (pkt : bytes) (f : bytes → R) : R := f pkt.

(** [TxToken::consume]: the buffer [f] filled is written, whatever the write
    answers; [f] leaves a slice of the same length. *)
Definition tx_consume {R} (fd : Z) (len : nat) (f : bytes → bytes * R) : M (list TunEv) R :=
  let '(buf, r) := f (replicate len 0) in
  let! _ := emit (TunWrite fd buf) in
  ret r.

(** ** Lemmas *)

Lemma copy_name_spec i nb name :
  (i + length nb ≤ length name)%nat →
  copy_name i nb name = Done (take i name ++ map as_c_char nb ++ drop (i + length nb) name).
Proof.
  revert i name. induction nb as [|b nb IH]; intros i name Hl; cbn [copy_name map length] in *.
  - cbn [app]. by rewrite Nat.add_0_r, take_drop.
  - rewrite (proj2 (Nat.ltb_lt i (length name))) by lia. rewrite IH by (rewrite length_insert; lia).
    f_equal. rewrite (take_S_r _ _ (as_c_char b)) by (apply list_lookup_insert_eq; lia).
    rewrite take_insert_ge, drop_insert_lt by lia. rewrite <- app_assoc.
    by replace (i + S (length nb))%nat with (S i + length nb)%nat by lia.
Qed.

(** What a packet looks like to the stack: the oldest one first. *)
Lemma receive_oldest t pkt fd t' :
  device_receive t = Some (pkt, fd, t') → fd = tun_fd t ∧ tun_fd t' = tun_fd t ∧ tun_inbox t = pkt :: tun_inbox t'.
Proof.
  unfold device_receive, receive. destruct (tun_inbox t) as [|p inbox]; [done|]. by intros [= <- <- <-].
Qed.

(** ** Theorems *)

(** C29. Creating the TUN: never an out-of-bounds copy of the name; on success
    the descriptor was opened for reading and writing and close-on-exec, bound to
    an interface whose name is the one given, NUL-padded, without packet
    information headers, and set non-blocking with its other flags kept; every
    failure after the open closes the descriptor, last, but for a name that is
    too long, which leaks it. *)
Theorem tun_create_correct (host : TunHost) (name : bytes) :
  ∃ r evs, Tun_create host name [] = Done (r, evs) ∧
    head evs = Some (TunOpen TUN_PATH (Z.lor O_RDWR O_CLOEXEC)) ∧
    match r with
    | Ok t =>
        tun_inbox t = [] ∧ open_tun host = Some (tun_fd t) ∧ (length name < IFNAMSIZ)%nat ∧
        TunIoctl (tun_fd t) TUNSETIFF
          (mkIfReq (map as_c_char name ++ replicate (IFNAMSIZ - length name) 0) (Z.lor IFF_TUN IFF_NO_PI)
             (replicate 22 0)) ∈ evs ∧
        (∃ flags, getfl host = Some flags ∧ last evs = Some (TunSetFl (tun_fd t) (Z.lor flags O_NONBLOCK))) ∧
        ∀ fd, TunClose fd ∉ evs
    | Err TunOpenError => open_tun host = None ∧ length evs = 1%nat
    | Err TunNameTooLong => (IFNAMSIZ ≤ length name)%nat ∧ is_Some (open_tun host) ∧ ∀ fd, TunClose fd ∉ evs
    | Err _ => ∃ fd evs0, open_tun host = Some fd ∧ evs = evs0 ++ [TunClose fd] ∧ TunClose fd ∉ evs0
    end.
Proof.
  unfold Tun_create, close_and_fail, bind, emit, modify, ret. cbn [app].
  destruct (open_tun host) as [fd|]; [|eexists _, _; by split_and!].
  destruct (Nat.leb_spec IFNAMSIZ (length name)) as [Hle|Hlt].
  { eexists _, _. split; [reflexivity|]. split; [done|]. cbn. split_and!; [done|by eexists|set_solver]. }
  rewrite copy_name_spec by (rewrite length_replicate; lia). cbn [take app Nat.add].
  rewrite drop_replicate. set (req := mkIfReq _ _ _).
  destruct (ioctl_ok host); cbn [negb].
  2: { eexists _, _. split; [reflexivity|]. split; [done|]. exists fd. eexists [_; _]. split_and!; [done..|set_solver]. }
  destruct (getfl host) as [flags|].
  2: { eexists _, _. split; [reflexivity|]. split; [done|]. exists fd. eexists [_; _; _]. split_and!; [done..|set_solver]. }
  destruct (setfl_ok host); cbn [negb].
  - eexists _, _. split; [reflexivity|]. split; [done|]. cbn [tun_inbox tun_fd].
    split_and!; try done; first [set_solver|by exists flags].
  - eexists _, _. split; [reflexivity|]. split; [done|]. exists fd. eexists [_; _; _; _]. split_and!; [done..|set_solver].
Qed.
