(* ===== verification/Listeners.v ===== *)
(** * Accepting connections ([src/mitm/stack.rs]: [ensure_listeners],
    [promote_listeners], the start of [run]'s loop)

    The socket set of [smoltcp] is the class [SocketSet]. *)

From stdpp Require Import sorting.
From S2P Require Import Prelude Eff Dns Stream Stack Tun.

(** ** Definitions *)

Definition LISTEN_BACKLOG : nat := 8.
Definition HTTPS_PORT : Z := 443.

Abbreviation SocketHandle := Z (only parsing).

Class SocketSet (S : Type) : Type := {
  (** [tcp::Socket::new] and [listen(port)], then [SocketSet::add] on success *)
  set_listen : Z → S → option (S * SocketHandle);
  (** [get_mut] and [state()] ([None]: no TCP socket has this handle, it panics) *)
  set_state : SocketHandle → S → option TcpState;
  set_remove : SocketHandle → S → S;
}.

(** A connected pair made by [stream::channel]: the two channels its halves
    share, the proxy's half, and what the proxy has read from and written to it
    so far. *)
Record Chan : Type := mkChan {
  ch_down : Pipe;
  ch_up : Pipe;
  ch_stream : Stream;
  ch_delivered : bytes;
  ch_written : bytes;
}.

(** [stream::channel] *)
Definition channel : Chan := mkChan Pipe_new Pipe_new Stream_new [] [].

(** [NewConn]: the stream (by the number of its channel) and the local port. *)
Record NewConn : Type := mkNewConn { nc_stream : nat; nc_port : Z }.

(** The sockets of [Stack] and the plumbing to the proxy: [chans] are the
    channels made so far, a connection refers to its own by number, and
    [announced] is what has been sent on [new_conn_tx]. *)
Record Acceptor (S : Type) : Type := mkAcceptor {
  sockets : S;
  listeners : list (SocketHandle * Z);
  conns : gmap SocketHandle (NetConn * nat);
  chans : list Chan;
  announced : list NewConn;
}.
Arguments mkAcceptor {S} _ _ _ _ _.
Arguments sockets {S} _.
Arguments listeners {S} _.
Arguments conns {S} _.
Arguments chans {S} _.
Arguments announced {S} _.

Definition with_sockets {S} (s : S) (st : Acceptor S) : Acceptor S :=
  mkAcceptor s (listeners st) (conns st) (chans st) (announced st).

Section accept.
Context {S : Type} `{SocketSet S}.

Definition port_count (port : Z) (ls : list (SocketHandle * Z)) : nat :=
  length (filter (λ l, snd l = port) ls).

(** [for _ in have..LISTEN_BACKLOG] *)
Fixpoint add_listeners (n : nat) (port : Z) (st : Acceptor S) : Acceptor S :=
  match n with
  | O => st
  | Datatypes.S n' =>
      add_listeners n' port
        match set_listen port (sockets st) with
        | Some (s, h) =>
            mkAcceptor s (listeners st ++ [(h, port)]) (conns st) (chans st) (announced st)
        | None => st
        end
  end.

Definition ensure_port (st : Acceptor S) (port : Z) : Acceptor S :=
  add_listeners (LISTEN_BACKLOG - port_count port (listeners st)) port st.

(** [BTreeSet] iterates in increasing order. *)
Definition ports_in_order (wanted : gset Z) : list Z := merge_sort Z.le (elements wanted).

Definition ensure_listeners (wanted : gset Z) (st : Acceptor S) : Acceptor S :=
  foldl ensure_port st (ports_in_order wanted).

(** The [while i < self.listeners.len()] loop: [kept] are the entries before
    [i]. *)
Fixpoint promote_loop (kept todo : list (SocketHandle * Z)) (st : Acceptor S) : outcome (Acceptor S) :=
  match todo with
  | [] => Done (mkAcceptor (sockets st) kept (conns st) (chans st) (announced st))
  | (h, port) :: todo' =>
      match set_state h (sockets st) with
      | None => Panicked
      | Some Listen => promote_loop (kept ++ [(h, port)]) todo' st
      | Some ClosedState =>
          promote_loop kept todo' (with_sockets (set_remove h (sockets st)) st)
      | Some Active =>
          promote_loop kept todo'
            (mkAcceptor (sockets st) (listeners st)
               (<[h := (NetConn_new, length (chans st))]> (conns st)) (chans st ++ [channel])
               (announced st ++ [mkNewConn (length (chans st)) port]))
      end
  end.

Definition promote_listeners (st : Acceptor S) : outcome (Acceptor S) :=
  promote_loop [] (listeners st) st.

(** The start of an iteration of [run]: [drain], then [ensure_listeners]. *)
Definition tick_start (reads : list TunRead) (inbox : list bytes) (wanted : gset Z)
    (st : Acceptor S) : outcome (list bytes * gset Z * Acceptor S) :=
  match drain reads inbox wanted with
  | Done (inbox, wanted) => Done (inbox, wanted, ensure_listeners wanted st)
  | Panicked => Panicked
  | OutOfFuel => OutOfFuel
  end.

(** [Stack::new]: port 443 is wanted from the start. *)
Definition Acceptor_new (s : S) : Acceptor S :=
  ensure_listeners {[HTTPS_PORT]} (mkAcceptor s [] ∅ [] []).

(** ** Lemmas *)

Lemma port_count_app port ls ls' : port_count port (ls ++ ls') = (port_count port ls + port_count port ls')%nat.
Proof. unfold port_count. by rewrite filter_app, length_app. Qed.

(** Adding listeners only appends, and only for the port. *)
Lemma add_listeners_spec n port st :
  let st' := add_listeners n port st in
  (∃ hs, listeners st' = listeners st ++ map (λ h, (h, port)) hs ∧ (length hs ≤ n)%nat ∧
         ((∀ s, is_Some (set_listen port s)) → length hs = n)) ∧
  conns st' = conns st ∧ chans st' = chans st ∧ announced st' = announced st.
Proof.
  revert st. induction n as [|n IH]; intros st; cbn [add_listeners].
  - split; [|done]. exists []. by rewrite app_nil_r.
  - destruct (set_listen port (sockets st)) as [[s h]|] eqn:E.
    + destruct (IH (mkAcceptor s (listeners st ++ [(h, port)]) (conns st) (chans st) (announced st)))
        as ((hs & Hl & Hn & Hok) & Hc & Ha). split; [|done].
      exists (h :: hs). rewrite Hl. cbn. rewrite <- app_assoc. split_and!; [done|lia|].
      intros Hs. by rewrite Hok.
    + destruct (IH st) as ((hs & Hl & Hn & Hok) & Hc & Ha). split; [|done].
      exists hs. split_and!; [done|lia|]. intros Hs. destruct (Hs (sockets st)). congruence.
Qed.

Lemma port_count_const port port' hs :
  port_count port (map (λ h : SocketHandle, (h, port')) hs) = if decide (port' = port) then length hs else 0%nat.
Proof.
  unfold port_count. destruct (decide (port' = port)) as [->|Hne].
  - induction hs as [|h hs IH]; [done|]. cbn [map]. rewrite filter_cons_True by done. cbn. by rewrite IH.
  - induction hs as [|h hs IH]; [done|]. cbn [map]. by rewrite filter_cons_False.
Qed.

Lemma ensure_port_count port port' st :
  (∀ s, is_Some (set_listen port s)) →
  port_count port (listeners (ensure_port st port'))
  = if decide (port' = port) then Nat.max LISTEN_BACKLOG (port_count port (listeners st))
    else port_count port (listeners st).
Proof.
  intros Hs. unfold ensure_port.
  destruct (add_listeners_spec (LISTEN_BACKLOG - port_count port' (listeners st)) port' st)
    as ((hs & -> & _ & Hok) & _). rewrite port_count_app, port_count_const.
  destruct (decide (port' = port)) as [->|]; [|lia]. rewrite (Hok Hs). lia.
Qed.

Lemma foldl_ensure_count port ports st :
  (∀ s, is_Some (set_listen port s)) →
  port_count port (listeners (foldl ensure_port st ports))
  = if decide (port ∈ ports) then Nat.max LISTEN_BACKLOG (port_count port (listeners st))
    else port_count port (listeners st).
Proof.
  intros Hs. revert st. induction ports as [|q ports IH]; intros st; cbn [foldl].
  - by rewrite decide_False by apply not_elem_of_nil.
  - rewrite IH, ensure_port_count by done.
    destruct (decide (q = port)) as [->|Hne].
    + rewrite (decide_True (P := port ∈ port :: ports)) by set_solver. destruct (decide _); lia.
    + destruct (decide (port ∈ ports)) as [Hin|Hnin].
      * by rewrite decide_True by set_solver.
      * by rewrite decide_False by set_solver.
Qed.

Lemma ports_in_order_elem wanted port : port ∈ ports_in_order wanted ↔ port ∈ wanted.
Proof. unfold ports_in_order. by rewrite merge_sort_Permutation, elem_of_elements. Qed.

(** Every wanted port has its backlog of listeners, and no other changes. *)
Lemma ensure_listeners_count wanted st port :
  (∀ s, is_Some (set_listen port s)) →
  port_count port (listeners (ensure_listeners wanted st))
  = if decide (port ∈ wanted) then Nat.max LISTEN_BACKLOG (port_count port (listeners st))
    else port_count port (listeners st).
Proof.
  intros Hs. unfold ensure_listeners. rewrite foldl_ensure_count by done.
  destruct (decide (port ∈ wanted)) as [Hin|Hnin].
  - by rewrite decide_True by (by apply ports_in_order_elem).
  - by rewrite decide_False by (by rewrite ports_in_order_elem).
Qed.

End accept.
