(* ===== verification/Bridge.v ===== *)
(** * The netstack's theorems: lossless byte streams, listeners in time

    With a concrete socket and a concrete socket set on which the theorems are
    run. *)

From S2P Require Import Prelude Eff Dns Stream Stack Tun Listeners.

(** ** A socket over two buffers *)

(** [ms_rx]: received, not yet read; [ms_room]: free space for sending;
    [ms_open]: the sending half has not been closed. *)
Record MemSock : Type := mkSock {
  ms_sent : bytes; ms_recvd : bytes; ms_rx : bytes; ms_room : nat; ms_state : TcpState; ms_open : bool;
}.

#[export] Instance MemTcp : TcpSock MemSock := {|
  may_send := ms_open;
  may_recv _ := true;
  can_send k := ms_open k && (0 <? ms_room k)%nat;
  can_recv k := negb (bool_decide (ms_rx k = []));
  send_slice b k :=
    if ms_open k then
      let n := Nat.min (ms_room k) (length b) in
      (mkSock (ms_sent k ++ take n b) (ms_recvd k) (ms_rx k) (ms_room k - n) (ms_state k) true, Some n)
    else (k, None);
  recv_upto n k :=
    (mkSock (ms_sent k) (ms_recvd k ++ take n (ms_rx k)) (drop n (ms_rx k)) (ms_room k) (ms_state k)
       (ms_open k), Some (take n (ms_rx k)));
  sock_close k := mkSock (ms_sent k) (ms_recvd k) (ms_rx k) (ms_room k) (ms_state k) false;
  sock_abort k := mkSock (ms_sent k) (ms_recvd k) (ms_rx k) (ms_room k) ClosedState false;
  sock_state := ms_state;
|}.

#[export] Program Instance MemTcp_spec : TcpSockSpec MemSock := {| sent := ms_sent; recvd := ms_recvd |}.
Next Obligation. intros b k k' r. cbn. destruct (ms_open k); intros [= <- <-]; [|done]. split_and!; [done|lia|done]. Qed.
Next Obligation. intros n k k' r [= <- <-]. done. Qed.
Next Obligation. done. Qed.
Next Obligation. done. Qed.

(** ** A socket set that always has room *)

Record MemSet : Type := mkSet { set_next : Z; set_states : gmap Z TcpState }.

#[export] Instance MemSockets : SocketSet MemSet := {|
  set_listen port s :=
    if port =? 0 then None
    else Some (mkSet (set_next s + 1) (<[set_next s := Listen]> (set_states s)), set_next s);
  set_state h s := set_states s !! h;
  set_remove h s := mkSet (set_next s) (delete h (set_states s));
|}.

(** ** Theorems *)

(** C14. The bridge is a lossless byte stream in both directions: whatever the
    interleaving of the stack's service passes, the proxy's reads, writes,
    shutdowns and drops, and the network, the proxy has read a prefix of the
    bytes the socket received, and what the socket has accepted is a prefix of
    what the proxy wrote; the stack closes its sending half only when every
    written byte has been accepted, and the proxy sees the end of the stream only
    when it has read everything received; no service pass runs forever. *)
Theorem bridge_lossless {K} `{TcpSockSpec K} (k0 : K) (l : Link K) :
  link_reachable k0 l →
  (∃ rest, recvd (lk_sock l) = recvd k0 ++ lk_delivered l ++ rest) ∧
  (∃ rest, sent k0 ++ lk_written l = sent (lk_sock l) ++ rest) ∧
  (∀ c, lk_conn l = Some c → sent_fin c = true → sent (lk_sock l) = sent k0 ++ lk_written l) ∧
  (∀ cap s' d', (0 < cap)%nat → poll_read cap (lk_stream l) (lk_down l) = (s', d', Ready []) →
     recvd (lk_sock l) = recvd k0 ++ lk_delivered l) ∧
  (∀ c, lk_conn l = Some c → service_conn (lk_sock l) c (lk_down l) (lk_up l) ≠ None).
Proof.
  intros [Hin Hout Hso Htx Hco]%link_reachable_ok. split_and!.
  - by eexists.
  - destruct (lk_conn l); [by eexists|done].
  - intros c Hc Hf. rewrite Hc in Hout. destruct (Hco c Hc) as [_ Hcl Hfin].
    destruct (Hfin Hf) as [Hw Hp]. destruct (Hcl Hw) as [_ Hq].
    unfold in_flight in Hout. rewrite Hp, Hq in Hout. cbn in Hout. by rewrite app_nil_r in Hout.
  - intros cap s' d' Hcap E. destruct (poll_read_spec _ _ _ _ _ _ Hso E) as (_ & _ & _ & _ & _ & _ & He).
    destruct (He Hcap eq_refl) as [Hu _]. by rewrite Hu, app_nil_r in Hin.
  - intros c Hc. destruct (service_conn_spec (lk_sock l) c _ _ (Hco c Hc)) as (? & ? & ? & ? & -> & _). done.
Qed.

(** The proxy writes seven bytes, the stack passes on the three that fit and
    hands over what it received, the proxy reads four bytes of it. *)
Definition demo_sock : MemSock := mkSock [] [] (lit "request") 3 Active true.

Definition demo_link : Link MemSock :=
  mkLink (mkSock (lit "abc") (lit "request") [] 0 Active true)
    (Some (mkConn true (Some (lit "defg")) false false true)) (mkPipe [] true true)
    (mkPipe [] true true) (mkStream (Some (lit "request", 4%nat)) true) (lit "requ") (lit "abcdefg").

Lemma demo_link_reachable : link_reachable demo_sock demo_link.
Proof.
  apply (link_next demo_sock (mkLink (mkSock (lit "abc") (lit "request") [] 0 Active true)
    (Some (mkConn true (Some (lit "defg")) false false true)) (mkPipe [lit "request"] true true)
    (mkPipe [] true true) Stream_new [] (lit "abcdefg"))).
  2: { apply (step_read 4 _ _ _ _ _ [] _ _ _ (lit "requ")). vm_compute. reflexivity. }
  apply (link_next demo_sock (mkLink demo_sock (Some NetConn_new) Pipe_new
    (mkPipe [lit "abcdefg"] true true) Stream_new [] (lit "abcdefg"))).
  2: { apply step_service. vm_compute. reflexivity. }
  apply (link_next demo_sock (Link_new demo_sock)); [apply link_init|].
  apply (step_write (lit "abcdefg") demo_sock _ _ Pipe_new _ [] [] _ 7). vm_compute. reflexivity.
Qed.

Lemma bridge_lossless_witness :
  ∃ rest, recvd (lk_sock demo_link) = recvd demo_sock ++ lk_delivered demo_link ++ rest.
Proof. apply (bridge_lossless demo_sock demo_link demo_link_reachable). Defined.

(** C28. A listener is in place before the stack sees a SYN: at the start of an
    iteration every pending packet is kept in order, and, a socket being able to
    listen on any port but 0, each such port some pending packet opens a
    connection to (and each port wanted before) has at least the backlog of
    listeners when [iface.poll] runs; no out-of-bounds packet access happens,
    whatever the bytes. *)
Theorem listener_before_syn {S} `{SocketSet S} (reads : list TunRead) inbox wanted (st : Acceptor S) :
  (∀ port s, port ≠ 0 → is_Some (set_listen port s)) → Forall (Forall byte_ok) (packets reads) →
  ∃ inbox' wanted' st', tick_start reads inbox wanted st = Done (inbox', wanted', st') ∧
    inbox' = inbox ++ packets reads ∧
    ∀ port, port ≠ 0 → port ∈ wanted ∨ (∃ pkt, pkt ∈ packets reads ∧ opens_port pkt port) →
            (LISTEN_BACKLOG ≤ port_count port (listeners st'))%nat.
Proof.
  intros Hs Hb. destruct (drain_spec reads inbox wanted Hb) as (wanted' & E & Hw).
  unfold tick_start. rewrite E. do 3 eexists. split_and!; [done..|].
  intros port Hne Hport. rewrite ensure_listeners_count by auto.
  rewrite decide_True by (by apply Hw). lia.
Qed.

(** An IPv4 SYN to port 8443. *)
Definition syn_packet : bytes :=
  [69; 0; 0; 40; 0; 0; 0; 0; 64; 6; 0; 0; 10; 0; 0; 2; 10; 0; 0; 1;
   200; 0; 32; 251; 0; 0; 0; 0; 0; 0; 0; 0; 80; 2; 250; 240; 0; 0; 0; 0].

Lemma listener_before_syn_witness :
  ∃ inbox' wanted' st',
    tick_start [RInterrupted; RPacket syn_packet; RAgain] [] {[443]} (Acceptor_new (mkSet 0 ∅))
    = Done (inbox', wanted', st') ∧ inbox' = [syn_packet] ∧
    ∀ port, port ≠ 0 → port ∈ ({[443]} : gset Z) ∨ (∃ pkt, pkt ∈ [syn_packet] ∧ opens_port pkt port) →
            (LISTEN_BACKLOG ≤ port_count port (listeners st'))%nat.
Proof.
  apply (listener_before_syn [RInterrupted; RPacket syn_packet; RAgain] [] {[443]}).
  - intros port s Hne. cbn. apply Z.eqb_neq in Hne. rewrite Hne. by eexists.
  - repeat constructor; unfold byte_ok; lia.
Defined.

Lemma syn_packet_port : syn_dest_port syn_packet = Done (Some 8443).
Proof. vm_compute. reflexivity. Qed.
