(* ===== verification/Smoltcp.v ===== *)
(** * The parts of [smoltcp] the event loop uses

    [smoltcp] is not part of the program.  Here are its operations as classes,
    and what the loop relies on as laws: a socket set is a finite map from
    handles to sockets, a UDP socket is a queue of datagrams received and a list
    of datagrams sent, and a poll of the interface takes packets from the front
    of the device's queue and moves segments, without touching what has been
    handed to or accepted from the program. *)

From S2P Require Import Prelude Eff Dns Stream Stack Tun Listeners.

(** ** UDP sockets *)

(** [E] is the type of endpoints. *)
Class UdpSock (U E : Type) : Type := {
  (** [udp::Socket::new] with a receive buffer of so many packets, bound to a port *)
  udp_bound : nat → Z → result U unit;
  udp_can_recv : U → bool;
  udp_recv : U → U * result (bytes * E) unit;
  udp_send_slice : bytes → E → U → U * result unit unit;
}.

Class UdpSockSpec (U E : Type) `{UdpSock U E} : Type := {
  udp_pending : U → list (bytes * E);
  udp_sent : U → list (bytes * E);
  udp_slots : U → nat;
  udp_pending_slots u : (length (udp_pending u) ≤ udp_slots u)%nat;
  (** what arrives is made of bytes *)
  udp_pending_bytes u : Forall (λ p, Forall byte_ok (fst p)) (udp_pending u);
  udp_bound_new n port u :
    udp_bound n port = Ok u → udp_slots u = n ∧ udp_pending u = [] ∧ udp_sent u = [];
  udp_can_recv_pending u : udp_can_recv u = true ↔ udp_pending u ≠ [];
  udp_recv_takes u u' r :
    udp_recv u = (u', r) →
    udp_sent u' = udp_sent u ∧ udp_slots u' = udp_slots u ∧
    match r with
    | Ok p => udp_pending u = p :: udp_pending u'
    | Err _ => udp_pending u = [] ∧ udp_pending u' = []
    end;
  udp_send_appends b e u u' r :
    udp_send_slice b e u = (u', r) →
    udp_pending u' = udp_pending u ∧ udp_slots u' = udp_slots u ∧
    udp_sent u' = udp_sent u ++ match r with Ok _ => [(b, e)] | Err _ => [] end;
}.

(** ** TCP sockets and the socket set *)

(** [tcp::Socket::new] with two buffers of the given sizes, then [listen]. *)
Class TcpListen (K : Type) : Type := { tcp_listen : Z → Z → Z → result K unit }.

Class TcpListenSpec (K : Type) `{TcpSockSpec K, TcpListen K} : Prop := {
  tcp_listen_fresh rx tx port k : tcp_listen rx tx port = Ok k → sent k = [] ∧ recvd k = [];
}.

Inductive AnySocket (K U : Type) : Type :=
| ATcp (k : K)
| AUdp (u : U).
Arguments ATcp {K U} k.
Arguments AUdp {K U} u.

(** [SocketSet]: [sset_get] is [get_mut] ([None]: it panics) and [sset_put] what
    happens to the set through the reference it returns. *)
Class SmolSet (S K U : Type) : Type := {
  sset_new : S;
  sset_add : AnySocket K U → S → S * SocketHandle;
  sset_get : SocketHandle → S → option (AnySocket K U);
  sset_put : SocketHandle → AnySocket K U → S → S;
  sset_remove : SocketHandle → S → S;
}.

Class SmolSetSpec (S K U : Type) `{SmolSet S K U} : Prop := {
  sset_get_new h : sset_get h sset_new = None;
  sset_add_get x s s' h :
    sset_add x s = (s', h) →
    sset_get h s = None ∧ sset_get h s' = Some x ∧ ∀ h', h' ≠ h → sset_get h' s' = sset_get h' s;
  sset_put_get h x s :
    sset_get h (sset_put h x s) = Some x ∧ ∀ h', h' ≠ h → sset_get h' (sset_put h x s) = sset_get h' s;
  sset_remove_get h s :
    sset_get h (sset_remove h s) = None ∧ ∀ h', h' ≠ h → sset_get h' (sset_remove h s) = sset_get h' s;
}.

(** The loop's sockets: 64 KiB each way, added to the set when they can listen. *)
Definition TCP_BUFFER : Z := 64 * 1024.

#[export] Instance smol_sockets {S K U} `{SmolSet S K U, TcpSock K, TcpListen K} : SocketSet S := {|
  set_listen port s :=
    match tcp_listen TCP_BUFFER TCP_BUFFER port with
    | Ok k => Some (sset_add (ATcp (U := U) k) s)
    | Err _ => None
    end;
  set_state h s := match sset_get (U := U) h s with Some (ATcp k) => Some (sock_state k) | _ => None end;
  set_remove h s := sset_remove h s;
|}.

(** ** The interface *)

(** How the sockets of a set may change in a poll: none comes or goes, a TCP
    socket keeps its logs, the UDP socket keeps what was sent on it. *)
Definition polled {S K U E} `{SmolSet S K U, TcpSockSpec K, UdpSockSpec U E} (s s' : S) : Prop :=
  ∀ h, match sset_get (U := U) h s, sset_get (U := U) h s' with
       | Some (ATcp k), Some (ATcp k') => sent k' = sent k ∧ recvd k' = recvd k
       | Some (AUdp u), Some (AUdp u') => udp_slots u' = udp_slots u ∧ udp_sent u' = udp_sent u
       | None, None => True
       | _, _ => False
       end.

(** [Interface::new] with its two addresses ([Err]: no room for them),
    [Interface::poll] over the device's queue of packets and [poll_delay] in
    microseconds. *)
Class Iface (I S : Type) : Type := {
  iface_new : list (bytes * Z) → result I unit;
  iface_poll : I → list bytes → S → I * list bytes * S;
  iface_poll_delay : I → S → option Z;
}.

Class IfaceSpec (I S K U E : Type)
    `{SmolSet S K U, TcpSockSpec K, UdpSockSpec U E, Iface I S} : Prop := {
  iface_poll_ok i inbox s i' inbox' s' :
    iface_poll i inbox s = (i', inbox', s') →
    (∃ n, inbox' = drop n inbox) ∧ polled (U := U) (E := E) s s';
}.
