(* ===== verification/NetLoop.v ===== *)
(** * The event loop ([src/mitm/stack.rs]: [Stack::new], [Stack::run],
    [service_conns]; [src/mitm/dns.rs]: [StubDns])

    [NetStack] is the whole [Stack].  [tick] is one iteration of [run] up to the
    [select!], with the results of the reads of the TUN as its input; between two
    iterations the proxy acts on its ends of the channels ([proxy_step]).  A
    handle that is not in the socket set panics, as [SocketSet::get_mut] does. *)

From S2P Require Import Prelude Eff Dns Stream Stack Tun Listeners Smoltcp.

(** ** Definitions *)

Definition DNS_PORT : Z := 53.
(** The UDP socket buffers this many packets each way. *)
Definition DNS_SLOTS : nat := 16.

(** The iteration order of a [HashMap]: some order of the keys. *)
Class HashOrder : Type := {
  hash_keys {V} : gmap SocketHandle V → list SocketHandle;
  hash_keys_perm {V} (m : gmap SocketHandle V) : hash_keys m ≡ₚ map fst (map_to_list m);
}.

Section dns.
Context {S K U E : Type} `{SmolSet S K U, UdpSock U E}.

(** [StubDns::add]: the socket bound to :53. *)
Definition dns_add (s : S) : result (S * SocketHandle) unit :=
  match udp_bound DNS_SLOTS DNS_PORT with
  | Ok u => Ok (sset_add (AUdp u) s)
  | Err e => Err e
  end.

(** The [while sock.can_recv()] loop of [service]. *)
Fixpoint dns_loop (fuel : nat) (u : U) : outcome U :=
  if negb (udp_can_recv u) then Done u
  else
    match fuel with
    | O => OutOfFuel
    | Datatypes.S fuel' =>
        let '(u, r) := udp_recv u in
        match r with
        | Err _ => Done u
        | Ok (query, endpoint) =>
            match build_response query with
            | Done (Some resp) => let '(u, _) := udp_send_slice resp endpoint u in dns_loop fuel' u
            | Done None => dns_loop fuel' u
            | Panicked => Panicked
            | OutOfFuel => OutOfFuel
            end
        end
    end.

(** [StubDns::service] *)
Definition dns_service (h : SocketHandle) (s : S) : outcome S :=
  match sset_get h s with
  | Some (AUdp u) =>
      match dns_loop DNS_SLOTS u with
      | Done u => Done (sset_put h (AUdp u) s)
      | Panicked => Panicked
      | OutOfFuel => OutOfFuel
      end
  | _ => Panicked
  end.
End dns.

(** The fields of [Stack] beside the sockets and connections; [sk_inbox] is the
    [Tun]'s queue. *)
Record NetStack (I S : Type) : Type := mkStack {
  sk_iface : I;
  sk_inbox : list bytes;
  sk_wanted : gset Z;
  sk_dns : SocketHandle;
  sk_acc : Acceptor S;
}.
Arguments mkStack {I S} _ _ _ _ _.
Arguments sk_iface {I S} _.
Arguments sk_inbox {I S} _.
Arguments sk_wanted {I S} _.
Arguments sk_dns {I S} _.
Arguments sk_acc {I S} _.

Section net_loop.
Context {I S K U E : Type}
  `{SmolSet S K U, TcpSock K, TcpListen K, UdpSock U E, Iface I S, HashOrder}.

(** One connection of [service_conns], socket and bookkeeping. *)
Definition service_one (h : SocketHandle) (st : Acceptor S) : outcome (Acceptor S) :=
  match sset_get (U := U) h (sockets st) with
  | Some (ATcp k) =>
      match conns st !! h with
      | None => Done st
      | Some (c, id) =>
          match chans st !! id with
          | None => Panicked
          | Some ch =>
              match service_conn k c (ch_down ch) (ch_up ch) with
              | None => OutOfFuel
              | Some (k, oc, down, up) =>
                  let ch := mkChan down up (ch_stream ch) (ch_delivered ch) (ch_written ch) in
                  let s := sset_put h (ATcp k) (sockets st) in
                  Done match oc with
                       | Some c =>
                           mkAcceptor s (listeners st) (<[h := (c, id)]> (conns st))
                             (<[id := ch]> (chans st)) (announced st)
                       | None =>
                           mkAcceptor (sset_remove h s) (listeners st) (delete h (conns st))
                             (<[id := ch]> (chans st)) (announced st)
                       end
              end
          end
      end
  | _ => Panicked
  end.

(** [for h in handles] *)
Fixpoint service_all (handles : list SocketHandle) (st : Acceptor S) : outcome (Acceptor S) :=
  match handles with
  | [] => Done st
  | h :: handles' =>
      match service_one h st with
      | Done st => service_all handles' st
      | Panicked => Panicked
      | OutOfFuel => OutOfFuel
      end
  end.

Definition service_conns (st : Acceptor S) : outcome (Acceptor S) :=
  service_all (hash_keys (conns st)) st.

(** [self.iface.poll(now, &mut self.device, &mut self.sockets)] *)
Definition poll (st : NetStack I S) : NetStack I S :=
  let '(i, inbox, s) := iface_poll (sk_iface st) (sk_inbox st) (sockets (sk_acc st)) in
  mkStack i inbox (sk_wanted st) (sk_dns st) (with_sockets s (sk_acc st)).

(** [Stack::new]; [registered]: whether the reactor takes the TUN's descriptor. *)
Definition Stack_new (registered : bool) : result (NetStack I S) unit :=
  match iface_new [(STACK_IP, PREFIX_LEN); (STACK_IP6, PREFIX_LEN6)] with
  | Err e => Err e
  | Ok i =>
      if negb registered then Err tt else
      match dns_add (K := K) (U := U) sset_new with
      | Err e => Err e
      | Ok (s, dns) => Ok (mkStack i [] {[HTTPS_PORT]} dns (Acceptor_new s))
      end
  end.

(** One iteration of the [loop] of [run], up to the [select!]. *)
Definition tick (reads : list TunRead) (st : NetStack I S) : outcome (NetStack I S) :=
  match tick_start reads (sk_inbox st) (sk_wanted st) (sk_acc st) with
  | Done (inbox, wanted, acc) =>
      let st := poll (mkStack (sk_iface st) inbox wanted (sk_dns st) acc) in
      match dns_service (K := K) (U := U) (sk_dns st) (sockets (sk_acc st)) with
      | Done s =>
          match promote_listeners (with_sockets s (sk_acc st)) with
          | Done acc =>
              match service_conns acc with
              | Done acc =>
                  Done (poll (mkStack (sk_iface st) (sk_inbox st) (sk_wanted st) (sk_dns st)
                                (ensure_listeners (sk_wanted st) acc)))
              | Panicked => Panicked
              | OutOfFuel => OutOfFuel
              end
          | Panicked => Panicked
          | OutOfFuel => OutOfFuel
          end
      | Panicked => Panicked
      | OutOfFuel => OutOfFuel
      end
  | Panicked => Panicked
  | OutOfFuel => OutOfFuel
  end.

(** How long the [select!] sleeps when nothing else wakes it, in microseconds. *)
Definition timeout (st : NetStack I S) : Z :=
  default 100000 (iface_poll_delay (sk_iface st) (sockets (sk_acc st))).
End net_loop.

(** What the proxy does on its half of a channel. *)
Inductive proxy_step : Chan → Chan → Prop :=
| proxy_read cap d u s dl w s' d' b :
    poll_read cap s d = (s', d', Ready b) →
    proxy_step (mkChan d u s dl w) (mkChan d' u s' (dl ++ b) w)
| proxy_read_pending cap d u s dl w s' d' :
    poll_read cap s d = (s', d', Pending) →
    proxy_step (mkChan d u s dl w) (mkChan d' u s' dl w)
| proxy_write data d u s dl w u' n :
    poll_write data s u = (u', Ready (Ok n)) →
    proxy_step (mkChan d u s dl w) (mkChan d u' s dl (w ++ take n data))
| proxy_shutdown d u s dl w s' u' :
    poll_shutdown s u = (s', u') →
    proxy_step (mkChan d u s dl w) (mkChan d u' s' dl w)
| proxy_drop d u s dl w :
    proxy_step (mkChan d u s dl w)
      (mkChan (close_rx d) (close_tx u) (mkStream (read_rem s) false) dl w).

Definition with_chan {S} (id : nat) (ch : Chan) (st : Acceptor S) : Acceptor S :=
  mkAcceptor (sockets st) (listeners st) (conns st) (<[id := ch]> (chans st)) (announced st).

Section runs.
Context {I S K U E : Type}
  `{SmolSet S K U, TcpSock K, TcpListen K, UdpSock U E, Iface I S, HashOrder}.

(** The states between two iterations of [run]: any reads of the TUN, any
    behaviour of the proxy. *)
Inductive net_reachable : NetStack I S → Prop :=
| net_init st : Stack_new (K := K) (U := U) (E := E) true = Ok st → net_reachable st
| net_tick reads st st' :
    net_reachable st → Forall (Forall byte_ok) (packets reads) →
    tick (K := K) (U := U) (E := E) reads st = Done st' → net_reachable st'
| net_proxy id ch ch' st :
    net_reachable st → chans (sk_acc st) !! id = Some ch → proxy_step ch ch' →
    net_reachable (mkStack (sk_iface st) (sk_inbox st) (sk_wanted st) (sk_dns st)
                     (with_chan id ch' (sk_acc st))).
End runs.
