(* ===== verification/NetSafety.v ===== *)
(** * The event loop keeps its sockets, connections and channels in order *)

From stdpp Require Import sorting.
From S2P Require Import Prelude Eff Dns Stream Stack Tun Listeners Smoltcp NetLoop.

(** ** Specification *)

Section net.
Context {I S K U E : Type}
  `{SmolSetSpec S K U, TcpSockSpec K, TcpListen K, UdpSockSpec U E, Iface I S, HashOrder}.
Context `{!TcpListenSpec K, !IfaceSpec I S K U E}.

Abbreviation get := (sset_get (S := S) (K := K) (U := U)).

Definition to_link (k : K) (c : NetConn) (ch : Chan) : Link K :=
  mkLink k (Some c) (ch_down ch) (ch_up ch) (ch_stream ch) (ch_delivered ch) (ch_written ch).

(** A connection's socket and channel: nothing lost, duplicated or reordered
    since the socket was promoted. *)
Definition chan_ok (k : K) (c : NetConn) (ch : Chan) : Prop :=
  ∃ k0, sent k0 = [] ∧ recvd k0 = [] ∧ link_ok k0 (to_link k c ch).

(** [ls] are the listeners; the loops of the stack change them in the middle of
    a pass. *)
Record acc_ok (dns : SocketHandle) (ls : list (SocketHandle * Z)) (st : Acceptor S) : Prop := {
  acc_dns : ∃ u, get dns (sockets st) = Some (AUdp u) ∧ udp_slots u = DNS_SLOTS;
  acc_nodup : NoDup (map fst ls);
  acc_listeners h port :
    (h, port) ∈ ls → conns st !! h = None ∧
                     ∃ k, get h (sockets st) = Some (ATcp k) ∧ sent k = [] ∧ recvd k = [];
  acc_conns h c id :
    conns st !! h = Some (c, id) →
    ∃ k ch, get h (sockets st) = Some (ATcp k) ∧ chans st !! id = Some ch ∧ chan_ok k c ch;
  acc_ids h h' c c' id : conns st !! h = Some (c, id) → conns st !! h' = Some (c', id) → h = h';
  acc_announced : map nc_stream (announced st) = seq 0 (length (chans st));
}.

Definition net_ok (st : NetStack I S) : Prop := acc_ok (sk_dns st) (listeners (sk_acc st)) (sk_acc st).

(** ** Channels *)

Lemma chan_ok_same k k' c ch : sent k' = sent k → recvd k' = recvd k → chan_ok k c ch → chan_ok k' c ch.
Proof.
  intros Hs Hr (k0 & Hs0 & Hr0 & Hl). exists k0. split_and!; [done..|].
  by apply (link_step_ok k0 _ _ Hl), step_network.
Qed.

Lemma chan_ok_new k : sent k = [] → recvd k = [] → chan_ok k NetConn_new channel.
Proof. intros Hs Hr. exists k. split_and!; [done..|]. by apply link_reachable_ok, link_init. Qed.

Lemma chan_ok_proxy k c ch ch' : proxy_step ch ch' → chan_ok k c ch → chan_ok k c ch'.
Proof.
  intros Hp (k0 & Hs0 & Hr0 & Hl). exists k0. split_and!; [done..|].
  apply (link_step_ok k0 _ _ Hl). destruct Hp; unfold to_link; cbn;
    [by eapply step_read|by eapply step_read_pending|by eapply step_write|by apply step_shutdown|apply step_drop].
Qed.

(** A service pass always ends, and keeps a connection that stays open in order. *)
Lemma chan_ok_service k c ch :
  chan_ok k c ch →
  ∃ k' oc d u, service_conn k c (ch_down ch) (ch_up ch) = Some (k', oc, d, u) ∧
    ∀ c', oc = Some c' → chan_ok k' c' (mkChan d u (ch_stream ch) (ch_delivered ch) (ch_written ch)).
Proof.
  intros (k0 & Hs0 & Hr0 & Hl).
  destruct (service_conn_spec k c (ch_down ch) (ch_up ch)) as (k' & oc & d & u & E' & _);
    [by apply (lk_conn_ok _ _ Hl)|].
  exists k', oc, d, u. split; [done|]. intros c' ->. exists k0. split_and!; [done..|].
  by apply (link_step_ok k0 _ _ Hl), step_service.
Qed.

(** The numbers of the channels. *)
Lemma acc_fresh_id dns ls st h c id : acc_ok dns ls st → conns st !! h = Some (c, id) → (id < length (chans st))%nat.
Proof.
  intros Hok Hc. destruct (acc_conns _ _ _ Hok h c id Hc) as (k & ch & _ & Hch & _).
  by eapply lookup_lt_Some.
Qed.

(** ** The phases of a tick *)

Lemma acc_ok_poll dns ls st s :
  polled (U := U) (E := E) (sockets st) s → acc_ok dns ls st → acc_ok dns ls (with_sockets s st).
Proof.
  intros Hp [(u & Hu & Hsl) Hnd Hls Hc Hid Ha]. constructor; [|done| | |exact Hid|exact Ha]; cbn.
  - specialize (Hp dns). rewrite Hu in Hp. destruct (get dns s) as [[k|u']|]; [done| |done].
    exists u'. split; [done|]. destruct Hp. congruence.
  - intros h port Hin. destruct (Hls h port Hin) as (Hcn & k & Hk & Hs & Hr). split; [done|].
    specialize (Hp h). rewrite Hk in Hp. destruct (get h s) as [[k'|u']|]; [|done..].
    destruct Hp. exists k'. split_and!; congruence.
  - intros h c id Hcn. destruct (Hc h c id Hcn) as (k & ch & Hk & Hch & Hok).
    specialize (Hp h). rewrite Hk in Hp. destruct (get h s) as [[k'|u']|]; [|done..].
    destruct Hp. exists k', ch. split_and!; [done|done|]. by apply (chan_ok_same k).
Qed.

(** Adding a socket. *)
Lemma acc_ok_add dns ls st k s h port :
  sset_add (ATcp (U := U) k) (sockets st) = (s, h) → sent k = [] → recvd k = [] →
  acc_ok dns ls st → acc_ok dns (ls ++ [(h, port)]) (with_sockets s st).
Proof.
  intros Hadd Hs Hr [(u & Hu & Hsl) Hnd Hls Hc Hid Ha].
  destruct (sset_add_get _ _ _ _ Hadd) as (Hnone & Hnew & Hold).
  assert (∀ h' x, get h' (sockets st) = Some x → get h' s = Some x) as Hkeep
    by (intros h' x Hx; rewrite Hold; [done|]; intros ->; congruence).
  constructor; [by exists u; split; [apply Hkeep|]| | | |exact Hid|exact Ha]; cbn.
  - rewrite map_app. cbn. apply NoDup_app. split_and!; [done| |apply NoDup_singleton].
    intros h' Hin ->%list_elem_of_singleton. apply list_elem_of_fmap in Hin as ([h'' port'] & -> & Hin).
    destruct (Hls _ _ Hin) as (_ & k' & Hk' & _). cbn in Hnone. congruence.
  - intros h' port' [Hin|Hin]%elem_of_app.
    + destruct (Hls h' port' Hin) as (? & k' & Hk' & ? & ?). split; [done|]. exists k'. split_and!; auto.
    + apply list_elem_of_singleton in Hin. injection Hin as -> ->. split; [|by exists k].
      destruct (conns st !! h) as [[c id]|] eqn:E'; [|done].
      destruct (Hc h c id E') as (k' & ch & Hk' & _). congruence.
  - intros h' c id Hcn. destruct (Hc h' c id Hcn) as (k' & ch & Hk' & ? & ?). exists k', ch. split_and!; auto.
Qed.

Lemma acc_ok_add_listeners dns n port st :
  acc_ok dns (listeners st) st →
  let st' := add_listeners n port st in acc_ok dns (listeners st') st'.
Proof.
  revert st. induction n as [|n IH]; intros st Hok; [done|]. cbn [add_listeners].
  apply IH. unfold set_listen, smol_sockets. destruct (tcp_listen TCP_BUFFER TCP_BUFFER port) as [k|e] eqn:Ek; [|done].
  destruct (sset_add (ATcp k) (sockets st)) as [s h] eqn:Eadd. destruct (tcp_listen_fresh _ _ _ _ Ek) as [Hs Hr].
  destruct (acc_ok_add dns (listeners st) st k s h port Eadd Hs Hr Hok). by constructor.
Qed.

Lemma acc_ok_ensure dns wanted st :
  acc_ok dns (listeners st) st →
  let st' := ensure_listeners wanted st in acc_ok dns (listeners st') st'.
Proof.
  unfold ensure_listeners. generalize (ports_in_order wanted). intros ports. revert st.
  induction ports as [|port ports IH]; intros st Hok; [done|]. cbn [foldl]. by apply IH, acc_ok_add_listeners.
Qed.

(** *** The stub resolver *)

(** The answers to a queue of datagrams, each for whoever asked. *)
Definition answers (ps : list (bytes * E)) : list (bytes * E) :=
  omap (λ p, match build_response (fst p) with Done (Some r) => Some (r, snd p) | _ => None end) ps.

(** The loop ends within as many rounds as datagrams are waiting: it answers all
    of them, in order, but for those the socket refuses to send. *)
Lemma dns_loop_spec fuel u :
  (length (udp_pending u) ≤ fuel)%nat →
  ∃ u' out, dns_loop fuel u = Done u' ∧ udp_slots u' = udp_slots u ∧ udp_pending u' = [] ∧
    udp_sent u' = udp_sent u ++ out ∧ out `sublist_of` answers (udp_pending u) ∧
    ((∀ b e v, snd (udp_send_slice b e v) = Ok tt) → out = answers (udp_pending u)).
Proof.
  revert u. induction fuel as [|fuel IH]; intros u Hf.
  { apply Nat.le_0_r, nil_length_inv in Hf. exists u, []. rewrite Hf, app_nil_r. cbn [dns_loop].
    destruct (udp_can_recv u) eqn:Ec; [by apply udp_can_recv_pending in Ec|]. by split_and!. }
  cbn [dns_loop]. destruct (udp_can_recv u) eqn:Ec; cbn [negb].
  2: { exists u, []. assert (udp_pending u = []) as ->.
       { destruct (udp_pending u) eqn:Ep; [done|]. assert (udp_can_recv u = true) by (apply udp_can_recv_pending; congruence). congruence. }
       rewrite app_nil_r. by split_and!. }
  pose proof (udp_pending_bytes u) as Hb.
  destruct (udp_recv u) as [u1 [[query ep]|e]] eqn:Er; destruct (udp_recv_takes _ _ _ Er) as (Hs1 & Hsl1 & Hp1).
  2: { destruct Hp1 as [Hp Hp']. exists u1, []. rewrite Hp, Hp', app_nil_r. by split_and!. }
  rewrite Hp1 in Hf, Hb |- *. apply Forall_cons in Hb as [Hq _]. cbn [length] in Hf.
  unfold answers. cbn [omap list_omap fst snd]. fold (answers (udp_pending u1)).
  destruct (build_total query Hq) as [[resp|] ->].
  - destruct (udp_send_slice resp ep u1) as [u2 r] eqn:Es.
    destruct (udp_send_appends _ _ _ _ _ Es) as (Hp2 & Hsl2 & Hs2).
    destruct (IH u2) as (u' & out & -> & Hsl & Hpe & Hse & Hsub & Hall); [rewrite Hp2; lia|].
    rewrite Hp2 in Hsub, Hall. exists u', (match r with Ok _ => [(resp, ep)] | Err _ => [] end ++ out).
    split_and!; [done|congruence|done|rewrite Hse, Hs2, Hs1; by rewrite app_assoc| |].
    + destruct r; [by apply sublist_skip|by apply sublist_cons].
    + intros Hok. rewrite (Hall Hok). specialize (Hok resp ep u1). rewrite Es in Hok. cbn in Hok. by subst r.
  - destruct (IH u1) as (u' & out & -> & Hsl & Hpe & Hse & Hsub & Hall); [lia|].
    exists u', out. split_and!; [done|congruence|done|congruence|done|done].
Qed.

Lemma acc_ok_dns dns ls st :
  acc_ok dns ls st → ∃ s, dns_service (K := K) (U := U) (E := E) dns (sockets st) = Done s ∧ acc_ok dns ls (with_sockets s st).
Proof.
  intros Hok. destruct (acc_dns _ _ _ Hok) as (u & Hu & Hsl). unfold dns_service. rewrite Hu.
  destruct (dns_loop_spec DNS_SLOTS u) as (u' & out & -> & Hsl' & _); [rewrite <- Hsl; apply udp_pending_slots|].
  eexists. split; [done|]. destruct Hok as [_ Hnd Hls Hc Hid Ha].
  destruct (sset_put_get dns (AUdp u') (sockets st)) as [Hnew Hold].
  constructor; [exists u'; split; [done|congruence]|done| | |exact Hid|exact Ha]; cbn.
  - intros h port Hin. destruct (Hls h port Hin) as (? & k & Hk & ? & ?). split; [done|].
    exists k. rewrite Hold; [done|]. intros ->. congruence.
  - intros h c id Hcn. destruct (Hc h c id Hcn) as (k & ch & Hk & ? & ?). exists k, ch.
    rewrite Hold; [done|]. intros ->. congruence.
Qed.

(** *** Promotion *)

Lemma acc_ok_shrink dns l ls ls' st : acc_ok dns (ls ++ l :: ls') st → acc_ok dns (ls ++ ls') st.
Proof.
  intros [Hd Hnd Hls Hc Hid Ha]. constructor; [done| |intros h port Hin; apply (Hls h port); set_solver|done..].
  rewrite map_app in *. cbn in Hnd. apply NoDup_app in Hnd as (? & Hx & Hy).
  apply NoDup_cons in Hy as [? ?]. apply NoDup_app. split_and!; [done| |done]. set_solver.
Qed.

(** A listener closed before it accepted: its socket goes. *)
Lemma acc_ok_drop_listener dns ls h port ls' st :
  acc_ok dns (ls ++ (h, port) :: ls') st →
  acc_ok dns (ls ++ ls') (with_sockets (sset_remove h (sockets st)) st).
Proof.
  intros Hok. assert (h ∉ map fst (ls ++ ls')) as Hnin.
  { pose proof (acc_nodup _ _ _ Hok) as Hnd. rewrite map_app in Hnd. cbn in Hnd.
    rewrite map_app. apply NoDup_app in Hnd as (? & Hx & [? ?]%NoDup_cons). set_solver. }
  destruct (acc_listeners _ _ _ Hok h port) as (Hcn & k & Hk & _); [set_solver|].
  apply acc_ok_shrink in Hok as [(u & Hu & Hsl) Hnd Hls Hc Hid Ha].
  destruct (sset_remove_get h (sockets st)) as [_ Hold].
  constructor; [|done| | |exact Hid|exact Ha]; cbn.
  - exists u. rewrite Hold; [done|]. intros ->. congruence.
  - intros h' port' Hin. destruct (Hls h' port' Hin) as (? & k' & Hk' & ? & ?). split; [done|].
    exists k'. rewrite Hold; [done|]. intros ->. apply Hnin, list_elem_of_fmap. by exists (h, port').
  - intros h' c id Hcn'. destruct (Hc h' c id Hcn') as (k' & ch & Hk' & ? & ?). exists k', ch.
    rewrite Hold; [done|]. intros ->. congruence.
Qed.

(** An accepted listener becomes a connection with a channel of its own. *)
Lemma acc_ok_promote dns ls h port ls' st :
  acc_ok dns (ls ++ (h, port) :: ls') st →
  acc_ok dns (ls ++ ls')
    (mkAcceptor (sockets st) (listeners st) (<[h := (NetConn_new, length (chans st))]> (conns st))
       (chans st ++ [channel]) (announced st ++ [mkNewConn (length (chans st)) port])).
Proof.
  intros Hok. assert (h ∉ map fst (ls ++ ls')) as Hnin.
  { pose proof (acc_nodup _ _ _ Hok) as Hnd. rewrite map_app in Hnd. cbn in Hnd.
    rewrite map_app. apply NoDup_app in Hnd as (? & Hx & [? ?]%NoDup_cons). set_solver. }
  destruct (acc_listeners _ _ _ Hok h port) as (Hcn & k & Hk & Hs & Hr); [set_solver|].
  pose proof (λ h' c id, acc_fresh_id _ _ _ h' c id Hok) as Hlt.
  apply acc_ok_shrink in Hok as [Hd Hnd Hls Hc Hid Ha].
  constructor; [done|done| | | |]; cbn.
  - intros h' port' Hin. destruct (Hls h' port' Hin) as (Hcn' & ?). rewrite lookup_insert_ne; [done|].
    intros ->. apply Hnin, list_elem_of_fmap. by exists (h', port').
  - intros h' c id [[-> [= <- <-]]|[Hne Hc']]%lookup_insert_Some.
    + exists k, channel. split_and!; [done| |by apply chan_ok_new].
      by rewrite lookup_app_r, Nat.sub_diag by done.
    + destruct (Hc h' c id Hc') as (k' & ch & Hk' & Hch & ?). exists k', ch. split_and!; [done| |done].
      by apply lookup_app_l_Some.
  - intros h1 h2 c1 c2 id Hc1 Hc2.
    apply lookup_insert_Some in Hc1 as [[<- E1]|[Hne1 Hc1]]; apply lookup_insert_Some in Hc2 as [[<- E2]|[Hne2 Hc2]];
      [done|injection E1 as <- <-; apply Hlt in Hc2; lia|injection E2 as <- <-; apply Hlt in Hc1; lia|by eapply Hid].
  - rewrite map_app, Ha, length_app. cbn. by rewrite seq_app.
Qed.

Lemma acc_ok_promote_loop dns kept todo st :
  acc_ok dns (kept ++ todo) st →
  ∃ st', promote_loop (S := S) kept todo st = Done st' ∧ acc_ok dns (listeners st') st'.
Proof.
  revert kept st. induction todo as [|[h port] todo IH]; intros kept st Hok; cbn [promote_loop].
  - rewrite app_nil_r in Hok. eexists. split; [done|]. destruct Hok. by constructor.
  - destruct (acc_listeners _ _ _ Hok h port) as (_ & k & Hk & _); [set_solver|].
    cbn [set_state smol_sockets]. rewrite Hk. destruct (sock_state k).
    + apply IH. by rewrite <- app_assoc.
    + by eapply IH, acc_ok_drop_listener.
    + by eapply IH, acc_ok_promote.
Qed.

(** *** Service *)

(** The sockets and channels of the other connections are left alone. *)
Lemma acc_ok_update dns ls st h c0 id ch s conns' :
  acc_ok dns ls st → conns st !! h = Some (c0, id) →
  (∀ h', h' ≠ h → get h' s = get h' (sockets st)) →
  (∀ h', h' ≠ h → conns' !! h' = conns st !! h') →
  (∀ c id', conns' !! h = Some (c, id') → id' = id ∧ ∃ k, get h s = Some (ATcp k) ∧ chan_ok k c ch) →
  acc_ok dns ls (mkAcceptor s (listeners st) conns' (<[id := ch]> (chans st)) (announced st)).
Proof.
  intros Hok Hh Hs Hcs Hnew. pose proof (acc_fresh_id _ _ _ _ _ _ Hok Hh) as Hlt.
  destruct Hok as [(u & Hu & Hsl) Hnd Hls Hc Hid Ha].
  destruct (Hc h c0 id Hh) as (k0 & ch0 & Hk0 & _).
  constructor; [|done| | | |cbn; by rewrite length_insert]; cbn.
  - exists u. rewrite Hs; [done|]. intros ->. congruence.
  - intros h' port Hin. destruct (Hls h' port Hin) as (Hcn & ?). assert (h' ≠ h) by congruence.
    by rewrite Hs, Hcs.
  - intros h' c id' Hc'. destruct (decide (h' = h)) as [->|Hne].
    + destruct (Hnew c id' Hc') as [-> (k & Hk & Hch)]. exists k, ch. by rewrite list_lookup_insert_eq.
    + rewrite Hcs in Hc' by done. destruct (Hc h' c id' Hc') as (k & ch' & Hk & Hch & ?). exists k, ch'.
      rewrite Hs, list_lookup_insert_ne by (done || intros ->; by apply Hne, (Hid h' h c c0 id')). done.
  - intros h1 h2 c1 c2 id' Hc1 Hc2.
    assert (∀ h' c', conns' !! h' = Some (c', id') → ∃ c'', conns st !! h' = Some (c'', id')) as Hback.
    { intros h' c' Hx. destruct (decide (h' = h)) as [->|Hne]; [|rewrite Hcs in Hx by done; by exists c'].
      destruct (Hnew c' id' Hx) as [-> _]. by exists c0. }
    destruct (Hback h1 c1 Hc1) as [? ?], (Hback h2 c2 Hc2) as [? ?]. by eapply Hid.
Qed.

Lemma acc_ok_service_one dns ls h st :
  acc_ok dns ls st → is_Some (conns st !! h) →
  ∃ st', service_one (K := K) (U := U) h st = Done st' ∧ acc_ok dns ls st' ∧ listeners st' = listeners st ∧
         ∀ h', h' ≠ h → conns st' !! h' = conns st !! h'.
Proof.
  intros Hok [[c id] Hc]. destruct (acc_conns _ _ _ Hok h c id Hc) as (k & ch & Hk & Hch & Hco).
  unfold service_one. rewrite Hk, Hc, Hch.
  destruct (chan_ok_service k c ch Hco) as (k' & oc & d & u & -> & Hnew).
  eexists. split; [done|]. destruct (sset_put_get h (ATcp (U := U) k') (sockets st)) as [Hput Hputo].
  destruct oc as [c'|]; (split; [|split; [done|]]); cbn.
  - eapply acc_ok_update; [done|exact Hc|exact Hputo|intros; by rewrite lookup_insert_ne|].
    intros c1 id1. rewrite lookup_insert_eq. intros [= <- <-]. split; [done|]. exists k'. auto.
  - intros h' Hne. by rewrite lookup_insert_ne.
  - destruct (sset_remove_get h (sset_put h (ATcp (U := U) k') (sockets st))) as [_ Hrem].
    eapply acc_ok_update; [done|exact Hc| |intros; by rewrite lookup_delete_ne|by rewrite lookup_delete_eq].
    intros h' Hne. by rewrite Hrem, Hputo.
  - intros h' Hne. by rewrite lookup_delete_ne.
Qed.

Lemma acc_ok_service_all dns ls hs st :
  acc_ok dns ls st → NoDup hs → (∀ h, h ∈ hs → is_Some (conns st !! h)) →
  ∃ st', service_all (K := K) (U := U) hs st = Done st' ∧ acc_ok dns ls st' ∧ listeners st' = listeners st.
Proof.
  revert st. induction hs as [|h hs IH]; intros st Hok Hnd Hin; cbn [service_all]; [by exists st|].
  apply NoDup_cons in Hnd as [Hh Hnd].
  destruct (acc_ok_service_one dns ls h st Hok) as (st1 & -> & Hok1 & Hl1 & Hc1); [apply Hin; by left|].
  destruct (IH st1 Hok1 Hnd) as (st2 & -> & Hok2 & Hl2).
  - intros h' Hh'. rewrite Hc1 by congruence. apply Hin. by right.
  - exists st2. split_and!; [done|done|congruence].
Qed.

Lemma hash_keys_nodup {V} (m : gmap SocketHandle V) : NoDup (hash_keys m).
Proof. rewrite hash_keys_perm. apply NoDup_fst_map_to_list. Qed.

Lemma hash_keys_elem {V} (m : gmap SocketHandle V) h : h ∈ hash_keys m ↔ is_Some (m !! h).
Proof.
  rewrite hash_keys_perm, list_elem_of_fmap. split.
  - intros ([h' v] & -> & Hin). apply elem_of_map_to_list in Hin. by exists v.
  - intros [v Hv]. exists (h, v). by rewrite elem_of_map_to_list.
Qed.

Lemma acc_ok_service dns st :
  acc_ok dns (listeners st) st →
  ∃ st', service_conns (K := K) (U := U) st = Done st' ∧ acc_ok dns (listeners st') st'.
Proof.
  intros Hok. destruct (acc_ok_service_all dns (listeners st) (hash_keys (conns st)) st Hok) as (st' & E' & Hok' & Hl).
  - apply hash_keys_nodup.
  - intros h. apply hash_keys_elem.
  - exists st'. rewrite Hl. by split.
Qed.

(** ** Iterations *)

Lemma net_ok_poll st : net_ok st → net_ok (poll st).
Proof.
  unfold net_ok, poll. intros Hok.
  destruct (iface_poll (sk_iface st) (sk_inbox st) (sockets (sk_acc st))) as [[i inbox] s] eqn:Ep.
  destruct (iface_poll_ok (U := U) (E := E) _ _ _ _ _ _ Ep) as [_ Hp]. by apply acc_ok_poll.
Qed.

(** A tick, up to its service pass and from there. *)
Lemma tick_phases reads st :
  Forall (Forall byte_ok) (packets reads) → net_ok st →
  ∃ i inbox wanted acc acc', acc_ok (sk_dns st) (listeners acc) acc ∧
    service_conns (K := K) (U := U) acc = Done acc' ∧ acc_ok (sk_dns st) (listeners acc') acc' ∧
    sk_wanted st ⊆ wanted ∧
    tick (K := K) (U := U) (E := E) reads st
    = Done (poll (mkStack i inbox wanted (sk_dns st) (ensure_listeners wanted acc'))).
Proof.
  intros Hb Hok. destruct (drain_spec reads (sk_inbox st) (sk_wanted st) Hb) as (wanted & Ed & Hw).
  unfold tick, tick_start. rewrite Ed.
  set (st1 := mkStack (sk_iface st) _ wanted (sk_dns st) (ensure_listeners wanted (sk_acc st))).
  assert (net_ok (poll st1)) as Hok1 by by apply net_ok_poll, acc_ok_ensure.
  assert (sk_wanted (poll st1) = wanted ∧ sk_dns (poll st1) = sk_dns st) as [Hw1 Hd1].
  { unfold poll. by destruct (iface_poll _ _ _) as [[i inbox] s]. }
  destruct (acc_ok_dns _ _ _ Hok1) as (s & -> & Hok2). rewrite Hd1 in Hok2.
  destruct (acc_ok_promote_loop _ [] (listeners (sk_acc (poll st1))) _ Hok2) as (acc0 & Ep & Hok3).
  destruct (acc_ok_service _ _ Hok3) as (acc & Es & Hok4).
  unfold promote_listeners. cbn [listeners with_sockets]. rewrite Ep, Es, Hw1, Hd1.
  do 5 eexists. split_and!; [exact Hok3|exact Es|done| |done].
  intros port Hin. apply Hw. by left.
Qed.

Lemma net_ok_tick reads st :
  Forall (Forall byte_ok) (packets reads) → net_ok st →
  ∃ st', tick (K := K) (U := U) (E := E) reads st = Done st' ∧ net_ok st' ∧ sk_wanted st ⊆ sk_wanted st'.
Proof.
  intros Hb Hok. destruct (tick_phases reads st Hb Hok) as (i & inbox & wanted & acc & acc' & _ & _ & Hok' & Hw & ->).
  eexists. split; [done|]. split; [by apply net_ok_poll, acc_ok_ensure|].
  unfold poll. by destruct (iface_poll _ _ _) as [[i' inbox'] s'].
Qed.

Lemma net_ok_new st : Stack_new (K := K) (U := U) (E := E) true = Ok st → net_ok st.
Proof.
  unfold Stack_new, dns_add. destruct (iface_new _) as [i|e]; [|done]. cbn [negb].
  destruct (udp_bound DNS_SLOTS DNS_PORT) as [u|e] eqn:Eu; [|done].
  destruct (udp_bound_new _ _ _ Eu) as (Hsl & _).
  destruct (sset_add (AUdp u) sset_new) as [s dns] eqn:Ea. intros [= <-].
  destruct (sset_add_get _ _ _ _ Ea) as (_ & Hget & _).
  apply acc_ok_ensure. constructor; cbn; [by exists u|apply NoDup_nil_2| | | |done].
  - by intros h port []%not_elem_of_nil.
  - intros h c id. by rewrite lookup_empty.
  - intros h h' c c' id. by rewrite lookup_empty.
Qed.

Lemma acc_ok_proxy dns ls st id ch ch' :
  acc_ok dns ls st → chans st !! id = Some ch → proxy_step ch ch' → acc_ok dns ls (with_chan id ch' st).
Proof.
  intros [Hd Hnd Hls Hc Hid Ha] Hch Hp.
  constructor; [done|done|done| |exact Hid|cbn; by rewrite length_insert].
  cbn. intros h c id' Hcn. destruct (Hc h c id' Hcn) as (k & ch0 & Hk & Hch0 & Hok).
  destruct (decide (id' = id)) as [->|Hne].
  - exists k, ch'. rewrite list_lookup_insert_eq by (by eapply lookup_lt_Some). split_and!; [done|done|].
    apply (chan_ok_proxy k c ch); [done|]. congruence.
  - exists k, ch0. by rewrite list_lookup_insert_ne by done.
Qed.

Lemma net_reachable_ok st : net_reachable (K := K) (U := U) (E := E) st → net_ok st.
Proof.
  induction 1 as [st Hn|reads st st' _ IH Hb Ht|id ch ch' st _ IH Hch Hp].
  - by apply net_ok_new.
  - destruct (net_ok_tick reads st Hb IH) as (st1 & Ht1 & ? & _). congruence.
  - by eapply (acc_ok_proxy _ _ _ id ch ch').
Qed.
End net.
