(* ===== verification/NetTheorems.v ===== *)
(** * The event loop's theorems, and a small network stack to run them on *)

From Stdlib Require Import Strings.Byte.
From S2P Require Import Prelude Eff Dns Stream Stack Tun Listeners Bridge Smoltcp NetLoop NetSafety.

(** ** A UDP socket over two lists *)

Record MemUdp : Type := mkUdp {
  mu_slots : nat; mu_in : list (list byte * Z); mu_out : list (bytes * Z);
}.

Definition of_bytes (b : list byte) : bytes := map (λ x, Z.of_N (Byte.to_N x)) b.

Definition mu_waiting (u : MemUdp) : list (list byte * Z) := take (mu_slots u) (mu_in u).

#[export] Instance mem_udp : UdpSock MemUdp Z := {|
  udp_bound n port := Ok (mkUdp n [] []);
  udp_can_recv u := negb (bool_decide (mu_waiting u = []));
  udp_recv u :=
    match mu_waiting u with
    | [] => (u, Err tt)
    | (b, e) :: rest => (mkUdp (mu_slots u) rest (mu_out u), Ok (of_bytes b, e))
    end;
  udp_send_slice b e u := (mkUdp (mu_slots u) (mu_in u) (mu_out u ++ [(b, e)]), Ok tt);
|}.

Lemma of_bytes_ok b : Forall byte_ok (of_bytes b).
Proof.
  apply Forall_forall. intros x (y & -> & _)%list_elem_of_fmap. unfold byte_ok.
  pose proof (Byte.to_N_bounded y). lia.
Qed.

#[export] Program Instance mem_udp_spec : UdpSockSpec MemUdp Z := {|
  udp_pending u := map (λ p, (of_bytes (fst p), snd p)) (mu_waiting u);
  udp_sent := mu_out;
  udp_slots := mu_slots;
|}.
Next Obligation. intros u. cbn. rewrite length_fmap. unfold mu_waiting. rewrite length_take. lia. Qed.
Next Obligation.
  intros u. apply Forall_forall. intros p (q & -> & _)%list_elem_of_fmap. apply of_bytes_ok.
Qed.
Next Obligation. intros n port u [= <-]. unfold mu_waiting. cbn. by rewrite take_nil. Qed.
Next Obligation.
  intros u. cbn. rewrite negb_true_iff, bool_decide_eq_false. by destruct (mu_waiting u).
Qed.
Next Obligation.
  intros u u' r. cbn. destruct (mu_waiting u) as [|[b e] rest] eqn:Ew; intros [= <- <-].
  - by rewrite Ew.
  - split_and!; [done..|]. cbn. do 2 f_equal. unfold mu_waiting. cbn. symmetry. apply take_ge.
    apply (f_equal length) in Ew. unfold mu_waiting in Ew. rewrite length_take in Ew. cbn in Ew. lia.
Qed.
Next Obligation. by intros b e u u' r [= <- <-]. Qed.

(** ** A socket set over a finite map *)

Abbreviation MemAny := (AnySocket MemSock MemUdp).

#[export] Instance mem_set : SmolSet (gmap Z MemAny) MemSock MemUdp := {|
  sset_new := ∅;
  sset_add x s := let h := fresh (dom s) in (<[h := x]> s, h);
  sset_get h s := s !! h;
  sset_put h x s := <[h := x]> s;
  sset_remove h s := delete h s;
|}.

#[export] Instance mem_set_spec : SmolSetSpec (gmap Z MemAny) MemSock MemUdp.
Proof.
  split; cbn.
  - done.
  - intros x s s' h [= <- <-]. split_and!; [|by rewrite lookup_insert_eq|intros; by rewrite lookup_insert_ne].
    apply not_elem_of_dom, is_fresh.
  - intros h x s. split; [by rewrite lookup_insert_eq|]. intros. by rewrite lookup_insert_ne.
  - intros h s. split; [by rewrite lookup_delete_eq|]. intros. by rewrite lookup_delete_ne.
Qed.

#[export] Instance mem_listen : TcpListen MemSock := {|
  tcp_listen rx tx port := if port =? 0 then Err tt else Ok (mkSock [] [] [] 8 Listen true);
|}.

#[export] Instance mem_listen_spec : TcpListenSpec MemSock.
Proof. split. intros rx tx port k. cbn. destruct (port =? 0); [done|]. by intros [= <-]. Qed.

(** ** An interface: the first packet opens a connection on every listener and
    carries its payload. *)

Definition accept (pkt : bytes) (x : MemAny) : MemAny :=
  match x with
  | ATcp k =>
      if bool_decide (ms_state k = Listen)
      then ATcp (mkSock (ms_sent k) (ms_recvd k) (drop 40 pkt) (ms_room k) Active (ms_open k)) else x
  | AUdp u => x
  end.

#[export] Instance mem_iface : Iface unit (gmap Z MemAny) := {|
  iface_new _ := Ok tt;
  iface_poll i inbox s :=
    match inbox with
    | [] => (i, [], s)
    | pkt :: inbox' => (i, inbox', accept pkt <$> s)
    end;
  iface_poll_delay _ _ := None;
|}.

#[export] Instance mem_iface_spec : IfaceSpec unit (gmap Z MemAny) MemSock MemUdp Z.
Proof.
  assert (∀ s : gmap Z MemAny, polled (K := MemSock) (U := MemUdp) (E := Z) s s) as Hrefl
    by (intros s h; cbn; by destruct (s !! h) as [[k|u]|]).
  split. intros i inbox s i' inbox' s'. cbn. destruct inbox as [|pkt inbox]; intros [= <- <- <-].
  - split; [by exists 0%nat|apply Hrefl].
  - split; [by exists 1%nat|]. intros h. cbn. rewrite lookup_fmap.
    destruct (s !! h) as [[k|u]|]; [|done..]. cbn. by destruct (bool_decide _).
Qed.

#[export] Program Instance mem_order : HashOrder := {| hash_keys V m := map fst (map_to_list m) |}.
Next Obligation. done. Qed.

(** ** Theorems *)

(** C10. The event loop never breaks: from [Stack::new] on, whatever packets are
    read from the TUN, whatever order the connections are served in and whatever
    the proxy does between two iterations, every further iteration runs to its
    end without a panic (no handle is ever dangling and no loop runs out); each
    listener and each connection owns its socket, no two connections share a
    channel; and for every open connection, what the proxy has read and what it
    has yet to read is, in order, what the socket has received, and what it has
    written is what the socket has accepted followed by what is in flight. *)
Theorem event_loop_invariant {I S K U E}
    `{SmolSetSpec S K U, TcpSockSpec K, TcpListen K, UdpSockSpec U E, Iface I S, HashOrder}
    (Hlisten : TcpListenSpec K) (Hiface : IfaceSpec I S K U E) (st : NetStack I S) :
  net_reachable (K := K) (U := U) (E := E) st →
  (∀ reads, Forall (Forall byte_ok) (packets reads) →
     ∃ st', tick (K := K) (U := U) (E := E) reads st = Done st') ∧
  NoDup (map fst (listeners (sk_acc st))) ∧
  (∀ h port, (h, port) ∈ listeners (sk_acc st) → conns (sk_acc st) !! h = None) ∧
  (∀ h h' c c' id, conns (sk_acc st) !! h = Some (c, id) → conns (sk_acc st) !! h' = Some (c', id) → h = h') ∧
  ∀ h c id, conns (sk_acc st) !! h = Some (c, id) →
    ∃ k ch, sset_get (K := K) (U := U) h (sockets (sk_acc st)) = Some (ATcp k) ∧
      chans (sk_acc st) !! id = Some ch ∧
      recvd k = ch_delivered ch ++ unread (ch_stream ch) (ch_down ch) ∧
      ch_written ch = sent k ++ in_flight c (ch_up ch).
Proof.
  intros Hok%net_reachable_ok. split_and!.
  - intros reads Hb. destruct (net_ok_tick reads st Hb Hok) as (st' & Ht & _). by exists st'.
  - apply (acc_nodup _ _ _ Hok).
  - intros h port Hin. by apply (acc_listeners _ _ _ Hok) in Hin as [? _].
  - apply (acc_ids _ _ _ Hok).
  - intros h c id Hc. destruct (acc_conns _ _ _ Hok h c id Hc) as (k & ch & Hk & Hch & k0 & Hs0 & Hr0 & Hl).
    exists k, ch. destruct Hl as [Hin Hout _ _ _]. cbn in Hin, Hout. rewrite Hs0, Hr0 in *. by split_and!.
Qed.

(** *** A run: a client connects to port 443 and sends a request; the proxy
    answers ten bytes, of which the socket has room for eight. *)
Module NetDemo.
Definition stack0 : NetStack unit (gmap Z MemAny) :=
  match Stack_new (K := MemSock) (U := MemUdp) (E := Z) true with
  | Ok st => st
  | Err _ => mkStack tt [] ∅ 0 (mkAcceptor ∅ [] ∅ [] [])
  end.

Definition next (reads : list TunRead) (st : NetStack unit (gmap Z MemAny)) : NetStack unit (gmap Z MemAny) :=
  match tick (K := MemSock) (U := MemUdp) (E := Z) reads st with Done st' => st' | _ => st end.

(** A packet for port 443 with a payload of four bytes. *)
Definition packet : bytes :=
  [69; 0; 0; 44; 0; 0; 0; 0; 64; 6; 0; 0; 10; 0; 0; 2; 10; 0; 0; 1;
   200; 0; 1; 187; 0; 0; 0; 0; 0; 0; 0; 0; 80; 2; 250; 240; 0; 0; 0; 0] ++ lit "ping".

Definition stack1 : NetStack unit (gmap Z MemAny) := next [RPacket packet; RAgain] stack0.

(** The first connection's channel, before and after the proxy's reply. *)
Definition chan1 : Chan := default channel (chans (sk_acc stack1) !! 0%nat).
Definition chan2 : Chan :=
  mkChan (ch_down chan1) (send (lit "0123456789") (ch_up chan1)) (ch_stream chan1)
    (ch_delivered chan1) (ch_written chan1 ++ lit "0123456789").

Definition stack2 : NetStack unit (gmap Z MemAny) :=
  mkStack (sk_iface stack1) (sk_inbox stack1) (sk_wanted stack1) (sk_dns stack1)
    (with_chan 0 chan2 (sk_acc stack1)).
Definition stack3 : NetStack unit (gmap Z MemAny) := next [] stack2.
End NetDemo.

Lemma demo_reachable : net_reachable (K := MemSock) (U := MemUdp) (E := Z) NetDemo.stack3.
Proof.
  apply (net_tick [] NetDemo.stack2); [|constructor|vm_compute; reflexivity].
  apply (net_proxy 0 NetDemo.chan1 NetDemo.chan2 NetDemo.stack1); [|vm_compute; reflexivity|].
  - apply (net_tick [RPacket NetDemo.packet; RAgain] NetDemo.stack0); [| |vm_compute; reflexivity].
    + apply net_init. vm_compute. reflexivity.
    + repeat constructor; unfold byte_ok; lia.
  - apply (proxy_write (lit "0123456789") _ (ch_up NetDemo.chan1) _ _ _ _ 10). vm_compute. reflexivity.
Qed.

(** Eight connections are open, and two of the ten bytes are in flight. *)
Lemma demo_connections :
  size (conns (sk_acc NetDemo.stack3)) = 8%nat ∧
  (pending_out ∘ fst) <$> conns (sk_acc NetDemo.stack3) !! 1 = Some (Some (lit "89")).
Proof. vm_compute. done. Qed.

Lemma event_loop_invariant_witness :
  ∃ st', tick (K := MemSock) (U := MemUdp) (E := Z) [RPacket syn_packet] NetDemo.stack3 = Done st'.
Proof.
  apply (event_loop_invariant mem_listen_spec mem_iface_spec NetDemo.stack3 demo_reachable).
  repeat constructor; unfold byte_ok; lia.
Defined.

(** C26. The stub resolver answers everybody: a pass over its socket ends within
    as many rounds as the socket has slots, leaves no datagram waiting and no
    other socket touched, and sends, in the order of the queries, the response to
    each datagram that has one back to its sender (all of them when the socket
    accepts every send, otherwise all but the refused ones). *)
Theorem dns_service_answers {S K U E} `{SmolSetSpec S K U, UdpSockSpec U E} (h : SocketHandle) (s : S) (u : U) :
  sset_get (K := K) h s = Some (AUdp u) → udp_slots u = DNS_SLOTS →
  ∃ s' u' out, dns_service (K := K) (U := U) (E := E) h s = Done s' ∧
    sset_get (K := K) h s' = Some (AUdp u') ∧
    (∀ h', h' ≠ h → sset_get (K := K) (U := U) h' s' = sset_get h' s) ∧
    udp_pending u' = [] ∧ udp_sent u' = udp_sent u ++ out ∧ out `sublist_of` answers (udp_pending u) ∧
    ((∀ b e v, snd (udp_send_slice b e v) = Ok tt) → out = answers (udp_pending u)).
Proof.
  intros Hu Hsl. unfold dns_service. rewrite Hu.
  destruct (dns_loop_spec DNS_SLOTS u) as (u' & out & -> & _ & Hp & Hs & Hsub & Hall);
    [rewrite <- Hsl; apply udp_pending_slots|].
  destruct (sset_put_get (K := K) h (AUdp u') s) as [Hnew Hold].
  exists (sset_put h (AUdp u') s), u', out. by split_and!.
Qed.

(** One query waiting, from endpoint 7. *)
Definition demo_udp : MemUdp :=
  mkUdp DNS_SLOTS [(map (λ z, default x00 (Byte.of_N (Z.to_N z))) sample_query, 7)] [].

Definition demo_set : gmap Z MemAny := {[0 := AUdp demo_udp]}.

Lemma dns_service_answers_witness :
  ∃ s' u' out, dns_service (K := MemSock) (U := MemUdp) (E := Z) 0 demo_set = Done s' ∧
    sset_get (K := MemSock) 0 s' = Some (AUdp u') ∧
    (∀ h', h' ≠ 0 → sset_get (K := MemSock) (U := MemUdp) h' s' = sset_get h' demo_set) ∧
    udp_pending u' = [] ∧ udp_sent u' = udp_sent demo_udp ++ out ∧
    out `sublist_of` answers (udp_pending demo_udp) ∧
    ((∀ b e v, snd (udp_send_slice (U := MemUdp) (E := Z) b e v) = Ok tt) → out = answers (udp_pending demo_udp)).
Proof. apply (dns_service_answers (K := MemSock) (E := Z) 0 demo_set demo_udp); reflexivity. Defined.

Lemma demo_answers :
  answers (udp_pending demo_udp)
  = [([18; 52; 129; 128; 0; 1; 0; 1; 0; 0; 0; 0; 1; 97; 3; 99; 111; 109; 0; 0; 1; 0; 1]
      ++ [192; 12; 0; 1; 0; 1; 0; 0; 0; 60; 0; 4] ++ STACK_IP, 7)].
Proof. vm_compute. reflexivity. Qed.
