(* ===== verification/Delivery.v ===== *)
(** * The bridge delivers ([src/mitm/stack.rs]: [service_conns];
    [src/mitm/stream.rs]: [poll_read])

    [Bridge] and [NetTheorems] show that nothing is lost or reordered; here is
    that nothing stays behind.  The class [TcpSockLive] adds to the laws of a
    socket what a program that waits relies on: a socket that says it can send
    accepts something, one that says it can receive yields something, and the
    two buffers are independent; closing it closes its sending half. *)

From S2P Require Import Prelude Eff Dns Stream Stack Tun Listeners Bridge Smoltcp NetLoop NetSafety NetTheorems.

(** ** Parameters *)

(** [waiting]: received from the child and not yet handed to the program. *)
Class TcpSockLive (K : Type) `{TcpSockSpec K} : Type := {
  waiting : K → bytes;
  can_recv_waiting k : can_recv k = true ↔ waiting k ≠ [];
  can_recv_may k : can_recv k = true → may_recv k = true;
  recv_upto_takes n k k' r :
    recv_upto n k = (k', r) → (0 < n)%nat → can_recv k = true →
    (∃ x chunk, r = Some (x :: chunk) ∧ waiting k = (x :: chunk) ++ waiting k') ∧
    can_send k' = can_send k ∧ may_send k' = may_send k;
  send_slice_fills b k k' r :
    send_slice b k = (k', r) → can_send k = true →
    waiting k' = waiting k ∧ may_send k' = may_send k ∧
    (∃ n, r = Some n ∧ ((n < length b)%nat → can_send k' = false) ∧ (b ≠ [] → (0 < n)%nat)) ∧
    (b = [] → can_send k' = true);
  close_waiting k : waiting (sock_close k) = waiting k;
  close_may k : may_send (sock_close k) = false;
  abort_closes k : sock_state (sock_abort k) = ClosedState;
}.

(** ** Specification *)

Section live.
Context {K : Type} `{TcpSockLive K}.

(** Nothing that could be moved is left after a service pass. *)
Record drained (k : K) (c : NetConn) (d u : Pipe) : Prop := {
  drained_out : pending_out c = None ∧ p_queue u = [] ∨ pending_out c ≠ None ∧ can_send k = false;
  drained_fin : p_tx_open u = false → pending_out c = None → sent_fin c = true;
  drained_in : waiting k = [] ∨ to_app c = false ∨ (CHAN_CAP ≤ length (p_queue d))%nat;
  drained_eof : established c = true → may_recv k = false → to_app c = false;
}.

(** Sending as much as fits: what the socket has received and its state do not
    change, and one that can send still can, unless it has accepted something. *)
Record advances (k k' : K) : Prop := {
  adv_waiting : waiting k' = waiting k;
  adv_may : may_send k' = may_send k;
  adv_sent : (length (sent k) ≤ length (sent k'))%nat;
  adv_can : can_send k = true → can_send k' = true ∨ (length (sent k) < length (sent k'))%nat;
}.

#[export] Instance advances_preorder : PreOrder advances.
Proof.
  split; [by intros k; constructor; auto|]. intros k1 k2 k3 [Hw1 Hm1 Hs1 Hc1] [Hw2 Hm2 Hs2 Hc2].
  constructor; [congruence..|lia|]. intros [Hcan|?]%Hc1; [|right; lia].
  destruct (Hc2 Hcan); [by left|right; lia].
Qed.

(** What the receiving loop leaves: nothing waiting, no reader, or no slot; and
    it takes something if it can. *)
Record pumped (has_app : bool) (k : K) (d : Pipe) (k' : K) (d' : Pipe) (gone : bool) : Prop := {
  pump_can : can_send k' = can_send k;
  pump_may : may_send k' = may_send k;
  pump_stop : gone = false → waiting k' = [] ∨ has_app = false ∨ (CHAN_CAP ≤ length (p_queue d'))%nat;
  pump_gone : gone = true → p_rx_open d = false;
  pump_took : ∃ got, waiting k = got ++ waiting k' ∧ recvd k' = recvd k ++ got ∧
    (p_rx_open d = true → has_app = true → waiting k ≠ [] → (length (p_queue d) < CHAN_CAP)%nat → got ≠ []);
}.

(** A service pass over a connection that stays open. *)
Record passed (k : K) (c : NetConn) (d u : Pipe) (k' : K) (c' : NetConn) (d' u' : Pipe) : Prop := {
  pass_drained : drained k' c' d' u';
  pass_took : ∃ got, waiting k = got ++ waiting k' ∧ recvd k' = recvd k ++ got ∧
    (p_rx_open d = true → to_app c = true → waiting k ≠ [] → (length (p_queue d) < CHAN_CAP)%nat → got ≠ []);
  pass_eof : to_app c' = false → to_app c = false ∨ waiting k' = [];
  pass_may :
    may_send k' = may_send k ∧ sent_fin c' = sent_fin c ∨ may_send k' = false ∧ sent_fin c' = true;
  pass_sent : can_send k = true → pending_out c' = None ∨ (length (sent k) < length (sent k'))%nat;
  pass_sent_mono : (length (sent k) ≤ length (sent k'))%nat;
  pass_rx : p_rx_open d' = p_rx_open d;
  pass_idle : pending_out c = None → p_queue u = [] → pending_out c' = None;
}.

(** The stash is empty, or the socket is full. *)
Definition flushed (k : K) (c : NetConn) : Prop :=
  pending_out c = None ∨ pending_out c ≠ None ∧ can_send k = false.

(** *** Rounds *)

(** The proxy reads with room for [cap] bytes until nothing is ready. *)
Fixpoint proxy_reads (fuel cap : nat) (s : Stream) (p : Pipe) : outcome (Stream * Pipe * bytes) :=
  match poll_read cap s p with
  | (s, p, Ready (x :: b)) =>
      match fuel with
      | O => OutOfFuel
      | Datatypes.S fuel' =>
          match proxy_reads fuel' cap s p with
          | Done (s, p, bs) => Done (s, p, (x :: b) ++ bs)
          | Panicked => Panicked
          | OutOfFuel => OutOfFuel
          end
      end
  | (s, p, _) => Done (s, p, [])
  end.

(** A read that returns no byte. *)
Definition nothing_read (r : Poll bytes) : bool := match r with Ready (_ :: _) => false | _ => true end.

(** A network that acknowledges what it is sent and sends nothing itself. *)
Record quiet (net : K → K) : Prop := {
  quiet_sent k : sent (net k) = sent k;
  quiet_recvd k : recvd (net k) = recvd k;
  quiet_waiting k : waiting (net k) = waiting k;
  quiet_may k : may_send (net k) = may_send k;
  quiet_room k : may_send k = true → can_send (net k) = true;
}.

(** The network, a service pass, and the proxy reading. *)
Definition round (net : K → K) (cap : nat) (l : Link K) : outcome (Link K) :=
  match lk_conn l with
  | None => Done l
  | Some c =>
      match service_conn (net (lk_sock l)) c (lk_down l) (lk_up l) with
      | None => OutOfFuel
      | Some (k, oc, d, u) =>
          match proxy_reads (length (unread (lk_stream l) d)) cap (lk_stream l) d with
          | Done (s, d, b) => Done (mkLink k oc d u s (lk_delivered l ++ b) (lk_written l))
          | Panicked => Panicked
          | OutOfFuel => OutOfFuel
          end
      end
  end.

Fixpoint rounds (n : nat) (net : K → K) (cap : nat) (l : Link K) : outcome (Link K) :=
  match n with
  | O => Done l
  | Datatypes.S n' =>
      match round net cap l with
      | Done l => rounds n' net cap l
      | Panicked => Panicked
      | OutOfFuel => OutOfFuel
      end
  end.

(** The proxy has its stream, and neither direction has been cut short. *)
Record going (l : Link K) (c : NetConn) : Prop := {
  going_rx : p_rx_open (lk_down l) = true;
  going_in : to_app c = true ∨ waiting (lk_sock l) = [];
  going_out : may_send (lk_sock l) = negb (sent_fin c);
}.

(** Everything has been passed on, the end of the stream included. *)
Record finished (l : Link K) (c : NetConn) : Prop := {
  fin_in : waiting (lk_sock l) = [];
  fin_pending : pending_out c = None;
  fin_queue : p_queue (lk_up l) = [];
  fin_close : p_tx_open (lk_up l) = false → sent_fin c = true ∧ may_send (lk_sock l) = false;
}.

Definition todo (l : Link K) (c : NetConn) : nat :=
  (length (waiting (lk_sock l)) + length (in_flight c (lk_up l)))%nat.

(** ** Lemmas: one service pass *)

Lemma push_out_live k c buf k' c' :
  pending_out c = None → push_out k c buf = (k', c') → advances k k' ∧ flushed k' c'.
Proof.
  unfold push_out, flushed. intros Hp. destruct (can_send k) eqn:Ec; cbn [negb].
  2: { intros [= <- <-]. split; [reflexivity|]. by right. }
  destruct (send_slice buf k) as [k1 r] eqn:E.
  destruct (send_slice_fills _ _ _ _ E Ec) as (Hw & Hm & (n & -> & Hfull & Hpos) & Hnil).
  destruct (send_slice_log _ _ _ _ E) as (_ & Hn & Hs).
  assert (length (sent k1) = length (sent k) + n)%nat as Hl by (rewrite Hs, length_app, length_take; lia).
  assert (advances k k1).
  { constructor; [done..|lia|]. intros _. destruct (decide (buf = [])) as [->|Hne]; [by left; apply Hnil|].
    right. specialize (Hpos Hne). lia. }
  destruct (Nat.ltb_spec n (length buf)) as [Hlt|Hge]; intros [= <- <-]; split; [done| |done|by left].
  right. split; [done|by apply Hfull].
Qed.

Lemma flush_pending_live k c k' c' : flush_pending k c = (k', c') → advances k k' ∧ flushed k' c'.
Proof.
  unfold flush_pending. destruct (pending_out c) as [buf|] eqn:Ep; [by apply push_out_live|].
  intros [= <- <-]. split; [reflexivity|by left].
Qed.

Lemma drain_app_live q tx k c k' c' q' :
  flushed k c → drain_app q tx k c = (k', c', q') →
  advances k k' ∧ flushed k' c' ∧
  (pending_out c' = None → q' = [] ∧ (tx = false → app_write_closed c' = true)).
Proof.
  revert k c. induction q as [|buf q IH]; intros k c Hc; cbn [drain_app];
    (destruct (pending_out c) as [b|] eqn:Ep; [intros [= <- <- <-]|]).
  1,3: split_and!; [reflexivity|done|congruence].
  - intros [= <- <- <-]. split_and!; [reflexivity| |by destruct tx]. left. by destruct tx.
  - destruct (push_out k c buf) as [k1 c1] eqn:E1. intros E.
    destruct (push_out_live _ _ _ _ _ Ep E1) as [Ha1 Hf1]. destruct (IH _ _ Hf1 E) as (Ha & Hf & Hq).
    split_and!; [by transitivity k1|done..].
Qed.

(** A loop that ends without taking anything. *)
Lemma pumped_nothing has_app (k : K) d (gone : bool) :
  (if gone then p_rx_open d = false
   else waiting k = [] ∨ has_app = false ∨ (CHAN_CAP ≤ length (p_queue d))%nat) →
  pumped has_app k d k d gone.
Proof.
  intros Hg. constructor; [done|done|by intros ->|by intros ->|]. exists []. rewrite app_nil_r.
  split_and!; [done|done|]. intros Hrx -> Hw Hlt _. destruct gone; [congruence|].
  destruct Hg as [?|[?|?]]; [done|done|lia].
Qed.

Lemma nothing_waiting (k : K) : can_recv k = false → waiting k = [].
Proof.
  intros Hk. destruct (waiting k) as [|x w] eqn:Ew; [done|].
  assert (can_recv k = true) by (apply can_recv_waiting; congruence). congruence.
Qed.

Lemma pump_in_live fuel (k : K) has_app d k' d' gone :
  pump_in fuel k has_app d = Some (k', d', gone) → pumped has_app k d k' d' gone.
Proof.
  revert k d. induction fuel as [|fuel IH]; intros k d; cbn [pump_in];
    (destruct (can_recv k) eqn:Ec; cbn [negb];
      [|intros [= <- <- <-]; apply pumped_nothing; left; by apply nothing_waiting]);
    (destruct has_app; cbn [negb]; [|intros [= <- <- <-]; apply pumped_nothing; auto]);
    unfold try_reserve; (destruct (p_rx_open d) eqn:Ex; cbn [negb];
      [|intros [= <- <- <-]; by apply pumped_nothing]);
    (destruct (Nat.ltb_spec (length (p_queue d)) CHAN_CAP) as [Hlt|Hge];
      [|intros [= <- <- <-]; apply pumped_nothing; auto]); [done|].
  destruct (recv_upto CHUNK k) as [k1 r] eqn:E. destruct (recv_upto_log _ _ _ _ E) as [_ Hr].
  destruct (recv_upto_takes _ _ _ _ E) as ((x & chunk & -> & Hw) & Hcs & Hms); [unfold CHUNK; lia|done|].
  intros E'. destruct (IH _ _ E') as [Hcs' Hms' Hstop Hgone (got & Hgot & Hrec & _)].
  constructor; [congruence|congruence|done|exact Hgone|].
  exists ((x :: chunk) ++ got). split_and!; [by rewrite Hw, Hgot, <- app_assoc|by rewrite Hrec, Hr, <- app_assoc|done].
Qed.
Lemma maybe_fin_live k c k' c' :
  maybe_fin k c = (k', c') →
  waiting k' = waiting k ∧ (app_write_closed c = true → pending_out c = None → sent_fin c' = true) ∧
  (k' = k ∧ sent_fin c' = sent_fin c ∨
   may_send k' = false ∧ sent_fin c' = true ∧ pending_out c = None).
Proof.
  unfold maybe_fin. destruct (app_write_closed c && _ && _) eqn:E; intros [= <- <-].
  - rewrite !andb_true_iff, bool_decide_eq_true in E. destruct E as [[? ?] ?].
    split_and!; [apply close_waiting|done|right; by rewrite close_may].
  - split_and!; [done| |by left]. intros Hw Hp. rewrite Hw, bool_decide_true in E by done.
    by destruct (sent_fin c).
Qed.

(** The end of the stream goes to the proxy only when nothing is waiting. *)
Lemma end_to_app_live k c d c' d' :
  (if established c && negb (may_recv k) then end_to_app c d else (c, d)) = (c', d') →
  pending_out c' = pending_out c ∧ sent_fin c' = sent_fin c ∧
  p_queue d' = p_queue d ∧ p_rx_open d' = p_rx_open d ∧
  (established c' = true → may_recv k = false → to_app c' = false) ∧
  (to_app c' = to_app c ∨ waiting k = []).
Proof.
  unfold end_to_app. destruct (established c) eqn:Ee, (may_recv k) eqn:Em; cbn [negb andb]; intros [= <- <-];
    split_and!; try done; try congruence; auto.
  1,2: by destruct (to_app c).
  right. apply nothing_waiting. destruct (can_recv k) eqn:Ec; [|done]. apply can_recv_may in Ec. congruence.
Qed.

Lemma service_conn_live k c d u k' oc d' u' :
  service_conn k c d u = Some (k', oc, d', u') →
  match oc with
  | Some c' => passed k c d u k' c' d' u'
  | None => sock_state k' = ClosedState
  end.
Proof.
  unfold service_conn. set (c0 := set_established _ c).
  destruct (flush_pending k c0) as [k1 c1] eqn:E1. destruct (flush_pending_live _ _ _ _ E1) as [Ha1 Hf1].
  destruct (flush_pending_spec _ _ _ _ E1) as (Hr1 & (Hta1 & Hsf1 & _) & _ & _ & Hn1).
  destruct (drain_app (p_queue u) (p_tx_open u) k1 c1) as [[k2 c2] q] eqn:E2.
  destruct (drain_app_live _ _ _ _ _ _ _ Hf1 E2) as (Ha2 & Hf2 & Hq2).
  destruct (drain_app_spec _ _ _ _ _ _ _ E2) as (Hr2 & (Hta2 & Hsf2 & _) & _ & _ & Hn2).
  pose proof (transitivity Ha1 Ha2) as [Hw Hm Hs Hc]. clear Ha1 Ha2.
  destruct (maybe_fin k2 c2) as [k3 c3] eqn:E3. destruct (maybe_fin_live _ _ _ _ E3) as (Hw3 & Hfin & Hk3).
  destruct (maybe_fin_spec _ _ _ _ E3) as (Hs3 & Hr3 & Hta3 & Hp3 & _).
  destruct (pump_in CHAN_CAP k3 (to_app c3) d) as [[[k4 d4] gone]|] eqn:E4; [|done].
  destruct (pump_in_live _ _ _ _ _ _ _ E4) as [Hcs Hms Hstop Hgone (got & Hgot & Hrec & Hsome)].
  assert (to_app c3 = to_app c) as Hta by (rewrite Hta3, Hta2, Hta1; done). rewrite Hta in *.
  assert (sent k4 = sent k3 ∧ p_rx_open d4 = p_rx_open d) as [Hs4 Hrx4].
  { destruct (pump_in_spec CHAN_CAP k3 (to_app c) d) as (? & ? & ? & E & Hs4 & _ & Hrx4 & _); [lia|].
    rewrite E4 in E. by injection E as <- <- <-. }
  destruct gone.
  { destruct (end_to_app c3 d4) as [c5 d5]. destruct (if _ && _ then _ else _) as [c6 d6].
    rewrite abort_closes. destruct (end_to_app c6 d6). intros [= <- <- _ _]. apply abort_closes. }
  destruct (if _ && _ then _ else _) as [c6 d6] eqn:E6.
  destruct (end_to_app_live _ _ _ _ _ E6) as (Hp6 & Hsf6 & Hq6 & Hrx6 & Heof & Hta6).
  assert (passed k c d u k4 c6 d6 (with_queue q u)) as Hpass.
  { rewrite <- Hp3 in Hfin. assert (pending_out c6 = pending_out c2) as Hp by congruence. constructor.
    - constructor; cbn [p_queue p_tx_open with_queue].
      + rewrite Hp. destruct Hf2 as [Hn|[Hn Hfull]]; [left; split; [done|]; by apply Hq2|right].
        destruct Hk3 as [[-> _]|(_ & _ & ?)]; [|done]. by rewrite Hcs.
      + rewrite Hp, Hsf6. intros Htx Hn. rewrite <- Hp3 in Hn. apply Hfin; [|done]. apply Hq2; congruence.
      + rewrite Hq6. destruct (Hstop eq_refl) as [?|[Hn|?]]; [by left| |by do 2 right].
        destruct Hta6 as [->|?]; [right; left; congruence|by left].
      + exact Heof.
    - exists got. split_and!; [congruence|congruence|]. by rewrite Hw3, Hw in Hsome.
    - destruct Hta6 as [->|?]; [left; congruence|by right].
    - rewrite Hsf6. destruct Hk3 as [[-> ->]|(? & ? & _)]; [left|right; split; congruence].
      split; [congruence|]. by rewrite Hsf2, Hsf1.
    - intros Hcan. rewrite Hp. destruct Hf2 as [?|[? Hfull]]; [by left|right]. destruct (Hc Hcan); [congruence|].
      by rewrite Hs4, Hs3.
    - by rewrite Hs4, Hs3.
    - by rewrite Hrx6.
    - rewrite Hp. intros Hn Hq. destruct (Hn2 Hq) as [_ ->]. by rewrite (Hn1 Hn). }
  destruct (sock_state k4) eqn:Est; [|destruct (end_to_app c6 d6)|]; by intros [= <- <- <- <-].
Qed.

(** ** Lemmas: rounds *)

(** What a reachable link keeps, over several steps. *)
Lemma link_steps_ok k0 l l' : link_ok k0 l → rtc link_step l l' → link_ok k0 l'.
Proof. intros Hok. induction 1 as [|l1 l2 l3 Hs _ IH]; [done|]. by apply IH, (link_step_ok k0 l1). Qed.

Lemma poll_read_idle cap s p s' p' r :
  stream_ok s → (0 < cap)%nat → poll_read cap s p = (s', p', r) →
  match r with Ready (_ :: _) => True | _ => p_queue p' = [] end.
Proof.
  unfold poll_read, stream_ok. intros Hok Hcap. destruct (read_rem s) as [[data off]|] eqn:Er.
  - destruct (copy_rem cap data off s) as [s1 b] eqn:Ec. intros [= <- <- <-].
    destruct (copy_rem_spec _ _ _ _ _ _ Hok Ec) as (_ & _ & _ & _ & Hne). destruct b; [by destruct (Hne Hcap)|done].
  - destruct (next_chunk (p_queue p)) as [q [v|]] eqn:En; destruct (next_chunk_spec _ _ _ En) as (_ & _ & Hnil & Hv).
    + destruct (copy_rem cap v 0 s) as [s1 b] eqn:Ec. intros [= <- <- <-].
      destruct (copy_rem_spec _ _ _ _ _ _ (Hv v eq_refl) Ec) as (_ & _ & _ & _ & Hne).
      destruct b; [by destruct (Hne Hcap)|done].
    + intros [= <- <- <-]. rewrite (Hnil eq_refl). by destruct (p_tx_open p).
Qed.

(** A read that returns nothing: there is nothing. *)
Lemma poll_read_nothing cap s p s' p' r :
  stream_ok s → (0 < cap)%nat → poll_read cap s p = (s', p', r) →
  nothing_read r = true →
  unread s p = [] ∧ unread s' p' = [] ∧ p_queue p' = [] ∧ p_rx_open p' = p_rx_open p ∧
  ∀ (k : K) oc u dl w, link_step (mkLink k oc p u s dl w) (mkLink k oc p' u s' dl w).
Proof.
  intros Hok Hcap E Hr. pose proof (poll_read_idle _ _ _ _ _ _ Hok Hcap E) as Hq.
  destruct (poll_read_spec _ _ _ _ _ _ Hok E) as (_ & _ & _ & Hrx & Hb). destruct r as [[|x b]|]; [|done|].
  - destruct Hb as (Hb & _ & He). destruct (He Hcap eq_refl) as [Hu _]. cbn in Hb. rewrite Hu in Hb.
    split_and!; [done..|]. intros k oc u dl w. rewrite <- (app_nil_r dl) at 2. by eapply step_read.
  - destruct Hb as (? & ? & _). split_and!; [done..|]. intros. by eapply step_read_pending.
Qed.

(** Reading on returns all there is to read, within as many reads as bytes. *)
Lemma proxy_reads_spec fuel cap s p :
  stream_ok s → (0 < cap)%nat → (length (unread s p) ≤ fuel)%nat →
  ∃ s' p', proxy_reads fuel cap s p = Done (s', p', unread s p) ∧ p_queue p' = [] ∧ unread s' p' = [] ∧
    p_rx_open p' = p_rx_open p ∧
    ∀ (k : K) oc u dl w, rtc link_step (mkLink k oc p u s dl w) (mkLink k oc p' u s' (dl ++ unread s p) w).
Proof.
  revert s p. induction fuel as [|fuel IH]; intros s p Hok Hcap Hf; cbn [proxy_reads];
    destruct (poll_read cap s p) as [[s1 p1] r] eqn:E;
    (destruct (nothing_read r) eqn:Hr;
      [destruct (poll_read_nothing _ _ _ _ _ _ Hok Hcap E Hr) as (Hu & Hu1 & Hq1 & Hrx & Hst);
       exists s1, p1; rewrite Hu; split_and!; [by destruct r as [[]|]|done..|];
       intros; rewrite app_nil_r; by apply rtc_once|]);
    (destruct r as [[|x b]|]; [done| |done]);
    destruct (poll_read_spec _ _ _ _ _ _ Hok E) as (Hok1 & _ & _ & Hrx & Hb & _).
  - rewrite <- Hb in Hf. cbn in Hf. lia.
  - destruct (IH s1 p1) as (s' & p' & -> & Hq & Hu & Hrx' & Hst); [done|done| |].
    { rewrite <- Hb in Hf. cbn in Hf. rewrite length_app in Hf. lia. }
    exists s', p'. rewrite Hb. split_and!; [done..|congruence|]. intros k oc u dl w. rewrite <- Hb, app_assoc.
    eapply rtc_l; [by eapply step_read|apply Hst].
Qed.

(** The socket's side of a round. *)
Lemma service_round k c d u :
  conn_ok c d u → p_rx_open d = true → (to_app c = true ∨ waiting k = []) →
  (can_send k = true ∨ sent_fin c = true) →
  ∃ k' oc d' u', service_conn k c d u = Some (k', oc, d', u') ∧ p_tx_open u' = p_tx_open u ∧
    match oc with
    | None => sock_state k' = ClosedState
    | Some c' =>
        p_rx_open d' = true ∧ ∃ got, waiting k = got ++ waiting k' ∧ concat (p_queue d') = concat (p_queue d) ++ got ∧
        drained k' c' d' u' ∧
        (to_app c' = true ∨ waiting k' = []) ∧
        (may_send k = negb (sent_fin c) → may_send k' = negb (sent_fin c')) ∧
        (pending_out c' = None ∨ (length (in_flight c' u') < length (in_flight c u))%nat) ∧
        (length (in_flight c' u') ≤ length (in_flight c u))%nat ∧
        (waiting k' = [] ∨ (p_queue d = [] → got ≠ []))
    end.
Proof.
  intros Hok Hrx Happ Hcan. destruct (service_conn_spec k c d u Hok) as (k' & oc & d' & u' & E & Htx & (ext & Hr & Hq) & Hoc).
  exists k', oc, d', u'. split_and!; [done..|]. pose proof (service_conn_live _ _ _ _ _ _ _ _ E) as Hlive.
  destruct oc as [c'|]; [|done]. destruct Hoc as [_ Hout].
  destruct Hlive as [Hdr (got & Hgot & Hrec & Hsome) Heof Hmay Hsent Hmono Hrx' Hidle].
  rewrite Hr in Hrec. apply app_inv_head in Hrec as ->. apply (f_equal length) in Hout. rewrite !length_app in Hout.
  assert (sent_fin c = true → pending_out c' = None ∧ sent_fin c' = true) as Hfin.
  { destruct Hok as [_ Hcl Hf]. intros [Hw Hp]%Hf. destruct (Hcl Hw) as [Ht Hqu].
    assert (pending_out c' = None) as Hn by (by apply Hidle).
    split; [done|]. apply (drained_fin _ _ _ _ Hdr); [congruence|done]. }
  split; [congruence|]. exists got. split_and!; [done|done|done| |by destruct Hmay as [[-> ->]|[-> ->]]| |lia|].
  - destruct (to_app c') eqn:Ea; [by left|right]. destruct (Heof eq_refl) as [Hf|?]; [|done].
    destruct Happ as [?|Hw]; [congruence|]. rewrite Hgot in Hw. by apply app_nil in Hw as [_ ?].
  - destruct Hcan as [Hcan|Hf].
    + destruct (Hsent Hcan); [by left|right; lia].
    + left. by apply Hfin.
  - destruct (decide (waiting k' = [])) as [?|Hne]; [by left|right]. intros Hqd.
    assert (waiting k ≠ []) as Hwk by (rewrite Hgot; by intros [_ ?]%app_nil).
    apply Hsome; [done| |done|rewrite Hqd; unfold CHAN_CAP; cbn; lia]. by destruct Happ.
Qed.

Lemma round_spec k0 net cap l c :
  quiet net → (0 < cap)%nat → link_ok k0 l → lk_conn l = Some c → going l c →
  ∃ l', round net cap l = Done l' ∧ rtc link_step l l' ∧ lk_written l' = lk_written l ∧
    p_tx_open (lk_up l') = p_tx_open (lk_up l) ∧
    match lk_conn l' with
    | None => sock_state (lk_sock l') = ClosedState
    | Some c' =>
        going l' c' ∧ p_queue (lk_down l') = [] ∧ unread (lk_stream l') (lk_down l') = [] ∧
        lk_delivered l' ++ waiting (lk_sock l')
        = lk_delivered l ++ unread (lk_stream l) (lk_down l) ++ waiting (lk_sock l) ∧
        (todo l' c' ≤ todo l c)%nat ∧
        (finished l' c' ∨ (p_queue (lk_down l) = [] → todo l' c' < todo l c)%nat)
    end.
Proof.
  intros [Hns Hnr Hnw Hnm Hnc] Hcap Hok Hc [Hrx Hin Hout].
  destruct l as [k oc0 d u s dl w]; cbn in *. subst oc0.
  pose proof (lk_conn_ok _ _ Hok c eq_refl) as Hco. pose proof (lk_stream_ok _ _ Hok) as Hso. cbn in Hco, Hso.
  destruct (service_round (net k) c d u Hco Hrx) as (k' & oc & d' & u' & E & Htx & Hoc);
    [by rewrite Hnw|destruct (sent_fin c); [by right|left; by apply Hnc]|].
  destruct (proxy_reads_spec (length (unread s d')) cap s d' Hso Hcap) as (s' & d'' & Er & Hq & Hu & Hrx' & Hst); [done|].
  exists (mkLink k' oc d'' u' s' (dl ++ unread s d') w). unfold round. cbn. rewrite E, Er. split_and!; [done| |done..|].
  { eapply rtc_l; [by apply (step_network k (net k))|]. eapply rtc_l; [by apply step_service|]. apply Hst. }
  destruct oc as [c'|]; [|done]. rewrite Hnw, Hnm in Hoc.
  destruct Hoc as (Hrxd & got & Hgot & Hqd & Hdr & Happ' & Hmay & Hpend & Hfl & Htook).
  specialize (Hmay Hout).
  unfold todo. cbn. split_and!; [|done|done| | |].
  - constructor; cbn; [congruence|done|done].
  - unfold unread. rewrite Hqd, Hgot, <- !app_assoc. done.
  - rewrite Hgot, length_app. lia.
  - destruct Hdr as [Hdo Hdf _ _].
    destruct (decide (waiting k' = [])) as [Hw|Hne]; [destruct Hpend as [Hp|Hlt]|].
    + left. destruct Hdo as [[_ ?]|[? _]]; [|done]. constructor; cbn; [done..|].
      intros Htxc. rewrite Hmay, Hdf by done. done.
    + right. intros _. rewrite Hgot, length_app. lia.
    + right. intros Hqe. destruct Htook as [?|Hg]; [done|]. specialize (Hg Hqe).
      rewrite Hgot, length_app. destruct got; [done|]. cbn. lia.
Qed.

(** From a connection whose channel to the proxy is empty. *)
Lemma rounds_deliver k0 net cap l c :
  quiet net → (0 < cap)%nat → link_ok k0 l → lk_conn l = Some c → going l c → p_queue (lk_down l) = [] →
  ∃ n l', (n ≤ S (todo l c))%nat ∧ rounds n net cap l = Done l' ∧ rtc link_step l l' ∧
    lk_written l' = lk_written l ∧ p_tx_open (lk_up l') = p_tx_open (lk_up l) ∧
    match lk_conn l' with
    | None => sock_state (lk_sock l') = ClosedState
    | Some c' =>
        lk_delivered l' = lk_delivered l ++ unread (lk_stream l) (lk_down l) ++ waiting (lk_sock l) ∧
        finished l' c'
    end.
Proof.
  intros Hnet Hcap. remember (todo l c) as m eqn:Em. revert l c Em.
  induction m as [m IH] using lt_wf_ind. intros l c -> Hok Hc Hg Hq.
  destruct (round_spec k0 net cap l c Hnet Hcap Hok Hc Hg) as (l1 & E & Hst & Hw & Htx & Hl1).
  destruct (lk_conn l1) as [c1|] eqn:Ec1.
  2: { exists 1%nat, l1. cbn [rounds]. rewrite E, Ec1. split_and!; [lia|done..]. }
  destruct Hl1 as (Hg1 & Hq1 & Hu1 & Hdel & Hle & [Hfin|Hlt]).
  - exists 1%nat, l1. cbn [rounds]. rewrite E, Ec1. split_and!; [lia|done..| |done].
    by rewrite (fin_in _ _ Hfin), app_nil_r in Hdel.
  - specialize (Hlt Hq). destruct (IH _ Hlt l1 c1 eq_refl) as (n & l' & Hn & E' & Hst' & Hw' & Htx' & Hl');
      [by eapply link_steps_ok|done..|].
    exists (S n), l'. cbn [rounds]. rewrite E. split_and!; [lia|done|by transitivity l1|congruence..|].
    destruct (lk_conn l') as [c'|]; [|done]. destruct Hl' as [Hd' Hf']. split; [|done].
    by rewrite Hd', Hu1, app_nil_l, Hdel.
Qed.
End live.

(** ** The whole loop *)

Section loop.
Context {I S K U E : Type}
  `{SmolSetSpec S K U, TcpSockLive K, TcpListen K, UdpSockSpec U E, Iface I S, HashOrder}.
Context `{!TcpListenSpec K, !IfaceSpec I S K U E}.

(** The connection of a handle, if there is one, is drained. *)
Definition conn_drained (st : Acceptor S) (h : SocketHandle) : Prop :=
  ∀ c id, conns st !! h = Some (c, id) →
    ∃ k ch, sset_get (K := K) (U := U) h (sockets st) = Some (ATcp k) ∧ chans st !! id = Some ch ∧
            drained k c (ch_down ch) (ch_up ch).

Lemma service_one_drains dns ls h st st' :
  acc_ok (K := K) (U := U) (E := E) dns ls st → service_one (K := K) (U := U) h st = Done st' →
  conn_drained st' h ∧ ∀ h', h' ≠ h → conn_drained st h' → conn_drained st' h'.
Proof.
  intros Hok. unfold service_one. destruct (sset_get h (sockets st)) as [[k|u]|] eqn:Ek; [|done..].
  destruct (conns st !! h) as [[c id]|] eqn:Ec.
  2: { intros [= <-]. split; [|done]. intros c id. congruence. }
  destruct (chans st !! id) as [ch|] eqn:Ech; [|done].
  destruct (service_conn k c (ch_down ch) (ch_up ch)) as [[[[k' oc] d'] u']|] eqn:E'; [|done].
  apply service_conn_live in E'. set (ch' := mkChan _ _ _ _ _).
  destruct (sset_put_get h (ATcp (U := U) k') (sockets st)) as [Hput Hputo].
  destruct (sset_remove_get h (sset_put h (ATcp (U := U) k') (sockets st))) as [_ Hrem].
  assert (∀ h' c1 id1, h' ≠ h → conns st !! h' = Some (c1, id1) → <[id := ch']> (chans st) !! id1 = chans st !! id1)
    as Hother.
  { intros h' c1 id1 Hne Hc1. apply list_lookup_insert_ne. intros ->. apply Hne. by eapply acc_ids. }
  destruct oc as [c'|]; intros [= <-]; (split; [|intros h' Hne Hd]); intros c1 id1; cbn.
  - rewrite lookup_insert_eq. intros [= <- <-]. exists k', ch'. split_and!; [done| |apply (pass_drained _ _ _ _ _ _ _ _ E')].
    apply list_lookup_insert_eq. by eapply lookup_lt_Some.
  - rewrite lookup_insert_ne by done. intros Hc1. rewrite (Hother h' c1 id1), Hputo by done. by apply Hd.
  - by rewrite lookup_delete_eq.
  - rewrite lookup_delete_ne by done. intros Hc1. rewrite (Hother h' c1 id1), Hrem, Hputo by done. by apply Hd.
Qed.

Lemma service_all_drains dns ls hs st st' :
  acc_ok (K := K) (U := U) (E := E) dns ls st → NoDup hs → (∀ h, h ∈ hs → is_Some (conns st !! h)) →
  service_all (K := K) (U := U) hs st = Done st' →
  (∀ h, h ∈ hs → conn_drained st' h) ∧ ∀ h, h ∉ hs → conn_drained st h → conn_drained st' h.
Proof.
  revert st. induction hs as [|h hs IH]; intros st Hok Hnd Hin; cbn [service_all].
  { intros [= <-]. split; [|done]. by intros h []%not_elem_of_nil. }
  apply NoDup_cons in Hnd as [Hh Hnd].
  destruct (acc_ok_service_one dns ls h st Hok) as (st1 & E1 & Hok1 & _ & Hc1); [apply Hin; by left|].
  rewrite E1. intros E'. destruct (service_one_drains _ _ _ _ _ Hok E1) as [Hd Hkeep].
  destruct (IH st1 Hok1 Hnd) as [Hds Hkeeps]; [|done|].
  - intros h' Hh'. rewrite Hc1 by congruence. apply Hin. by right.
  - split.
    + intros h' [->|Hh']%elem_of_cons; [by apply Hkeeps|by apply Hds].
    + intros h' [Hne Hh']%not_elem_of_cons Hd'. apply Hkeeps; [done|]. by apply Hkeep.
Qed.

Lemma service_conns_drains dns st st' :
  acc_ok (K := K) (U := U) (E := E) dns (listeners st) st → service_conns (K := K) (U := U) st = Done st' →
  ∀ h, conn_drained st' h.
Proof.
  intros Hok E' h. destruct (service_all_drains dns (listeners st) (hash_keys (conns st)) st st' Hok) as [Hin Hout];
    [apply hash_keys_nodup|intros h'; apply hash_keys_elem|exact E'|].
  destruct (decide (h ∈ hash_keys (conns st))) as [Hh|Hh]; [by apply Hin|].
  apply Hout; [done|]. intros c id Hc. destruct Hh. apply hash_keys_elem. by exists (c, id).
Qed.

(** Every iteration of the loop leaves nothing behind: when the last poll of an
    iteration runs, every connection is drained. *)
Theorem tick_drains reads st st' :
  net_reachable (K := K) (U := U) (E := E) st → Forall (Forall byte_ok) (packets reads) →
  tick (K := K) (U := U) (E := E) reads st = Done st' →
  ∃ i inbox wanted dns acc, st' = poll (mkStack i inbox wanted dns (ensure_listeners wanted acc)) ∧
    ∀ h, conn_drained acc h.
Proof.
  intros Hok%net_reachable_ok Hb E'.
  destruct (tick_phases reads st Hb Hok) as (i & inbox & wanted & acc & acc' & Hok1 & Es & _ & _ & Et).
  exists i, inbox, wanted, (sk_dns st), acc'. split; [congruence|]. by eapply service_conns_drains.
Qed.
End loop.

(** ** Theorems *)

(** C15. The bridge delivers.  Once the child has stopped sending and goes on
    acknowledging what it gets ([quiet]), with the proxy holding its stream and
    reading what it is handed, the stack still having the sender to the proxy or
    nothing to send through it, and the socket's sending half open unless the
    stack has closed it: a bounded number of rounds (the network, a pass of
    [service_conns], the proxy's reads) brings to the proxy every byte the socket
    has received, and to the socket every byte the proxy has written, and, when
    the proxy has shut its half down, closes the socket's sending half, the socket
    no longer sending; nothing can stay stuck in the stash, in a full channel or
    in the socket's buffer, unless the socket itself reaches the closed state,
    when the connection is reaped. *)
Theorem bridge_delivers {K} `{TcpSockLive K} (k0 : K) (l : Link K) (c : NetConn) (net : K → K) (cap : nat) :
  link_reachable k0 l → lk_conn l = Some c →
  p_rx_open (lk_down l) = true → to_app c = true ∨ waiting (lk_sock l) = [] →
  may_send (lk_sock l) = negb (sent_fin c) →
  quiet net → (0 < cap)%nat →
  ∃ n l', (n ≤ 2 + length (waiting (lk_sock l)) + length (in_flight c (lk_up l)))%nat ∧
    rounds n net cap l = Done l' ∧ rtc link_step l l' ∧ lk_written l' = lk_written l ∧
    match lk_conn l' with
    | None => sock_state (lk_sock l') = ClosedState
    | Some c' =>
        recvd k0 ++ lk_delivered l' = recvd (lk_sock l) ++ waiting (lk_sock l) ∧
        waiting (lk_sock l') = [] ∧
        sent (lk_sock l') = sent k0 ++ lk_written l ∧
        (p_tx_open (lk_up l) = false → sent_fin c' = true ∧ may_send (lk_sock l') = false)
    end.
Proof.
  intros Hok%link_reachable_ok Hc Hrx Happ Hs Hnet Hcap.
  destruct (round_spec k0 net cap l c Hnet Hcap Hok Hc) as (l1 & E & Hst & Hw & Htx & Hl1);
    [by constructor; auto|].
  destruct (lk_conn l1) as [c1|] eqn:Ec1.
  2: { exists 1%nat, l1. cbn [rounds]. rewrite E, Ec1. split_and!; [lia|done..]. }
  destruct Hl1 as (Hg1 & Hq1 & Hu1 & Hdel & Hle & _).
  destruct (rounds_deliver k0 net cap l1 c1 Hnet Hcap) as (n & l' & Hn & E' & Hst' & Hw' & Htx' & Hl');
    [by eapply link_steps_ok|done..|].
  unfold todo in *. exists (S n), l'. cbn [rounds]. rewrite E.
  assert (rtc link_step l l') as Hsteps by (by transitivity l1).
  split_and!; [lia|done|done|congruence|]. destruct (lk_conn l') as [c'|] eqn:Ec'; [|done].
  destruct Hl' as [Hd' [Hf1 Hf2 Hf3 Hf4]]. pose proof (link_steps_ok _ _ _ Hok Hsteps) as Hok'.
  split_and!; [|done| |rewrite <- Htx, <- Htx'; exact Hf4].
  - rewrite Hd', Hu1, app_nil_l, Hdel, (lk_in _ _ Hok), <- !app_assoc. done.
  - pose proof (lk_out _ _ Hok') as Ho. rewrite Ec' in Ho. unfold in_flight in Ho.
    rewrite Hf2, Hf3, app_nil_r, Hw', Hw in Ho. done.
Qed.

#[export] Program Instance MemTcp_live : TcpSockLive MemSock := {| waiting := ms_rx |}.
Next Obligation. intros k. cbn. by rewrite negb_true_iff, bool_decide_eq_false. Qed.
Next Obligation. done. Qed.
Next Obligation.
  intros n k k' r [= <- <-] Hn Hc. cbn in Hc. rewrite negb_true_iff, bool_decide_eq_false in Hc.
  split_and!; [|done|done]. destruct n as [|n], (ms_rx k) as [|x rx] eqn:Erx; [lia..|done|].
  exists x, (take n rx). split; [done|]. cbn. by rewrite take_drop.
Qed.
Next Obligation.
  intros b k k' r E [Ho Hc%Nat.ltb_lt]%andb_prop. cbn in E. rewrite Ho in E. injection E as <- <-.
  split_and!; [done|done| |].
  - eexists. split_and!; [done| |].
    + intros Hlt. apply Nat.ltb_ge. cbn [ms_room]. lia.
    + destruct b; [done|]. cbn [length]. lia.
  - intros ->. apply Nat.ltb_lt. cbn [ms_room length]. lia.
Qed.
Next Obligation. done. Qed.
Next Obligation. done. Qed.
Next Obligation. done. Qed.

(** A network that makes room for five bytes at a time. *)
Definition five_at_a_time (k : MemSock) : MemSock :=
  mkSock (ms_sent k) (ms_recvd k) (ms_rx k) 5 (ms_state k) (ms_open k).

(** The demo link, once the proxy has shut its half down. *)
Definition demo_shut : Link MemSock :=
  mkLink (lk_sock demo_link) (lk_conn demo_link) (lk_down demo_link) (mkPipe [] false true)
    (mkStream (Some (lit "request", 4%nat)) false) (lit "requ") (lit "abcdefg").

Lemma demo_shut_reachable : link_reachable demo_sock demo_shut.
Proof. apply (link_next demo_sock demo_link); [exact demo_link_reachable|]. by apply step_shutdown. Qed.

Lemma bridge_delivers_witness :
  ∃ n l', (n ≤ 6)%nat ∧ rounds n five_at_a_time 4 demo_shut = Done l' ∧ rtc link_step demo_shut l' ∧
    lk_written l' = lit "abcdefg" ∧
    match lk_conn l' with
    | None => sock_state (lk_sock l') = ClosedState
    | Some c' =>
        [] ++ lk_delivered l' = lit "request" ∧ waiting (lk_sock l') = [] ∧
        sent (lk_sock l') = lit "abcdefg" ∧
        (false = false → sent_fin c' = true ∧ may_send (lk_sock l') = false)
    end.
Proof.
  destruct (bridge_delivers demo_sock demo_shut (mkConn true (Some (lit "defg")) false false true) five_at_a_time 4)
    as (n & l' & Hn & Hl').
  - exact demo_shut_reachable.
  - reflexivity.
  - reflexivity.
  - left. reflexivity.
  - reflexivity.
  - constructor; try reflexivity. intros k Hk. cbn in *. rewrite Hk. reflexivity.
  - lia.
  - exists n, l'. split; [exact Hn|exact Hl'].
Defined.

(** One round is enough there. *)
Lemma demo_link_delivered :
  match rounds 1 five_at_a_time 4 demo_shut with
  | Done l => (lk_delivered l, sent (lk_sock l)) = (lit "request", lit "abcdefg") ∧
              may_send (lk_sock l) = false ∧ is_Some (lk_conn l)
  | _ => False
  end.
Proof. vm_compute. split_and!; [done|done|by eexists]. Qed.

(** What the other case of [bridge_delivers] can cost: a socket that reaches the
    closed state while the channel to the proxy is full is reaped, and the proxy
    reads an end of the stream like any other after the chunks in the channel. *)
Example reaped_with_bytes_waiting :
  let full := mkPipe (replicate CHAN_CAP (lit "chunk")) true true in
  let sock := mkSock [] [] (lit "rest") 8 ClosedState true in
  ∃ k d u, service_conn sock NetConn_new full Pipe_new = Some (k, None, d, u) ∧ waiting k = lit "rest" ∧
    (∃ s b, proxy_reads 80 8 Stream_new d = Done (s, mkPipe [] false true, b) ∧ length b = 80%nat ∧
            poll_read 8 s (mkPipe [] false true) = (s, mkPipe [] false true, Ready [])).
Proof. do 3 eexists. split_and!; [vm_compute; reflexivity|reflexivity|]. do 2 eexists. by split_and!. Qed.
