(* ===== verification/Cert.v ===== *)
(** * The certificates shown to the child ([src/mitm/cert.rs])

    [rcgen] and [rustls] are the class [Rcgen]; the random keys are drawn from a
    sequence, the state counting the draws. *)

From S2P Require Import Prelude Eff.

(** ** Definitions *)

(** [rcgen::KeyUsagePurpose], those the CA is given *)
Inductive KeyUsagePurpose : Type := KeyCertSign | CrlSign | DigitalSignature.

Class Rcgen (Key Cert Params Signing : Type) : Type := {
  generate : nat → option Key;                         (** the n-th [KeyPair::generate] *)
  params_new : list str → option Params;               (** [CertificateParams::new] *)
  push_common_name : str → Params → Params;
  set_unconstrained_ca : Params → Params;              (** [is_ca = Ca(Unconstrained)] *)
  set_key_usages : list KeyUsagePurpose → Params → Params;
  self_signed : Params → Key → option Cert;
  cert_pem : Cert → str;
  signed_by : Params → Key → Cert → Key → option Cert; (** subject key, issuer, issuer key *)
  cert_der : Cert → bytes;
  key_der : Key → bytes;
  any_supported_type : bytes → option Signing;         (** from a PKCS #8 key *)
}.

Inductive CertError : Type := GenerateError | ParamsError | SignError | KeyError.

Record CertifiedKey (Signing : Type) : Type := mkCertified { chain : list bytes; signing_key : Signing }.
Arguments mkCertified {Signing} _ _.
Arguments chain {Signing} _.
Arguments signing_key {Signing} _.

Record CertMinter (Key Cert Signing : Type) : Type := mkMinter {
  ca_cert : Cert;
  ca_key : Key;
  cache : gmap str (CertifiedKey Signing);
  draws : nat;
}.
Arguments mkMinter {Key Cert Signing} _ _ _ _.
Arguments ca_cert {Key Cert Signing} _.
Arguments ca_key {Key Cert Signing} _.
Arguments cache {Key Cert Signing} _.
Arguments draws {Key Cert Signing} _.

Section cert.
Context {Key Cert Params Signing : Type} `{Rcgen Key Cert Params Signing}.

Abbreviation Minter := (CertMinter Key Cert Signing) (only parsing).

Definition CA_COMMON_NAME : str := lit "airgap MitM CA".

(** The parameters of the CA: unconstrained, for signing certificates. *)
Definition ca_params (params : Params) : Params :=
  push_common_name CA_COMMON_NAME
    (set_key_usages [KeyCertSign; CrlSign; DigitalSignature] (set_unconstrained_ca params)).

(** [build_cert_minter], with the [n]-th key drawn: the CA's PEM and a minter
    with nothing in its cache. *)
Definition build_cert_minter (n : nat) : result (str * CertMinter Key Cert Signing) CertError :=
  match generate n with
  | None => Err GenerateError
  | Some key =>
      match params_new [] with
      | None => Err ParamsError
      | Some params =>
          match self_signed (ca_params params) key with
          | None => Err SignError
          | Some cert => Ok (cert_pem cert, mkMinter cert key ∅ (S n))
          end
      end
  end.

(** Steps of [mint] that may fail; none touches the cache. *)
Definition fallible {A} (o : option A) (e : CertError)
    : M (CertMinter Key Cert Signing) (result A CertError) := ret (ok_or o e).

(** [KeyPair::generate] *)
Definition draw : M (CertMinter Key Cert Signing) (result Key CertError) := λ m,
  Done (ok_or (generate (draws m)) GenerateError, mkMinter (ca_cert m) (ca_key m) (cache m) (S (draws m))).

Definition try_cert {A B} (m : M (CertMinter Key Cert Signing) (result A CertError))
    (k : A → M (CertMinter Key Cert Signing) (result B CertError))
    : M (CertMinter Key Cert Signing) (result B CertError) :=
  bind m (λ r, match r with Ok a => k a | Err e => ret (Err e) end).

Definition COMMON_NAME : str := lit "airgap self signed cert".

Definition mint (sni : str) : M (CertMinter Key Cert Signing) (result (CertifiedKey Signing) CertError) :=
  let! minter := get in
  match cache minter !! sni with
  | Some ck => ret (Ok ck)
  | None =>
      try_cert draw (λ leaf_key,
      try_cert (fallible (params_new [sni]) ParamsError) (λ params,
      let params := push_common_name COMMON_NAME params in
      try_cert (fallible (signed_by params leaf_key (ca_cert minter) (ca_key minter)) SignError) (λ leaf,
      try_cert (fallible (any_supported_type (key_der leaf_key)) KeyError) (λ signing_key,
      let ck := mkCertified [cert_der leaf; cert_der (ca_cert minter)] signing_key in
      let! _ := modify (λ m, mkMinter (ca_cert m) (ca_key m) (<[sni := ck]> (cache m)) (draws m)) in
      ret (Ok ck)))))
  end.

(** [ResolvesServerCert::resolve]; the argument is [client_hello.server_name()]. *)
Definition resolve (sni : option str) : M (CertMinter Key Cert Signing) (option (CertifiedKey Signing)) :=
  match sni with
  | None => ret None
  | Some sni => let! r := mint sni in ret (match r with Ok ck => Some ck | Err _ => None end)
  end.

(** ** Specification *)

(** The handshakes of a run, one after the other. *)
Fixpoint resolve_all (snis : list (option str))
    : M (CertMinter Key Cert Signing) (list (option (CertifiedKey Signing))) :=
  match snis with
  | [] => ret []
  | sni :: snis' => let! a := resolve sni in let! answers := resolve_all snis' in ret (a :: answers)
  end.

(** A leaf for exactly this name, signed by the CA, with the CA behind it. *)
Definition issued_for (c : Cert) (k : Key) (sni : str) (ck : CertifiedKey Signing) : Prop :=
  ∃ leaf_key params leaf,
    params_new [sni] = Some params ∧
    signed_by (push_common_name COMMON_NAME params) leaf_key c k = Some leaf ∧
    any_supported_type (key_der leaf_key) = Some (signing_key ck) ∧
    chain ck = [cert_der leaf; cert_der c].

(** Every cached certificate is for the name it is cached under. *)
Definition cache_ok (m : CertMinter Key Cert Signing) : Prop :=
  ∀ sni ck, cache m !! sni = Some ck → issued_for (ca_cert m) (ca_key m) sni ck.

(** ** Lemmas *)

(** What a step of the minter leaves in place. *)
Definition extends (m m' : CertMinter Key Cert Signing) : Prop :=
  ca_cert m' = ca_cert m ∧ ca_key m' = ca_key m ∧ cache m ⊆ cache m' ∧ (cache_ok m → cache_ok m').

#[global] Instance extends_preorder : PreOrder extends.
Proof.
  split; [by intros m|]. intros m1 m2 m3 (? & ? & ? & ?) (? & ? & ? & ?).
  split_and!; [congruence|congruence|by etrans|auto].
Qed.

Lemma mint_spec sni m :
  ∃ r m', mint sni m = Done (r, m') ∧ extends m m' ∧ ∀ ck, r = Ok ck → cache m' !! sni = Some ck.
Proof.
  unfold mint, draw, fallible, try_cert, get, modify, bind, ret.
  destruct (cache m !! sni) as [ck|] eqn:Ec.
  { do 2 eexists. split_and!; [done|reflexivity|]. by intros ? [= <-]. }
  set (m1 := mkMinter (ca_cert m) (ca_key m) (cache m) (S (draws m))).
  assert (extends m m1) as Hm1 by by split_and!.
  destruct (generate (draws m)) as [leaf_key|]; [|by do 2 eexists]. cbn.
  destruct (params_new [sni]) as [params|] eqn:Ep; [|by do 2 eexists]. cbn.
  destruct (signed_by _ _ _ _) as [leaf|] eqn:El; [|by do 2 eexists]. cbn.
  destruct (any_supported_type _) as [sk|] eqn:Ek; [|by do 2 eexists]. cbn.
  do 2 eexists. split_and!; [done| |].
  - split_and!; [done|done|by apply insert_subseteq|]. intros Hok sni' ck. cbn.
    destruct (decide (sni' = sni)) as [->|Hne]; [rewrite lookup_insert_eq|rewrite lookup_insert_ne by done].
    + intros [= <-]. by exists leaf_key, params, leaf.
    + apply Hok.
  - cbn. intros ck [= <-]. apply lookup_insert_eq.
Qed.

Lemma resolve_spec sni m :
  ∃ a m', resolve sni m = Done (a, m') ∧ extends m m' ∧
    ∀ ck, a = Some ck → ∃ s, sni = Some s ∧ cache m' !! s = Some ck.
Proof.
  destruct sni as [s|]; [|by do 2 eexists]. destruct (mint_spec s m) as (r & m' & E & Hx & Hr).
  unfold resolve, bind, ret. rewrite E. do 2 eexists. split_and!; [done|done|].
  intros ck Hck. exists s. split; [done|]. apply Hr. destruct r; [by injection Hck as ->|done].
Qed.

Lemma resolve_cached s m ck : cache m !! s = Some ck → resolve (Some s) m = Done (Some ck, m).
Proof. intros E. unfold resolve, mint, get, bind, ret. by rewrite E. Qed.

Lemma resolve_all_spec snis m :
  ∃ answers m', resolve_all snis m = Done (answers, m') ∧ extends m m' ∧
    (∀ i ck, answers !! i = Some (Some ck) → ∃ s, snis !! i = Some (Some s) ∧ cache m' !! s = Some ck) ∧
    (∀ i s ck, cache m !! s = Some ck → snis !! i = Some (Some s) → answers !! i = Some (Some ck)).
Proof.
  revert m. induction snis as [|sni snis IH]; intros m; [by exists [], m|].
  destruct (resolve_spec sni m) as (a & m1 & E1 & Hx1 & Ha).
  destruct (IH m1) as (answers & m2 & E2 & Hx2 & Hs2 & Hc2).
  cbn [resolve_all]. unfold bind, ret. rewrite E1, E2. do 2 eexists. split_and!; [done|by etrans| |].
  - intros [|i] ck; cbn; [|apply Hs2]. intros [= ->]. destruct (Ha ck eq_refl) as (s & -> & Hs).
    exists s. split; [done|]. destruct Hx2 as (_ & _ & Hsub & _). by eapply lookup_weaken.
  - intros [|i] s ck Hs; cbn.
    + intros [= ->]. rewrite (resolve_cached _ _ _ Hs) in E1. by injection E1 as <- _.
    + apply Hc2. destruct Hx1 as (_ & _ & Hsub & _). by eapply lookup_weaken.
Qed.

(** A name answered once is answered the same ever after. *)
Lemma resolve_all_stable snis m i j s a :
  ∀ answers m', resolve_all snis m = Done (answers, m') → (i ≤ j)%nat →
  snis !! i = Some (Some s) → snis !! j = Some (Some s) →
  answers !! i = Some (Some a) → answers !! j = Some (Some a).
Proof.
  revert m i j. induction snis as [|sni snis IH]; intros m i j answers m' E Hij Hi Hj Ha; [done|].
  destruct (resolve_spec sni m) as (b & m1 & E1 & _ & Hb).
  destruct (resolve_all_spec snis m1) as (rest & m2 & E2 & _ & _ & Hc).
  cbn [resolve_all] in E. unfold bind, ret in E. rewrite E1, E2 in E. injection E as <- <-.
  destruct i as [|i], j as [|j]; cbn in *; [done| |lia|].
  - injection Hi as ->. injection Ha as ->. destruct (Hb a eq_refl) as (s' & [= <-] & Hs).
    by eapply Hc.
  - eapply (IH m1 i j); try done. lia.
Qed.

(** ** Theorems *)

(** C40. One certificate per name, under the CA the child is told to trust: over
    any sequence of handshakes with a freshly built minter, the resolver always
    answers; a handshake without a name gets nothing; whatever certificate is
    shown for a name is a leaf for exactly that name, signed by the CA and followed
    by it, and the PEM given to the child is this CA's, a self-signed certificate
    for signing; and once a name has been answered, the same certificate is shown
    for it ever after. *)
Theorem one_certificate_per_name n pem (m : CertMinter Key Cert Signing) (snis : list (option str)) :
  build_cert_minter n = Ok (pem, m) →
  (∃ params, params_new [] = Some params ∧ self_signed (ca_params params) (ca_key m) = Some (ca_cert m) ∧
             pem = cert_pem (ca_cert m)) ∧
  ∃ answers m', resolve_all snis m = Done (answers, m') ∧ ca_cert m' = ca_cert m ∧
    (∀ i ck, answers !! i = Some (Some ck) →
       ∃ s, snis !! i = Some (Some s) ∧ issued_for (ca_cert m) (ca_key m) s ck) ∧
    (∀ i j s ck, (i ≤ j)%nat → snis !! i = Some (Some s) → snis !! j = Some (Some s) →
       answers !! i = Some (Some ck) → answers !! j = Some (Some ck)).
Proof.
  unfold build_cert_minter. destruct (generate n) as [key|]; [|done].
  destruct (params_new []) as [params|] eqn:Ep; [|done].
  destruct (self_signed (ca_params params) key) as [cert|] eqn:Es; [|done].
  intros [= <- <-]. set (m := mkMinter cert key ∅ (S n)). split; [by exists params|].
  assert (cache_ok m) as Hok by (intros sni ck; cbn; by rewrite lookup_empty).
  destruct (resolve_all_spec snis m) as (answers & m' & E & (Hcc & Hck & _ & Hok') & Hs & _).
  exists answers, m'. split_and!; [done|done| |].
  - intros i ck Hi. destruct (Hs i ck Hi) as (s & Hsni & Hc). exists s. split; [done|].
    rewrite <- Hcc, <- Hck. by apply (Hok' Hok).
  - intros i j s ck Hij Hi Hj Ha. by apply (resolve_all_stable snis m i j s ck answers m').
Qed.
End cert.

(** ** The upstream leg *)

(** [RootCertStore] and the host's certificates. *)
Class Roots (R D : Type) : Type := {
  roots_empty : R;
  roots_add : D → R → R * result unit unit;
  native_certs : list D;  (** [rustls_native_certs::load_native_certs().certs] *)
}.

Class RootsSpec (R D : Type) `{Roots R D} : Type := {
  trusted : R → list D;
  trusted_empty : trusted roots_empty = [];
  trusted_add d r r' a :
    roots_add d r = (r', a) → trusted r' = trusted r ++ match a with Ok _ => [d] | Err _ => [] end;
}.

(** [ClientConfig]: the roots servers are checked against, and whether we
    authenticate ourselves. *)
Record ClientConfig (R : Type) : Type := mkClientConfig { root_certificates : R; client_auth : bool }.
Arguments mkClientConfig {R} _ _.
Arguments root_certificates {R} _.

Definition build_upstream_client_config {R D} `{Roots R D} : ClientConfig R :=
  mkClientConfig (foldl (λ roots cert, fst (roots_add cert roots)) roots_empty native_certs) false.

(** Servers are checked against the host's own roots and nothing else, the
    interception's CA in particular. *)
Lemma upstream_trusts_native_only {R D} `{RootsSpec R D} :
  trusted (root_certificates build_upstream_client_config) `sublist_of` native_certs.
Proof.
  cbn. assert (∀ ds r, ∃ ext, trusted (foldl (λ roots cert, fst (roots_add cert roots)) r ds) = trusted r ++ ext ∧
                              ext `sublist_of` ds) as Hall.
  { induction ds as [|d ds IH]; intros r; cbn; [by exists []; rewrite app_nil_r|].
    destruct (roots_add d r) as [r' a] eqn:E. cbn. destruct (IH r') as (ext & -> & Hs).
    rewrite (trusted_add _ _ _ _ E), <- app_assoc. eexists. split; [done|].
    destruct a; [by apply sublist_skip|by apply sublist_cons]. }
  destruct (Hall native_certs roots_empty) as (ext & -> & Hs). by rewrite trusted_empty.
Qed.

(** A toy authority: keys are numbers, a certificate is its key and its names. *)
#[local] Instance toy_rcgen : Rcgen Z (Z * list str) (list str) Z := {|
  generate n := Some (Z.of_nat n);
  params_new names := if bool_decide (names = [[]]) then None else Some names;
  push_common_name name params := name :: params;
  set_unconstrained_ca params := params;
  set_key_usages _ params := params;
  self_signed params key := Some (key, params);
  cert_pem c := concat (snd c);
  signed_by params key _ _ := Some (key, params);
  cert_der c := fst c :: concat (snd c);
  key_der k := [k];
  any_supported_type der := head der;
|}.

Definition toy_names : list (option str) := [Some (lit "a.com"); None; Some (lit "b.com"); Some (lit "a.com")].

Definition toy_minter : CertMinter Z (Z * list str) Z := mkMinter (0, [CA_COMMON_NAME]) 0 ∅ 1.

Lemma one_certificate_per_name_witness :
  ∃ answers m', resolve_all toy_names toy_minter = Done (answers, m') ∧ ca_cert m' = ca_cert toy_minter ∧
    (∀ i ck, answers !! i = Some (Some ck) →
       ∃ s, toy_names !! i = Some (Some s) ∧ issued_for (ca_cert toy_minter) (ca_key toy_minter) s ck) ∧
    (∀ i j s ck, (i ≤ j)%nat → toy_names !! i = Some (Some s) → toy_names !! j = Some (Some s) →
       answers !! i = Some (Some ck) → answers !! j = Some (Some ck)).
Proof. apply (one_certificate_per_name 0 CA_COMMON_NAME toy_minter toy_names). reflexivity. Defined.
