(* ===== verification/Mitm.v ===== *)
(** * The lifecycle of the network interception ([src/mitm.rs], with the netns
    side of [src/mitm/stack.rs] and [src/mitm/netns.rs])

    Setup writes the artifacts the child is pointed at, the netstack thread
    builds the child's network, a [pre_exec] hook makes the child join it.  As in
    the launcher, what is done is a log of events, and [MitmHost] holds what the
    system and the crates answer. *)

From stdpp Require Import pretty.
From S2P Require Import Prelude Eff Paths Dns Proxy.

(** ** Definitions *)

Definition SYSTEM_CA_BUNDLE : path := lit "/etc/ssl/certs/ca-certificates.crt".
Definition TUN_NAME : str := lit "airgap0".
Definition CHILD_IP : bytes := [10; 0; 0; 2].
Definition CHILD_IP6 : bytes := [253; 0; 0; 0; 0; 0; 0; 0; 0; 0; 0; 0; 0; 0; 0; 2].

Definition decimal (n : Z) : str := lit (pretty n).

(** [Display] of an [Ipv4Addr]. *)
Definition dotted (ip : bytes) : str := join_with DOT (map decimal ip).

Inductive MitmEv : Type :=
| EvReadConfig (p : path)
| EvRemoveDir (d : path)
| EvCreateDir (d : path)
| EvChmod (d : path) (mode : Z)
| EvWritePrivate (p : path) (data : bytes)
| EvEnterNetns
| EvCreateTun (name : str)
| EvOpenNetns
| EvLinkUp (name : str)
| EvAddAddress (ip : bytes) (prefix_len : Z)
| EvDisableDad
| EvDefaultRoute (v6 : bool)
| EvStackNew
| EvProxyThread
| EvSetns (fd : Z)
| EvUnshareChildMounts
| EvBindResolv (src : path).

Inductive MitmError : Type :=
| ConfigUnreadable
| ConfigMalformed
| CaError
| ClientConfigError
| TmpDirError
| WriteError (p : path)
| ThreadError
| NetnsError
| TunError
| RuntimeError
| InterfaceError
| StackError
| NetnsNotSetUp
| SetnsError
| UnshareError.

Record MitmHost : Type := mkMitmHost {
  read_to_string : path → option str;
  parse_config : str → option Config;        (** [serde_yaml_ng::from_str] *)
  ca_pem : option bytes;                     (** [cert::build_cert_minter] *)
  client_config : bool;                      (** [cert::build_upstream_client_config] *)
  temp_dir : path;
  pid : Z;
  system_roots : option bytes;               (** [std::fs::read(SYSTEM_CA_BUNDLE)] *)
  create_dir : path → bool;
  set_permissions : path → bool;
  create_new : path → bool;                  (** exclusive create and [write_all] *)
  netstack_spawn : bool;
  enter_netns : bool;
  create_tun : bool;
  open_netns : option Z;
  tokio_runtime : bool;
  rtnetlink : bool;                          (** the connection, and the TUN's index *)
  lo_index : bool;
  link_up : bool;
  add_address : bytes → bool;
  stack_new : bool;
  proxy_spawn : bool;
  child_setns : bool;
  child_unshare : bool;
}.

Record Mitm : Type := mkMitm {
  m_config : Config;
  m_ca_path : path;
  m_ca_bundle_path : path;
  m_resolv_path : path;
  m_tmp_dir : path;
  netns_fd : option Z;
  new_conn_tx : bool;  (** still there: [start_netstack] has not taken it *)
  new_conn_rx : bool;
}.

Abbreviation ML A := (M (list MitmEv) (result A MitmError)) (only parsing).

Definition ensure (b : bool) (e : MitmError) : result unit MitmError := if b then Ok tt else Err e.

(** The augmented bundle: the system's roots, a line end if they lack one, ours. *)
Definition ca_bundle (system ca : bytes) : bytes :=
  (if negb (bool_decide (system = [])) && negb (ends_with system [LF])
   then system ++ [LF] else system) ++ ca.

Definition resolv_conf : bytes := lit "nameserver " ++ dotted STACK_IP ++ [LF].

Section mitm.
Context (host : MitmHost).

Definition Config_load (p : path) : M (list MitmEv) (result Config MitmError) :=
  try_x (act (EvReadConfig p) (ok_or (read_to_string host p) ConfigUnreadable)) (λ text,
  ret (ok_or (parse_config host text) ConfigMalformed)).

Definition private_dir : path := push (temp_dir host) (lit "airgap-mitm-" ++ decimal (pid host)).

(** A stale directory is removed first, whatever becomes of that. *)
Definition create_private_dir : M (list MitmEv) (result path MitmError) :=
  let dir := private_dir in
  let! _ := emit (EvRemoveDir dir) in
  try_x (act (EvCreateDir dir) (ensure (create_dir host dir) TmpDirError)) (λ _,
  try_x (act (EvChmod dir 448) (ensure (set_permissions host dir) TmpDirError)) (λ _,
  ret (Ok dir))).

Definition write_private_file (p : path) (data : bytes) : M (list MitmEv) (result unit MitmError) :=
  act (EvWritePrivate p data) (ensure (create_new host p) (WriteError p)).

Definition setup (config_path : path) : M (list MitmEv) (result Mitm MitmError) :=
  try_x (Config_load config_path) (λ config,
  try_x (ret (ok_or (ca_pem host) CaError)) (λ ca,
  try_x (ret (ensure (client_config host) ClientConfigError)) (λ _,
  try_x create_private_dir (λ tmp_dir,
  let ca_path := push tmp_dir (lit "ca.pem") in
  try_x (write_private_file ca_path ca) (λ _,
  let bundle_path := push tmp_dir (lit "ca-bundle.crt") in
  try_x (write_private_file bundle_path (ca_bundle (default [] (system_roots host)) ca)) (λ _,
  let resolv_path := push tmp_dir (lit "resolv.conf") in
  try_x (write_private_file resolv_path resolv_conf) (λ _,
  ret (Ok (mkMitm config ca_path bundle_path resolv_path tmp_dir None true true))))))))).

(** Configuring the TUN; loopback, address detection and routes are best effort. *)
Definition configure_interface : M (list MitmEv) (result unit MitmError) :=
  try_x (ret (ensure (rtnetlink host) InterfaceError)) (λ _,
  let! _ := (if lo_index host then emit (EvLinkUp (lit "lo")) else ret tt) in
  try_x (act (EvLinkUp TUN_NAME) (ensure (link_up host) InterfaceError)) (λ _,
  try_x (act (EvAddAddress CHILD_IP PREFIX_LEN) (ensure (add_address host CHILD_IP) InterfaceError)) (λ _,
  let! _ := emit EvDisableDad in
  try_x (act (EvAddAddress CHILD_IP6 PREFIX_LEN6) (ensure (add_address host CHILD_IP6) InterfaceError)) (λ _,
  let! _ := emit (EvDefaultRoute false) in
  let! _ := emit (EvDefaultRoute true) in
  ret (Ok tt))))).

(** The thread's own network namespace ([src/mitm/netns.rs]). *)
Definition enter_new_netns : M (list MitmEv) (result unit MitmError) :=
  act EvEnterNetns (ensure (enter_netns host) NetnsError).
Definition open_thread_netns : M (list MitmEv) (result Z MitmError) :=
  act EvOpenNetns (ok_or (open_netns host) NetnsError).

(** The netstack thread, up to its readiness signal. *)
Definition netstack_thread : M (list MitmEv) (result Z MitmError) :=
  try_x enter_new_netns (λ _,
  try_x (act (EvCreateTun TUN_NAME) (ensure (create_tun host) TunError)) (λ _,
  try_x open_thread_netns (λ fd,
  try_x (ret (ensure (tokio_runtime host) RuntimeError)) (λ _,
  try_x configure_interface (λ _,
  try_x (act EvStackNew (ensure (stack_new host) StackError)) (λ _,
  ret (Ok fd))))))).

(** [expect("start_netstack called once")] *)
Definition start_netstack (m : Mitm) : M (list MitmEv) (result Mitm MitmError) :=
  if new_conn_tx m then
    try_x (ret (ensure (netstack_spawn host) ThreadError)) (λ _,
    try_x netstack_thread (λ fd,
    ret (Ok (mkMitm (m_config m) (m_ca_path m) (m_ca_bundle_path m) (m_resolv_path m) (m_tmp_dir m)
               (Some fd) false (new_conn_rx m)))))
  else panic.

(** [expect("start_proxy called once")] *)
Definition start_proxy (m : Mitm) : M (list MitmEv) (result Mitm MitmError) :=
  if new_conn_rx m then
    act EvProxyThread
      (if proxy_spawn host
       then Ok (mkMitm (m_config m) (m_ca_path m) (m_ca_bundle_path m) (m_resolv_path m) (m_tmp_dir m)
                  (netns_fd m) (new_conn_tx m) false)
       else Err ThreadError)
  else panic.

(** [child_setup_hook] and the closure it returns, which runs in the child
    between [fork] and [exec]; a failed closure is a failed spawn. *)
Definition child_setup_hook (m : Mitm) : result (M (list MitmEv) (result unit MitmError)) MitmError :=
  match netns_fd m with
  | None => Err NetnsNotSetUp
  | Some fd => Ok (
      try_x (act (EvSetns fd) (ensure (child_setns host) SetnsError)) (λ _,
      try_x (act EvUnshareChildMounts (ensure (child_unshare host) UnshareError)) (λ _,
      let! _ := emit (EvBindResolv (m_resolv_path m)) in
      ret (Ok tt))))
  end.

(** [Drop for Mitm] *)
Definition Mitm_drop (m : Mitm) : M (list MitmEv) unit := emit (EvRemoveDir (m_tmp_dir m)).
End mitm.

(** ** Specification *)

Section spec.
Context (host : MitmHost).

(** The step succeeded; nothing is asked of the best-effort ones. *)
Definition ok_mitm (e : MitmEv) : Prop :=
  match e with
  | EvReadConfig p => is_Some (read_to_string host p)
  | EvCreateDir d => create_dir host d = true
  | EvChmod d _ => set_permissions host d = true
  | EvWritePrivate p _ => create_new host p = true
  | EvEnterNetns => enter_netns host = true
  | EvCreateTun _ => create_tun host = true
  | EvOpenNetns => is_Some (open_netns host)
  | EvLinkUp name => name = TUN_NAME → link_up host = true
  | EvAddAddress ip _ => add_address host ip = true
  | EvStackNew => stack_new host = true
  | EvProxyThread => proxy_spawn host = true
  | EvSetns fd => open_netns host = Some fd ∧ child_setns host = true
  | EvUnshareChildMounts => child_unshare host = true
  | EvRemoveDir _ | EvDisableDad | EvDefaultRoute _ | EvBindResolv _ => True
  end.

Definition ca : bytes := default [] (ca_pem host).

Definition artifact_log (config_path : path) : list MitmEv :=
  let dir := private_dir host in
  [EvReadConfig config_path; EvRemoveDir dir; EvCreateDir dir; EvChmod dir 448;
   EvWritePrivate (push dir (lit "ca.pem")) ca;
   EvWritePrivate (push dir (lit "ca-bundle.crt")) (ca_bundle (default [] (system_roots host)) ca);
   EvWritePrivate (push dir (lit "resolv.conf")) resolv_conf].

(** What [setup] returns when it succeeds. *)
Definition fresh_mitm (config_path : path) (m : Mitm) : Prop :=
  let dir := private_dir host in
  (∃ text, read_to_string host config_path = Some text ∧ parse_config host text = Some (m_config m)) ∧
  m_ca_path m = push dir (lit "ca.pem") ∧ m_ca_bundle_path m = push dir (lit "ca-bundle.crt") ∧
  m_resolv_path m = push dir (lit "resolv.conf") ∧ m_tmp_dir m = dir ∧
  netns_fd m = None ∧ new_conn_tx m = true ∧ new_conn_rx m = true.

Definition interface_log : list MitmEv :=
  (if lo_index host then [EvLinkUp (lit "lo")] else []) ++
  [EvLinkUp TUN_NAME; EvAddAddress CHILD_IP PREFIX_LEN; EvDisableDad;
   EvAddAddress CHILD_IP6 PREFIX_LEN6; EvDefaultRoute false; EvDefaultRoute true].

(** The child's network: its own namespace, the TUN in it, then the stack. *)
Definition netstack_log : list MitmEv :=
  [EvEnterNetns; EvCreateTun TUN_NAME; EvOpenNetns] ++ interface_log ++ [EvStackNew].

Definition hook_log (resolv : path) : list MitmEv :=
  [EvSetns (default 0 (open_netns host)); EvUnshareChildMounts; EvBindResolv resolv].

(** ** Lemmas *)

Abbreviation tr := (traces ok_mitm).

Lemma ensure_Ok b e a : ensure b e = Ok a → b = true.
Proof. by destruct b. Qed.

Lemma traces_ensure {B} e b err (k : unit → M (list MitmEv) (result B MitmError)) f :
  (b = true → ok_mitm e) → tr (k tt) f → tr (try_x (act e (ensure b err)) k) (e :: f).
Proof. intros He Hk. apply traces_step; [|by intros []]. intros a Ha. by apply He, (ensure_Ok b err a). Qed.

Lemma traces_ok_or {A B} e (o : option A) err (k : A → M (list MitmEv) (result B MitmError)) f :
  (is_Some o → ok_mitm e) → (∀ a, o = Some a → tr (k a) f) → tr (try_x (act e (ok_or o err)) k) (e :: f).
Proof.
  intros He Hk. apply (traces_try_eq _ _ _ [e] f).
  - apply traces_act. intros a Ha. apply He. destruct o; [eauto|done].
  - intros log a log' Ha. apply Hk. destruct o; [by injection Ha as ->|done].
Qed.

Lemma traces_setup config_path : tr (setup host config_path) (artifact_log config_path).
Proof.
  unfold setup, artifact_log, Config_load. rewrite <- (app_nil_r [_; _; _; _; _; _; _]).
  apply (traces_try _ _ _ [_] ([_; _; _; _; _; _] ++ [])); [|intros config].
  { apply (traces_ok_or _ _ _ _ []); [done|]. intros text _. apply traces_ret. }
  apply traces_pure. intros pem Hca.
  assert (pem = ca) as -> by (unfold ca; destruct (ca_pem host); [by injection Hca|done]).
  apply traces_pure. intros _ _.
  apply (traces_try_eq _ _ _ [_; _; _] ([_; _; _] ++ [])).
  { unfold create_private_dir. apply traces_emit; [done|].
    do 2 (apply traces_ensure; [done|]). apply traces_ret. }
  intros log dir log' Hd.
  assert (dir = private_dir host) as ->.
  { revert Hd. unfold create_private_dir, bind, emit, modify, try_x, act, ret, bind, ensure.
    destruct (create_dir host _); [|done]. destruct (set_permissions host _); [|done]. by intros [= ->]. }
  cbn [app]. do 3 (apply traces_ensure; [done|]). apply traces_ret.
Qed.

Lemma setup_fresh config_path m log log' :
  setup host config_path log = Done (Ok m, log') → fresh_mitm config_path m.
Proof.
  unfold setup, Config_load, create_private_dir, write_private_file, try_x, act, bind, emit, modify, ret.
  destruct (read_to_string host config_path) as [text|] eqn:Et; [|done]. cbn.
  destruct (parse_config host text) as [config|] eqn:Ec; [|done]. cbn.
  destruct (ca_pem host); [|done]. cbn. destruct (client_config host); [|done]. cbn.
  destruct (create_dir host _); [|done]. cbn. destruct (set_permissions host _); [|done]. cbn.
  do 3 (destruct (create_new host _); [|done]; cbn). intros [= <- _].
  unfold fresh_mitm. cbn. split_and!; eauto.
Qed.

Lemma traces_netstack : tr (netstack_thread host) netstack_log.
Proof.
  unfold netstack_thread, netstack_log. cbn [app].
  do 2 (apply traces_ensure; [done|]). apply traces_ok_or; [done|]. intros fd _.
  apply traces_pure. intros _ _. apply traces_try; [|intros []].
  - unfold configure_interface, interface_log. apply traces_pure. intros _ _.
    assert (tr (try_x (act (EvLinkUp TUN_NAME) (ensure (link_up host) InterfaceError)) (λ _,
      try_x (act (EvAddAddress CHILD_IP PREFIX_LEN) (ensure (add_address host CHILD_IP) InterfaceError)) (λ _,
      let! _ := emit EvDisableDad in
      try_x (act (EvAddAddress CHILD_IP6 PREFIX_LEN6) (ensure (add_address host CHILD_IP6) InterfaceError)) (λ _,
      let! _ := emit (EvDefaultRoute false) in
      let! _ := emit (EvDefaultRoute true) in
      ret (Ok tt)))))
      [EvLinkUp TUN_NAME; EvAddAddress CHILD_IP PREFIX_LEN; EvDisableDad;
       EvAddAddress CHILD_IP6 PREFIX_LEN6; EvDefaultRoute false; EvDefaultRoute true]) as Ht.
    { apply traces_ensure; [intros E _; exact E|]. apply traces_ensure; [done|]. apply traces_emit; [done|].
      apply traces_ensure; [done|]. do 2 (apply traces_emit; [done|]). apply traces_ret. }
    destruct (lo_index host); [|exact Ht]. apply traces_emit; [done|exact Ht].
  - apply traces_ensure; [done|]. apply traces_ret.
Qed.

(** The child's namespace is known afterwards; the rest is as it was. *)
Lemma start_netstack_post m m' log log' :
  start_netstack host m log = Done (Ok m', log') →
  netns_fd m' = open_netns host ∧ is_Some (open_netns host) ∧
  m_ca_path m' = m_ca_path m ∧ m_ca_bundle_path m' = m_ca_bundle_path m ∧
  m_resolv_path m' = m_resolv_path m ∧ new_conn_rx m' = new_conn_rx m.
Proof.
  unfold start_netstack, netstack_thread. generalize (configure_interface host). intros configure.
  unfold try_x, act, bind, emit, modify, ret. destruct (new_conn_tx m); [|done]. destruct (netstack_spawn host); [|done]. cbn.
  destruct (enter_netns host); [|done]. cbn. destruct (create_tun host); [|done]. cbn.
  destruct (open_netns host) as [fd|]; [|done]. cbn. destruct (tokio_runtime host); [|done]. cbn.
  destruct (configure _) as [[[[]|] l]| |]; [|done..]. cbn.
  destruct (stack_new host); [|done]. cbn. intros [= <- _]. cbn. split_and!; eauto.
Qed.

Lemma start_proxy_post m m' log log' :
  start_proxy host m log = Done (Ok m', log') →
  netns_fd m' = netns_fd m ∧ m_ca_path m' = m_ca_path m ∧
  m_ca_bundle_path m' = m_ca_bundle_path m ∧ m_resolv_path m' = m_resolv_path m.
Proof.
  unfold start_proxy, act, bind, emit, modify, ret.
  destruct (new_conn_rx m); [|done]. destruct (proxy_spawn host); [|done]. by intros [= <- _].
Qed.

Lemma traces_start_proxy m : new_conn_rx m = true → tr (start_proxy host m) [EvProxyThread].
Proof.
  intros Hrx. unfold start_proxy. rewrite Hrx. apply traces_act.
  intros a. simpl. by destruct (proxy_spawn host).
Qed.

(** After [start_netstack] there is a hook, and it joins the new namespace. *)
Lemma traces_hook m :
  netns_fd m = open_netns host → is_Some (open_netns host) →
  ∃ hook, child_setup_hook host m = Ok hook ∧ tr hook (hook_log (m_resolv_path m)).
Proof.
  intros Hfd [fd Ho]. unfold child_setup_hook, hook_log. rewrite Hfd, Ho. eexists. split; [done|].
  apply traces_ensure; [by split|]. apply traces_ensure; [done|]. apply traces_emit; [done|]. apply traces_ret.
Qed.

Lemma traces_start_netstack m : new_conn_tx m = true → tr (start_netstack host m) netstack_log.
Proof.
  intros Htx. unfold start_netstack. rewrite Htx. apply traces_pure. intros _ _.
  rewrite <- (app_nil_r netstack_log). apply traces_try; [apply traces_netstack|]. intros fd. apply traces_ret.
Qed.

(** Our certificate starts a line of its own, after all of the system's roots. *)
Lemma ca_bundle_spec system pem :
  ∃ roots, ca_bundle system pem = roots ++ pem ∧ system `prefix_of` roots ∧
           (roots = [] ∨ ∃ l, roots = l ++ [LF]).
Proof.
  unfold ca_bundle. destruct (bool_decide_reflect (system = [])) as [->|Hne]; cbn [negb andb].
  - exists []. split_and!; [done|done|by left].
  - destruct (ends_with system [LF]) eqn:E; cbn [negb].
    + exists system. apply ends_with_spec in E as [l ->]. split_and!; [done|done|right; by exists l].
    + exists (system ++ [LF]). split_and!; [done|by eexists|right; by exists system].
Qed.

Definition artifact_name (n : bytes) : Prop :=
  n = lit "ca.pem" ∨ n = lit "ca-bundle.crt" ∨ n = lit "resolv.conf".

Lemma artifact_components n :
  artifact_name n → components (push (private_dir host) n) = components (private_dir host) ++ [Normal n].
Proof. intros Hn. apply components_join_name. by destruct Hn as [->|[->| ->]]. Qed.

(** The writes come after the directory was created and restricted. *)
Lemma artifact_log_writes config_path i p data :
  artifact_log config_path !! i = Some (EvWritePrivate p data) →
  (4 ≤ i)%nat ∧ ∃ n, artifact_name n ∧ p = push (private_dir host) n.
Proof.
  unfold artifact_log, artifact_name. destruct i as [|[|[|[|[|[|[|i]]]]]]];
    cbn; try (intros [=]; fail). all: intros [= <- _]; split; [lia|eauto].
Qed.

Lemma removelast_lookup {A} (l : list A) i x :
  l !! i = Some x → (S i < length l)%nat → removelast l !! i = Some x.
Proof.
  destruct l as [|y l _] using rev_ind; [done|]. rewrite removelast_last, length_app. cbn.
  intros Hi Hl. by rewrite lookup_app_l in Hi by lia.
Qed.

(** ** Theorems *)

(** C32. The artifacts are private: whatever the system and the crates answer,
    [setup] ends without a panic; every file it writes is a direct child of the
    process's own directory, and is written after that directory was freshly
    created and restricted to mode 0700; and when it succeeds it has written the
    certificate, the bundle (the system's roots, then the certificate on a line of
    its own) and the resolver file, and both channel ends are still there, so that
    starting the netstack and then the proxy does not panic either. *)
Theorem setup_private_artifacts config_path :
  ∃ r log, setup host config_path [] = Done (r, log) ∧
    (∀ i p data, log !! i = Some (EvWritePrivate p data) →
       (∃ n, components p = components (private_dir host) ++ [Normal n]) ∧
       log !! 2%nat = Some (EvCreateDir (private_dir host)) ∧ create_dir host (private_dir host) = true ∧
       log !! 3%nat = Some (EvChmod (private_dir host) 448) ∧
       set_permissions host (private_dir host) = true ∧ (3 < i)%nat) ∧
    (∀ m, r = Ok m →
       EvWritePrivate (m_ca_path m) ca ∈ log ∧
       EvWritePrivate (m_resolv_path m) (lit "nameserver 10.0.0.1" ++ [LF]) ∈ log ∧
       (∃ roots, EvWritePrivate (m_ca_bundle_path m) (roots ++ ca) ∈ log ∧
          default [] (system_roots host) `prefix_of` roots ∧ (roots = [] ∨ ∃ l, roots = l ++ [LF])) ∧
       ∀ l, ∃ r' l', start_netstack host m l = Done (r', l') ∧
         ∀ m', r' = Ok m' → netns_fd m' = open_netns host ∧ ∃ r'' l'', start_proxy host m' l' = Done (r'', l'')).
Proof.
  destruct (traces_setup config_path []) as (r & log & E & [rest Hp] & Hl & Hf).
  exists r, log. split_and!; [exact E| |].
  - intros i p data Hi.
    assert (∀ j e, log !! j = Some e → artifact_log config_path !! j = Some e) as Hin
      by (intros j e Hj; rewrite Hp; by apply lookup_app_l_Some).
    destruct (artifact_log_writes _ _ _ _ (Hin _ _ Hi)) as (H4 & n & Hn & ->).
    assert (∀ j, (j < 4)%nat → log !! j = artifact_log config_path !! j) as Hlog.
    { intros j Hj. destruct (log !! j) as [e|] eqn:Ej; [by rewrite (Hin _ _ Ej)|].
      apply lookup_ge_None in Ej. apply lookup_lt_Some in Hi. lia. }
    assert (∀ j e, (j < 4)%nat → log !! j = Some e → ok_mitm e) as Hok.
    { intros j e Hj Ej. rewrite Forall_lookup in Hl. apply (Hl j), removelast_lookup; [done|].
      apply lookup_lt_Some in Hi. lia. }
    assert (log !! 2%nat = Some (EvCreateDir (private_dir host))) as H2 by (rewrite Hlog; [done|lia]).
    assert (log !! 3%nat = Some (EvChmod (private_dir host) 448)) as H3 by (rewrite Hlog; [done|lia]).
    split_and!; [exists n; by apply artifact_components|exact H2| |exact H3| |lia].
    + apply (Hok 2%nat (EvCreateDir (private_dir host))); [lia|done].
    + apply (Hok 3%nat (EvChmod (private_dir host) 448)); [lia|done].
  - intros m ->. destruct (Hf m eq_refl) as [-> _].
    destruct (setup_fresh _ _ _ _ E) as (_ & -> & -> & -> & _ & _ & Htx & Hrx).
    unfold artifact_log. split_and!.
    + by do 4 apply list_elem_of_further; apply list_elem_of_here.
    + by do 6 apply list_elem_of_further; apply list_elem_of_here.
    + destruct (ca_bundle_spec (default [] (system_roots host)) ca) as (roots & -> & ? & ?).
      exists roots. split_and!; [|done|done]. by do 5 apply list_elem_of_further; apply list_elem_of_here.
    + intros l. destruct (traces_start_netstack m Htx l) as (r' & ext & E' & _).
      exists r', (l ++ ext). split; [done|]. intros m' ->.
      destruct (start_netstack_post _ _ _ _ E') as (Hfd & _ & _ & _ & _ & Hrx'). split; [done|].
      destruct (traces_start_proxy m' ltac:(congruence) (l ++ ext)) as (r'' & ext' & E'' & _). eauto.
Qed.
End spec.
