(* ===== verification/Logging.v ===== *)
(** * Logging ([src/logging.rs])

    Where airgap's own diagnostics go.  The environment and the two calls that
    touch the filesystem are parameters; [env_logger]'s builder is the level
    filter and the target it is left with. *)

From S2P Require Import Prelude Eff Paths Os.

(** ** Definitions *)

Definition O_LOG : Z := Z.lor (Z.lor (Z.lor O_WRONLY O_APPEND) O_CREAT) O_CLOEXEC.

(** The answers of the system. *)
Record LogHost : Type := mkLogHost {
  log_env : str → option bytes;  (** [std::env::var_os] *)
  create_dir_all : path → bool;
  open_file : path → Z → bool;
}.

Inductive LogEv : Type :=
| LogCreateDirAll (dir : path)
| LogOpen (file : path) (flags : Z)
| LogNotice (about : option path).  (** [eprintln!]: the file that failed, or no location *)

(** [env_logger::Target] *)
Inductive Target : Type :=
| TPipe (file : path)
| TStderr.

Record Logger : Type := mkLogger { filter_spec : bytes; target : Target }.

Section logging.
Context (host : LogHost).

(** [std::env::var_os(name).filter(|v| !v.is_empty())] *)
Definition var_nonempty (name : str) : option bytes :=
  match log_env host name with Some (x :: v) => Some (x :: v) | _ => None end.

Definition default_log_path : option path :=
  let state :=
    match var_nonempty (lit "XDG_STATE_HOME") with
    | Some v => Some v
    | None =>
        match var_nonempty (lit "HOME") with
        | Some home => Some (join home (lit ".local/state"))
        | None => None
        end
    end in
  match state with
  | Some state => Some (join (join state (lit "airgap")) (lit "airgap.log"))
  | None => None
  end.

Definition open_log (p : path) : M (list LogEv) (result unit unit) :=
  try_x (match parent p with
         | Some dir => act (LogCreateDirAll dir) (if create_dir_all host dir then Ok tt else Err tt)
         | None => ret (Ok tt)
         end) (λ _,
  act (LogOpen p O_LOG) (if open_file host p O_LOG then Ok tt else Err tt)).

(** [init]: the logger installed. *)
Definition init (debug : bool) (log_file : option path) : M (list LogEv) Logger :=
  let level := default (if debug then lit "debug" else lit "warn") (log_env host (lit "RUST_LOG")) in
  let resolved := match log_file with Some p => Some p | None => default_log_path end in
  match resolved with
  | Some p =>
      let! r := open_log p in
      match r with
      | Ok _ => ret (mkLogger level (TPipe p))
      | Err _ => let! _ := emit (LogNotice (Some p)) in ret (mkLogger level TStderr)
      end
  | None => let! _ := emit (LogNotice None) in ret (mkLogger level TStderr)
  end.

(** ** Specification *)

Definition log_path (log_file : option path) : option path :=
  match log_file with Some p => Some p | None => default_log_path end.

(** Whether a log file can be opened: its directory made (when it has one) and
    the file opened in it. *)
Definition log_opens (p : path) : bool :=
  match parent p with Some dir => create_dir_all host dir | None => true end && open_file host p O_LOG.

(** ** Lemmas *)

Lemma open_log_result p log :
  ∃ evs, open_log p log = Done (if log_opens p then Ok tt else Err tt, log ++ evs) ∧
    (∀ e, e ∈ evs → (∃ dir, parent p = Some dir ∧ e = LogCreateDirAll dir) ∨ e = LogOpen p O_LOG) ∧
    (log_opens p = true → LogOpen p O_LOG ∈ evs).
Proof.
  unfold open_log, log_opens, try_x, act, bind, emit, modify, ret.
  destruct (parent p) as [dir|]; [destruct (create_dir_all host dir)|]; cbn [andb].
  - exists [LogCreateDirAll dir; LogOpen p O_LOG]. rewrite <- app_assoc.
    split_and!; [by destruct (open_file host p O_LOG)| |set_solver].
    intros e He. rewrite !elem_of_cons, elem_of_nil in He. destruct He as [->|[->|[]]]; eauto.
  - exists [LogCreateDirAll dir]. split_and!; [done| |done]. intros e ->%list_elem_of_singleton. eauto.
  - exists [LogOpen p O_LOG]. split_and!; [by destruct (open_file host p O_LOG)| |set_solver].
    intros e ->%list_elem_of_singleton. eauto.
Qed.

(** The default location is below the state directory and never relative to the
    working directory when the variable is absolute. *)
Lemma default_log_path_below p :
  default_log_path = Some p →
  ∃ base, path_starts_with p base = true ∧ file_name p = Some (lit "airgap.log") ∧
    (var_nonempty (lit "XDG_STATE_HOME") = Some base ∨
     (var_nonempty (lit "XDG_STATE_HOME") = None ∧ ∃ home, var_nonempty (lit "HOME") = Some home ∧
      base = join home (lit ".local/state"))).
Proof.
  unfold default_log_path. intros Hp.
  assert (∀ b n, n ≠ [] → join b n ≠ []) as Hne.
  { intros b n Hn. unfold join, push. destruct (has_root n); [done|].
    destruct (last b) as [z|]; [|done]. destruct (z =? SLASH); [|by destruct b]. by intros [_ ?]%app_eq_nil. }
  assert (∀ b, b ≠ [] → path_starts_with (join (join b (lit "airgap")) (lit "airgap.log")) b = true ∧
               file_name (join (join b (lit "airgap")) (lit "airgap.log")) = Some (lit "airgap.log")) as Hj.
  { intros b Hb. split; [|by apply file_name_join].
    eapply path_starts_with_trans; apply path_starts_with_join; (done || by apply Hne). }
  assert (∀ n v, var_nonempty n = Some v → v ≠ []) as Hv.
  { intros n v. unfold var_nonempty. destruct (log_env host n) as [[|x y]|]; [done| |done]. by intros [= <-]. }
  destruct (var_nonempty (lit "XDG_STATE_HOME")) as [v|] eqn:Ex.
  - injection Hp as <-. exists v. destruct (Hj v); [by eapply Hv|]. eauto.
  - destruct (var_nonempty (lit "HOME")) as [home|] eqn:Eh; [|done]. injection Hp as <-.
    exists (join home (lit ".local/state")). destruct (Hj (join home (lit ".local/state"))); [by apply Hne|].
    split_and!; [done|done|right; eauto].
Qed.
End logging.

Lemma log_total host debug log_file : ∃ logger evs, init host debug log_file [] = Done (logger, evs).
Proof.
  unfold init. destruct (match log_file with Some p => Some p | None => default_log_path host end) as [p|]; [|eauto].
  unfold bind. destruct (open_log_result host p []) as (evs & -> & _). destruct (log_opens host p); eauto.
Qed.

(** ** Theorems *)

(** Logging never silently disappears: the logger writes to the chosen file
    (the given one, else [airgap.log] below the state directory) exactly when its
    directory can be made and it can be opened, for appending and never
    truncating, with the descriptor closed on exec; in every other case it writes
    to the terminal and one notice, last, says so; the level is [RUST_LOG]'s, or
    [debug] or [warn] as the flag asks. *)
Theorem log_destination (host : LogHost) debug log_file :
  (∀ p, default_log_path host = Some p →
     file_name p = Some (lit "airgap.log") ∧
     ∃ base, path_starts_with p base = true ∧
       (var_nonempty host (lit "XDG_STATE_HOME") = Some base ∨
        ∃ home, var_nonempty host (lit "HOME") = Some home ∧ base = join home (lit ".local/state"))) ∧
  ∃ evs logger, init host debug log_file [] = Done (logger, evs) ∧
    filter_spec logger = default (if debug then lit "debug" else lit "warn") (log_env host (lit "RUST_LOG")) ∧
    (∀ p flags, LogOpen p flags ∈ evs → log_path host log_file = Some p ∧
       Z.land flags O_APPEND = O_APPEND ∧ Z.land flags O_TRUNC = 0 ∧ Z.land flags O_CLOEXEC = O_CLOEXEC) ∧
    match log_path host log_file with
    | Some p =>
        if log_opens host p
        then target logger = TPipe p ∧ LogOpen p O_LOG ∈ evs ∧ ∀ o, LogNotice o ∉ evs
        else target logger = TStderr ∧ ∃ evs0, evs = evs0 ++ [LogNotice (Some p)] ∧ ∀ o, LogNotice o ∉ evs0
    | None => target logger = TStderr ∧ evs = [LogNotice None]
    end.
Proof.
  split.
  { intros p (base & Hb & Hn & [?|(_ & ?)])%default_log_path_below; eauto 10. }
  unfold init. fold (log_path host log_file). set (lvl := default _ _).
  destruct (log_path host log_file) as [p|] eqn:Ep.
  2: { eexists _, _. split_and!; [reflexivity|done|set_solver|done|done]. }
  destruct (open_log_result host p []) as (evs & E & Hin & Hopen). unfold bind. rewrite E. cbn [app].
  assert (∀ o, LogNotice o ∉ evs) as Hno.
  { intros o [(dir & _ & [=])|[=]]%Hin. }
  assert (∀ q fl, LogOpen q fl ∈ evs → q = p ∧ fl = O_LOG) as Hop.
  { intros q fl [(dir & _ & [=])|[= -> ->]]%Hin. done. }
  destruct (log_opens host p); unfold emit, modify, ret; eexists _, _; (split_and!; [reflexivity|done| |..]).
  - intros q fl [-> ->]%Hop. done.
  - done.
  - by apply Hopen.
  - done.
  - intros q fl [Hq|Hq%list_elem_of_singleton]%elem_of_app; [|done]. apply Hop in Hq as [-> ->]. done.
  - done.
  - by eexists.
Qed.
