(* ===== verification/Launch.v ===== *)
(** * Launching a program ([src/main.rs]: profile selection, [run],
    [enter_namespaces], [map_ids_to_self], [spawn_and_wait])

    What the launcher does to the system is a log of events; the record [Host]
    holds the answers of the calls.  The order of the events is the point: the
    program must not start before every protection is in place. *)

From S2P Require Import Prelude Eff Utf8 Paths Access Gate Profiles Targets.
From S2P Require Import Logging Dns Proxy Mitm.

(** ** Definitions *)

(** The command line, as [clap] parsed it. *)
Record Cli : Type := mkCli {
  allow_unknown_program : bool;
  cli_profile : option str;
  debug : bool;
  log_file : option path;
  cli_mitm : bool;
  cli_mitm_config : option path;
  command : list bytes;
}.

(** The [let profile = ..] of [main]; [Err code] is [process::exit(code)]. *)
Definition select_profile (cli : Cli) (program : bytes) : result DynProfile Z :=
  match cli_profile cli with
  | Some name => match by_name name with Some p => Ok p | None => Err 2 end
  | None =>
      match resolve program with
      | Some p => Ok p
      | None => if allow_unknown_program cli then Ok unrestricted else Err 1
      end
  end.

(** What the child ended with: [status.code()] or [status.signal()]. *)
Inductive ExitStatus : Type :=
| Exited (code : Z)
| Signaled (signo : Z).

Definition exit_code (s : ExitStatus) : Z :=
  match s with Exited code => code | Signaled signo => 128 + signo end.

Definition EPERM : Z := 1.

(** The answers of the system; [None] is success where an error is an [errno]. *)
Record Host : Type := mkHost {
  h_uid : Z;
  h_gid : Z;
  h_log : LogHost;
  h_mitm : MitmHost;
  unshare_user_and_mount : option Z;
  unshare_mount : option Z;
  write_file : str → bool;
  mount_private : bool;
  current_dir : option path;
  open_root : path → bool;
  spawn_mount : path → bool;
  ca_bundle_exists : bool;
  bind_ca : bool;
  set_current_dir : path → bool;
  fork : bool;
  child_status : option ExitStatus;
}.

Inductive Ev : Type :=
| EvLog (e : LogEv)
| EvMitm (e : MitmEv)
| EvUnshareUserMount
| EvUnshareMount
| EvWriteFile (file : str) (data : str)
| EvMountPrivate
| EvOpenRoot (dir : path)
| EvMountOverlay (dir : path) (redact gated : bool)
| EvBindCa (bundle : path)
| EvChdir (dir : path)
| EvSpawn (program : bytes) (args : list bytes) (env : list (str * path))
| EvUnmount (dir : path).

Inductive RunError : Type :=
| NamespaceError (e : Z)
| IdMapError (file : str)
| MountPrivateError
| CwdError
| OpenRootError (dir : path)
| OverlayError (dir : path)
| MitmFailed (e : MitmError)
| BindCaError
| ChdirError
| SpawnError.

Definition check (b : bool) (e : RunError) : result unit RunError := if b then Ok tt else Err e.

(** [format!("{id} {id} 1")] *)
Definition id_map (id : Z) : str := decimal id ++ [SPACE] ++ decimal id ++ lit " 1".

Definition SETGROUPS : str := lit "/proc/self/setgroups".
Definition UID_MAP : str := lit "/proc/self/uid_map".
Definition GID_MAP : str := lit "/proc/self/gid_map".

Section run.
Context `{ProcEnv} (host : Host) {T : Type} (tty : T).

Abbreviation L A := (M (list Ev) (result A RunError)) (only parsing).

Definition write_proc (file data : str) : M (list Ev) (result unit RunError) :=
  act (EvWriteFile file data) (check (write_file host file) (IdMapError file)).

Definition map_ids_to_self (uid gid : Z) : M (list Ev) (result unit RunError) :=
  try_x (write_proc SETGROUPS (lit "deny")) (λ _,
  try_x (write_proc UID_MAP (id_map uid)) (λ _,
  write_proc GID_MAP (id_map gid))).

Definition enter_namespaces : M (list Ev) (result unit RunError) :=
  let! _ := emit EvUnshareUserMount in
  match unshare_user_and_mount host with
  | None => map_ids_to_self (h_uid host) (h_gid host)
  | Some e =>
      if e =? EPERM then
        act EvUnshareMount
          (match unshare_mount host with None => Ok tt | Some e => Err (NamespaceError e) end)
      else ret (Err (NamespaceError e))
  end.

(** The loop mounting an overlay over each target. *)
Fixpoint mount_overlays (redact gated : bool) (targets : list path) : M (list Ev) (result unit RunError) :=
  match targets with
  | [] => ret (Ok tt)
  | dir :: targets' =>
      try_x (act (EvOpenRoot dir) (check (open_root host dir) (OpenRootError dir))) (λ _,
      try_x (act (EvMountOverlay dir redact gated) (check (spawn_mount host dir) (OverlayError dir))) (λ _,
      mount_overlays redact gated targets'))
  end.

(** A step of the interception, its events in the launcher's log. *)
Definition mitm_do {A} (m : M (list MitmEv) A) : M (list Ev) A := λ log,
  match m [] with
  | Done (a, l) => Done (a, log ++ map EvMitm l)
  | Panicked => Panicked
  | OutOfFuel => OutOfFuel
  end.

Definition mitm_try {A} (m : M (list MitmEv) (result A MitmError)) : M (list Ev) (result A RunError) :=
  let! r := mitm_do m in ret (map_err MitmFailed r).

(** [if let Some(m) = mitm.as_mut() { m.f()?; }] *)
Definition as_mut (f : Mitm → M (list MitmEv) (result Mitm MitmError)) (mitm : option Mitm)
    : M (list Ev) (result (option Mitm) RunError) :=
  match mitm with
  | Some m => try_x (mitm_try (f m)) (λ m, ret (Ok (Some m)))
  | None => ret (Ok None)
  end.

(** The variables pointing TLS stacks at our certificates. *)
Definition trust_env (m : Mitm) : list (str * path) :=
  [(lit "SSL_CERT_FILE", m_ca_bundle_path m); (lit "CURL_CA_BUNDLE", m_ca_bundle_path m);
   (lit "REQUESTS_CA_BUNDLE", m_ca_bundle_path m); (lit "NODE_EXTRA_CA_CERTS", m_ca_path m)].

(** The hook runs in the forked child; only then is the program executed. *)
Definition spawn_and_wait (program : bytes) (args : list bytes) (mitm : option Mitm)
    : M (list Ev) (result Z RunError) :=
  let exec env := act (EvSpawn program args env)
    (match child_status host with Some s => Ok (exit_code s) | None => Err SpawnError end) in
  match mitm with
  | Some m =>
      try_x (ret (map_err MitmFailed (child_setup_hook (h_mitm host) m))) (λ hook,
      try_x (ret (check (fork host) SpawnError)) (λ _,
      try_x (mitm_try hook) (λ _,
      exec (trust_env m))))
  | None => try_x (ret (check (fork host) SpawnError)) (λ _, exec [])
  end.

(** The augmented bundle over the system's, where there is one. *)
Definition bind_bundle (mitm : option Mitm) : M (list Ev) (result unit RunError) :=
  match mitm with
  | Some m => if ca_bundle_exists host
              then act (EvBindCa (m_ca_bundle_path m)) (check (bind_ca host) BindCaError)
              else ret (Ok tt)
  | None => ret (Ok tt)
  end.

(** [run] from [enter_namespaces] to the child's exit. *)
Definition run_body (program : bytes) (args : list bytes) (profile : DynProfile) (mitm : option Mitm)
    : M (list Ev) (result Z RunError) :=
  try_x enter_namespaces (λ _,
  try_x (act EvMountPrivate (check (mount_private host) MountPrivateError)) (λ _,
  try_x (ret (ok_or (current_dir host) CwdError)) (λ cwd,
  let gate := directory_gate profile program tty in
  try_x (mount_overlays (redaction profile) (bool_decide (is_Some gate)) (overlay_targets cwd)) (λ _,
  try_x (as_mut (start_netstack (h_mitm host)) mitm) (λ mitm,
  try_x (bind_bundle mitm) (λ _,
  try_x (act (EvChdir cwd) (check (set_current_dir host cwd) ChdirError)) (λ _,
  try_x (as_mut (start_proxy (h_mitm host)) mitm) (λ mitm,
  spawn_and_wait program args mitm)))))))).

(** The sessions that exist: the overlays mounted so far. *)
Definition sessions (log : list Ev) : list path :=
  omap (λ e, match e with
             | EvMountOverlay dir _ _ => if spawn_mount host dir then Some dir else None
             | _ => None
             end) log.

(** [mitm::setup], its failure only logged. *)
Definition setup_mitm (mitm_config : option path) : M (list Ev) (option Mitm) :=
  match mitm_config with
  | Some config =>
      let! r := mitm_do (setup (h_mitm host) config) in
      ret (match r with Ok m => Some m | Err _ => None end)
  | None => ret None
  end.

(** [run]: the body, then the drops of [sessions] and [mitm], on every way out. *)
Definition run (program : bytes) (args : list bytes) (profile : DynProfile) (mitm_config : option path)
    : M (list Ev) (result Z RunError) :=
  let! mitm := setup_mitm mitm_config in
  let! result := run_body program args profile mitm in
  let! log := get in
  let! _ := modify (λ l, l ++ map EvUnmount (sessions log)) in
  let! _ := (match mitm with Some m => mitm_do (Mitm_drop m) | None => ret tt end) in
  ret result.

(** A step of the logger, its events in the launcher's log. *)
Definition log_do {A} (m : M (list LogEv) A) : M (list Ev) A := λ log,
  match m [] with
  | Done (a, l) => Done (a, log ++ map EvLog l)
  | Panicked => Panicked
  | OutOfFuel => OutOfFuel
  end.

(** [main]: the exit code of the process. *)
Definition main (cli : Cli) : M (list Ev) Z :=
  let! _ := log_do (init (h_log host) (debug cli) (log_file cli)) in
  match command cli with
  | [] => panic  (* [expect]: clap requires a program *)
  | program :: args =>
      match select_profile cli program with
      | Err code => ret code
      | Ok profile =>
          let! r := run program args profile (cli_mitm_config cli) in
          ret (match r with Ok code => code | Err _ => 1 end)
      end
  end.
End run.

(** ** Specification *)

Section spec.
Context `{ProcEnv} (host : Host) {T : Type} (tty : T).

(** The step succeeded (for the first [unshare]: succeeded, or was refused in
    the way the fallback handles). *)
Definition ok_ev (e : Ev) : Prop :=
  match e with
  | EvUnshareUserMount => unshare_user_and_mount host = None ∨ unshare_user_and_mount host = Some EPERM
  | EvUnshareMount => unshare_mount host = None
  | EvWriteFile file _ => write_file host file = true
  | EvMountPrivate => mount_private host = true
  | EvOpenRoot dir => open_root host dir = true
  | EvMountOverlay dir _ _ => spawn_mount host dir = true
  | EvMitm e => ok_mitm (h_mitm host) e
  | EvBindCa _ => bind_ca host = true
  | EvChdir dir => set_current_dir host dir = true
  | EvSpawn _ _ _ => is_Some (child_status host)
  | EvUnmount _ | EvLog _ => True
  end.

(** A user namespace with identity id maps ([setgroups] denied first), or the
    mount-namespace fallback. *)
Definition ns_log : list Ev :=
  EvUnshareUserMount ::
  match unshare_user_and_mount host with
  | None => [EvWriteFile SETGROUPS (lit "deny"); EvWriteFile UID_MAP (id_map (h_uid host));
             EvWriteFile GID_MAP (id_map (h_gid host))]
  | Some _ => [EvUnshareMount]
  end.

(** Each target's real directory is opened before its overlay covers it. *)
Definition overlay_log (redact gated : bool) (targets : list path) : list Ev :=
  concat (map (λ dir, [EvOpenRoot dir; EvMountOverlay dir redact gated]) targets).

(** With interception on, the child is forked into the new network namespace and
    a private mount namespace. *)
Definition child_log (mitm : option Mitm) : list Ev :=
  match mitm with Some m => map EvMitm (hook_log (h_mitm host) (m_resolv_path m)) | None => [] end.

Definition netstack_events (mitm : option Mitm) : list Ev :=
  match mitm with Some _ => map EvMitm (netstack_log (h_mitm host)) | None => [] end.

Definition bind_events (mitm : option Mitm) : list Ev :=
  match mitm with
  | Some m => if ca_bundle_exists host then [EvBindCa (m_ca_bundle_path m)] else []
  | None => []
  end.

Definition proxy_events (mitm : option Mitm) : list Ev :=
  match mitm with Some _ => [EvMitm EvProxyThread] | None => [] end.

(** Everything that must be in place before the program starts, in order. *)
Definition protect_log (profile : DynProfile) (program : bytes) (mitm : option Mitm) (cwd : path) : list Ev :=
  ns_log ++ [EvMountPrivate]
  ++ overlay_log (redaction profile) (bool_decide (is_Some (directory_gate profile program tty)))
       (overlay_targets cwd)
  ++ netstack_events mitm ++ bind_events mitm ++ [EvChdir cwd] ++ proxy_events mitm ++ child_log mitm.

Definition spawn_ev (program : bytes) (args : list bytes) (mitm : option Mitm) : Ev :=
  EvSpawn program args (match mitm with Some m => trust_env m | None => [] end).

(** The interception in force, and the events of its setup and teardown. *)
Definition setup_run (mitm_config : option path) : option Mitm * list Ev :=
  match mitm_config with
  | Some config =>
      match setup (h_mitm host) config [] with
      | Done (Ok m, l) => (Some m, map EvMitm l)
      | Done (Err _, l) => (None, map EvMitm l)
      | _ => (None, [])
      end
  | None => (None, [])
  end.
Definition drop_log (mitm : option Mitm) : list Ev :=
  match mitm with Some m => [EvMitm (EvRemoveDir (m_tmp_dir m))] | None => [] end.

Definition is_spawn (e : Ev) : bool := match e with EvSpawn _ _ _ => true | _ => false end.

(** ** Lemmas *)

Abbreviation tr := (traces ok_ev).

Lemma traces_write_proc file data : tr (write_proc host file data) [EvWriteFile file data].
Proof. apply traces_act. intros a. unfold check. simpl. by destruct (write_file host file). Qed.

Lemma traces_namespaces : tr (enter_namespaces host) ns_log.
Proof.
  unfold enter_namespaces, ns_log. intros log. unfold bind at 1, emit, modify.
  destruct (unshare_user_and_mount host) as [e|] eqn:Eu.
  - destruct (Z.eqb_spec e EPERM) as [->|].
    + destruct (traces_act ok_ev EvUnshareMount
        (match unshare_mount host with None => Ok tt | Some e => Err (NamespaceError e) end)
        ltac:(intros a; simpl; by destruct (unshare_mount host)) (log ++ [EvUnshareUserMount]))
        as (r & ext & E & Hp & Hl & Hf).
      rewrite <- app_assoc in E. eexists _, ([EvUnshareUserMount] ++ ext).
      split_and!; [exact E|by apply prefix_cons| |].
      * apply removelast_ok; [|done]. constructor; [by right|constructor].
      * intros a Ha. destruct (Hf a Ha) as [-> ?]. split; [done|]. constructor; [by right|done].
    + eexists _, [_]. split_and!; [done|by eexists|constructor|done].
  - assert (tr (map_ids_to_self host (h_uid host) (h_gid host))
      [EvWriteFile SETGROUPS (lit "deny"); EvWriteFile UID_MAP (id_map (h_uid host));
       EvWriteFile GID_MAP (id_map (h_gid host))]) as Hm.
    { apply (traces_try ok_ev _ _ [_] [_; _]); [apply traces_write_proc|intros _].
      apply (traces_try ok_ev _ _ [_] [_]); [apply traces_write_proc|intros _].
      apply traces_write_proc. }
    destruct (Hm (log ++ [EvUnshareUserMount])) as (r & ext & E & Hp & Hl & Hf).
    rewrite <- app_assoc in E. eexists _, ([EvUnshareUserMount] ++ ext).
    split_and!; [exact E|by apply prefix_cons| |].
    + apply removelast_ok; [|done]. constructor; [by left|constructor].
    + intros a Ha. destruct (Hf a Ha) as [-> ?]. split; [done|]. constructor; [by left|done].
Qed.

Lemma traces_overlays redact gated targets :
  tr (mount_overlays host redact gated targets) (overlay_log redact gated targets).
Proof.
  induction targets as [|dir targets IH]; [apply traces_ret|]. cbn [mount_overlays].
  unfold overlay_log. cbn [map concat app].
  apply traces_step; [|intros _].
  { intros a. unfold check. simpl. by destruct (open_root host dir). }
  apply traces_step; [|intros _; exact IH].
  intros a. unfold check. simpl. by destruct (spawn_mount host dir).
Qed.

(** A step of the interception, in the launcher's log. *)
Lemma traces_mitm {A} (m : M (list MitmEv) (result A MitmError)) f :
  traces (ok_mitm (h_mitm host)) m f → tr (mitm_try m) (map EvMitm f).
Proof.
  intros Hm log. destruct (Hm []) as (r & ext & E & [rest ->] & Hl & Hf). unfold mitm_try, mitm_do, bind, ret.
  rewrite E. cbn [app]. exists (map_err MitmFailed r), (map EvMitm ext). split_and!.
  - done.
  - rewrite map_app. by eexists.
  - destruct ext as [|x ext _] using rev_ind; [constructor|].
    rewrite map_app. cbn [map]. rewrite removelast_last in *. by apply Forall_map.
  - intros a Ha. destruct r as [a'|]; [|done]. destruct (Hf a' eq_refl) as [<- Hok]. split; [done|].
    by apply Forall_map.
Qed.

Lemma mitm_try_Ok {A} (m : M (list MitmEv) (result A MitmError)) log a log' :
  mitm_try m log = Done (Ok a, log') → ∃ l, m [] = Done (Ok a, l).
Proof.
  unfold mitm_try, mitm_do, bind, ret. destruct (m []) as [[[a'|e] l]| |]; [|done..].
  intros [= -> _]. eauto.
Qed.

(** Neither channel end has been taken yet. *)
Definition untouched (mitm : option Mitm) : Prop :=
  match mitm with Some m => new_conn_tx m = true ∧ new_conn_rx m = true | None => True end.

(** The later value of [mitm]: the same artifacts, and the child's namespace. *)
Definition started (mitm mitm' : option Mitm) : Prop :=
  match mitm, mitm' with
  | Some m, Some m' =>
      netns_fd m' = open_netns (h_mitm host) ∧ is_Some (open_netns (h_mitm host)) ∧
      m_ca_path m' = m_ca_path m ∧ m_ca_bundle_path m' = m_ca_bundle_path m ∧
      m_resolv_path m' = m_resolv_path m
  | None, None => True
  | _, _ => False
  end.

Lemma traces_as_mut f mitm l :
  (∀ m, mitm = Some m → traces (ok_mitm (h_mitm host)) (f m) l) →
  tr (as_mut f mitm) (match mitm with Some _ => map EvMitm l | None => [] end).
Proof.
  intros Hf. destruct mitm as [m|]; [|apply traces_ret]. cbn [as_mut]. rewrite <- (app_nil_r (map EvMitm l)).
  apply traces_try; [by apply traces_mitm, Hf|intros m']. apply traces_ret.
Qed.

Lemma as_mut_Ok f m log mitm' log' :
  as_mut f (Some m) log = Done (Ok mitm', log') → ∃ m' l, mitm' = Some m' ∧ f m [] = Done (Ok m', l).
Proof.
  cbn [as_mut]. unfold try_x, bind at 1. destruct (mitm_try (f m) log) as [[[m'|e] l']| |] eqn:E; [|done..].
  apply mitm_try_Ok in E as [l E]. intros [= <- _]. eauto.
Qed.

Lemma start_started mitm log mitm' log' :
  untouched mitm → as_mut (start_netstack (h_mitm host)) mitm log = Done (Ok mitm', log') →
  started mitm mitm' ∧ ∀ m', mitm' = Some m' → new_conn_rx m' = true.
Proof.
  intros Hu E. destruct mitm as [m|]; [|by injection E as <- _].
  apply as_mut_Ok in E as (m' & l & -> & E). destruct Hu as [_ Hrx].
  destruct (start_netstack_post _ _ _ _ _ E) as (? & ? & ? & ? & ? & ?). split; [by split_and!|].
  intros ? [= <-]. congruence.
Qed.

Lemma proxy_started mitm0 mitm log mitm' log' :
  started mitm0 mitm → as_mut (start_proxy (h_mitm host)) mitm log = Done (Ok mitm', log') → started mitm0 mitm'.
Proof.
  intros Hs E. destruct mitm as [m|]; [|by injection E as <- _].
  apply as_mut_Ok in E as (m' & l & -> & E). destruct mitm0 as [m0|]; [|done].
  destruct (start_proxy_post _ _ _ _ _ E) as (? & ? & ? & ?). destruct Hs as (? & ? & ? & ? & ?).
  split_and!; congruence.
Qed.

Lemma traces_bind_bundle mitm mitm' : started mitm mitm' → tr (bind_bundle host mitm') (bind_events mitm).
Proof.
  destruct mitm as [m|], mitm' as [m'|]; try done; intros Hs; cbn [bind_bundle bind_events]; [|apply traces_ret].
  destruct Hs as (_ & _ & _ & -> & _). destruct (ca_bundle_exists host); [|apply traces_ret].
  apply traces_act. intros a. unfold check. simpl. by destruct (bind_ca host).
Qed.

(** The child: forked, confined, then executed. *)
Lemma traces_spawn program args mitm mitm' :
  started mitm mitm' →
  tr (spawn_and_wait host program args mitm') (child_log mitm ++ [spawn_ev program args mitm]).
Proof.
  intros Hs. unfold spawn_and_wait, child_log, spawn_ev.
  destruct mitm as [m|], mitm' as [m'|]; try done; [destruct Hs as (Hfd & Ho & Hca & Hb & Hr)|];
    cbn [app]; [|apply traces_pure; intros _ _; apply traces_act; intros a; simpl; by destruct (child_status host)].
  destruct (traces_hook (h_mitm host) m' Hfd Ho) as (hook & -> & Hh). rewrite Hr in Hh.
  apply traces_pure. intros hook' [= <-]. apply traces_pure. intros _ _.
  apply traces_try; [by apply traces_mitm|intros _]. unfold trust_env. rewrite Hca, Hb.
  apply traces_act. intros a. simpl. by destruct (child_status host).
Qed.

(** The body does an initial part of: protect, then spawn. *)
Lemma run_body_traces program args profile mitm :
  untouched mitm →
  let cwd := default [] (current_dir host) in
  tr (run_body host tty program args profile mitm)
     (protect_log profile program mitm cwd ++ [spawn_ev program args mitm]).
Proof.
  intros Hu cwd. unfold run_body, protect_log. rewrite <- !app_assoc.
  apply traces_try; [apply traces_namespaces|intros _].
  apply traces_try; [|intros _].
  { apply traces_act. intros a. unfold check. simpl. by destruct (mount_private host). }
  apply traces_pure. intros cwd' Hcwd.
  assert (cwd' = cwd) as -> by (unfold cwd; destruct (current_dir host); [by injection Hcwd|done]).
  apply traces_try; [apply traces_overlays|intros _].
  apply traces_try_eq.
  { apply traces_as_mut. intros m ->. apply traces_start_netstack, Hu. }
  intros log1 mitm1 log1' [Hs Hrx]%start_started; [|done].
  apply traces_try; [by apply traces_bind_bundle|intros _].
  apply traces_try; [|intros _].
  { apply traces_act. intros a. unfold check. simpl. by destruct (set_current_dir host cwd). }
  apply traces_try_eq.
  { replace (proxy_events mitm) with (match mitm1 with Some _ => map EvMitm [EvProxyThread] | None => [] end)
      by (by destruct mitm, mitm1).
    apply traces_as_mut. intros m ->. by apply traces_start_proxy, Hrx. }
  intros log2 mitm2 log2' Hp. apply traces_spawn. by eapply proxy_started.
Qed.

(** An initial part of a log with one final spawn that contains it is all of it. *)
Lemma prefix_with_spawn (full ext : list Ev) e e' :
  Forall (λ x, is_spawn x = false) full → is_spawn e = true →
  ext `prefix_of` full ++ [e'] → e ∈ ext → ext = full ++ [e'].
Proof.
  intros Hno He [rest Hr] Hin. destruct rest as [|x rest] using rev_ind; [by rewrite app_nil_r in Hr|].
  exfalso. rewrite app_assoc in Hr. apply app_inj_tail in Hr as [Hr _].
  rewrite Forall_forall in Hno. specialize (Hno e). rewrite He in Hno.
  discriminate Hno. rewrite Hr. apply elem_of_app. by left.
Qed.

Lemma mitm_no_spawn l : Forall (λ x, is_spawn x = false) (map EvMitm l).
Proof. apply Forall_map, Forall_true. done. Qed.

Lemma protect_no_spawn profile program mitm cwd :
  Forall (λ x, is_spawn x = false) (protect_log profile program mitm cwd).
Proof.
  unfold protect_log, ns_log, overlay_log. rewrite !Forall_app. split_and!.
  - constructor; [done|]. destruct (unshare_user_and_mount host); repeat constructor.
  - repeat constructor.
  - apply Forall_concat, Forall_map, Forall_true. intros d. repeat constructor.
  - destruct mitm; [apply mitm_no_spawn|constructor].
  - destruct mitm; [|constructor]. cbn. destruct (ca_bundle_exists host); repeat constructor.
  - repeat constructor.
  - destruct mitm; repeat constructor.
  - destruct mitm; [apply mitm_no_spawn|constructor].
Qed.
End spec.

Section thms.
Context `{ProcEnv} (host : Host) {T : Type} (tty : T).

Lemma sessions_app l1 l2 : sessions host (l1 ++ l2) = sessions host l1 ++ sessions host l2.
Proof. unfold sessions. apply omap_app. Qed.

Lemma sessions_mitm l : sessions host (map EvMitm l) = [].
Proof. by induction l. Qed.

(** When every overlay was mounted, the sessions are exactly the targets. *)
Lemma sessions_protect profile program mitm cwd :
  Forall (ok_ev host) (protect_log host tty profile program mitm cwd) →
  sessions host (protect_log host tty profile program mitm cwd) = overlay_targets cwd.
Proof.
  unfold protect_log. rewrite !Forall_app, !sessions_app. intros (_ & _ & Hov & _).
  assert (sessions host (ns_log host) = []) as ->
    by (unfold ns_log, sessions; by destruct (unshare_user_and_mount host)).
  assert (sessions host (netstack_events host mitm) = []) as ->
    by (destruct mitm; [apply sessions_mitm|done]).
  assert (sessions host (bind_events host mitm) = []) as ->
    by (destruct mitm; [cbn; by destruct (ca_bundle_exists host)|done]).
  assert (sessions host (proxy_events mitm) = []) as -> by (by destruct mitm).
  assert (sessions host (child_log host mitm) = []) as -> by (destruct mitm; [apply sessions_mitm|done]).
  change (sessions host [EvMountPrivate]) with (@nil path). change (sessions host [EvChdir cwd]) with (@nil path).
  rewrite !app_nil_r. cbn [app]. unfold overlay_log in *.
  revert Hov. generalize (overlay_targets cwd). intros targets.
  induction targets as [|d targets IH]; [done|]. cbn [map concat app]. rewrite !Forall_cons.
  intros (_ & Hd & Hov). unfold sessions. cbn [omap list_omap]. simpl in Hd. rewrite Hd.
  f_equal. by apply IH.
Qed.

(** The interception in force has its channels, and setup writes artifacts only. *)
Lemma setup_run_spec mitm_config :
  untouched (fst (setup_run host mitm_config)) ∧ sessions host (snd (setup_run host mitm_config)) = [] ∧
  ∀ pre, setup_mitm host mitm_config pre
         = Done (fst (setup_run host mitm_config), pre ++ snd (setup_run host mitm_config)).
Proof.
  destruct mitm_config as [config|]; [|split_and!; [done..|]; intros pre; by rewrite app_nil_r]. unfold setup_mitm, mitm_do, bind, ret, setup_run.
  destruct (traces_setup (h_mitm host) config []) as (r & ext & E & _). rewrite E.
  destruct r as [m|e]; (split_and!; [|apply sessions_mitm|done]); [|done].
  by apply setup_fresh in E as (_ & _ & _ & _ & _ & _ & ? & ?).
Qed.

(** [run], its drops made explicit, after a log without mounts. *)
Lemma run_eq program args profile mitm_config pre :
  let '(mitm, log0) := setup_run host mitm_config in
  run host tty program args profile mitm_config pre
  = match run_body host tty program args profile mitm (pre ++ log0) with
    | Done (r, log) => Done (r, log ++ map EvUnmount (sessions host log) ++ drop_log mitm)
    | Panicked => Panicked
    | OutOfFuel => OutOfFuel
    end.
Proof.
  destruct (setup_run_spec mitm_config) as (_ & _ & E). specialize (E pre).
  destruct (setup_run host mitm_config) as [mitm log0].
  unfold run, bind at 1. rewrite E. cbn [fst snd]. unfold bind, modify, get, ret.
  destruct (run_body _ _ _ _ _ _ _) as [[r log]| |]; [|done..].
  destruct mitm as [m|]; cbn; by rewrite ?app_assoc, ?app_nil_r.
Qed.

(** Without a working directory the body stops before any overlay. *)
Lemma run_body_no_cwd program args profile mitm :
  current_dir host = None →
  traces (ok_ev host) (run_body host tty program args profile mitm) (ns_log host ++ [EvMountPrivate]).
Proof.
  intros Hc. unfold run_body. apply traces_try; [apply traces_namespaces|intros _].
  apply traces_step; [|intros _; apply traces_pure; by rewrite Hc].
  intros a. unfold check. simpl. by destruct (mount_private host).
Qed.

Lemma no_cwd_no_spawn e : e ∈ ns_log host ++ [EvMountPrivate] → is_spawn e = false.
Proof.
  unfold ns_log. destruct (unshare_user_and_mount host); cbn [app]; rewrite !elem_of_cons;
    intros He; destruct_or?; subst; try done; by apply not_elem_of_nil in He.
Qed.

Lemma try_x_Ok {A B} (m : M (list Ev) (result A RunError)) (k : A → M (list Ev) (result B RunError)) log b l :
  try_x m k log = Done (Ok b, l) → ∃ a log', k a log' = Done (Ok b, l).
Proof. unfold try_x, bind. destruct (m log) as [[[a|e] log']| |]; [eauto|done..]. Qed.

Lemma exec_Ok (e : Ev) log code l :
  act e (match child_status host with Some s => Ok (exit_code s) | None => Err SpawnError end) log
  = Done (Ok code, l) → ∃ st, child_status host = Some st ∧ code = exit_code st.
Proof.
  unfold act, bind, emit, modify, ret. destruct (child_status host) as [st|]; [|done]. intros [= <- _]. eauto.
Qed.

(** The code of a successful run is the child's. *)
Lemma run_body_code program args profile mitm log code l :
  run_body host tty program args profile mitm log = Done (Ok code, l) →
  ∃ st, child_status host = Some st ∧ code = exit_code st.
Proof.
  unfold run_body. intros E. do 8 (apply try_x_Ok in E as (? & ? & E)). unfold spawn_and_wait in E.
  match type of E with context [match ?o with Some _ => _ | None => _ end] => destruct o end;
    repeat apply try_x_Ok in E as (? & ? & E); by apply exec_Ok in E.
Qed.

(** What every run satisfies: the program is spawned only after all protections,
    and the code is the program's. *)
Definition protected_run (program : bytes) (args : list bytes) (profile : DynProfile) (mitm : option Mitm)
    (r : result Z RunError) (body : list Ev) : Prop :=
    (∀ e, e ∈ body → is_spawn e = true →
       ∃ cwd, current_dir host = Some cwd ∧
         body = protect_log host tty profile program mitm cwd ++ [spawn_ev program args mitm] ∧
         Forall (ok_ev host) (protect_log host tty profile program mitm cwd) ∧
         sessions host body = overlay_targets cwd) ∧
    (∀ code, r = Ok code →
       ∃ st, child_status host = Some st ∧ code = exit_code st ∧ spawn_ev program args mitm ∈ body).

Lemma run_protected program args profile mitm_config pre :
  sessions host pre = [] →
  let '(mitm, log0) := setup_run host mitm_config in
  ∃ r body,
    run host tty program args profile mitm_config pre
    = Done (r, pre ++ log0 ++ body ++ map EvUnmount (sessions host body) ++ drop_log mitm) ∧
    protected_run program args profile mitm r body.
Proof.
  intros Hpre. pose proof (run_eq program args profile mitm_config pre) as Hrun.
  destruct (setup_run_spec mitm_config) as (Hu & Hs0 & _).
  destruct (setup_run host mitm_config) as [mitm log0]. cbn [fst snd] in *.
  set (cwd := default [] (current_dir host)).
  destruct (run_body_traces host tty program args profile mitm Hu (pre ++ log0)) as (r & body & E & Hp & Hl & Hf).
  exists r, body. fold cwd in Hp, Hf. unfold protected_run. split_and!.
  - rewrite Hrun, E, !sessions_app, Hs0, Hpre. by rewrite <- !app_assoc.
  - intros e He Hs.
    assert (∃ cwd', current_dir host = Some cwd') as [cwd' Hc].
    { destruct (current_dir host) eqn:Ec; [eauto|].
      destruct (run_body_no_cwd program args profile mitm Ec (pre ++ log0)) as (r' & body' & E' & [rest Hp'] & _).
      rewrite E in E'. injection E' as _ <-%app_inv_head.
      assert (is_spawn e = false) by (apply no_cwd_no_spawn; rewrite Hp'; apply elem_of_app; by left).
      congruence. }
    exists cwd'. assert (cwd = cwd') as Hcc by (unfold cwd; by rewrite Hc). rewrite Hcc in Hp.
    assert (body = protect_log host tty profile program mitm cwd' ++ [spawn_ev program args mitm]) as Hb
      by (eapply prefix_with_spawn; [apply protect_no_spawn|exact Hs|exact Hp|exact He]).
    assert (Forall (ok_ev host) (protect_log host tty profile program mitm cwd')) as Hok
      by (by rewrite Hb, removelast_last in Hl).
    split_and!; [done|done|done|]. rewrite Hb, sessions_app, sessions_protect by done. apply app_nil_r.
  - intros code ->. destruct (run_body_code _ _ _ _ _ _ _ E) as (st & Hst & ->).
    exists st. split_and!; [done..|]. destruct (Hf _ eq_refl) as [-> _].
    apply elem_of_app. right. by apply list_elem_of_singleton.
Qed.
(** ** Theorems *)

(** C9. The program starts only under full protection, and everything is taken
    down afterwards: whatever the system answers, [run] terminates without a
    panic; if the program was started at all, then before it, in this order and
    successfully, the namespaces were entered (id maps written with [setgroups]
    denied first, or the fallback), the mount tree was made private, every overlay
    target's real directory was opened and overlaid, the child's network was built
    (if interception is on), the working directory was re-entered through the
    overlay, the proxy was started, and the forked child joined the network
    namespace and a private mount namespace; every mounted overlay is unmounted
    and the artifacts are removed at the end, on errors too; and the result of a
    successful run is the child's exit code, or 128 plus its signal. *)
Theorem run_protects_before_spawn program args profile mitm_config :
  let '(mitm, log0) := setup_run host mitm_config in
  ∃ r body,
    run host tty program args profile mitm_config []
    = Done (r, log0 ++ body ++ map EvUnmount (sessions host body) ++ drop_log mitm) ∧
    (∀ e, e ∈ body → is_spawn e = true →
       ∃ cwd, current_dir host = Some cwd ∧
         body = protect_log host tty profile program mitm cwd ++ [spawn_ev program args mitm] ∧
         Forall (ok_ev host) (protect_log host tty profile program mitm cwd) ∧
         sessions host body = overlay_targets cwd) ∧
    (∀ code, r = Ok code →
       ∃ st, child_status host = Some st ∧ code = exit_code st ∧ spawn_ev program args mitm ∈ body).
Proof. by apply (run_protected program args profile mitm_config []). Qed.

(** [main] runs the program under a profile, after the logger's events. *)
Definition main_runs (cli : Cli) (program : bytes) (args : list bytes) (profile : DynProfile) (logs : list Ev) : Prop :=
  let '(mitm, log0) := setup_run host (cli_mitm_config cli) in
  ∃ r body,
    main host tty cli []
    = Done (match r with Ok code => code | Err _ => 1 end,
            logs ++ log0 ++ body ++ map EvUnmount (sessions host body) ++ drop_log mitm) ∧
    protected_run program args profile mitm r body.

(** A logging event. *)
Definition is_log (e : Ev) : bool := match e with EvLog _ => true | _ => false end.

Lemma logs_are_logs l : forallb is_log (map EvLog l) = true.
Proof. by induction l. Qed.

Lemma sessions_logs l : sessions host (map EvLog l) = [].
Proof. by induction l. Qed.

(** C18. [main] refuses before touching anything: an unknown [--profile] exits
    with 2, and a program without a profile with 1 unless unknown programs are
    allowed, in both cases with nothing done but setting up the logger; otherwise
    the run is a protected one with the profile asked for (or found, or the
    unrestricted one), and the process exits with the program's code, or with 1
    on an error. *)
Theorem main_refuses_first allow profile_name dbg logs_to intercept config program args :
  let cli := mkCli allow profile_name dbg logs_to intercept config (program :: args) in
  ∃ logs, forallb is_log logs = true ∧
    match profile_name, resolve program with
    | Some name, _ =>
        match by_name name with
        | None => main host tty cli [] = Done (2, logs)
        | Some profile => main_runs cli program args profile logs
        end
    | None, Some profile => main_runs cli program args profile logs
    | None, None =>
        if allow then main_runs cli program args unrestricted logs
        else main host tty cli [] = Done (1, logs)
    end.
Proof.
  intros cli. destruct (log_total (h_log host) dbg logs_to) as (logger & l & El).
  exists (map EvLog l). split; [apply logs_are_logs|].
  assert (main host tty cli [] =
    match select_profile cli program with
    | Err code => Done (code, map EvLog l)
    | Ok profile =>
        (let! r := run host tty program args profile (cli_mitm_config cli) in
         ret (match r with Ok code => code | Err _ => 1 end)) (map EvLog l)
    end) as Hmain.
  { unfold main, bind at 1, log_do. cbn [debug log_file cli command]. rewrite El. by destruct (select_profile cli program). }
  assert (∀ profile, select_profile cli program = Ok profile → main_runs cli program args profile (map EvLog l)) as Hrun.
  { intros profile Hp. rewrite Hp in Hmain. unfold main_runs.
    pose proof (run_protected program args profile (cli_mitm_config cli) (map EvLog l) (sessions_logs l)) as Hr.
    destruct (setup_run host (cli_mitm_config cli)) as [mitm log0]. destruct Hr as (r & body & E & Hb).
    exists r, body. split; [|done]. rewrite Hmain. unfold bind. by rewrite E. }
  revert Hmain Hrun. unfold select_profile. cbn [cli cli_profile allow_unknown_program].
  destruct profile_name as [name|].
  - destruct (by_name name); intros Hmain Hrun; [by apply Hrun|done].
  - destruct (resolve program); [|destruct allow]; intros Hmain Hrun;
      [by apply Hrun|by apply Hrun|done].
Qed.
End thms.
